(* ===== verification/_CoqProject ===== *)
-Q . S2P
Prelude.v
Encoding.v
Hlc.v
Keys.v
MvccKey.v
Pebble.v
Enginepb.v
Mvcc.v
MvccView.v
MvccRead.v
MvccWrite.v
MvccState.v
MvccTxn.v
MvccScan.v
MvccRange.v
MvccRangeSpec.v
MvccTotal.v
Kvpb.v
TxnRecord.v
TxnRecordSpec.v
KvpbWire.v
Gc.v
Latch.v
TsCache.v
Strconv.v
Apply.v
ApplySpec.v
OnePhase.v
Execute.v
ExecuteSpec.v
RaftStorage.v
RaftStorageSpec.v
Snapshot.v
Responses.v
Decimal.v
DecimalSpec.v
Datum.v
Rowenc.v
RowencSpec.v
RowValueSpec.v
