(* ===== verification/Prelude.v ===== *)
(** * A verification of datax

    datax is a distributed SQL database in Go: a SQL layer over a
    transactional key-value store, replicated range by range with raft on
    Pebble engines.  This library models the key-value core and proves what
    the layers above rely on.

    ** The parts and their files

    Bottom up; every file names its sources (under src/pkg) in its first lines.

    - Prelude: bytes, machine words, results, tactics and hints.
    - Encoding (util/encoding/encoding.go): order-preserving key encodings.
    - Hlc (util/hlc/hlc.go): timestamps on int64/int32 and the clock.
    - Keys (keys/keys.go): the key families, spans and range addressing.
    - MvccKey (storage/mvcc_key.go, comparer.go): engine keys and values.
    - Pebble (storage/engine.go): the class [Pebble] of what the code uses of
      the engine and its documented laws; [map_pebble] is an instance.
    - Enginepb (storage/enginepb): intent metadata and its stored encodings.
    - Mvcc, MvccWrite, MvccScan (storage/mvcc.go, mvcc_export.go): reads,
      writes, intents, savepoints, locks, scans, refreshes and exports.
      MvccView, MvccRead, MvccState, MvccTxn, MvccRange, MvccRangeSpec and
      MvccTotal hold their correctness.
    - Kvpb, KvpbWire (kvpb): the batch API and its wire encoding.
    - TxnRecord, TxnRecordSpec (kvserver/txn.go): transaction records.
    - Gc (kvserver/gc.go): garbage collection.
    - Latch, TsCache (kvserver/latch.go, tscache.go): concurrency control.
    - Strconv: Go's decimal integers, the format of counters.
    - Apply, ApplySpec, OnePhase, Responses (kvserver/apply.go, state.go, the
      triggers of split.go and merge.go): evaluation of batches and
      application of the log.
    - Execute, ExecuteSpec (kvserver/replica.go, closedts.go): a leader
      serving interleaved batches and closing timestamps.
    - RaftStorage, RaftStorageSpec (kvserver/raft_storage.go, raftengine.go):
      the raft log on an engine, and truncation with split engines.
    - Snapshot (kvserver/replicate.go, catchup.go): transfer of a range.

    ** How the code is modelled

    A Go struct is a record, a tagged union or interface an inductive type, a
    function a definition of the same name.  Code that mutates a batch is a
    function of the state in a small monad ([BM], [EM], [AM]) whose errors
    keep the effects made before them.  A mutex-protected call is one step;
    interleavings are lists of such steps (Latch, Execute).  Iterators are
    positions in a bounded view of the store, moved as the code moves them.
    Integers keep their width: [u64], [i64] and [i32] wrap.

    Libraries the code calls are classes with their documented behaviour as
    laws: Pebble, the protobuf and JSON marshallers ([MetaCodec], [TxnCodec],
    [StateCodec], [WireCodec], [EntryCodec]).  Each has a concrete instance,
    with which the witnesses evaluate.

    Loops over an iterator carry fuel, one more than the entries of the
    iterator's view: every turn consumes an entry, so the fuel is enough, as
    [MvccTotal.mvcc_reads_settle] proves for the reads and the refinement
    lemmas do for the others.

    ** What the theorems show

    - Storage: point reads meet a declarative specification; writes, commits,
      aborts and savepoint rollbacks do to every later read what a
      transaction expects; scans, pages and reverse scans agree with point
      reads; a refresh means the reads would repeat; an export is the
      difference of two snapshots; reads always return; all operations keep
      the engine's invariant.
    - Transactions: a commit or a pushed abort is final, a staged commit
      survives pushes, the commit gate is invariant, and a one-phase commit is
      the classic protocol in one step.
    - Replication: replay after a crash at any point of the log ends in the
      same state; failed commands leave no trace; the raft log refines a list
      and its deferred truncation never loses what a crash still needs; a
      snapshot transfers exactly a range; responses match requests.
    - Concurrency: overlapping latches are held only when shared, an
      acquisition makes progress, the conflict index equals a scan; the
      timestamp cache protects recorded reads in bounded memory; over every
      interleaving, served reads and closed timestamps are never undercut by
      a write that was not abandoned.
    - Housekeeping: garbage collection leaves reads at or above its threshold
      alone and collects a transaction record only when nothing needs it.
    - Encodings: order, round trips and wire round trips.
    - Where the code departs from its comments there is a theorem with the
      run that shows it (create_unstages_commit,
      lock_abort_loses_observed_version, locking_scan_deletes_empty_value,
      abandoned_write_lands_beneath_read, gc_chunk_resurrects,
      snapshot_forgets_freeze).

    ** Not modelled

    The SQL layer (parser, planner, execution, pgwire), the client's
    transaction coordinator and range cache, the etcd raft library and the
    goroutines and timers around it, the administrative proposers of splits,
    merges and replica changes, the network, encryption at rest and metrics.
    I/O errors of the engine are left out: an engine call that fails stops
    the store. *)

(** ** Prelude: bytes, words, results and the tactics of the development *)

From stdpp Require Export base tactics list option gmap.
From Stdlib Require Export ZArith Lia.

#[global] Open Scope Z_scope.

(** ** Bytes and byte strings *)

(** A Go [byte] is a [Z] in [0, 256); a [[]byte] whose nil-ness does not
    matter is a list of them.  Where the code tests a slice against [nil]
    the model uses [option bytes] ([None] = nil). *)
Abbreviation byte := Z (only parsing).
Abbreviation bytes := (list Z) (only parsing).

Definition is_byte (b : byte) : Prop := 0 <= b < 256.
Definition bytes_ok (l : bytes) : Prop := Forall is_byte l.

#[export] Instance is_byte_dec b : Decision (is_byte b).
Proof. unfold is_byte. apply _. Defined.
#[export] Instance bytes_ok_dec l : Decision (bytes_ok l).
Proof. unfold bytes_ok. apply _. Defined.

(** Go's [bytes.Compare]: lexicographic comparison. *)
Fixpoint bcompare (a b : bytes) : comparison :=
  match a, b with
  | [], [] => Eq
  | [], _ :: _ => Lt
  | _ :: _, [] => Gt
  | x :: a', y :: b' =>
      match x ?= y with
      | Eq => bcompare a' b'
      | c => c
      end
  end.

Definition bltb (a b : bytes) : bool :=
  match bcompare a b with Lt => true | _ => false end.
Definition bleb (a b : bytes) : bool :=
  match bcompare a b with Gt => false | _ => true end.
Definition beqb (a b : bytes) : bool := bool_decide (a = b).

(** Go's [bytes.HasPrefix]. *)
Fixpoint has_prefix (k p : bytes) {struct p} : bool :=
  match p, k with
  | [], _ => true
  | x :: p', y :: k' => (x =? y) && has_prefix k' p'
  | _ :: _, [] => false
  end.

Declare Scope bytes_scope.
Delimit Scope bytes_scope with bytes.
Notation "a ≺ b" := (bcompare a b = Lt) (at level 70, no associativity) : bytes_scope.
Notation "a ≼ b" := (bcompare a b <> Gt) (at level 70, no associativity) : bytes_scope.
#[global] Open Scope bytes_scope.

(** ** Fixed-width integers *)

(** Go's [uint64(v)], [int64(u)], [uint32(v)] and [int32(u)] conversions. *)
Definition u64 (v : Z) : Z := v mod 2 ^ 64.
Definition u32 (v : Z) : Z := v mod 2 ^ 32.
Definition i64 (u : Z) : Z := (u + 2 ^ 63) mod 2 ^ 64 - 2 ^ 63.
Definition i32 (u : Z) : Z := (u + 2 ^ 31) mod 2 ^ 32 - 2 ^ 31.

Definition in_i64 (v : Z) : Prop := - 2 ^ 63 <= v < 2 ^ 63.
Definition in_i32 (v : Z) : Prop := - 2 ^ 31 <= v < 2 ^ 31.
Definition in_u64 (v : Z) : Prop := 0 <= v < 2 ^ 64.
Definition in_u32 (v : Z) : Prop := 0 <= v < 2 ^ 32.

(** Big-endian bytes of the low [8 * n] bits of [v]
    ([binary.BigEndian.AppendUint64] at [n = 8]) and their value. *)
Fixpoint be (n : nat) (v : Z) : bytes :=
  match n with
  | O => []
  | S m => (v / 256 ^ Z.of_nat m) mod 256 :: be m v
  end.

Definition be_val (l : bytes) : Z := fold_left (fun acc b => acc * 256 + b) l 0.

(** Go's unary [^] on a [w]-bit unsigned word. *)
Definition compl (w : Z) (u : Z) : Z := Z.lxor u (Z.ones w).

(** ** Results: a value or an error *)

Inductive result (E A : Type) : Type :=
| Ok (a : A)
| Err (e : E).
Arguments Ok {E A} a.
Arguments Err {E A} e.

Definition rbind {E A B} (m : result E A) (k : A -> result E B) : result E B :=
  match m with Ok a => k a | Err e => Err e end.

Definition rmap_err {E F A} (f : E -> F) (m : result E A) : result F A :=
  match m with Ok a => Ok a | Err e => Err (f e) end.

Declare Scope result_scope.
Delimit Scope result_scope with result.
Notation "'let*' x := m 'in' k" := (rbind m (fun x => k))
  (at level 10, x pattern, m at level 100, k at level 200) : result_scope.
#[global] Open Scope result_scope.

(** ** Hints and tactics of the development *)

Create HintDb datax.

(** Split the boolean comparisons of the code into propositions. *)
Ltac zb :=
  repeat match goal with
  | H : (_ =? _) = true |- _ => apply Z.eqb_eq in H
  | H : (_ =? _) = false |- _ => apply Z.eqb_neq in H
  | H : (_ <? _) = true |- _ => apply Z.ltb_lt in H
  | H : (_ <? _) = false |- _ => apply Z.ltb_ge in H
  | H : (_ <=? _) = true |- _ => apply Z.leb_le in H
  | H : (_ <=? _) = false |- _ => apply Z.leb_gt in H
  | H : (_ && _)%bool = true |- _ => apply andb_true_iff in H; destruct H
  | H : (_ || _)%bool = false |- _ => apply orb_false_iff in H; destruct H
  | H : negb _ = true |- _ => apply negb_true_iff in H
  | H : negb _ = false |- _ => apply negb_false_iff in H
  end.

(** Case analysis on the scrutinee of a match in the goal. *)
Ltac case_goal :=
  match goal with
  | |- context [match ?x with _ => _ end] => destruct x eqn:?
  end.

(** Case analysis on a match in a hypothesis. *)
Ltac case_in H :=
  match type of H with
  | context [match ?x with _ => _ end] => destruct x eqn:?
  end.

(** Decide a closed decidable proposition by evaluation. *)
Ltac by_compute := apply (bool_decide_unpack _); vm_compute; exact I.

(** ** Lexicographic order *)

Lemma bcompare_refl a : bcompare a a = Eq.
Proof. induction a as [|x a IH]; simpl; [done|]. by rewrite Z.compare_refl. Qed.

Lemma bcompare_eq a b : bcompare a b = Eq <-> a = b.
Proof.
  split; [|intros ->; apply bcompare_refl].
  revert b; induction a as [|x a IH]; intros [|y b]; simpl; try done.
  destruct (Z.compare_spec x y) as [->| |]; try done. intros H. by rewrite (IH b).
Qed.

Lemma bcompare_antisym a b : bcompare b a = CompOpp (bcompare a b).
Proof.
  revert b; induction a as [|x a IH]; intros [|y b]; simpl; try done.
  rewrite (Z.compare_antisym x y). destruct (x ?= y); simpl; auto.
Qed.

Lemma bcompare_gt a b : bcompare a b = Gt <-> b ≺ a.
Proof. rewrite (bcompare_antisym a b). destruct (bcompare a b); simpl; naive_solver. Qed.

Lemma blt_trans a b c : a ≺ b -> b ≺ c -> a ≺ c.
Proof.
  revert b c; induction a as [|x a IH]; intros [|y b] [|z c]; simpl; try done.
  destruct (Z.compare_spec x y), (Z.compare_spec y z), (Z.compare_spec x z);
    intros; subst; try done; try lia; eauto.
Qed.

Lemma blt_irrefl a : ~ a ≺ a.
Proof. by rewrite bcompare_refl. Qed.

Lemma ble_lt_eq a b : a ≼ b <-> a ≺ b \/ a = b.
Proof. rewrite <- bcompare_eq. destruct (bcompare a b); naive_solver. Qed.

Lemma ble_refl a : a ≼ a.
Proof. by rewrite bcompare_refl. Qed.

Lemma blt_ble a b : a ≺ b -> a ≼ b.
Proof. intros ->. done. Qed.

Lemma ble_not_lt a b : a ≼ b <-> ~ b ≺ a.
Proof. rewrite <- bcompare_gt. done. Qed.

Lemma blt_not_le a b : a ≺ b <-> ~ b ≼ a.
Proof. rewrite (bcompare_antisym a b). destruct (bcompare a b); simpl; naive_solver. Qed.

Lemma ble_trans a b c : a ≼ b -> b ≼ c -> a ≼ c.
Proof.
  rewrite !ble_lt_eq. intros [?| ->] [?| ->]; eauto using blt_trans.
Qed.

Lemma ble_lt_trans a b c : a ≼ b -> b ≺ c -> a ≺ c.
Proof. rewrite ble_lt_eq. intros [?| ->] ?; eauto using blt_trans. Qed.

Lemma blt_le_trans a b c : a ≺ b -> b ≼ c -> a ≺ c.
Proof. rewrite (ble_lt_eq b c). intros ? [?| <-]; eauto using blt_trans. Qed.

Lemma ble_antisym a b : a ≼ b -> b ≼ a -> a = b.
Proof. rewrite !ble_lt_eq. intros [?| ->] [?|]; auto. by destruct (blt_irrefl a); eapply blt_trans. Qed.

Lemma blt_total a b : a ≺ b \/ a = b \/ b ≺ a.
Proof. rewrite <- (bcompare_gt a b), <- bcompare_eq. destruct (bcompare a b); auto. Qed.

Lemma bltb_lt a b : bltb a b = true <-> a ≺ b.
Proof. unfold bltb. destruct (bcompare a b); naive_solver. Qed.
Lemma bltb_ge a b : bltb a b = false <-> b ≼ a.
Proof. unfold bltb. rewrite (bcompare_antisym a b). destruct (bcompare a b); simpl; naive_solver. Qed.
Lemma bleb_le a b : bleb a b = true <-> a ≼ b.
Proof. unfold bleb. destruct (bcompare a b); naive_solver. Qed.
Lemma bleb_gt a b : bleb a b = false <-> b ≺ a.
Proof. unfold bleb. rewrite (bcompare_antisym a b). destruct (bcompare a b); simpl; naive_solver. Qed.
Lemma beqb_eq a b : beqb a b = true <-> a = b.
Proof. unfold beqb. by rewrite bool_decide_eq_true. Qed.
Lemma beqb_neq a b : beqb a b = false <-> a <> b.
Proof. unfold beqb. by rewrite bool_decide_eq_false. Qed.
Lemma beqb_refl a : beqb a a = true.
Proof. by apply beqb_eq. Qed.

Lemma bcompare_app p a b : bcompare (p ++ a) (p ++ b) = bcompare a b.
Proof. induction p as [|x p IH]; simpl; [done|]. by rewrite Z.compare_refl. Qed.

Lemma bcompare_app_r a b : a ≼ a ++ b.
Proof. rewrite <- (app_nil_r a) at 1. rewrite bcompare_app. by destruct b. Qed.

Lemma blt_app_cons p x r : p ≺ p ++ x :: r.
Proof. rewrite <- (app_nil_r p) at 1. by rewrite bcompare_app. Qed.

(** A difference at equal length decides whatever follows. *)
Lemma blt_app_same_len a b r s :
  length a = length b -> a ≺ b -> a ++ r ≺ b ++ s.
Proof.
  revert b; induction a as [|x a IH]; intros [|y b]; simpl; try done.
  destruct (x ?= y); try done. intros [= ?]. auto.
Qed.

Lemma has_prefix_spec k p : has_prefix k p = true <-> exists r, k = p ++ r.
Proof.
  revert k; induction p as [|x p IH]; intros k; simpl.
  { split; [intros _; by exists k | done]. }
  destruct k as [|y k]; [by split; [|intros [? ?]]|].
  rewrite andb_true_iff, IH, Z.eqb_eq. split.
  - intros [-> [r ->]]. by exists r.
  - intros [r [= -> ->]]. eauto.
Qed.

Lemma has_prefix_app p r : has_prefix (p ++ r) p = true.
Proof. apply has_prefix_spec. eauto. Qed.

(** Keys between [p ++ [x]] and [p ++ [x + 1]] extend [p ++ [x]]. *)
Lemma between_bump p x k :
  p ++ [x] ≼ k -> k ≺ p ++ [x + 1] -> exists r, k = (p ++ [x]) ++ r.
Proof.
  revert k; induction p as [|y p IH]; intros [|z k]; simpl; try done.
  - destruct (Z.compare_spec x z), (Z.compare_spec z (x + 1)); subst; try done; try lia.
    + exists k. done.
    + by destruct k.
  - destruct (Z.compare_spec y z), (Z.compare_spec z y); subst; try done; try lia.
    intros H1 H2. destruct (IH k H1 H2) as [r ->]. by exists r.
Qed.

Lemma below_bump p x r : (p ++ [x]) ++ r ≺ p ++ [x + 1].
Proof.
  rewrite <- app_assoc, bcompare_app. simpl. assert (x < x + 1) by lia.
  by destruct (Z.compare_spec x (x + 1)); try lia.
Qed.

#[export] Hint Resolve blt_ble ble_refl bcompare_app_r blt_app_cons below_bump : datax.

(** ** Words *)

Lemma length_be n v : length (be n v) = n.
Proof. induction n; simpl; auto. Qed.

Lemma be_ok n v : bytes_ok (be n v).
Proof.
  induction n; simpl; constructor; auto.
  unfold is_byte. pose proof (Z.mod_pos_bound (v / 256 ^ Z.of_nat n) 256). lia.
Qed.

Lemma be_mod n v : be n (v mod 256 ^ Z.of_nat n) = be n v.
Proof.
  enough (H : forall m, (n <= m)%nat -> be n (v mod 256 ^ Z.of_nat m) = be n v) by auto.
  induction n as [|n IH]; intros m Hm; simpl; [done|].
  f_equal; [|apply IH; lia].
  replace (Z.of_nat m) with (Z.of_nat n + (1 + Z.of_nat (m - S n))) by lia.
  rewrite !Z.pow_add_r by lia. rewrite Z.pow_1_r.
  set (P := 256 ^ Z.of_nat n). set (Q := 256 ^ Z.of_nat (m - S n)).
  assert (0 < P) by (apply Z.pow_pos_nonneg; lia).
  assert (0 < Q) by (apply Z.pow_pos_nonneg; lia).
  rewrite Z.rem_mul_r by nia.
  rewrite (Z.mul_comm P), Z.div_add by lia.
  rewrite (Z.div_small (v mod P)) by (apply Z.mod_pos_bound; lia).
  rewrite Z.add_0_l, Z.rem_mul_r by nia.
  rewrite (Z.mul_comm 256), Z.mod_add by lia. by rewrite Z.mod_mod.
Qed.

Lemma be_val_app l acc : fold_left (fun a b => a * 256 + b) l acc = acc * 256 ^ Z.of_nat (length l) + be_val l.
Proof.
  unfold be_val. revert acc; induction l as [|b l IH]; intros acc.
  - simpl. lia.
  - cbn [fold_left length]. rewrite IH, (IH (0 * 256 + b)).
    rewrite Nat2Z.inj_succ, Z.pow_succ_r by lia. lia.
Qed.

Lemma be_val_be n v : be_val (be n v) = v mod 256 ^ Z.of_nat n.
Proof.
  induction n as [|n IH].
  - simpl. by rewrite Z.mod_1_r.
  - cbn [be]. unfold be_val. cbn [fold_left]. rewrite be_val_app, IH, length_be.
    rewrite Nat2Z.inj_succ, Z.pow_succ_r by lia.
    assert (0 < 256 ^ Z.of_nat n) by (apply Z.pow_pos_nonneg; lia).
    rewrite (Z.mul_comm 256), (Z.rem_mul_r v) by lia. lia.
Qed.

Lemma be_val_bound l : bytes_ok l -> 0 <= be_val l < 256 ^ Z.of_nat (length l).
Proof.
  induction 1 as [|b l Hb _ IH]; [unfold be_val; simpl; lia|].
  unfold be_val in *. cbn [fold_left length]. rewrite be_val_app.
  unfold be_val. rewrite Nat2Z.inj_succ, Z.pow_succ_r by lia. unfold is_byte in Hb. nia.
Qed.

Lemma be_be_val l : bytes_ok l -> be (length l) (be_val l) = l.
Proof.
  induction 1 as [|b l Hb Hl IH]; [done|].
  pose proof (be_val_bound l Hl). unfold is_byte in Hb.
  assert (E : be_val (b :: l) = b * 256 ^ Z.of_nat (length l) + be_val l).
  { unfold be_val at 1. cbn [fold_left]. by rewrite be_val_app. }
  cbn [length be]. rewrite E. f_equal.
  - rewrite Z.add_comm, Z.div_add by lia. rewrite (Z.div_small (be_val l)) by lia.
    rewrite Z.mod_small; lia.
  - rewrite <- (be_mod (length l)), Z.add_comm, Z.mod_add by lia.
    by rewrite Z.mod_small.
Qed.

Lemma be_compare n x y :
  0 <= x < 256 ^ Z.of_nat n -> 0 <= y < 256 ^ Z.of_nat n ->
  bcompare (be n x) (be n y) = (x ?= y).
Proof.
  revert x y; induction n as [|n IH]; intros x y Hx Hy.
  - simpl in *. assert (x = y) as -> by lia. by rewrite Z.compare_refl.
  - cbn [be bcompare]. rewrite Nat2Z.inj_succ, Z.pow_succ_r in Hx, Hy by lia.
    set (P := 256 ^ Z.of_nat n) in *. assert (0 < P) by (apply Z.pow_pos_nonneg; lia).
    rewrite !Z.mod_small by (split; [apply Z.div_pos; lia | apply Z.div_lt_upper_bound; lia]).
    rewrite <- (be_mod n x), <- (be_mod n y). fold P.
    rewrite IH by (apply Z.mod_pos_bound; lia).
    pose proof (Z.div_mod x P). pose proof (Z.div_mod y P).
    pose proof (Z.mod_pos_bound x P). pose proof (Z.mod_pos_bound y P).
    destruct (Z.compare_spec (x / P) (y / P)), (Z.compare_spec (x mod P) (y mod P)),
      (Z.compare_spec x y); try done; nia.
Qed.

(** Order of two values behind fixed-width prefixes. *)
Lemma be_compare_app n x y r s :
  0 <= x < 256 ^ Z.of_nat n -> 0 <= y < 256 ^ Z.of_nat n ->
  bcompare (be n x ++ r) (be n y ++ s) =
    match x ?= y with Eq => bcompare r s | c => c end.
Proof.
  intros Hx Hy. pose proof (be_compare n x y Hx Hy) as H.
  destruct (Z.compare_spec x y) as [->|?|?].
  - apply bcompare_app.
  - apply blt_app_same_len; [by rewrite !length_be | done].
  - apply bcompare_gt, blt_app_same_len; [by rewrite !length_be|]. by apply bcompare_gt.
Qed.

Lemma compl_sub w u : 0 <= w -> 0 <= u < 2 ^ w -> compl w u = 2 ^ w - 1 - u.
Proof.
  intros Hw Hu. unfold compl.
  assert (Hlow : Z.ldiff u (Z.ones w) = 0).
  { destruct (decide (u = 0)) as [->|]; [apply Z.ldiff_0_l|].
    apply Z.ldiff_ones_r_low; [lia|]. apply Z.log2_lt_pow2; lia. }
  replace (2 ^ w - 1 - u) with (Z.ones w - u) by (rewrite Z.ones_equiv; lia).
  rewrite (Z.sub_nocarry_ldiff _ _ Hlow). apply Z.bits_inj'. intros n Hn.
  rewrite Z.lxor_spec, Z.ldiff_spec.
  apply (f_equal (fun z => Z.testbit z n)) in Hlow.
  rewrite Z.ldiff_spec, Z.bits_0 in Hlow.
  by destruct (Z.testbit u n), (Z.testbit (Z.ones w) n).
Qed.

Lemma compl_involutive w u : compl w (compl w u) = u.
Proof. unfold compl. by rewrite Z.lxor_assoc, Z.lxor_nilpotent, Z.lxor_0_r. Qed.

Lemma compl_bound w u : 0 <= w -> 0 <= u < 2 ^ w -> 0 <= compl w u < 2 ^ w.
Proof. intros ? ?. rewrite compl_sub; lia. Qed.

(** The sign-bit flip [u ^ (1 << 63)] is an offset modulo the word. *)
Lemma lxor_sign w u :
  0 <= w -> 0 <= u < 2 ^ (w + 1) ->
  Z.lxor u (2 ^ w) = if u <? 2 ^ w then u + 2 ^ w else u - 2 ^ w.
Proof.
  intros Hw Hu. rewrite Z.pow_add_r in Hu by lia. change (2 ^ 1) with 2 in Hu.
  assert (Hadd : forall v, 0 <= v < 2 ^ w -> Z.lxor v (2 ^ w) = v + 2 ^ w).
  { intros v Hv. symmetry. apply Z.add_nocarry_lxor. apply Z.bits_inj'. intros n Hn.
    rewrite Z.land_spec, Z.bits_0, Z.pow2_bits_eqb by lia.
    destruct (Z.eqb_spec w n) as [->|]; [|by rewrite andb_false_r].
    rewrite andb_true_r. destruct (decide (v = 0)) as [->|]; [apply Z.bits_0|].
    apply Z.bits_above_log2; [lia|]. apply Z.log2_lt_pow2; lia. }
  destruct (Z.ltb_spec u (2 ^ w)); [apply Hadd; lia|].
  replace u with ((u - 2 ^ w) + 2 ^ w) at 1 by lia. rewrite <- Hadd by lia.
  by rewrite Z.lxor_assoc, Z.lxor_nilpotent, Z.lxor_0_r.
Qed.

Lemma u64_bound v : in_u64 (u64 v).
Proof. apply Z.mod_pos_bound. lia. Qed.
Lemma u32_bound v : in_u32 (u32 v).
Proof. apply Z.mod_pos_bound. lia. Qed.

Lemma i64_u64 v : in_i64 v -> i64 (u64 v) = v.
Proof.
  unfold in_i64, i64, u64. intros H. rewrite Z.add_mod_idemp_l by lia.
  rewrite Z.mod_small; lia.
Qed.
Lemma i32_u32 v : in_i32 v -> i32 (u32 v) = v.
Proof.
  unfold in_i32, i32, u32. intros H. rewrite Z.add_mod_idemp_l by lia.
  rewrite Z.mod_small; lia.
Qed.
Lemma u64_small v : in_u64 v -> u64 v = v.
Proof. intros H. apply Z.mod_small, H. Qed.
Lemma u32_small v : in_u32 v -> u32 v = v.
Proof. intros H. apply Z.mod_small, H. Qed.

(** Low bits and shifted high bits do not overlap. *)
Lemma lor_shiftl_add x m s :
  0 <= s -> 0 <= x < 2 ^ s -> Z.lor x (Z.shiftl m s) = x + m * 2 ^ s.
Proof.
  intros Hs Hx. rewrite <- Z.shiftl_mul_pow2 by done.
  assert (Hland : Z.land x (Z.shiftl m s) = 0).
  { apply Z.bits_inj'. intros n Hn. rewrite Z.land_spec, Z.bits_0, Z.shiftl_spec by done.
    destruct (decide (n < s)); [by rewrite (Z.testbit_neg_r m) by lia; apply andb_false_r|].
    destruct (decide (x = 0)) as [->|]; [by rewrite Z.bits_0|].
    rewrite Z.bits_above_log2; [done|lia|]. assert (Z.log2 x < s) by (apply Z.log2_lt_pow2; lia). lia. }
  rewrite <- Z.lxor_lor by done. by rewrite <- Z.add_nocarry_lxor.
Qed.

(** ** Results *)

Lemma rbind_ok {E A B} (m : result E A) (k : A -> result E B) b :
  rbind m k = Ok b <-> exists a, m = Ok a /\ k a = Ok b.
Proof. destruct m; simpl; naive_solver. Qed.

Lemma rmap_err_ok {E F A} (f : E -> F) (m : result E A) a :
  rmap_err f m = Ok a <-> m = Ok a.
Proof. destruct m; simpl; naive_solver. Qed.

(** ** Maps *)

(** Ranging over a Go map visits every entry once, in an order the language
    leaves open: the definitions that range over a map take the order as a
    parameter. *)
Class MapRange := {
  range_map {K V} `{Countable K} : gmap K V -> list (K * V);
  range_map_perm {K V} `{Countable K} (m : gmap K V) : range_map m ≡ₚ map_to_list m }.

Definition range_to_list : MapRange :=
  {| range_map _ _ _ _ m := map_to_list m; range_map_perm _ _ _ _ m := Permutation_refl (map_to_list m) |}.

Lemma elem_of_range_map `{MapRange} {K V} `{Countable K} (m : gmap K V) k v : (k, v) ∈ range_map m <-> m !! k = Some v.
Proof. by rewrite range_map_perm, elem_of_map_to_list. Qed.

(** Go's lookup of a slice-valued map: a missing key reads as the nil slice. *)
Definition lookup_list {K V} `{Countable K} (k : K) (m : gmap K (list V)) : list V := default [] (m !! k).
