(* ===== verification/Encoding.v ===== *)
(** * Order-preserving binary encodings (pkg/util/encoding/encoding.go)

    [Encode*] append to a slice, [Decode*] consume a prefix and return the
    rest.  The ordering theorems say that the byte order of two encodings
    is the order of the values; the round trips say that a decoder returns
    what was encoded and leaves the rest of the input untouched.  The
    decimal encoding is in Decimal.v. *)

From S2P Require Import Prelude.
From Stdlib Require Import Wf_nat.

(** The errors of the decoders, with the data their messages carry. *)
Inductive dec_err : Type :=
| NeedBytes (have : Z)                 (* decode uint64: need 8 bytes, have %d *)
| MalformedUvarint                     (* decode uvarint: malformed input *)
| EmptyBool                            (* decode bool: empty input *)
| TruncatedEscape                      (* decode bytes: truncated escape *)
| InvalidEscape (b : byte)             (* decode bytes: invalid escape 0x00 0x%02x *)
| MissingTerminator                    (* decode bytes: missing terminator *)
| InInt64 (e : dec_err)                (* decode int64: %w *)
| InFloat64 (e : dec_err).             (* decode float64: %w *)

Definition dec A := result dec_err (bytes * A).

(** ** Fixed-width integers *)

Definition EncodeUint64 (b : bytes) (v : Z) : bytes := b ++ be 8 v.

Definition DecodeUint64 (b : bytes) : dec Z :=
  if (length b <? 8)%nat then Err (NeedBytes (Z.of_nat (length b)))
  else Ok (drop 8 b, be_val (take 8 b)).

Definition EncodeInt64 (b : bytes) (v : Z) : bytes :=
  b ++ be 8 (Z.lxor (u64 v) (2 ^ 63)).

Definition DecodeInt64 (b : bytes) : dec Z :=
  match DecodeUint64 b with
  | Err e => Err (InInt64 e)
  | Ok (rest, u) => Ok (rest, i64 (Z.lxor u (2 ^ 63)))
  end.

(** A float64 is its IEEE-754 bit pattern ([math.Float64bits]). *)
Definition EncodeFloat64 (b : bytes) (bits : Z) : bytes :=
  let u := if Z.testbit bits 63 then compl 64 bits else Z.lor bits (2 ^ 63) in
  b ++ be 8 u.

Definition DecodeFloat64 (b : bytes) : dec Z :=
  match DecodeUint64 b with
  | Err e => Err (InFloat64 e)
  | Ok (rest, u) =>
      Ok (rest, if Z.testbit u 63 then Z.ldiff u (2 ^ 63) else compl 64 u)
  end.

Definition EncodeBool (b : bytes) (v : bool) : bytes :=
  b ++ [if v then 1 else 0].

Definition DecodeBool (b : bytes) : dec bool :=
  match b with
  | [] => Err EmptyBool
  | c :: rest => Ok (rest, negb (c =? 0))
  end.

(** ** Varints ([binary.AppendUvarint], [binary.Uvarint]) *)

(** [fuel] bounds the groups of seven bits; a [uint64] has at most ten. *)
Fixpoint append_uvarint (fuel : nat) (v : Z) : bytes :=
  match fuel with
  | O => []
  | S fuel =>
      if v <? 128 then [v]
      else Z.lor (v mod 256) 128 :: append_uvarint fuel (Z.shiftr v 7)
  end.

Definition EncodeUvarint (b : bytes) (v : Z) : bytes := b ++ append_uvarint 10 v.

(** [binary.Uvarint]: the value and the count [n] of bytes read; [n <= 0]
    marks truncated ([0]) or overflowing input. *)
Fixpoint uvarint_go (buf : bytes) (i s x : Z) : Z * Z :=
  match buf with
  | [] => (0, 0)
  | b :: buf' =>
      if i =? 10 then (0, - (i + 1))
      else if b <? 128 then
        if (i =? 9) && (1 <? b) then (0, - (i + 1))
        else (Z.lor x (u64 (Z.shiftl b s)), i + 1)
      else uvarint_go buf' (i + 1) (s + 7) (Z.lor x (u64 (Z.shiftl (Z.land b 127) s)))
  end.

Definition uvarint (buf : bytes) : Z * Z := uvarint_go buf 0 0 0.

Definition DecodeUvarint (b : bytes) : dec Z :=
  let '(v, n) := uvarint b in
  if n <=? 0 then Err MalformedUvarint else Ok (drop (Z.to_nat n) b, v).

(** ** Escaped byte strings *)

Definition escape : byte := 0.
Definition escapedNul : byte := 255.
Definition terminator : byte := 1.

Fixpoint escape_bytes (data : bytes) : bytes :=
  match data with
  | [] => []
  | c :: data' =>
      if c =? escape then escape :: escapedNul :: escape_bytes data'
      else c :: escape_bytes data'
  end.

Definition EncodeBytes (b data : bytes) : bytes :=
  b ++ escape_bytes data ++ [escape; terminator].

Definition EncodedBytesLen (data : bytes) : Z :=
  Z.of_nat (length data) + 2 + Z.of_nat (length (filter (fun c => c = escape) data)).

(** The first pass of [DecodeBytes]: the index [end] of the terminator and
    the number of escaped NULs before it; [b] is the slice from index [i]. *)
Fixpoint find_end (b : bytes) (i escapes : Z) : result dec_err (Z * Z) :=
  match b with
  | [] => Err MissingTerminator
  | c :: b1 =>
      if negb (c =? escape) then find_end b1 (i + 1) escapes
      else match b1 with
           | [] => Err TruncatedEscape
           | d :: b2 =>
               if d =? escapedNul then find_end b2 (i + 2) (escapes + 1)
               else if d =? terminator then Ok (i, escapes)
               else Err (InvalidEscape d)
           end
  end.

(** The second pass: copy [b[:end]], dropping the byte after each NUL. *)
Fixpoint unescape (b : bytes) : bytes :=
  match b with
  | [] => []
  | c :: b1 =>
      c :: (if c =? escape
            then match b1 with [] => [] | _ :: b2 => unescape b2 end
            else unescape b1)
  end.

Definition DecodeBytes (b : bytes) : dec bytes :=
  let* (end_, escapes) := find_end b 0 0 in
  let n := Z.to_nat end_ in
  if escapes =? 0 then Ok (drop (n + 2) b, take n b)
  else Ok (drop (n + 2) b, unescape (take n b)).

Definition EncodeString (b s : bytes) : bytes := EncodeBytes b s.
Definition DecodeString (b : bytes) : dec bytes := DecodeBytes b.

(** ** Fixed-width integers: round trips and order *)

Lemma DecodeUint64_app u r :
  in_u64 u -> DecodeUint64 (be 8 u ++ r) = Ok (r, u).
Proof.
  intros Hu. unfold DecodeUint64. rewrite length_app, length_be.
  destruct (Nat.ltb_spec (8 + length r) 8); [lia|].
  rewrite drop_app_length', take_app_length' by (by rewrite length_be).
  rewrite be_val_be, Z.mod_small; [done|]. exact Hu.
Qed.

Lemma sign_flip_range u : in_u64 u -> in_u64 (Z.lxor u (2 ^ 63)).
Proof.
  unfold in_u64. intros H. rewrite (lxor_sign 63) by lia.
  destruct (Z.ltb_spec u (2 ^ 63)); lia.
Qed.

Lemma sign_flip_i64 v : in_i64 v -> Z.lxor (u64 v) (2 ^ 63) = v + 2 ^ 63.
Proof.
  intros Hv. pose proof (u64_bound v) as Hu. unfold in_i64, in_u64, u64 in *.
  rewrite (lxor_sign 63) by lia.
  destruct (decide (0 <= v)).
  - rewrite (Z.mod_small v) by lia. destruct (Z.ltb_spec v (2 ^ 63)); lia.
  - assert (E : v mod 2 ^ 64 = v + 2 ^ 64)
      by (symmetry; apply (Z.mod_unique_pos v _ (-1)); lia).
    rewrite E. destruct (Z.ltb_spec (v + 2 ^ 64) (2 ^ 63)); lia.
Qed.

Lemma EncodeUint64_roundtrip v r :
  in_u64 v -> DecodeUint64 (EncodeUint64 [] v ++ r) = Ok (r, v).
Proof. apply DecodeUint64_app. Qed.

Lemma EncodeUint64_compare b v w r s :
  in_u64 v -> in_u64 w ->
  bcompare (EncodeUint64 b v ++ r) (EncodeUint64 b w ++ s) =
    match v ?= w with Eq => bcompare r s | c => c end.
Proof.
  intros Hv Hw. unfold EncodeUint64. rewrite <- !app_assoc, bcompare_app.
  apply be_compare_app; assumption.
Qed.

Lemma EncodeInt64_roundtrip_app v r :
  in_i64 v -> DecodeInt64 (EncodeInt64 [] v ++ r) = Ok (r, v).
Proof.
  intros Hv. unfold DecodeInt64, EncodeInt64. rewrite app_nil_l.
  rewrite DecodeUint64_app by apply sign_flip_range, u64_bound.
  rewrite Z.lxor_assoc, Z.lxor_nilpotent, Z.lxor_0_r. by rewrite i64_u64.
Qed.

Lemma EncodeInt64_compare_app b v w r s :
  in_i64 v -> in_i64 w ->
  bcompare (EncodeInt64 b v ++ r) (EncodeInt64 b w ++ s) =
    match v ?= w with Eq => bcompare r s | c => c end.
Proof.
  intros Hv Hw. unfold EncodeInt64. rewrite <- !app_assoc, bcompare_app.
  rewrite !sign_flip_i64 by done. unfold in_i64 in *.
  rewrite be_compare_app by (simpl; lia).
  by rewrite !(Z.add_comm _ (2 ^ 63)), Zcompare_plus_compat.
Qed.

(** The total order of float64 bit patterns: the magnitude with the sign
    applied, negative patterns below positive ones ([-0] below [+0]). *)
Definition f64_order (bits : Z) : Z :=
  if bits <? 2 ^ 63 then bits else - (bits - 2 ^ 63) - 1.

Lemma testbit_sign u : in_u64 u -> Z.testbit u 63 = (2 ^ 63 <=? u).
Proof.
  unfold in_u64. intros Hu. rewrite Z.testbit_eqb by lia.
  destruct (Z.leb_spec (2 ^ 63) u).
  - replace (u / 2 ^ 63) with 1; [done|]. apply (Z.div_unique u (2 ^ 63) 1 (u - 2 ^ 63)); lia.
  - by rewrite Z.div_small by lia.
Qed.

(** The word [EncodeFloat64] writes is the order key offset by [2^63]. *)
Lemma float_word bits :
  in_u64 bits ->
  (if Z.testbit bits 63 then compl 64 bits else Z.lor bits (2 ^ 63)) = f64_order bits + 2 ^ 63.
Proof.
  intros Hu. rewrite testbit_sign by done. unfold f64_order, in_u64 in *.
  destruct (Z.leb_spec (2 ^ 63) bits), (Z.ltb_spec bits (2 ^ 63)); try lia.
  - rewrite compl_sub by lia. lia.
  - assert (Hland : Z.land bits (2 ^ 63) = 0).
    { apply Z.bits_inj'. intros n Hn. rewrite Z.land_spec, Z.bits_0, Z.pow2_bits_eqb by lia.
      destruct (Z.eqb_spec 63 n) as [<-|]; [|by rewrite andb_false_r].
      rewrite testbit_sign by (unfold in_u64; lia). by destruct (Z.leb_spec (2 ^ 63) bits); [lia|]. }
    rewrite <- Z.lxor_lor by done. rewrite <- Z.add_nocarry_lxor by done. lia.
Qed.

Lemma EncodeFloat64_compare b v w :
  in_u64 v -> in_u64 w ->
  bcompare (EncodeFloat64 b v) (EncodeFloat64 b w) = (f64_order v ?= f64_order w).
Proof.
  intros Hv Hw. unfold EncodeFloat64. rewrite bcompare_app, !float_word by done.
  rewrite be_compare.
  - by rewrite !(Z.add_comm _ (2 ^ 63)), Zcompare_plus_compat.
  - unfold f64_order, in_u64 in *. simpl Z.of_nat. destruct (Z.ltb_spec v (2 ^ 63)); lia.
  - unfold f64_order, in_u64 in *. simpl Z.of_nat. destruct (Z.ltb_spec w (2 ^ 63)); lia.
Qed.

Lemma EncodeFloat64_roundtrip v r :
  in_u64 v -> DecodeFloat64 (EncodeFloat64 [] v ++ r) = Ok (r, v).
Proof.
  intros Hv. unfold DecodeFloat64, EncodeFloat64. rewrite app_nil_l.
  rewrite float_word by done. pose proof (testbit_sign v Hv) as Hs.
  assert (Hr : in_u64 (f64_order v + 2 ^ 63)).
  { unfold f64_order, in_u64 in *. destruct (Z.ltb_spec v (2 ^ 63)); lia. }
  rewrite DecodeUint64_app, testbit_sign by done. do 2 f_equal.
  unfold f64_order, in_u64 in *. destruct (Z.ltb_spec v (2 ^ 63)).
  - destruct (Z.leb_spec (2 ^ 63) (v + 2 ^ 63)); [|lia].
    rewrite <- Z.sub_nocarry_ldiff; [lia|].
    apply Z.bits_inj'. intros n Hn. rewrite Z.ldiff_spec, Z.bits_0, Z.pow2_bits_eqb by lia.
    destruct (Z.eqb_spec 63 n) as [<-|]; [|done].
    rewrite testbit_sign by (unfold in_u64; lia).
    by destruct (Z.leb_spec (2 ^ 63) (v + 2 ^ 63)); [|lia].
  - destruct (Z.leb_spec (2 ^ 63) (- (v - 2 ^ 63) - 1 + 2 ^ 63)); [lia|].
    rewrite compl_sub by lia. lia.
Qed.

Lemma EncodeBool_roundtrip v r : DecodeBool (EncodeBool [] v ++ r) = Ok (r, v).
Proof. by destruct v. Qed.

(** ** Varints *)

Lemma uvarint_byte v :
  0 <= v -> Z.lor (v mod 256) 128 = v mod 128 + 128.
Proof.
  intros Hv. change 256 with (128 * 2). rewrite Z.rem_mul_r by lia.
  pose proof (Z.mod_pos_bound v 128). pose proof (Z.mod_pos_bound (v / 128) 2).
  pose proof (lor_shiftl_add (v mod 128) 1 7 ltac:(lia) ltac:(lia)) as E1.
  change (Z.shiftl 1 7) with 128 in E1.
  assert ((v / 128) mod 2 = 0 \/ (v / 128) mod 2 = 1) as [-> | ->] by lia.
  - rewrite Z.mul_0_r, Z.add_0_r. lia.
  - change (v mod 128 + 128 * 1) with (v mod 128 + 1 * 2 ^ 7).
    rewrite <- E1, <- Z.lor_assoc, Z.lor_diag. lia.
Qed.

Lemma uvarint_go_append fuel v r i x :
  0 <= i <= 9 -> Z.of_nat fuel = 10 - i -> 0 <= v < 2 ^ (64 - 7 * i) -> 0 <= x < 2 ^ (7 * i) ->
  uvarint_go (append_uvarint fuel v ++ r) i (7 * i) x =
    (x + v * 2 ^ (7 * i), i + Z.of_nat (length (append_uvarint fuel v))).
Proof.
  revert v i x; induction fuel as [|fuel IH]; intros v i x Hi Hf Hv Hx; [lia|].
  assert (Hp : 0 < 2 ^ (7 * i)) by (apply Z.pow_pos_nonneg; lia).
  assert (Hmul : forall m, 0 <= m <= v -> u64 (Z.shiftl m (7 * i)) = Z.shiftl m (7 * i)).
  { intros m Hm. apply u64_small. rewrite Z.shiftl_mul_pow2 by lia. unfold in_u64.
    assert (2 ^ 64 = 2 ^ (64 - 7 * i) * 2 ^ (7 * i)) by (rewrite <- Z.pow_add_r; [f_equal; lia|lia..]).
    nia. }
  cbn [append_uvarint]. destruct (Z.ltb_spec v 128) as [Hlt|Hge].
  - cbn [app uvarint_go length]. destruct (Z.eqb_spec i 10); [lia|].
    destruct (Z.ltb_spec v 128); [|lia].
    assert (Hno : (i =? 9) && (1 <? v) = false).
    { destruct (Z.eqb_spec i 9) as [->|]; [|done]. simpl in Hv. by destruct (Z.ltb_spec 1 v); [lia|]. }
    rewrite Hno, Hmul, lor_shiftl_add by lia. done.
  - assert (i <= 8).
    { destruct (decide (i = 9)) as [->|]; [|lia]. simpl in Hv. lia. }
    cbn [app uvarint_go length]. rewrite uvarint_byte by lia.
    pose proof (Z.mod_pos_bound v 128).
    destruct (Z.eqb_spec i 10); [lia|]. destruct (Z.ltb_spec (v mod 128 + 128) 128); [lia|].
    assert (Hland : Z.land (v mod 128 + 128) 127 = v mod 128).
    { change 127 with (Z.ones 7). rewrite Z.land_ones by lia. change (2 ^ 7) with 128.
      rewrite <- (Z.mul_1_l 128) at 2. rewrite Z.mod_add by lia. by apply Z.mod_mod. }
    assert (v mod 128 <= v) by (apply Z.mod_le; lia).
    rewrite Hland, Hmul, lor_shiftl_add by lia.
    replace (7 * i + 7) with (7 * (i + 1)) by lia.
    pose proof (Z.div_mod v 128).
    rewrite Z.shiftr_div_pow2 by lia. change (2 ^ 7) with 128.
    assert (E7 : 2 ^ (7 * (i + 1)) = 2 ^ (7 * i) * 128)
      by (replace (7 * (i + 1)) with (7 * i + 7) by lia; rewrite Z.pow_add_r; lia).
    rewrite IH; [|lia|lia| |rewrite E7; nia].
    + f_equal; [rewrite E7; nia|lia].
    + split; [apply Z.div_pos; lia|]. apply Z.div_lt_upper_bound; [lia|].
      replace (64 - 7 * i) with (7 + (64 - 7 * (i + 1))) in Hv by lia.
      rewrite Z.pow_add_r in Hv by lia. lia.
Qed.

Lemma append_uvarint_nonempty fuel v : (0 < fuel)%nat -> (0 < length (append_uvarint fuel v))%nat.
Proof. destruct fuel; simpl; [lia|]. destruct (v <? 128); simpl; lia. Qed.

Lemma EncodeUvarint_roundtrip v r :
  in_u64 v -> DecodeUvarint (EncodeUvarint [] v ++ r) = Ok (r, v).
Proof.
  intros Hv. unfold DecodeUvarint, EncodeUvarint, uvarint. rewrite app_nil_l.
  pose proof (uvarint_go_append 10 v r 0 0 ltac:(lia) ltac:(lia) Hv ltac:(simpl; lia)) as E.
  change (7 * 0) with 0 in E. rewrite E.
  pose proof (append_uvarint_nonempty 10 v ltac:(lia)).
  destruct (Z.leb_spec (0 + Z.of_nat (length (append_uvarint 10 v))) 0); [lia|].
  rewrite Z.add_0_l, Nat2Z.id, drop_app_length. do 2 f_equal. simpl. lia.
Qed.

(** ** Escaped byte strings *)

Lemma EncodedBytesLen_spec b data :
  Z.of_nat (length (EncodeBytes b data)) = Z.of_nat (length b) + EncodedBytesLen data.
Proof.
  unfold EncodeBytes, EncodedBytesLen. rewrite !length_app. simpl.
  enough (length (escape_bytes data) = length data + length (filter (fun c => c = escape) data))%nat by lia.
  induction data as [|c data IH]; simpl; [done|].
  destruct (Z.eqb_spec c escape) as [->|Hne].
  - rewrite filter_cons_True by done. simpl. lia.
  - rewrite filter_cons_False by done. simpl. lia.
Qed.

Lemma find_end_escape data r i n :
  find_end (escape_bytes data ++ escape :: terminator :: r) i n =
    Ok (i + Z.of_nat (length (escape_bytes data)),
        n + Z.of_nat (length (filter (fun c => c = escape) data))).
Proof.
  revert i n; induction data as [|c data IH]; intros i n; simpl.
  - do 2 f_equal; lia.
  - destruct (Z.eqb_spec c escape) as [->|Hne].
    + rewrite filter_cons_True by done. simpl. rewrite IH. do 2 f_equal; lia.
    + rewrite filter_cons_False by done. simpl.
      destruct (Z.eqb_spec c escape); [done|]. simpl. rewrite IH. do 2 f_equal; lia.
Qed.

Lemma unescape_escape data : unescape (escape_bytes data) = data.
Proof.
  induction data as [|c data IH]; simpl; [done|].
  destruct (Z.eqb_spec c escape) as [->|Hne]; simpl; [by rewrite IH|].
  destruct (Z.eqb_spec c escape); [done|]. by rewrite IH.
Qed.

Lemma escape_bytes_no_nul data :
  filter (fun c => c = escape) data = [] -> escape_bytes data = data.
Proof.
  induction data as [|c data IH]; simpl; [done|].
  destruct (decide (c = escape)) as [->|Hne].
  - by rewrite filter_cons_True.
  - rewrite filter_cons_False by done. intros H.
    destruct (Z.eqb_spec c escape); [done|]. by rewrite IH.
Qed.

Lemma EncodeBytes_app data r :
  EncodeBytes [] data ++ r = escape_bytes data ++ escape :: terminator :: r.
Proof. unfold EncodeBytes. rewrite app_nil_l, <- app_assoc. done. Qed.

Lemma EncodeBytes_roundtrip data r :
  DecodeBytes (EncodeBytes [] data ++ r) = Ok (r, data).
Proof.
  rewrite EncodeBytes_app. unfold DecodeBytes. rewrite find_end_escape. cbn [rbind].
  rewrite !Z.add_0_l, Nat2Z.id.
  rewrite take_app_length.
  rewrite drop_app_ge by lia.
  replace (length (escape_bytes data) + 2 - length (escape_bytes data))%nat with 2%nat by lia.
  cbn [drop]. rewrite unescape_escape.
  destruct (Z.eqb_spec (Z.of_nat (length (filter (fun c => c = escape) data))) 0) as [E|]; [|done].
  rewrite escape_bytes_no_nul; [done|]. apply length_zero_iff_nil. lia.
Qed.

(** Order of two encoded strings, whatever follows them. *)
Lemma escape_compare x y r s :
  bytes_ok x -> bytes_ok y ->
  bcompare (escape_bytes x ++ escape :: terminator :: r)
           (escape_bytes y ++ escape :: terminator :: s) =
    match bcompare x y with Eq => bcompare r s | c => c end.
Proof.
  revert y; induction x as [|c x IH]; intros y Hx Hy.
  - destruct y as [|d y]; [done|]. inversion Hy as [|? ? Hd ?]; subst. unfold is_byte in Hd. simpl.
    destruct (Z.eqb_spec d escape) as [->|Hne]; [done|]. unfold escape in *. simpl.
    destruct d; try done; lia.
  - inversion Hx as [|? ? Hc ?]; subst. unfold is_byte in Hc.
    destruct y as [|d y].
    + simpl. destruct (Z.eqb_spec c escape) as [->|Hne]; [done|]. unfold escape in *. simpl.
      destruct c; try done; lia.
    + inversion Hy as [|? ? Hd ?]; subst. unfold is_byte in Hd. unfold escape in *.
      cbn [escape_bytes bcompare]. unfold escape.
      destruct (Z.eqb_spec c 0) as [->|Hc0], (Z.eqb_spec d 0) as [->|Hd0]; cbn [app bcompare].
      * rewrite !Z.compare_refl. by rewrite IH.
      * destruct d; try done; lia.
      * destruct c; try done; lia.
      * destruct (c ?= d); [by rewrite IH|done..].
Qed.

Lemma EncodeBytes_compare_app b x y r s :
  bytes_ok x -> bytes_ok y ->
  bcompare (EncodeBytes b x ++ r) (EncodeBytes b y ++ s) =
    match bcompare x y with Eq => bcompare r s | c => c end.
Proof.
  intros Hx Hy. unfold EncodeBytes. rewrite <- !app_assoc, bcompare_app. simpl.
  by apply escape_compare.
Qed.

(** What the first pass of [DecodeBytes] establishes: the bytes before the
    terminator are the escaping of their unescaping, the second pass fills
    exactly the [end - escapes] bytes allocated for the result, and with
    no escape the plain copy is the unescaped data. *)
Lemma find_end_spec b i n e m :
  find_end b i n = Ok (e, m) ->
  exists k : nat, e = i + Z.of_nat k /\ n <= m /\
    b = take k b ++ escape :: terminator :: drop (k + 2) b /\
    escape_bytes (unescape (take k b)) = take k b /\
    Z.of_nat (length (unescape (take k b))) = Z.of_nat k - (m - n) /\
    (m = n -> unescape (take k b) = take k b).
Proof.
  revert i n; induction b as [b IH] using (induction_ltof1 _ (@length _)); unfold ltof in IH.
  destruct b as [|c b1]; intros i n; simpl; [done|].
  destruct (Z.eqb_spec c escape) as [->|Hne]; simpl.
  - destruct b1 as [|d b2]; [done|].
    destruct (Z.eqb_spec d escapedNul) as [->|_].
    + intros H. destruct (IH b2 ltac:(simpl; lia) _ _ H) as (k & -> & ? & Hb & He & Hl & Hm).
      exists (S (S k)). simpl. rewrite <- Hb, He. repeat split; try lia; done.
    + destruct (Z.eqb_spec d terminator) as [->|_]; [|done]. intros [= -> ->].
      exists 0%nat. simpl. rewrite drop_0. repeat split; try lia; done.
  - intros H. destruct (IH b1 ltac:(simpl; lia) _ _ H) as (k & -> & ? & Hb & He & Hl & Hm).
    exists (S k). simpl. destruct (Z.eqb_spec c escape); [done|]. simpl.
    destruct (Z.eqb_spec c escape); [done|]. rewrite <- Hb, He.
    repeat split; try lia; try done. intros Hmn. by rewrite Hm.
Qed.

Lemma DecodeBytes_inv b rest data :
  DecodeBytes b = Ok (rest, data) -> b = EncodeBytes [] data ++ rest.
Proof.
  unfold DecodeBytes. destruct (find_end b 0 0) as [[e m]|] eqn:E; [|done]. cbn [rbind].
  destruct (find_end_spec _ _ _ _ _ E) as (k & -> & Hm & Hb & He & _ & Hnil).
  rewrite Z.add_0_l, Nat2Z.id, EncodeBytes_app.
  destruct (Z.eqb_spec m 0) as [->|Hne]; intros [= <- <-].
  - rewrite <- (Hnil eq_refl), He. exact Hb.
  - rewrite He. exact Hb.
Qed.
