(* ===== verification/Hlc.v ===== *)
(** * The hybrid logical clock (pkg/util/hlc/hlc.go)

    [Timestamp] is the (int64, int32) pair of the source, with the
    wrap-around of its arithmetic written out.  [Clock] is the state behind
    the mutex; each call takes the reading of the physical clock, so a run
    is a sequence of calls with their readings.  The theorems: [Less] is a
    strict total order, [Next] is the successor, and along any run every
    [Now] exceeds every earlier [Now] and every accepted [Update]. *)

From S2P Require Import Prelude.

Record Timestamp := mkTs { WallTime : Z; Logical : Z }.

#[export] Instance Timestamp_eq_dec : EqDecision Timestamp.
Proof. solve_decision. Defined.

#[export] Instance Timestamp_countable : Countable Timestamp.
Proof.
  refine (inj_countable' (fun t => (WallTime t, Logical t)) (fun p => mkTs (fst p) (snd p)) _).
  by intros [].
Defined.

(** The zero value. *)
Definition ts0 : Timestamp := mkTs 0 0.

Definition maxInt32 : Z := 2 ^ 31 - 1.
Definition maxInt64 : Z := 2 ^ 63 - 1.

Definition IsEmpty (t : Timestamp) : bool := (WallTime t =? 0) && (Logical t =? 0).

Definition Less (t u : Timestamp) : bool :=
  (WallTime t <? WallTime u) || ((WallTime t =? WallTime u) && (Logical t <? Logical u)).

Definition LessEq (t u : Timestamp) : bool := negb (Less u t).

Definition Equal (t u : Timestamp) : bool :=
  (WallTime t =? WallTime u) && (Logical t =? Logical u).

Definition Next (t : Timestamp) : Timestamp :=
  if Logical t =? maxInt32 then mkTs (i64 (WallTime t + 1)) 0
  else mkTs (WallTime t) (i32 (Logical t + 1)).

Definition AddNanos (t : Timestamp) (d : Z) : Timestamp := mkTs (i64 (WallTime t + d)) 0.

Definition Forward (t u : Timestamp) : Timestamp := if Less t u then u else t.

(** ** The clock *)

Record Clock := mkClock { maxOffset : Z; last : Timestamp }.

Definition NewClock (maxOffset : Z) : Clock := mkClock maxOffset ts0.

(** [Now] with the physical reading [phys]. *)
Definition Now (c : Clock) (phys : Z) : Clock * Timestamp :=
  let l := if WallTime (last c) <? phys then mkTs phys 0 else Next (last c) in
  (mkClock (maxOffset c) l, l).

(** [Update] with the physical reading [phys]; [false] is the error. *)
Definition Update (c : Clock) (phys : Z) (remote : Timestamp) : Clock * bool :=
  if IsEmpty remote then (c, true)
  else if i64 (phys + maxOffset c) <? WallTime remote then (c, false)
  else if Less (last c) remote then (mkClock (maxOffset c) remote, true)
  else (c, true).

(** ** The order of timestamps *)

(** Timestamps the system produces: nonnegative, within their widths. *)
Definition ts_ok (t : Timestamp) : Prop :=
  0 <= WallTime t <= maxInt64 /\ 0 <= Logical t <= maxInt32.

#[export] Instance ts_ok_dec t : Decision (ts_ok t).
Proof. unfold ts_ok. apply _. Defined.

Definition ts_lt (t u : Timestamp) : Prop :=
  WallTime t < WallTime u \/ (WallTime t = WallTime u /\ Logical t < Logical u).
Definition ts_le (t u : Timestamp) : Prop :=
  WallTime t < WallTime u \/ (WallTime t = WallTime u /\ Logical t <= Logical u).

Declare Scope ts_scope.
Delimit Scope ts_scope with ts.
Notation "t <t u" := (ts_lt t u) (at level 70, no associativity) : ts_scope.
Notation "t <=t u" := (ts_le t u) (at level 70, no associativity) : ts_scope.
#[global] Open Scope ts_scope.

Lemma ts_eq t u : t = u <-> WallTime t = WallTime u /\ Logical t = Logical u.
Proof. destruct t, u; simpl; naive_solver. Qed.

Lemma Less_lt t u : Less t u = true <-> t <t u.
Proof.
  unfold Less, ts_lt. rewrite orb_true_iff, andb_true_iff, !Z.ltb_lt, Z.eqb_eq. done.
Qed.
Lemma Less_ge t u : Less t u = false <-> u <=t t.
Proof. rewrite <- not_true_iff_false, Less_lt. unfold ts_lt, ts_le. lia. Qed.
Lemma LessEq_le t u : LessEq t u = true <-> t <=t u.
Proof. unfold LessEq. by rewrite negb_true_iff, Less_ge. Qed.
Lemma LessEq_gt t u : LessEq t u = false <-> u <t t.
Proof. unfold LessEq. by rewrite negb_false_iff, Less_lt. Qed.
Lemma Equal_eq t u : Equal t u = true <-> t = u.
Proof. unfold Equal. by rewrite andb_true_iff, !Z.eqb_eq, ts_eq. Qed.
Lemma Equal_neq t u : Equal t u = false <-> t <> u.
Proof. by rewrite <- Equal_eq, not_true_iff_false. Qed.
Lemma IsEmpty_eq t : IsEmpty t = true <-> t = ts0.
Proof. unfold IsEmpty. by rewrite andb_true_iff, !Z.eqb_eq, ts_eq. Qed.
Lemma IsEmpty_neq t : IsEmpty t = false <-> t <> ts0.
Proof. by rewrite <- IsEmpty_eq, not_true_iff_false. Qed.

(** Turn the boolean tests on timestamps into the order, then arithmetic. *)
Ltac tsb :=
  repeat match goal with
  | H : Less _ _ = true |- _ => apply Less_lt in H
  | H : Less _ _ = false |- _ => apply Less_ge in H
  | H : LessEq _ _ = true |- _ => apply LessEq_le in H
  | H : LessEq _ _ = false |- _ => apply LessEq_gt in H
  | H : Equal _ _ = true |- _ => apply Equal_eq in H
  | H : Equal _ _ = false |- _ => apply Equal_neq in H
  | H : IsEmpty _ = true |- _ => apply IsEmpty_eq in H
  | H : IsEmpty _ = false |- _ => apply IsEmpty_neq in H
  end.

Ltac ts_lia :=
  tsb; unfold ts_lt, ts_le, ts_ok in *;
  rewrite ?ts_eq in *; cbn [WallTime Logical ts0] in *; try lia.

Lemma ts_lt_irrefl t : ~ t <t t. Proof. ts_lia. Qed.
Lemma ts_lt_trans t u v : t <t u -> u <t v -> t <t v. Proof. ts_lia. Qed.
Lemma ts_lt_total t u : t <t u \/ t = u \/ u <t t. Proof. ts_lia. Qed.
Lemma ts_le_refl t : t <=t t. Proof. ts_lia. Qed.
Lemma ts_le_trans t u v : t <=t u -> u <=t v -> t <=t v. Proof. ts_lia. Qed.
Lemma ts_lt_le t u : t <t u -> t <=t u. Proof. ts_lia. Qed.
Lemma ts_le_lt_trans t u v : t <=t u -> u <t v -> t <t v. Proof. ts_lia. Qed.
Lemma ts_lt_le_trans t u v : t <t u -> u <=t v -> t <t v. Proof. ts_lia. Qed.
Lemma ts_le_antisym t u : t <=t u -> u <=t t -> t = u. Proof. ts_lia. Qed.
Lemma ts_le_lt_or_eq t u : t <=t u <-> t <t u \/ t = u. Proof. ts_lia. Qed.
Lemma ts_not_lt t u : ~ t <t u <-> u <=t t. Proof. ts_lia. Qed.
Lemma ts_not_le t u : ~ t <=t u <-> u <t t. Proof. ts_lia. Qed.
Lemma ts0_lt t : ts_ok t -> t <> ts0 -> ts0 <t t. Proof. ts_lia. Qed.
Lemma ts0_ok : ts_ok ts0. Proof. unfold ts_ok, maxInt64, maxInt32. simpl. lia. Qed.

#[export] Hint Resolve ts_le_refl ts_lt_le ts0_ok : datax.

Lemma Forward_max t u : t <=t Forward t u /\ u <=t Forward t u /\ (Forward t u = t \/ Forward t u = u).
Proof. unfold Forward. destruct (Less t u) eqn:E; ts_lia; auto. Qed.

(** The last representable timestamp. *)
Definition ts_max : Timestamp := mkTs maxInt64 maxInt32.

Lemma Next_eq t :
  ts_ok t -> t <> ts_max ->
  Next t = if Logical t =? maxInt32 then mkTs (WallTime t + 1) 0
           else mkTs (WallTime t) (Logical t + 1).
Proof.
  intros Ht Hm. unfold Next. destruct (Z.eqb_spec (Logical t) maxInt32) as [E|E].
  - f_equal. unfold i64. rewrite Z.mod_small; [lia|].
    assert (WallTime t <> maxInt64) by (intros ?; apply Hm, ts_eq; done).
    unfold ts_ok, maxInt64, maxInt32 in *. lia.
  - f_equal. unfold i32. rewrite Z.mod_small; [lia|].
    unfold ts_ok, maxInt64, maxInt32 in *. lia.
Qed.

Lemma Next_ok t : ts_ok t -> t <> ts_max -> ts_ok (Next t).
Proof.
  intros Ht Hm. rewrite Next_eq by done.
  assert (WallTime t <> maxInt64 \/ Logical t <> maxInt32)
    by (destruct (decide (WallTime t = maxInt64 /\ Logical t = maxInt32)); [|lia];
        destruct Hm; by apply ts_eq).
  destruct (Z.eqb_spec (Logical t) maxInt32); unfold ts_ok, maxInt32, maxInt64 in *; simpl; lia.
Qed.

Lemma Next_gt t : ts_ok t -> t <> ts_max -> t <t Next t.
Proof.
  intros Ht Hm. rewrite Next_eq by done.
  destruct (Z.eqb_spec (Logical t) maxInt32); unfold ts_lt; simpl; lia.
Qed.

Lemma Next_least t u : ts_ok t -> t <> ts_max -> ts_ok u -> t <t u -> Next t <=t u.
Proof.
  intros Ht Hm Hu. rewrite Next_eq by done.
  destruct (Z.eqb_spec (Logical t) maxInt32); unfold ts_lt, ts_le, ts_ok in *; simpl; lia.
Qed.

(** ** Runs of the clock *)

(** A call on the clock with the physical reading it took. *)
Inductive clock_call :=
| CNow (phys : Z)
| CUpdate (phys : Z) (remote : Timestamp).

Definition call_phys (k : clock_call) : Z :=
  match k with CNow p => p | CUpdate p _ => p end.

(** The clock after a call and the timestamp the call published: the
    reading of [Now], or the remote timestamp an [Update] accepted. *)
Definition clock_do (c : Clock) (k : clock_call) : Clock * option Timestamp :=
  match k with
  | CNow p => let '(c', t) := Now c p in (c', Some t)
  | CUpdate p r =>
      let '(c', ok) := Update c p r in (c', if (ok : bool) then Some r else None)
  end.

Fixpoint clock_run (c : Clock) (ks : list clock_call) : Clock * list Timestamp :=
  match ks with
  | [] => (c, [])
  | k :: ks' =>
      let '(c1, o) := clock_do c k in
      let '(c2, os) := clock_run c1 ks' in
      (c2, match o with Some t => t :: os | None => os end)
  end.

(** Calls whose physical reading, offset tolerance and remote timestamp
    stay below the wall-time horizon [B]. *)
Definition call_ok (off B : Z) (k : clock_call) : Prop :=
  0 <= call_phys k /\ call_phys k + off <= B /\
  match k with CNow _ => True | CUpdate _ r => ts_ok r end.

#[export] Instance call_ok_dec off B k : Decision (call_ok off B k).
Proof. unfold call_ok. destruct k; apply _. Defined.

Definition clock_inv (off B : Z) (c : Clock) : Prop :=
  maxOffset c = off /\ ts_ok (last c) /\ WallTime (last c) <= B.

Lemma Now_inv off B c p :
  0 <= off -> clock_inv off B c -> 0 <= p -> p + off <= B -> B < maxInt64 ->
  clock_inv off (B + 1) (fst (Now c p)) /\ last c <t snd (Now c p) /\
  last (fst (Now c p)) = snd (Now c p).
Proof.
  intros Ho (Hm & Hok & HW) Hp HpB HB. unfold Now. cbn [fst snd last].
  destruct (Z.ltb_spec (WallTime (last c)) p) as [Hlt|Hge].
  - repeat split; cbn; try lia; unfold ts_ok, ts_lt, maxInt32, maxInt64 in *; cbn; lia.
  - assert (Hne : last c <> ts_max).
    { intros E. rewrite E in HW. unfold ts_max in HW. simpl in HW. lia. }
    pose proof (Next_ok _ Hok Hne). pose proof (Next_gt _ Hok Hne).
    split; [split; [done|split; [done|]]|done].
    cbn [last]. rewrite Next_eq by done. destruct (Logical (last c) =? maxInt32); simpl; lia.
Qed.

Lemma Update_inv off B c p r :
  0 <= off -> clock_inv off B c -> 0 <= p -> p + off <= B -> B < maxInt64 -> ts_ok r ->
  clock_inv off B (fst (Update c p r)) /\ last c <=t last (fst (Update c p r)) /\
  (snd (Update c p r) = true -> r <=t last (fst (Update c p r))).
Proof.
  intros Ho (Hm & Hok & HW) Hp HpB HB Hr. unfold Update.
  destruct (IsEmpty r) eqn:Er.
  { tsb. subst r. cbn [fst snd]. repeat split; auto; try apply Hok; ts_lia. }
  assert (Ei : i64 (p + maxOffset c) = p + maxOffset c).
  { unfold i64, maxInt64 in *. rewrite Z.mod_small; lia. }
  rewrite Ei. destruct (Z.ltb_spec (p + maxOffset c) (WallTime r)).
  { cbn [fst snd]. repeat split; auto; try apply Hok; try done; ts_lia. }
  destruct (Less (last c) r) eqn:El; cbn [fst snd last].
  - repeat split; auto; try apply Hr; try (cbn; lia); ts_lia.
  - repeat split; auto; try apply Hok; ts_lia.
Qed.

(** Everything a run publishes is at or below the clock it leaves. *)
Lemma clock_run_inv off B ks c :
  0 <= off -> clock_inv off B c -> B + Z.of_nat (length ks) < maxInt64 ->
  Forall (call_ok off B) ks ->
  clock_inv off (B + Z.of_nat (length ks)) (fst (clock_run c ks)) /\
  last c <=t last (fst (clock_run c ks)) /\
  Forall (fun u => u <=t last (fst (clock_run c ks))) (snd (clock_run c ks)).
Proof.
  intros Ho. revert B c; induction ks as [|k ks IH]; intros B c Hinv HB Hks.
  { simpl. rewrite Z.add_0_r. repeat split; try apply Hinv; auto; ts_lia. }
  inversion Hks as [|? ? (Hp & HpB & Hk) Hks']; subst. cbn [length] in HB.
  assert (Hmono : Forall (call_ok off (B + 1)) ks).
  { eapply Forall_impl; [exact Hks'|]. intros k' (? & ? & ?). repeat split; auto; lia. }
  cbn [clock_run length]. replace (B + Z.of_nat (S (length ks))) with ((B + 1) + Z.of_nat (length ks)) by lia.
  destruct k as [p|p r]; cbn [clock_do call_phys] in *.
  - destruct (Now c p) as [c1 t] eqn:E.
    destruct (Now_inv off B c p Ho Hinv Hp HpB ltac:(lia)) as (H1 & H2 & H3). rewrite E in *; cbn [fst snd] in *.
    destruct (IH (B + 1) c1 H1 ltac:(lia) Hmono) as (I1 & I2 & I3).
    destruct (clock_run c1 ks) as [c2 os]; cbn [fst snd] in *. subst t.
    split; [done|]. split; [ts_lia|]. constructor; [done|]. done.
  - destruct (Update c p r) as [c1 ok] eqn:E.
    destruct (Update_inv off B c p r Ho Hinv Hp HpB ltac:(lia) Hk) as (H1 & H2 & H3). rewrite E in *; cbn [fst snd] in *.
    assert (H1' : clock_inv off (B + 1) c1) by (destruct H1 as (? & ? & ?); repeat split; auto; try lia; by apply H0).
    destruct (IH (B + 1) c1 H1' ltac:(lia) Hmono) as (I1 & I2 & I3).
    destruct (clock_run c1 ks) as [c2 os]; cbn [fst snd] in *.
    split; [done|]. split; [ts_lia|]. destruct ok; [constructor; [|done]|done].
    specialize (H3 eq_refl). ts_lia.
Qed.

(** C34: Along any sequence of [Now] and [Update] calls on a fresh clock, a
    [Now] returns a timestamp strictly above every timestamp an earlier
    [Now] returned and every remote timestamp an earlier [Update] accepted
    (as long as the wall time stays below the int64 horizon). *)
Theorem clock_now_monotonic off B ks p :
  0 <= off -> B + Z.of_nat (length ks) < maxInt64 ->
  Forall (call_ok off B) (ks ++ [CNow p]) ->
  let '(c, published) := clock_run (NewClock off) ks in
  Forall (fun u => u <t snd (Now c p)) published.
Proof.
  intros Ho HB Hks. apply Forall_app in Hks as [Hks Hp].
  apply Forall_singleton in Hp as (Hp & HpB & _). cbn [call_phys] in *.
  assert (H0 : clock_inv off B (NewClock off)) by (split; [done|split; [apply ts0_ok|cbn; lia]]).
  destruct (clock_run_inv off B ks (NewClock off) Ho H0 HB Hks) as (I1 & _ & I3).
  destruct (clock_run (NewClock off) ks) as [c os]; cbn [fst snd] in *.
  destruct (Now_inv off _ c p Ho I1 Hp ltac:(lia) HB) as (_ & Hlt & _).
  eapply Forall_impl; [exact I3|]. intros u Hu. exact (ts_le_lt_trans _ _ _ Hu Hlt).
Qed.

Lemma clock_now_monotonic_witness :
  let '(c, published) :=
    clock_run (NewClock 500) [CNow 1000; CNow 1000; CUpdate 1001 (mkTs 1400 3); CNow 900] in
  Forall (fun u => u <t snd (Now c 1200)) published.
Proof.
  apply (clock_now_monotonic 500 2000 [CNow 1000; CNow 1000; CUpdate 1001 (mkTs 1400 3); CNow 900] 1200).
  - lia.
  - vm_compute; reflexivity.
  - by_compute.
Defined.
