(* ===== verification/Keys.v ===== *)
(** * The keyspace layout (pkg/keys/keys.go)

    One definition per key builder, span and classifier of the source.
    The theorems say that [PrefixEnd] bounds exactly the extensions of a
    prefix, that the named key families never overlap, that a transaction
    record's key sits in the range-local span of exactly the range that
    owns its anchor, and that a range lookup lands on the range holding
    the key. *)

From S2P Require Import Prelude Encoding.
From Stdlib Require Import Ascii String.

#[local] Abbreviation length := Datatypes.length.
#[local] Open Scope list_scope.

(** The bytes of a string literal. *)
Definition str (s : String.string) : bytes :=
  map (fun a => Z.of_N (N_of_ascii a)) (String.list_ascii_of_string s).

(** A [uuid.UUID] is its 16 bytes. *)
Abbreviation uuid := (list Z) (only parsing).
Definition uuid_Nil : uuid := repeat 0 16.

(** ** Keys *)

Definition Key_Equal (k o : bytes) : bool := beqb k o.
Definition Key_Less (k o : bytes) : bool := bltb k o.
Definition Key_HasPrefix (k p : bytes) : bool := has_prefix k p.
Definition Key_Next (k : bytes) : bytes := k ++ [0].

Definition localPrefixByte : byte := 1.
Definition metaPrefixByte : byte := 2.
Definition systemPrefixByte : byte := 3.
Definition tablePrefixByte : byte := 4.
Definition localUnreplicatedByte : byte := 117. (* 'u' *)
Definition localAddressedByte : byte := 107. (* 'k' *)

Definition MinKey : bytes := [metaPrefixByte].
Definition MaxKey : bytes := [255].
Definition LocalPrefix : bytes := [localPrefixByte].
Definition MetaPrefix : bytes := [metaPrefixByte].
Definition SystemPrefix : bytes := [systemPrefixByte].
Definition TablePrefix : bytes := [tablePrefixByte].
Definition localUnreplicatedPrefix : bytes := [localPrefixByte; localUnreplicatedByte].
Definition localAddressedPrefix : bytes := [localPrefixByte; localAddressedByte].

(** The loop of [PrefixEnd], from the last byte down; [rev_k] is the key
    reversed, so its head is the byte at the loop's index. *)
Fixpoint prefix_end_go (rev_k : bytes) : option bytes :=
  match rev_k with
  | [] => None
  | c :: rest => if c =? 255 then prefix_end_go rest else Some (reverse (c + 1 :: rest))
  end.

Definition PrefixEnd (k : bytes) : bytes :=
  match prefix_end_go (reverse k) with
  | Some e => e
  | None => MaxKey
  end.

Definition IsLocal (k : bytes) : bool :=
  match k with c :: _ => c =? localPrefixByte | [] => false end.

(** ** Store-local and replica-local keys *)

Definition StoreIdentKey : bytes := localUnreplicatedPrefix ++ str "store-ident"%string.
Definition StoreRegistryKey : bytes := localUnreplicatedPrefix ++ str "store-registry"%string.
Definition StoreClusterVersionKey : bytes := localUnreplicatedPrefix ++ str "store-cluster-version"%string.
Definition StoreRaftEngineKey : bytes := localUnreplicatedPrefix ++ str "store-raft-engine"%string.

Definition makeRangeLocalKey (rangeID : Z) (suffix : String.string) : bytes :=
  EncodeUint64 (localUnreplicatedPrefix ++ str "r"%string) (u64 rangeID) ++ str suffix.

Definition RaftHardStateKey (rangeID : Z) : bytes := makeRangeLocalKey rangeID "hs"%string.
Definition RaftLogKey (rangeID index : Z) : bytes :=
  EncodeUint64 (makeRangeLocalKey rangeID "log"%string) index.
Definition RaftLogPrefix (rangeID : Z) : bytes := makeRangeLocalKey rangeID "log"%string.
Definition RaftAppliedStateKey (rangeID : Z) : bytes := makeRangeLocalKey rangeID "as"%string.
Definition RaftTruncatedStateKey (rangeID : Z) : bytes := makeRangeLocalKey rangeID "ts"%string.

Definition IsRaftEngineKey (k : bytes) : bool :=
  let pre := (length localUnreplicatedPrefix + 1 + 8)%nat in
  if (length k <? pre)%nat || negb (bool_decide (k !! length localUnreplicatedPrefix = Some 114))
  then false
  else
    let suffix := drop pre k in
    if beqb suffix (str "hs"%string) || beqb suffix (str "ts"%string) then true
    else ((length suffix =? 3 + 8)%nat && beqb (take 3 suffix) (str "log"%string)).

Definition RangeDescriptorKey (rangeID : Z) : bytes := makeRangeLocalKey rangeID "desc"%string.
Definition RangeUnreplicatedPrefix (rangeID : Z) : bytes := makeRangeLocalKey rangeID ""%string.
Definition RangeTombstoneKey (rangeID : Z) : bytes := makeRangeLocalKey rangeID "tomb"%string.

(** ** Range-local addressed keys *)

Definition TransactionKey (anchor : bytes) (txnID : uuid) : bytes :=
  EncodeBytes localAddressedPrefix anchor ++ str "txn"%string ++ txnID.

Definition IsTransactionKey (k : bytes) : bool :=
  if negb (has_prefix k localAddressedPrefix) then false
  else match DecodeBytes (drop (length localAddressedPrefix) k) with
       | Err _ => false
       | Ok (tail, _) => (length tail =? 3 + 16)%nat && beqb (take 3 tail) (str "txn"%string)
       end.

Inductive addr_err :=
| MalformedRangeLocal (k : bytes) (e : dec_err)
| NotAddressable (k : bytes).

Definition Addr (k : bytes) : result addr_err bytes :=
  if negb (IsLocal k) then Ok k
  else if has_prefix k localAddressedPrefix then
    match DecodeBytes (drop (length localAddressedPrefix) k) with
    | Err e => Err (MalformedRangeLocal k e)
    | Ok (_, addr) => Ok addr
    end
  else Err (NotAddressable k).

Definition RangeLocalAddressedSpan (start end_ : bytes) : bytes * bytes :=
  let s := EncodeBytes localAddressedPrefix start in
  let e := EncodeBytes localAddressedPrefix end_ in
  (take (length s - 2) s, take (length e - 2) e).

(** ** Meta keys *)

Definition RangeMetaKey (endKey : bytes) : bytes := MetaPrefix ++ endKey.
Definition MetaSpan : bytes * bytes := (MetaPrefix, PrefixEnd MetaPrefix).

(** ** System keys *)

Definition systemKey (parts : list String.string) : bytes :=
  fold_left (fun k p => EncodeString k (str p)) parts SystemPrefix.

(** Every span of the source is a prefix and its [PrefixEnd]. *)
Definition span_of (p : bytes) : bytes * bytes := (p, PrefixEnd p).

Definition ClusterVersionKey : bytes := systemKey ["cluster-version"]%string.
Definition NodeRegistryKey (nodeID : Z) : bytes := EncodeUint64 (systemKey ["nodes"]%string) (u64 nodeID).
Definition NodeRegistrySpan := span_of (systemKey ["nodes"]%string).
Definition AuthSecretKey : bytes := systemKey ["auth-secret"]%string.
Definition NodeIDGenKey : bytes := systemKey ["idgen"; "node"]%string.
Definition RangeIDGenKey : bytes := systemKey ["idgen"; "range"]%string.
Definition DescIDGenKey : bytes := systemKey ["idgen"; "desc"]%string.
Definition UserKey (name : bytes) : bytes := EncodeString (systemKey ["users"]%string) name.
Definition AdminUserKey (name : bytes) : bytes := EncodeString (systemKey ["admins"]%string) name.
Definition TableDescKey (tableID : Z) : bytes := EncodeUint64 (systemKey ["desc"]%string) tableID.
Definition TableDescSpan := span_of (systemKey ["desc"]%string).
Definition TableStatsKey (tableID : Z) : bytes := EncodeUint64 (systemKey ["stats"]%string) tableID.
Definition TableStatsSpan := span_of (systemKey ["stats"]%string).

Definition TableStatsID (k : bytes) : option Z :=
  let p := systemKey ["stats"]%string in
  if (length k <=? length p)%nat || negb (beqb (take (length p) k) p) then None
  else match DecodeUint64 (drop (length p) k) with
       | Err _ => None
       | Ok (_, id) => Some id
       end.

Definition NamespaceKey (name : bytes) : bytes := EncodeString (systemKey ["ns"]%string) name.
Definition DatabaseDescKey (dbID : Z) : bytes := EncodeUint64 (systemKey ["db"]%string) dbID.
Definition DatabaseDescSpan := span_of (systemKey ["db"]%string).
Definition DatabaseNamespaceKey (name : bytes) : bytes := EncodeString (systemKey ["dbns"]%string) name.
Definition DatabaseNamespaceSpan := span_of (systemKey ["dbns"]%string).
Definition TableNamespaceKey (dbID : Z) (name : bytes) : bytes :=
  EncodeString (EncodeUint64 (systemKey ["nsdb"]%string) dbID) name.
Definition TableNamespaceSpan (dbID : Z) := span_of (EncodeUint64 (systemKey ["nsdb"]%string) dbID).
Definition AllTableNamespaceSpan := span_of (systemKey ["nsdb"]%string).
Definition SequenceDescKey (seqID : Z) : bytes := EncodeUint64 (systemKey ["seqdesc"]%string) seqID.
Definition SequenceDescSpan := span_of (systemKey ["seqdesc"]%string).
Definition SequenceNamespaceKey (dbID : Z) (name : bytes) : bytes :=
  EncodeString (EncodeUint64 (systemKey ["seqns"]%string) dbID) name.
Definition SequenceNamespaceSpan (dbID : Z) := span_of (EncodeUint64 (systemKey ["seqns"]%string) dbID).
Definition AllSequenceNamespaceSpan := span_of (systemKey ["seqns"]%string).
Definition TypeDescKey (typeID : Z) : bytes := EncodeUint64 (systemKey ["typedesc"]%string) typeID.
Definition TypeDescSpan := span_of (systemKey ["typedesc"]%string).
Definition TypeNamespaceKey (dbID : Z) (name : bytes) : bytes :=
  EncodeString (EncodeUint64 (systemKey ["typens"]%string) dbID) name.
Definition TypeNamespaceSpan (dbID : Z) := span_of (EncodeUint64 (systemKey ["typens"]%string) dbID).
Definition AllTypeNamespaceSpan := span_of (systemKey ["typens"]%string).
Definition SequenceValueKey (seqID : Z) : bytes := EncodeUint64 (systemKey ["seq"]%string) seqID.
Definition SequenceValueSpan := span_of (systemKey ["seq"]%string).
Definition DescLeaseKey (descID : Z) (gateway : uuid) : bytes :=
  EncodeUint64 (systemKey ["lease"]%string) descID ++ gateway.
Definition DescLeaseSpan (descID : Z) := span_of (EncodeUint64 (systemKey ["lease"]%string) descID).
Definition NamespaceSpan := span_of (systemKey ["ns"]%string).
Definition UserSpan := span_of (systemKey ["users"]%string).
Definition AdminUserSpan := span_of (systemKey ["admins"]%string).
Definition RoleKey (name : bytes) : bytes := EncodeString (systemKey ["roles"]%string) name.
Definition RoleSpan := span_of (systemKey ["roles"]%string).

(** ** Table data keys *)

Definition TableDataPrefix (tableID : Z) : bytes := EncodeUint64 TablePrefix tableID.
Definition TableDataSpan (tableID : Z) := span_of (TableDataPrefix tableID).
Definition TableIndexPrefix (tableID indexID : Z) : bytes :=
  EncodeUint64 (TableDataPrefix tableID) indexID.
Definition TableIndexSpan (tableID indexID : Z) := span_of (TableIndexPrefix tableID indexID).

(** Membership of a key in a [start, end) span. *)
Definition in_span (sp : bytes * bytes) (k : bytes) : Prop :=
  fst sp ≼ k /\ k ≺ snd sp.

(** ** [PrefixEnd] *)

Lemma prefix_end_go_some l e :
  prefix_end_go l = Some e ->
  exists n c rest, l = repeat 255 n ++ c :: rest /\ c <> 255 /\ e = reverse (c + 1 :: rest).
Proof.
  induction l as [|c l IH]; simpl; [done|].
  destruct (Z.eqb_spec c 255) as [->|Hne].
  - intros H. destruct (IH H) as (n & c & rest & -> & ? & ?). by exists (S n), c, rest.
  - intros [= <-]. by exists 0%nat, c, l.
Qed.

Lemma prefix_end_go_none l : prefix_end_go l = None <-> Forall (eq 255) l.
Proof.
  induction l as [|c l IH]; simpl; [by split|].
  destruct (Z.eqb_spec c 255) as [->|Hne].
  - rewrite IH. split; [by constructor|]. by inversion 1.
  - split; [done|]. inversion 1; subst. done.
Qed.

Lemma repeat_snoc {A} (a : A) n : repeat a n ++ [a] = a :: repeat a n.
Proof. induction n; simpl; [done|]. by f_equal. Qed.

Lemma reverse_repeat {A} (a : A) n : reverse (repeat a n) = repeat a n.
Proof. induction n; simpl; [done|]. by rewrite reverse_cons, IHn, repeat_snoc. Qed.

(** A prefix with a byte other than 0xff: its shape and its end. *)
Lemma PrefixEnd_shape k :
  Exists (fun c => c <> 255) k ->
  exists p c n, k = p ++ c :: repeat 255 n /\ c <> 255 /\ PrefixEnd k = p ++ [c + 1].
Proof.
  intros Hex. unfold PrefixEnd. destruct (prefix_end_go (reverse k)) as [e|] eqn:E.
  - apply prefix_end_go_some in E as (n & c & rest & Hk & Hc & ->).
    exists (reverse rest), c, n. split; [|split; [done|by rewrite reverse_cons]].
    rewrite <- (reverse_involutive k), Hk, reverse_app, reverse_cons, reverse_repeat.
    by rewrite <- app_assoc.
  - apply prefix_end_go_none in E. rewrite Exists_exists in Hex. destruct Hex as (c & Hin & Hc).
    rewrite Forall_forall in E. destruct Hc. symmetry. apply E. by apply elem_of_reverse.
Qed.

Lemma ble_repeat_255 n r :
  bytes_ok r -> repeat 255 n ≼ r -> exists s, r = repeat 255 n ++ s.
Proof.
  revert r; induction n as [|n IH]; intros r Hr; cbn [repeat]; [by exists r|].
  destruct r as [|c r]; [done|]. inversion Hr as [|? ? Hc ?]; subst. unfold is_byte in Hc. cbn [bcompare].
  destruct (Z.compare_spec 255 c); subst; try lia; [|done].
  intros Hle. destruct (IH r) as [s ->]; try done. by exists s.
Qed.

(** The span of a prefix holds exactly its extensions. *)
Lemma in_span_prefix p x :
  bytes_ok x -> Exists (fun c => c <> 255) p ->
  in_span (span_of p) x <-> has_prefix x p = true.
Proof.
  intros Hx Hex. destruct (PrefixEnd_shape p Hex) as (q & c & n & Hp & Hc & He).
  unfold in_span, span_of. cbn [fst snd]. rewrite He, has_prefix_spec.
  assert (Hq : p = (q ++ [c]) ++ repeat 255 n) by (rewrite Hp, <- app_assoc; done).
  split.
  - intros [Hle Hlt]. rewrite Hq in Hle.
    assert (Hqc : q ++ [c] ≼ x) by (eapply ble_trans; [apply bcompare_app_r|exact Hle]).
    destruct (between_bump q c x Hqc Hlt) as [r ->].
    rewrite bcompare_app in Hle. apply Forall_app in Hx as [_ Hr].
    destruct (ble_repeat_255 n r Hr Hle) as [s ->]. exists s. by rewrite Hq, !app_assoc.
  - intros [r ->]. split; [apply bcompare_app_r|]. rewrite Hq, <- (app_assoc _ _ r). apply below_bump.
Qed.

Lemma Exists_head c k : c <> 255 -> Exists (fun c => c <> 255) (c :: k).
Proof. by constructor. Qed.

(** ** Prefix-free families *)

Lemma EncodeBytes_prefix b x : EncodeBytes b x = b ++ EncodeBytes [] x.
Proof. unfold EncodeBytes. by rewrite app_nil_l. Qed.

Lemma EncodeBytes_inj_app x y r s :
  EncodeBytes [] x ++ r = EncodeBytes [] y ++ s -> x = y /\ r = s.
Proof.
  intros H. pose proof (EncodeBytes_roundtrip x r) as E1.
  rewrite H, EncodeBytes_roundtrip in E1. by injection E1.
Qed.

Lemma EncodeUint64_inj_app b v w r s :
  in_u64 v -> in_u64 w -> EncodeUint64 b v ++ r = EncodeUint64 b w ++ s -> v = w /\ r = s.
Proof.
  unfold EncodeUint64. intros Hv Hw H. rewrite <- !app_assoc in H. apply app_inv_head in H.
  pose proof (DecodeUint64_app v r Hv) as E1. rewrite H, DecodeUint64_app in E1 by done.
  by injection E1.
Qed.

Lemma str_inj s t : str s = str t -> s = t.
Proof.
  unfold str. intros H.
  assert (Hinj : forall a b, Z.of_N (N_of_ascii a) = Z.of_N (N_of_ascii b) -> a = b).
  { intros a b Hab. apply N2Z.inj in Hab. rewrite <- (ascii_N_embedding a), Hab. apply ascii_N_embedding. }
  rewrite <- (string_of_list_ascii_of_string s), <- (string_of_list_ascii_of_string t). f_equal.
  revert H. generalize (list_ascii_of_string s) (list_ascii_of_string t).
  induction l as [|a l IH]; intros [|b l']; simpl; try done. intros [= Ha Hl].
  rewrite (Hinj a b Ha). f_equal. by apply IH.
Qed.

Lemma systemKey_one p : systemKey [p] = SystemPrefix ++ EncodeBytes [] (str p).
Proof. unfold systemKey, EncodeString. cbn [fold_left]. apply EncodeBytes_prefix. Qed.

Lemma system_prefix_ext b : Exists (fun c => c <> 255) (SystemPrefix ++ b).
Proof. by apply Exists_head. Qed.

(** A key carries the encoding of at most one family name. *)
Lemma system_family_unique p q r s :
  systemKey [p] ++ r = systemKey [q] ++ s -> p = q /\ r = s.
Proof.
  rewrite !systemKey_one, <- !app_assoc. intros H. apply app_inv_head in H.
  apply EncodeBytes_inj_app in H as [H ->]. by apply str_inj in H.
Qed.

(** ** Transaction records *)

Lemma drop_local b : drop (length localAddressedPrefix) (localAddressedPrefix ++ b) = b.
Proof. done. Qed.

Lemma TransactionKey_decode anchor id :
  DecodeBytes (drop (length localAddressedPrefix) (TransactionKey anchor id)) =
    Ok (str "txn"%string ++ id, anchor).
Proof.
  unfold TransactionKey. rewrite EncodeBytes_prefix, <- app_assoc, drop_local.
  apply EncodeBytes_roundtrip.
Qed.

Lemma Addr_TransactionKey_ok anchor id : Addr (TransactionKey anchor id) = Ok anchor.
Proof.
  unfold Addr. pose proof (TransactionKey_decode anchor id) as H.
  assert (E : TransactionKey anchor id =
            localAddressedPrefix ++ (EncodeBytes [] anchor ++ str "txn"%string ++ id)).
  { unfold TransactionKey. by rewrite EncodeBytes_prefix, <- app_assoc. }
  rewrite E in H |- *. simpl. simpl in H. by rewrite H.
Qed.

(** An escaped key cut before its terminator bounds the encoded keys the
    way the key itself bounds the keys. *)
Lemma escape_cut_le x y r :
  bytes_ok x -> bytes_ok y ->
  escape_bytes x ≼ escape_bytes y ++ escape :: terminator :: r <-> x ≼ y.
Proof.
  revert y; induction x as [|c x IH]; intros y Hx Hy.
  - simpl. split; intros _; [by destruct y|]. by destruct (escape_bytes y).
  - inversion Hx as [|? ? Hc ?]; subst. unfold is_byte in Hc.
    destruct y as [|d y]; unfold escape in *; cbn [escape_bytes bcompare]; unfold escape.
    + destruct (Z.eqb_spec c 0) as [->|Hc0]; cbn [app bcompare]; [done|].
      destruct (Z.compare_spec c 0); [lia|lia|done].
    + inversion Hy as [|? ? Hd ?]; subst. unfold is_byte in Hd.
      destruct (Z.eqb_spec c 0) as [->|Hc0], (Z.eqb_spec d 0) as [->|Hd0]; cbn [app bcompare].
      * rewrite !Z.compare_refl. by apply IH.
      * destruct (Z.compare_spec 0 d); [lia|done|lia].
      * destruct (Z.compare_spec c 0); [lia|lia|done].
      * destruct (Z.compare_spec c d); [subst; by apply IH|done|done].
Qed.

Lemma RangeLocalAddressedSpan_eq start end_ :
  RangeLocalAddressedSpan start end_ =
    (localAddressedPrefix ++ escape_bytes start, localAddressedPrefix ++ escape_bytes end_).
Proof.
  assert (Hcut : forall k, take (length (EncodeBytes localAddressedPrefix k) - 2)
                             (EncodeBytes localAddressedPrefix k) = localAddressedPrefix ++ escape_bytes k).
  { intros k. unfold EncodeBytes. rewrite app_assoc, length_app. cbn [length].
    rewrite Nat.add_sub. apply take_app_length. }
  unfold RangeLocalAddressedSpan. by rewrite !Hcut.
Qed.

Lemma TransactionKey_app anchor id :
  TransactionKey anchor id =
    localAddressedPrefix ++ escape_bytes anchor ++ escape :: terminator :: (str "txn"%string ++ id).
Proof. unfold TransactionKey, EncodeBytes. by rewrite <- !app_assoc. Qed.

(** The span [k, k.PrefixEnd()) contains exactly the keys that have [k]
    as a prefix, for every prefix with a byte other than 0xff (every
    prefix the keyspace uses). *)
Theorem PrefixEnd_span_exact p x :
  bytes_ok x -> Exists (fun c => c <> 255) p ->
  (p ≼ x /\ x ≺ PrefixEnd p) <-> has_prefix x p = true.
Proof. apply in_span_prefix. Qed.

Lemma PrefixEnd_span_exact_witness :
  ([3; 255] ≼ [3; 255; 7] /\ [3; 255; 7] ≺ PrefixEnd [3; 255]) <-> has_prefix [3; 255; 7] [3; 255] = true.
Proof. apply (PrefixEnd_span_exact [3; 255] [3; 255; 7]); by_compute. Defined.

(** A transaction record's key is addressed by its anchor, is recognised
    by [IsTransactionKey], and lies in the range-local addressed span of a
    range [start, end) exactly when the anchor lies in [start, end): the
    records that travel with a range are those of the anchors it owns. *)
Theorem TransactionKey_owned_by_anchor_range anchor id start end_ :
  bytes_ok anchor -> bytes_ok start -> bytes_ok end_ -> length id = 16%nat ->
  Addr (TransactionKey anchor id) = Ok anchor /\
  IsTransactionKey (TransactionKey anchor id) = true /\
  (in_span (RangeLocalAddressedSpan start end_) (TransactionKey anchor id) <->
   in_span (start, end_) anchor).
Proof.
  intros Ha Hs He Hid. split; [apply Addr_TransactionKey_ok|]. split.
  - unfold IsTransactionKey. rewrite TransactionKey_decode, TransactionKey_app, has_prefix_app.
    cbn [negb]. rewrite length_app, Hid. done.
  - rewrite RangeLocalAddressedSpan_eq, TransactionKey_app. unfold in_span. cbn [fst snd].
    rewrite !bcompare_app, escape_cut_le by done.
    rewrite !(blt_not_le _ (escape_bytes end_)), escape_cut_le by done.
    by rewrite blt_not_le.
Qed.

Lemma TransactionKey_owned_by_anchor_range_witness :
  let anchor := [4; 0; 9] in let id := repeat 7 16 in
  Addr (TransactionKey anchor id) = Ok anchor /\
  IsTransactionKey (TransactionKey anchor id) = true /\
  (in_span (RangeLocalAddressedSpan [4] [4; 1]) (TransactionKey anchor id) <-> in_span ([4], [4; 1]) anchor).
Proof.
  cbn zeta. apply (TransactionKey_owned_by_anchor_range [4; 0; 9] (repeat 7 16) [4] [4; 1]);
    first [by_compute | reflexivity].
Defined.

Lemma in_system_span p r :
  bytes_ok (systemKey [p] ++ r) -> in_span (span_of (systemKey [p])) (systemKey [p] ++ r).
Proof.
  intros Hok. apply in_span_prefix; [done| |apply has_prefix_app].
  rewrite systemKey_one. apply system_prefix_ext.
Qed.

(** The spans of two different families of system keys are disjoint:
    a scan of one family ([TableDescSpan], [NamespaceSpan], ...) never
    returns a key of another, even when one family name is a prefix of
    another ("ns" and "nsdb", "seq" and "seqdesc"). *)
Theorem system_spans_disjoint p q x :
  bytes_ok x -> p <> q ->
  in_span (span_of (systemKey [p])) x -> ~ in_span (span_of (systemKey [q])) x.
Proof.
  intros Hx Hne Hp Hq.
  apply in_span_prefix in Hp; [|done|rewrite systemKey_one; apply system_prefix_ext].
  apply in_span_prefix in Hq; [|done|rewrite systemKey_one; apply system_prefix_ext].
  apply has_prefix_spec in Hp as [r ->]. apply has_prefix_spec in Hq as [s Hq].
  by apply system_family_unique in Hq as [? _].
Qed.

Lemma system_spans_disjoint_witness : ~ in_span NamespaceSpan (TableNamespaceKey 7 (str "t"%string)).
Proof.
  apply (system_spans_disjoint "nsdb"%string "ns"%string (TableNamespaceKey 7 (str "t"%string)));
    [by_compute|discriminate|]. split; vm_compute; congruence.
Defined.

(** ** Range addressing *)

Lemma Key_Next_le k e : bytes_ok e -> Key_Next k ≼ e <-> k ≺ e.
Proof.
  intros He. unfold Key_Next. revert e He; induction k as [|c k IH]; intros e He.
  - destruct e as [|d e]; [done|]. inversion He as [|? ? Hd ?]; subst. unfold is_byte in Hd.
    cbn [app bcompare]. destruct (Z.compare_spec 0 d); [|done|lia]. split; [done|]. by destruct e.
  - destruct e as [|d e]; [done|]. inversion He; subst. cbn [app bcompare].
    destruct (c ?= d); [by apply IH|done|done].
Qed.

(** Range lookup: the meta record of a range ending at [end] sorts at or
    after the lookup key /meta/<K.Next()> exactly when [K] is below [end];
    so the first record at or after the lookup key is that of the first
    range whose end is above [K]. *)
Theorem RangeMetaKey_lookup k e :
  bytes_ok e -> RangeMetaKey (Key_Next k) ≼ RangeMetaKey e <-> k ≺ e.
Proof. intros He. unfold RangeMetaKey. rewrite bcompare_app. by apply Key_Next_le. Qed.

Lemma RangeMetaKey_lookup_witness : RangeMetaKey (Key_Next [4; 1]) ≼ RangeMetaKey [4; 1; 0] <-> [4; 1] ≺ [4; 1; 0].
Proof. apply (RangeMetaKey_lookup [4; 1] [4; 1; 0]). by_compute. Defined.

(** ** Raft keys *)

Lemma IsRaftEngineKey_range rangeID suffix :
  IsRaftEngineKey (EncodeUint64 (localUnreplicatedPrefix ++ str "r"%string) (u64 rangeID) ++ suffix) =
    (beqb suffix (str "hs"%string) || beqb suffix (str "ts"%string) ||
     ((length suffix =? 3 + 8)%nat && beqb (take 3 suffix) (str "log"%string))).
Proof.
  unfold IsRaftEngineKey, EncodeUint64. rewrite !length_app, length_be.
  set (pre := (length localUnreplicatedPrefix + 1 + 8)%nat).
  destruct (Nat.ltb_spec (length localUnreplicatedPrefix + length (str "r"%string) + 8 + length suffix) pre) as [H|_];
    [subst pre; cbn in H; lia|].
  assert (Hdrop : drop pre (((localUnreplicatedPrefix ++ str "r"%string) ++ be 8 (u64 rangeID)) ++ suffix) = suffix).
  { rewrite drop_app_length'; [done|]. rewrite !length_app, length_be. done. }
  rewrite Hdrop. rewrite bool_decide_true by done. cbn [negb orb].
  by destruct (beqb suffix (str "hs"%string) || beqb suffix (str "ts"%string)).
Qed.

(** [IsRaftEngineKey] places exactly the HardState, the log entries and
    the truncated state of a range on the raft engine: it is true of them
    and false of the applied state, the descriptor copy and the tombstone. *)
Theorem IsRaftEngineKey_partition rangeID index :
  IsRaftEngineKey (RaftHardStateKey rangeID) = true /\
  IsRaftEngineKey (RaftLogKey rangeID index) = true /\
  IsRaftEngineKey (RaftTruncatedStateKey rangeID) = true /\
  IsRaftEngineKey (RaftAppliedStateKey rangeID) = false /\
  IsRaftEngineKey (RangeDescriptorKey rangeID) = false /\
  IsRaftEngineKey (RangeTombstoneKey rangeID) = false.
Proof.
  unfold RaftHardStateKey, RaftLogKey, RaftTruncatedStateKey, RaftAppliedStateKey,
    RangeDescriptorKey, RangeTombstoneKey, makeRangeLocalKey.
  assert (Hlog : EncodeUint64 (EncodeUint64 (localUnreplicatedPrefix ++ str "r"%string) (u64 rangeID) ++ str "log"%string) index =
    EncodeUint64 (localUnreplicatedPrefix ++ str "r"%string) (u64 rangeID) ++ (str "log"%string ++ be 8 index)).
  { unfold EncodeUint64. by rewrite <- !app_assoc. }
  rewrite Hlog, !IsRaftEngineKey_range. done.
Qed.
