(* ===== verification/MvccKey.v ===== *)
(** * MVCC engine keys and values (pkg/storage/mvcc_key.go, comparer.go)

    The engine key of a user key and a version timestamp, the bounds of a
    user key's engine keys, the value header, and the split of an engine
    key into prefix and version suffix that the prefix bloom filters use. *)

From S2P Require Import Prelude Encoding Hlc Keys.

Definition versionSuffixLen : nat := 12.

Definition appendVersionSuffix (b : bytes) (ts : Timestamp) : bytes :=
  (b ++ be 8 (compl 64 (u64 (WallTime ts)))) ++ be 4 (compl 32 (u32 (Logical ts))).

Definition EncodeMVCCKey (key : bytes) (ts : Timestamp) : bytes :=
  let b := EncodeBytes [] key in
  if IsEmpty ts then b else appendVersionSuffix b ts.

(** Increment the last byte in place ([upper[n-1]++], a byte addition). *)
Definition bump_last (b : bytes) : bytes :=
  match reverse b with
  | [] => []
  | c :: rest => reverse ((c + 1) mod 256 :: rest)
  end.

(** The lower and the exclusive upper bound of [k]'s engine keys. *)
Definition mvccKeyBounds (k : bytes) : bytes * bytes :=
  let lower := EncodeBytes [] k in (lower, bump_last lower).

Inductive key_err :=
| KeyDecode (e : dec_err)
| BadSuffix (enc : bytes) (n : nat). (* version suffix of %d bytes *)

(** The timestamp a version suffix of twelve bytes spells. *)
Definition suffix_ts (rest : bytes) : Timestamp :=
  mkTs (i64 (compl 64 (be_val (take 8 rest)))) (i32 (compl 32 (be_val (take 4 (drop 8 rest))))).

Definition DecodeMVCCKey (enc : bytes) : result key_err (bytes * Timestamp) :=
  match DecodeBytes enc with
  | Err e => Err (KeyDecode e)
  | Ok (rest, user) =>
      if (length rest =? 0)%nat then Ok (user, ts0)
      else if (length rest =? versionSuffixLen)%nat then Ok (user, suffix_ts rest)
      else Err (BadSuffix enc (length rest))
  end.

(** ** Values *)

Definition valueHeaderTombstone : byte := 0.
Definition valueHeaderData : byte := 1.

Definition encodeMVCCValue (data : bytes) (tombstone : bool) : bytes :=
  if tombstone then [valueHeaderTombstone] else valueHeaderData :: data.

Inductive value_err :=
| EmptyValue
| BadHeader (b : byte).

(** The payload and the tombstone flag. *)
Definition decodeMVCCValue (raw : bytes) : result value_err (bytes * bool) :=
  match raw with
  | [] => Err EmptyValue
  | h :: data =>
      if h =? valueHeaderTombstone then Ok ([], true)
      else if h =? valueHeaderData then Ok (data, false)
      else Err (BadHeader h)
  end.

Definition IsTombstoneValue (raw : bytes) : result value_err bool :=
  let* (_, tomb) := decodeMVCCValue raw in Ok tomb.

(** ** The comparer's split *)

Definition mvccTerminator : bytes := [0; 1].

(** [bytes.Index(k, mvccTerminator)]. *)
Fixpoint index_terminator (k : bytes) : option nat :=
  match k with
  | [] => None
  | c :: k' =>
      if has_prefix (c :: k') mvccTerminator then Some 0%nat
      else S <$> index_terminator k'
  end.

Definition mvccSplit (k : bytes) : nat :=
  match k with
  | [] => length k
  | c :: _ =>
      if c =? localPrefixByte then length k
      else match index_terminator k with
           | Some i => (i + length mvccTerminator)%nat
           | None => length k
           end
  end.

Section Comparer.
(** Pebble's default comparer: a byte-wise separator of two keys and a
    byte-wise successor of a key, appended to [dst]. *)
Variable Separator : bytes -> bytes -> bytes -> bytes.
Variable Successor : bytes -> bytes -> bytes.

Definition mvccSeparator (dst a b : bytes) : bytes :=
  let pa := take (mvccSplit a) a in
  let pb := take (mvccSplit b) b in
  if beqb pa pb then dst ++ a
  else
    let dst' := Separator dst pa pb in
    if beqb (drop (length dst) dst') pa then take (length dst) dst' ++ a else dst'.

Definition mvccSuccessor (dst a : bytes) : bytes :=
  let pa := take (mvccSplit a) a in
  let dst' := Successor dst pa in
  if beqb (drop (length dst) dst') pa then take (length dst) dst' ++ a else dst'.
End Comparer.

Definition mvccImmediateSuccessor (dst a : bytes) : bytes :=
  let n := length a in
  if (2 <=? n)%nat && bool_decide (a !! (n - 2)%nat = Some 0) && bool_decide (a !! (n - 1)%nat = Some 1)
  then dst ++ <[(n - 1)%nat := 2]> a
  else (dst ++ a) ++ [0].

(** ** Engine keys: shape, order, decoding *)

Definition metaKey (k : bytes) : bytes := EncodeBytes [] k.
Definition suffix_of (ts : Timestamp) : bytes :=
  be 8 (compl 64 (u64 (WallTime ts))) ++ be 4 (compl 32 (u32 (Logical ts))).

Lemma appendVersionSuffix_eq b ts : appendVersionSuffix b ts = b ++ suffix_of ts.
Proof. unfold appendVersionSuffix, suffix_of. by rewrite app_assoc. Qed.

Lemma EncodeMVCCKey_meta k : EncodeMVCCKey k ts0 = metaKey k.
Proof. done. Qed.

Lemma EncodeMVCCKey_version k ts : ts <> ts0 -> EncodeMVCCKey k ts = metaKey k ++ suffix_of ts.
Proof.
  intros H. unfold EncodeMVCCKey. apply IsEmpty_neq in H. rewrite H. apply appendVersionSuffix_eq.
Qed.

Lemma length_suffix_of ts : length (suffix_of ts) = versionSuffixLen.
Proof. unfold suffix_of. by rewrite length_app, !length_be. Qed.

Lemma metaKey_last k : metaKey k = (escape_bytes k ++ [escape]) ++ [terminator].
Proof. unfold metaKey, EncodeBytes. by rewrite <- app_assoc. Qed.

Lemma escape_bytes_ok k : bytes_ok k -> bytes_ok (escape_bytes k).
Proof.
  induction 1; simpl; [constructor|].
  destruct (x =? escape); repeat constructor; auto; try (unfold is_byte, escape, escapedNul in *; lia).
Qed.

Lemma metaKey_ok k : bytes_ok k -> bytes_ok (metaKey k).
Proof.
  intros H. unfold metaKey, EncodeBytes. rewrite app_nil_l. apply Forall_app. split; [by apply escape_bytes_ok|].
  repeat constructor; try (unfold is_byte, escape, terminator; lia).
Qed.

Lemma suffix_of_ok ts : bytes_ok (suffix_of ts).
Proof. unfold suffix_of. apply Forall_app. split; apply be_ok. Qed.

Lemma mvccKeyBounds_eq k :
  mvccKeyBounds k = (metaKey k, (escape_bytes k ++ [escape]) ++ [terminator + 1]).
Proof.
  unfold mvccKeyBounds. f_equal. change (EncodeBytes [] k) with (metaKey k).
  rewrite metaKey_last. unfold bump_last. rewrite reverse_snoc, reverse_cons, reverse_involutive. done.
Qed.

(** The bounds enclose exactly the extensions of the metadata key. *)
Lemma mvccKeyBounds_exact k x :
  in_span (mvccKeyBounds k) x <-> exists r, x = metaKey k ++ r.
Proof.
  rewrite mvccKeyBounds_eq. unfold in_span. cbn [fst snd]. rewrite metaKey_last. split.
  - intros [H1 H2]. by apply between_bump.
  - intros [r ->]. split; auto with datax.
Qed.

(** The order key of a timestamp inside its suffix: bit-inverted words of
    nonnegative values, so a later timestamp sorts first. *)
Lemma suffix_compare t u :
  ts_ok t -> ts_ok u ->
  bcompare (suffix_of t) (suffix_of u) =
    if Less u t then Lt else if Equal t u then Eq else Gt.
Proof.
  intros Ht Hu. unfold ts_ok, maxInt64, maxInt32 in *. unfold suffix_of.
  rewrite !u64_small, !u32_small by (unfold in_u64, in_u32; lia).
  rewrite !compl_sub by lia.
  rewrite be_compare_app by (simpl; lia). rewrite be_compare by (simpl; lia).
  destruct (Less u t) eqn:E1; [|destruct (Equal t u) eqn:E2]; ts_lia.
  - destruct (Z.compare_spec (2 ^ 64 - 1 - WallTime t) (2 ^ 64 - 1 - WallTime u)); try lia; try done.
    destruct (Z.compare_spec (2 ^ 32 - 1 - Logical t) (2 ^ 32 - 1 - Logical u)); try lia; done.
  - destruct E2 as [-> ->]. by rewrite !Z.compare_refl.
  - destruct (Z.compare_spec (2 ^ 64 - 1 - WallTime t) (2 ^ 64 - 1 - WallTime u)); try lia; try done.
    destruct (Z.compare_spec (2 ^ 32 - 1 - Logical t) (2 ^ 32 - 1 - Logical u)); try lia; done.
Qed.

Lemma suffix_ts_of ts : ts_ok ts -> suffix_ts (suffix_of ts) = ts.
Proof.
  intros Ht. unfold ts_ok, maxInt64, maxInt32 in Ht.
  assert (Hw : in_u64 (WallTime ts)) by (unfold in_u64; lia).
  assert (Hl : in_u32 (Logical ts)) by (unfold in_u32; lia).
  unfold suffix_ts, suffix_of. rewrite u64_small, u32_small by done.
  pose proof (compl_bound 64 (WallTime ts) ltac:(lia) Hw).
  pose proof (compl_bound 32 (Logical ts) ltac:(lia) Hl).
  rewrite take_app_length', drop_app_length' by (by rewrite length_be).
  rewrite take_ge by (by rewrite length_be). rewrite !be_val_be.
  rewrite !Z.mod_small by (simpl; lia). rewrite !compl_involutive.
  destruct ts as [w l]; cbn [WallTime Logical] in *. f_equal.
  - rewrite <- (u64_small w Hw) at 1. apply i64_u64. unfold in_i64; lia.
  - rewrite <- (u32_small l Hl) at 1. apply i32_u32. unfold in_i32; lia.
Qed.

Lemma DecodeMVCCKey_meta k : DecodeMVCCKey (metaKey k) = Ok (k, ts0).
Proof.
  unfold DecodeMVCCKey. rewrite <- (app_nil_r (metaKey k)). by rewrite EncodeBytes_roundtrip.
Qed.

Lemma DecodeMVCCKey_version k r :
  length r = versionSuffixLen -> DecodeMVCCKey (metaKey k ++ r) = Ok (k, suffix_ts r).
Proof. intros H. unfold DecodeMVCCKey. by rewrite EncodeBytes_roundtrip, H. Qed.

Lemma DecodeMVCCKey_encode k ts : ts_ok ts -> DecodeMVCCKey (EncodeMVCCKey k ts) = Ok (k, ts).
Proof.
  intros Ht. destruct (decide (ts = ts0)) as [->|Hne]; [apply DecodeMVCCKey_meta|].
  rewrite EncodeMVCCKey_version, DecodeMVCCKey_version, suffix_ts_of by auto using length_suffix_of. done.
Qed.

Lemma DecodeMVCCKey_inv x k ts :
  DecodeMVCCKey x = Ok (k, ts) ->
  exists r, x = metaKey k ++ r /\ ((r = [] /\ ts = ts0) \/ (length r = versionSuffixLen /\ ts = suffix_ts r)).
Proof.
  unfold DecodeMVCCKey. destruct (DecodeBytes x) as [[rest user]|] eqn:E; [|done].
  apply DecodeBytes_inv in E. destruct (Nat.eqb_spec (length rest) 0) as [H0|_].
  { intros [= <- <-]. exists rest. split; [done|]. left. by apply length_zero_iff_nil in H0. }
  destruct (Nat.eqb_spec (length rest) versionSuffixLen); [|done].
  intros [= <- <-]. eauto.
Qed.

(** Engine keys of different user keys order as the user keys. *)
Lemma metaKey_compare k k' r s :
  bytes_ok k -> bytes_ok k' ->
  bcompare (metaKey k ++ r) (metaKey k' ++ s) =
    match bcompare k k' with Eq => bcompare r s | c => c end.
Proof. intros. by apply EncodeBytes_compare_app. Qed.

Lemma metaKey_inj_app k k' r s : metaKey k ++ r = metaKey k' ++ s -> k = k' /\ r = s.
Proof. apply EncodeBytes_inj_app. Qed.

Lemma EncodeMVCCKey_inj k k' t u :
  ts_ok t -> ts_ok u -> EncodeMVCCKey k t = EncodeMVCCKey k' u -> k = k' /\ t = u.
Proof.
  intros Ht Hu H. pose proof (DecodeMVCCKey_encode k t Ht) as E.
  rewrite H, DecodeMVCCKey_encode in E by done. by injection E.
Qed.

(** Decoding an encoded engine key returns the user key and the version
    timestamp (the zero timestamp for a metadata key), for every user key
    and every timestamp the clock produces. *)
Theorem MVCCKey_roundtrip k ts :
  ts_ok ts -> DecodeMVCCKey (EncodeMVCCKey k ts) = Ok (k, ts).
Proof. apply DecodeMVCCKey_encode. Qed.

Lemma MVCCKey_roundtrip_witness :
  DecodeMVCCKey (EncodeMVCCKey [4; 0; 1; 255] (mkTs 1700000000000000000 7)) =
    Ok ([4; 0; 1; 255], mkTs 1700000000000000000 7).
Proof. apply (MVCCKey_roundtrip [4; 0; 1; 255] (mkTs 1700000000000000000 7)). by_compute. Defined.

(** Engine keys of one user key: the metadata key first, then the versions
    newest first. *)
Lemma version_lt k t u :
  ts_ok t -> ts_ok u -> t <> ts0 -> u <> ts0 ->
  EncodeMVCCKey k t ≺ EncodeMVCCKey k u <-> u <t t.
Proof.
  intros Ht Hu Ht0 Hu0. rewrite !EncodeMVCCKey_version by done.
  rewrite bcompare_app, suffix_compare by done.
  destruct (Less u t) eqn:E1; [|destruct (Equal t u) eqn:E2]; tsb; split; try done; ts_lia.
Qed.

Lemma version_le k t u :
  ts_ok t -> ts_ok u -> t <> ts0 -> u <> ts0 ->
  EncodeMVCCKey k t ≼ EncodeMVCCKey k u <-> u <=t t.
Proof. intros. by rewrite ble_not_lt, version_lt, ts_not_lt. Qed.

Lemma meta_lt_version k t : t <> ts0 -> metaKey k ≺ EncodeMVCCKey k t.
Proof.
  intros H. rewrite EncodeMVCCKey_version by done. unfold suffix_of. cbn [be app]. apply blt_app_cons.
Qed.

(** Engine keys sort by user key; within a user key the metadata
    (intent) key comes first and the versions follow newest-timestamp
    first.  Keys of different user keys therefore never interleave. *)
Theorem MVCCKey_order k k' t u :
  bytes_ok k -> bytes_ok k' -> ts_ok t -> ts_ok u ->
  EncodeMVCCKey k t ≺ EncodeMVCCKey k' u <->
  k ≺ k' \/ (k = k' /\ u <> ts0 /\ (t = ts0 \/ u <t t)).
Proof.
  intros Hk Hk' Ht Hu. destruct (decide (k = k')) as [<-|Hne].
  - split.
    + intros H. right. split; [done|].
      destruct (decide (u = ts0)) as [->|Hu0].
      { destruct (decide (t = ts0)) as [->|Ht0]; [by apply blt_irrefl in H|].
        pose proof (meta_lt_version k t Ht0) as H'. by destruct (blt_irrefl _ (blt_trans _ _ _ H H')). }
      split; [done|]. destruct (decide (t = ts0)) as [|Ht0]; [by left|]. right. by apply (version_lt k).
    + intros [H|(_ & Hu0 & Hcase)]; [by apply blt_irrefl in H|].
      destruct (decide (t = ts0)) as [->|Ht0]; [by apply meta_lt_version|].
      destruct Hcase as [->|Hlt]; [done|]. by apply version_lt.
  - assert (Hex : forall k ts, exists r, EncodeMVCCKey k ts = metaKey k ++ r).
    { intros k0 ts. destruct (decide (ts = ts0)) as [->|]; [exists []; by rewrite app_nil_r|].
      exists (suffix_of ts). by apply EncodeMVCCKey_version. }
    destruct (Hex k t) as [r ->], (Hex k' u) as [s ->]. rewrite metaKey_compare by done.
    destruct (bcompare k k') eqn:E; [by apply bcompare_eq in E|naive_solver|naive_solver].
Qed.

Lemma MVCCKey_order_witness :
  EncodeMVCCKey [4; 0] (mkTs 9 1) ≺ EncodeMVCCKey [4; 0] (mkTs 9 0) <->
  [4; 0] ≺ [4; 0] \/ ([4; 0] = [4; 0] /\ mkTs 9 0 <> ts0 /\ (mkTs 9 1 = ts0 \/ mkTs 9 0 <t mkTs 9 1)).
Proof. apply (MVCCKey_order [4; 0] [4; 0] (mkTs 9 1) (mkTs 9 0)); by_compute. Defined.

(** ** The split of engine keys *)

Definition split_prefix (k : bytes) : bytes := take (mvccSplit k) k.

(** The split of a key that is not local: cut after the first 00 01. *)
Fixpoint cut_terminator (k : bytes) : bytes :=
  match k with
  | [] => []
  | c :: k' => if has_prefix (c :: k') mvccTerminator then mvccTerminator else c :: cut_terminator k'
  end.

Lemma cut_terminator_take k :
  match index_terminator k with
  | Some i => take (i + 2) k = cut_terminator k
  | None => k = cut_terminator k
  end.
Proof.
  induction k as [|c k IH]; [done|]. cbn [index_terminator cut_terminator].
  destruct (has_prefix (c :: k) mvccTerminator) eqn:E.
  - apply has_prefix_spec in E as [r ->]. done.
  - destruct (index_terminator k); cbn [fmap option_fmap option_map]; [|by f_equal].
    cbn [Nat.add take]. by f_equal.
Qed.

Lemma split_prefix_eq k :
  split_prefix k = if IsLocal k then k else cut_terminator k.
Proof.
  unfold split_prefix, mvccSplit, IsLocal. destruct k as [|c k]; [done|].
  destruct (c =? localPrefixByte); [by apply take_ge|].
  pose proof (cut_terminator_take (c :: k)) as H.
  destruct (index_terminator (c :: k)); [done|]. by rewrite take_ge by done.
Qed.

Lemma has_terminator_cons c k :
  has_prefix (c :: k) mvccTerminator = true <-> c = 0 /\ exists r, k = 1 :: r.
Proof.
  unfold mvccTerminator. cbn [has_prefix]. rewrite andb_true_iff, Z.eqb_eq.
  destruct k as [|d k]; [naive_solver|]. rewrite andb_true_iff, Z.eqb_eq. naive_solver.
Qed.

Lemma cut_terminator_head c k : exists r, cut_terminator (c :: k) = c :: r.
Proof.
  cbn [cut_terminator]. destruct (has_prefix (c :: k) mvccTerminator) eqn:E; [|eauto].
  apply has_terminator_cons in E as [-> _]. by eexists.
Qed.

Lemma cut_terminator_mono x y : x ≼ y -> cut_terminator x ≼ cut_terminator y.
Proof.
  revert y; induction x as [|c x IH]; intros y; [by destruct (cut_terminator y)|].
  destruct y as [|d y]; [done|]. cbn [bcompare].
  destruct (Z.compare_spec c d) as [->|Hlt|]; [|intros _|done].
  - intros Hle. cbn [cut_terminator].
    destruct (has_prefix (d :: x) mvccTerminator) eqn:Ex, (has_prefix (d :: y) mvccTerminator) eqn:Ey;
      [done| | |cbn [bcompare]; rewrite Z.compare_refl; auto].
    + apply has_terminator_cons in Ex as [-> [r ->]].
      unfold mvccTerminator. cbn [bcompare]. rewrite Z.compare_refl.
      destruct y as [|e y]; [done|]. cbn [bcompare] in Hle.
      destruct (cut_terminator_head e y) as [s ->]. cbn [bcompare].
      destruct (Z.compare_spec 1 e) as [<-|?|?]; [by destruct s|done|done].
    + apply has_terminator_cons in Ey as [-> [r ->]].
      unfold mvccTerminator. cbn [bcompare]. rewrite Z.compare_refl.
      destruct x as [|e x]; [done|]. cbn [bcompare] in Hle.
      destruct (cut_terminator_head e x) as [s ->]. cbn [bcompare].
      destruct (Z.compare_spec e 1) as [->|?|?]; [|done|done].
      assert (has_prefix (0 :: 1 :: x) mvccTerminator = true) by (apply has_terminator_cons; eauto).
      congruence.
  - destruct (cut_terminator_head c x) as [r ->], (cut_terminator_head d y) as [s ->].
    cbn [bcompare]. by destruct (Z.compare_spec c d); try lia.
Qed.

Lemma cut_terminator_meta k r : cut_terminator (escape_bytes k ++ escape :: terminator :: r) = metaKey k.
Proof.
  unfold metaKey, EncodeBytes. rewrite app_nil_l. induction k as [|c k IH]; [done|].
  cbn [escape_bytes]. destruct (Z.eqb_spec c escape) as [->|Hne].
  - change (escape :: escapedNul :: escape_bytes k) with ([escape; escapedNul] ++ escape_bytes k).
    rewrite <- !app_assoc. cbn [app]. rewrite <- IH. done.
  - cbn [app cut_terminator].
    destruct (has_prefix (c :: escape_bytes k ++ escape :: terminator :: r) mvccTerminator) eqn:E.
    { by apply has_terminator_cons in E as [-> _]. }
    by rewrite IH.
Qed.

Lemma metaKey_local k r : IsLocal (metaKey k ++ r) = IsLocal k.
Proof.
  unfold metaKey, EncodeBytes. destruct k as [|c k]; [done|]. cbn [escape_bytes].
  destruct (Z.eqb_spec c escape) as [->|]; done.
Qed.

Lemma split_prefix_engine_key k r : IsLocal k = false -> split_prefix (metaKey k ++ r) = metaKey k.
Proof.
  intros Hl. rewrite split_prefix_eq, metaKey_local, Hl. unfold metaKey at 1.
  rewrite EncodeBytes_app. apply cut_terminator_meta.
Qed.

(** The comparer's split is the one the prefix bloom filters need: every
    engine key of a (non-local) user key splits at the user key's metadata
    key, and the split respects the byte order of ALL byte strings, those
    the store never wrote included (truncated index separators). *)
Theorem mvccSplit_respects_order :
  (forall k ts, IsLocal k = false -> split_prefix (EncodeMVCCKey k ts) = metaKey k) /\
  (forall x y, x ≼ y -> split_prefix x ≼ split_prefix y).
Proof.
  split.
  - intros k ts Hl. destruct (decide (ts = ts0)) as [->|].
    + rewrite EncodeMVCCKey_meta, <- (app_nil_r (metaKey k)) at 1. by apply split_prefix_engine_key.
    + rewrite EncodeMVCCKey_version by done. by apply split_prefix_engine_key.
  - intros x y Hle. rewrite !split_prefix_eq.
    destruct x as [|c x]; [by destruct (if IsLocal y then y else cut_terminator y)|].
    destruct y as [|d y]; [done|].
    destruct (cut_terminator_head c x) as [r Er], (cut_terminator_head d y) as [s Es].
    cbn [IsLocal]. destruct (Z.eqb_spec c localPrefixByte) as [Ec|Ec], (Z.eqb_spec d localPrefixByte) as [Ed|Ed];
      [done| | |by apply cut_terminator_mono].
    + rewrite Es. cbn [bcompare] in *. destruct (Z.compare_spec c d); [congruence|done|done].
    + rewrite Er. cbn [bcompare] in *. destruct (Z.compare_spec c d); [congruence|done|done].
Qed.

Definition is_prefix_key (p : bytes) : Prop := split_prefix p = p.

Lemma ends_terminator a :
  (2 <=? length a)%nat && bool_decide (a !! (length a - 2)%nat = Some 0) &&
    bool_decide (a !! (length a - 1)%nat = Some 1) = true ->
  exists q, a = q ++ [0; 1].
Proof.
  rewrite !andb_true_iff, !bool_decide_eq_true, Nat.leb_le. intros [[Hn H0] H1].
  exists (take (length a - 2) a).
  rewrite <- (take_drop (length a - 2) a) at 1. f_equal.
  rewrite (drop_S _ _ _ H0). f_equal.
  replace (S (length a - 2)) with (length a - 1)%nat by lia.
  rewrite (drop_S _ _ _ H1). f_equal. apply drop_ge. lia.
Qed.

Lemma insert_last_terminator (q : bytes) : <[(length (q ++ [0; 1]%Z) - 1)%nat := 2]> (q ++ [0; 1]) = q ++ [0; 2].
Proof.
  rewrite length_app. cbn [length].
  replace (length q + 2 - 1)%nat with (length q + 1)%nat by lia. by rewrite insert_app_r.
Qed.

Lemma cut_terminator_ext q r :
  cut_terminator (q ++ [0; 1]) = q ++ [0; 1] -> cut_terminator ((q ++ [0; 1]) ++ r) = q ++ [0; 1].
Proof.
  induction q as [|c q IH]; [done|]. cbn [app cut_terminator].
  destruct (has_prefix (c :: q ++ [0; 1]) mvccTerminator) eqn:E.
  - intros H. injection H as <- H. by destruct q as [|? [|? q]].
  - intros [= H]. destruct (has_prefix (c :: (q ++ [0; 1]) ++ r) mvccTerminator) eqn:E'.
    + exfalso. apply has_terminator_cons in E' as [-> [s Hs]].
      destruct q as [|d q]; [done|]. injection Hs as -> _.
      assert (has_prefix (0 :: (1 :: q) ++ [0; 1]) mvccTerminator = true) by (apply has_terminator_cons; eauto).
      congruence.
    + by rewrite IH.
Qed.

Lemma cut_terminator_bump q :
  cut_terminator (q ++ [0; 1]) = q ++ [0; 1] -> cut_terminator (q ++ [0; 2]) = q ++ [0; 2].
Proof.
  induction q as [|c q IH]; [done|]. cbn [app cut_terminator].
  destruct (has_prefix (c :: q ++ [0; 1]) mvccTerminator) eqn:E.
  - intros H. injection H as <- H. by destruct q as [|? [|? q]].
  - intros [= H]. destruct (has_prefix (c :: q ++ [0; 2]) mvccTerminator) eqn:E'.
    + exfalso. apply has_terminator_cons in E' as [-> [s Hs]].
      destruct q as [|d q]; [done|]. injection Hs as -> _.
      assert (has_prefix (0 :: (1 :: q) ++ [0; 1]) mvccTerminator = true) by (apply has_terminator_cons; eauto).
      congruence.
    + by rewrite IH.
Qed.

Lemma cut_terminator_snoc0 p :
  cut_terminator p = p -> (forall q, p <> q ++ [0; 1]) -> cut_terminator (p ++ [0]) = p ++ [0].
Proof.
  induction p as [|c p IH]; intros H Hn; [done|]. cbn [app cut_terminator] in *.
  destruct (has_prefix (c :: p) mvccTerminator) eqn:E.
  { destruct (Hn []). by rewrite <- H. }
  injection H as H. destruct (has_prefix (c :: p ++ [0]) mvccTerminator) eqn:E'.
  - exfalso. apply has_terminator_cons in E' as [-> [s Hs]]. destruct p as [|d p]; [done|].
    injection Hs as -> _.
    assert (has_prefix (0 :: 1 :: p) mvccTerminator = true) by (apply has_terminator_cons; eauto). congruence.
  - rewrite IH; [done|done|]. intros q ->. by apply (Hn (c :: q)).
Qed.

(** [mvccImmediateSuccessor] of a non-local prefix key is the smallest
    prefix key above it: it is above, it is a prefix key, and no prefix
    key lies strictly between. *)
Theorem mvccImmediateSuccessor_least p :
  IsLocal p = false -> is_prefix_key p ->
  let s := mvccImmediateSuccessor [] p in
  p ≺ s /\ is_prefix_key s /\ (forall q, bytes_ok q -> is_prefix_key q -> p ≺ q -> s ≼ q).
Proof.
  intros Hl Hp. unfold is_prefix_key in *. rewrite split_prefix_eq, Hl in Hp.
  unfold mvccImmediateSuccessor. rewrite !app_nil_l.
  destruct (_ && _ && _) eqn:E; cbn zeta.
  - apply ends_terminator in E as [q ->]. rewrite insert_last_terminator.
    assert (Hloc : forall r, IsLocal ((q ++ [0; 1]) ++ r) = false /\ IsLocal (q ++ [0; 2]) = false) by (by destruct q).
    split; [|split].
    + rewrite bcompare_app. done.
    + rewrite split_prefix_eq, (proj2 (Hloc [])). by apply cut_terminator_bump.
    + intros x _ Hx Hlt. destruct (decide (q ++ [0; 2] ≼ x)) as [|Hn]; [done|].
      apply blt_not_le in Hn. change [0; 2] with ([0] ++ [1 + 1]) in Hn.
      change [0; 1] with ([0] ++ [1]) in Hlt. rewrite app_assoc in Hn, Hlt.
      destruct (between_bump _ _ _ (blt_ble _ _ Hlt) Hn) as [r ->]. exfalso.
      rewrite <- (app_assoc q [0] [1]) in Hx, Hlt. cbn [app] in Hx, Hlt.
      rewrite split_prefix_eq, (proj1 (Hloc r)), cut_terminator_ext in Hx by done.
      rewrite <- Hx in Hlt. by apply blt_irrefl in Hlt.
  - assert (Hn : forall q, p <> q ++ [0; 1]).
    { intros q ->. rewrite length_app in E. cbn [length] in E.
      replace (length q + 2 - 2)%nat with (length q + 0)%nat in E by lia.
      replace (length q + 2 - 1)%nat with (length q + 1)%nat in E by lia.
      rewrite !lookup_app_r in E by lia. rewrite !Nat.add_sub_swap, Nat.sub_diag in E by lia.
      destruct (Nat.leb_spec 2 (length q + 2)); [done|lia]. }
    split; [apply blt_app_cons|]. split.
    + rewrite split_prefix_eq.
      assert (IsLocal (p ++ [0]) = false) as -> by (by destruct p).
      by apply cut_terminator_snoc0.
    + intros x Hx _ Hlt. by apply Key_Next_le.
Qed.

Lemma mvccImmediateSuccessor_least_witness :
  let p := metaKey [4; 9] in let s := mvccImmediateSuccessor [] p in
  p ≺ s /\ is_prefix_key s /\ (forall q, bytes_ok q -> is_prefix_key q -> p ≺ q -> s ≼ q).
Proof. apply (mvccImmediateSuccessor_least (metaKey [4; 9])); reflexivity. Defined.

(** A local key is its own prefix whatever its bytes, but
    [mvccImmediateSuccessor] tests the last two bytes without looking at
    the local prefix: for the raft log entry at index 1, whose key ends in
    00 01, it returns a key with another prefix key strictly between. *)
Theorem mvccImmediateSuccessor_local_gap :
  let p := RaftLogKey 1 1 in
  is_prefix_key p /\ is_prefix_key (p ++ [0]) /\
  p ≺ p ++ [0] /\ p ++ [0] ≺ mvccImmediateSuccessor [] p.
Proof. vm_compute. repeat split; reflexivity. Qed.

(** ** Values *)

Lemma decode_encode_value data tomb :
  decodeMVCCValue (encodeMVCCValue data tomb) = Ok (if tomb then [] else data, tomb).
Proof. by destruct tomb. Qed.
