(* ===== verification/Pebble.v ===== *)
(** * The storage engine interface (pkg/storage/engine.go over Pebble)

    Pebble is a dependency: the class [Pebble] is what the code uses of it,
    [PebbleLaws] is its documented behaviour (an ordered map under
    [bytes.Compare], iterators over a bounded snapshot of it, prefix
    iteration by the comparer's split).  The MVCC layer is proved against
    the interface.  [map_pebble] is an instance, used by the witnesses. *)

From S2P Require Import Prelude Encoding Hlc Keys MvccKey.
From stdpp Require Export sorting.

Abbreviation entry := (list Z * list Z)%type (only parsing).

(** The entries of a sorted list within [lower, upper). *)
Definition in_bounds (lower upper : bytes) (e : entry) : bool :=
  bleb lower e.1 && bltb e.1 upper.
Definition bounded (lower upper : bytes) (l : list entry) : list entry :=
  List.filter (in_bounds lower upper) l.

Fixpoint first {A} (p : A -> bool) (l : list A) : option A :=
  match l with
  | [] => None
  | e :: l' => if p e then Some e else first p l'
  end.

Lemma first_elem {A} (p : A -> bool) l e : first p l = Some e -> e ∈ l.
Proof. induction l as [|y l IH]; cbn; [done|]. destruct (p y); [intros [= ->]; apply list_elem_of_here|]. intros H.
  by apply list_elem_of_further, IH. Qed.

Class Pebble := {
  (** What a reader sees: an engine, a snapshot or an indexed batch. *)
  store : Type;
  st_get : store -> bytes -> option bytes;
  st_set : store -> bytes -> bytes -> store;
  st_del : store -> bytes -> store;
  st_del_range : store -> bytes -> bytes -> store;
  (** The entries in key order (not an operation of the engine). *)
  st_entries : store -> list entry;

  iter : Type;
  it_new : store -> bytes -> bytes -> iter;
  it_set_bounds : iter -> bytes -> bytes -> iter;
  it_set_options : store -> iter -> bytes -> bytes -> iter;
  it_seek_ge : iter -> bytes -> iter;
  it_seek_prefix_ge : iter -> bytes -> iter;
  it_seek_lt : iter -> bytes -> iter;
  it_next : iter -> iter;
  it_prev : iter -> iter;
  (** The entry the iterator is on; [None] when it is not valid. *)
  it_cur : iter -> option entry;
  (** The snapshot it reads, the part within its bounds, and the prefix it
      is restricted to in prefix iteration mode (not operations). *)
  it_source : iter -> list entry;
  it_view : iter -> list entry;
  it_prefix : iter -> option bytes;
  (** Whether it is exhausted past its last entry (not an operation). *)
  it_end : iter -> bool;
}.

Definition entry_lt (a b : entry) : Prop := a.1 ≺ b.1.

(** Keys an iterator in prefix mode [p] observes. *)
Definition prefix_match (p : option bytes) (e : entry) : bool :=
  match p with None => true | Some q => beqb (split_prefix e.1) q end.

Class PebbleLaws (P : Pebble) : Prop := {
  entries_sorted s : StronglySorted entry_lt (st_entries s);
  get_entries s k v : st_get s k = Some v <-> (k, v) ∈ st_entries s;
  get_set_eq s k v : st_get (st_set s k v) k = Some v;
  get_set_ne s k k' v : k <> k' -> st_get (st_set s k v) k' = st_get s k';
  get_del_eq s k : st_get (st_del s k) k = None;
  get_del_ne s k k' : k <> k' -> st_get (st_del s k) k' = st_get s k';
  get_del_range_in s lo hi k : lo ≼ k -> k ≺ hi -> st_get (st_del_range s lo hi) k = None;
  get_del_range_out s lo hi k : ~ (lo ≼ k /\ k ≺ hi) -> st_get (st_del_range s lo hi) k = st_get s k;

  (** NewIter, SetBounds (the snapshot of creation is kept) and SetOptions
      (the view of an indexed batch is refreshed). *)
  new_source s lo hi : it_source (it_new s lo hi) = st_entries s;
  new_view s lo hi : it_view (it_new s lo hi) = bounded lo hi (st_entries s);
  new_prefix s lo hi : it_prefix (it_new s lo hi) = None;
  set_bounds_source it lo hi : it_source (it_set_bounds it lo hi) = it_source it;
  set_bounds_view it lo hi : it_view (it_set_bounds it lo hi) = bounded lo hi (it_source it);
  set_bounds_prefix it lo hi : it_prefix (it_set_bounds it lo hi) = None;
  set_options_source s it lo hi : it_source (it_set_options s it lo hi) = st_entries s;
  set_options_view s it lo hi : it_view (it_set_options s it lo hi) = bounded lo hi (st_entries s);
  set_options_prefix s it lo hi : it_prefix (it_set_options s it lo hi) = None;

  (** Positioning never changes what is iterated. *)
  seek_ge_view it k : it_view (it_seek_ge it k) = it_view it;
  seek_ge_source it k : it_source (it_seek_ge it k) = it_source it;
  seek_prefix_ge_view it k : it_view (it_seek_prefix_ge it k) = it_view it;
  seek_prefix_ge_source it k : it_source (it_seek_prefix_ge it k) = it_source it;
  seek_lt_view it k : it_view (it_seek_lt it k) = it_view it;
  seek_lt_source it k : it_source (it_seek_lt it k) = it_source it;
  next_view it : it_view (it_next it) = it_view it;
  next_source it : it_source (it_next it) = it_source it;
  prev_view it : it_view (it_prev it) = it_view it;
  prev_source it : it_source (it_prev it) = it_source it;

  (** Absolute seeks leave prefix mode, SeekPrefixGE enters it. *)
  seek_ge_prefix it k : it_prefix (it_seek_ge it k) = None;
  seek_lt_prefix it k : it_prefix (it_seek_lt it k) = None;
  seek_prefix_ge_prefix it k : it_prefix (it_seek_prefix_ge it k) = Some (split_prefix k);
  next_prefix it : it_prefix (it_next it) = it_prefix it;
  prev_prefix it : it_prefix (it_prev it) = it_prefix it;

  (** Where each move lands.  Prev is documented outside prefix mode; from
      past the last entry, where a seek or Next may leave the iterator, it
      moves to the last entry. *)
  seek_ge_cur it k : it_cur (it_seek_ge it k) = first (fun e => bleb k e.1) (it_view it);
  seek_prefix_ge_cur it k :
    it_cur (it_seek_prefix_ge it k) =
      first (fun e => bleb k e.1 && prefix_match (Some (split_prefix k)) e) (it_view it);
  seek_lt_cur it k : it_cur (it_seek_lt it k) = first (fun e => bltb e.1 k) (reverse (it_view it));
  next_cur it k v :
    it_cur it = Some (k, v) ->
    it_cur (it_next it) = first (fun e => bltb k e.1 && prefix_match (it_prefix it) e) (it_view it);
  prev_cur it k v :
    it_cur it = Some (k, v) -> it_prefix it = None ->
    it_cur (it_prev it) = first (fun e => bltb e.1 k) (reverse (it_view it));
  seek_ge_end it k : it_cur (it_seek_ge it k) = None -> it_end (it_seek_ge it k) = true;
  next_end it k v :
    it_cur it = Some (k, v) -> it_prefix it = None -> it_cur (it_next it) = None -> it_end (it_next it) = true;
  prev_end it : it_end it = true -> it_prefix it = None -> it_cur (it_prev it) = head (reverse (it_view it));
}.

(** ** The wrapper of engine.go *)

Section Wrapper.
Context {P : Pebble}.

(** [pebbleIter]: the Pebble iterator, whether the engine runs the MVCC
    comparer ([prefix]), and whether a rebound refreshes the view. *)
Record pebbleIter := mkIter { pit : iter; prefix : bool; refreshOnRebound : bool }.

Definition with_it (i : pebbleIter) (it : iter) : pebbleIter :=
  mkIter it (prefix i) (refreshOnRebound i).

(** [Engine.NewIter] / [Snapshot.NewIter] and [Batch.NewIter]. *)
Definition NewIter (prefixBloom : bool) (s : store) (lower upper : bytes) : pebbleIter :=
  mkIter (it_new s lower upper) prefixBloom false.
Definition Batch_NewIter (prefixBloom : bool) (s : store) (lower upper : bytes) : pebbleIter :=
  mkIter (it_new s lower upper) prefixBloom true.

(** [s] is the current content of the batch the iterator reads. *)
Definition SetBounds (s : store) (i : pebbleIter) (lower upper : bytes) : pebbleIter :=
  if refreshOnRebound i then with_it i (it_set_options s (pit i) lower upper)
  else with_it i (it_set_bounds (pit i) lower upper).

Definition SeekGE (i : pebbleIter) (k : bytes) : pebbleIter := with_it i (it_seek_ge (pit i) k).
Definition SeekPrefixGE (i : pebbleIter) (k : bytes) : pebbleIter :=
  if prefix i then with_it i (it_seek_prefix_ge (pit i) k)
  else with_it i (it_seek_ge (pit i) k).
Definition SeekLT (i : pebbleIter) (k : bytes) : pebbleIter := with_it i (it_seek_lt (pit i) k).
Definition INext (i : pebbleIter) : pebbleIter := with_it i (it_next (pit i)).
Definition IPrev (i : pebbleIter) : pebbleIter := with_it i (it_prev (pit i)).
(** [Valid], [Key] and [Value] at once. *)
Definition cur (i : pebbleIter) : option entry := it_cur (pit i).
Definition Valid (i : pebbleIter) : bool := bool_decide (is_Some (cur i)).

(** Go's [append([]byte(nil), v...)]: nil when there is nothing to append. *)
Definition append_nil (v : bytes) : option bytes :=
  match v with [] => None | _ => Some v end.

(** [Batch.Get] / [Engine.Get]: nil for a missing key, else a copy. *)
Definition Batch_Get (s : store) (k : bytes) : option bytes :=
  match st_get s k with Some v => append_nil v | None => None end.
Definition Batch_Put (s : store) (k v : bytes) : store := st_set s k v.
Definition Batch_Delete (s : store) (k : bytes) : store := st_del s k.
Definition Batch_DeleteRange (s : store) (start end_ : bytes) : store := st_del_range s start end_.
End Wrapper.

(** ** Sorted entry lists *)

Lemma first_app {A} (p : A -> bool) l1 l2 :
  first p (l1 ++ l2) = match first p l1 with Some e => Some e | None => first p l2 end.
Proof. induction l1 as [|e l1 IH]; simpl; [done|]. by destruct (p e). Qed.

Lemma first_none {A} (p : A -> bool) l : first p l = None <-> Forall (fun e => p e = false) l.
Proof.
  induction l as [|e l IH]; simpl; [split; [constructor|done]|].
  destruct (p e) eqn:E; [split; [done|]; inversion 1; congruence|].
  rewrite IH. split; [by constructor|by inversion 1].
Qed.

Lemma first_some {A} (p : A -> bool) l e :
  first p l = Some e ->
  exists pre post, l = pre ++ e :: post /\ p e = true /\ Forall (fun a => p a = false) pre.
Proof.
  induction l as [|a l IH]; cbn [first]; [done|]. destruct (p a) eqn:E.
  - intros [= ->]. by exists [], l.
  - intros H. destruct (IH H) as (pre & post & -> & He & Hf). exists (a :: pre), post. by repeat constructor.
Qed.

Lemma first_ext {A} (p q : A -> bool) l :
  Forall (fun e => p e = q e) l -> first p l = first q l.
Proof. induction 1 as [|e l E _ IH]; simpl; [done|]. by rewrite E, IH. Qed.

Lemma first_map {A B} (f : A -> B) (p : B -> bool) l :
  first p (map f l) = f <$> first (fun a => p (f a)) l.
Proof. induction l as [|a l IH]; simpl; [done|]. by destruct (p (f a)). Qed.

Lemma first_head {A} (p : A -> bool) e l : p e = true -> first p (e :: l) = Some e.
Proof. simpl. by intros ->. Qed.

(** The suffix of a sorted list from the first entry at or above [k]. *)
Fixpoint from_key (k : bytes) (l : list entry) : list entry :=
  match l with
  | [] => []
  | e :: l' => if bleb k e.1 then l else from_key k l'
  end.

Lemma from_key_split k l :
  exists pre, l = pre ++ from_key k l /\ Forall (fun e => e.1 ≺ k) pre.
Proof.
  induction l as [|e l IH]; simpl; [by exists []|].
  destruct (bleb k e.1) eqn:E; [by exists []|].
  destruct IH as (pre & Hl & Hpre). exists (e :: pre). split; [by rewrite Hl at 1|].
  constructor; [by apply bleb_gt|done].
Qed.

Lemma from_key_head k l : head (from_key k l) = first (fun e => bleb k e.1) l.
Proof. induction l as [|e l IH]; simpl; [done|]. by destruct (bleb k e.1). Qed.

Lemma from_key_all k l : (forall e, e ∈ l -> k ≼ e.1) -> from_key k l = l.
Proof.
  destruct l as [|e l]; [done|]. intros H. cbn [from_key].
  assert (bleb k e.1 = true) as ->; [|done]. apply bleb_le, H, list_elem_of_here.
Qed.

Lemma sorted_app l1 l2 :
  StronglySorted entry_lt (l1 ++ l2) <->
  StronglySorted entry_lt l1 /\ StronglySorted entry_lt l2 /\
  (forall a b, a ∈ l1 -> b ∈ l2 -> entry_lt a b).
Proof.
  induction l1 as [|e l1 IH]; simpl.
  - split; [intros H; repeat split; [constructor|done|]|by intros (_ & ? & _)].
    intros a b Ha. by apply not_elem_of_nil in Ha.
  - split.
    + inversion 1 as [|? ? Hs Hf]; subst. apply IH in Hs as (H1 & H2 & H3).
      apply Forall_app in Hf as [Hf1 Hf2]. repeat split; [by constructor|done|].
      intros a b [->|Ha]%elem_of_cons Hb; [|by apply H3].
      rewrite Forall_forall in Hf2. by apply Hf2.
    + intros (H1 & H2 & H3). inversion H1 as [|? ? Hs Hf]; subst. constructor.
      * apply IH. repeat split; [done|done|]. intros a b Ha Hb. apply H3; [by apply list_elem_of_further|done].
      * apply Forall_app. split; [done|]. apply Forall_forall. intros b Hb. apply H3; [by apply list_elem_of_here|done].
Qed.

Lemma sorted_middle_lt l1 e l2 a :
  StronglySorted entry_lt (l1 ++ e :: l2) -> a ∈ l1 -> entry_lt a e.
Proof.
  intros H Ha. apply sorted_app in H as (_ & _ & H). apply H; [done|by apply list_elem_of_here].
Qed.

Lemma sorted_middle_gt l1 e l2 a :
  StronglySorted entry_lt (l1 ++ e :: l2) -> a ∈ l2 -> entry_lt e a.
Proof.
  intros H Ha. apply sorted_app in H as (_ & H & _). inversion H as [|? ? _ Hf]; subst.
  rewrite Forall_forall in Hf. by apply Hf.
Qed.

Lemma filter_sorted (p : entry -> bool) l :
  StronglySorted entry_lt l -> StronglySorted entry_lt (List.filter p l).
Proof.
  induction 1 as [|e l Hs IH Hf]; simpl; [constructor|].
  destruct (p e); [|done]. constructor; [done|].
  rewrite Forall_forall in *. intros a Ha. apply Hf.
  apply list_elem_of_In. apply list_elem_of_In in Ha. by apply List.filter_In in Ha as [? _].
Qed.

(** Sorted lists with the same elements are equal. *)
Lemma sorted_ext l1 l2 :
  StronglySorted entry_lt l1 -> StronglySorted entry_lt l2 ->
  (forall e, e ∈ l1 <-> e ∈ l2) -> l1 = l2.
Proof.
  revert l2; induction l1 as [|a l1 IH]; intros l2 H1 H2 Hext.
  - destruct l2 as [|b l2]; [done|]. destruct (not_elem_of_nil b). apply Hext. by apply list_elem_of_here.
  - destruct l2 as [|b l2]; [destruct (not_elem_of_nil a); apply Hext; by apply list_elem_of_here|].
    inversion H1 as [|? ? Hs1 Hf1]; subst. inversion H2 as [|? ? Hs2 Hf2]; subst.
    rewrite Forall_forall in Hf1, Hf2.
    assert (a = b) as ->.
    { assert (Ha : a ∈ b :: l2) by (apply Hext; apply list_elem_of_here).
      assert (Hb : b ∈ a :: l1) by (apply Hext; apply list_elem_of_here).
      apply elem_of_cons in Ha as [->|Ha]; [done|]. apply elem_of_cons in Hb as [->|Hb]; [done|].
      destruct (blt_irrefl a.1). eapply blt_trans; [exact (Hf1 b Hb)|exact (Hf2 a Ha)]. }
    f_equal. apply IH; try done. intros e. split; intros He.
    + assert (He' : e ∈ b :: l2) by (apply Hext; by apply list_elem_of_further).
      apply elem_of_cons in He' as [->|]; [|done]. by destruct (blt_irrefl b.1); apply Hf1.
    + assert (He' : e ∈ b :: l1) by (apply Hext; by apply list_elem_of_further).
      apply elem_of_cons in He' as [->|]; [|done]. by destruct (blt_irrefl b.1); apply Hf2.
Qed.

(** ** Iterators as positions in a list *)

Section Positions.
Context {P : Pebble} {PL : PebbleLaws P}.

Definition view (i : pebbleIter) : list entry := it_view (pit i).

(** In prefix mode every key of the view matches, so prefix mode is
    indistinguishable from plain iteration. *)
Definition uniform (i : pebbleIter) : Prop :=
  match it_prefix (pit i) with
  | None => True
  | Some p => Forall (fun e => split_prefix e.1 = p) (view i)
  end.

(** The iterator is on the head of [l], with [pre] behind it. *)
Definition iter_at (i : pebbleIter) (pre l : list entry) : Prop :=
  view i = pre ++ l /\ StronglySorted entry_lt (view i) /\ cur i = head l /\ uniform i.

Lemma first_gt_tail (m : option bytes) pre e l :
  StronglySorted entry_lt (pre ++ e :: l) ->
  Forall (fun x => prefix_match m x = true) (pre ++ e :: l) ->
  first (fun x => bltb e.1 x.1 && prefix_match m x) (pre ++ e :: l) = head l.
Proof.
  intros Hs Hm. rewrite first_app.
  assert (first (fun x => bltb e.1 x.1 && prefix_match m x) pre = None) as ->.
  { apply first_none, Forall_forall. intros a Ha. apply andb_false_intro1, bltb_ge.
    apply blt_ble. by apply (sorted_middle_lt pre e l). }
  simpl. assert (bltb e.1 e.1 = false) as -> by (apply bltb_ge, ble_refl). simpl.
  destruct l as [|e' l]; [done|]. simpl.
  assert (bltb e.1 e'.1 = true) as ->.
  { apply bltb_lt. apply (sorted_middle_gt pre e (e' :: l)); [done|apply list_elem_of_here]. }
  assert (prefix_match m e' = true) as ->; [|done].
  rewrite Forall_forall in Hm. apply Hm. apply elem_of_app. right.
  apply list_elem_of_further, list_elem_of_here.
Qed.

Lemma uniform_match i :
  uniform i -> Forall (fun x => prefix_match (it_prefix (pit i)) x = true) (view i).
Proof.
  unfold uniform, prefix_match. destruct (it_prefix (pit i)).
  - intros H. eapply Forall_impl; [exact H|]. intros e He. by apply beqb_eq.
  - intros _. apply Forall_forall. done.
Qed.

Lemma uniform_INext i : uniform i -> uniform (INext i).
Proof. unfold uniform, view, INext, with_it. cbn [pit]. by rewrite next_prefix, next_view. Qed.

Lemma next_at i pre e l : iter_at i pre (e :: l) -> iter_at (INext i) (pre ++ [e]) l.
Proof.
  intros (Hv & Hs & Hc & Hu).
  assert (Hv' : view (INext i) = pre ++ e :: l) by (unfold view, INext, with_it; cbn [pit]; by rewrite next_view).
  split; [by rewrite Hv', <- app_assoc|]. split; [by rewrite Hv', <- Hv|]. split; [|by apply uniform_INext].
  unfold cur, INext, with_it in *. cbn [pit].
  destruct e as [k v]. cbn [head] in Hc. rewrite (next_cur (pit i) k v Hc). fold (view i). rewrite Hv.
  apply (first_gt_tail (it_prefix (pit i)) pre (k, v) l); [by rewrite <- Hv|].
  rewrite <- Hv. by apply uniform_match.
Qed.

Lemma seek_ge_at i k :
  StronglySorted entry_lt (view i) ->
  exists pre, iter_at (SeekGE i k) pre (from_key k (view i)) /\ Forall (fun e => e.1 ≺ k) pre.
Proof.
  intros Hs. destruct (from_key_split k (view i)) as (pre & Hl & Hp). exists pre.
  split; [|done]. unfold iter_at, SeekGE, view, cur, uniform, with_it in *. cbn [pit].
  rewrite seek_ge_view, seek_ge_prefix, seek_ge_cur, from_key_head. done.
Qed.

(** A prefix seek among keys that share the sought key's prefix. *)
Lemma seek_prefix_at i k :
  StronglySorted entry_lt (view i) ->
  Forall (fun e => split_prefix e.1 = split_prefix k) (view i) ->
  exists pre, iter_at (SeekPrefixGE i k) pre (from_key k (view i)) /\ Forall (fun e => e.1 ≺ k) pre.
Proof.
  intros Hs Hsame. unfold SeekPrefixGE. destruct (prefix i); [|by apply seek_ge_at].
  destruct (from_key_split k (view i)) as (pre & Hl & Hp). exists pre.
  split; [|done]. unfold iter_at, view, cur, uniform, with_it in *. cbn [pit].
  rewrite seek_prefix_ge_view, seek_prefix_ge_prefix, seek_prefix_ge_cur, from_key_head.
  split; [done|]. split; [done|]. split.
  2: { unfold view. cbn [pit]. by rewrite seek_prefix_ge_view. }
  apply first_ext. eapply Forall_impl; [exact Hsame|].
  intros e He. cbn [prefix_match]. by rewrite He, beqb_refl, andb_true_r.
Qed.

Lemma first_rev_last (p : entry -> bool) pre e l :
  Forall (fun x => p x = false) l -> p e = true ->
  first p (reverse (pre ++ e :: l)) = Some e.
Proof.
  intros Hl He. rewrite reverse_app, reverse_cons, first_app, first_app. simpl. rewrite He.
  assert (first p (reverse l) = None) as ->; [|done].
  apply first_none. apply Forall_reverse. done.
Qed.

Lemma prev_at i pre e' e l :
  iter_at i (pre ++ [e']) (e :: l) -> it_prefix (pit i) = None -> iter_at (IPrev i) pre (e' :: e :: l).
Proof.
  intros (Hv & Hs & Hc & Hu) Hnp. rewrite <- app_assoc in Hv. cbn [app] in Hv.
  assert (Hv' : view (IPrev i) = pre ++ e' :: e :: l) by (unfold view, IPrev, with_it; cbn [pit]; by rewrite prev_view).
  split; [done|]. split; [by rewrite Hv', <- Hv|]. split.
  2: { unfold uniform, IPrev, with_it. cbn [pit]. by rewrite prev_prefix, Hnp. }
  unfold cur, IPrev, with_it in *. cbn [pit]. rewrite Hv in Hs.
  destruct e as [k v]. cbn [head] in *. rewrite (prev_cur (pit i) k v Hc Hnp). fold (view i). rewrite Hv.
  apply first_rev_last.
  - apply Forall_cons. split; [by apply bltb_ge, ble_refl|].
    apply Forall_forall. intros a Ha. apply bltb_ge, blt_ble.
    apply (sorted_middle_gt (pre ++ [e']) (k, v) l); [by rewrite <- app_assoc|done].
  - apply bltb_lt. apply (sorted_middle_gt pre e' ((k, v) :: l) (k, v)); [done|apply list_elem_of_here].
Qed.

Lemma prev_at_start i e l :
  iter_at i [] (e :: l) -> it_prefix (pit i) = None -> cur (IPrev i) = None.
Proof.
  intros (Hv & Hs & Hc & Hu) Hnp. unfold IPrev, view, cur, with_it in *. cbn [pit].
  destruct e as [k v]. cbn [head] in *. rewrite (prev_cur (pit i) k v Hc Hnp), Hv.
  apply first_none, Forall_reverse. rewrite Hv in Hs. apply Forall_cons. split; [by apply bltb_ge, ble_refl|].
  apply Forall_forall. intros a Ha. apply bltb_ge, blt_ble. by apply (sorted_middle_gt [] (k, v) l).
Qed.

(** The part of a sorted list below [k], and the seek onto its end. *)
Lemma seek_lt_at i k :
  StronglySorted entry_lt (view i) ->
  (exists pre e, iter_at (SeekLT i k) pre (e :: from_key k (view i)) /\
     Forall (fun e => e.1 ≺ k) (pre ++ [e])) \/
  (cur (SeekLT i k) = None /\ from_key k (view i) = view i).
Proof.
  intros Hs. destruct (from_key_split k (view i)) as (pre & Hl & Hp).
  assert (Hge : Forall (fun e => bltb e.1 k = false) (from_key k (view i))).
  { rewrite Hl in Hs. apply Forall_forall. intros a Ha.
    destruct (from_key k (view i)) as [|b l] eqn:E; [by apply not_elem_of_nil in Ha|].
    assert (Hb : k ≼ b.1).
    { pose proof (from_key_head k (view i)) as Hh. rewrite E in Hh. cbn [head] in Hh.
      clear - Hh. induction (view i) as [|x v IH]; simpl in Hh; [done|].
      destruct (bleb k x.1) eqn:Ex; [|by apply IH]. injection Hh as ->. by apply bleb_le. }
    apply bltb_ge. apply elem_of_cons in Ha as [->|Ha]; [done|].
    eapply ble_trans; [exact Hb|]. apply blt_ble. by apply (sorted_middle_gt pre b l). }
  unfold iter_at, SeekLT, view, cur, uniform, with_it in *. cbn [pit].
  rewrite seek_lt_view, seek_lt_prefix, seek_lt_cur.
  destruct (decide (pre = [])) as [->|Hne].
  - right. split; [|by rewrite Hl at 2]. rewrite Hl, app_nil_l. by apply first_none, Forall_reverse.
  - left. destruct (exists_last Hne) as (pre' & e & ->). exists pre', e. rewrite <- app_assoc in Hl.
    split; [|done]. repeat split; [done|done|]. cbn [head]. rewrite Hl. apply first_rev_last; [done|].
    apply Forall_app in Hp as [_ He]. rewrite Forall_singleton in He. by apply bltb_lt.
Qed.

Lemma view_SeekGE_eq i k : view (SeekGE i k) = view i.
Proof. apply seek_ge_view. Qed.
Lemma view_SeekLT_eq i k : view (SeekLT i k) = view i.
Proof. apply seek_lt_view. Qed.

(** Positions outside prefix mode, the exhausted one included. *)
Definition plain_at (i : pebbleIter) (pre l : list entry) : Prop :=
  iter_at i pre l /\ it_prefix (pit i) = None /\ (l = [] -> it_end (pit i) = true).

Lemma plain_cur i pre l : plain_at i pre l -> cur i = head l.
Proof. by intros ((_ & _ & H & _) & _). Qed.

Lemma plain_view i pre l : plain_at i pre l -> view i = pre ++ l /\ StronglySorted entry_lt (view i).
Proof. by intros ((H & H' & _) & _). Qed.

Lemma plain_next i pre e l : plain_at i pre (e :: l) -> plain_at (INext i) (pre ++ [e]) l.
Proof.
  intros (Hat & Hnp & _). pose proof (next_at i pre e l Hat) as Hat'. split; [done|]. split; [by rewrite <- Hnp; apply next_prefix|].
  intros ->. destruct Hat as (_ & _ & Hc & _), Hat' as (_ & _ & Hc' & _). destruct e as [k v]. by apply (next_end _ k v).
Qed.

Lemma plain_seek_ge i k :
  StronglySorted entry_lt (view i) ->
  exists pre, plain_at (SeekGE i k) pre (from_key k (view i)) /\ Forall (fun e => e.1 ≺ k) pre.
Proof.
  intros Hs. destruct (seek_ge_at i k Hs) as (pre & Hat & Hp). exists pre. split; [|done].
  split; [done|]. split; [apply seek_ge_prefix|]. intros E. destruct Hat as (_ & _ & Hc & _). rewrite E in Hc.
  by apply seek_ge_end.
Qed.

Lemma plain_prev i pre e' l : plain_at i (pre ++ [e']) l -> plain_at (IPrev i) pre (e' :: l).
Proof.
  intros (Hat & Hnp & Hend). destruct l as [|e l].
  - destruct Hat as (Hv & Hs & Hc & Hu). rewrite app_nil_r in Hv.
    assert (Hv' : view (IPrev i) = pre ++ [e']) by (unfold view, IPrev, with_it; cbn [pit]; by rewrite prev_view).
    split; [|split; [by rewrite <- Hnp; apply prev_prefix|done]].
    split; [done|]. split; [by rewrite Hv', <- Hv|]. split.
    + unfold cur, IPrev, with_it. cbn [pit]. rewrite prev_end by auto. fold (view i). by rewrite Hv, reverse_snoc.
    + unfold uniform, IPrev, with_it. cbn [pit]. by rewrite prev_prefix, Hnp.
  - split; [by apply prev_at|]. split; [by rewrite <- Hnp; apply prev_prefix|done].
Qed.

Lemma plain_prev_start i l : plain_at i [] l -> cur (IPrev i) = None.
Proof.
  intros (Hat & Hnp & Hend). destruct l as [|e l]; [|by eapply prev_at_start].
  destruct Hat as (Hv & _). unfold cur, IPrev, with_it. cbn [pit]. rewrite prev_end by auto.
  fold (view i). by rewrite Hv.
Qed.

Lemma plain_seek_lt i k :
  StronglySorted entry_lt (view i) ->
  (exists pre e, plain_at (SeekLT i k) pre (e :: from_key k (view i)) /\
     Forall (fun e => e.1 ≺ k) (pre ++ [e])) \/
  (cur (SeekLT i k) = None /\ from_key k (view i) = view i).
Proof.
  intros Hs. destruct (seek_lt_at i k Hs) as [(pre & e & Hat & Hp)|H]; [left|by right].
  exists pre, e. split; [|done]. split; [done|]. split; [apply seek_lt_prefix|done].
Qed.

Lemma from_key_at k A B :
  Forall (fun e : entry => e.1 ≺ k) A -> Forall (fun e : entry => k ≼ e.1) B -> from_key k (A ++ B) = B.
Proof.
  intros HA HB. induction HA as [|e A He HA IH]; cbn [app from_key].
  - apply from_key_all. intros e He. rewrite Forall_forall in HB. by apply HB.
  - apply bleb_gt in He. by rewrite He.
Qed.

(** A seek to a key that separates the view. *)
Lemma plain_seek_to i k A B :
  StronglySorted entry_lt (view i) -> view i = A ++ B ->
  Forall (fun e => e.1 ≺ k) A -> Forall (fun e => k ≼ e.1) B -> plain_at (SeekGE i k) A B.
Proof.
  intros Hs Hv HA HB. destruct (plain_seek_ge i k Hs) as (pre & Hat & _).
  rewrite Hv, from_key_at in Hat by done. destruct (plain_view _ _ _ Hat) as [Hv' _].
  rewrite view_SeekGE_eq, Hv in Hv'. apply app_inv_tail in Hv' as <-. done.
Qed.

Lemma plain_seek_lt_to i k A e B :
  StronglySorted entry_lt (view i) -> view i = A ++ e :: B ->
  Forall (fun e => e.1 ≺ k) (A ++ [e]) -> Forall (fun e => k ≼ e.1) B -> plain_at (SeekLT i k) A (e :: B).
Proof.
  intros Hs Hv HA HB. rewrite (app_assoc A [e] B : A ++ e :: B = _) in Hv.
  destruct (plain_seek_lt i k Hs) as [(pre & e' & Hat & _)|[_ Hall]].
  - rewrite Hv, from_key_at in Hat by done. destruct (plain_view _ _ _ Hat) as [Hv' _].
    rewrite view_SeekLT_eq, Hv, (app_assoc pre [e'] B : pre ++ e' :: B = _) in Hv'.
    apply app_inv_tail, app_inj_tail in Hv' as [<- <-]. done.
  - exfalso. rewrite Hv, from_key_at in Hall by done. apply (f_equal length) in Hall.
    rewrite !length_app in Hall. cbn in Hall. lia.
Qed.

Lemma plain_seek_lt_none i k :
  StronglySorted entry_lt (view i) -> Forall (fun e => k ≼ e.1) (view i) -> cur (SeekLT i k) = None.
Proof.
  intros Hs HB. destruct (plain_seek_lt i k Hs) as [(pre & e & Hat & HA)|[H _]]; [|done]. exfalso.
  destruct (plain_view _ _ _ Hat) as [Hv' _]. rewrite view_SeekLT_eq in Hv'.
  apply Forall_app in HA as [_ He]. rewrite Forall_singleton in He. rewrite Forall_forall in HB.
  apply (blt_irrefl k). eapply ble_lt_trans; [|exact He]. apply HB. rewrite Hv'. apply elem_of_app. right. apply list_elem_of_here.
Qed.

Lemma seek_prefix_none i k : it_prefix (pit (SeekGE i k)) = None.
Proof. apply seek_ge_prefix. Qed.
Lemma seek_lt_none i k : it_prefix (pit (SeekLT i k)) = None.
Proof. apply seek_lt_prefix. Qed.
Lemma INext_prefix i : it_prefix (pit (INext i)) = it_prefix (pit i).
Proof. apply next_prefix. Qed.
Lemma IPrev_prefix i : it_prefix (pit (IPrev i)) = it_prefix (pit i).
Proof. apply prev_prefix. Qed.
Lemma view_SeekGE i k : view (SeekGE i k) = view i.
Proof. apply seek_ge_view. Qed.
Lemma view_SeekLT i k : view (SeekLT i k) = view i.
Proof. apply seek_lt_view. Qed.
Lemma view_INext i : view (INext i) = view i.
Proof. apply next_view. Qed.
Lemma view_IPrev i : view (IPrev i) = view i.
Proof. apply prev_view. Qed.
Lemma view_SeekPrefixGE i k : view (SeekPrefixGE i k) = view i.
Proof. unfold SeekPrefixGE. destruct (prefix i); [apply seek_prefix_ge_view|apply seek_ge_view]. Qed.

Lemma bounded_sorted lo hi s : StronglySorted entry_lt (bounded lo hi (st_entries s)).
Proof. apply filter_sorted, entries_sorted. Qed.
End Positions.

(** ** An instance: finite maps *)

Definition entry_le (a b : entry) : Prop := a.1 ≼ b.1.
#[export] Instance entry_le_dec : RelDecision entry_le.
Proof. intros a b. unfold entry_le. apply _. Defined.
#[export] Instance entry_le_total : Total entry_le.
Proof.
  intros a b. unfold entry_le. destruct (blt_total a.1 b.1) as [H|[->|H]]; auto with datax.
Qed.
#[export] Instance entry_le_trans : Transitive entry_le.
Proof. intros a b c. apply ble_trans. Qed.

Record map_iter := mkMapIter {
  mi_source : list entry; mi_view : list entry;
  mi_cur : option entry; mi_prefix : option bytes; mi_end : bool }.

Definition is_none {A} (o : option A) : bool := match o with None => true | Some _ => false end.

Definition map_entries (m : gmap (list Z) (list Z)) : list entry := merge_sort entry_le (map_to_list m).

#[export] Instance map_pebble : Pebble := {|
  store := gmap (list Z) (list Z);
  st_get := fun m k => m !! k;
  st_set := fun m k v => <[k := v]> m;
  st_del := fun m k => delete k m;
  st_del_range := fun m lo hi => filter (fun e => in_bounds lo hi e = false) m;
  st_entries := map_entries;
  iter := map_iter;
  it_new := fun m lo hi => mkMapIter (map_entries m) (bounded lo hi (map_entries m)) None None false;
  it_set_bounds := fun i lo hi => mkMapIter (mi_source i) (bounded lo hi (mi_source i)) None None false;
  it_set_options := fun m i lo hi => mkMapIter (map_entries m) (bounded lo hi (map_entries m)) None None false;
  it_seek_ge := fun i k =>
    let c := first (fun e => bleb k e.1) (mi_view i) in mkMapIter (mi_source i) (mi_view i) c None (is_none c);
  it_seek_prefix_ge := fun i k =>
    mkMapIter (mi_source i) (mi_view i)
      (first (fun e => bleb k e.1 && prefix_match (Some (split_prefix k)) e) (mi_view i))
      (Some (split_prefix k)) false;
  it_seek_lt := fun i k =>
    mkMapIter (mi_source i) (mi_view i) (first (fun e => bltb e.1 k) (reverse (mi_view i))) None false;
  it_next := fun i =>
    match mi_cur i with
    | Some (k, _) =>
        let c := first (fun e => bltb k e.1 && prefix_match (mi_prefix i) e) (mi_view i) in
        mkMapIter (mi_source i) (mi_view i) c (mi_prefix i) (is_none c)
    | None => mkMapIter (mi_source i) (mi_view i) None (mi_prefix i) (mi_end i)
    end;
  it_prev := fun i =>
    mkMapIter (mi_source i) (mi_view i)
      (match mi_cur i with
       | Some (k, _) => first (fun e => bltb e.1 k) (reverse (mi_view i))
       | None => if mi_end i then head (reverse (mi_view i)) else None end) (mi_prefix i) false;
  it_cur := mi_cur;
  it_source := mi_source;
  it_view := mi_view;
  it_prefix := mi_prefix;
  it_end := fun i => is_none (mi_cur i) && mi_end i;
|}.

Lemma sorted_strict l :
  StronglySorted entry_le l -> NoDup l.*1 -> StronglySorted entry_lt l.
Proof.
  induction 1 as [|e l Hs IH Hf]; intros Hnd; [constructor|].
  rewrite fmap_cons in Hnd. apply NoDup_cons in Hnd as [Hni Hnd]. constructor; [by apply IH|].
  rewrite Forall_forall in *. intros a Ha. specialize (Hf a Ha). unfold entry_le in Hf.
  apply ble_lt_eq in Hf as [|E]; [done|]. destruct Hni. rewrite E. by apply list_elem_of_fmap_2.
Qed.

Lemma map_entries_sorted m : StronglySorted entry_lt (map_entries m).
Proof.
  unfold map_entries. apply sorted_strict; [apply (StronglySorted_merge_sort entry_le)|].
  rewrite (merge_sort_Permutation entry_le (map_to_list m)). apply NoDup_fst_map_to_list.
Qed.

#[export] Instance map_pebble_laws : PebbleLaws map_pebble.
Proof.
  split; try (intros; reflexivity).
  - apply map_entries_sorted.
  - intros m k v. cbn. unfold map_entries. rewrite merge_sort_Permutation. symmetry. apply elem_of_map_to_list.
  - intros m k v. cbn. apply lookup_insert_eq.
  - intros m k k' v H. cbn. by apply lookup_insert_ne.
  - intros m k. cbn. apply lookup_delete_eq.
  - intros m k k' H. cbn. by apply lookup_delete_ne.
  - intros m lo hi k H1 H2. cbn. apply map_lookup_filter_None. right. intros v _. unfold in_bounds. cbn [fst].
    apply bleb_le in H1. apply bltb_lt in H2. by rewrite H1, H2.
  - intros m lo hi k H. cbn. apply option_eq. intros v. rewrite map_lookup_filter_Some. split; [tauto|]. intros E.
    split; [done|]. apply not_true_iff_false. unfold in_bounds. cbn [fst]. by rewrite andb_true_iff, bleb_le, bltb_lt.
  - intros i. cbn. by destruct (mi_cur i) as [[]|].
  - intros i. cbn. by destruct (mi_cur i) as [[]|].
  - intros i. cbn. by destruct (mi_cur i) as [[]|].
  - intros i k v H. cbn in *. by rewrite H.
  - intros i k v H _. cbn in *. by rewrite H.
  - intros i k H. cbn in *. by rewrite H.
  - intros i k v H _ Hn. cbn in *. rewrite H in *. cbn in *. by rewrite Hn.
  - intros i H _. cbn in *. by destruct (mi_cur i), (mi_end i).
Qed.
