(* ===== verification/Enginepb.v ===== *)
(** * Transaction and intent metadata (pkg/storage/enginepb, and the
    metadata codec of pkg/storage/mvcc.go)

    The types shared by the storage engine and the transaction layer, their
    protobuf messages, and the two stored encodings of intent metadata.
    The byte-level JSON and protobuf marshallers are libraries: [MetaCodec]
    is what the code uses of them, with their documented round trips and
    the first bytes the code tells them apart by. *)

From S2P Require Import Prelude Hlc Keys.

Inductive TxnStatus := PENDING | COMMITTED | ABORTED | STAGING.

#[export] Instance TxnStatus_eq_dec : EqDecision TxnStatus.
Proof. solve_decision. Defined.

Record TxnMeta := mkTxnMeta {
  ID : uuid;
  Key : bytes;
  Epoch : Z;
  WriteTimestamp : Timestamp;
  MinTimestamp : Timestamp;
  Priority : Z;
  Sequence : Z;
  HistoryFloor : Z;
  BinaryMeta : bool }.

(** The field updates [m.Sequence = n] and [m.WriteTimestamp = t]. *)
Definition set_Sequence (m : TxnMeta) (n : Z) : TxnMeta :=
  mkTxnMeta (ID m) (Key m) (Epoch m) (WriteTimestamp m) (MinTimestamp m) (Priority m) n (HistoryFloor m) (BinaryMeta m).
Definition set_WriteTimestamp (m : TxnMeta) (t : Timestamp) : TxnMeta :=
  mkTxnMeta (ID m) (Key m) (Epoch m) t (MinTimestamp m) (Priority m) (Sequence m) (HistoryFloor m) (BinaryMeta m).

Record IntentValue := mkIntentValue {
  ivSequence : Z;
  ivValue : bytes;
  ivTombstone : bool }.

Record MVCCMetadata := mkMeta {
  mTxn : TxnMeta;
  mTimestamp : Timestamp;
  mHistory : list IntentValue }.

#[export] Instance TxnMeta_eq_dec : EqDecision TxnMeta.
Proof. solve_decision. Defined.
#[export] Instance IntentValue_eq_dec : EqDecision IntentValue.
Proof. solve_decision. Defined.
#[export] Instance MVCCMetadata_eq_dec : EqDecision MVCCMetadata.
Proof. solve_decision. Defined.

(** ** Protobuf messages (proto.go) *)

Record PbHlc := mkPbHlc { pbWallTime : Z; pbLogical : Z }.

(** Message fields that are pointers are options. *)
Record PbTxnMeta := mkPbTxnMeta {
  pbId : bytes;
  pbKey : bytes;
  pbEpoch : Z;
  pbWriteTimestamp : option PbHlc;
  pbMinTimestamp : option PbHlc;
  pbPriority : Z;
  pbSequence : Z;
  pbHistoryFloor : Z;
  pbBinaryMeta : bool }.

Record PbMVCCMetadata := mkPbMeta {
  pbTxn : option PbTxnMeta;
  pbTimestamp : option PbHlc;
  pbHistory : list (Z * bytes * bool) }.

Definition TimestampToProto (t : Timestamp) : option PbHlc :=
  if IsEmpty t then None else Some (mkPbHlc (WallTime t) (Logical t)).

Definition TimestampFromProto (p : option PbHlc) : Timestamp :=
  match p with None => ts0 | Some h => mkTs (pbWallTime h) (pbLogical h) end.

Definition UUIDToProto (id : uuid) : bytes := if beqb id uuid_Nil then [] else id.

(** [uuid.FromBytes] accepts 16 bytes only. *)
Definition UUIDFromProto (b : bytes) : option uuid :=
  if (length b =? 0)%nat then Some uuid_Nil
  else if (length b =? 16)%nat then Some b else None.

Definition TxnMetaToProto (m : TxnMeta) : PbTxnMeta :=
  mkPbTxnMeta (UUIDToProto (ID m)) (Key m) (Epoch m) (TimestampToProto (WriteTimestamp m))
    (TimestampToProto (MinTimestamp m)) (Priority m) (Sequence m) (HistoryFloor m) (BinaryMeta m).

(** The zero value of [TxnMeta]. *)
Definition txnMeta0 : TxnMeta := mkTxnMeta uuid_Nil [] 0 ts0 ts0 0 0 0 false.

Definition TxnMetaFromProto (p : option PbTxnMeta) : option TxnMeta :=
  match p with
  | None => Some txnMeta0
  | Some p =>
      match UUIDFromProto (pbId p) with
      | None => None
      | Some id =>
          Some (mkTxnMeta id (pbKey p) (pbEpoch p) (TimestampFromProto (pbWriteTimestamp p))
                  (TimestampFromProto (pbMinTimestamp p)) (pbPriority p) (pbSequence p)
                  (pbHistoryFloor p) (pbBinaryMeta p))
      end
  end.

Definition MetadataToProto (m : MVCCMetadata) : PbMVCCMetadata :=
  mkPbMeta (Some (TxnMetaToProto (mTxn m))) (TimestampToProto (mTimestamp m))
    (map (fun h => (ivSequence h, ivValue h, ivTombstone h)) (mHistory m)).

Definition MetadataFromProto (p : PbMVCCMetadata) : option MVCCMetadata :=
  match TxnMetaFromProto (pbTxn p) with
  | None => None
  | Some txn =>
      Some (mkMeta txn (TimestampFromProto (pbTimestamp p))
              (map (fun '(s, v, t) => mkIntentValue s v t) (pbHistory p)))
  end.

(** ** The stored encodings *)

Class MetaCodec := {
  json_marshal : MVCCMetadata -> bytes;
  json_unmarshal : bytes -> option MVCCMetadata;
  proto_marshal : PbMVCCMetadata -> bytes;
  proto_unmarshal : bytes -> option PbMVCCMetadata;
}.

Definition json_open : byte := 123. (* '{' *)

Class MetaCodecLaws (C : MetaCodec) : Prop := {
  json_roundtrip m : json_unmarshal (json_marshal m) = Some m;
  proto_roundtrip p : proto_unmarshal (proto_marshal p) = Some p;
  json_head m : exists r, json_marshal m = json_open :: r;
  (** The first field (a message, tag 0x0a) opens the encoding. *)
  proto_head p : pbTxn p <> None -> exists r, proto_marshal p = 10 :: r;
}.

Section Codec.
Context {C : MetaCodec}.

(** [None] is the "malformed MVCC metadata" error. *)
Definition decodeMeta (raw : bytes) : option MVCCMetadata :=
  match raw with
  | c :: _ =>
      if c =? json_open then json_unmarshal raw
      else match proto_unmarshal raw with
           | None => None
           | Some pb => MetadataFromProto pb
           end
  | [] => match proto_unmarshal raw with
          | None => None
          | Some pb => MetadataFromProto pb
          end
  end.

Definition encodeMeta (meta : MVCCMetadata) : bytes :=
  if BinaryMeta (mTxn meta) then proto_marshal (MetadataToProto meta)
  else json_marshal meta.
End Codec.

(** A [uuid.UUID] has sixteen bytes. *)
Definition meta_ok (m : MVCCMetadata) : Prop := length (ID (mTxn m)) = 16%nat.

Lemma TimestampProto_roundtrip t : TimestampFromProto (TimestampToProto t) = t.
Proof.
  unfold TimestampToProto. destruct (IsEmpty t) eqn:E; [by apply IsEmpty_eq in E|]. by destruct t.
Qed.

Lemma UUIDProto_roundtrip id : length id = 16%nat -> UUIDFromProto (UUIDToProto id) = Some id.
Proof.
  intros H. unfold UUIDToProto. destruct (beqb id uuid_Nil) eqn:E; [by apply beqb_eq in E as ->|].
  unfold UUIDFromProto. by rewrite H.
Qed.

Lemma MetadataProto_roundtrip m : meta_ok m -> MetadataFromProto (MetadataToProto m) = Some m.
Proof.
  intros H. unfold MetadataFromProto, MetadataToProto, TxnMetaFromProto, TxnMetaToProto. cbn.
  rewrite UUIDProto_roundtrip by done. rewrite !TimestampProto_roundtrip. destruct m as [[] ? hs]. cbn.
  do 3 f_equal. induction hs as [|[] hs IH]; simpl; [done|]. by rewrite IH.
Qed.

Section CodecFacts.
Context {C : MetaCodec} {CL : MetaCodecLaws C}.

Lemma decode_encode_meta m : meta_ok m -> decodeMeta (encodeMeta m) = Some m.
Proof.
  intros Hm. unfold encodeMeta. destruct (BinaryMeta (mTxn m)).
  - destruct (proto_head (MetadataToProto m)) as [r E]; [done|].
    pose proof (proto_roundtrip (MetadataToProto m)) as Hr. rewrite E in *. cbn [decodeMeta].
    rewrite Hr. by apply MetadataProto_roundtrip.
  - destruct (json_head m) as [r E]. pose proof (json_roundtrip m) as Hr. rewrite E in *.
    cbn [decodeMeta]. by rewrite Z.eqb_refl.
Qed.

Lemma encodeMeta_nonempty m : exists c r, encodeMeta m = c :: r.
Proof.
  unfold encodeMeta. destruct (BinaryMeta (mTxn m)).
  - destruct (proto_head (MetadataToProto m)) as [r E]; [done|]. eauto.
  - destruct (json_head m) as [r E]. eauto.
Qed.

(** Intent metadata written under either stored encoding (JSON, or
    protobuf for a transaction with [BinaryMeta]) is read back as it was
    written: the first byte tells the decoder which encoding it has. *)
Theorem metadata_roundtrip m :
  length (ID (mTxn m)) = 16%nat -> decodeMeta (encodeMeta m) = Some m.
Proof. apply decode_encode_meta. Qed.
End CodecFacts.

(** ** An instance of the codec, used by the witnesses *)

(** Values as self-delimiting token lists. *)
Class Tokens (A : Type) := {
  to_tok : A -> list Z;
  of_tok : list Z -> option (A * list Z);
  of_to_tok a r : of_tok (to_tok a ++ r) = Some (a, r);
}.

#[export] Program Instance Z_tokens : Tokens Z :=
  {| to_tok z := [z]; of_tok l := match l with z :: r => Some (z, r) | [] => None end |}.
Next Obligation. done. Qed.

#[export] Program Instance bool_tokens : Tokens bool :=
  {| to_tok b := [if b then 1 else 0];
     of_tok l := match l with z :: r => Some (z =? 1, r) | [] => None end |}.
Next Obligation. by intros []. Qed.

#[export] Program Instance pair_tokens {A B} `{Tokens A, Tokens B} : Tokens (A * B) :=
  {| to_tok p := to_tok p.1 ++ to_tok p.2;
     of_tok l := match of_tok l with
                 | Some (a, r) => match of_tok r with Some (b, r) => Some ((a, b), r) | None => None end
                 | None => None
                 end |}.
Next Obligation. intros A B HA HB [a b] r. cbn. rewrite <- app_assoc. by rewrite !of_to_tok. Qed.

#[export] Program Instance option_tokens {A} `{Tokens A} : Tokens (option A) :=
  {| to_tok o := match o with None => [0] | Some a => 1 :: to_tok a end;
     of_tok l := match l with
                 | [] => None
                 | z :: r => if z =? 0 then Some (None, r)
                             else match of_tok r with Some (a, r) => Some (Some a, r) | None => None end
                 end |}.
Next Obligation. intros A HA [a|] r; [|done]. cbn. by rewrite of_to_tok. Qed.

Fixpoint of_toks {A} `{Tokens A} (n : nat) (l : list Z) : option (list A * list Z) :=
  match n with
  | O => Some ([], l)
  | S n => match of_tok l with
           | Some (a, r) => match of_toks n r with Some (q, r) => Some (a :: q, r) | None => None end
           | None => None
           end
  end.

#[export] Program Instance list_tokens {A} `{Tokens A} : Tokens (list A) :=
  {| to_tok q := Z.of_nat (length q) :: concat (map to_tok q);
     of_tok l := match l with [] => None | n :: r => of_toks (Z.to_nat n) r end |}.
Next Obligation.
  intros A HA q r. cbn. rewrite Nat2Z.id. induction q as [|a q IH]; cbn; [done|].
  by rewrite <- app_assoc, of_to_tok, IH.
Qed.

(** A record through the tuple of its fields. *)
Definition via {A T} `{Tokens T} (f : A -> T) (g : T -> A) (Hgf : forall a, g (f a) = a) : Tokens A.
Proof.
  refine {| to_tok a := to_tok (f a);
            of_tok l := match of_tok l with Some (t, r) => Some (g t, r) | None => None end |}.
  intros a r. by rewrite of_to_tok, Hgf.
Defined.

#[export] Instance Timestamp_tokens : Tokens Timestamp.
Proof. refine (via (fun t => (WallTime t, Logical t)) (fun '(a, b) => mkTs a b) _). by intros []. Defined.
#[export] Instance TxnMeta_tokens : Tokens TxnMeta.
Proof.
  refine (via
    (fun m => (ID m, Key m, Epoch m, WriteTimestamp m, MinTimestamp m, Priority m, Sequence m, HistoryFloor m, BinaryMeta m))
    (fun '(a, b, c, d, e, f, g, h, i) => mkTxnMeta a b c d e f g h i) _). by intros [].
Defined.
#[export] Instance IntentValue_tokens : Tokens IntentValue.
Proof. refine (via (fun v => (ivSequence v, ivValue v, ivTombstone v)) (fun '(a, b, c) => mkIntentValue a b c) _). by intros []. Defined.
#[export] Instance MVCCMetadata_tokens : Tokens MVCCMetadata.
Proof. refine (via (fun m => (mTxn m, mTimestamp m, mHistory m)) (fun '(a, b, c) => mkMeta a b c) _). by intros []. Defined.
#[export] Instance PbHlc_tokens : Tokens PbHlc.
Proof. refine (via (fun h => (pbWallTime h, pbLogical h)) (fun '(a, b) => mkPbHlc a b) _). by intros []. Defined.
#[export] Instance PbTxnMeta_tokens : Tokens PbTxnMeta.
Proof.
  refine (via
    (fun m => (pbId m, pbKey m, pbEpoch m, pbWriteTimestamp m, pbMinTimestamp m, pbPriority m, pbSequence m, pbHistoryFloor m, pbBinaryMeta m))
    (fun '(a, b, c, d, e, f, g, h, i) => mkPbTxnMeta a b c d e f g h i) _). by intros [].
Defined.
#[export] Instance PbMeta_tokens : Tokens PbMVCCMetadata.
Proof. refine (via (fun m => (pbTxn m, pbTimestamp m, pbHistory m)) (fun '(a, b, c) => mkPbMeta a b c) _). by intros []. Defined.

Definition code_with {A} `{Tokens A} (tag : Z) (a : A) : bytes := tag :: to_tok a.
Definition uncode {A} `{Tokens A} (b : bytes) : option A :=
  match b with _ :: r => match of_tok r with Some (a, _) => Some a | None => None end | [] => None end.

#[export] Instance token_codec : MetaCodec := {|
  json_marshal := code_with json_open;
  json_unmarshal := uncode;
  proto_marshal := code_with 10;
  proto_unmarshal := uncode;
|}.

Lemma uncode_code {A} `{Tokens A} tag (a : A) : uncode (code_with tag a) = Some a.
Proof. unfold uncode, code_with. by rewrite <- (app_nil_r (to_tok a)), of_to_tok. Qed.

#[export] Instance token_codec_laws : MetaCodecLaws token_codec.
Proof.
  split.
  - intros m. apply uncode_code.
  - intros p. apply uncode_code.
  - intros m. by exists (to_tok m).
  - intros p _. by exists (to_tok p).
Qed.

(** A transaction of the witnesses. *)
Definition ex_txn (n : Z) (ts : Timestamp) (binary : bool) : TxnMeta :=
  mkTxnMeta (repeat n 16) [4; 7] 0 ts ts 1 2 0 binary.

Lemma metadata_roundtrip_witness :
  decodeMeta (encodeMeta (mkMeta (ex_txn 9 (mkTs 5 1) true) (mkTs 5 1) [mkIntentValue 1 [8] false])) =
    Some (mkMeta (ex_txn 9 (mkTs 5 1) true) (mkTs 5 1) [mkIntentValue 1 [8] false]).
Proof.
  apply (metadata_roundtrip (mkMeta (ex_txn 9 (mkTs 5 1) true) (mkTs 5 1) [mkIntentValue 1 [8] false])). reflexivity.
Defined.
