(* ===== verification/Mvcc.v ===== *)
(** * MVCC point operations (pkg/storage/mvcc.go, errors.go; Batch.writeState
    of engine.go)

    Reads and writes of one user key: [MVCCGet] through an iterator bounded
    to the key's engine keys, the write path with its conflict rules, intent
    resolution, savepoint rollback and locking reads.  Everything runs on
    the [Pebble] interface; a batch is the store its writes have produced so
    far.  I/O errors of the engine are not modelled. *)

From S2P Require Import Prelude Encoding Hlc Keys MvccKey Pebble Enginepb.

(** ** Errors *)

Record Intent := mkIntent { inKey : bytes; inTxn : TxnMeta }.

Inductive mvcc_err :=
| WriteIntentError (intents : list Intent)
| WriteTooOldError (ts actual : Timestamp)
| UncertaintyError (readTS existing : Timestamp)
| KeyError (e : key_err)                       (* malformed MVCC key *)
| ValueError (e : value_err)                   (* malformed MVCC value *)
| MetaError                                    (* malformed MVCC metadata *)
| NoProvisional (key : bytes) (ts : Timestamp) (* intent has no provisional value *)
| PendingStatus                                (* cannot resolve with PENDING *)
| LockNeedsTxn                                 (* MVCCLock requires a transaction *)
| RefreshFailed (key : bytes) (ts from to : Timestamp)
| OutOfFuel.                                   (* never returned: see the totality theorems *)

Definition lift_key {A} (m : result key_err A) : result mvcc_err A := rmap_err KeyError m.
Definition lift_value {A} (m : result value_err A) : result mvcc_err A := rmap_err ValueError m.
Definition lift_meta {A} (m : option A) : result mvcc_err A :=
  match m with Some a => Ok a | None => Err MetaError end.

(** ** Reads *)

Record MVCCGetOptions := mkOpts {
  optTxn : option TxnMeta;
  UncertaintyLimit : Timestamp;
  TargetBytes : Z;
  Inconsistent : bool }.

Definition intentAboveRead (intentTS ts uncertaintyLimit : Timestamp) : bool :=
  let limit := if Less ts uncertaintyLimit then uncertaintyLimit else ts in
  Less limit intentTS.

(** What the metadata of an intent means for a read: the exact version to
    read ([ReadAt], its own write), the version to skip ([SkipAt]), or a
    conflict.  The [switch] shared by [mvccGet] and [mvccScanKey]. *)
Inductive intent_case := ReadAt (t : Timestamp) | SkipAt (t : Timestamp) | Blocked.

Definition own_txn (txn : option TxnMeta) (id : uuid) : bool :=
  match txn with Some t => beqb id (ID t) | None => false end.

Definition intent_switch (meta : MVCCMetadata) (ts : Timestamp) (opts : MVCCGetOptions) : intent_case :=
  if own_txn (optTxn opts) (ID (mTxn meta)) then
    if bool_decide (Some (Epoch (mTxn meta)) = (Epoch <$> optTxn opts))
    then ReadAt (mTimestamp meta) else SkipAt (mTimestamp meta)
  else if Inconsistent opts then SkipAt (mTimestamp meta)
  else if intentAboveRead (mTimestamp meta) ts (UncertaintyLimit opts) then SkipAt (mTimestamp meta)
  else Blocked.

(** [decodeMVCCValue], then nil for a tombstone and a copy otherwise. *)
Definition read_value (raw : bytes) : result mvcc_err (option bytes) :=
  let* (data, tombstone) := lift_value (decodeMVCCValue raw) in
  if (tombstone : bool) then Ok None else Ok (append_nil data).

Section Reads.
Context {P : Pebble} {C : MetaCodec}.

(** The uncertainty walk: from the first version at or below the limit,
    past the skipped one, to a version that decides. *)
Fixpoint uncertain_loop (fuel : nat) (it : pebbleIter) (ts skipAt : Timestamp) : result mvcc_err unit :=
  match fuel with
  | O => Err OutOfFuel
  | S fuel =>
      match cur it with
      | None => Ok tt
      | Some (k, _) =>
          let* (_, vts) := lift_key (DecodeMVCCKey k) in
          if negb (IsEmpty skipAt) && Equal vts skipAt then uncertain_loop fuel (INext it) ts skipAt
          else if Less ts vts then Err (UncertaintyError ts vts)
          else Ok tt
      end
  end.

(** The normal read: the first version from the iterator on that is not
    the skipped one. *)
Fixpoint read_loop (fuel : nat) (it : pebbleIter) (skipAt : Timestamp) : result mvcc_err (option bytes) :=
  match fuel with
  | O => Err OutOfFuel
  | S fuel =>
      match cur it with
      | None => Ok None
      | Some (k, v) =>
          let* (_, vts) := lift_key (DecodeMVCCKey k) in
          if negb (IsEmpty skipAt) && Equal vts skipAt then read_loop fuel (INext it) skipAt
          else read_value v
      end
  end.

(** [mvccGet] after the intent has been examined: [readAt] set for the
    transaction's own write, [skipAt] for a version to look beneath. *)
Definition mvccGet_versions (it : pebbleIter) (mk key : bytes) (ts : Timestamp)
    (opts : MVCCGetOptions) (readAt skipAt : Timestamp) : result mvcc_err (option bytes) :=
  let fuel := S (length (it_view (pit it))) in
  if negb (IsEmpty readAt) then
    match cur (SeekPrefixGE it (appendVersionSuffix mk readAt)) with
    | None => Err (NoProvisional key readAt)
    | Some (k, v) =>
        let* (_, vts) := lift_key (DecodeMVCCKey k) in
        if negb (Equal vts readAt) then Err (NoProvisional key readAt)
        else read_value v
    end
  else
    let* _ :=
      (if negb (IsEmpty (UncertaintyLimit opts)) && Less ts (UncertaintyLimit opts)
       then uncertain_loop fuel (SeekPrefixGE it (appendVersionSuffix mk (UncertaintyLimit opts))) ts skipAt
       else Ok tt) in
    read_loop fuel (SeekPrefixGE it (appendVersionSuffix mk ts)) skipAt.

Definition mvccGet (it : pebbleIter) (mk key : bytes) (ts : Timestamp) (opts : MVCCGetOptions)
    : result mvcc_err (option bytes) :=
  let it := SeekPrefixGE it mk in
  match cur it with
  | Some (k, v) =>
      if beqb k mk then
        (* the intent's metadata *)
        let* meta := lift_meta (decodeMeta v) in
        match intent_switch meta ts opts with
        | ReadAt t => mvccGet_versions it mk key ts opts t ts0
        | SkipAt t => mvccGet_versions it mk key ts opts ts0 t
        | Blocked => Err (WriteIntentError [mkIntent key (mTxn meta)])
        end
      else
        (* no intent: on the newest version; at or below ts it is the answer *)
        let* (_, vts) := lift_key (DecodeMVCCKey k) in
        if LessEq vts ts then read_value v
        else mvccGet_versions it mk key ts opts ts0 ts0
  | None => mvccGet_versions it mk key ts opts ts0 ts0
  end.

Definition MVCCGet (prefixBloom : bool) (s : store) (key : bytes) (ts : Timestamp) (opts : MVCCGetOptions)
    : result mvcc_err (option bytes) :=
  let '(mk, upper) := mvccKeyBounds key in
  mvccGet (NewIter prefixBloom s mk upper) mk key ts opts.

(** [Getter]: point reads through one iterator, re-bounded to each key.
    [s] is the reader's content at the time of the call.  The iterator is
    kept as it was rebounded: the next [SetBounds] unpositions it. *)
Record Getter := mkGetter { g_prefixBloom : bool; g_batch : bool; g_it : option pebbleIter }.

Definition NewGetter (prefixBloom batch : bool) : Getter := mkGetter prefixBloom batch None.

Definition Getter_Get (g : Getter) (s : store) (key : bytes) (ts : Timestamp) (opts : MVCCGetOptions)
    : Getter * result mvcc_err (option bytes) :=
  let '(mk, upper) := mvccKeyBounds key in
  let it := match g_it g with
            | None => if g_batch g then Batch_NewIter (g_prefixBloom g) s mk upper
                      else NewIter (g_prefixBloom g) s mk upper
            | Some it => SetBounds s it mk upper
            end in
  (mkGetter (g_prefixBloom g) (g_batch g) (Some it), mvccGet it mk key ts opts).
End Reads.
