(* ===== verification/MvccView.v ===== *)
(** * The engine keys of a user key as an intent and a list of versions

    [store_wf] says what the MVCC layer keeps in the engine; under it the
    engine keys of a user key are its metadata entry, if any, followed by
    its versions newest first ([key_view]), and a seek to a version key is a
    search in that list.  These lemmas turn the iterator code of the MVCC
    layer into list programs. *)

From S2P Require Import Prelude Encoding Hlc Keys MvccKey Pebble Enginepb Mvcc.

Abbreviation version := (Timestamp * list Z)%type (only parsing).

(** The version key of [k] at [t] (the metadata key plus the suffix). *)
Definition vkey (k : bytes) (t : Timestamp) : bytes := metaKey k ++ suffix_of t.
Definition ventry (k : bytes) (v : version) : entry := (vkey k v.1, v.2).

Definition ts_valid (t : Timestamp) : Prop := ts_ok t /\ t <> ts0.

(** A stored value: a header byte and the data. *)
Definition value_ok (raw : bytes) : Prop := exists data tomb, decodeMVCCValue raw = Ok (data, tomb).

Lemma encode_value_ok v tomb : value_ok (encodeMVCCValue v tomb).
Proof. destruct tomb; unfold value_ok; eauto. Qed.

Lemma EncodeMVCCKey_vkey k t : t <> ts0 -> EncodeMVCCKey k t = vkey k t.
Proof. apply EncodeMVCCKey_version. Qed.

Lemma appendVersionSuffix_vkey k t : appendVersionSuffix (metaKey k) t = vkey k t.
Proof. apply appendVersionSuffix_eq. Qed.

Lemma Decode_vkey k t : ts_ok t -> DecodeMVCCKey (vkey k t) = Ok (k, t).
Proof.
  intros H. unfold vkey. rewrite DecodeMVCCKey_version by apply length_suffix_of. by rewrite suffix_ts_of.
Qed.

Lemma vkey_inj k k' t u : ts_ok t -> ts_ok u -> vkey k t = vkey k' u -> k = k' /\ t = u.
Proof.
  intros Ht Hu H. pose proof (Decode_vkey k t Ht) as E. rewrite H, Decode_vkey in E by done. by injection E.
Qed.

Lemma vkey_not_meta k k' t : vkey k t <> metaKey k'.
Proof.
  intros H. rewrite <- (app_nil_r (metaKey k')) in H. apply metaKey_inj_app in H as [_ H].
  apply (f_equal length) in H. by rewrite length_suffix_of in H.
Qed.

Lemma metaKey_inj k k' : metaKey k = metaKey k' -> k = k'.
Proof. rewrite <- (app_nil_r (metaKey k)), <- (app_nil_r (metaKey k')). intros H. by apply metaKey_inj_app in H as [-> _]. Qed.

Lemma bleb_vkey k t u : ts_ok t -> ts_ok u -> bleb (vkey k t) (vkey k u) = LessEq u t.
Proof.
  intros Ht Hu. unfold bleb, vkey. rewrite bcompare_app, suffix_compare by done. unfold LessEq.
  destruct (Less u t) eqn:E1; [|destruct (Equal t u) eqn:E2]; tsb.
  - symmetry. apply negb_true_iff, Less_ge. by apply ts_lt_le.
  - subst. symmetry. apply negb_true_iff, Less_ge, ts_le_refl.
  - symmetry. apply negb_false_iff, Less_lt. ts_lia.
Qed.

Lemma meta_lt_vkey k t : metaKey k ≺ vkey k t.
Proof. unfold vkey, suffix_of. cbn [be app]. apply blt_app_cons. Qed.

Section View.
Context {P : Pebble} {PL : PebbleLaws P} {C : MetaCodec}.

(** What the engine holds: local (non-MVCC) keys, metadata keys whose
    value decodes to metadata with a valid timestamp, and version keys of
    valid timestamps whose value decodes. *)
Record store_wf (s : store) : Prop := {
  wf_keys x v : st_get s x = Some v -> IsLocal x = false ->
    exists k, bytes_ok k /\ (x = metaKey k \/ exists t, ts_valid t /\ x = vkey k t);
  wf_meta k raw : IsLocal k = false -> st_get s (metaKey k) = Some raw ->
    raw <> [] /\ exists meta, decodeMeta raw = Some meta /\ ts_valid (mTimestamp meta);
  wf_value k t raw : IsLocal k = false -> ts_valid t -> st_get s (vkey k t) = Some raw -> value_ok raw;
}.

(** The entries of [k]: its metadata entry and its versions, newest first. *)
Definition key_view (k : bytes) (mo : option bytes) (vs : list version) : list entry :=
  match mo with Some raw => [(metaKey k, raw)] | None => [] end ++ map (ventry k) vs.

Definition versions_sorted (vs : list version) : Prop :=
  StronglySorted (fun a b => b.1 <t a.1) vs /\ Forall (fun v => ts_valid v.1) vs.

Lemma key_view_exists k l :
  StronglySorted entry_lt l ->
  Forall (fun e => e.1 = metaKey k \/ exists t, ts_valid t /\ e.1 = vkey k t) l ->
  exists mo vs, l = key_view k mo vs /\ versions_sorted vs.
Proof.
  induction l as [|[x raw] l IH]; intros Hs Hf.
  { exists None, []. split; [done|]. split; constructor. }
  inversion Hs as [|? ? Hs' Hlt]; subst. inversion Hf as [|? ? Hx Hf']; subst. cbn [fst] in Hx.
  destruct (IH Hs' Hf') as (mo & vs & -> & Hvs). rewrite Forall_forall in Hlt.
  assert (mo = None) as ->.
  { destruct mo as [raw'|]; [|done]. exfalso.
    assert (Hm : entry_lt (x, raw) (metaKey k, raw')) by (apply Hlt; unfold key_view; cbn; apply list_elem_of_here).
    unfold entry_lt in Hm. cbn [fst] in Hm. destruct Hx as [->|(t & _ & ->)]; [by apply blt_irrefl in Hm|].
    apply (blt_irrefl (metaKey k)). eapply blt_trans; [apply meta_lt_vkey|exact Hm]. }
  destruct Hx as [->|(t & Ht & ->)]; [exists (Some raw), vs; done|].
  exists None, ((t, raw) :: vs). split; [done|]. destruct Hvs as [Hvs Hok]. split; [|by constructor].
  constructor; [done|]. apply Forall_forall. intros [u raw'] Hu.
  assert (Hm : entry_lt (vkey k t, raw) (vkey k u, raw')).
  { apply Hlt. unfold key_view. cbn. apply (list_elem_of_fmap_2 (ventry k) vs (u, raw')). done. }
  rewrite Forall_forall in Hok. specialize (Hok _ Hu). unfold entry_lt in Hm. cbn [fst] in *.
  apply LessEq_gt. rewrite <- (bleb_vkey k u t) by (apply Hok || apply Ht). by apply bleb_gt.
Qed.

Lemma elem_of_bounded lo hi l e :
  e ∈ bounded lo hi l <-> e ∈ l /\ lo ≼ e.1 /\ e.1 ≺ hi.
Proof.
  unfold bounded. rewrite list_elem_of_In, List.filter_In, <- list_elem_of_In.
  unfold in_bounds. rewrite andb_true_iff, bleb_le, bltb_lt. naive_solver.
Qed.

Definition upper_of (k : bytes) : bytes := (mvccKeyBounds k).2.

Lemma mvccKeyBounds_pair k : mvccKeyBounds k = (metaKey k, upper_of k).
Proof. done. Qed.

Lemma elem_of_key_bounds k s e :
  e ∈ bounded (metaKey k) (upper_of k) (st_entries s) <->
  st_get s e.1 = Some e.2 /\ exists r, e.1 = metaKey k ++ r.
Proof.
  rewrite elem_of_bounded, <- (mvccKeyBounds_exact k), mvccKeyBounds_pair. unfold in_span. cbn [fst snd].
  destruct e as [x v]. rewrite get_entries. done.
Qed.

(** The view of a key in a well-formed store. *)
Lemma store_view s k :
  store_wf s -> IsLocal k = false ->
  exists mo vs,
    bounded (metaKey k) (upper_of k) (st_entries s) = key_view k mo vs /\ versions_sorted vs.
Proof.
  intros Hwf Hl. apply key_view_exists; [apply bounded_sorted|].
  apply Forall_forall. intros [x v] He. apply elem_of_key_bounds in He as [Hg [r Hr]]. cbn [fst snd] in *.
  destruct (wf_keys s Hwf x v Hg) as (k' & _ & Hx); [rewrite Hr; by rewrite metaKey_local|].
  destruct Hx as [->|(t & Ht & ->)].
  - left. rewrite <- (app_nil_r (metaKey k')) in Hr. by apply metaKey_inj_app in Hr as [-> _].
  - right. unfold vkey in Hr. apply metaKey_inj_app in Hr as [-> _]. eauto.
Qed.

(** The view is the lookups. *)
Lemma view_meta s k mo vs :
  bounded (metaKey k) (upper_of k) (st_entries s) = key_view k mo vs -> st_get s (metaKey k) = mo.
Proof.
  intros Hv.
  assert (Hin : forall raw, st_get s (metaKey k) = Some raw <-> mo = Some raw).
  { intros raw. transitivity ((metaKey k, raw) ∈ key_view k mo vs).
    - rewrite <- Hv, elem_of_key_bounds. cbn [fst snd]. split; [intros H; split; [done|]; exists []; by rewrite app_nil_r|naive_solver].
    - unfold key_view. rewrite elem_of_app. split.
      + intros [H|H].
        * destruct mo; [|by apply not_elem_of_nil in H]. apply list_elem_of_singleton in H. by injection H as ->.
        * apply list_elem_of_In, in_map_iff in H as (v & Hv' & _). injection Hv' as Hv' _.
          by apply vkey_not_meta in Hv'.
      + intros ->. left. apply list_elem_of_here. }
  destruct (st_get s (metaKey k)) as [raw|]; destruct mo as [raw'|]; try done.
  - symmetry. by apply Hin.
  - symmetry. by apply Hin.
  - by apply Hin.
Qed.

Lemma view_version s k mo vs t raw :
  bounded (metaKey k) (upper_of k) (st_entries s) = key_view k mo vs -> versions_sorted vs -> ts_valid t ->
  st_get s (vkey k t) = Some raw <-> (t, raw) ∈ vs.
Proof.
  intros Hv [_ Hok] Ht. transitivity ((vkey k t, raw) ∈ key_view k mo vs).
  - rewrite <- Hv, elem_of_key_bounds. cbn [fst snd]. split; [intros H; split; [done|]; by eexists|naive_solver].
  - unfold key_view. rewrite elem_of_app. split.
    + intros [H|H].
      * destruct mo; [|by apply not_elem_of_nil in H]. apply list_elem_of_singleton in H. injection H as H _.
        by apply vkey_not_meta in H.
      * apply list_elem_of_In, in_map_iff in H as ([u raw'] & Hv' & Hin). apply list_elem_of_In in Hin.
        unfold ventry in Hv'. cbn [fst snd] in Hv'. injection Hv' as Hk ->.
        rewrite Forall_forall in Hok. specialize (Hok _ Hin). cbn in Hok.
        apply vkey_inj in Hk as [_ ->]; [done|apply Hok|apply Ht].
    + intros H. right. by apply (list_elem_of_fmap_2 (ventry k) vs (t, raw)).
Qed.

(** ** Searching the version list *)

Definition skipped (skipAt t : Timestamp) : bool := negb (IsEmpty skipAt) && Equal t skipAt.

(** The versions at or below [t]. *)
Fixpoint from_ts (t : Timestamp) (vs : list version) : list version :=
  match vs with
  | [] => []
  | v :: vs' => if LessEq v.1 t then vs else from_ts t vs'
  end.

(** The newest version at or below [t] that is not the skipped one. *)
Definition newest (vs : list version) (t skipAt : Timestamp) : option version :=
  first (fun v => LessEq v.1 t && negb (skipped skipAt v.1)) vs.

Lemma from_key_versions k t vs :
  ts_ok t -> Forall (fun v => ts_valid v.1) vs ->
  from_key (vkey k t) (map (ventry k) vs) = map (ventry k) (from_ts t vs).
Proof.
  intros Ht. induction 1 as [|v vs Hv Hvs IH]; [done|]. cbn [map from_key from_ts ventry fst].
  rewrite bleb_vkey by (done || apply Hv). by destruct (LessEq v.1 t).
Qed.

Lemma from_key_view k mo vs t :
  ts_ok t -> Forall (fun v => ts_valid v.1) vs ->
  from_key (vkey k t) (key_view k mo vs) = map (ventry k) (from_ts t vs).
Proof.
  intros Ht Hvs. unfold key_view. destruct mo as [raw|]; cbn [app]; [|by apply from_key_versions].
  cbn [from_key fst]. assert (bleb (vkey k t) (metaKey k) = false) as -> by (apply bleb_gt, meta_lt_vkey).
  by apply from_key_versions.
Qed.

Lemma from_ts_suffix t vs : exists pre, vs = pre ++ from_ts t vs /\ Forall (fun v => t <t v.1) pre.
Proof.
  induction vs as [|v vs IH]; [by exists []|]. cbn [from_ts]. destruct (LessEq v.1 t) eqn:E; [by exists []|].
  destruct IH as (pre & Hp & Hf). exists (v :: pre). split; [by rewrite Hp at 1|]. constructor; [by tsb|done].
Qed.

Lemma from_ts_le t vs :
  StronglySorted (fun a b : version => b.1 <t a.1) vs -> Forall (fun v => v.1 <=t t) (from_ts t vs).
Proof.
  induction 1 as [|v vs Hs IH Hf]; [constructor|]. cbn [from_ts].
  destruct (LessEq v.1 t) eqn:E; [|done]. tsb. constructor; [done|].
  eapply Forall_impl; [exact Hf|]. intros u Hu. cbn in Hu. ts_lia.
Qed.

Lemma newest_from_ts vs t skipAt :
  StronglySorted (fun a b : version => b.1 <t a.1) vs ->
  newest vs t skipAt = first (fun v => negb (skipped skipAt v.1)) (from_ts t vs).
Proof.
  intros Hs. unfold newest. destruct (from_ts_suffix t vs) as (pre & Hp & Hf).
  rewrite Hp at 1. rewrite first_app.
  assert (first (fun v : version => LessEq v.1 t && negb (skipped skipAt v.1)) pre = None) as ->.
  { apply first_none. eapply Forall_impl; [exact Hf|]. intros v Hv. cbn in *. apply andb_false_intro1. by apply LessEq_gt. }
  apply first_ext. eapply Forall_impl; [by apply from_ts_le|]. intros v Hv. cbn in *.
  apply LessEq_le in Hv. by rewrite Hv.
Qed.

(** ** Updating a store *)

(** The engine keys of [k] are the intent entry [mo] and the versions [vs]. *)
Definition is_view (s : store) (k : bytes) (mo : option bytes) (vs : list version) : Prop :=
  bounded (metaKey k) (upper_of k) (st_entries s) = key_view k mo vs /\ versions_sorted vs.

Lemma vkey_local k t : IsLocal (vkey k t) = IsLocal k.
Proof. apply metaKey_local. Qed.

Lemma wf_empty s : (forall x, st_get s x = None) -> store_wf s.
Proof. intros H. split; [intros x v Hx|intros k raw _ Hx|intros k t raw _ _ Hx]; by rewrite H in Hx. Qed.

Lemma wf_set_version s k t v :
  store_wf s -> bytes_ok k -> ts_valid t -> value_ok v -> store_wf (st_set s (vkey k t) v).
Proof.
  intros Hwf Hk Ht Hv. split.
  - intros x w Hx Hl. destruct (decide (vkey k t = x)) as [<-|Hne].
    { exists k. split; [done|right; by exists t]. }
    rewrite get_set_ne in Hx by done. by eapply wf_keys.
  - intros k' raw Hl Hx. rewrite get_set_ne in Hx by apply vkey_not_meta. by eapply wf_meta.
  - intros k' u raw Hl Hu Hx. destruct (decide (vkey k t = vkey k' u)) as [E|Hne].
    + rewrite E, get_set_eq in Hx. by injection Hx as <-.
    + rewrite get_set_ne in Hx by done. by eapply wf_value.
Qed.

Lemma wf_set_meta s k raw meta :
  store_wf s -> bytes_ok k -> raw <> [] -> decodeMeta raw = Some meta -> ts_valid (mTimestamp meta) ->
  store_wf (st_set s (metaKey k) raw).
Proof.
  intros Hwf Hk Hne0 Hd Ht. split.
  - intros x w Hx Hl. destruct (decide (metaKey k = x)) as [<-|Hne].
    { exists k. split; [done|by left]. }
    rewrite get_set_ne in Hx by done. by eapply wf_keys.
  - intros k' raw' Hl Hx. destruct (decide (metaKey k = metaKey k')) as [E|Hne].
    + rewrite E, get_set_eq in Hx. injection Hx as <-. eauto.
    + rewrite get_set_ne in Hx by done. by eapply wf_meta.
  - intros k' u raw' Hl Hu Hx. rewrite get_set_ne in Hx by (intros E; symmetry in E; by apply vkey_not_meta in E).
    by eapply wf_value.
Qed.

Lemma wf_del s x : store_wf s -> store_wf (st_del s x).
Proof.
  intros Hwf.
  assert (Hsub : forall y w, st_get (st_del s x) y = Some w -> st_get s y = Some w).
  { intros y w Hy. destruct (decide (x = y)) as [<-|Hne]; [by rewrite get_del_eq in Hy|by rewrite get_del_ne in Hy]. }
  split; [intros y w Hy Hl; eapply wf_keys|intros k raw Hl Hy; eapply wf_meta|intros k t raw Hl Ht Hy; eapply wf_value]; eauto.
Qed.

Lemma wf_set_local s x v : store_wf s -> IsLocal x = true -> store_wf (st_set s x v).
Proof.
  intros Hwf Hx.
  assert (Hmk : forall k r, IsLocal k = false -> x <> metaKey k ++ r).
  { intros k r Hl ->. rewrite metaKey_local in Hx. congruence. }
  split.
  - intros y w Hy Hl. rewrite get_set_ne in Hy by (intros ->; congruence). by eapply wf_keys.
  - intros k raw Hl Hy. rewrite get_set_ne in Hy; [by eapply wf_meta|]. rewrite <- (app_nil_r (metaKey k)). by apply Hmk.
  - intros k t raw Hl Ht Hy. rewrite get_set_ne in Hy; [by eapply wf_value|]. by apply Hmk.
Qed.

(** A sorted version list is determined by its members. *)
Lemma versions_ext (vs ws : list version) :
  versions_sorted vs -> versions_sorted ws -> (forall v, v ∈ vs <-> v ∈ ws) -> vs = ws.
Proof.
  intros [Hs _] [Ht _]. revert ws Ht. induction Hs as [|v vs Hs IH Hv]; intros ws Ht Hin.
  - destruct ws as [|w ws]; [done|]. exfalso. apply (not_elem_of_nil w), Hin, list_elem_of_here.
  - destruct Ht as [|w ws Ht Hw]; [exfalso; apply (not_elem_of_nil v), Hin, list_elem_of_here|].
    rewrite Forall_forall in Hv, Hw.
    assert (v = w) as ->.
    { pose proof (proj1 (Hin v) (list_elem_of_here _ _)) as H1. apply elem_of_cons in H1 as [|H1]; [done|].
      pose proof (proj2 (Hin w) (list_elem_of_here _ _)) as H2. apply elem_of_cons in H2 as [|H2]; [done|].
      specialize (Hv _ H2). specialize (Hw _ H1). exfalso. cbn in Hv, Hw. ts_lia. }
    f_equal. apply IH; [done|]. intros u. specialize (Hin u). rewrite !elem_of_cons in Hin.
    split; intros Hu.
    + destruct (proj1 Hin (or_intror Hu)) as [->|]; [|done]. exfalso. specialize (Hv _ Hu). cbn in Hv. ts_lia.
    + destruct (proj2 Hin (or_intror Hu)) as [->|]; [|done]. exfalso. specialize (Hw _ Hu). cbn in Hw. ts_lia.
Qed.

(** The view of a key is its lookups. *)
Lemma view_intro s k mo vs :
  store_wf s -> IsLocal k = false -> versions_sorted vs -> st_get s (metaKey k) = mo ->
  (forall t raw, ts_valid t -> st_get s (vkey k t) = Some raw <-> (t, raw) ∈ vs) ->
  is_view s k mo vs.
Proof.
  intros Hwf Hl Hvs Hm Hl2. destruct (store_view s k Hwf Hl) as (mo' & vs' & Hv & Hvs').
  rewrite (view_meta s k mo' vs' Hv) in Hm. subst mo'.
  assert (vs' = vs) as ->; [|done].
  apply versions_ext; [done..|]. intros [t raw].
  assert (Hval : forall l, versions_sorted l -> (t, raw) ∈ l -> ts_valid t).
  { intros l [_ Hok] Hin. rewrite Forall_forall in Hok. exact (Hok _ Hin). }
  split; intros Hin; (assert (Ht : ts_valid t) by (eapply Hval; [|exact Hin]; assumption)).
  - apply Hl2; [done|]. by apply (view_version s k mo vs').
  - apply (view_version s k mo vs'); [done..|]. by apply Hl2.
Qed.

Lemma is_view_exists s k : store_wf s -> IsLocal k = false -> exists mo vs, is_view s k mo vs.
Proof. intros. by apply store_view. Qed.

Lemma is_view_meta s k mo vs : is_view s k mo vs -> st_get s (metaKey k) = mo.
Proof. intros [H _]. by eapply view_meta. Qed.

Lemma is_view_version s k mo vs t raw :
  is_view s k mo vs -> ts_valid t -> st_get s (vkey k t) = Some raw <-> (t, raw) ∈ vs.
Proof. intros [H Hs] Ht. by apply (view_version s k mo vs). Qed.

(** The engine keys of other user keys are untouched by a change to [k]. *)
Definition same_elsewhere (s s' : store) (k : bytes) : Prop :=
  forall x, x <> metaKey k -> (forall t, x <> vkey k t) -> st_get s' x = st_get s x.

Lemma same_elsewhere_refl s k : same_elsewhere s s k.
Proof. done. Qed.

Lemma same_elsewhere_trans s1 s2 s3 k : same_elsewhere s1 s2 k -> same_elsewhere s2 s3 k -> same_elsewhere s1 s3 k.
Proof. intros H1 H2 x Hm Hv. by rewrite H2, H1. Qed.

Lemma same_elsewhere_set_version s k t v : same_elsewhere s (st_set s (vkey k t) v) k.
Proof. intros x _ Hv. apply get_set_ne. intros <-. by apply (Hv t). Qed.
Lemma same_elsewhere_set_meta s k v : same_elsewhere s (st_set s (metaKey k) v) k.
Proof. intros x Hm _. by apply get_set_ne. Qed.
Lemma same_elsewhere_del_version s k t : same_elsewhere s (st_del s (vkey k t)) k.
Proof. intros x _ Hv. apply get_del_ne. intros <-. by apply (Hv t). Qed.
Lemma same_elsewhere_del_meta s k : same_elsewhere s (st_del s (metaKey k)) k.
Proof. intros x Hm _. by apply get_del_ne. Qed.

Lemma same_elsewhere_view s s' k k' mo vs :
  store_wf s' -> IsLocal k' = false -> same_elsewhere s s' k -> k' <> k ->
  is_view s k' mo vs -> is_view s' k' mo vs.
Proof.
  intros Hwf Hl Hs Hne Hv. pose proof Hv as [_ Hvs].
  assert (Hne' : forall t u, vkey k' t <> vkey k u).
  { intros t u E. unfold vkey in E. by apply metaKey_inj_app in E as [-> _]. }
  apply view_intro; [done..| |].
  - rewrite Hs; [by eapply is_view_meta| |].
    + intros E. by apply metaKey_inj in E.
    + intros t E. symmetry in E. by apply vkey_not_meta in E.
  - intros t raw Ht. rewrite Hs; [by apply (is_view_version s k' mo vs)|apply vkey_not_meta|apply Hne'].
Qed.

(** ** Updating a version list *)

Fixpoint insert_version (t : Timestamp) (raw : bytes) (vs : list version) : list version :=
  match vs with
  | [] => [(t, raw)]
  | v :: vs' =>
      if Less v.1 t then (t, raw) :: vs
      else if Equal v.1 t then (t, raw) :: vs'
      else v :: insert_version t raw vs'
  end.

Definition remove_version (t : Timestamp) (vs : list version) : list version :=
  List.filter (fun v => negb (Equal v.1 t)) vs.

Lemma elem_of_remove_version t vs v : v ∈ remove_version t vs <-> v ∈ vs /\ v.1 <> t.
Proof.
  unfold remove_version. rewrite list_elem_of_In, List.filter_In, <- list_elem_of_In.
  by rewrite negb_true_iff, Equal_neq.
Qed.

Lemma remove_version_sorted t vs : versions_sorted vs -> versions_sorted (remove_version t vs).
Proof.
  intros [Hs Hok]. split.
  - clear Hok. unfold remove_version. induction Hs as [|v vs Hs IH Hv]; cbn [List.filter]; [constructor|].
    destruct (negb (Equal v.1 t)); [|done]. constructor; [done|]. rewrite Forall_forall in *.
    intros u Hu. apply (elem_of_remove_version t vs u) in Hu as [Hu _]. by apply Hv.
  - rewrite Forall_forall in *. intros v Hv. apply elem_of_remove_version in Hv as [Hv _]. by apply Hok.
Qed.

Lemma elem_of_insert_version t raw vs v :
  StronglySorted (fun a b : version => b.1 <t a.1) vs ->
  v ∈ insert_version t raw vs <-> v = (t, raw) \/ (v ∈ vs /\ v.1 <> t).
Proof.
  intros Hs. induction Hs as [|w vs Hs IH Hw]; cbn [insert_version].
  { rewrite list_elem_of_singleton. pose proof (not_elem_of_nil v). naive_solver. }
  rewrite Forall_forall in Hw.
  assert (Hne : forall u, u ∈ vs -> w.1 <=t t -> u.1 <> t).
  { intros u Hu Hle E. specialize (Hw u Hu). cbn in Hw. rewrite E in Hw. ts_lia. }
  destruct (Less w.1 t) eqn:El; [|destruct (Equal w.1 t) eqn:Ee]; tsb; rewrite !elem_of_cons.
  - split; [|naive_solver]. intros [->|[->|Hv]]; [by left|right..].
    + split; [by left|]. intros E. rewrite E in El. ts_lia.
    + split; [by right|]. apply Hne; [done|]. by apply ts_lt_le.
  - split; [|naive_solver]. intros [->|Hv]; [by left|right].
    split; [by right|]. apply Hne; [done|]. rewrite Ee. apply ts_le_refl.
  - rewrite IH. split; [|naive_solver]. intros [->|[->|[Hv Hn]]]; [right|by left|right]; auto.
Qed.

Lemma insert_version_sorted t raw vs : ts_valid t -> versions_sorted vs -> versions_sorted (insert_version t raw vs).
Proof.
  intros Ht [Hs Hok]. split.
  - clear Hok. induction Hs as [|w vs Hs IH Hw]; cbn [insert_version]; [by repeat constructor|].
    rewrite Forall_forall in Hw.
    destruct (Less w.1 t) eqn:El; [|destruct (Equal w.1 t) eqn:Ee]; tsb.
    + constructor; [constructor; [done|by apply Forall_forall]|]. apply Forall_forall. intros u Hu.
      apply elem_of_cons in Hu as [->|Hu]; [done|]. specialize (Hw u Hu). cbn in *. ts_lia.
    + constructor; [done|]. apply Forall_forall. intros u Hu. specialize (Hw u Hu). cbn in *. by rewrite <- Ee.
    + constructor; [done|]. apply Forall_forall. intros u Hu.
      apply elem_of_insert_version in Hu as [->|[Hu _]]; [|by apply Hw|done]. cbn. ts_lia.
  - rewrite Forall_forall in *. intros v Hv. apply elem_of_insert_version in Hv as [->|[Hv _]]; [done|by apply Hok|done].
Qed.

Lemma view_set_version s k mo vs t raw :
  store_wf s -> IsLocal k = false -> bytes_ok k -> ts_valid t -> value_ok raw -> is_view s k mo vs ->
  is_view (st_set s (vkey k t) raw) k mo (insert_version t raw vs).
Proof.
  intros Hwf Hl Hk Ht Hraw Hv. pose proof Hv as [_ Hvs]. pose proof Hvs as [Hs _].
  apply view_intro; [by apply wf_set_version|done|by apply insert_version_sorted| |].
  - rewrite get_set_ne by apply vkey_not_meta. by eapply is_view_meta.
  - intros u raw' Hu. rewrite elem_of_insert_version by done. cbn [fst]. destruct (decide (t = u)) as [<-|Hne].
    + rewrite get_set_eq. split; [intros [= <-]; by left|]. naive_solver.
    + rewrite get_set_ne by (intros E; apply vkey_inj in E as [_ ?]; [done|apply Ht|apply Hu]).
      rewrite (is_view_version s k mo vs u raw' Hv Hu). naive_solver.
Qed.

Lemma view_del_version s k mo vs t :
  store_wf s -> IsLocal k = false -> ts_valid t -> is_view s k mo vs ->
  is_view (st_del s (vkey k t)) k mo (remove_version t vs).
Proof.
  intros Hwf Hl Ht Hv. pose proof Hv as [_ Hvs].
  apply view_intro; [by apply wf_del|done|by apply remove_version_sorted| |].
  - rewrite get_del_ne by apply vkey_not_meta. by eapply is_view_meta.
  - intros u raw' Hu. rewrite elem_of_remove_version. cbn [fst]. destruct (decide (t = u)) as [<-|Hne].
    + rewrite get_del_eq. naive_solver.
    + rewrite get_del_ne by (intros E; apply vkey_inj in E as [_ ?]; [done|apply Ht|apply Hu]).
      rewrite (is_view_version s k mo vs u raw' Hv Hu). naive_solver.
Qed.

Lemma view_set_meta s k mo vs raw meta :
  store_wf s -> IsLocal k = false -> bytes_ok k -> raw <> [] -> decodeMeta raw = Some meta ->
  ts_valid (mTimestamp meta) ->
  is_view s k mo vs -> is_view (st_set s (metaKey k) raw) k (Some raw) vs.
Proof.
  intros Hwf Hl Hk Hne0 Hd Ht Hv. pose proof Hv as [_ Hvs].
  apply view_intro; [by eapply wf_set_meta|done|done|apply get_set_eq|].
  intros u raw' Hu. rewrite get_set_ne by (intros E; symmetry in E; by apply vkey_not_meta in E).
  by apply (is_view_version s k mo vs).
Qed.

Lemma view_del_meta s k mo vs :
  store_wf s -> IsLocal k = false -> is_view s k mo vs -> is_view (st_del s (metaKey k)) k None vs.
Proof.
  intros Hwf Hl Hv. pose proof Hv as [_ Hvs].
  apply view_intro; [by apply wf_del|done|done|apply get_del_eq|].
  intros u raw' Hu. rewrite get_del_ne by (intros E; symmetry in E; by apply vkey_not_meta in E).
  by apply (is_view_version s k mo vs).
Qed.
End View.
