(* ===== verification/MvccRead.v ===== *)
(** * Correctness of MVCC point reads

    [ref_get] is the reference semantics of a read over a key's intent and
    version list; [MVCCGet] (and every read of a [Getter]) computes it, with
    and without the prefix bloom filters.  [get_spec] states the same
    result declaratively, in terms of the engine's content alone. *)

From S2P Require Import Prelude Encoding Hlc Keys MvccKey Pebble Enginepb Mvcc MvccView.

(** ** The reference semantics *)

Section Reference.
Context {C : MetaCodec}.

(** The uncertainty check applies only above the read timestamp. *)
Definition has_uncertainty (ts : Timestamp) (opts : MVCCGetOptions) : bool :=
  negb (IsEmpty (UncertaintyLimit opts)) && Less ts (UncertaintyLimit opts).

Definition ref_uncertain (vs : list version) (ts skipAt : Timestamp) (opts : MVCCGetOptions)
    : result mvcc_err unit :=
  if has_uncertainty ts opts then
    match newest vs (UncertaintyLimit opts) skipAt with
    | Some (v, _) => if Less ts v then Err (UncertaintyError ts v) else Ok tt
    | None => Ok tt
    end
  else Ok tt.

Definition ref_newest (vs : list version) (ts skipAt : Timestamp) : result mvcc_err (option bytes) :=
  match newest vs ts skipAt with
  | Some (_, raw) => read_value raw
  | None => Ok None
  end.

Definition ref_versions (key : bytes) (vs : list version) (ts : Timestamp) (opts : MVCCGetOptions)
    (readAt skipAt : Timestamp) : result mvcc_err (option bytes) :=
  if negb (IsEmpty readAt) then
    match first (fun v => Equal v.1 readAt) vs with
    | Some (_, raw) => read_value raw
    | None => Err (NoProvisional key readAt)
    end
  else
    let* _ := ref_uncertain vs ts skipAt opts in ref_newest vs ts skipAt.

Definition ref_get (key : bytes) (mo : option bytes) (vs : list version) (ts : Timestamp)
    (opts : MVCCGetOptions) : result mvcc_err (option bytes) :=
  match mo with
  | Some raw =>
      let* meta := lift_meta (decodeMeta raw) in
      match intent_switch meta ts opts with
      | ReadAt t => ref_versions key vs ts opts t ts0
      | SkipAt t => ref_versions key vs ts opts ts0 t
      | Blocked => Err (WriteIntentError [mkIntent key (mTxn meta)])
      end
  | None => ref_versions key vs ts opts ts0 ts0
  end.
End Reference.

Lemma first_equal_from_ts vs t :
  StronglySorted (fun a b : version => b.1 <t a.1) vs ->
  first (fun v => Equal v.1 t) vs =
    match head (from_ts t vs) with
    | Some v => if Equal v.1 t then Some v else None
    | None => None
    end.
Proof.
  induction 1 as [|v vs Hs IH Hf]; [done|]. cbn [first from_ts].
  destruct (LessEq v.1 t) eqn:El.
  - cbn [head]. destruct (Equal v.1 t) eqn:Ee; [done|].
    apply first_none. eapply Forall_impl; [exact Hf|]. intros u Hu. cbn in Hu.
    apply Equal_neq. intros E. rewrite E in Hu. tsb. ts_lia.
  - destruct (Equal v.1 t) eqn:Ee; [|done]. ts_lia.
Qed.

(** When the newest version of all is at or below [ts], every check and
    the answer are settled by it. *)
Lemma newest_fast v vs t :
  versions_sorted (v :: vs) -> v.1 <=t t -> newest (v :: vs) t ts0 = Some v.
Proof.
  intros _ Hle. unfold newest. cbn [first]. apply LessEq_le in Hle. by rewrite Hle.
Qed.

Section Reads.
Context {P : Pebble} {PL : PebbleLaws P} {C : MetaCodec}.

Lemma read_loop_at k l : forall it pre fuel skipAt,
  iter_at it pre (map (ventry k) l) -> Forall (fun v => ts_valid v.1) l -> (length l < fuel)%nat ->
  read_loop fuel it skipAt =
    match first (fun v => negb (skipped skipAt v.1)) l with
    | Some v => read_value v.2
    | None => Ok None
    end.
Proof.
  induction l as [|v l IH]; intros it pre fuel skipAt Hat Hl Hf; (destruct fuel as [|fuel]; [cbn in Hf; lia|]);
    cbn [read_loop first].
  - destruct Hat as (_ & _ & Hc & _). by rewrite Hc.
  - inversion Hl as [|? ? Hv Hl']; subst. pose proof Hat as (_ & _ & Hc & _). rewrite Hc. cbn [map head ventry].
    rewrite Decode_vkey by apply Hv. cbn [lift_key rmap_err rbind]. fold (skipped skipAt v.1).
    destruct (skipped skipAt v.1); cbn [negb]; [|done].
    apply (IH _ _ fuel skipAt (next_at _ _ _ _ Hat)); [done|cbn in Hf; lia].
Qed.

Lemma uncertain_loop_at k l : forall it pre fuel ts skipAt,
  iter_at it pre (map (ventry k) l) -> Forall (fun v => ts_valid v.1) l -> (length l < fuel)%nat ->
  uncertain_loop fuel it ts skipAt =
    match first (fun v => negb (skipped skipAt v.1)) l with
    | Some v => if Less ts v.1 then Err (UncertaintyError ts v.1) else Ok tt
    | None => Ok tt
    end.
Proof.
  induction l as [|v l IH]; intros it pre fuel ts skipAt Hat Hl Hf; (destruct fuel as [|fuel]; [cbn in Hf; lia|]);
    cbn [uncertain_loop first].
  - destruct Hat as (_ & _ & Hc & _). by rewrite Hc.
  - inversion Hl as [|? ? Hv Hl']; subst. pose proof Hat as (_ & _ & Hc & _). rewrite Hc. cbn [map head ventry].
    rewrite Decode_vkey by apply Hv. cbn [lift_key rmap_err rbind]. fold (skipped skipAt v.1).
    destruct (skipped skipAt v.1); cbn [negb]; [|done].
    apply (IH _ _ fuel ts skipAt (next_at _ _ _ _ Hat)); [done|cbn in Hf; lia].
Qed.

(** Every engine key of [k] has the prefix the seeks ask for. *)
Lemma key_view_prefix k mo vs :
  IsLocal k = false -> Forall (fun e => split_prefix e.1 = metaKey k) (key_view k mo vs).
Proof.
  intros Hl. unfold key_view. apply Forall_app. split.
  - destruct mo; constructor; [|constructor]. cbn [fst].
    rewrite <- (app_nil_r (metaKey k)) at 1. by apply split_prefix_engine_key.
  - apply Forall_forall. intros e He. apply list_elem_of_In, in_map_iff in He as (v & <- & _).
    by apply split_prefix_engine_key.
Qed.

Lemma key_view_length k mo vs : (length vs <= length (key_view k mo vs))%nat.
Proof. unfold key_view. rewrite length_app, length_map. lia. Qed.

Lemma seek_version_at k mo vs it t :
  IsLocal k = false -> ts_ok t -> view it = key_view k mo vs -> versions_sorted vs ->
  StronglySorted entry_lt (view it) ->
  exists pre, iter_at (SeekPrefixGE it (vkey k t)) pre (map (ventry k) (from_ts t vs)).
Proof.
  intros Hl Ht Hv [Hvs Hok] Hs.
  destruct (seek_prefix_at it (vkey k t) Hs) as (pre & Hat & _).
  - rewrite Hv. eapply Forall_impl; [by apply key_view_prefix|]. intros e ->. symmetry. by apply split_prefix_engine_key.
  - exists pre. by rewrite Hv, from_key_view in Hat.
Qed.

Lemma from_ts_length t vs : (length (from_ts t vs) <= length vs)%nat.
Proof. destruct (from_ts_suffix t vs) as (pre & Hp & _). rewrite Hp at 2. rewrite length_app. lia. Qed.

Lemma from_ts_valid t vs :
  Forall (fun v : version => ts_valid v.1) vs -> Forall (fun v : version => ts_valid v.1) (from_ts t vs).
Proof. intros H. destruct (from_ts_suffix t vs) as (pre & Hp & _). rewrite Hp in H. by apply Forall_app in H as [_ H]. Qed.

Lemma mvccGet_versions_eq k mo vs it ts opts readAt skipAt :
  IsLocal k = false -> ts_ok ts -> ts_ok readAt -> ts_ok (UncertaintyLimit opts) ->
  view it = key_view k mo vs -> versions_sorted vs -> StronglySorted entry_lt (view it) ->
  mvccGet_versions it (metaKey k) k ts opts readAt skipAt = ref_versions k vs ts opts readAt skipAt.
Proof.
  intros Hl Hts Hra Hul Hv Hvs Hs. pose proof Hvs as [Hsort Hok].
  unfold mvccGet_versions, ref_versions. rewrite !appendVersionSuffix_vkey.
  destruct (IsEmpty readAt); cbn [negb].
  - assert (Hlen : forall t, (length (from_ts t vs) < S (length (it_view (pit it))))%nat).
    { intros t. pose proof (from_ts_length t vs). pose proof (key_view_length k mo vs).
      fold (view it). rewrite Hv. lia. }
    assert (Hread : read_loop (S (length (it_view (pit it)))) (SeekPrefixGE it (vkey k ts)) skipAt = ref_newest vs ts skipAt).
    { destruct (seek_version_at k mo vs it ts Hl Hts Hv Hvs Hs) as (pre & Hat).
      rewrite (read_loop_at k _ _ _ _ skipAt Hat (from_ts_valid _ _ Hok) (Hlen ts)).
      unfold ref_newest. rewrite newest_from_ts by done. by destruct (first _ _) as [[]|]. }
    unfold ref_uncertain, has_uncertainty. destruct (negb (IsEmpty (UncertaintyLimit opts)) && Less ts (UncertaintyLimit opts)).
    + destruct (seek_version_at k mo vs it (UncertaintyLimit opts) Hl Hul Hv Hvs Hs) as (pre & Hat).
      rewrite (uncertain_loop_at k _ _ _ _ ts skipAt Hat (from_ts_valid _ _ Hok) (Hlen _)).
      rewrite newest_from_ts by done. rewrite Hread. by destruct (first _ _) as [[]|].
    + cbn [rbind]. exact Hread.
  - destruct (seek_version_at k mo vs it readAt Hl Hra Hv Hvs Hs) as (pre & _ & _ & Hc & _).
    rewrite Hc, first_equal_from_ts by done. pose proof (from_ts_valid readAt vs Hok) as Hok'.
    destruct (from_ts readAt vs) as [|[v raw] l]; [done|]. inversion Hok' as [|? ? Hval]; subst.
    cbn [map head ventry fst snd]. rewrite Decode_vkey by apply Hval. cbn [lift_key rmap_err rbind].
    by destruct (Equal v readAt).
Qed.

(** The read over any iterator bounded to the key's engine keys. *)
Lemma mvccGet_eq k mo vs it ts opts :
  IsLocal k = false -> ts_ok ts -> ts_ok (UncertaintyLimit opts) ->
  (forall raw meta, mo = Some raw -> decodeMeta raw = Some meta -> ts_ok (mTimestamp meta)) ->
  view it = key_view k mo vs -> versions_sorted vs -> StronglySorted entry_lt (view it) ->
  mvccGet it (metaKey k) k ts opts = ref_get k mo vs ts opts.
Proof.
  intros Hl Hts Hul Hmeta Hv Hvs Hs. unfold mvccGet.
  destruct (seek_prefix_at it (metaKey k) Hs) as (pre & (Hv' & Hs' & Hc & _) & _).
  { rewrite Hv. eapply Forall_impl; [by apply key_view_prefix|]. intros e ->.
    rewrite <- (app_nil_r (metaKey k)) at 2. symmetry. by apply split_prefix_engine_key. }
  assert (Hview : view (SeekPrefixGE it (metaKey k)) = key_view k mo vs) by (by rewrite view_SeekPrefixGE).
  rewrite Hc, Hv. destruct mo as [raw|]; cbn [key_view app from_key fst].
  - assert (bleb (metaKey k) (metaKey k) = true) as -> by (apply bleb_le, ble_refl). cbn [head].
    rewrite beqb_refl. cbn [ref_get]. destruct (decodeMeta raw) as [meta|] eqn:Em; [|done].
    specialize (Hmeta raw meta eq_refl Em). cbn [lift_meta rbind].
    destruct (intent_switch meta ts opts) as [t|t|] eqn:Esw; [| |done].
    + apply (mvccGet_versions_eq k (Some raw)); try done.
      revert Esw. unfold intent_switch. repeat case_match; try done; by intros [= <-].
    + apply (mvccGet_versions_eq k (Some raw)); try done.
  - assert (Hslow : mvccGet_versions (SeekPrefixGE it (metaKey k)) (metaKey k) k ts opts ts0 ts0 = ref_get k None vs ts opts).
    { apply (mvccGet_versions_eq k None); try done.  }
    destruct vs as [|[v raw] vs]; [done|]. cbn [map from_key ventry fst snd].
    assert (bleb (metaKey k) (vkey k v) = true) as -> by (apply bleb_le, blt_ble, meta_lt_vkey).
    cbn [head ventry fst snd]. destruct (beqb (vkey k v) (metaKey k)) eqn:Eb; [apply beqb_eq in Eb; by apply vkey_not_meta in Eb|].
    pose proof Hvs as [_ Hok]. inversion Hok as [|? ? Hval]; subst. rewrite Decode_vkey by apply Hval.
    cbn [lift_key rmap_err rbind]. destruct (LessEq v ts) eqn:El; [|done].
    (* the newest version decides every later step *)
    tsb. cbn [ref_get]. unfold ref_versions, ref_uncertain, ref_newest, has_uncertainty. cbn [IsEmpty ts0 negb].
    rewrite (newest_fast (v, raw) vs ts Hvs El).
    destruct (IsEmpty (UncertaintyLimit opts)) eqn:Ee; cbn [negb andb]; [done|].
    destruct (Less ts (UncertaintyLimit opts)) eqn:Elim; [|done]. tsb.
    rewrite (newest_fast (v, raw) vs (UncertaintyLimit opts) Hvs ltac:(cbn; ts_lia)).
    destruct (Less ts v) eqn:Elv; [ts_lia|done].
Qed.

(** ** Reads of a store *)

(** The intent metadata on [k], if any. *)
Definition intent_of (s : store) (k : bytes) : option MVCCMetadata :=
  match st_get s (metaKey k) with Some raw => decodeMeta raw | None => None end.

Definition opts_ok (ts : Timestamp) (opts : MVCCGetOptions) : Prop :=
  ts_ok ts /\ ts_ok (UncertaintyLimit opts).

Lemma wf_meta_ok s k mo raw meta :
  store_wf s -> IsLocal k = false -> st_get s (metaKey k) = mo -> mo = Some raw ->
  decodeMeta raw = Some meta -> ts_ok (mTimestamp meta).
Proof.
  intros Hwf Hl Hg -> Hd. destruct (wf_meta s Hwf k raw Hl Hg) as (_ & m & Hm & Hv).
  rewrite Hd in Hm. injection Hm as <-. apply Hv.
Qed.

Lemma mvccGet_store s k ts opts mo vs it :
  store_wf s -> IsLocal k = false -> opts_ok ts opts ->
  bounded (metaKey k) (upper_of k) (st_entries s) = key_view k mo vs -> versions_sorted vs ->
  view it = bounded (metaKey k) (upper_of k) (st_entries s) ->
  mvccGet it (metaKey k) k ts opts = ref_get k mo vs ts opts.
Proof.
  intros Hwf Hl [Hts Hul] Hv Hvs Hit. apply mvccGet_eq; try done.
  - intros raw meta. apply (wf_meta_ok s k); [done..|]. by eapply view_meta.
  - by rewrite Hit.
  - rewrite Hit. apply bounded_sorted.
Qed.

Lemma MVCCGet_ref pb s k ts opts mo vs :
  store_wf s -> IsLocal k = false -> opts_ok ts opts ->
  bounded (metaKey k) (upper_of k) (st_entries s) = key_view k mo vs -> versions_sorted vs ->
  MVCCGet pb s k ts opts = ref_get k mo vs ts opts.
Proof.
  intros Hwf Hl Ho Hv Hvs. unfold MVCCGet. rewrite mvccKeyBounds_pair.
  apply (mvccGet_store s); try done. unfold view, NewIter. cbn [pit]. by rewrite new_view.
Qed.

(** ** The declarative specification *)

Definition has_version (s : store) (k : bytes) (t : Timestamp) (raw : bytes) : Prop :=
  ts_valid t /\ st_get s (vkey k t) = Some raw.

(** [t] is the newest version of [k] at or below [lim] other than [skip]. *)
Definition newest_at (s : store) (k : bytes) (lim skip t : Timestamp) (raw : bytes) : Prop :=
  has_version s k t raw /\ t <=t lim /\ t <> skip /\
  forall u raw', has_version s k u raw' -> u <=t lim -> u <> skip -> u <=t t.

Definition no_version_at (s : store) (k : bytes) (lim skip : Timestamp) : Prop :=
  forall u raw, has_version s k u raw -> u <=t lim -> u = skip.

(** Whose an intent is: the reading transaction's, and of its epoch. *)
Definition own_intent (meta : MVCCMetadata) (opts : MVCCGetOptions) : Prop :=
  exists txn, optTxn opts = Some txn /\ ID (mTxn meta) = ID txn.
Definition own_epoch (meta : MVCCMetadata) (opts : MVCCGetOptions) : Prop :=
  exists txn, optTxn opts = Some txn /\ ID (mTxn meta) = ID txn /\ Epoch (mTxn meta) = Epoch txn.

(** The intent is where the read, or its uncertainty window, would see it. *)
Definition in_window (meta : MVCCMetadata) (ts : Timestamp) (opts : MVCCGetOptions) : Prop :=
  mTimestamp meta <=t ts \/ mTimestamp meta <=t UncertaintyLimit opts.

(** The read looks beneath an intent it ignores (its own of another epoch; or
    another transaction's when the read is inconsistent or the intent is above
    its window), or there is none ([skip] is then the empty timestamp, which
    no version has). *)
Definition beneath (s : store) (k : bytes) (ts : Timestamp) (opts : MVCCGetOptions) (skip : Timestamp) : Prop :=
  match intent_of s k with
  | None => skip = ts0
  | Some meta => skip = mTimestamp meta /\ ~ own_epoch meta opts /\
      (own_intent meta opts \/ Inconsistent opts = true \/ ~ in_window meta ts opts)
  end.

(** What a stored version reads as: a tombstone as nothing, and so does an
    empty value. *)
Inductive value_spec (raw : bytes) : result mvcc_err (option bytes) -> Prop :=
| vs_tombstone data : decodeMVCCValue raw = Ok (data, true) -> value_spec raw (Ok None)
| vs_empty : decodeMVCCValue raw = Ok ([], false) -> value_spec raw (Ok None)
| vs_value data : decodeMVCCValue raw = Ok (data, false) -> data <> [] -> value_spec raw (Ok (Some data))
| vs_malformed e : decodeMVCCValue raw = Err e -> value_spec raw (Err (ValueError e)).

(** No version in the uncertainty window (ts, limit]. *)
Definition certain (s : store) (k : bytes) (ts : Timestamp) (opts : MVCCGetOptions) (skip : Timestamp) : Prop :=
  UncertaintyLimit opts <> ts0 ->
  forall u raw, has_version s k u raw -> ts <t u -> u <=t UncertaintyLimit opts -> u = skip.

Inductive get_spec (s : store) (k : bytes) (ts : Timestamp) (opts : MVCCGetOptions)
    : result mvcc_err (option bytes) -> Prop :=
| get_blocked meta :
    intent_of s k = Some meta -> ~ own_intent meta opts -> Inconsistent opts = false -> in_window meta ts opts ->
    get_spec s k ts opts (Err (WriteIntentError [mkIntent k (mTxn meta)]))
| get_own meta raw r :
    intent_of s k = Some meta -> own_epoch meta opts -> has_version s k (mTimestamp meta) raw -> value_spec raw r ->
    get_spec s k ts opts r
| get_own_missing meta :
    intent_of s k = Some meta -> own_epoch meta opts ->
    (forall raw, ~ has_version s k (mTimestamp meta) raw) ->
    get_spec s k ts opts (Err (NoProvisional k (mTimestamp meta)))
| get_uncertain skip t raw :
    beneath s k ts opts skip -> UncertaintyLimit opts <> ts0 ->
    newest_at s k (UncertaintyLimit opts) skip t raw -> ts <t t ->
    get_spec s k ts opts (Err (UncertaintyError ts t))
| get_value skip t raw r :
    beneath s k ts opts skip -> certain s k ts opts skip -> newest_at s k ts skip t raw -> value_spec raw r ->
    get_spec s k ts opts r
| get_none skip :
    beneath s k ts opts skip -> certain s k ts opts skip -> no_version_at s k ts skip ->
    get_spec s k ts opts (Ok None).

Lemma value_spec_read raw r : value_spec raw r <-> r = read_value raw.
Proof.
  unfold read_value. split.
  - destruct 1 as [data E|E|data E Hd|e E]; rewrite E; try done. by destruct data.
  - intros ->. destruct (decodeMVCCValue raw) as [[data [|]]|e] eqn:E; cbn [lift_value rmap_err rbind]; [by eapply vs_tombstone| |by apply vs_malformed].
    destruct data as [|c data]; [by apply vs_empty|by apply vs_value].
Qed.

(** The code's decision about an intent is the specified one. *)
Lemma own_txn_spec meta opts : own_txn (optTxn opts) (ID (mTxn meta)) = true <-> own_intent meta opts.
Proof.
  unfold own_txn, own_intent. destruct (optTxn opts) as [txn|]; [|split; [done|by intros (? & ? & _)]].
  rewrite beqb_eq. split; [eauto|]. by intros (? & [= <-] & ?).
Qed.
Lemma window_spec meta ts opts : intentAboveRead (mTimestamp meta) ts (UncertaintyLimit opts) = false <-> in_window meta ts opts.
Proof.
  unfold intentAboveRead, in_window. destruct (Less ts (UncertaintyLimit opts)) eqn:E; destruct (Less _ (mTimestamp meta)) eqn:E'; tsb;
    (split; [intros H; try done; first [by left; ts_lia|by right; ts_lia]|intros H; try done; exfalso; destruct H; ts_lia]).
Qed.
Lemma intent_switch_spec meta ts opts :
  match intent_switch meta ts opts with
  | ReadAt t => t = mTimestamp meta /\ own_epoch meta opts
  | SkipAt t => t = mTimestamp meta /\ ~ own_epoch meta opts /\ (own_intent meta opts \/ Inconsistent opts = true \/ ~ in_window meta ts opts)
  | Blocked => ~ own_intent meta opts /\ Inconsistent opts = false /\ in_window meta ts opts
  end.
Proof.
  assert (Hsub : own_epoch meta opts -> own_intent meta opts) by (intros (txn & ? & ? & _); by exists txn).
  unfold intent_switch. destruct (own_txn _ _) eqn:Eo.
  - pose proof (proj1 (own_txn_spec _ _) Eo) as (txn & Et & Hid). rewrite Et. case_bool_decide as Hep; cbn in Hep; split; try done.
    + exists txn. split_and!; [done..|]. congruence.
    + split; [|left; by exists txn]. intros (txn' & Et' & _ & He). apply Hep. congruence.
  - assert (Hno : ~ own_intent meta opts) by (rewrite <- own_txn_spec; congruence). destruct (Inconsistent opts) eqn:Ei; [split_and!; auto|].
    destruct (intentAboveRead _ _ _) eqn:Ea; [split_and!; auto; right; right; rewrite <- window_spec; congruence|].
    split_and!; [done..|]. by apply window_spec.
Qed.

Lemma has_version_view s k mo vs t raw :
  bounded (metaKey k) (upper_of k) (st_entries s) = key_view k mo vs -> versions_sorted vs ->
  has_version s k t raw <-> (t, raw) ∈ vs.
Proof.
  intros Hv Hvs. split.
  - intros [Ht Hg]. by apply (view_version s k mo vs).
  - intros Hin. assert (Ht : ts_valid t) by (destruct Hvs as [_ Hok]; rewrite Forall_forall in Hok; exact (Hok _ Hin)).
    split; [done|]. by apply (view_version s k mo vs).
Qed.

Lemma skipped_false skip t : ts_valid t -> skipped skip t = false <-> t <> skip.
Proof.
  intros [_ Ht]. unfold skipped. rewrite andb_false_iff, negb_false_iff, IsEmpty_eq, Equal_neq.
  split; [intros [->|]; done|intros H; by right].
Qed.

Lemma newest_some s k mo vs lim skip t raw :
  bounded (metaKey k) (upper_of k) (st_entries s) = key_view k mo vs -> versions_sorted vs ->
  newest vs lim skip = Some (t, raw) -> newest_at s k lim skip t raw.
Proof.
  intros Hv Hvs Hn. unfold newest in Hn. apply first_some in Hn as (pre & post & -> & Hp & Hpre).
  apply andb_true_iff in Hp as [Hle Hsk]. cbn [fst] in *. apply LessEq_le in Hle. apply negb_true_iff in Hsk.
  assert (Hht : has_version s k t raw).
  { apply (has_version_view s k mo _ _ _ Hv Hvs), elem_of_app. right. apply list_elem_of_here. }
  split; [done|]. split; [done|]. split; [by apply skipped_false; [apply Hht|]|].
  intros u raw' Hu Hul Hus. pose proof Hu as [Huv _].
  apply (has_version_view s k mo _ _ _ Hv Hvs) in Hu. rewrite Forall_forall in Hpre.
  apply elem_of_app in Hu as [Hu|Hu].
  - specialize (Hpre _ Hu). cbn [fst] in Hpre. apply andb_false_iff in Hpre as [Hpre|Hpre]; [tsb; ts_lia|].
    apply negb_false_iff in Hpre. apply (skipped_false _ _ Huv) in Hus. congruence.
  - apply elem_of_cons in Hu as [[= -> ->]|Hu]; [apply ts_le_refl|]. destruct Hvs as [Hs _].
    apply ts_lt_le. apply (StronglySorted_app_1_elem_of (fun a b : version => b.1 <t a.1) (pre ++ [(t, raw)]) post (t, raw) (u, raw')).
    + by rewrite <- app_assoc.
    + apply elem_of_app. right. by apply list_elem_of_singleton.
    + done.
Qed.

Lemma newest_none s k mo vs lim skip :
  bounded (metaKey k) (upper_of k) (st_entries s) = key_view k mo vs -> versions_sorted vs ->
  newest vs lim skip = None -> no_version_at s k lim skip.
Proof.
  intros Hv Hvs Hn u raw Hu Hle. pose proof Hu as [Huv _]. apply first_none in Hn. rewrite Forall_forall in Hn.
  apply (has_version_view s k mo _ _ _ Hv Hvs) in Hu. specialize (Hn _ Hu). cbn [fst] in Hn.
  apply LessEq_le in Hle. rewrite Hle in Hn. cbn in Hn. apply negb_false_iff in Hn.
  destruct (decide (u = skip)) as [|Hne]; [done|]. apply (skipped_false _ _ Huv) in Hne. congruence.
Qed.

Lemma ref_beneath_spec s k mo vs ts opts skip :
  bounded (metaKey k) (upper_of k) (st_entries s) = key_view k mo vs -> versions_sorted vs ->
  beneath s k ts opts skip -> get_spec s k ts opts (ref_versions k vs ts opts ts0 skip).
Proof.
  intros Hv Hvs Hb. unfold ref_versions. cbn [IsEmpty ts0 negb]. unfold ref_uncertain, has_uncertainty.
  assert (Hread : certain s k ts opts skip -> get_spec s k ts opts (ref_newest vs ts skip)).
  { intros Hc. unfold ref_newest. destruct (newest vs ts skip) as [[t raw]|] eqn:En.
    - eapply get_value; [done..|by eapply newest_some|by apply value_spec_read].
    - eapply get_none; [done..|]. by eapply newest_none. }
  destruct (IsEmpty (UncertaintyLimit opts)) eqn:Ee; cbn [negb andb rbind]; tsb.
  { apply Hread. intros H. done. }
  destruct (Less ts (UncertaintyLimit opts)) eqn:El; cbn [rbind]; tsb.
  2: { apply Hread. intros _ u raw _ H1 H2. exfalso. ts_lia. }
  destruct (newest vs (UncertaintyLimit opts) skip) as [[t raw]|] eqn:En.
  - pose proof (newest_some _ _ _ _ _ _ _ _ Hv Hvs En) as Hn.
    destruct (Less ts t) eqn:Et; cbn [rbind]; tsb; [by eapply get_uncertain|].
    apply Hread. intros _ u raw' Hu H1 H2. destruct (decide (u = skip)) as [|Hne]; [done|]. exfalso.
    destruct Hn as (_ & _ & _ & Hmax). specialize (Hmax u raw' Hu H2 Hne). ts_lia.
  - cbn [rbind]. apply Hread. intros _ u raw' Hu _ H2. by eapply newest_none.
Qed.

Lemma ref_own_spec s k mo vs ts opts meta :
  bounded (metaKey k) (upper_of k) (st_entries s) = key_view k mo vs -> versions_sorted vs ->
  ts_valid (mTimestamp meta) -> intent_of s k = Some meta -> own_epoch meta opts ->
  get_spec s k ts opts (ref_versions k vs ts opts (mTimestamp meta) ts0).
Proof.
  intros Hv Hvs [Ht Hne] Hi Hsw. unfold ref_versions. set (t := mTimestamp meta) in *.
  destruct (IsEmpty t) eqn:Ee; [by apply IsEmpty_eq in Ee|]. cbn [negb].
  destruct (first (fun v : version => Equal v.1 t) vs) as [[u raw]|] eqn:Ef.
  - apply first_some in Ef as (pre & post & -> & He & _). cbn [fst] in He. apply Equal_eq in He as ->.
    eapply get_own; [done..| |by apply value_spec_read]. apply (has_version_view s k mo _ _ _ Hv Hvs), elem_of_app. right. apply list_elem_of_here.
  - eapply get_own_missing; [done..|]. intros raw Hh. apply (has_version_view s k mo _ _ _ Hv Hvs) in Hh.
    apply first_none in Ef. rewrite Forall_forall in Ef. specialize (Ef _ Hh). cbn [fst] in Ef.
    by apply Equal_neq in Ef.
Qed.

Lemma ref_get_spec s k mo vs ts opts :
  store_wf s -> IsLocal k = false ->
  bounded (metaKey k) (upper_of k) (st_entries s) = key_view k mo vs -> versions_sorted vs ->
  get_spec s k ts opts (ref_get k mo vs ts opts).
Proof.
  intros Hwf Hl Hv Hvs. pose proof (view_meta s k mo vs Hv) as Hm. unfold ref_get. destruct mo as [raw|].
  - destruct (wf_meta s Hwf k raw Hl Hm) as (_ & meta & Hd & Ht). rewrite Hd. cbn [lift_meta rbind].
    assert (Hi : intent_of s k = Some meta) by (unfold intent_of; by rewrite Hm).
    pose proof (intent_switch_spec meta ts opts) as Hsw. destruct (intent_switch meta ts opts) as [t|t|].
    + destruct Hsw as [-> Hsw]. by eapply ref_own_spec.
    + eapply ref_beneath_spec; [done..|]. unfold beneath. by rewrite Hi.
    + destruct Hsw as (? & ? & ?). by apply get_blocked.
  - eapply ref_beneath_spec; [done..|]. unfold beneath, intent_of. by rewrite Hm.
Qed.

(** The newest version is unique. *)
Lemma newest_at_fun s k lim skip t raw t' raw' :
  newest_at s k lim skip t raw -> newest_at s k lim skip t' raw' -> t = t' /\ raw = raw'.
Proof.
  intros (Hv & Hle & Hne & Hmax) (Hv' & Hle' & Hne' & Hmax').
  assert (t = t') as -> by (apply ts_le_antisym; eauto).
  destruct Hv as [_ Hv], Hv' as [_ Hv']. split; [done|]. congruence.
Qed.

Lemma beneath_fun s k ts opts skip skip' :
  beneath s k ts opts skip -> beneath s k ts opts skip' -> skip = skip'.
Proof. unfold beneath. destruct (intent_of s k); [intros [-> _] [-> _]; done|congruence]. Qed.

Lemma get_spec_fun s k ts opts r r' : get_spec s k ts opts r -> get_spec s k ts opts r' -> r = r'.
Proof.
  assert (Hun : forall skip t raw, certain s k ts opts skip -> UncertaintyLimit opts <> ts0 ->
    newest_at s k (UncertaintyLimit opts) skip t raw -> ts <t t -> False).
  { intros skip t raw Hc Hl (Hv & Hle & Hne & _) Hlt. by apply Hne, (Hc Hl t raw). }
  assert (Hno : forall lim skip t raw, no_version_at s k lim skip -> newest_at s k lim skip t raw -> False).
  { intros lim skip t raw Hn (Hv & Hle & Hne & _). by apply Hne, (Hn t raw). }
  assert (Hsub : forall meta, own_epoch meta opts -> own_intent meta opts) by (intros meta (txn & ? & ? & _); by exists txn).
  destruct 1, 1; simplify_eq;
    repeat match goal with
    | H : beneath _ _ _ _ ?a, H' : beneath _ _ _ _ ?b |- _ =>
        assert (a = b) as -> by (eapply beneath_fun; eassumption); clear H
    | H : newest_at _ _ _ _ _ _, H' : newest_at _ _ _ _ _ _ |- _ =>
        destruct (newest_at_fun _ _ _ _ _ _ _ _ H H') as [-> ->]; clear H
    | H : intent_of _ _ = Some _, H' : beneath _ _ _ _ _ |- _ => unfold beneath in H'; rewrite H in H'
    | H : value_spec _ _ |- _ => apply value_spec_read in H as ->
    | H : has_version _ _ ?t ?a, H' : has_version _ _ ?t ?b |- _ =>
        assert (a = b) as -> by (destruct H, H'; congruence); clear H
    end; try done; exfalso; first [intuition congruence|naive_solver].
Qed.

Lemma MVCCGet_get_spec pb s k ts opts :
  store_wf s -> IsLocal k = false -> opts_ok ts opts -> get_spec s k ts opts (MVCCGet pb s k ts opts).
Proof.
  intros Hwf Hl Ho. destruct (store_view s k Hwf Hl) as (mo & vs & Hv & Hvs).
  rewrite (MVCCGet_ref pb s k ts opts mo vs) by done. by apply ref_get_spec.
Qed.

(** C6: [MVCCGet] implements its specification: an intent of another
    transaction in the read's window blocks it, the transaction's own
    intent of its epoch is read whatever the timestamp, and otherwise the
    read is beneath any ignored intent: an uncertainty error for the
    newest version in the window (ts, limit], else the newest version at
    or below ts, else nothing.  The result is the specified one and no
    other. *)
Theorem MVCCGet_spec pb s k ts opts r :
  store_wf s -> IsLocal k = false -> opts_ok ts opts ->
  MVCCGet pb s k ts opts = r <-> get_spec s k ts opts r.
Proof.
  intros Hwf Hl Ho. pose proof (MVCCGet_get_spec pb s k ts opts Hwf Hl Ho) as Hspec.
  split; [by intros <-|]. by apply get_spec_fun.
Qed.

(** ** Getters *)

(** A sequence of reads through one getter; each request comes with the
    content of the reader at its time. *)
Fixpoint getter_run (g : Getter) (reqs : list (store * bytes * Timestamp * MVCCGetOptions))
    : list (result mvcc_err (option bytes)) :=
  match reqs with
  | [] => []
  | (s, k, ts, opts) :: reqs => let '(g', r) := Getter_Get g s k ts opts in r :: getter_run g' reqs
  end.

Definition req_ok (q : store * bytes * Timestamp * MVCCGetOptions) : Prop :=
  let '(s, k, ts, opts) := q in store_wf s /\ IsLocal k = false /\ opts_ok ts opts.

(** What the getter's iterator reads: [s0] when it was made over an engine. *)
Definition getter_inv (g : Getter) (s0 : store) : Prop :=
  match g_it g with
  | None => True
  | Some it => refreshOnRebound it = g_batch g /\ (g_batch g = false -> it_source (pit it) = st_entries s0)
  end.

Lemma Getter_Get_step g s0 s k ts opts :
  getter_inv g s0 -> (g_it g = None -> s0 = s) -> store_wf (if g_batch g then s else s0) -> IsLocal k = false -> opts_ok ts opts ->
  let '(g', r) := Getter_Get g s k ts opts in
  r = MVCCGet (g_prefixBloom g) (if g_batch g then s else s0) k ts opts /\
  getter_inv g' s0 /\ g_it g' <> None /\ g_batch g' = g_batch g /\ g_prefixBloom g' = g_prefixBloom g.
Proof.
  intros Hinv Hs0 Hwf Hl Ho. unfold Getter_Get. rewrite mvccKeyBounds_pair.
  set (it := match g_it g with None => _ | Some _ => _ end).
  set (cur_s := if g_batch g then s else s0) in *.
  assert (Hit : view it = bounded (metaKey k) (upper_of k) (st_entries cur_s) /\ refreshOnRebound it = g_batch g /\
                (g_batch g = false -> it_source (pit it) = st_entries s0)).
  { subst it cur_s. unfold getter_inv, view in *. destruct (g_it g) as [it0|].
    - destruct Hinv as [Hr Hsrc]. unfold SetBounds, with_it. rewrite Hr. destruct (g_batch g); cbn [pit refreshOnRebound].
      + by rewrite set_options_view.
      + rewrite set_bounds_view, set_bounds_source, Hsrc by done. done.
    - rewrite (Hs0 eq_refl). destruct (g_batch g); cbn [Batch_NewIter NewIter pit refreshOnRebound]; rewrite new_view, new_source; done. }
  clearbody it. destruct Hit as (Hview & Hr & Hsrc). split; [|done].
  destruct (store_view cur_s k Hwf Hl) as (mo & vs & Hv & Hvs).
  rewrite (MVCCGet_ref (g_prefixBloom g) cur_s k ts opts mo vs) by done. by apply (mvccGet_store cur_s).
Qed.

(** A [Getter] serves its reads from one consistent state: over an
    engine every read is [MVCCGet] on the content the engine had at the
    first read, whatever was written since; over an indexed batch every
    read is [MVCCGet] on the batch's content at that read. *)
Theorem Getter_reads_one_state pb batch s0 k0 ts0' opts0 reqs :
  Forall req_ok ((s0, k0, ts0', opts0) :: reqs) ->
  getter_run (NewGetter pb batch) ((s0, k0, ts0', opts0) :: reqs) =
    map (fun '(s, k, ts, opts) => MVCCGet pb (if batch then s else s0) k ts opts) ((s0, k0, ts0', opts0) :: reqs).
Proof.
  intros Hall.
  assert (Hrun : forall reqs g, Forall req_ok reqs -> store_wf s0 -> getter_inv g s0 -> (g_it g = None -> Forall (fun q => q.1.1.1 = s0) (take 1 reqs)) ->
    g_batch g = batch -> g_prefixBloom g = pb ->
    getter_run g reqs = map (fun '(s, k, ts, opts) => MVCCGet pb (if batch then s else s0) k ts opts) reqs).
  { clear reqs Hall. induction reqs as [|[[[s k] ts] opts] reqs IH]; intros g Hall Hwf0 Hinv Hfirst Hb Hp; [done|].
    inversion Hall as [|? ? Hq Hall']; subst. destruct Hq as (Hwf & Hl & Ho). cbn [getter_run map].
    assert (Hfirst' : g_it g = None -> s0 = s) by (intros E; specialize (Hfirst E); by inversion Hfirst).
    assert (Hwf' : store_wf (if g_batch g then s else s0)) by (by destruct (g_batch g)).
    pose proof (Getter_Get_step g s0 s k ts opts Hinv Hfirst' Hwf' Hl Ho) as H.
    destruct (Getter_Get g s k ts opts) as [g' r]. destruct H as (-> & Hinv' & Hne & Hb & Hp).
    f_equal. by apply IH. }
  inversion Hall as [|? ? Hq _]; subst. destruct Hq as (Hwf0 & _). apply Hrun; try done. intros _. by constructor.
Qed.
End Reads.
