(* ===== verification/MvccWrite.v ===== *)
(** * MVCC writes (pkg/storage/mvcc.go; Batch.writeState of engine.go)

    The write path of one user key on a batch: puts and deletions with their
    conflict rules, one-phase (committed) writes, the bounded intent history
    and savepoint rollback, locking reads and intent resolution.  A batch is
    its content and its reusable write iterator; an operation threads it and
    returns a value or an error, with the effects made before the error. *)

From S2P Require Import Prelude Encoding Hlc Keys MvccKey Pebble Enginepb Mvcc.

Open Scope Z_scope.

Declare Scope batch_scope.
Delimit Scope batch_scope with batch.

Section Batches.
Context {P : Pebble} {C : MetaCodec}.

Record Batch := mkBatch { b_store : store; b_wit : option iter; b_prefixBloom : bool }.

Definition NewBatch (prefixBloom : bool) (s : store) : Batch := mkBatch s None prefixBloom.

(** The state-and-error monad of batch operations. *)
Definition BM (A : Type) : Type := Batch -> Batch * result mvcc_err A.
Definition bret {A} (a : A) : BM A := fun b => (b, Ok a).
Definition bfail {A} (e : mvcc_err) : BM A := fun b => (b, Err e).
Definition blift {A} (r : result mvcc_err A) : BM A := fun b => (b, r).
Definition bbind {A B} (m : BM A) (k : A -> BM B) : BM B := fun b =>
  match m b with
  | (b', Ok a) => k a b'
  | (b', Err e) => (b', Err e)
  end.

Definition b_with_store (b : Batch) (s : store) : Batch := mkBatch s (b_wit b) (b_prefixBloom b).
Definition bGet (k : bytes) : BM (option bytes) := fun b => (b, Ok (Batch_Get (b_store b) k)).
Definition bPut (k v : bytes) : BM unit := fun b => (b_with_store b (Batch_Put (b_store b) k v), Ok tt).
Definition bDelete (k : bytes) : BM unit := fun b => (b_with_store b (Batch_Delete (b_store b) k), Ok tt).

(** [Batch.writeState]: the metadata of an intent, or the newest version's
    timestamp.  The write iterator is created once and re-bounded with
    [SetOptions], which also refreshes it to the batch's writes. *)
Definition writeState (mk upper : bytes) : BM (option bytes * option Timestamp) := fun b =>
  let wit := match b_wit b with
             | None => it_new (b_store b) mk upper
             | Some it => it_set_options (b_store b) it mk upper
             end in
  let wit := if b_prefixBloom b then it_seek_prefix_ge wit mk else it_seek_ge wit mk in
  let b := mkBatch (b_store b) (Some wit) (b_prefixBloom b) in
  match it_cur wit with
  | None => (b, Ok (None, None))
  | Some (k, v) =>
      if beqb k mk then (b, Ok (append_nil v, None))
      else match lift_key (DecodeMVCCKey k) with
           | Ok (_, vts) => (b, Ok (None, Some vts))
           | Err e => (b, Err e)
           end
  end.
End Batches.

Notation "'do' x <- m ; k" := (bbind m (fun x => k)) (at level 10, x pattern, m at level 100, k at level 200) : batch_scope.
Notation "m ;; k" := (bbind m (fun _ => k)) (at level 100, k at level 200, right associativity) : batch_scope.
Open Scope batch_scope.

(** [boundedHistory]: what a savepoint rollback could still restore. *)
Definition history_add (prev : list IntentValue) (add : IntentValue) : list IntentValue :=
  match last prev with
  | Some e => if ivSequence e =? ivSequence add then removelast prev ++ [add] else prev ++ [add]
  | None => prev ++ [add]
  end.

(** The loop [for i, e := range history { if e.Sequence <= f { first = i } }]. *)
Fixpoint last_at_or_below (f : Z) (h : list IntentValue) (i first : nat) : nat :=
  match h with
  | [] => first
  | e :: h' => last_at_or_below f h' (S i) (if ivSequence e <=? f then i else first)
  end.

Definition boundedHistory (prev : list IntentValue) (add : IntentValue) (floor : Z) : list IntentValue :=
  if floor <? 0 then []
  else
    let history := history_add prev add in
    if floor =? 0 then history
    else drop (last_at_or_below (i32 (floor - 1)) history 0 0) history.

(** The backward search of [MVCCRollbackIntent]: the last entry at or below
    [seq], as its index. *)
Fixpoint rollback_index (seq : Z) (h : list IntentValue) (n : nat) : option nat :=
  match n with
  | O => None
  | S i => match h !! i with
           | Some e => if ivSequence e <=? seq then Some i else rollback_index seq h i
           | None => rollback_index seq h i
           end
  end.

Section Writes.
Context {P : Pebble} {C : MetaCodec}.

Definition foreign_txn (txn : option TxnMeta) (id : uuid) : bool := negb (own_txn txn id).

(** The history of a rewrite of the transaction's own intent. *)
Definition rewrite_history (mk : bytes) (meta : MVCCMetadata) (txn : TxnMeta) : BM (list IntentValue) :=
  if Epoch (mTxn meta) =? Epoch txn then
    do raw <- bGet (appendVersionSuffix mk (mTimestamp meta));
    match raw with
    | Some raw =>
        do (val, tomb) <- blift (lift_value (decodeMVCCValue raw));
        bret (boundedHistory (mHistory meta) (mkIntentValue (Sequence (mTxn meta)) val tomb) (HistoryFloor txn))
    | None => bret []
    end
  else bret [].

Definition mvccWrite (key : bytes) (ts : Timestamp) (value : bytes) (tombstone : bool) (txn : option TxnMeta)
    : BM unit :=
  let '(mk, upper) := mvccKeyBounds key in
  do (rawMeta, version) <- writeState mk upper;
  do (ts, history) <-
    (match rawMeta with
     | Some raw =>
         do meta <- blift (lift_meta (decodeMeta raw));
         match txn with
         | Some t =>
             if foreign_txn txn (ID (mTxn meta)) then bfail (WriteIntentError [mkIntent key (mTxn meta)])
             else
               do history <- rewrite_history mk meta t;
               bDelete (appendVersionSuffix mk (mTimestamp meta)) ;;
               bret (ts, history)
         | None => bfail (WriteIntentError [mkIntent key (mTxn meta)])
         end
     | None =>
         match version with
         | Some vts =>
             if LessEq ts vts then
               match txn with
               | Some _ => bfail (WriteTooOldError ts (Next vts))
               | None => bret (Next vts, [])
               end
             else bret (ts, [])
         | None => bret (ts, [])
         end
     end);
  match txn with
  | Some t =>
      let ts := WriteTimestamp t in
      bPut mk (encodeMeta (mkMeta t ts history)) ;;
      bPut (appendVersionSuffix mk ts) (encodeMVCCValue value tombstone)
  | None => bPut (appendVersionSuffix mk ts) (encodeMVCCValue value tombstone)
  end.

Definition MVCCPut (key : bytes) (ts : Timestamp) (value : bytes) (txn : option TxnMeta) : BM unit :=
  mvccWrite key ts value false txn.
Definition MVCCDelete (key : bytes) (ts : Timestamp) (txn : option TxnMeta) : BM unit :=
  mvccWrite key ts [] true txn.

Definition mvccWriteCommitted (key : bytes) (ts : Timestamp) (value : bytes) (tombstone : bool) : BM unit :=
  let '(mk, upper) := mvccKeyBounds key in
  do (rawMeta, version) <- writeState mk upper;
  match rawMeta with
  | Some raw =>
      do meta <- blift (lift_meta (decodeMeta raw));
      bfail (WriteIntentError [mkIntent key (mTxn meta)])
  | None =>
      match version with
      | Some vts =>
          if LessEq ts vts then bfail (WriteTooOldError ts (Next vts))
          else bPut (appendVersionSuffix mk ts) (encodeMVCCValue value tombstone)
      | None => bPut (appendVersionSuffix mk ts) (encodeMVCCValue value tombstone)
      end
  end.

Definition MVCCPutCommitted (key : bytes) (ts : Timestamp) (value : bytes) : BM unit :=
  mvccWriteCommitted key ts value false.
Definition MVCCDeleteCommitted (key : bytes) (ts : Timestamp) : BM unit :=
  mvccWriteCommitted key ts [] true.

Definition MVCCRollbackIntent (key : bytes) (txnID : uuid) (seq : Z) : BM unit :=
  let '(mk, _) := mvccKeyBounds key in
  do rawMeta <- bGet mk;
  match rawMeta with
  | None => bret tt
  | Some raw =>
      do meta <- blift (lift_meta (decodeMeta raw));
      if negb (beqb (ID (mTxn meta)) txnID) || (Sequence (mTxn meta) <=? seq) then bret tt
      else
        bDelete (EncodeMVCCKey key (mTimestamp meta)) ;;
        match rollback_index seq (mHistory meta) (length (mHistory meta)) with
        | None => bDelete mk
        | Some idx =>
            match mHistory meta !! idx with
            | None => bret tt (* unreachable: [idx] is in range *)
            | Some ent =>
                let meta := mkMeta (set_Sequence (mTxn meta) (ivSequence ent)) (mTimestamp meta)
                              (take idx (mHistory meta)) in
                bPut mk (encodeMeta meta) ;;
                bPut (EncodeMVCCKey key (mTimestamp meta)) (encodeMVCCValue (ivValue ent) (ivTombstone ent))
            end
        end
  end.

(** [value] is nil for an absent or deleted value, pinned as a tombstone. *)
Definition MVCCLock (key : bytes) (readTS : Timestamp) (value : option bytes) (txn : option TxnMeta) : BM unit :=
  match txn with
  | None => bfail LockNeedsTxn
  | Some _ =>
      mvccWrite key (Next readTS) (default [] value) (match value with None => true | Some _ => false end) txn
  end.

Definition MVCCResolveIntent (key : bytes) (txnID : uuid) (status : TxnStatus) (commitTS : Timestamp) : BM unit :=
  if bool_decide (status = PENDING) then bfail PendingStatus
  else
    let '(mk, _) := mvccKeyBounds key in
    do rawMeta <- bGet mk;
    match rawMeta with
    | None => bret tt
    | Some raw =>
        do meta <- blift (lift_meta (decodeMeta raw));
        if negb (beqb (ID (mTxn meta)) txnID) then bret tt
        else
          bDelete mk ;;
          let provKey := EncodeMVCCKey key (mTimestamp meta) in
          if bool_decide (status = ABORTED) then bDelete provKey
          else if IsEmpty commitTS || Equal commitTS (mTimestamp meta) then bret tt
          else
            do raw <- bGet provKey;
            match raw with
            | None => bfail (NoProvisional key (mTimestamp meta))
            | Some raw => bDelete provKey ;; bPut (EncodeMVCCKey key commitTS) raw
            end
    end.
End Writes.
