(* ===== verification/MvccState.v ===== *)
(** * The abstract state of a user key, and the refinement of writes

    A user key is abstracted to its intent and its versions ([kstate]);
    every write operation of the MVCC layer refines a function on that
    state ([ref_write], [ref_resolve], ...), touches the engine keys of its
    user key only, and leaves the batch as it was when it fails.  The
    invariant [kstate_ok] (an intent's provisional version is the newest) is
    preserved by all of them. *)

From S2P Require Import Prelude Encoding Hlc Keys MvccKey Pebble Enginepb Mvcc MvccView MvccRead MvccWrite.

Record kstate := mkK { k_intent : option MVCCMetadata; k_versions : list (Timestamp * bytes) }.

(** ** Reference operations *)

Definition lookup_version (t : Timestamp) (vs : list version) : option bytes :=
  snd <$> first (fun v => Equal v.1 t) vs.

Definition ref_read (key : bytes) (K : kstate) (ts : Timestamp) (opts : MVCCGetOptions)
    : result mvcc_err (option bytes) :=
  match k_intent K with
  | Some meta =>
      match intent_switch meta ts opts with
      | ReadAt t => ref_versions key (k_versions K) ts opts t ts0
      | SkipAt t => ref_versions key (k_versions K) ts opts ts0 t
      | Blocked => Err (WriteIntentError [mkIntent key (mTxn meta)])
      end
  | None => ref_versions key (k_versions K) ts opts ts0 ts0
  end.

(** Data and tombstone flag of a stored value. *)
Definition decoded (raw : bytes) : bytes * bool :=
  match decodeMVCCValue raw with Ok p => p | Err _ => ([], true) end.

Definition ref_history (meta : MVCCMetadata) (t : TxnMeta) (vs : list version) : list IntentValue :=
  if Epoch (mTxn meta) =? Epoch t then
    match lookup_version (mTimestamp meta) vs with
    | Some raw =>
        boundedHistory (mHistory meta)
          (mkIntentValue (Sequence (mTxn meta)) (decoded raw).1 (decoded raw).2) (HistoryFloor t)
    | None => []
    end
  else [].

(** The intent [t] lays with [value] over the versions [vs]. *)
Definition with_intent (t : TxnMeta) (history : list IntentValue) (raw : bytes) (vs : list version) : kstate :=
  mkK (Some (mkMeta t (WriteTimestamp t) history)) (insert_version (WriteTimestamp t) raw vs).

Definition ref_write (key : bytes) (ts : Timestamp) (value : bytes) (tombstone : bool) (txn : option TxnMeta)
    (K : kstate) : result mvcc_err kstate :=
  let raw := encodeMVCCValue value tombstone in
  match k_intent K, txn with
  | Some meta, Some t =>
      if beqb (ID (mTxn meta)) (ID t) then
        Ok (with_intent t (ref_history meta t (k_versions K)) raw (remove_version (mTimestamp meta) (k_versions K)))
      else Err (WriteIntentError [mkIntent key (mTxn meta)])
  | Some meta, None => Err (WriteIntentError [mkIntent key (mTxn meta)])
  | None, Some t =>
      match head (k_versions K) with
      | Some (v, _) =>
          if LessEq ts v then Err (WriteTooOldError ts (Next v)) else Ok (with_intent t [] raw (k_versions K))
      | None => Ok (with_intent t [] raw (k_versions K))
      end
  | None, None =>
      let ts := match head (k_versions K) with
                | Some (v, _) => if LessEq ts v then Next v else ts
                | None => ts
                end in
      Ok (mkK None (insert_version ts raw (k_versions K)))
  end.

Definition ref_write_committed (key : bytes) (ts : Timestamp) (value : bytes) (tombstone : bool) (K : kstate)
    : result mvcc_err kstate :=
  match k_intent K with
  | Some meta => Err (WriteIntentError [mkIntent key (mTxn meta)])
  | None =>
      match head (k_versions K) with
      | Some (v, _) =>
          if LessEq ts v then Err (WriteTooOldError ts (Next v))
          else Ok (mkK None (insert_version ts (encodeMVCCValue value tombstone) (k_versions K)))
      | None => Ok (mkK None (insert_version ts (encodeMVCCValue value tombstone) (k_versions K)))
      end
  end.

Definition ref_resolve (txnID : uuid) (status : TxnStatus) (commitTS : Timestamp) (K : kstate)
    : result mvcc_err kstate :=
  if bool_decide (status = PENDING) then Err PendingStatus
  else
    Ok (match k_intent K with
        | Some meta =>
            if beqb (ID (mTxn meta)) txnID then
              let vs := remove_version (mTimestamp meta) (k_versions K) in
              if bool_decide (status = ABORTED) then mkK None vs
              else match lookup_version (mTimestamp meta) (k_versions K) with
                   | Some raw =>
                       mkK None (insert_version (if IsEmpty commitTS then mTimestamp meta else commitTS) raw vs)
                   | None => K
                   end
            else K
        | None => K
        end).

(** The newest entry at or below [seq] with the entries before it. *)
Fixpoint restore (seq : Z) (h : list IntentValue) : option (list IntentValue * IntentValue) :=
  match h with
  | [] => None
  | e :: h' =>
      match restore seq h' with
      | Some (l, r) => Some (e :: l, r)
      | None => if ivSequence e <=? seq then Some ([], e) else None
      end
  end.

Definition ref_rollback (txnID : uuid) (seq : Z) (K : kstate) : kstate :=
  match k_intent K with
  | Some meta =>
      if beqb (ID (mTxn meta)) txnID && (seq <? Sequence (mTxn meta)) then
        let vs := remove_version (mTimestamp meta) (k_versions K) in
        match restore seq (mHistory meta) with
        | None => mkK None vs
        | Some (l, e) =>
            mkK (Some (mkMeta (set_Sequence (mTxn meta) (ivSequence e)) (mTimestamp meta) l))
              (insert_version (mTimestamp meta) (encodeMVCCValue (ivValue e) (ivTombstone e)) vs)
        end
      else K
  | None => K
  end.

(** ** Facts about the reference operations *)

Lemma restore_snoc seq l e :
  restore seq (l ++ [e]) = if ivSequence e <=? seq then Some (l, e) else restore seq l.
Proof.
  induction l as [|a l IH]; cbn [restore app]; [done|]. rewrite IH. by destruct (ivSequence e <=? seq).
Qed.

(** The backward index search finds what [restore] returns. *)
Lemma rollback_index_restore seq h n :
  (n <= length h)%nat ->
  match rollback_index seq h n with
  | Some i => exists e, h !! i = Some e /\ restore seq (take n h) = Some (take i h, e)
  | None => restore seq (take n h) = None
  end.
Proof.
  induction n as [|n IH]; intros Hn; [done|]. cbn [rollback_index].
  destruct (lookup_lt_is_Some_2 h n) as [e He]; [lia|]. rewrite He, (take_S_r h n e He), restore_snoc.
  destruct (ivSequence e <=? seq); [by exists e|]. apply IH. lia.
Qed.

Lemma lookup_version_elem t vs raw :
  StronglySorted (fun a b : version => b.1 <t a.1) vs -> lookup_version t vs = Some raw <-> (t, raw) ∈ vs.
Proof.
  unfold lookup_version. induction 1 as [|v vs Hs IH Hv]; cbn [first].
  - split; [done|]. intros H. by apply not_elem_of_nil in H.
  - rewrite elem_of_cons. destruct (Equal v.1 t) eqn:E; tsb.
    + destruct v as [u raw']. cbn in *. subst u. split; [intros [= ->]; by left|].
      intros [[= ->]|Hin]; [done|]. rewrite Forall_forall in Hv. specialize (Hv _ Hin). cbn in Hv. ts_lia.
    + rewrite IH. split; [by right|]. intros [<-|]; [by destruct E|done].
Qed.

Lemma insert_remove_same t raw vs :
  versions_sorted vs -> (t, raw) ∈ vs -> insert_version t raw (remove_version t vs) = vs.
Proof.
  intros Hvs Hin. pose proof Hvs as [Hs Hok]. pose proof (remove_version_sorted t vs Hvs) as Hr.
  assert (Ht : ts_valid t) by (rewrite Forall_forall in Hok; exact (Hok _ Hin)).
  apply versions_ext; [by apply insert_version_sorted|done|]. intros v.
  rewrite elem_of_insert_version by apply Hr. rewrite elem_of_remove_version. split; [naive_solver|].
  intros Hv. destruct (decide (v.1 = t)) as [E|]; [left|naive_solver].
  assert (Hl : lookup_version t vs = Some v.2) by (apply lookup_version_elem; [done|]; rewrite <- E; by destruct v).
  apply lookup_version_elem in Hin; [|done]. destruct v. cbn in *. congruence.
Qed.

(** ** The abstraction *)

Section Abstraction.
Context {P : Pebble} {PL : PebbleLaws P} {C : MetaCodec} {CL : MetaCodecLaws C}.

Definition models (s : store) (k : bytes) (K : kstate) : Prop :=
  exists mo, is_view s k mo (k_versions K) /\
    match mo with None => k_intent K = None | Some raw => decodeMeta raw = k_intent K /\ k_intent K <> None end.

Lemma models_exists s k : store_wf s -> IsLocal k = false -> exists K, models s k K.
Proof.
  intros Hwf Hl. destruct (is_view_exists s k Hwf Hl) as (mo & vs & Hv).
  pose proof (is_view_meta _ _ _ _ Hv) as Hm. destruct mo as [raw|].
  - destruct (wf_meta s Hwf k raw Hl Hm) as (_ & meta & Hd & _). exists (mkK (Some meta) vs), (Some raw). by rewrite Hd.
  - by exists (mkK None vs), None.
Qed.

Lemma models_sorted s k K : models s k K -> versions_sorted (k_versions K).
Proof. intros (mo & [_ H] & _). done. Qed.

Lemma models_meta_valid s k K meta :
  store_wf s -> IsLocal k = false -> models s k K -> k_intent K = Some meta -> ts_valid (mTimestamp meta).
Proof.
  intros Hwf Hl (mo & Hv & Hm) Hi. pose proof (is_view_meta _ _ _ _ Hv) as Hg. destruct mo as [raw|]; [|congruence].
  destruct Hm as [Hm _]. destruct (wf_meta s Hwf k raw Hl Hg) as (_ & m & Hd & Ht). congruence.
Qed.

Lemma models_value_ok s k K v :
  store_wf s -> IsLocal k = false -> models s k K -> v ∈ k_versions K -> value_ok v.2.
Proof.
  intros Hwf Hl (mo & Hv & _) Hin. pose proof Hv as [_ [_ Hok]]. rewrite Forall_forall in Hok.
  destruct v as [t raw]. apply (wf_value s Hwf k t raw); [done|exact (Hok _ Hin)|].
  apply (is_view_version s k mo _ _ _ Hv); [exact (Hok _ Hin)|done].
Qed.

Lemma models_lookup s k K t :
  models s k K -> ts_valid t -> st_get s (vkey k t) = lookup_version t (k_versions K).
Proof.
  intros (mo & Hv & _) Ht. pose proof Hv as [_ [Hs _]].
  destruct (st_get s (vkey k t)) as [raw|] eqn:E.
  - symmetry. apply lookup_version_elem; [done|]. by apply (is_view_version s k mo _ _ _ Hv).
  - destruct (lookup_version t (k_versions K)) as [raw|] eqn:E2; [|done].
    apply lookup_version_elem in E2; [|done]. apply (is_view_version s k mo _ _ _ Hv) in E2; [congruence|done].
Qed.

(** Reads see the abstract state. *)
Lemma MVCCGet_models pb s k K ts opts :
  store_wf s -> IsLocal k = false -> opts_ok ts opts -> models s k K ->
  MVCCGet pb s k ts opts = ref_read k K ts opts.
Proof.
  intros Hwf Hl Ho (mo & [Hv Hvs] & Hm). rewrite (MVCCGet_ref pb s k ts opts mo (k_versions K)) by done.
  unfold ref_get, ref_read. destruct mo as [raw|].
  - destruct Hm as [Hm Hne]. rewrite Hm. by destruct (k_intent K).
  - by rewrite Hm.
Qed.

(** ** Refinement *)

(** [b'] is the batch after an operation on [k] that [ref] describes. *)
Definition refines (b : Batch) (k : bytes) (out : Batch * result mvcc_err unit) (ref : result mvcc_err kstate) : Prop :=
  match ref with
  | Ok K' =>
      out.2 = Ok tt /\ store_wf (b_store out.1) /\ models (b_store out.1) k K' /\
      same_elsewhere (b_store b) (b_store out.1) k
  | Err e => out.2 = Err e /\ b_store out.1 = b_store b
  end.

Lemma append_nil_some raw : raw <> [] -> append_nil raw = Some raw.
Proof. by destruct raw. Qed.

Lemma value_ok_nonempty raw : value_ok raw -> raw <> [].
Proof. intros (d & t & H) ->. done. Qed.

Lemma decoded_eq raw : value_ok raw -> decodeMVCCValue raw = Ok (decoded raw).
Proof. intros (d & t & H). unfold decoded. by rewrite H. Qed.

Lemma models_get_meta s k K :
  store_wf s -> IsLocal k = false -> models s k K ->
  match k_intent K with
  | Some meta => exists raw, st_get s (metaKey k) = Some raw /\ raw <> [] /\ decodeMeta raw = Some meta
  | None => st_get s (metaKey k) = None
  end.
Proof.
  intros Hwf Hl (mo & Hv & Hm). pose proof (is_view_meta _ _ _ _ Hv) as Hg. destruct mo as [raw|].
  - destruct Hm as [Hm Hne]. destruct (wf_meta s Hwf k raw Hl Hg) as (Hraw & _). destruct (k_intent K); [|done]. eauto.
  - by rewrite Hm.
Qed.

Lemma Batch_Get_meta s k K :
  store_wf s -> IsLocal k = false -> models s k K ->
  match k_intent K with
  | Some meta => exists raw, Batch_Get s (metaKey k) = Some raw /\ decodeMeta raw = Some meta
  | None => Batch_Get s (metaKey k) = None
  end.
Proof.
  intros Hwf Hl HK. pose proof (models_get_meta s k K Hwf Hl HK) as H. unfold Batch_Get.
  destruct (k_intent K); [|by rewrite H]. destruct H as (raw & -> & Hne & Hd). exists raw. by rewrite append_nil_some.
Qed.

Lemma Batch_Get_version s k K t :
  store_wf s -> IsLocal k = false -> models s k K -> ts_valid t ->
  Batch_Get s (vkey k t) = lookup_version t (k_versions K).
Proof.
  intros Hwf Hl HK Ht. unfold Batch_Get. rewrite <- (models_lookup s k K t HK Ht).
  destruct (st_get s (vkey k t)) as [raw|] eqn:E; [|done]. apply append_nil_some, value_ok_nonempty.
  by apply (wf_value s Hwf k t).
Qed.

(** The write iterator reports the intent, or the newest version. *)
Lemma writeState_models b k K :
  store_wf (b_store b) -> IsLocal k = false -> models (b_store b) k K ->
  exists wit raw,
    writeState (metaKey k) (upper_of k) b =
      (mkBatch (b_store b) (Some wit) (b_prefixBloom b),
       Ok (match k_intent K with
           | Some _ => (Some raw, None)
           | None => (None, fst <$> head (k_versions K))
           end)) /\
    (k_intent K <> None -> decodeMeta raw = k_intent K).
Proof.
  intros Hwf Hl HK. pose proof (models_get_meta _ k K Hwf Hl HK) as Hmeta. pose proof HK as (mo & Hv & Hm).
  pose proof (is_view_meta _ _ _ _ Hv) as Hg. destruct Hv as [Hv Hvs].
  unfold writeState.
  set (wit := match b_wit b with None => _ | Some it => _ end).
  assert (Hview : it_view wit = key_view k mo (k_versions K)).
  { subst wit. destruct (b_wit b); [by rewrite set_options_view|by rewrite new_view]. }
  set (wit' := if b_prefixBloom b then _ else _).
  assert (Hcur : it_cur wit' = head (key_view k mo (k_versions K))).
  { destruct (seek_prefix_at (mkIter wit (b_prefixBloom b) true) (metaKey k)) as (pre & (_ & _ & Hc & _) & _).
    - unfold view. cbn [pit]. rewrite Hview, <- Hv. apply bounded_sorted.
    - unfold view. cbn [pit]. rewrite Hview. eapply Forall_impl; [by apply key_view_prefix|]. intros e ->.
      rewrite <- (app_nil_r (metaKey k)) at 2. symmetry. by apply split_prefix_engine_key.
    - unfold view in Hc. cbn [pit] in Hc. rewrite Hview in Hc. subst wit'.
      transitivity (head (from_key (metaKey k) (key_view k mo (k_versions K)))).
      + rewrite <- Hc. unfold cur, SeekPrefixGE, with_it. cbn [prefix pit refreshOnRebound].
        by destruct (b_prefixBloom b).
      + f_equal. rewrite <- Hv. apply from_key_all. intros e He. apply elem_of_bounded in He. tauto. }
  clearbody wit'. rewrite Hcur. unfold key_view. destruct mo as [raw|].
  - destruct Hm as [Hm Hne]. exists wit', raw. cbn [app head]. rewrite beqb_refl.
    destruct (k_intent K) as [meta|]; [|done]. destruct Hmeta as (raw' & Hg' & Hraw & Hd).
    assert (raw' = raw) as -> by congruence. by rewrite append_nil_some.
  - exists wit', []. rewrite Hm. cbn [app]. destruct (k_versions K) as [|[v raw] vs]; [done|].
    cbn [map head ventry fst snd fmap option_fmap option_map].
    destruct (beqb (vkey k v) (metaKey k)) eqn:Eb; [apply beqb_eq in Eb; by apply vkey_not_meta in Eb|].
    destruct Hvs as [_ Hok]. inversion Hok as [|? ? Hval]; subst. rewrite Decode_vkey by apply Hval. done.
Qed.

(** From [s] to [s'] by changes to [k] alone, which is then [K']. *)
Definition moves (s s' : store) (k : bytes) (K' : kstate) : Prop :=
  store_wf s' /\ models s' k K' /\ same_elsewhere s s' k.

Lemma moves_refl s k K : store_wf s -> models s k K -> moves s s k K.
Proof. done. Qed.

Lemma moves_set_version s s' k K t raw :
  IsLocal k = false -> bytes_ok k -> ts_valid t -> value_ok raw -> moves s s' k K ->
  moves s (Batch_Put s' (vkey k t) raw) k (mkK (k_intent K) (insert_version t raw (k_versions K))).
Proof.
  intros Hl Hk Ht Hr (Hwf & (mo & Hv & Hm) & Hse). split; [by apply wf_set_version|]. split.
  - exists mo. split; [by apply view_set_version|done].
  - eapply same_elsewhere_trans; [done|]. apply same_elsewhere_set_version.
Qed.

Lemma moves_del_version s s' k K t :
  IsLocal k = false -> ts_valid t -> moves s s' k K ->
  moves s (Batch_Delete s' (vkey k t)) k (mkK (k_intent K) (remove_version t (k_versions K))).
Proof.
  intros Hl Ht (Hwf & (mo & Hv & Hm) & Hse). split; [by apply wf_del|]. split.
  - exists mo. split; [by apply view_del_version|done].
  - eapply same_elsewhere_trans; [done|]. apply same_elsewhere_del_version.
Qed.

Lemma moves_set_meta s s' k K meta :
  IsLocal k = false -> bytes_ok k -> meta_ok meta -> ts_valid (mTimestamp meta) -> moves s s' k K ->
  moves s (Batch_Put s' (metaKey k) (encodeMeta meta)) k (mkK (Some meta) (k_versions K)).
Proof.
  intros Hl Hk Hmo Ht (Hwf & (mo & Hv & Hm) & Hse).
  assert (Hd : decodeMeta (encodeMeta meta) = Some meta) by (by apply decode_encode_meta).
  assert (Hne : encodeMeta meta <> []) by (destruct (encodeMeta_nonempty meta) as (c & r & ->); done).
  split; [by eapply wf_set_meta|]. split.
  - exists (Some (encodeMeta meta)). split; [by eapply view_set_meta|done].
  - eapply same_elsewhere_trans; [done|]. apply same_elsewhere_set_meta.
Qed.

Lemma moves_del_meta s s' k K :
  IsLocal k = false -> moves s s' k K ->
  moves s (Batch_Delete s' (metaKey k)) k (mkK None (k_versions K)).
Proof.
  intros Hl (Hwf & (mo & Hv & Hm) & Hse). split; [by apply wf_del|]. split.
  - exists None. split; [by eapply view_del_meta|done].
  - eapply same_elsewhere_trans; [done|]. apply same_elsewhere_del_meta.
Qed.

Lemma refines_ok b k out K' : out.2 = Ok tt -> moves (b_store b) (b_store out.1) k K' -> refines b k out (Ok K').
Proof. intros H (H1 & H2 & H3). done. Qed.

Lemma refines_err b k out e : out.2 = Err e -> b_store out.1 = b_store b -> refines b k out (Err e).
Proof. done. Qed.

Lemma refines_same_store b b' k out ref : b_store b = b_store b' -> refines b k out ref -> refines b' k out ref.
Proof. unfold refines. by intros ->. Qed.

(** What a write needs of its arguments: timestamps in range (a
    non-transactional write may be ratcheted past the newest version). *)
Definition write_ok (k : bytes) (ts : Timestamp) (txn : option TxnMeta) (K : kstate) : Prop :=
  IsLocal k = false /\ bytes_ok k /\
  match txn with
  | Some t => length (ID t) = 16%nat /\ ts_valid (WriteTimestamp t)
  | None => ts_valid ts /\ Forall (fun v => v.1 <> ts_max) (k_versions K)
  end.

Lemma rewrite_history_models b k K meta t :
  store_wf (b_store b) -> IsLocal k = false -> models (b_store b) k K -> k_intent K = Some meta ->
  rewrite_history (metaKey k) meta t b = (b, Ok (ref_history meta t (k_versions K))).
Proof.
  intros Hwf Hl HK Hi. unfold rewrite_history, ref_history. destruct (Epoch (mTxn meta) =? Epoch t); [|done].
  unfold bbind, bGet. cbn beta. rewrite appendVersionSuffix_vkey.
  rewrite (Batch_Get_version _ k K) by (done || by eapply models_meta_valid).
  destruct (lookup_version (mTimestamp meta) (k_versions K)) as [raw|] eqn:E; [|done].
  apply lookup_version_elem in E; [|by apply (models_sorted _ k K HK)].
  unfold blift. rewrite decoded_eq by (by apply (models_value_ok (b_store b) k K (mTimestamp meta, raw))).
  cbn [lift_value rmap_err]. by destruct (decoded raw).
Qed.

Lemma Next_valid t : ts_ok t -> t <> ts_max -> ts_valid (Next t).
Proof.
  intros H1 H2. split; [by apply Next_ok|]. pose proof (Next_gt t H1 H2). intros E. rewrite E in *.
  revert H1 H. unfold ts_ok, ts_lt. cbn. lia.
Qed.

Lemma put_intent_refines b b1 b2 k K1 t hist raw vs :
  IsLocal k = false -> bytes_ok k -> length (ID t) = 16%nat -> ts_valid (WriteTimestamp t) -> value_ok raw ->
  k_versions K1 = vs -> moves (b_store b1) (b_store b2) k K1 -> b_store b = b_store b1 ->
  refines b k
    ((bPut (metaKey k) (encodeMeta (mkMeta t (WriteTimestamp t) hist)) ;;
      bPut (vkey k (WriteTimestamp t)) raw) b2)
    (Ok (with_intent t hist raw vs)).
Proof.
  intros Hl Hk Hid Ht Hr <- Hmv Hb. apply refines_ok; [done|]. unfold with_intent. rewrite Hb. cbn.
  apply (moves_set_version _ _ k (mkK (Some (mkMeta t (WriteTimestamp t) hist)) (k_versions K1))); [done..|].
  by apply moves_set_meta.
Qed.

Lemma mvccWrite_refines b k K ts value tomb txn :
  store_wf (b_store b) -> models (b_store b) k K -> write_ok k ts txn K ->
  refines b k (mvccWrite k ts value tomb txn b) (ref_write k ts value tomb txn K).
Proof.
  intros Hwf HK (Hl & Hk & Hok). unfold mvccWrite, ref_write. rewrite mvccKeyBounds_pair.
  destruct (writeState_models b k K Hwf Hl HK) as (wit & raw & Hws & Hraw).
  unfold bbind at 1. rewrite Hws. set (b1 := mkBatch (b_store b) (Some wit) (b_prefixBloom b)).
  assert (HK1 : models (b_store b1) k K) by done. assert (Hwf1 : store_wf (b_store b1)) by done.
  destruct (k_intent K) as [meta|] eqn:Ei.
  - specialize (Hraw ltac:(done)). unfold bbind at 1. unfold bbind at 1. unfold blift at 1. rewrite Hraw.
    cbn [lift_meta]. destruct txn as [t|]; [|by apply refines_err].
    unfold foreign_txn, own_txn. destruct (beqb (ID (mTxn meta)) (ID t)) eqn:Eid; cbn [negb]; [|by apply refines_err].
    unfold bbind at 1. rewrite (rewrite_history_models b1 k K meta t Hwf1 Hl HK1 Ei).
    unfold bbind at 1. cbn [bDelete bret]. rewrite !appendVersionSuffix_vkey.
    destruct Hok as [Hid Hval]. pose proof (models_meta_valid _ k K meta Hwf Hl HK Ei) as Hmv.
    apply (put_intent_refines b b1 _ k (mkK (k_intent K) (remove_version (mTimestamp meta) (k_versions K))));
      [done..|apply encode_value_ok|done|by apply moves_del_version|done].
  - clear Hraw. destruct txn as [t|].
    + destruct Hok as [Hid Hval].
      assert (Hgood : refines b k
        ((bPut (metaKey k) (encodeMeta (mkMeta t (WriteTimestamp t) [])) ;;
          bPut (vkey k (WriteTimestamp t)) (encodeMVCCValue value tomb)) b1)
        (Ok (with_intent t [] (encodeMVCCValue value tomb) (k_versions K)))).
      { apply (put_intent_refines b b1 _ k K); [done..|apply encode_value_ok|done|by apply moves_refl|done]. }
      destruct (head (k_versions K)) as [[v raw']|]; cbn [fmap option_fmap option_map fst].
      * unfold bbind at 1. destruct (LessEq ts v); [by apply refines_err|]. cbn [bret]. by rewrite appendVersionSuffix_vkey.
      * unfold bbind at 1. cbn [bret]. by rewrite appendVersionSuffix_vkey.
    + destruct Hok as [Hts Hmax].
      assert (Hgood : forall u, ts_valid u ->
        refines b k (bPut (vkey k u) (encodeMVCCValue value tomb) b1)
          (Ok (mkK None (insert_version u (encodeMVCCValue value tomb) (k_versions K))))).
      { intros u Hu. apply refines_ok; [done|]. rewrite <- Ei.
        apply moves_set_version; [done..|apply encode_value_ok|by apply moves_refl]. }
      destruct (k_versions K) as [|[v raw'] vs] eqn:Ev; cbn [head fmap option_fmap option_map fst].
      * unfold bbind at 1. cbn [bret]. rewrite appendVersionSuffix_vkey. by apply Hgood.
      * unfold bbind at 1. destruct (LessEq ts v); cbn [bret]; rewrite appendVersionSuffix_vkey; apply Hgood; [|done].
        pose proof (models_sorted _ k K HK) as [_ Hvok]. rewrite Ev in Hvok. inversion Hvok as [|? ? [Hv _]]; subst.
        inversion Hmax; subst. by apply Next_valid.
Qed.

Lemma mvccWriteCommitted_refines b k K ts value tomb :
  store_wf (b_store b) -> models (b_store b) k K -> IsLocal k = false -> bytes_ok k -> ts_valid ts ->
  refines b k (mvccWriteCommitted k ts value tomb b) (ref_write_committed k ts value tomb K).
Proof.
  intros Hwf HK Hl Hk Hts. unfold mvccWriteCommitted, ref_write_committed. rewrite mvccKeyBounds_pair.
  destruct (writeState_models b k K Hwf Hl HK) as (wit & raw & Hws & Hraw).
  unfold bbind at 1. rewrite Hws. set (b1 := mkBatch (b_store b) (Some wit) (b_prefixBloom b)).
  assert (Hgood : k_intent K = None -> refines b k
    (bPut (appendVersionSuffix (metaKey k) ts) (encodeMVCCValue value tomb) b1)
    (Ok (mkK None (insert_version ts (encodeMVCCValue value tomb) (k_versions K))))).
  { intros Ei. rewrite appendVersionSuffix_vkey. apply refines_ok; [done|]. rewrite <- Ei.
    apply moves_set_version; [done..|apply encode_value_ok|by apply moves_refl]. }
  destruct (k_intent K) as [meta|].
  - specialize (Hraw ltac:(done)). unfold bbind, blift. rewrite Hraw. by apply refines_err.
  - destruct (head (k_versions K)) as [[v raw']|]; cbn [fmap option_fmap option_map fst].
    + destruct (LessEq ts v); [by apply refines_err|by apply Hgood].
    + by apply Hgood.
Qed.

(** An intent's provisional version is its key's newest version. *)
Definition kstate_ok (K : kstate) : Prop :=
  match k_intent K with
  | None => True
  | Some meta => meta_ok meta /\ exists raw rest, k_versions K = (mTimestamp meta, raw) :: rest
  end.

Lemma provisional_lookup K meta raw rest :
  k_intent K = Some meta -> k_versions K = (mTimestamp meta, raw) :: rest ->
  lookup_version (mTimestamp meta) (k_versions K) = Some raw.
Proof.
  intros Hi ->. unfold lookup_version. cbn [first fst].
  assert (Equal (mTimestamp meta) (mTimestamp meta) = true) as -> by (by apply Equal_eq). done.
Qed.

Lemma MVCCResolveIntent_refines b k K txnID status commitTS :
  store_wf (b_store b) -> models (b_store b) k K -> kstate_ok K -> IsLocal k = false -> bytes_ok k ->
  ts_ok commitTS ->
  refines b k (MVCCResolveIntent k txnID status commitTS b) (ref_resolve txnID status commitTS K).
Proof.
  intros Hwf HK HKok Hl Hk Hc. unfold MVCCResolveIntent, ref_resolve. rewrite mvccKeyBounds_pair.
  case_bool_decide as Hp; [by apply refines_err|].
  pose proof (Batch_Get_meta _ k K Hwf Hl HK) as Hg. unfold bbind at 1. cbn [bGet].
  assert (Hsame : refines b k (bret tt b) (Ok K)) by (by apply refines_ok).
  destruct (k_intent K) as [meta|] eqn:Ei.
  2: { by rewrite Hg. }
  destruct Hg as (raw0 & -> & Hd). unfold bbind at 1. unfold blift. rewrite Hd. cbn [lift_meta].
  destruct (beqb (ID (mTxn meta)) txnID) eqn:Eid; cbn [negb]; [|done].
  pose proof (models_meta_valid _ k K meta Hwf Hl HK Ei) as Hmv.
  rewrite EncodeMVCCKey_vkey by apply Hmv. unfold kstate_ok in HKok. rewrite Ei in HKok.
  destruct HKok as (_ & raw & rest & Hvs). pose proof (provisional_lookup K meta raw rest Ei Hvs) as Hlk. rewrite Hlk.
  pose proof (models_sorted _ k K HK) as Hsort.
  assert (Hin : (mTimestamp meta, raw) ∈ k_versions K) by (rewrite Hvs; apply list_elem_of_here).
  assert (Hmv1 : moves (b_store b) (Batch_Delete (b_store b) (metaKey k)) k (mkK None (k_versions K)))
    by (by apply moves_del_meta).
  unfold bbind at 1. cbn [bDelete].
  case_bool_decide as Ha.
  { apply refines_ok; [done|]. by apply (moves_del_version _ _ k (mkK None (k_versions K))). }
  destruct (IsEmpty commitTS) eqn:Ee; cbn [orb]; tsb.
  { apply refines_ok; [done|]. by rewrite insert_remove_same. }
  destruct (Equal commitTS (mTimestamp meta)) eqn:Eq; tsb.
  { apply refines_ok; [done|]. by rewrite Eq, insert_remove_same. }
  rewrite EncodeMVCCKey_vkey by done. unfold bbind at 1. cbn [bGet b_store b_with_store].
  destruct Hmv1 as (Hwf1 & HK1 & Hse1).
  rewrite (Batch_Get_version _ k (mkK None (k_versions K))) by done. cbn [k_versions]. rewrite Hlk.
  apply refines_ok; [done|]. cbn [fst snd bbind bDelete bPut b_store b_with_store].
  apply (moves_set_version _ _ k (mkK None (remove_version (mTimestamp meta) (k_versions K)))); [done..| |].
  - by apply (models_value_ok (b_store b) k K (mTimestamp meta, raw)).
  - by apply (moves_del_version _ _ k (mkK None (k_versions K))).
Qed.

Lemma MVCCRollbackIntent_refines b k K txnID seq :
  store_wf (b_store b) -> models (b_store b) k K -> kstate_ok K -> IsLocal k = false -> bytes_ok k ->
  refines b k (MVCCRollbackIntent k txnID seq b) (Ok (ref_rollback txnID seq K)).
Proof.
  intros Hwf HK HKok Hl Hk. unfold MVCCRollbackIntent, ref_rollback. rewrite mvccKeyBounds_pair.
  pose proof (Batch_Get_meta _ k K Hwf Hl HK) as Hg. unfold bbind at 1. cbn [bGet].
  assert (Hsame : refines b k (bret tt b) (Ok K)) by (by apply refines_ok).
  destruct (k_intent K) as [meta|] eqn:Ei; [|by rewrite Hg].
  destruct Hg as (raw0 & -> & Hd). unfold bbind at 1. unfold blift. rewrite Hd. cbn [lift_meta].
  rewrite Z.ltb_antisym. destruct (beqb (ID (mTxn meta)) txnID); cbn [negb andb orb]; [|done].
  destruct (Sequence (mTxn meta) <=? seq); cbn [negb]; [done|].
  pose proof (models_meta_valid _ k K meta Hwf Hl HK Ei) as Hmv. unfold kstate_ok in HKok. rewrite Ei in HKok.
  destruct HKok as (Hmo & _). rewrite EncodeMVCCKey_vkey by apply Hmv. unfold bbind at 1. cbn [bDelete].
  assert (Hmv1 : moves (b_store b) (Batch_Delete (b_store b) (vkey k (mTimestamp meta))) k
    (mkK (k_intent K) (remove_version (mTimestamp meta) (k_versions K)))) by (by apply moves_del_version).
  pose proof (rollback_index_restore seq (mHistory meta) (length (mHistory meta)) (le_n _)) as Hri.
  rewrite firstn_all in Hri. destruct (rollback_index seq (mHistory meta) (length (mHistory meta))) as [i|].
  - destruct Hri as (e & He & ->). rewrite He. apply refines_ok; [done|].
    cbn [fst snd bbind bPut b_store b_with_store mTimestamp]. rewrite EncodeMVCCKey_vkey by apply Hmv.
    apply (moves_set_version _ _ k (mkK (Some (mkMeta (set_Sequence (mTxn meta) (ivSequence e)) (mTimestamp meta)
      (take i (mHistory meta)))) (remove_version (mTimestamp meta) (k_versions K)))); [done..|apply encode_value_ok|].
    by apply (moves_set_meta _ _ k (mkK (k_intent K) (remove_version (mTimestamp meta) (k_versions K)))).
  - rewrite Hri. apply refines_ok; [done|]. by apply (moves_del_meta _ _ _ _ Hl Hmv1).
Qed.

(** ** The invariant *)

(** A transactional write lands above everything its key has: its
    timestamp is at or above the one it checks (or above every version,
    for a locking read), and does not move its own intent backwards. *)
Definition write_forward (ts : Timestamp) (txn : option TxnMeta) (K : kstate) : Prop :=
  match txn with
  | None => True
  | Some t =>
      match k_intent K with
      | Some meta => mTimestamp meta <=t WriteTimestamp t
      | None => ts <=t WriteTimestamp t \/ Forall (fun v => v.1 <t WriteTimestamp t) (k_versions K)
      end
  end.

Lemma insert_version_top t raw vs :
  Forall (fun v : version => v.1 <t t) vs -> insert_version t raw vs = (t, raw) :: vs.
Proof.
  destruct vs as [|v vs]; [done|]. intros H. inversion H; subst. cbn [insert_version].
  assert (Less v.1 t = true) as -> by (by apply Less_lt). done.
Qed.

(** Below the newest version, and so below anything at or above it. *)
Lemma below_head v vs t :
  versions_sorted (v :: vs) -> v.1 <t t -> Forall (fun u : version => u.1 <t t) (v :: vs).
Proof.
  intros [Hs _] Hlt. inversion Hs as [|? ? _ Hf]; subst. constructor; [done|].
  eapply Forall_impl; [exact Hf|]. intros u Hu. cbn in Hu. ts_lia.
Qed.

Lemma remove_head t raw vs :
  versions_sorted ((t, raw) :: vs) -> remove_version t ((t, raw) :: vs) = vs /\ Forall (fun u : version => u.1 <t t) vs.
Proof.
  intros [Hs _]. inversion Hs as [|? ? _ Hf]; subst. split; [|exact Hf].
  unfold remove_version. cbn [List.filter fst]. assert (Equal t t = true) as -> by (by apply Equal_eq). cbn [negb].
  apply List.forallb_filter_id. apply forallb_forall. intros u Hu. apply list_elem_of_In in Hu.
  rewrite Forall_forall in Hf. specialize (Hf u Hu). cbn in Hf. apply negb_true_iff, Equal_neq. intros E. rewrite E in Hf. ts_lia.
Qed.

Lemma models_fun s k K K' : models s k K -> models s k K' -> K = K'.
Proof.
  intros (mo & Hv & Hm) (mo' & Hv' & Hm').
  assert (mo = mo') as <- by (rewrite <- (is_view_meta _ _ _ _ Hv); by eapply is_view_meta).
  assert (k_versions K = k_versions K') as E.
  { pose proof Hv as [_ Hs]. pose proof Hv' as [_ Hs']. apply versions_ext; [done..|]. intros [t raw].
    assert (Hval : forall l, versions_sorted l -> (t, raw) ∈ l -> ts_valid t).
    { intros l [_ Hok] Hin. rewrite Forall_forall in Hok. exact (Hok _ Hin). }
    split; intros Hin; (assert (Ht : ts_valid t) by (eapply Hval; [|exact Hin]; assumption)).
    - apply (is_view_version _ _ _ _ _ _ Hv' Ht). by apply (is_view_version _ _ _ _ _ _ Hv Ht).
    - apply (is_view_version _ _ _ _ _ _ Hv Ht). by apply (is_view_version _ _ _ _ _ _ Hv' Ht). }
  destruct K as [i vs], K' as [i' vs'], mo; cbn in *; subst vs'; f_equal; [|congruence].
  destruct Hm as [Hm _], Hm' as [Hm' _]. congruence.
Qed.

Lemma write_top_below ts v t : LessEq ts v = false -> ts <=t t -> v <t t.
Proof. intros H1 H2. tsb. ts_lia. Qed.

(** The provisional versions of a transactional write are on top. *)
Lemma ref_write_intent_shape k ts value tomb t K K' :
  kstate_ok K -> versions_sorted (k_versions K) -> write_forward ts (Some t) K ->
  ref_write k ts value tomb (Some t) K = Ok K' ->
  exists hist rest,
    K' = mkK (Some (mkMeta t (WriteTimestamp t) hist)) ((WriteTimestamp t, encodeMVCCValue value tomb) :: rest) /\
    Forall (fun v : version => v.1 <t WriteTimestamp t) rest /\
    match k_intent K with
    | Some meta => beqb (ID (mTxn meta)) (ID t) = true /\ hist = ref_history meta t (k_versions K) /\
                   rest = remove_version (mTimestamp meta) (k_versions K)
    | None => hist = [] /\ rest = k_versions K
    end.
Proof.
  intros HK Hs Hfw Hw. unfold ref_write in Hw. unfold kstate_ok, write_forward in *. destruct (k_intent K) as [meta|].
  - destruct (beqb (ID (mTxn meta)) (ID t)); [|done]. injection Hw as <-. destruct HK as (_ & raw & rest & Hvs).
    rewrite Hvs in *. destruct (remove_head _ _ _ Hs) as [-> Hrest].
    assert (Hb : Forall (fun v : version => v.1 <t WriteTimestamp t) rest).
    { eapply Forall_impl; [exact Hrest|]. intros u Hu. cbn in Hu. ts_lia. }
    eexists _, rest. split; [|split; [exact Hb|split; [done|split; [reflexivity|done]]]].
    unfold with_intent. by rewrite insert_version_top.
  - assert (Hb : Forall (fun v : version => v.1 <t WriteTimestamp t) (k_versions K) /\
                 Ok (with_intent t [] (encodeMVCCValue value tomb) (k_versions K)) = Ok (E := mvcc_err) K').
    { destruct (k_versions K) as [|[v raw] vs] eqn:Ev; cbn [head] in Hw; [done|].
      destruct (LessEq ts v) eqn:El; [done|]. split; [|done]. destruct Hfw as [Hfw|]; [|done].
      apply below_head; [done|]. by apply (write_top_below ts). }
    destruct Hb as [Hb [= <-]]. exists [], (k_versions K). split; [|done]. unfold with_intent.
    by rewrite insert_version_top.
Qed.

Lemma ref_write_ok k ts value tomb txn K K' :
  kstate_ok K -> versions_sorted (k_versions K) -> write_forward ts txn K -> write_ok k ts txn K ->
  ref_write k ts value tomb txn K = Ok K' -> kstate_ok K'.
Proof.
  intros HK Hs Hf (_ & _ & Hok) Hw. destruct txn as [t|].
  - destruct (ref_write_intent_shape k ts value tomb t K K') as (hist & rest & -> & _ & _); [done..|].
    split; [apply Hok|eauto].
  - unfold ref_write in Hw. destruct (k_intent K) as [meta|]; [done|]. by injection Hw as <-.
Qed.

Lemma ref_write_committed_ok k ts value tomb K K' :
  ref_write_committed k ts value tomb K = Ok K' -> kstate_ok K'.
Proof.
  unfold ref_write_committed. destruct (k_intent K); [done|]. intros H. repeat case_match; simplify_eq; done.
Qed.

Lemma ref_resolve_ok id st ts K K' : kstate_ok K -> ref_resolve id st ts K = Ok K' -> kstate_ok K'.
Proof.
  intros HK. unfold ref_resolve. case_bool_decide; [done|]. intros [= <-]. unfold kstate_ok in *.
  destruct (k_intent K) as [meta|] eqn:Ei; [|by rewrite Ei].
  destruct (beqb _ _); [|by rewrite Ei]. case_bool_decide; [done|].
  destruct (lookup_version _ _); [done|]. by rewrite Ei.
Qed.

Lemma ref_rollback_ok id seq K : kstate_ok K -> versions_sorted (k_versions K) -> kstate_ok (ref_rollback id seq K).
Proof.
  intros HK Hs. unfold ref_rollback. destruct (k_intent K) as [meta|] eqn:Ei; [|done].
  destruct (_ && _); [|done]. destruct (restore seq (mHistory meta)) as [[l e]|]; [|done].
  unfold kstate_ok in *. rewrite Ei in HK. destruct HK as (Hm & raw & rest & Hvs). split; [done|].
  rewrite Hvs in *. destruct (remove_head _ _ _ Hs) as [-> Hb]. rewrite insert_version_top by done. cbn. eauto.
Qed.

(** A store in which every user key has a valid abstract state. *)
Definition store_ok (s : store) : Prop :=
  store_wf s /\ forall k K, IsLocal k = false -> models s k K -> kstate_ok K.

Lemma store_ok_moves s s' k K' : store_ok s -> IsLocal k = false -> moves s s' k K' -> kstate_ok K' -> store_ok s'.
Proof.
  intros [Hwf Hok] Hl (Hwf' & HK' & Hse) HKok. split; [done|]. intros k2 K2 Hl2 H2.
  destruct (decide (k2 = k)) as [->|Hne]; [by rewrite (models_fun _ _ _ _ H2 HK')|].
  destruct (models_exists s k2 Hwf Hl2) as (K & mo & Hv & Hm).
  assert (HKm : models s k2 K) by (by exists mo).
  assert (HKm' : models s' k2 K) by (exists mo; split; [by apply (same_elsewhere_view s s' k)|done]).
  rewrite (models_fun _ _ _ _ H2 HKm'). by apply (Hok k2).
Qed.

(** An operation that refines [ref] keeps the store valid. *)
Lemma refines_store_ok b k out ref :
  store_ok (b_store b) -> IsLocal k = false -> refines b k out ref ->
  (forall K', ref = Ok K' -> kstate_ok K') -> store_ok (b_store out.1).
Proof.
  intros Hs Hl Hr HK. destruct ref as [K'|e].
  - destruct Hr as (_ & H1 & H2 & H3). eapply store_ok_moves; [done..|by split|by apply HK].
  - destruct Hr as [_ ->]. done.
Qed.
End Abstraction.
