(* ===== verification/MvccTxn.v ===== *)
(** * What transactions see of MVCC writes

    The properties of the write path that make transactions correct, on
    the concrete operations: the store invariant over any sequence of
    operations, read-your-writes, isolation of intents, commit and abort of
    a series of writes, and savepoint rollback. *)

From S2P Require Import Prelude Encoding Hlc Keys MvccKey Pebble Enginepb Mvcc MvccView MvccRead MvccWrite MvccState.

Section Operations.
Context {P : Pebble} {PL : PebbleLaws P} {C : MetaCodec} {CL : MetaCodecLaws C}.

(** ** Sequences of operations *)

Inductive mvcc_op :=
| OpWrite (k : bytes) (ts : Timestamp) (value : bytes) (tombstone : bool) (txn : option TxnMeta)
| OpCommitted (k : bytes) (ts : Timestamp) (value : bytes) (tombstone : bool)
| OpLock (k : bytes) (readTS : Timestamp) (value : option bytes) (txn : option TxnMeta)
| OpResolve (k : bytes) (txnID : uuid) (status : TxnStatus) (commitTS : Timestamp)
| OpRollback (k : bytes) (txnID : uuid) (seq : Z).

Definition run_op (op : mvcc_op) : BM unit :=
  match op with
  | OpWrite k ts value tombstone txn => mvccWrite k ts value tombstone txn
  | OpCommitted k ts value tombstone => mvccWriteCommitted k ts value tombstone
  | OpLock k readTS value txn => MVCCLock k readTS value txn
  | OpResolve k txnID status commitTS => MVCCResolveIntent k txnID status commitTS
  | OpRollback k txnID seq => MVCCRollbackIntent k txnID seq
  end.

(** The state [K] its key is in when the operation runs. *)
Definition op_pre (op : mvcc_op) (K : kstate) : Prop :=
  match op with
  | OpWrite k ts _ _ txn => write_ok k ts txn K /\ write_forward ts txn K
  | OpCommitted k ts _ _ => IsLocal k = false /\ bytes_ok k /\ ts_valid ts
  | OpLock k readTS _ txn =>
      txn <> None -> write_ok k (Next readTS) txn K /\ write_forward (Next readTS) txn K
  | OpResolve k _ _ commitTS => IsLocal k = false /\ bytes_ok k /\ ts_ok commitTS
  | OpRollback k _ _ => IsLocal k = false /\ bytes_ok k
  end.

Definition op_key (op : mvcc_op) : bytes :=
  match op with
  | OpWrite k _ _ _ _ | OpCommitted k _ _ _ | OpLock k _ _ _ | OpResolve k _ _ _ | OpRollback k _ _ => k
  end.

(** A batch evolves by operations, failed ones included. *)
Inductive ops_run : Batch -> Batch -> Prop :=
| ops_nil b : ops_run b b
| ops_step b b' op K :
    models (b_store b) (op_key op) K -> op_pre op K -> ops_run (run_op op b).1 b' -> ops_run b b'.

Lemma mvccWrite_store_ok b k K ts value tomb txn :
  store_ok (b_store b) -> models (b_store b) k K -> write_ok k ts txn K -> write_forward ts txn K ->
  store_ok (b_store (mvccWrite k ts value tomb txn b).1).
Proof.
  intros Hs HK Hw Hf. pose proof Hs as [Hwf Hok]. pose proof Hw as (Hl & _).
  eapply refines_store_ok; [done..|by apply (mvccWrite_refines b k K)|].
  intros K' H. eapply ref_write_ok; [by apply (Hok k)|by eapply models_sorted|done..|exact H].
Qed.

Lemma run_op_store_ok b op K :
  store_ok (b_store b) -> models (b_store b) (op_key op) K -> op_pre op K -> store_ok (b_store (run_op op b).1).
Proof.
  intros Hs HK Hpre. pose proof Hs as [Hwf Hok]. destruct op; cbn [op_key run_op op_pre] in *.
  - destruct Hpre. by eapply mvccWrite_store_ok.
  - destruct Hpre as (Hl & Hk & Ht). eapply refines_store_ok; [done..|by apply (mvccWriteCommitted_refines b k K)|].
    intros K'. apply ref_write_committed_ok.
  - unfold MVCCLock. destruct txn as [t|]; [|done]. destruct (Hpre ltac:(done)). by eapply mvccWrite_store_ok.
  - destruct Hpre as (Hl & Hk & Ht).
    eapply refines_store_ok; [done..|apply (MVCCResolveIntent_refines b k K); try done; by apply (Hok k)|].
    intros K'. apply ref_resolve_ok. by apply (Hok k).
  - destruct Hpre as (Hl & Hk).
    eapply refines_store_ok; [done..|apply (MVCCRollbackIntent_refines b k K); try done; by apply (Hok k)|].
    intros K' [= <-]. apply ref_rollback_ok; [by apply (Hok k)|by eapply models_sorted].
Qed.

(** C7: Every batch reached by MVCC operations (writes, one-phase writes,
    locking reads, intent resolutions, savepoint rollbacks, failed or not,
    on any keys) keeps the storage invariant: metadata and values decode,
    and the provisional version of every intent exists and is the newest
    version of its key. *)
Theorem mvcc_ops_preserve_invariant b b' :
  store_ok (b_store b) -> ops_run b b' -> store_ok (b_store b').
Proof. intros Hs Hr. induction Hr as [|b b' op K HK Hpre Hr IH]; [done|]. by eapply IH, run_op_store_ok. Qed.

(** ** Reads after a write *)

Lemma read_value_encode value tomb :
  read_value (encodeMVCCValue value tomb) = Ok (if tomb then None else append_nil value).
Proof. by destruct tomb. Qed.

Lemma read_own_intent k meta raw rest ts opts t :
  optTxn opts = Some t -> beqb (ID (mTxn meta)) (ID t) = true -> Epoch (mTxn meta) = Epoch t ->
  ts_valid (mTimestamp meta) ->
  ref_read k (mkK (Some meta) ((mTimestamp meta, raw) :: rest)) ts opts = read_value raw.
Proof.
  intros Ho Hid He Hv. unfold ref_read, intent_switch, own_txn. cbn [k_intent k_versions].
  rewrite Ho, Hid. rewrite bool_decide_eq_true_2 by (cbn; by rewrite He).
  unfold ref_versions. assert (IsEmpty (mTimestamp meta) = false) as -> by (apply IsEmpty_neq, Hv).
  cbn [negb first fst]. assert (Equal (mTimestamp meta) (mTimestamp meta) = true) as -> by (by apply Equal_eq). done.
Qed.

(** Read your writes: after a successful transactional put or delete,
    the transaction reads the key's new value at any timestamp. *)
Theorem mvccWrite_read_own pb b b' k ts value tomb t opts readTS K :
  store_ok (b_store b) -> models (b_store b) k K -> write_ok k ts (Some t) K -> write_forward ts (Some t) K ->
  mvccWrite k ts value tomb (Some t) b = (b', Ok tt) ->
  opts_ok readTS opts -> optTxn opts = Some t ->
  MVCCGet pb (b_store b') k readTS opts = Ok (if tomb then None else append_nil value).
Proof.
  intros [Hwf Hok] HK Hw Hf Hrun Ho Ht. pose proof Hw as (Hl & Hk & Hid & Hval).
  pose proof (mvccWrite_refines b k K ts value tomb (Some t) Hwf HK Hw) as Hr. rewrite Hrun in Hr.
  destruct (ref_write k ts value tomb (Some t) K) as [K'|e] eqn:Ew; [|by destruct Hr].
  destruct Hr as (_ & Hwf' & HK' & _). cbn [fst] in *.
  destruct (ref_write_intent_shape k ts value tomb t K K') as (hist & rest & -> & _);
    [by apply (Hok k)|by eapply models_sorted|done..|].
  rewrite (MVCCGet_models pb _ k _ readTS opts Hwf' Hl Ho HK'), <- read_value_encode.
  apply (read_own_intent k (mkMeta t (WriteTimestamp t) hist) _ _ readTS opts t); try done. apply beqb_refl.
Qed.

(** ** Versions a read does not see *)

Definition all_below (w : Timestamp) (vs : list version) : Prop := Forall (fun v => v.1 <t w) vs.

Lemma newest_skip_top w raw vs lim :
  all_below w vs -> Forall (fun v : version => ts_valid v.1) vs -> ts_valid w ->
  newest ((w, raw) :: vs) lim w = newest vs lim ts0.
Proof.
  intros Hb Hv Hw. unfold newest. cbn [first fst].
  assert (skipped w w = true) as ->.
  { unfold skipped. apply andb_true_iff. split; [apply negb_true_iff, IsEmpty_neq, Hw|by apply Equal_eq]. }
  rewrite andb_false_r. apply first_ext. unfold all_below in Hb. rewrite Forall_forall in *. intros u Hu.
  specialize (Hb u Hu). specialize (Hv u Hu). cbn in Hb, Hv.
  assert (skipped w u.1 = false) as ->; [|done]. apply skipped_false; [done|]. intros E. rewrite E in Hb. ts_lia.
Qed.

Lemma newest_above w raw vs lim skip : lim <t w -> newest ((w, raw) :: vs) lim skip = newest vs lim skip.
Proof. intros H. unfold newest. cbn [first fst]. apply LessEq_gt in H. by rewrite H. Qed.

Lemma newest_top w raw vs lim : w <=t lim -> newest ((w, raw) :: vs) lim ts0 = Some (w, raw).
Proof. intros H. unfold newest. cbn [first fst]. apply LessEq_le in H. by rewrite H. Qed.

(** Beneath its top version, skipped, a key reads as without it. *)
Lemma ref_versions_skip_top k w raw vs ts opts :
  all_below w vs -> Forall (fun v : version => ts_valid v.1) vs -> ts_valid w ->
  ref_versions k ((w, raw) :: vs) ts opts ts0 w = ref_versions k vs ts opts ts0 ts0.
Proof.
  intros Hb Hv Hw. unfold ref_versions, ref_uncertain, ref_newest. cbn [IsEmpty ts0 negb].
  by rewrite !newest_skip_top.
Qed.

Lemma ref_versions_above k w raw vs ts opts :
  ts <t w -> UncertaintyLimit opts <t w ->
  ref_versions k ((w, raw) :: vs) ts opts ts0 ts0 = ref_versions k vs ts opts ts0 ts0.
Proof.
  intros H1 H2. unfold ref_versions, ref_uncertain, ref_newest. cbn [IsEmpty ts0 negb]. by rewrite !newest_above.
Qed.

Lemma ref_versions_visible k w raw vs ts opts :
  w <=t ts -> ref_versions k ((w, raw) :: vs) ts opts ts0 ts0 = read_value raw.
Proof.
  intros H. unfold ref_versions, ref_uncertain, ref_newest, has_uncertainty. cbn [IsEmpty ts0 negb].
  rewrite (newest_top w raw vs ts H). destruct (_ && _) eqn:E; [|done].
  apply andb_true_iff in E as [_ E]. apply Less_lt in E.
  rewrite newest_top by ts_lia. destruct (Less ts w) eqn:El; [tsb; ts_lia|done].
Qed.

Lemma ref_versions_uncertain k w raw vs ts opts :
  ts <t w -> w <=t UncertaintyLimit opts -> ts_valid w ->
  ref_versions k ((w, raw) :: vs) ts opts ts0 ts0 = Err (UncertaintyError ts w).
Proof.
  intros H1 H2 Hw. unfold ref_versions, ref_uncertain, has_uncertainty. cbn [IsEmpty ts0 negb].
  assert (IsEmpty (UncertaintyLimit opts) = false) as ->.
  { apply IsEmpty_neq. intros E. rewrite E in H2. destruct Hw as [Hok Hne]. pose proof (ts0_lt w Hok Hne). ts_lia. }
  assert (Less ts (UncertaintyLimit opts) = true) as -> by (apply Less_lt; ts_lia). cbn [negb andb].
  rewrite newest_top by done. apply Less_lt in H1. by rewrite H1.
Qed.

Lemma models_valid s k K : models s k K -> Forall (fun v : version => ts_valid v.1) (k_versions K).
Proof. intros H. by apply (models_sorted s k K). Qed.

Lemma intentAboveRead_spec w ts lim : intentAboveRead w ts lim = true <-> ts <t w /\ lim <t w.
Proof.
  unfold intentAboveRead. rewrite Less_lt. destruct (Less ts lim) eqn:E; tsb; ts_lia.
Qed.

(** A fresh intent is isolated from other transactions: a reader below
    it (read timestamp and uncertainty limit), or an inconsistent one,
    reads exactly what it read before the write; any other reader gets a
    WriteIntentError naming the intent, and never the provisional value. *)
Theorem mvccWrite_isolated pb b b' k ts value tomb t opts readTS K :
  store_ok (b_store b) -> models (b_store b) k K -> k_intent K = None ->
  write_ok k ts (Some t) K -> write_forward ts (Some t) K ->
  mvccWrite k ts value tomb (Some t) b = (b', Ok tt) ->
  opts_ok readTS opts -> own_txn (optTxn opts) (ID t) = false ->
  MVCCGet pb (b_store b') k readTS opts =
    if Inconsistent opts || intentAboveRead (WriteTimestamp t) readTS (UncertaintyLimit opts)
    then MVCCGet pb (b_store b) k readTS opts
    else Err (WriteIntentError [mkIntent k t]).
Proof.
  intros [Hwf Hok] HK Hni Hw Hf Hrun Ho Hown. pose proof Hw as (Hl & Hk & Hid & Hval).
  pose proof (mvccWrite_refines b k K ts value tomb (Some t) Hwf HK Hw) as Hr. rewrite Hrun in Hr.
  destruct (ref_write k ts value tomb (Some t) K) as [K'|e] eqn:Ew; [|by destruct Hr].
  destruct Hr as (_ & Hwf' & HK' & _). cbn [fst] in *.
  destruct (ref_write_intent_shape k ts value tomb t K K') as (hist & rest & -> & Hb & Hrest);
    [by apply (Hok k)|by eapply models_sorted|done..|].
  rewrite Hni in Hrest. destruct Hrest as [-> ->].
  rewrite (MVCCGet_models pb _ k _ readTS opts Hwf' Hl Ho HK'), (MVCCGet_models pb _ k K readTS opts Hwf Hl Ho HK).
  unfold ref_read, intent_switch. cbn [k_intent k_versions mTxn mTimestamp]. rewrite Hown, Hni.
  pose proof (ref_versions_skip_top k (WriteTimestamp t) (encodeMVCCValue value tomb) (k_versions K) readTS opts
    Hb (models_valid _ _ _ HK) Hval) as Hskip.
  destruct (Inconsistent opts); cbn [orb]; [exact Hskip|].
  by destruct (intentAboveRead _ _ _).
Qed.

(** ** A transaction's writes to a key, and their resolution *)

Record twrite := mkTW { tw_ts : Timestamp; tw_value : bytes; tw_tomb : bool; tw_txn : TxnMeta }.

Fixpoint run_writes (k : bytes) (ws : list twrite) : BM unit :=
  match ws with
  | [] => bret tt
  | w :: ws => mvccWrite k (tw_ts w) (tw_value w) (tw_tomb w) (Some (tw_txn w)) ;; run_writes k ws
  end.

(** Writes of transaction [id]: each at or above the timestamp it checks,
    with write timestamps that do not decrease from [lo]. *)
Fixpoint txn_series (id : uuid) (lo : Timestamp) (ws : list twrite) : Prop :=
  match ws with
  | [] => True
  | w :: ws =>
      ID (tw_txn w) = id /\ ts_valid (WriteTimestamp (tw_txn w)) /\ tw_ts w <=t WriteTimestamp (tw_txn w) /\
      lo <=t WriteTimestamp (tw_txn w) /\ txn_series id (WriteTimestamp (tw_txn w)) ws
  end.

(** The state of the key under the transaction's intent: the provisional
    version on top of the versions [vs] there were before. *)
Definition under_intent (id : uuid) (w : twrite) (vs : list version) (K : kstate) : Prop :=
  exists hist,
    K = mkK (Some (mkMeta (tw_txn w) (WriteTimestamp (tw_txn w)) hist))
          ((WriteTimestamp (tw_txn w), encodeMVCCValue (tw_value w) (tw_tomb w)) :: vs) /\
    ID (tw_txn w) = id /\ ts_valid (WriteTimestamp (tw_txn w)) /\ all_below (WriteTimestamp (tw_txn w)) vs.

(** The state a series may start from. *)
Definition series_start (id : uuid) (lo : Timestamp) (vs : list version) (K : kstate) : Prop :=
  (k_intent K = None /\ k_versions K = vs) \/ (exists w, under_intent id w vs K /\ WriteTimestamp (tw_txn w) = lo).

(** The intent history of a state, and after one more write. *)
Definition history_of (K : kstate) : list IntentValue :=
  match k_intent K with Some meta => mHistory meta | None => [] end.

Definition next_history (K : kstate) (w : twrite) : list IntentValue :=
  match k_intent K with Some meta => ref_history meta (tw_txn w) (k_versions K) | None => [] end.

Lemma run_write_step b b' k id lo w vs K :
  store_ok (b_store b) -> models (b_store b) k K -> IsLocal k = false -> bytes_ok k -> length id = 16%nat ->
  series_start id lo vs K -> txn_series id lo [w] ->
  mvccWrite k (tw_ts w) (tw_value w) (tw_tomb w) (Some (tw_txn w)) b = (b', Ok tt) ->
  store_ok (b_store b') /\ same_elsewhere (b_store b) (b_store b') k /\
  exists K', models (b_store b') k K' /\ under_intent id w vs K' /\ history_of K' = next_history K w.
Proof.
  intros Hs HK Hl Hk Hid Hstart (Hwid & Hwv & Hts & Hlo & _) Hrun. pose proof Hs as [Hwf Hok].
  assert (Hw : write_ok k (tw_ts w) (Some (tw_txn w)) K) by (repeat split; try done; by rewrite ?Hwid || apply Hwv).
  assert (Hf : write_forward (tw_ts w) (Some (tw_txn w)) K).
  { unfold write_forward. destruct Hstart as [[-> _]|(w0 & (hist & -> & _) & Hw0)]; [by left|]. cbn. by rewrite Hw0. }
  pose proof (mvccWrite_store_ok b k K (tw_ts w) (tw_value w) (tw_tomb w) _ Hs HK Hw Hf) as Hs'. rewrite Hrun in Hs'.
  pose proof (mvccWrite_refines b k K (tw_ts w) (tw_value w) (tw_tomb w) _ Hwf HK Hw) as Hr. rewrite Hrun in Hr.
  destruct (ref_write k (tw_ts w) (tw_value w) (tw_tomb w) (Some (tw_txn w)) K) as [K'|e] eqn:Ew; [|by destruct Hr].
  destruct Hr as (_ & Hwf' & HK' & Hse). cbn [fst] in *. split; [done|]. split; [done|]. exists K'. split; [done|].
  destruct (ref_write_intent_shape k (tw_ts w) (tw_value w) (tw_tomb w) (tw_txn w) K K') as (hist & rest & -> & Hb & Hrest);
    [by apply (Hok k)|by eapply models_sorted|done..|].
  assert (Hh : hist = next_history K w) by (unfold next_history; destruct (k_intent K); naive_solver).
  assert (rest = vs) as ->; [|split; [by exists hist|exact Hh]].
  destruct Hstart as [[Hi Hv]|(w0 & (hist0 & HK0 & _ & _ & Hb0) & _)].
  - rewrite Hi in Hrest. destruct Hrest as [_ ->]. done.
  - rewrite HK0 in Hrest. cbn [k_intent k_versions mTimestamp] in Hrest. destruct Hrest as (_ & _ & ->).
    apply remove_head. rewrite HK0 in HK. apply (models_sorted _ _ _ HK).
Qed.

Lemma List_last_In {A} (l : list A) d : l <> [] -> List.In (List.last l d) l.
Proof.
  induction l as [|x l IH]; [done|]. intros _. destruct l as [|y l]; [by left|]. right. by apply IH.
Qed.

Lemma last_cons_default {A} (l : list A) x d : List.last (x :: l) d = List.last l x.
Proof.
  revert x d. induction l as [|y l IH]; intros x d; [done|].
  transitivity (List.last (y :: l) d); [done|]. by rewrite !IH.
Qed.

Lemma run_writes_state b b' k id lo w ws vs K :
  store_ok (b_store b) -> models (b_store b) k K -> IsLocal k = false -> bytes_ok k -> length id = 16%nat ->
  series_start id lo vs K -> txn_series id lo (w :: ws) ->
  run_writes k (w :: ws) b = (b', Ok tt) ->
  store_ok (b_store b') /\ same_elsewhere (b_store b) (b_store b') k /\
  exists K', models (b_store b') k K' /\ under_intent id (List.last ws w) vs K'.
Proof.
  revert b lo w K. induction ws as [|w2 ws IH]; intros b lo w K Hs HK Hl Hk Hid Hst Hser Hrun;
    cbn [run_writes] in Hrun; unfold bbind at 1 in Hrun;
    destruct (mvccWrite k (tw_ts w) (tw_value w) (tw_tomb w) (Some (tw_txn w)) b) as [b1 [[]|e]] eqn:Ew; try done;
    destruct Hser as (H1 & H2 & H3 & H4 & Hser);
    destruct (run_write_step b b1 k id lo w vs K) as (Hs1 & Hse1 & K1 & HK1 & Hu1 & _); try done.
  - injection Hrun as <-. split; [done|]. split; [done|]. by exists K1.
  - destruct (IH b1 (WriteTimestamp (tw_txn w)) w2 K1) as (Hs2 & Hse2 & K2 & HK2 & Hu2); try done.
    { right. by exists w. }
    split; [done|]. split; [by eapply same_elsewhere_trans|]. exists K2. split; [done|].
    by rewrite last_cons_default.
Qed.

(** Reads of any key, compared across two stores. *)
Definition same_reads (s s' : store) (k : bytes) : Prop :=
  forall pb ts opts, opts_ok ts opts -> MVCCGet pb s' k ts opts = MVCCGet pb s k ts opts.

Lemma same_reads_other s s' k k' :
  store_wf s -> store_wf s' -> same_elsewhere s s' k -> IsLocal k' = false -> k' <> k -> same_reads s s' k'.
Proof.
  intros Hwf Hwf' Hse Hl Hne pb ts opts Ho. destruct (models_exists s k' Hwf Hl) as (K & mo & Hv & Hm).
  rewrite (MVCCGet_models pb s' k' K), (MVCCGet_models pb s k' K); try done.
  - by exists mo.
  - exists mo. split; [by apply (same_elsewhere_view s s' k)|done].
Qed.

Lemma same_reads_models s s' k K :
  store_wf s -> store_wf s' -> IsLocal k = false -> models s k K -> models s' k K -> same_reads s s' k.
Proof.
  intros Hwf Hwf' Hl HK HK' pb ts opts Ho.
  by rewrite (MVCCGet_models pb s' k K), (MVCCGet_models pb s k K).
Qed.

(** Resolving after a series: the state of the key. *)
Lemma resolve_after_series b1 b2 k id w vs K1 status c :
  store_ok (b_store b1) -> models (b_store b1) k K1 -> under_intent id w vs K1 ->
  IsLocal k = false -> bytes_ok k -> ts_ok c -> status <> PENDING ->
  (b2, Ok tt) = MVCCResolveIntent k id status c b1 ->
  store_wf (b_store b2) /\ same_elsewhere (b_store b1) (b_store b2) k /\
  models (b_store b2) k
    (if bool_decide (status = ABORTED) then mkK None vs
     else mkK None (insert_version (if IsEmpty c then WriteTimestamp (tw_txn w) else c)
                      (encodeMVCCValue (tw_value w) (tw_tomb w)) vs)).
Proof.
  intros Hs HK (hist & HK1 & Hid & Hv & Hb) Hl Hk Hc Hst Hrun. pose proof Hs as [Hwf Hok].
  pose proof (MVCCResolveIntent_refines b1 k K1 id status c Hwf HK (Hok k K1 Hl HK) Hl Hk Hc) as Hr.
  rewrite <- Hrun in Hr. unfold ref_resolve in Hr. rewrite bool_decide_eq_false_2 in Hr by done.
  destruct Hr as (_ & Hwf2 & HK2 & Hse). split; [done|]. split; [done|]. cbn [fst] in *.
  rewrite HK1 in *. cbn [k_intent k_versions mTxn mTimestamp] in HK2. rewrite Hid, beqb_refl in HK2.
  pose proof (models_sorted _ _ _ HK) as Hsort. cbn [k_versions] in Hsort.
  destruct (remove_head _ _ _ Hsort) as [Hrm _]. rewrite Hrm in HK2.
  case_bool_decide; [done|]. unfold lookup_version in HK2. cbn [first fst] in HK2.
  rewrite (proj2 (Equal_eq (WriteTimestamp (tw_txn w)) _) eq_refl) in HK2. done.
Qed.

Lemma resolve_ok b k id K status c :
  store_ok (b_store b) -> models (b_store b) k K -> IsLocal k = false -> bytes_ok k -> ts_ok c ->
  status <> PENDING -> exists b2, MVCCResolveIntent k id status c b = (b2, Ok tt).
Proof.
  intros [Hwf Hok] HK Hl Hk Hc Hst.
  pose proof (MVCCResolveIntent_refines b k K id status c Hwf HK (Hok k K Hl HK) Hl Hk Hc) as Hr.
  unfold ref_resolve in Hr. rewrite bool_decide_eq_false_2 in Hr by done. destruct Hr as (Hr & _).
  destruct (MVCCResolveIntent k id status c b) as [b2 r]. cbn in Hr. subst r. by exists b2.
Qed.

(** C4: Aborting undoes a transaction: after any series of writes of a
    transaction to a key that had no intent, resolving the intent as
    ABORTED succeeds, and every read, of this key and of every other, is
    what it was before the first write. *)
Theorem abort_restores_reads b b1 k K id w ws c :
  store_ok (b_store b) -> models (b_store b) k K -> k_intent K = None ->
  IsLocal k = false -> bytes_ok k -> length id = 16%nat -> ts_ok c ->
  txn_series id ts0 (w :: ws) -> run_writes k (w :: ws) b = (b1, Ok tt) ->
  exists b2, MVCCResolveIntent k id ABORTED c b1 = (b2, Ok tt) /\
    forall k', IsLocal k' = false -> same_reads (b_store b) (b_store b2) k'.
Proof.
  intros Hs HK Hi Hl Hk Hid Hc Hser Hrun.
  destruct (run_writes_state b b1 k id ts0 w ws (k_versions K) K) as (Hs1 & Hse1 & K1 & HK1 & Hu); try done; [by left|].
  destruct (resolve_ok b1 k id K1 ABORTED c) as [b2 Hres]; try done.
  destruct (resolve_after_series b1 b2 k id (List.last ws w) (k_versions K) K1 ABORTED c) as (Hwf2 & Hse2 & HK2); try done.
  exists b2. split; [done|]. intros k' Hl'. destruct Hs as [Hwf _]. destruct (decide (k' = k)) as [->|Hne].
  - eapply same_reads_models; [done..|exact HK|]. destruct K as [i vs]. cbn in *. by subst i.
  - eapply same_reads_other; [done..| |done|exact Hne]. by eapply same_elsewhere_trans.
Qed.

(** C5: Committing publishes the last write at the commit timestamp: after
    a series of writes of a transaction to a key without an intent and
    resolution as COMMITTED at [c], at or above the last write timestamp,
    a read at or above [c] returns the last written value, a read below
    [c] (uncertainty limit included) returns what it returned before the
    transaction, a read whose uncertainty window contains [c] fails on it,
    and reads of other keys do not change. *)
Theorem commit_publishes b b1 k K id w ws c :
  store_ok (b_store b) -> models (b_store b) k K -> k_intent K = None ->
  IsLocal k = false -> bytes_ok k -> length id = 16%nat -> ts_valid c ->
  txn_series id ts0 (w :: ws) -> WriteTimestamp (tw_txn (List.last ws w)) <=t c ->
  run_writes k (w :: ws) b = (b1, Ok tt) ->
  exists b2, MVCCResolveIntent k id COMMITTED c b1 = (b2, Ok tt) /\
    (forall pb ts opts, opts_ok ts opts ->
      MVCCGet pb (b_store b2) k ts opts =
        if LessEq c ts then Ok (if tw_tomb (List.last ws w) then None else append_nil (tw_value (List.last ws w)))
        else if LessEq c (UncertaintyLimit opts) then Err (UncertaintyError ts c)
        else MVCCGet pb (b_store b) k ts opts) /\
    (forall k', IsLocal k' = false -> k' <> k -> same_reads (b_store b) (b_store b2) k').
Proof.
  intros Hs HK Hi Hl Hk Hid [Hc Hc0] Hser Hwc Hrun.
  destruct (run_writes_state b b1 k id ts0 w ws (k_versions K) K) as (Hs1 & Hse1 & K1 & HK1 & Hu); try done; [by left|].
  destruct (resolve_ok b1 k id K1 COMMITTED c) as [b2 Hres]; try done.
  destruct (resolve_after_series b1 b2 k id (List.last ws w) (k_versions K) K1 COMMITTED c) as (Hwf2 & Hse2 & HK2); try done.
  destruct Hs as [Hwf _]. exists b2. split; [done|]. split.
  2: { intros k' Hl' Hne. eapply same_reads_other; [done..| |done|exact Hne]. by eapply same_elsewhere_trans. }
  intros pb ts opts Ho. rewrite bool_decide_eq_false_2 in HK2 by done. apply IsEmpty_neq in Hc0 as Hc0'. rewrite Hc0' in HK2.
  destruct Hu as (hist & _ & _ & _ & Hb). rewrite insert_version_top in HK2.
  2: { eapply Forall_impl; [exact Hb|]. intros u Hu. cbn in Hu. ts_lia. }
  rewrite (MVCCGet_models pb _ k _ ts opts Hwf2 Hl Ho HK2), (MVCCGet_models pb _ k K ts opts Hwf Hl Ho HK).
  unfold ref_read. rewrite Hi. cbn [k_intent k_versions].
  destruct (LessEq c ts) eqn:E1; tsb; [by rewrite ref_versions_visible, read_value_encode|].
  destruct (LessEq c (UncertaintyLimit opts)) eqn:E2; tsb; [by apply ref_versions_uncertain|by apply ref_versions_above].
Qed.

(** ** Savepoints *)

Lemma restore_app seq a b :
  restore seq (a ++ b) = match restore seq b with Some (l, e) => Some (a ++ l, e) | None => restore seq a end.
Proof.
  induction a as [|x a IH]; cbn [app restore].
  - by destruct (restore seq b) as [[]|].
  - rewrite IH. by destruct (restore seq b) as [[]|].
Qed.

Lemma last_at_or_below_spec f h i first :
  let n := last_at_or_below f h i first in
  n = first \/ exists j e, n = (i + j)%nat /\ h !! j = Some e /\ ivSequence e <= f.
Proof.
  cbn zeta. revert i first. induction h as [|e h IH]; intros i first; cbn [last_at_or_below]; [by left|].
  destruct (IH (S i) (if ivSequence e <=? f then i else first)) as [E|(j & e' & E & Hj & Hle)].
  - rewrite E. destruct (Z.leb_spec (ivSequence e) f); [|by left]. right. exists 0%nat, e. split; [lia|done].
  - right. exists (S j), e'. split; [lia|done].
Qed.

(** The floors of a transaction whose oldest live savepoint is at or
    below [seq] (0 is a coordinator that does not send them). *)
Definition floor_ok (seq floor : Z) : Prop := 0 <= floor <= seq + 1 /\ in_i32 floor.

Lemma restore_drop_floor seq f h :
  f <= seq ->
  (snd <$> restore seq (drop (last_at_or_below f h 0 0) h)) = (snd <$> restore seq h).
Proof.
  intros Hf. destruct (last_at_or_below_spec f h 0 0) as [E|(j & e & E & Hj & Hle)]; rewrite E; [done|].
  cbn [Nat.add]. rewrite <- (take_drop j h) at 2. rewrite restore_app.
  destruct (restore seq (drop j h)) as [[l r]|] eqn:Er; [done|]. exfalso.
  rewrite (drop_S h e j Hj) in Er. cbn [restore] in Er. destruct (restore seq (drop (S j) h)) as [[]|]; [done|].
  destruct (Z.leb_spec (ivSequence e) seq); [done|]. lia.
Qed.

(** Bounding the history loses nothing a live savepoint can restore. *)
Lemma restore_bounded seq prev add floor :
  floor_ok seq floor ->
  (snd <$> restore seq (boundedHistory prev add floor)) =
    if ivSequence add <=? seq then Some add else (snd <$> restore seq prev).
Proof.
  intros [Hf Hi]. unfold boundedHistory. destruct (Z.ltb_spec floor 0); [lia|].
  assert (Hadd : (snd <$> restore seq (history_add prev add)) =
    if ivSequence add <=? seq then Some add else (snd <$> restore seq prev)).
  { unfold history_add. destruct (last prev) as [x|] eqn:El.
    - apply last_Some in El as [l ->]. destruct (Z.eqb_spec (ivSequence x) (ivSequence add)) as [Ex|].
      + rewrite removelast_last, !restore_snoc, Ex. by destruct (ivSequence add <=? seq).
      + rewrite restore_snoc. by destruct (ivSequence add <=? seq).
    - rewrite restore_snoc. by destruct (ivSequence add <=? seq). }
  destruct (Z.eqb_spec floor 0); [done|]. rewrite restore_drop_floor; [done|].
  unfold i32, in_i32 in *. rewrite Z.mod_small; lia.
Qed.

(** The value of a write as the history keeps it. *)
Definition saved (w : twrite) : IntentValue :=
  mkIntentValue (Sequence (tw_txn w)) (if tw_tomb w then [] else tw_value w) (tw_tomb w).

(** What a rollback of [K] to [seq] restores. *)
Definition target (seq : Z) (K : kstate) : option IntentValue :=
  match k_intent K, head (k_versions K) with
  | Some meta, Some (_, raw) =>
      if Sequence (mTxn meta) <=? seq
      then Some (mkIntentValue (Sequence (mTxn meta)) (decoded raw).1 (decoded raw).2)
      else snd <$> restore seq (mHistory meta)
  | _, _ => None
  end.

(** Writes made after a savepoint at [seq] and while it is live. *)
Definition after_savepoint (seq e : Z) (w : twrite) : Prop :=
  Epoch (tw_txn w) = e /\ seq < Sequence (tw_txn w) /\ floor_ok seq (HistoryFloor (tw_txn w)).

Definition epoch_is (e : Z) (K : kstate) : Prop :=
  match k_intent K with Some meta => Epoch (mTxn meta) = e | None => True end.

Lemma target_step seq e id lo w vs K K' :
  series_start id lo vs K -> epoch_is e K -> under_intent id w vs K' -> history_of K' = next_history K w ->
  after_savepoint seq e w -> target seq K' = target seq K /\ epoch_is e K'.
Proof.
  intros Hst He (hist & -> & _) Hh (Hew & Hseq & Hfl). split; [|done]. unfold target at 1.
  cbn [k_intent k_versions head mTxn mHistory]. destruct (Z.leb_spec (Sequence (tw_txn w)) seq); [lia|].
  cbn in Hh. rewrite Hh. unfold next_history, target.
  destruct Hst as [[-> _]|(w0 & (hist0 & -> & _) & _)]; [done|].
  cbn [k_intent k_versions head]. unfold ref_history, epoch_is in *. cbn [k_intent mTxn mTimestamp mHistory] in *.
  rewrite He, Hew, Z.eqb_refl. unfold lookup_version. cbn [first fst].
  rewrite (proj2 (Equal_eq (WriteTimestamp (tw_txn w0)) _) eq_refl). cbn [fmap option_fmap option_map snd].
  by rewrite restore_bounded.
Qed.

(** A series of writes after the savepoint keeps what it restores. *)
Lemma run_writes_target b b' k id lo w ws vs K seq e :
  store_ok (b_store b) -> models (b_store b) k K -> IsLocal k = false -> bytes_ok k -> length id = 16%nat ->
  series_start id lo vs K -> txn_series id lo (w :: ws) -> epoch_is e K -> Forall (after_savepoint seq e) (w :: ws) ->
  run_writes k (w :: ws) b = (b', Ok tt) ->
  store_ok (b_store b') /\ same_elsewhere (b_store b) (b_store b') k /\
  exists K', models (b_store b') k K' /\ under_intent id (List.last ws w) vs K' /\ target seq K' = target seq K.
Proof.
  revert b lo w K. induction ws as [|w2 ws IH]; intros b lo w K Hs HK Hl Hk Hid Hst Hser He Hsp Hrun;
    cbn [run_writes] in Hrun; unfold bbind at 1 in Hrun;
    destruct (mvccWrite k (tw_ts w) (tw_value w) (tw_tomb w) (Some (tw_txn w)) b) as [b1 [[]|er]] eqn:Ew; try done;
    destruct Hser as (H1 & H2 & H3 & H4 & Hser); inversion Hsp as [|? ? Hw Hsp']; subst;
    destruct (run_write_step b b1 k (ID (tw_txn w)) lo w vs K) as (Hs1 & Hse1 & K1 & HK1 & Hu1 & Hh1); try done;
    destruct (target_step seq e _ lo w vs K K1 Hst He Hu1 Hh1 Hw) as [Ht He1].
  - injection Hrun as <-. split; [done|]. split; [done|]. by exists K1.
  - destruct (IH b1 (WriteTimestamp (tw_txn w)) w2 K1) as (Hs2 & Hse2 & K2 & HK2 & Hu2 & Ht2); try done.
    { right. by exists w. }
    split; [done|]. split; [by eapply same_elsewhere_trans|]. exists K2. split; [done|].
    rewrite last_cons_default. split; [done|congruence].
Qed.

Lemma decoded_encode v t : decoded (encodeMVCCValue v t) = (if t then [] else v, t).
Proof. by destruct t. Qed.

Lemma encode_saved w : encodeMVCCValue (ivValue (saved w)) (ivTombstone (saved w)) = encodeMVCCValue (tw_value w) (tw_tomb w).
Proof. unfold saved. cbn. by destruct (tw_tomb w). Qed.

(** Rolling back a state under the transaction's intent. *)
Lemma rollback_state b k id w vs K seq :
  store_ok (b_store b) -> models (b_store b) k K -> under_intent id w vs K -> seq < Sequence (tw_txn w) ->
  IsLocal k = false -> bytes_ok k ->
  exists b' K', MVCCRollbackIntent k id seq b = (b', Ok tt) /\ store_wf (b_store b') /\
    models (b_store b') k K' /\ same_elsewhere (b_store b) (b_store b') k /\
    match target seq K with
    | None => K' = mkK None vs
    | Some e => exists hist,
        K' = mkK (Some (mkMeta (set_Sequence (tw_txn w) (ivSequence e)) (WriteTimestamp (tw_txn w)) hist))
               ((WriteTimestamp (tw_txn w), encodeMVCCValue (ivValue e) (ivTombstone e)) :: vs)
    end.
Proof.
  intros [Hwf Hok] HK (hist & HKeq & Hid & Hv & Hb) Hseq Hl Hk.
  pose proof (MVCCRollbackIntent_refines b k K id seq Hwf HK (Hok k K Hl HK) Hl Hk) as (Hr & Hwf' & HK' & Hse).
  destruct (MVCCRollbackIntent k id seq b) as [b' r]. cbn [fst snd] in *. subst r.
  exists b', (ref_rollback id seq K). split; [done|]. split; [done|]. split; [done|]. split; [done|].
  pose proof (models_sorted _ _ _ HK) as Hsort. subst K. unfold target, ref_rollback. cbn [k_intent k_versions mTxn mTimestamp mHistory head] in *.
  rewrite Hid, beqb_refl. destruct (Z.ltb_spec seq (Sequence (tw_txn w))); [|lia].
  destruct (Z.leb_spec (Sequence (tw_txn w)) seq); [lia|]. cbn [andb].
  destruct (remove_head _ _ _ Hsort) as [-> _].
  destruct (restore seq hist) as [[l e]|]; cbn [fmap option_fmap option_map snd]; [|done].
  exists l. by rewrite insert_version_top.
Qed.

Definition last_ts (ws : list twrite) : Timestamp :=
  match ws with [] => ts0 | w :: ws => WriteTimestamp (tw_txn (List.last ws w)) end.

Lemma models_intent_of s k K : store_wf s -> IsLocal k = false -> models s k K -> intent_of s k = k_intent K.
Proof.
  intros Hwf Hl HK. pose proof (models_get_meta s k K Hwf Hl HK) as H. unfold intent_of.
  destruct (k_intent K); [destruct H as (raw & -> & _ & ->)|rewrite H]; done.
Qed.

Lemma models_versions s k K t raw : models s k K -> has_version s k t raw <-> (t, raw) ∈ k_versions K.
Proof. intros (mo & [Hv Hvs] & _). by eapply has_version_view. Qed.

(** [s'] is [s] as far as [k] goes, but for the timestamp of the transaction's
    intent: the intent has the same transaction, epoch and sequence, its
    provisional value is the same, and so are the versions beneath it. *)
Definition savepoint_state (s s' : store) (k : bytes) (id : uuid) (e : Z) (w : Timestamp) : Prop :=
  exists meta meta', intent_of s k = Some meta /\ intent_of s' k = Some meta' /\
    ID (mTxn meta) = id /\ ID (mTxn meta') = id /\ Epoch (mTxn meta) = e /\ Epoch (mTxn meta') = e /\
    Sequence (mTxn meta') = Sequence (mTxn meta) /\ mTimestamp meta' = w /\
    forall t raw, has_version s' k t raw <->
      (t = w /\ has_version s k (mTimestamp meta) raw) \/ (t <> mTimestamp meta /\ has_version s k t raw).

Lemma savepoint_state_under s s' k id e w w' vs hist hist' K K' :
  store_wf s -> store_wf s' -> IsLocal k = false -> models s k K -> models s' k K' ->
  K = mkK (Some (mkMeta (tw_txn w) (WriteTimestamp (tw_txn w)) hist))
        ((WriteTimestamp (tw_txn w), encodeMVCCValue (tw_value w) (tw_tomb w)) :: vs) ->
  all_below (WriteTimestamp (tw_txn w)) vs ->
  K' = mkK (Some (mkMeta (set_Sequence (tw_txn w') (Sequence (tw_txn w))) (WriteTimestamp (tw_txn w')) hist'))
         ((WriteTimestamp (tw_txn w'), encodeMVCCValue (tw_value w) (tw_tomb w)) :: vs) ->
  ID (tw_txn w) = id -> ID (tw_txn w') = id -> Epoch (tw_txn w) = e -> Epoch (tw_txn w') = e ->
  savepoint_state s s' k id e (WriteTimestamp (tw_txn w')).
Proof.
  intros Hwf Hwf' Hl HK HK' EK Hb EK' Hi Hi' He He'. unfold savepoint_state.
  rewrite (models_intent_of s k K Hwf Hl HK), (models_intent_of s' k K' Hwf' Hl HK'), EK, EK'. cbn [k_intent].
  eexists _, _. split_and!; [reflexivity|reflexivity|done..|]. intros t raw. unfold all_below in Hb. rewrite Forall_forall in Hb.
  rewrite (models_versions s' k K' t raw HK'), !(models_versions s k K _ raw HK), EK, EK'. cbn [k_versions mTimestamp].
  rewrite !elem_of_cons. split.
  - intros [[= -> ->]|Hin]; [left; split; [done|by left]|]. right. split; [|by right]. intros ->. specialize (Hb _ Hin). cbn in Hb. ts_lia.
  - intros [[-> [[= ->]|Hin]]|[Hne [[= -> _]|Hin]]]; [by left| |done|by right]. specialize (Hb _ Hin). cbn in Hb. ts_lia.
Qed.

End Operations.

(** ** Witnesses, on the map engine *)

Lemma store_ok_empty : store_ok (P := map_pebble) (∅ : gmap (list Z) (list Z)).
Proof.
  assert (Hwf : store_wf (P := map_pebble) (∅ : gmap (list Z) (list Z))) by (apply wf_empty; intros x; apply lookup_empty).
  split; [done|]. intros k K Hl HK. pose proof (models_get_meta _ k K Hwf Hl HK) as H. unfold kstate_ok.
  destruct (k_intent K); [|done]. destruct H as (raw & H & _). cbn in H. by rewrite lookup_empty in H.
Qed.

Lemma outcome_ok {A E B} (out : A * result E B) r : out.2 = r -> out = (out.1, r).
Proof. by intros <-; destruct out. Qed.

Definition ex_key : bytes := [4; 1].
Definition ex_id : uuid := repeat 9 16.
Definition ex_empty : Batch := NewBatch (P := map_pebble) true ∅.

(** A store with one committed version of [ex_key], at 5. *)
Definition ex_batch : Batch := (MVCCPutCommitted ex_key (mkTs 5 0) [7] ex_empty).1.
Definition ex_K : kstate := mkK None [(mkTs 5 0, [1; 7])].

Lemma ex_key_ok : IsLocal ex_key = false /\ bytes_ok ex_key.
Proof. split; [done|]. by_compute. Qed.

Lemma ex_ts_valid w l : 0 < w <= 100 -> 0 <= l <= 100 -> ts_valid (mkTs w l).
Proof. intros H1 H2. split; [unfold ts_ok, maxInt64, maxInt32; cbn; lia|]. intros [= E _]. lia. Qed.

Lemma ex_batch_ok : store_ok (b_store ex_batch) /\ models (b_store ex_batch) ex_key ex_K.
Proof.
  assert (HK0 : models (b_store ex_empty) ex_key (mkK None [])).
  { exists None. split; [|done]. apply view_intro; [apply store_ok_empty|done|split; constructor|done|].
    intros t raw _. split; [cbn; by rewrite lookup_empty|]. intros H. by apply not_elem_of_nil in H. }
  destruct ex_key_ok as [Hl Hk].
  pose proof (mvccWriteCommitted_refines ex_empty ex_key (mkK None []) (mkTs 5 0) [7] false
    (proj1 store_ok_empty) HK0 Hl Hk ltac:(by apply ex_ts_valid)) as Hr.
  split; [|exact (proj1 (proj2 (proj2 Hr)))].
  eapply (refines_store_ok ex_empty); [apply store_ok_empty|done|exact Hr|]. intros K'. apply ref_write_committed_ok.
Qed.

Definition ex_write (ts : Z) (seq : Z) (v : bytes) : twrite :=
  mkTW (mkTs ts 0) v false (set_Sequence (ex_txn 9 (mkTs ts 0) true) seq).
Definition ex_opts (txn : option TxnMeta) : MVCCGetOptions := mkOpts txn ts0 0 false.
Definition ex_put (ts : Z) : Batch * result mvcc_err unit :=
  mvccWrite ex_key (mkTs ts 0) [42] false (Some (ex_txn 9 (mkTs ts 0) true)) ex_batch.

Lemma ex_write_ok ts : 5 < ts <= 100 -> write_ok ex_key (mkTs ts 0) (Some (ex_txn 9 (mkTs ts 0) true)) ex_K.
Proof.
  intros H. destruct ex_key_ok as [Hl Hk]. split; [done|]. split; [done|]. split; [done|]. apply ex_ts_valid; lia.
Qed.

Lemma ex_opts_ok txn w : 0 < w <= 100 -> opts_ok (mkTs w 0) (ex_opts txn).
Proof. intros H. split; [apply ex_ts_valid; lia|apply ts0_ok]. Qed.

Lemma MVCCGet_spec_witness :
  MVCCGet true (b_store ex_batch) ex_key (mkTs 6 0) (ex_opts None) = Ok (Some [7]) /\
  get_spec (b_store ex_batch) ex_key (mkTs 6 0) (ex_opts None) (Ok (Some [7])).
Proof.
  split; [reflexivity|]. apply (MVCCGet_spec true (b_store ex_batch) ex_key (mkTs 6 0) (ex_opts None)).
  - apply ex_batch_ok.
  - reflexivity.
  - apply ex_opts_ok. lia.
  - reflexivity.
Defined.

(** The second read comes after a committed write at 8, and does not see it. *)
Lemma Getter_reads_one_state_witness :
  getter_run (NewGetter true false)
    [(b_store ex_batch, ex_key, mkTs 9 0, ex_opts None);
     (b_store (MVCCPutCommitted ex_key (mkTs 8 0) [99] ex_batch).1, ex_key, mkTs 9 0, ex_opts None)] =
  [Ok (Some [7]); Ok (Some [7])].
Proof.
  rewrite (Getter_reads_one_state true false (b_store ex_batch) ex_key (mkTs 9 0) (ex_opts None)
    [(b_store (MVCCPutCommitted ex_key (mkTs 8 0) [99] ex_batch).1, ex_key, mkTs 9 0, ex_opts None)]).
  - vm_compute. reflexivity.
  - destruct ex_batch_ok as [Hs HK]. destruct ex_key_ok as [Hl Hk].
    constructor; [|constructor; [|constructor]].
    + split; [apply Hs|]. split; [exact Hl|]. apply ex_opts_ok. lia.
    + split; [|split; [exact Hl|apply ex_opts_ok; lia]].
      apply (run_op_store_ok ex_batch (OpCommitted ex_key (mkTs 8 0) [99] false) ex_K Hs HK).
      split; [exact Hl|]. split; [exact Hk|]. apply ex_ts_valid; lia.
Defined.

Lemma mvcc_ops_preserve_invariant_witness :
  ops_run ex_batch (ex_put 8).1 /\ store_ok (b_store (ex_put 8).1).
Proof.
  assert (H : ops_run ex_batch (ex_put 8).1).
  { eapply (ops_step _ _ (OpWrite ex_key (mkTs 8 0) [42] false (Some (ex_txn 9 (mkTs 8 0) true))) ex_K).
    - apply ex_batch_ok.
    - split; [by apply ex_write_ok|]. left. apply ts_le_refl.
    - apply ops_nil. }
  split; [exact H|]. apply (mvcc_ops_preserve_invariant ex_batch); [apply ex_batch_ok|exact H].
Defined.

Lemma mvccWrite_read_own_witness :
  MVCCGet true (b_store (ex_put 8).1) ex_key (mkTs 6 0) (ex_opts (Some (ex_txn 9 (mkTs 8 0) true))) = Ok (Some [42]).
Proof.
  apply (mvccWrite_read_own true ex_batch (ex_put 8).1 ex_key (mkTs 8 0) [42] false (ex_txn 9 (mkTs 8 0) true)
    (ex_opts (Some (ex_txn 9 (mkTs 8 0) true))) (mkTs 6 0) ex_K).
  - apply ex_batch_ok.
  - apply ex_batch_ok.
  - by apply ex_write_ok.
  - left. apply ts_le_refl.
  - reflexivity.
  - by apply ex_opts_ok.
  - reflexivity.
Defined.

Lemma mvccWrite_isolated_witness :
  MVCCGet true (b_store (ex_put 8).1) ex_key (mkTs 6 0) (ex_opts None) = Ok (Some [7]).
Proof.
  rewrite (mvccWrite_isolated true ex_batch (ex_put 8).1 ex_key (mkTs 8 0) [42] false (ex_txn 9 (mkTs 8 0) true)
    (ex_opts None) (mkTs 6 0) ex_K).
  - reflexivity.
  - apply ex_batch_ok.
  - apply ex_batch_ok.
  - reflexivity.
  - by apply ex_write_ok.
  - left. apply ts_le_refl.
  - reflexivity.
  - by apply ex_opts_ok.
  - reflexivity.
Defined.

Definition ex_series : list twrite := [ex_write 8 2 [42]; ex_write 9 3 [43]].

Lemma ex_series_ok : txn_series ex_id ts0 ex_series.
Proof.
  repeat split; try (vm_compute; intuition congruence); apply ex_ts_valid; lia.
Qed.

Lemma abort_restores_reads_witness :
  exists b2, MVCCResolveIntent ex_key ex_id ABORTED ts0 (run_writes ex_key ex_series ex_batch).1 = (b2, Ok tt) /\
    MVCCGet true (b_store b2) ex_key (mkTs 20 0) (ex_opts None) = Ok (Some [7]).
Proof.
  destruct (abort_restores_reads ex_batch (run_writes ex_key ex_series ex_batch).1 ex_key ex_K ex_id
    (ex_write 8 2 [42]) [ex_write 9 3 [43]] ts0) as (b2 & Hres & Hsame).
  - apply ex_batch_ok.
  - apply ex_batch_ok.
  - vm_compute. reflexivity.
  - apply ex_key_ok.
  - apply ex_key_ok.
  - vm_compute. reflexivity.
  - apply ts0_ok.
  - apply ex_series_ok.
  - apply outcome_ok. vm_compute. reflexivity.
  - exists b2. split; [exact Hres|]. 
    rewrite (Hsame ex_key (proj1 ex_key_ok) true (mkTs 20 0) (ex_opts None) (ex_opts_ok None 20 ltac:(lia))).
    vm_compute. reflexivity.
Defined.

Lemma commit_publishes_witness :
  exists b2, MVCCResolveIntent ex_key ex_id COMMITTED (mkTs 10 0) (run_writes ex_key ex_series ex_batch).1 = (b2, Ok tt) /\
    MVCCGet true (b_store b2) ex_key (mkTs 20 0) (ex_opts None) = Ok (Some [43]) /\
    MVCCGet true (b_store b2) ex_key (mkTs 9 0) (ex_opts None) = Ok (Some [7]).
Proof.
  destruct (commit_publishes ex_batch (run_writes ex_key ex_series ex_batch).1 ex_key ex_K ex_id
    (ex_write 8 2 [42]) [ex_write 9 3 [43]] (mkTs 10 0)) as (b2 & Hres & Hget & _).
  - apply ex_batch_ok.
  - apply ex_batch_ok.
  - vm_compute. reflexivity.
  - apply ex_key_ok.
  - apply ex_key_ok.
  - vm_compute. reflexivity.
  - by apply ex_ts_valid.
  - apply ex_series_ok.
  - vm_compute. intuition congruence.
  - apply outcome_ok. vm_compute. reflexivity.
  - exists b2. split; [exact Hres|]. split.
    + rewrite (Hget true (mkTs 20 0) (ex_opts None) (ex_opts_ok None 20 ltac:(lia))). vm_compute. reflexivity.
    + rewrite (Hget true (mkTs 9 0) (ex_opts None) (ex_opts_ok None 9 ltac:(lia))). vm_compute. reflexivity.
Defined.

