(* ===== verification/MvccScan.v ===== *)
(** * MVCC range operations (pkg/storage/mvcc.go, mvcc_export.go)

    Forward and reverse scans, the refresh check of a read span and the
    export of a time window: iterators bounded to the engine keys of a span,
    moved by bounded walks that fall back to a seek.  The loops carry fuel;
    [OutOfFuel] results are excluded by the theorem of MvccTotal. *)

From S2P Require Import Prelude Encoding Hlc Keys MvccKey Pebble Enginepb Mvcc.

Open Scope Z_scope.

Definition maxIntentsPerError : nat := 16.
Definition maxStepsBeforeSeek : nat := 8.

Record KeyValue := mkKV { kvKey : bytes; kvValue : option bytes }.
Record ScanResult := mkScan { KVs : list KeyValue; Resume : option bytes }.

Definition appendMetaKeyOf (engineKey : bytes) (vts : Timestamp) : bytes :=
  if negb (IsEmpty vts) then take (length engineKey - versionSuffixLen) engineKey else engineKey.

Definition keyPrefixOf (engineKey pfx : bytes) : bool := has_prefix engineKey pfx.

Definition versionOf (engineKey pfx : bytes) : Timestamp :=
  let rest := drop (length pfx) engineKey in
  if negb (length rest =? versionSuffixLen)%nat then ts0 else suffix_ts rest.

(** A tombstone is not found; a value is found, with Go's nil when empty. *)
Definition found_value (raw : bytes) : result mvcc_err (option (option bytes)) :=
  let* (data, tombstone) := lift_value (decodeMVCCValue raw) in
  if (tombstone : bool) then Ok None else Ok (Some (append_nil data)).

Definition no_intents (intents : list Intent) : bool := match intents with [] => true | _ => false end.

Section Scans.
Context {P : Pebble} {C : MetaCodec}.

(** [stepPastKey]; [n] is the number of steps left before the seek.  The
    returned bool of the source is [Valid] of the iterator. *)
Fixpoint stepPast_loop (n : nat) (it : pebbleIter) (cur_key pfx : bytes) : pebbleIter :=
  match cur it with
  | None => it
  | Some (k, _) =>
      if negb (keyPrefixOf k pfx) then it
      else match n with
           | O => SeekGE it (EncodeMVCCKey (Key_Next cur_key) ts0)
           | S n => stepPast_loop n (INext it) cur_key pfx
           end
  end.
Definition stepPastKey (it : pebbleIter) (cur_key pfx : bytes) : pebbleIter :=
  stepPast_loop maxStepsBeforeSeek it cur_key pfx.

Fixpoint stepToStart_loop (n : nat) (it : pebbleIter) (pfx : bytes) : pebbleIter :=
  match n with
  | O => SeekGE it pfx
  | S n =>
      let it := IPrev it in
      match cur it with
      | None => SeekGE it pfx
      | Some (k, _) => if negb (keyPrefixOf k pfx) then INext it else stepToStart_loop n it pfx
      end
  end.
Definition stepToKeyStart (it : pebbleIter) (pfx : bytes) : pebbleIter :=
  stepToStart_loop maxStepsBeforeSeek it pfx.

Fixpoint stepBefore_loop (n : nat) (it : pebbleIter) (pfx : bytes) : pebbleIter :=
  match n with
  | O => SeekLT it pfx
  | S n =>
      let it := IPrev it in
      match cur it with
      | None => it
      | Some (k, _) => if negb (keyPrefixOf k pfx) then it else stepBefore_loop n it pfx
      end
  end.
Definition stepBeforeKey (it : pebbleIter) (pfx : bytes) : pebbleIter :=
  stepBefore_loop maxStepsBeforeSeek it pfx.

(** The uncertainty walk of [mvccScanKey]. *)
Fixpoint scan_uncertain_loop (fuel : nat) (it : pebbleIter) (pfx : bytes) (ts skipAt limit : Timestamp)
    : pebbleIter * result mvcc_err unit :=
  match fuel with
  | O => (it, Err OutOfFuel)
  | S fuel =>
      match cur it with
      | None => (it, Ok tt)
      | Some (k, _) =>
          if negb (keyPrefixOf k pfx) then (it, Ok tt)
          else
            let uvts := versionOf k pfx in
            if LessEq uvts limit && negb (negb (IsEmpty skipAt) && Equal uvts skipAt) then
              if Less ts uvts then (it, Err (UncertaintyError ts uvts)) else (it, Ok tt)
            else scan_uncertain_loop fuel (INext it) pfx ts skipAt limit
      end
  end.

(** The walk to the newest version at or below [ts]; [steps] counts the
    steps since the last seek. *)
Fixpoint scan_value_loop (fuel : nat) (it : pebbleIter) (cur_key pfx : bytes) (ts skipAt : Timestamp) (steps : nat)
    : pebbleIter * result mvcc_err (option (option bytes)) :=
  match fuel with
  | O => (it, Err OutOfFuel)
  | S fuel =>
      match cur it with
      | None => (it, Ok None)
      | Some (k, v) =>
          if negb (keyPrefixOf k pfx) then (it, Ok None)
          else
            let cvts := versionOf k pfx in
            if Less ts cvts || (negb (IsEmpty skipAt) && Equal cvts skipAt) then
              if (maxStepsBeforeSeek <=? steps)%nat
              then scan_value_loop fuel (SeekGE it (EncodeMVCCKey cur_key ts)) cur_key pfx ts skipAt 0
              else scan_value_loop fuel (INext it) cur_key pfx ts skipAt (S steps)
            else (it, found_value v)
      end
  end.

(** [mvccScanKey] once past the intent. *)
Definition scan_versions (it : pebbleIter) (cur_key pfx : bytes) (ts : Timestamp) (opts : MVCCGetOptions)
    (readAt skipAt : Timestamp) (check : bool) : pebbleIter * result mvcc_err (option (option bytes)) :=
  let fuel := (2 * length (it_view (pit it)) + 3)%nat in
  if negb (IsEmpty readAt) then
    let it := SeekGE it (EncodeMVCCKey cur_key readAt) in
    match cur it with
    | Some (k, v) =>
        if keyPrefixOf k pfx && Equal (versionOf k pfx) readAt then (it, found_value v) else (it, Ok None)
    | None => (it, Ok None)
    end
  else
    let '(it, r) :=
      (if check && negb (IsEmpty (UncertaintyLimit opts)) && Less ts (UncertaintyLimit opts)
       then scan_uncertain_loop fuel it pfx ts skipAt (UncertaintyLimit opts)
       else (it, Ok tt)) in
    match r with
    | Err e => (it, Err e)
    | Ok _ => scan_value_loop fuel it cur_key pfx ts skipAt 0
    end.

(** [mvccScanKey]: the intents found so far are threaded. *)
Definition mvccScanKey (it : pebbleIter) (cur_key pfx : bytes) (ts : Timestamp) (opts : MVCCGetOptions)
    (intents : list Intent) : pebbleIter * list Intent * result mvcc_err (option (option bytes)) :=
  match cur it with
  | None => (it, intents, Ok None) (* not called: the iterator is on the key *)
  | Some (k, v) =>
      if IsEmpty (versionOf k pfx) then
        match decodeMeta v with
        | None => (it, intents, Err MetaError)
        | Some meta =>
            let go readAt skipAt :=
              let it := INext it in
              match cur it with
              | None => (it, intents, Ok None)
              | Some _ =>
                  let '(it, r) := scan_versions it cur_key pfx ts opts readAt skipAt (no_intents intents) in (it, intents, r)
              end in
            match intent_switch meta ts opts with
            | ReadAt t => go t ts0
            | SkipAt t => go ts0 t
            | Blocked =>
                let intents := intents ++ [mkIntent cur_key (mTxn meta)] in
                if (maxIntentsPerError <=? length intents)%nat
                then (it, intents, Err (WriteIntentError intents))
                else (it, intents, Ok None)
            end
        end
      else let '(it, r) := scan_versions it cur_key pfx ts opts ts0 ts0 (no_intents intents) in (it, intents, r)
  end.

(** Whether the row just added ends the page. *)
Definition page_full (max : Z) (opts : MVCCGetOptions) (rows : list KeyValue) (bytes : Z) : bool :=
  ((0 <? max) && (Z.of_nat (length rows) =? max)) || ((0 <? TargetBytes opts) && (TargetBytes opts <=? bytes)).

Definition row_bytes (k : bytes) (v : option bytes) : Z := Z.of_nat (length k + length (default [] v)).

Fixpoint scan_loop (fuel : nat) (it : pebbleIter) (ts : Timestamp) (max : Z) (opts : MVCCGetOptions)
    (rows : list KeyValue) (intents : list Intent) (bytes : Z) : result mvcc_err ScanResult :=
  match fuel with
  | O => Err OutOfFuel
  | S fuel =>
      match cur it with
      | None => match intents with [] => Ok (mkScan rows None) | _ => Err (WriteIntentError intents) end
      | Some (k, _) =>
          let* (cur_key, vts) := lift_key (DecodeMVCCKey k) in
          let pfx := appendMetaKeyOf k vts in
          let '(it, intents, r) := mvccScanKey it cur_key pfx ts opts intents in
          let* found := r in
          match found, intents with
          | Some v, [] =>
              let rows := rows ++ [mkKV cur_key v] in
              let bytes := bytes + row_bytes cur_key v in
              if page_full max opts rows bytes then Ok (mkScan rows (Some (Key_Next cur_key)))
              else scan_loop fuel (stepPastKey it cur_key pfx) ts max opts rows intents bytes
          | _, _ => scan_loop fuel (stepPastKey it cur_key pfx) ts max opts rows intents bytes
          end
      end
  end.

Definition MVCCScan (prefixBloom : bool) (s : store) (start end_ : bytes) (ts : Timestamp) (max : Z)
    (opts : MVCCGetOptions) : result mvcc_err ScanResult :=
  let lower := EncodeMVCCKey start ts0 in
  let upper := EncodeMVCCKey end_ ts0 in
  let it := NewIter prefixBloom s lower upper in
  scan_loop (S (length (it_view (pit it)))) (SeekGE it lower) ts max opts [] [] 0.

Fixpoint reverse_loop (fuel : nat) (it : pebbleIter) (ts : Timestamp) (max : Z) (opts : MVCCGetOptions)
    (rows : list KeyValue) (intents : list Intent) (bytes : Z) : result mvcc_err ScanResult :=
  let finish := match intents with [] => Ok (mkScan rows None) | _ => Err (WriteIntentError intents) end in
  match fuel with
  | O => Err OutOfFuel
  | S fuel =>
      match cur it with
      | None => finish
      | Some (k, _) =>
          let* (cur_key, vts) := lift_key (DecodeMVCCKey k) in
          let curStart := appendMetaKeyOf k vts in
          let it := stepToKeyStart it curStart in
          if negb (Valid it) then finish
          else
            let '(it, intents, r) := mvccScanKey it cur_key curStart ts opts intents in
            let* found := r in
            match found, intents with
            | Some v, [] =>
                let rows := rows ++ [mkKV cur_key v] in
                let bytes := bytes + row_bytes cur_key v in
                if page_full max opts rows bytes then Ok (mkScan rows (Some cur_key))
                else reverse_loop fuel (stepBeforeKey it curStart) ts max opts rows intents bytes
            | _, _ => reverse_loop fuel (stepBeforeKey it curStart) ts max opts rows intents bytes
            end
      end
  end.

Definition MVCCReverseScan (prefixBloom : bool) (s : store) (start end_ : bytes) (ts : Timestamp) (max : Z)
    (opts : MVCCGetOptions) : result mvcc_err ScanResult :=
  let lower := EncodeMVCCKey start ts0 in
  let upper := EncodeMVCCKey end_ ts0 in
  let it := NewIter prefixBloom s lower upper in
  reverse_loop (S (length (it_view (pit it)))) (SeekLT it upper) ts max opts [] [] 0.

(** ** Refresh (MVCCCheckForWrites) *)

(** The inner loop: past the transaction's own provisional version to the
    newest version at or below [toTS]. *)
Fixpoint refresh_inner (fuel : nat) (it : pebbleIter) (cur_key : bytes) (fromTS toTS skipAt : Timestamp)
    : pebbleIter * result mvcc_err unit :=
  match fuel with
  | O => (it, Err OutOfFuel)
  | S fuel =>
      match cur it with
      | None => (it, Ok tt)
      | Some (x, _) =>
          match lift_key (DecodeMVCCKey x) with
          | Err e => (it, Err e)
          | Ok (k, cvts) =>
              if negb (beqb k cur_key) then (it, Ok tt)
              else if negb (IsEmpty skipAt) && Equal cvts skipAt
              then refresh_inner fuel (INext it) cur_key fromTS toTS skipAt
              else if Less fromTS cvts then (it, Err (RefreshFailed cur_key cvts fromTS toTS))
              else (it, Ok tt)
          end
      end
  end.

Fixpoint refresh_loop (fuel : nat) (it : pebbleIter) (fromTS toTS : Timestamp) (ownTxn : uuid)
    : result mvcc_err unit :=
  match fuel with
  | O => Err OutOfFuel
  | S fuel =>
      match cur it with
      | None => Ok tt
      | Some (x, v) =>
          let* (cur_key, vts) := lift_key (DecodeMVCCKey x) in
          let rest it skipAt :=
            let it := SeekGE it (EncodeMVCCKey cur_key toTS) in
            let '(it, r) := refresh_inner (S (length (it_view (pit it)))) it cur_key fromTS toTS skipAt in
            let* _ := r in
            refresh_loop fuel (SeekGE it (EncodeMVCCKey (Key_Next cur_key) ts0)) fromTS toTS ownTxn in
          if IsEmpty vts then
            let* meta := lift_meta (decodeMeta v) in
            if negb (beqb (ID (mTxn meta)) ownTxn) then Err (WriteIntentError [mkIntent cur_key (mTxn meta)])
            else
              let it := INext it in
              if negb (Valid it) then Ok tt else rest it (mTimestamp meta)
          else rest it ts0
      end
  end.

Definition MVCCCheckForWrites (prefixBloom : bool) (s : store) (start end_ : bytes) (fromTS toTS : Timestamp)
    (ownTxn : uuid) : result mvcc_err unit :=
  let lower := EncodeMVCCKey start ts0 in
  let upper := EncodeMVCCKey end_ ts0 in
  let it := NewIter prefixBloom s lower upper in
  refresh_loop (S (length (it_view (pit it)))) (SeekGE it lower) fromTS toTS ownTxn.

(** ** Export *)

Record ExportedRecord := mkExported { erKey : bytes; erValue : option bytes; erDeleted : bool }.
Record ExportResult := mkExport { Records : list ExportedRecord; exResume : option bytes }.

(** The version the iterator is on after the seek to [endTS], when it is
    [cur_key]'s and above [startTS] (the inner loop runs at most once). *)
Definition export_key (it : pebbleIter) (cur_key : bytes) (startTS : Timestamp)
    : result mvcc_err (option ExportedRecord) :=
  match cur it with
  | None => Ok None
  | Some (x, v) =>
      let* (k, cvts) := lift_key (DecodeMVCCKey x) in
      if negb (beqb k cur_key) then Ok None
      else if LessEq cvts startTS then Ok None
      else
        let* (data, tombstone) := lift_value (decodeMVCCValue v) in
        Ok (Some (mkExported cur_key (if (tombstone : bool) then None else append_nil data) tombstone))
  end.

Fixpoint export_loop (fuel : nat) (it : pebbleIter) (startTS endTS : Timestamp) (max : Z)
    (recs : list ExportedRecord) (intents : list Intent) : result mvcc_err ExportResult :=
  match fuel with
  | O => Err OutOfFuel
  | S fuel =>
      match cur it with
      | None => match intents with [] => Ok (mkExport recs None) | _ => Err (WriteIntentError intents) end
      | Some (x, v) =>
          let* (cur_key, vts) := lift_key (DecodeMVCCKey x) in
          let next it recs intents :=
            export_loop fuel (SeekGE it (EncodeMVCCKey (Key_Next cur_key) ts0)) startTS endTS max recs intents in
          let value :=
            let it := SeekGE it (EncodeMVCCKey cur_key endTS) in
            let* rec := export_key it cur_key startTS in
            match rec, intents with
            | Some rec, [] =>
                let recs := recs ++ [rec] in
                if (0 <? max) && (Z.of_nat (length recs) =? max)
                then Ok (mkExport recs (Some (Key_Next cur_key)))
                else next it recs intents
            | _, _ => next it recs intents
            end in
          if IsEmpty vts then
            let* meta := lift_meta (decodeMeta v) in
            if negb (Less endTS (mTimestamp meta)) then
              let intents := intents ++ [mkIntent cur_key (mTxn meta)] in
              if (maxIntentsPerError <=? length intents)%nat then Err (WriteIntentError intents)
              else next it recs intents
            else value
          else value
      end
  end.

Definition MVCCExport (prefixBloom : bool) (s : store) (start end_ : bytes) (startTS endTS : Timestamp) (max : Z)
    : result mvcc_err ExportResult :=
  let lower := EncodeMVCCKey start ts0 in
  let upper := EncodeMVCCKey end_ ts0 in
  let it := NewIter prefixBloom s lower upper in
  export_loop (S (length (it_view (pit it)))) (SeekGE it lower) startTS endTS max [] [].
End Scans.
