(* ===== verification/MvccRange.v ===== *)
(** * Correctness of MVCC range operations

    The engine keys of a span are the views of its user keys, in key order
    ([range_rows]).  Scans over them refine a loop over the abstract states
    of the keys ([ref_scan]), in key order or in reverse; the bounded walks
    of the source end where a seek would. *)

From S2P Require Import Prelude Encoding Hlc Keys MvccKey Pebble Enginepb Mvcc MvccView MvccRead MvccWrite MvccState MvccScan.

(** A user key, its metadata entry and its versions. *)
Abbreviation row := (list Z * option (list Z) * list (Timestamp * list Z))%type (only parsing).

Definition row_key (r : row) : bytes := r.1.1.
Definition row_view (r : row) : list entry := key_view r.1.1 r.1.2 r.2.
Definition rows_view (rs : list row) : list entry := concat (map row_view rs).
Definition row_lt (a b : row) : Prop := row_key a ≺ row_key b.

Section Rows.
Context {P : Pebble} {PL : PebbleLaws P} {C : MetaCodec}.

Definition row_ok (r : row) : Prop :=
  IsLocal (row_key r) = false /\ bytes_ok (row_key r) /\ versions_sorted r.2 /\ row_view r <> [].

Lemma row_view_prefix r e : e ∈ row_view r -> exists x, e.1 = metaKey (row_key r) ++ x.
Proof.
  unfold row_view, key_view. intros He. apply elem_of_app in He as [He|He].
  - destruct r.1.2; [|by apply not_elem_of_nil in He]. apply list_elem_of_singleton in He as ->.
    exists []. by rewrite app_nil_r.
  - apply list_elem_of_In, in_map_iff in He as (v & <- & _). by eexists.
Qed.

Lemma metaKey_lt k k' r s : bytes_ok k -> bytes_ok k' -> k ≺ k' -> metaKey k ++ r ≺ metaKey k' ++ s.
Proof. intros Hk Hk' H. by rewrite metaKey_compare, H. Qed.

Lemma metaKey_le k k' r : bytes_ok k -> bytes_ok k' -> k ≼ k' -> metaKey k ≼ metaKey k' ++ r.
Proof.
  intros Hk Hk' H. apply ble_lt_eq in H as [H| ->]; [|apply bcompare_app_r].
  apply blt_ble. rewrite <- (app_nil_r (metaKey k)). by apply metaKey_lt.
Qed.

Lemma row_lt_entries a b x y :
  row_ok a -> row_ok b -> row_lt a b -> x ∈ row_view a -> y ∈ row_view b -> entry_lt x y.
Proof.
  intros Ha Hb Hlt Hx Hy. apply row_view_prefix in Hx as [p Hx]. apply row_view_prefix in Hy as [q Hy].
  unfold entry_lt. rewrite Hx, Hy. apply metaKey_lt; [apply Ha|apply Hb|done].
Qed.

(** The key of an entry is recognised by its prefix. *)
Lemma keyPrefixOf_own r e : e ∈ row_view r -> keyPrefixOf e.1 (metaKey (row_key r)) = true.
Proof. intros He. apply row_view_prefix in He as [x ->]. apply has_prefix_app. Qed.

Lemma keyPrefixOf_other a b e :
  row_ok a -> row_ok b -> row_key a <> row_key b -> e ∈ row_view b -> keyPrefixOf e.1 (metaKey (row_key a)) = false.
Proof.
  intros Ha Hb Hne He. apply row_view_prefix in He as [x ->]. apply not_true_is_false. intros H.
  apply has_prefix_spec in H as [y H]. by apply metaKey_inj_app in H as [H _].
Qed.

Lemma versionOf_version k t : ts_ok t -> versionOf (vkey k t) (metaKey k) = t.
Proof.
  intros Ht. unfold versionOf, vkey. rewrite drop_app_length, length_suffix_of. cbn. by apply suffix_ts_of.
Qed.

Lemma versionOf_meta k : versionOf (metaKey k) (metaKey k) = ts0.
Proof. unfold versionOf. rewrite drop_ge by lia. done. Qed.

Lemma appendMetaKeyOf_version k t : t <> ts0 -> appendMetaKeyOf (vkey k t) t = metaKey k.
Proof.
  intros Ht. unfold appendMetaKeyOf. apply IsEmpty_neq in Ht. rewrite Ht. cbn [negb]. unfold vkey.
  rewrite length_app, length_suffix_of, Nat.add_sub. by rewrite take_app_length.
Qed.

Lemma Decode_meta k : DecodeMVCCKey (metaKey k) = Ok (k, ts0).
Proof. apply (DecodeMVCCKey_meta k). Qed.

(** ** The rows of a span *)

Definition rows_ok (rs : list row) : Prop := Forall row_ok rs /\ StronglySorted row_lt rs.

Lemma rows_view_elem rs e : e ∈ rows_view rs <-> exists r, r ∈ rs /\ e ∈ row_view r.
Proof.
  unfold rows_view. rewrite list_elem_of_In, in_concat. split.
  - intros (l & Hl & He). apply in_map_iff in Hl as (r & <- & Hr). exists r. by rewrite !list_elem_of_In.
  - intros (r & Hr & He). exists (row_view r). rewrite !list_elem_of_In in *. split; [by apply in_map|done].
Qed.

Lemma row_view_sorted r : row_ok r -> StronglySorted entry_lt (row_view r).
Proof.
  intros (_ & Hk & [Hs Hv] & _). unfold row_view, key_view. apply sorted_app. split; [destruct r.1.2; repeat constructor|].
  split.
  - induction Hs as [|v vs Hs IH Hf]; cbn [map]; [constructor|]. inversion Hv as [|? ? Hv1 Hv2]; subst.
    constructor; [by apply IH|]. rewrite Forall_forall in Hf, Hv2. apply Forall_forall. intros e He.
    apply list_elem_of_In, in_map_iff in He as (u & <- & Hu). apply list_elem_of_In in Hu.
    specialize (Hf u Hu). specialize (Hv2 u Hu). unfold entry_lt, ventry. cbn [fst snd] in *.
    apply bleb_gt. rewrite bleb_vkey by (apply Hv1 || apply Hv2). apply LessEq_gt. done.
  - intros a b Ha Hb. destruct r.1.2; [|by apply not_elem_of_nil in Ha]. apply list_elem_of_singleton in Ha as ->.
    apply list_elem_of_In, in_map_iff in Hb as (u & <- & _). apply meta_lt_vkey.
Qed.

Lemma rows_view_sorted rs : rows_ok rs -> StronglySorted entry_lt (rows_view rs).
Proof.
  intros [Hok Hs]. induction Hs as [|r rs Hs IH Hf]; [constructor|]. inversion Hok; subst.
  unfold rows_view. cbn [map concat]. apply sorted_app. split; [by apply row_view_sorted|]. split; [by apply IH|].
  intros a b Ha Hb. apply rows_view_elem in Hb as (r' & Hr' & Hb). rewrite Forall_forall in *.
  eapply row_lt_entries; [done| |by apply Hf|done..]. auto.
Qed.

(** ** Steps past and before a key *)

(** The iterator is within the engine keys of row [r], or just past them,
    with [pre] before the row and [post] after it. *)
Definition within (it : pebbleIter) (pre : list entry) (r : row) (post : list entry) : Prop :=
  exists a b, row_view r = a ++ b /\ plain_at it (pre ++ a) (b ++ post).

(** [pre] and [post] belong to smaller and larger keys. *)
Definition around (pre : list entry) (r : row) (post : list entry) : Prop :=
  row_ok r /\
  Forall (fun e => exists k x, bytes_ok k /\ k ≺ row_key r /\ e.1 = metaKey k ++ x) pre /\
  Forall (fun e => exists k x, bytes_ok k /\ row_key r ≺ k /\ e.1 = metaKey k ++ x) post.

Lemma around_other pre r post e :
  around pre r post -> e ∈ pre \/ e ∈ post -> keyPrefixOf e.1 (metaKey (row_key r)) = false.
Proof.
  intros (Hr & Hpre & Hpost) He. rewrite Forall_forall in *. apply not_true_is_false. intros H.
  apply has_prefix_spec in H as [y H]. destruct He as [He|He].
  - destruct (Hpre e He) as (k & x & _ & Hlt & Hx). rewrite Hx in H. apply metaKey_inj_app in H as [-> _].
    by apply blt_irrefl in Hlt.
  - destruct (Hpost e He) as (k & x & _ & Hlt & Hx). rewrite Hx in H. apply metaKey_inj_app in H as [-> _].
    by apply blt_irrefl in Hlt.
Qed.

(** [k ++ [0]] is the least key above [k]. *)
Lemma Key_Next_least k k' : bytes_ok k' -> k ≺ k' -> Key_Next k ≼ k'.
Proof.
  intros Hk'. unfold Key_Next. revert k' Hk'. induction k as [|c k IH]; intros [|d k'] Hk' H; try done.
  - inversion Hk' as [|? ? Hd]; subst. unfold is_byte in Hd. cbn [app bcompare].
    destruct (Z.compare_spec 0 d); [|done|lia]. destruct k'; done.
  - cbn [bcompare] in H. cbn [app bcompare]. destruct (c ?= d); [|done..]. inversion Hk'; subst. by apply IH.
Qed.

Lemma Key_Next_ok k : bytes_ok k -> bytes_ok (Key_Next k).
Proof. intros H. apply Forall_app. split; [done|]. constructor; [unfold is_byte; lia|constructor]. Qed.

Lemma Key_Next_gt k : k ≺ Key_Next k.
Proof. apply blt_app_cons. Qed.

Lemma stepPastKey_at it pre r post :
  around pre r post -> within it pre r post ->
  plain_at (stepPastKey it (row_key r) (metaKey (row_key r))) (pre ++ row_view r) post.
Proof.
  intros Har (a & b & Hab & Hat). unfold stepPastKey. revert it a b Hab Hat.
  induction maxStepsBeforeSeek as [|n IH]; intros it a b Hab Hat; cbn [stepPast_loop];
    rewrite (plain_cur _ _ _ Hat); destruct b as [|[x v] b]; cbn [app head].
  1, 3: rewrite app_nil_r in Hab; rewrite Hab; destruct post as [|[x v] post]; [exact Hat|]; cbn [head];
    assert (keyPrefixOf x (metaKey (row_key r)) = false) as ->
      by (apply (around_other pre r ((x, v) :: post) (x, v)); [done|right; apply list_elem_of_here]); exact Hat.
  - assert (Hin : (x, v) ∈ row_view r) by (rewrite Hab; apply elem_of_app; right; apply list_elem_of_here).
    pose proof (keyPrefixOf_own r (x, v) Hin) as Hpfx. cbn [fst] in Hpfx. rewrite Hpfx. cbn [negb]. destruct (plain_view _ _ _ Hat) as [Hv Hs].
    destruct Har as (Hr & Hpre & Hpost). pose proof Hr as (_ & Hk & _).
    apply plain_seek_to; [done|rewrite Hv, Hab, <- !app_assoc; done| |].
    + apply Forall_app. split.
      * eapply Forall_impl; [exact Hpre|]. intros e (k & y & Hk' & Hlt & ->).
        rewrite EncodeMVCCKey_meta, <- (app_nil_r (metaKey (Key_Next _))). apply metaKey_lt; [done|by apply Key_Next_ok|].
        eapply blt_trans; [exact Hlt|apply Key_Next_gt].
      * apply Forall_forall. intros e He. apply row_view_prefix in He as [y ->].
        rewrite EncodeMVCCKey_meta, <- (app_nil_r (metaKey (Key_Next _))). apply metaKey_lt; [done|by apply Key_Next_ok|apply Key_Next_gt].
    + eapply Forall_impl; [exact Hpost|]. intros e (k & y & Hk' & Hlt & ->).
      rewrite EncodeMVCCKey_meta. apply metaKey_le; [by apply Key_Next_ok|done|by apply Key_Next_least].
  - assert (Hin : (x, v) ∈ row_view r) by (rewrite Hab; apply elem_of_app; right; apply list_elem_of_here).
    pose proof (keyPrefixOf_own r (x, v) Hin) as Hpfx. cbn [fst] in Hpfx. rewrite Hpfx. cbn [negb]. apply (IH _ (a ++ [(x, v)]) b).
    + by rewrite Hab, <- app_assoc.
    + rewrite app_assoc. by apply plain_next.
Qed.

(** ** Reading one key *)

Definition candidate (ts skipAt : Timestamp) (v : version) : bool := LessEq v.1 ts && negb (skipped skipAt v.1).

Lemma candidate_mono ts lim skipAt v : ts <t lim -> candidate lim skipAt v = false -> candidate ts skipAt v = false.
Proof.
  intros Hlt. unfold candidate. rewrite !andb_false_iff. intros [H|H]; [|by right]. left. tsb. apply LessEq_gt. ts_lia.
Qed.

Definition found_of (o : option version) : result mvcc_err (option (option bytes)) :=
  match o with Some v => found_value v.2 | None => Ok None end.

(** The iterator is on the versions [b] of [r], after [a]. *)
Definition on_versions (it : pebbleIter) (pre : list entry) (r : row) (post : list entry) (a b : list version) : Prop :=
  r.2 = a ++ b /\
  plain_at it (pre ++ match r.1.2 with Some raw => [(metaKey (row_key r), raw)] | None => [] end ++ map (ventry (row_key r)) a)
    (map (ventry (row_key r)) b ++ post).

Lemma on_versions_within it pre r post a b : on_versions it pre r post a b -> within it pre r post.
Proof.
  intros [Hr Hat]. eexists _, _. split; [|exact Hat]. unfold row_view, key_view. rewrite Hr, map_app.
  by destruct r.1.2.
Qed.

Lemma on_versions_next it pre r post a v b :
  on_versions it pre r post a (v :: b) -> on_versions (INext it) pre r post (a ++ [v]) b.
Proof.
  intros [Hr Hat]. split; [by rewrite <- app_assoc|]. rewrite map_app. cbn [map app] in *.
  apply plain_next in Hat. by rewrite <- !app_assoc in Hat.
Qed.

Lemma on_versions_cur it pre r post a b :
  on_versions it pre r post a b ->
  cur it = match b with v :: _ => Some (ventry (row_key r) v) | [] => head post end.
Proof. intros [_ Hat]. rewrite (plain_cur _ _ _ Hat). by destruct b. Qed.

Lemma on_versions_valid it pre r post a b :
  row_ok r -> on_versions it pre r post a b -> Forall (fun v : version => ts_valid v.1) b.
Proof. intros (_ & _ & [_ Hv] & _) [Hr _]. rewrite Hr in Hv. by apply Forall_app in Hv as [_ Hv]. Qed.

Lemma on_versions_own it pre r post a v b :
  row_ok r -> on_versions it pre r post a (v :: b) ->
  keyPrefixOf (vkey (row_key r) v.1) (metaKey (row_key r)) = true /\
  versionOf (vkey (row_key r) v.1) (metaKey (row_key r)) = v.1.
Proof.
  intros Hr Hat. split; [apply has_prefix_app|]. apply versionOf_version.
  pose proof (on_versions_valid _ _ _ _ _ _ Hr Hat) as Hv. inversion Hv as [|? ? Hv1]; subst. apply Hv1.
Qed.

Lemma head_post_other pre r post e : around pre r post -> head post = Some e -> keyPrefixOf e.1 (metaKey (row_key r)) = false.
Proof.
  intros Har He. apply (around_other pre r post); [done|]. right. destruct post; [done|]. injection He as ->. apply list_elem_of_here.
Qed.

(** A seek to a version timestamp, from anywhere in the view. *)
Lemma seek_version it pre r post t :
  around pre r post -> ts_ok t -> StronglySorted entry_lt (view it) -> view it = pre ++ row_view r ++ post ->
  exists a, on_versions (SeekGE it (vkey (row_key r) t)) pre r post a (from_ts t r.2).
Proof.
  intros Har Ht Hs Hv. pose proof Har as (Hr & Hpre & Hpost). pose proof Hr as (_ & Hk & [Hvs Hval] & _).
  destruct (from_ts_suffix t r.2) as (a & Ha & Hf). exists a. split; [done|].
  apply plain_seek_to; [done| | |].
  - rewrite Hv. unfold row_view, key_view. rewrite Ha at 1. rewrite map_app. by destruct r.1.2; cbn; rewrite <- ?app_assoc.
  - apply Forall_app. split; [|apply Forall_app; split].
    + eapply Forall_impl; [exact Hpre|]. intros e (k & x & Hk' & Hlt & ->). by apply metaKey_lt.
    + destruct r.1.2; constructor; [apply meta_lt_vkey|constructor].
    + rewrite Ha in Hval. apply Forall_app in Hval as [Hval _]. rewrite Forall_forall in Hf, Hval.
      apply Forall_forall. intros e He. apply list_elem_of_In, in_map_iff in He as (u & <- & Hu). apply list_elem_of_In in Hu.
      cbn [ventry fst]. apply bleb_gt. rewrite bleb_vkey by (done || apply Hval; done). apply LessEq_gt. by apply Hf.
  - apply Forall_app. split.
    + pose proof (from_ts_le t r.2 Hvs) as Hle. rewrite Ha in Hval. apply Forall_app in Hval as [_ Hval].
      rewrite Forall_forall in Hle, Hval. apply Forall_forall. intros e He.
      apply list_elem_of_In, in_map_iff in He as (u & <- & Hu). apply list_elem_of_In in Hu.
      cbn [ventry fst]. apply bleb_le. rewrite bleb_vkey by (done || apply Hval; done). apply LessEq_le. by apply Hle.
    + eapply Forall_impl; [exact Hpost|]. intros e (k & x & Hk' & Hlt & ->). apply blt_ble. by apply metaKey_lt.
Qed.

Lemma on_versions_view it pre r post a b :
  on_versions it pre r post a b -> view it = pre ++ row_view r ++ post /\ StronglySorted entry_lt (view it).
Proof.
  intros [Hr Hat]. destruct (plain_view _ _ _ Hat) as [Hv Hs]. split; [|done]. rewrite Hv. unfold row_view, key_view.
  rewrite Hr, map_app. by destruct r.1.2; cbn; rewrite <- ?app_assoc.
Qed.

Lemma scan_uncertain_at fuel : forall it pre r post a b ts skipAt limit,
  around pre r post -> on_versions it pre r post a b -> (length b < fuel)%nat ->
  exists it' b1 b2,
    scan_uncertain_loop fuel it (metaKey (row_key r)) ts skipAt limit =
      (it', match first (candidate limit skipAt) b with
            | Some v => if Less ts v.1 then Err (UncertaintyError ts v.1) else Ok tt
            | None => Ok tt
            end) /\
    b = b1 ++ b2 /\ Forall (fun v => candidate limit skipAt v = false) b1 /\ on_versions it' pre r post (a ++ b1) b2.
Proof.
  induction fuel as [|fuel IH]; intros it pre r post a b ts skipAt limit Har Hat Hf; [lia|].
  cbn [scan_uncertain_loop]. rewrite (on_versions_cur _ _ _ _ _ _ Hat). destruct b as [|v b].
  - exists it, [], []. rewrite (app_nil_r a). split; [|split; [done|split; [by apply Forall_nil|done]]].
    destruct (head post) as [[x w]|] eqn:Eh; [|done].
    pose proof (head_post_other _ _ _ _ Har Eh) as Hp. cbn [fst] in Hp. by rewrite Hp.
  - pose proof Har as (Hr & _). cbn [ventry].
    destruct (on_versions_own _ _ _ _ _ _ _ Hr Hat) as [-> ->]. cbn [negb first]. fold (skipped skipAt v.1). fold (candidate limit skipAt v).
    destruct (candidate limit skipAt v) eqn:Ec.
    + exists it, [], (v :: b). rewrite (app_nil_r a).
      split; [by destruct (Less ts v.1)|split; [done|split; [by apply Forall_nil|done]]].
    + destruct (IH (INext it) pre r post (a ++ [v]) b ts skipAt limit) as (it' & b1 & b2 & -> & -> & Hb1 & Hat');
        [done|by apply on_versions_next|cbn in Hf; lia|].
      exists it', (v :: b1), b2. split; [done|]. split; [done|]. split; [by constructor|]. by rewrite <- app_assoc in Hat'.
Qed.

(** Once every version left is at or below [ts], two steps decide. *)
Lemma scan_value_low fuel it pre r post a b ts skipAt :
  around pre r post -> on_versions it pre r post a b -> Forall (fun v : version => v.1 <=t ts) b -> (3 <= fuel)%nat ->
  exists it',
    scan_value_loop fuel it (row_key r) (metaKey (row_key r)) ts skipAt 0 = (it', found_of (first (candidate ts skipAt) b)) /\
    within it' pre r post.
Proof.
  intros Har Hat Hle Hf. pose proof Har as (Hr & _). destruct fuel as [|[|fuel]]; [lia..|].
  assert (Hstop : forall n it a b steps, on_versions it pre r post a b -> Forall (fun v : version => v.1 <=t ts) b ->
    match b with v :: _ => skipped skipAt v.1 = false | [] => True end ->
    exists it', scan_value_loop (S n) it (row_key r) (metaKey (row_key r)) ts skipAt steps = (it', found_of (first (candidate ts skipAt) b)) /\
      within it' pre r post).
  { clear Hat Hle a b it. intros n it a b steps Hat Hle Hsk. exists it. split; [|by eapply on_versions_within].
    cbn [scan_value_loop]. rewrite (on_versions_cur _ _ _ _ _ _ Hat). destruct b as [|v b].
    - destruct (head post) as [[x w]|] eqn:Eh; [|done].
      pose proof (head_post_other _ _ _ _ Har Eh) as Hp. cbn [fst] in Hp. by rewrite Hp.
    - cbn [ventry]. destruct (on_versions_own _ _ _ _ _ _ _ Hr Hat) as [-> ->]. cbn [negb first]. fold (skipped skipAt v.1).
      inversion Hle as [|? ? Hv]; subst. unfold candidate. rewrite Hsk, orb_false_r, andb_true_r.
      pose proof (proj2 (LessEq_le _ _) Hv) as Hl. rewrite Hl.
      destruct (Less ts v.1) eqn:El; [tsb; ts_lia|]. done. }
  destruct b as [|v b]; [by apply (Hstop _ _ a [])|].
  destruct (skipped skipAt v.1) eqn:Esk; [|by apply (Hstop _ _ a (v :: b))].
  remember (S fuel) as m eqn:Em.
  cbn [scan_value_loop]. rewrite (on_versions_cur _ _ _ _ _ _ Hat).
  cbn [ventry]. destruct (on_versions_own _ _ _ _ _ _ _ Hr Hat) as [-> ->]. cbn [negb]. fold (skipped skipAt v.1).
  rewrite Esk, orb_true_r. cbn [Nat.leb maxStepsBeforeSeek].
  inversion Hle as [|? ? _ Hle']; subst.
  destruct (Hstop fuel (INext it) (a ++ [v]) b 1%nat) as (it' & Heq & Hw); [by apply on_versions_next|done| |].
  - destruct b as [|u b]; [done|]. destruct Hat as [Hrv _]. pose proof Hr as (_ & _ & [Hs _] & _). rewrite Hrv in Hs.
    assert (u.1 <t v.1).
    { apply (StronglySorted_app_1_elem_of (fun a b : version => b.1 <t a.1) (a ++ [v]) (u :: b) v u);
        [by rewrite <- app_assoc|apply elem_of_app; right; by apply list_elem_of_singleton|apply list_elem_of_here]. }
    unfold skipped in *. apply andb_true_iff in Esk as [-> Esk]. apply Equal_eq in Esk. cbn [andb].
    apply Equal_neq. intros E. rewrite E, Esk in H. ts_lia.
  - exists it'. split; [|done]. rewrite Heq. cbn [first]. unfold candidate at 2. by rewrite Esk, andb_false_r.
Qed.

(** The whole walk: the first candidate among the versions left. *)
Lemma scan_value_at b : forall fuel it pre r post a ts skipAt steps,
  around pre r post -> on_versions it pre r post a b -> ts_valid ts ->
  Forall (fun v => candidate ts skipAt v = false) a -> (length b + 4 <= fuel)%nat ->
  exists it',
    scan_value_loop fuel it (row_key r) (metaKey (row_key r)) ts skipAt steps = (it', found_of (first (candidate ts skipAt) b)) /\
    within it' pre r post.
Proof.
  induction b as [|v b IH]; intros fuel it pre r post a ts skipAt steps Har Hat Hts Ha Hf; pose proof Har as (Hr & _);
    (destruct fuel as [|fuel]; [cbn in Hf; lia|]); cbn [scan_value_loop]; rewrite (on_versions_cur _ _ _ _ _ _ Hat).
  - exists it. split; [|by eapply on_versions_within]. destruct (head post) as [[x w]|] eqn:Eh; [|done].
    pose proof (head_post_other _ _ _ _ Har Eh) as Hp. cbn [fst] in Hp. by rewrite Hp.
  - cbn [ventry]. destruct (on_versions_own _ _ _ _ _ _ _ Hr Hat) as [-> ->]. cbn [negb first]. fold (skipped skipAt v.1).
    assert (Hc : Less ts v.1 || skipped skipAt v.1 = negb (candidate ts skipAt v)).
    { unfold candidate, LessEq. by destruct (Less ts v.1), (skipped skipAt v.1). }
    rewrite Hc. destruct (candidate ts skipAt v) eqn:Ec; cbn [negb].
    { exists it. split; [done|]. by eapply on_versions_within. }
    assert (Ha' : Forall (fun v => candidate ts skipAt v = false) (a ++ [v])).
    { apply Forall_app. split; [done|]. by constructor. }
    destruct (maxStepsBeforeSeek <=? steps)%nat.
    + rewrite EncodeMVCCKey_vkey by apply Hts. destruct (on_versions_view _ _ _ _ _ _ Hat) as [Hv Hs].
      destruct (seek_version it pre r post ts Har (proj1 Hts) Hs Hv) as (a' & Hat').
      pose proof Hr as (_ & _ & [Hsort _] & _).
      destruct (scan_value_low fuel (SeekGE it (vkey (row_key r) ts)) pre r post a' (from_ts ts r.2) ts skipAt)
        as (it' & Heq & Hw); [done..|by apply from_ts_le|cbn in Hf; lia|].
      exists it'. split; [|done]. rewrite Heq. do 2 f_equal.
      transitivity (first (candidate ts skipAt) r.2).
      * symmetry. etransitivity; [by apply newest_from_ts|]. apply first_ext.
        eapply Forall_impl; [by apply from_ts_le|]. intros u Hu. cbn in Hu. unfold candidate.
        by rewrite (proj2 (LessEq_le _ _) Hu).
      * destruct Hat as [-> _]. rewrite first_app. rewrite (proj2 (first_none _ a) Ha). cbn [first]. by rewrite Ec.
    + apply (IH fuel (INext it) pre r post (a ++ [v])); try done; [by apply on_versions_next|cbn in Hf; lia].
Qed.

(** ** The reference scan *)

(** A key of the scan: not found for a tombstone or no visible version. *)
Definition ref_scan_versions (vs : list version) (ts : Timestamp) (opts : MVCCGetOptions) (skipAt : Timestamp) (check : bool)
    : result mvcc_err (option (option bytes)) :=
  let* _ := (if check then ref_uncertain vs ts skipAt opts else Ok tt) in
  found_of (newest vs ts skipAt).

Definition ref_scan_key (k : bytes) (K : kstate) (ts : Timestamp) (opts : MVCCGetOptions) (intents : list Intent)
    : list Intent * result mvcc_err (option (option bytes)) :=
  match k_intent K with
  | Some meta =>
      match intent_switch meta ts opts with
      | ReadAt t =>
          (intents, match lookup_version t (k_versions K) with Some raw => found_value raw | None => Ok None end)
      | SkipAt t => (intents, ref_scan_versions (k_versions K) ts opts t (no_intents intents))
      | Blocked =>
          let intents := intents ++ [mkIntent k (mTxn meta)] in
          (intents, if (maxIntentsPerError <=? length intents)%nat then Err (WriteIntentError intents) else Ok None)
      end
  | None => (intents, ref_scan_versions (k_versions K) ts opts ts0 (no_intents intents))
  end.

(** What the scan loop does with the rows of its keys; [resume] is where
    a page that is full at [k] resumes. *)
Fixpoint ref_scan (resume : bytes -> bytes) (keys : list (bytes * kstate)) (ts : Timestamp) (max : Z) (opts : MVCCGetOptions)
    (rows : list KeyValue) (intents : list Intent) (bytes : Z) : result mvcc_err ScanResult :=
  match keys with
  | [] => match intents with [] => Ok (mkScan rows None) | _ => Err (WriteIntentError intents) end
  | (k, K) :: keys =>
      let '(intents, r) := ref_scan_key k K ts opts intents in
      let* found := r in
      match found, intents with
      | Some v, [] =>
          let rows := rows ++ [mkKV k v] in
          let bytes := bytes + row_bytes k v in
          if page_full max opts rows bytes then Ok (mkScan rows (Some (resume k)))
          else ref_scan resume keys ts max opts rows intents bytes
      | _, _ => ref_scan resume keys ts max opts rows intents bytes
      end
  end.

(** The abstract state of a row whose metadata decodes. *)
Definition row_state (r : row) : kstate :=
  mkK (match r.1.2 with Some raw => decodeMeta raw | None => None end) r.2.

Definition row_meta_ok (r : row) : Prop :=
  match r.1.2 with
  | Some raw => exists meta, decodeMeta raw = Some meta /\ ts_valid (mTimestamp meta)
  | None => True
  end.

Lemma scan_versions_normal it pre r post ts opts skipAt check :
  around pre r post -> on_versions it pre r post [] r.2 -> ts_valid ts ->
  exists it',
    scan_versions it (row_key r) (metaKey (row_key r)) ts opts ts0 skipAt check =
      (it', ref_scan_versions r.2 ts opts skipAt check) /\
    within it' pre r post.
Proof.
  intros Har Hat Hts. unfold scan_versions, ref_scan_versions. cbn [IsEmpty ts0 negb].
  set (fuel := (2 * length (it_view (pit it)) + 3)%nat).
  assert (Hlen : forall l : list version, (length l <= length r.2)%nat -> (length l + 4 <= fuel)%nat \/ r.2 = []).
  { intros l Hl. destruct (decide (r.2 = [])) as [|Hne]; [by right|left]. destruct (on_versions_view _ _ _ _ _ _ Hat) as [Hv _].
    unfold fuel. fold (view it). rewrite Hv. unfold row_view, key_view. rewrite !length_app, length_map.
    destruct r.2; [done|]. cbn [length] in *. lia. }
  assert (Hfuel : forall l : list version, (length l <= length r.2)%nat -> (length l + 4 <= fuel)%nat).
  { intros l Hl. destruct (Hlen l Hl) as [|E]; [done|]. pose proof Har as ((_ & _ & _ & Hne) & _).
    rewrite E in Hl. destruct l; [|cbn in Hl; lia]. destruct (on_versions_view _ _ _ _ _ _ Hat) as [Hv _].
    unfold fuel. fold (view it). rewrite Hv, !length_app. destruct (row_view r); [done|]. cbn [length]. lia. }
  assert (Hval : forall it a b, r.2 = a ++ b -> on_versions it pre r post a b ->
    Forall (fun v => candidate ts skipAt v = false) a ->
    exists it', scan_value_loop fuel it (row_key r) (metaKey (row_key r)) ts skipAt 0 = (it', found_of (newest r.2 ts skipAt)) /\
      within it' pre r post).
  { intros it1 a b Hab Hat1 Ha.
    destruct (scan_value_at b fuel it1 pre r post a ts skipAt 0) as (it' & Heq & Hw); try done.
    { apply Hfuel. rewrite Hab, length_app. lia. }
    exists it'. split; [|done]. rewrite Heq. do 2 f_equal. unfold newest. fold (candidate ts skipAt). rewrite Hab, first_app.
    by rewrite (proj2 (first_none _ a) Ha). }
  destruct check; cbn [andb]; [|apply (Hval it [] r.2); [done|done|by apply Forall_nil]].
  unfold ref_uncertain, has_uncertainty. destruct (negb (IsEmpty (UncertaintyLimit opts)) && Less ts (UncertaintyLimit opts)) eqn:Eu;
    [|apply (Hval it [] r.2); [done|done|by apply Forall_nil]].
  apply andb_true_iff in Eu as [_ Eu]. apply Less_lt in Eu.
  destruct (scan_uncertain_at fuel it pre r post [] r.2 ts skipAt (UncertaintyLimit opts)) as (it1 & b1 & b2 & -> & Hb & Hb1 & Hat1);
    [done|done|specialize (Hfuel r.2 ltac:(lia)); lia|].
  unfold newest. fold (candidate (UncertaintyLimit opts) skipAt).
  destruct (first (candidate (UncertaintyLimit opts) skipAt) r.2) as [[v raw]|]; cbn [rbind fst].
  - destruct (Less ts v); cbn [rbind]; [exists it1; split; [done|by eapply on_versions_within]|].
    apply (Hval it1 b1 b2); [done|done|]. eapply Forall_impl; [exact Hb1|]. intros u Hu. by eapply candidate_mono.
  - apply (Hval it1 b1 b2); [done|done|]. eapply Forall_impl; [exact Hb1|]. intros u Hu. by eapply candidate_mono.
Qed.

Lemma scan_versions_own it pre r post a b ts opts t skipAt check :
  around pre r post -> on_versions it pre r post a b -> ts_valid t ->
  exists it',
    scan_versions it (row_key r) (metaKey (row_key r)) ts opts t skipAt check =
      (it', match lookup_version t r.2 with Some raw => found_value raw | None => Ok None end) /\
    within it' pre r post.
Proof.
  intros Har Hat [Ht Hne]. unfold scan_versions. apply IsEmpty_neq in Hne as Hne'. rewrite Hne'. cbn [negb].
  rewrite EncodeMVCCKey_vkey by done. destruct (on_versions_view _ _ _ _ _ _ Hat) as [Hv Hs].
  destruct (seek_version it pre r post t Har Ht Hs Hv) as (a' & Hat').
  exists (SeekGE it (vkey (row_key r) t)). split; [|by eapply on_versions_within].
  pose proof Har as (Hr & _). pose proof Hr as (_ & _ & [Hsort _] & _).
  unfold lookup_version. rewrite first_equal_from_ts by done. rewrite (on_versions_cur _ _ _ _ _ _ Hat').
  destruct (from_ts t r.2) as [|[v raw] l].
  - cbn [head]. destruct (head post) as [[x w]|] eqn:Eh; [|done].
    pose proof (head_post_other _ _ _ _ Har Eh) as Hp. cbn [fst] in Hp. by rewrite Hp.
  - cbn [ventry head]. destruct (on_versions_own _ _ _ _ _ _ _ Hr Hat') as [-> ->]. cbn [fst snd andb].
    by destruct (Equal v t).
Qed.

(** [mvccScanKey] from the first engine key of a row. *)
Lemma mvccScanKey_at it pre r post ts opts intents :
  around pre r post -> row_meta_ok r -> plain_at it pre (row_view r ++ post) -> ts_valid ts ->
  exists it',
    mvccScanKey it (row_key r) (metaKey (row_key r)) ts opts intents =
      (it', (ref_scan_key (row_key r) (row_state r) ts opts intents).1,
       (ref_scan_key (row_key r) (row_state r) ts opts intents).2) /\
    within it' pre r post.
Proof.
  intros Har Hm Hat Hts. pose proof Har as (Hr & _). unfold mvccScanKey, ref_scan_key, row_state.
  cbn [k_intent k_versions]. rewrite (plain_cur _ _ _ Hat).
  assert (Hstart : r.1.2 = None -> on_versions it pre r post [] r.2).
  { intros E. split; [done|]. rewrite E, app_nil_r. unfold row_view, key_view in Hat. by rewrite E in Hat. }
  assert (Hnext : forall raw, r.1.2 = Some raw -> on_versions (INext it) pre r post [] r.2).
  { intros raw E. split; [done|]. rewrite E, app_nil_r. unfold row_view, key_view in Hat. rewrite E in Hat.
    apply (plain_next _ _ _ _ Hat). }
  assert (Hhere : within it pre r post) by (exists [], (row_view r); split; [done|by rewrite app_nil_r]).
  destruct r.1.2 as [raw|] eqn:Emo.
  - unfold row_view, key_view. rewrite Emo. cbn [app head]. rewrite versionOf_meta. cbn [IsEmpty ts0].
    unfold row_meta_ok in Hm. rewrite Emo in Hm. destruct Hm as (meta & Hd & Hmt). rewrite Hd.
    specialize (Hnext raw eq_refl). pose proof (on_versions_cur _ _ _ _ _ _ Hnext) as Hcur.
    destruct (intent_switch meta ts opts) as [t|t|] eqn:Esw.
    + assert (t = mTimestamp meta) as -> by (revert Esw; unfold intent_switch; repeat case_match; by intros [= <-]).
      destruct (scan_versions_own (INext it) pre r post [] r.2 ts opts (mTimestamp meta) ts0 (no_intents intents))
        as (it' & Heq & Hw); [done..|].
      destruct (cur (INext it)) as [e|]; [rewrite Heq; by exists it'|].
      exists (INext it). split; [|by eapply on_versions_within].
      destruct r.2 as [|]; [done|]. done.
    + destruct (scan_versions_normal (INext it) pre r post ts opts t (no_intents intents)) as (it' & Heq & Hw); [done..|].
      destruct (cur (INext it)) as [e|] eqn:Ec; [rewrite Heq; by exists it'|].
      exists (INext it). split; [|by eapply on_versions_within].
      destruct r.2 as [|] eqn:Ev; [|done]. unfold ref_scan_versions, ref_uncertain. cbn [newest first found_of].
      by destruct (no_intents intents), (has_uncertainty ts opts).
    + exists it. split; [|done]. by destruct (maxIntentsPerError <=? _)%nat.
  - specialize (Hstart eq_refl). unfold row_view, key_view. rewrite Emo. cbn [app].
    pose proof Hr as (_ & _ & _ & Hnev). unfold row_view, key_view in Hnev. rewrite Emo in Hnev.
    destruct (scan_versions_normal it pre r post ts opts ts0 (no_intents intents)) as (it' & Heq & Hw); [done..|].
    destruct r.2 as [|v vs] eqn:Ev; [done|]. cbn [map app head ventry]. change r.1.1 with (row_key r).
    destruct (on_versions_own _ _ _ _ _ _ _ Hr Hstart) as [_ ->].
    assert (IsEmpty v.1 = false) as ->.
    { apply IsEmpty_neq. pose proof (on_versions_valid _ _ _ _ _ _ Hr Hstart) as Hvv. inversion Hvv as [|? ? Hv1]; subst. apply Hv1. }
    rewrite Heq. by exists it'.
Qed.

(** ** The loops over the rows of a span *)

Definition row_pair (r : row) : bytes * kstate := (row_key r, row_state r).

Lemma rows_around pre done_ r rs :
  rows_ok (done_ ++ r :: rs) -> pre = rows_view done_ -> around pre r (rows_view rs).
Proof.
  intros [Hok Hs] ->. apply Forall_app in Hok as [Hok1 Hok2]. inversion Hok2 as [|? ? Hr Hok3]; subst.
  assert (Hlt : forall a, a ∈ done_ -> row_lt a r).
  { intros a Ha. apply (StronglySorted_app_1_elem_of row_lt done_ (r :: rs) a r); [done..|apply list_elem_of_here]. }
  assert (Hgt : forall b, b ∈ rs -> row_lt r b).
  { intros b Hb. apply (StronglySorted_app_1_elem_of row_lt (done_ ++ [r]) rs r b); [by rewrite <- app_assoc| |done].
    apply elem_of_app. right. by apply list_elem_of_singleton. }
  rewrite Forall_forall in Hok1, Hok3.
  split; [done|]. split; apply Forall_forall; intros e He; apply rows_view_elem in He as (q & Hq & He);
    apply row_view_prefix in He as [x ->]; exists (row_key q), x.
  - split; [by apply Hok1|]. split; [by apply Hlt|done].
  - split; [by apply Hok3|]. split; [by apply Hgt|done].
Qed.

(** Any entry of a row gives its key and prefix. *)
Lemma row_entry r e : row_ok r -> e ∈ row_view r ->
  exists t, DecodeMVCCKey e.1 = Ok (row_key r, t) /\ appendMetaKeyOf e.1 t = metaKey (row_key r).
Proof.
  intros (_ & _ & [_ Hv] & _) He. unfold row_view, key_view in He. apply elem_of_app in He as [He|He].
  - destruct r.1.2 as [raw|]; [|by apply not_elem_of_nil in He]. apply list_elem_of_singleton in He as ->.
    exists ts0. split; [apply Decode_meta|done].
  - apply list_elem_of_In, in_map_iff in He as (v & <- & Hin). apply list_elem_of_In in Hin.
    rewrite Forall_forall in Hv. destruct (Hv v Hin) as [Hv1 Hv2].
    exists v.1. split; [by apply Decode_vkey|by apply appendMetaKeyOf_version].
Qed.

Lemma scan_loop_at rs : forall fuel it done_ ts max opts rows intents bytes,
  rows_ok (done_ ++ rs) -> Forall row_meta_ok rs -> plain_at it (rows_view done_) (rows_view rs) -> ts_valid ts ->
  (length rs < fuel)%nat ->
  scan_loop fuel it ts max opts rows intents bytes = ref_scan Key_Next (map row_pair rs) ts max opts rows intents bytes.
Proof.
  induction rs as [|r rs IH]; intros fuel it done_ ts max opts rows intents bytes Hok Hm Hat Hts Hf;
    (destruct fuel as [|fuel]; [lia|]); cbn [scan_loop]; rewrite (plain_cur _ _ _ Hat); [done|].
  inversion Hm as [|? ? Hm1 Hm2]; subst.
  pose proof (rows_around _ done_ r rs Hok eq_refl) as Har. pose proof Har as (Hr & _).
  destruct (row_view r) as [|[x w] l] eqn:Erv; [by destruct Hr as (_ & _ & _ & ?)|].
  unfold rows_view at 1. cbn [map concat]. rewrite Erv. cbn [app head].
  destruct (row_entry r (x, w) Hr) as (t & Hdec & Hpfx); [rewrite Erv; apply list_elem_of_here|]. cbn [fst] in *. rewrite Hdec. cbn [lift_key rmap_err rbind].
  rewrite Hpfx. destruct (mvccScanKey_at it (rows_view done_) r (rows_view rs) ts opts intents) as (it' & -> & Hw); [done..|].
  cbn [ref_scan row_pair map]. destruct (ref_scan_key (row_key r) (row_state r) ts opts intents) as [intents' res].
  cbn [fst snd]. destruct res as [found|e]; [|done]. cbn [rbind].
  assert (Hnext : forall rows bytes,
    scan_loop fuel (stepPastKey it' (row_key r) (metaKey (row_key r))) ts max opts rows intents' bytes =
    ref_scan Key_Next (map row_pair rs) ts max opts rows intents' bytes).
  { intros rows' bytes'. apply (IH fuel _ (done_ ++ [r])); [by rewrite <- app_assoc|done| |done|cbn in Hf; lia].
    unfold rows_view at 1. rewrite map_app, concat_app. cbn [map concat]. rewrite app_nil_r.
    by apply stepPastKey_at. }
  destruct found as [v|]; [|by rewrite Hnext]. destruct intents' as [|i l']; [|by rewrite Hnext].
  destruct (page_full _ _ _ _); [done|]. by rewrite Hnext.
Qed.

(** ** Reverse scans *)

(** The iterator is on the last of [pre], or there is none. *)
Definition at_last (it : pebbleIter) (pre post : list entry) : Prop :=
  match last pre with
  | None => cur it = None
  | Some y => plain_at it (removelast pre) (y :: post)
  end.

Lemma at_last_snoc it pre y post : plain_at it pre (y :: post) -> at_last it (pre ++ [y]) post.
Proof. intros H. unfold at_last. by rewrite last_snoc, removelast_last. Qed.

Lemma around_seek pre r post e :
  around pre r post ->
  Forall (fun e => e.1 ≺ metaKey (row_key r)) pre /\
  Forall (fun e => metaKey (row_key r) ≼ e.1) (row_view r ++ post) /\ (e ∈ pre -> keyPrefixOf e.1 (metaKey (row_key r)) = false).
Proof.
  intros Har. pose proof Har as (Hr & Hpre & Hpost). pose proof Hr as (_ & Hk & _). split; [|split].
  - eapply Forall_impl; [exact Hpre|]. intros x (k & y & Hk' & Hlt & ->).
    rewrite <- (app_nil_r (metaKey (row_key r))). by apply metaKey_lt.
  - apply Forall_app. split.
    + apply Forall_forall. intros x Hx. apply row_view_prefix in Hx as [y ->]. apply bcompare_app_r.
    + eapply Forall_impl; [exact Hpost|]. intros x (k & y & Hk' & Hlt & ->). apply metaKey_le; [done|done|by apply blt_ble].
  - intros He. apply (around_other pre r post); [done|by left].
Qed.

Lemma stepToKeyStart_at it pre r post :
  around pre r post -> (exists a b, row_view r = a ++ b /\ b <> [] /\ plain_at it (pre ++ a) (b ++ post)) ->
  plain_at (stepToKeyStart it (metaKey (row_key r))) pre (row_view r ++ post).
Proof.
  intros Har (a & b & Hab & Hb & Hat). unfold stepToKeyStart. revert it a b Hab Hb Hat.
  assert (Hseek : forall it, StronglySorted entry_lt (view it) -> view it = pre ++ row_view r ++ post ->
    plain_at (SeekGE it (metaKey (row_key r))) pre (row_view r ++ post)).
  { intros it Hs Hv. destruct (around_seek pre r post ([], []) Har) as (H1 & H2 & _). by apply plain_seek_to. }
  induction maxStepsBeforeSeek as [|n IH]; intros it a b Hab Hb Hat; cbn [stepToStart_loop];
    destruct (plain_view _ _ _ Hat) as [Hv Hs];
    (assert (Hv' : view it = pre ++ row_view r ++ post) by (by rewrite Hv, Hab, <- !app_assoc)).
  { by apply Hseek. }
  destruct a as [|x a _] using rev_ind.
  - rewrite app_nil_r in Hat. cbn [app] in Hab. subst b. destruct pre as [|y pre _] using rev_ind.
    + rewrite (plain_prev_start _ _ Hat). apply Hseek; by rewrite view_IPrev.
    + apply plain_prev in Hat. rewrite (plain_cur _ _ _ Hat). cbn [head]. destruct y as [y w].
      destruct (around_seek _ _ _ (y, w) Har) as (_ & _ & Hno). cbn [fst] in Hno.
      rewrite Hno by (apply elem_of_app; right; by apply list_elem_of_singleton). cbn [negb]. by apply plain_next.
  - rewrite app_assoc in Hat. apply plain_prev in Hat. rewrite (plain_cur _ _ _ Hat). cbn [head]. destruct x as [x w].
    assert (Hin : (x, w) ∈ row_view r).
    { rewrite Hab. apply elem_of_app. left. apply elem_of_app. right. by apply list_elem_of_singleton. }
    pose proof (keyPrefixOf_own r (x, w) Hin) as Hpfx. cbn [fst] in Hpfx. rewrite Hpfx. cbn [negb].
    apply (IH _ a ((x, w) :: b)); [by rewrite Hab, <- app_assoc|done|exact Hat].
Qed.

Lemma stepBeforeKey_at it pre r post :
  around pre r post -> within it pre r post -> at_last (stepBeforeKey it (metaKey (row_key r))) pre (row_view r ++ post).
Proof.
  intros Har (a & b & Hab & Hat). unfold stepBeforeKey. revert it a b Hab Hat.
  assert (Hseek : forall it, StronglySorted entry_lt (view it) -> view it = pre ++ row_view r ++ post ->
    at_last (SeekLT it (metaKey (row_key r))) pre (row_view r ++ post)).
  { intros it Hs Hv. destruct (around_seek pre r post ([], []) Har) as (H1 & H2 & _).
    destruct pre as [|y pre _] using rev_ind.
    - apply plain_seek_lt_none; [done|]. by rewrite Hv.
    - apply at_last_snoc, plain_seek_lt_to; [done| |done|done]. by rewrite Hv, <- app_assoc. }
  induction maxStepsBeforeSeek as [|n IH]; intros it a b Hab Hat; cbn [stepBefore_loop];
    destruct (plain_view _ _ _ Hat) as [Hv Hs];
    (assert (Hv' : view it = pre ++ row_view r ++ post) by (by rewrite Hv, Hab, <- !app_assoc)).
  { by apply Hseek. }
  destruct a as [|x a _] using rev_ind.
  - rewrite app_nil_r in Hat. cbn [app] in Hab. subst b. destruct pre as [|y pre _] using rev_ind.
    + pose proof (plain_prev_start _ _ Hat) as Hc. rewrite Hc. exact Hc.
    + apply plain_prev in Hat. rewrite (plain_cur _ _ _ Hat). cbn [head]. destruct y as [y w].
      destruct (around_seek _ _ _ (y, w) Har) as (_ & _ & Hno). cbn [fst] in Hno.
      rewrite Hno by (apply elem_of_app; right; by apply list_elem_of_singleton). cbn [negb]. by apply at_last_snoc.
  - rewrite app_assoc in Hat. apply plain_prev in Hat. rewrite (plain_cur _ _ _ Hat). cbn [head]. destruct x as [x w].
    assert (Hin : (x, w) ∈ row_view r).
    { rewrite Hab. apply elem_of_app. left. apply elem_of_app. right. by apply list_elem_of_singleton. }
    pose proof (keyPrefixOf_own r (x, w) Hin) as Hpfx. cbn [fst] in Hpfx. rewrite Hpfx. cbn [negb].
    apply (IH _ a ((x, w) :: b)); [by rewrite Hab, <- app_assoc|exact Hat].
Qed.

Lemma reverse_loop_at rs : forall fuel it post ts max opts rows intents bytes,
  rows_ok (rs ++ post) -> Forall row_meta_ok rs -> at_last it (rows_view rs) (rows_view post) -> ts_valid ts ->
  (length rs < fuel)%nat ->
  reverse_loop fuel it ts max opts rows intents bytes =
    ref_scan (fun k => k) (map row_pair (reverse rs)) ts max opts rows intents bytes.
Proof.
  induction rs as [|r rs IH] using rev_ind; intros fuel it post ts max opts rows intents bytes Hok Hm Hat Hts Hf;
    (destruct fuel as [|fuel]; [lia|]); cbn [reverse_loop].
  { unfold at_last in Hat. cbn in Hat. by rewrite Hat. }
  apply Forall_app in Hm as [Hm2 Hm1]. rewrite Forall_singleton in Hm1. rewrite <- app_assoc in Hok. cbn [app] in Hok.
  pose proof (rows_around _ rs r post Hok eq_refl) as Har. pose proof Har as (Hr & _).
  assert (Hrv : rows_view (rs ++ [r]) = rows_view rs ++ row_view r).
  { unfold rows_view. rewrite map_app, concat_app. cbn [map concat]. by rewrite app_nil_r. }
  rewrite Hrv in Hat. destruct (row_view r) as [|[x w] l _] eqn:Erv using rev_ind; [by destruct Hr as (_ & _ & _ & ?)|].
  unfold at_last in Hat. rewrite app_assoc, last_snoc, removelast_last in Hat.
  rewrite (plain_cur _ _ _ Hat). cbn [head].
  destruct (row_entry r (x, w) Hr) as (t & Hdec & Hpfx).
  { rewrite Erv. apply elem_of_app. right. by apply list_elem_of_singleton. }
  cbn [fst] in *. rewrite Hdec. cbn [lift_key rmap_err rbind]. rewrite Hpfx.
  assert (Hstart : plain_at (stepToKeyStart it (metaKey (row_key r))) (rows_view rs) (row_view r ++ rows_view post)).
  { apply stepToKeyStart_at; [done|]. exists l, [(x, w)]. done. }
  assert (Valid (stepToKeyStart it (metaKey (row_key r))) = true) as ->.
  { unfold Valid. apply bool_decide_eq_true_2. rewrite (plain_cur _ _ _ Hstart), Erv. destruct l; cbn; eauto. }
  cbn [negb]. destruct (mvccScanKey_at _ (rows_view rs) r (rows_view post) ts opts intents Har Hm1 Hstart Hts) as (it' & -> & Hw).
  rewrite reverse_snoc. cbn [map ref_scan row_pair].
  destruct (ref_scan_key (row_key r) (row_state r) ts opts intents) as [intents' res].
  cbn [fst snd]. destruct res as [found|e]; [|done]. cbn [rbind].
  assert (Hnext : forall rows bytes,
    reverse_loop fuel (stepBeforeKey it' (metaKey (row_key r))) ts max opts rows intents' bytes =
    ref_scan (fun k => k) (map row_pair (reverse rs)) ts max opts rows intents' bytes).
  { intros rows' bytes'. apply (IH fuel _ (r :: post)); [done|done| |done|rewrite length_app in Hf; cbn in Hf; lia].
    by apply stepBeforeKey_at. }
  destruct found as [v|]; [|by rewrite Hnext]. destruct intents' as [|i l']; [|by rewrite Hnext].
  destruct (page_full _ _ _ _); [done|]. by rewrite Hnext.
Qed.

(** ** Refresh and export *)

Lemma seek_past it pre r post :
  around pre r post -> StronglySorted entry_lt (view it) -> view it = pre ++ row_view r ++ post ->
  plain_at (SeekGE it (EncodeMVCCKey (Key_Next (row_key r)) ts0)) (pre ++ row_view r) post.
Proof.
  intros (Hr & Hpre & Hpost) Hs Hv. pose proof Hr as (_ & Hk & _). rewrite EncodeMVCCKey_meta.
  apply plain_seek_to; [done|by rewrite Hv, <- app_assoc| |].
  - apply Forall_app. rewrite <- (app_nil_r (metaKey (Key_Next _))). split.
    + eapply Forall_impl; [exact Hpre|]. intros e (k & y & Hk' & Hlt & ->).
      apply metaKey_lt; [done|by apply Key_Next_ok|]. eapply blt_trans; [exact Hlt|apply Key_Next_gt].
    + apply Forall_forall. intros e He. apply row_view_prefix in He as [y ->].
      apply metaKey_lt; [done|by apply Key_Next_ok|apply Key_Next_gt].
  - eapply Forall_impl; [exact Hpost|]. intros e (k & y & Hk' & Hlt & ->).
    apply metaKey_le; [by apply Key_Next_ok|done|by apply Key_Next_least].
Qed.

(** The outcome of the refresh check on one key. *)
Definition ref_refresh_key (k : bytes) (K : kstate) (fromTS toTS : Timestamp) (ownTxn : uuid) : result mvcc_err unit :=
  let versions skipAt :=
    match newest (k_versions K) toTS skipAt with
    | Some (t, _) => if Less fromTS t then Err (RefreshFailed k t fromTS toTS) else Ok tt
    | None => Ok tt
    end in
  match k_intent K with
  | Some meta =>
      if negb (beqb (ID (mTxn meta)) ownTxn) then Err (WriteIntentError [mkIntent k (mTxn meta)])
      else versions (mTimestamp meta)
  | None => versions ts0
  end.

Fixpoint ref_refresh (keys : list (bytes * kstate)) (fromTS toTS : Timestamp) (ownTxn : uuid) : result mvcc_err unit :=
  match keys with
  | [] => Ok tt
  | (k, K) :: keys => let* _ := ref_refresh_key k K fromTS toTS ownTxn in ref_refresh keys fromTS toTS ownTxn
  end.

Lemma post_head_other_key pre r post e :
  around pre r post -> head post = Some e -> (exists k t, DecodeMVCCKey e.1 = Ok (k, t)) ->
  exists k t, DecodeMVCCKey e.1 = Ok (k, t) /\ beqb k (row_key r) = false.
Proof.
  intros (_ & _ & Hpost) He (k & t & Hd). exists k, t. split; [done|]. apply beqb_neq. intros ->.
  destruct post as [|e' post]; [done|]. injection He as ->. inversion Hpost as [|? ? (k' & x & _ & Hlt & Hx)]; subst.
  destruct (DecodeMVCCKey_inv _ _ _ Hd) as (y & Hy & _). rewrite Hx in Hy. apply metaKey_inj_app in Hy as [-> _].
  by apply blt_irrefl in Hlt.
Qed.

(** Every entry after the row decodes. *)
Definition decodes (l : list entry) : Prop := Forall (fun e => exists k t, DecodeMVCCKey e.1 = Ok (k, t)) l.

Lemma rows_decode rs : Forall row_ok rs -> decodes (rows_view rs).
Proof.
  intros Hok. apply Forall_forall. intros e He. apply rows_view_elem in He as (r & Hr & He).
  rewrite Forall_forall in Hok. destruct (row_entry r e (Hok r Hr) He) as (t & Ht & _). eauto.
Qed.

Lemma refresh_inner_at b : forall fuel it pre r post a fromTS toTS skipAt,
  around pre r post -> decodes post -> on_versions it pre r post a b -> (length b < fuel)%nat ->
  exists it',
    refresh_inner fuel it (row_key r) fromTS toTS skipAt =
      (it', match first (fun v => negb (skipped skipAt v.1)) b with
            | Some (t, _) => if Less fromTS t then Err (RefreshFailed (row_key r) t fromTS toTS) else Ok tt
            | None => Ok tt
            end) /\
    view it' = view it.
Proof.
  induction b as [|v b IH]; intros fuel it pre r post a fromTS toTS skipAt Har Hdec Hat Hf; pose proof Har as (Hr & _);
    (destruct fuel as [|fuel]; [lia|]); cbn [refresh_inner first]; rewrite (on_versions_cur _ _ _ _ _ _ Hat).
  - exists it. split; [|done]. destruct (head post) as [[x w]|] eqn:Eh; [|done].
    destruct (post_head_other_key pre r post (x, w) Har Eh) as (k & t & Hd & Hne).
    { destruct post; [done|]. injection Eh as ->. by inversion Hdec. }
    cbn [fst] in Hd. rewrite Hd. cbn [lift_key rmap_err]. by rewrite Hne.
  - pose proof (on_versions_valid _ _ _ _ _ _ Hr Hat) as Hval. inversion Hval as [|? ? [Hv1 _]]; subst.
    cbn [ventry]. rewrite Decode_vkey by done. cbn [lift_key rmap_err]. rewrite beqb_refl. cbn [negb].
    fold (skipped skipAt v.1). destruct (skipped skipAt v.1); cbn [negb].
    + destruct (IH fuel (INext it) pre r post (a ++ [v]) fromTS toTS skipAt) as (it' & Heq & Hv); try done;
        [by apply on_versions_next|cbn in Hf; lia|]. exists it'. split; [done|]. by rewrite Hv, view_INext.
    + exists it. destruct v as [t raw]. cbn [fst]. by destruct (Less fromTS t).
Qed.

Lemma refresh_loop_at rs : forall fuel it done_ fromTS toTS own,
  rows_ok (done_ ++ rs) -> Forall row_meta_ok rs -> plain_at it (rows_view done_) (rows_view rs) -> ts_valid toTS ->
  (length rs < fuel)%nat ->
  refresh_loop fuel it fromTS toTS own = ref_refresh (map row_pair rs) fromTS toTS own.
Proof.
  induction rs as [|r rs IH]; intros fuel it done_ fromTS toTS own Hok Hm Hat Hts Hf;
    (destruct fuel as [|fuel]; [lia|]); cbn [refresh_loop]; rewrite (plain_cur _ _ _ Hat); [done|].
  inversion Hm as [|? ? Hm1 Hm2]; subst.
  pose proof (rows_around _ done_ r rs Hok eq_refl) as Har. pose proof Har as (Hr & _).
  pose proof Hok as [Hrok _]. apply Forall_app in Hrok as [_ Hrok]. inversion Hrok as [|? ? _ Hrok']; subst.
  pose proof (rows_decode rs Hrok') as Hdec. destruct (plain_view _ _ _ Hat) as [Hv Hs].
  assert (Hview : view it = rows_view done_ ++ row_view r ++ rows_view rs) by done.
  assert (Hrest : forall it1 skipAt, view it1 = view it ->
    (let it2 := SeekGE it1 (EncodeMVCCKey (row_key r) toTS) in
     let '(it3, res) := refresh_inner (S (length (it_view (pit it2)))) it2 (row_key r) fromTS toTS skipAt in
     let* _ := res in refresh_loop fuel (SeekGE it3 (EncodeMVCCKey (Key_Next (row_key r)) ts0)) fromTS toTS own) =
    (let* _ := match newest r.2 toTS skipAt with
               | Some (t, _) => if Less fromTS t then Err (RefreshFailed (row_key r) t fromTS toTS) else Ok tt
               | None => Ok tt
               end in ref_refresh (map row_pair rs) fromTS toTS own)).
  { intros it1 skipAt Hv1. rewrite EncodeMVCCKey_vkey by apply Hts. cbn zeta.
    destruct (seek_version it1 (rows_view done_) r (rows_view rs) toTS Har (proj1 Hts)) as (a & Hat1); [by rewrite Hv1|by rewrite Hv1|].
    destruct (refresh_inner_at (from_ts toTS r.2) (S (length (it_view (pit (SeekGE it1 (vkey (row_key r) toTS))))))
      _ _ _ _ _ fromTS toTS skipAt Har Hdec Hat1) as (it3 & -> & Hv3).
    { destruct (on_versions_view _ _ _ _ _ _ Hat1) as [Hv2 _]. fold (view (SeekGE it1 (vkey (row_key r) toTS))). rewrite Hv2.
      unfold row_view, key_view. rewrite !length_app, length_map. pose proof (from_ts_length toTS r.2). lia. }
    rewrite <- newest_from_ts by apply Hr.
    destruct (match newest r.2 toTS skipAt with Some (t, _) => _ | None => _ end); [|done]. cbn [rbind].
    apply (IH fuel _ (done_ ++ [r])); [by rewrite <- app_assoc|done| |done|cbn in Hf; lia].
    unfold rows_view at 1. rewrite map_app, concat_app. cbn [map concat]. rewrite app_nil_r.
    rewrite view_SeekGE, Hv1 in Hv3. apply seek_past; [done|by rewrite Hv3|by rewrite Hv3]. }
  destruct (row_view r) as [|[x w] l] eqn:Erv; [by destruct Hr as (_ & _ & _ & ?)|].
  unfold rows_view at 1. cbn [map concat]. rewrite Erv. cbn [app head].
  destruct (row_entry r (x, w) Hr) as (t & Hd & _); [rewrite Erv; apply list_elem_of_here|]. cbn [fst] in Hd.
  rewrite Hd. cbn [lift_key rmap_err rbind ref_refresh row_pair map]. unfold ref_refresh_key, row_state. cbn [k_intent k_versions].
  pose proof Erv as Erv0. unfold row_view, key_view in Erv. unfold row_meta_ok in Hm1. destruct r.1.2 as [raw|].
  - injection Erv as <- <- El. cbn [app] in El. rewrite <- El in Erv0. rewrite Decode_meta in Hd. injection Hd as <-. cbn [IsEmpty ts0].
    destruct Hm1 as (meta & -> & _). cbn [lift_meta rbind].
    destruct (beqb (ID (mTxn meta)) own); cbn [negb]; [|done].
    unfold Valid. case_bool_decide as Hvalid; cbn [negb].
    + apply Hrest. by rewrite view_INext.
    + assert (Hend : r.2 = [] /\ rs = []).
      { unfold rows_view in Hat. cbn [map concat] in Hat. rewrite Erv0 in Hat. cbn [app] in Hat.
        apply plain_next, plain_cur in Hat. rewrite Hat in Hvalid.
        destruct r.2; [|by destruct Hvalid; eexists]. split; [done|]. destruct rs as [|q rs]; [done|]. exfalso. apply Hvalid.
        inversion Hrok' as [|? ? Hq _]; subst. destruct Hq as (_ & _ & _ & Hq). cbn [map concat app].
        destruct (row_view q); [done|]. by eexists. }
      destruct Hend as [-> ->]. done.
  - destruct r.2 as [|v vs] eqn:Ev; [done|]. injection Erv as <- <- _.
    destruct Hr as (_ & _ & [_ Hvv] & _). rewrite Ev in Hvv. inversion Hvv as [|? ? [Hv1 Hv2]]; subst.
    rewrite Decode_vkey in Hd by done. injection Hd as <-. rewrite (proj2 (IsEmpty_neq _) Hv2). by apply Hrest.
Qed.

(** The record an export makes of a key's versions. *)
Definition export_record (k : bytes) (raw : bytes) : result mvcc_err ExportedRecord :=
  let* (data, tombstone) := lift_value (decodeMVCCValue raw) in
  Ok (mkExported k (if (tombstone : bool) then None else append_nil data) tombstone).

Definition ref_export_key (k : bytes) (vs : list version) (startTS endTS : Timestamp)
    : result mvcc_err (option ExportedRecord) :=
  match newest vs endTS ts0 with
  | Some (t, raw) => if LessEq t startTS then Ok None else let* r := export_record k raw in Ok (Some r)
  | None => Ok None
  end.

Fixpoint ref_export (keys : list (bytes * kstate)) (startTS endTS : Timestamp) (max : Z)
    (recs : list ExportedRecord) (intents : list Intent) : result mvcc_err ExportResult :=
  match keys with
  | [] => match intents with [] => Ok (mkExport recs None) | _ => Err (WriteIntentError intents) end
  | (k, K) :: keys =>
      let value :=
        let* rec := ref_export_key k (k_versions K) startTS endTS in
        match rec, intents with
        | Some rec, [] =>
            let recs := recs ++ [rec] in
            if (0 <? max) && (Z.of_nat (length recs) =? max) then Ok (mkExport recs (Some (Key_Next k)))
            else ref_export keys startTS endTS max recs intents
        | _, _ => ref_export keys startTS endTS max recs intents
        end in
      match k_intent K with
      | Some meta =>
          if negb (Less endTS (mTimestamp meta)) then
            let intents := intents ++ [mkIntent k (mTxn meta)] in
            if (maxIntentsPerError <=? length intents)%nat then Err (WriteIntentError intents)
            else ref_export keys startTS endTS max recs intents
          else value
      | None => value
      end
  end.

Lemma export_key_at it pre r post a startTS endTS :
  around pre r post -> decodes post -> on_versions it pre r post a (from_ts endTS r.2) ->
  export_key it (row_key r) startTS = ref_export_key (row_key r) r.2 startTS endTS.
Proof.
  intros Har Hdec Hat. pose proof Har as (Hr & _). unfold export_key, ref_export_key.
  rewrite (on_versions_cur _ _ _ _ _ _ Hat). rewrite newest_from_ts by apply Hr.
  destruct (from_ts endTS r.2) as [|[t raw] l] eqn:Ef.
  - cbn [first]. destruct (head post) as [[x w]|] eqn:Eh; [|done].
    destruct (post_head_other_key pre r post (x, w) Har Eh) as (k & t & Hd & Hne).
    { destruct post; [done|]. injection Eh as ->. by inversion Hdec. }
    cbn [fst] in Hd. rewrite Hd. cbn [lift_key rmap_err rbind]. by rewrite Hne.
  - pose proof (on_versions_valid _ _ _ _ _ _ Hr Hat) as Hval. inversion Hval as [|? ? [Hv1 _]]; subst.
    cbn [ventry first fst snd]. change (skipped ts0 t) with false. rewrite Decode_vkey by done. cbn [lift_key rmap_err rbind negb].
    rewrite beqb_refl. cbn [negb]. destruct (LessEq t startTS); [done|]. unfold export_record.
    by destruct (lift_value (decodeMVCCValue raw)) as [[]|].
Qed.

Lemma export_loop_at rs : forall fuel it done_ startTS endTS max recs intents,
  rows_ok (done_ ++ rs) -> Forall row_meta_ok rs -> plain_at it (rows_view done_) (rows_view rs) -> ts_valid endTS ->
  (length rs < fuel)%nat ->
  export_loop fuel it startTS endTS max recs intents = ref_export (map row_pair rs) startTS endTS max recs intents.
Proof.
  induction rs as [|r rs IH]; intros fuel it done_ startTS endTS max recs intents Hok Hm Hat Hts Hf;
    (destruct fuel as [|fuel]; [lia|]); cbn [export_loop]; rewrite (plain_cur _ _ _ Hat); [done|].
  inversion Hm as [|? ? Hm1 Hm2]; subst.
  pose proof (rows_around _ done_ r rs Hok eq_refl) as Har. pose proof Har as (Hr & _).
  pose proof Hok as [Hrok _]. apply Forall_app in Hrok as [_ Hrok]. inversion Hrok as [|? ? _ Hrok']; subst.
  pose proof (rows_decode rs Hrok') as Hdec. destruct (plain_view _ _ _ Hat) as [Hv Hs].
  assert (Hview : view it = rows_view done_ ++ row_view r ++ rows_view rs) by done.
  assert (Hnext : forall it1 recs intents, view it1 = view it ->
    export_loop fuel (SeekGE it1 (EncodeMVCCKey (Key_Next (row_key r)) ts0)) startTS endTS max recs intents =
    ref_export (map row_pair rs) startTS endTS max recs intents).
  { intros it1 recs' intents' Hv1. apply (IH fuel _ (done_ ++ [r])); [by rewrite <- app_assoc|done| |done|cbn in Hf; lia].
    unfold rows_view at 1. rewrite map_app, concat_app. cbn [map concat]. rewrite app_nil_r.
    apply seek_past; [done|by rewrite Hv1|by rewrite Hv1]. }
  destruct (seek_version it (rows_view done_) r (rows_view rs) endTS Har (proj1 Hts) Hs Hview) as (a & Hat1).
  pose proof (export_key_at _ _ _ _ _ startTS endTS Har Hdec Hat1) as Hkey.
  destruct (row_view r) as [|[x w] l] eqn:Erv; [by destruct Hr as (_ & _ & _ & ?)|].
  unfold rows_view at 1. cbn [map concat]. rewrite Erv. cbn [app head].
  destruct (row_entry r (x, w) Hr) as (t & Hd & _); [rewrite Erv; apply list_elem_of_here|]. cbn [fst] in Hd.
  rewrite Hd. cbn [lift_key rmap_err rbind ref_export row_pair map]. rewrite (EncodeMVCCKey_vkey (row_key r) endTS) by apply Hts.
  rewrite Hkey. unfold row_state. cbn [k_intent k_versions].
  assert (Hval : (let* rec := ref_export_key (row_key r) r.2 startTS endTS in
      match rec, intents with
      | Some rec, [] =>
          if (0 <? max) && (Z.of_nat (length (recs ++ [rec])) =? max)
          then Ok (mkExport (recs ++ [rec]) (Some (Key_Next (row_key r))))
          else export_loop fuel (SeekGE (SeekGE it (vkey (row_key r) endTS)) (EncodeMVCCKey (Key_Next (row_key r)) ts0)) startTS endTS max (recs ++ [rec]) intents
      | _, _ => export_loop fuel (SeekGE (SeekGE it (vkey (row_key r) endTS)) (EncodeMVCCKey (Key_Next (row_key r)) ts0)) startTS endTS max recs intents
      end) =
    (let* rec := ref_export_key (row_key r) r.2 startTS endTS in
      match rec, intents with
      | Some rec, [] =>
          if (0 <? max) && (Z.of_nat (length (recs ++ [rec])) =? max)
          then Ok (mkExport (recs ++ [rec]) (Some (Key_Next (row_key r))))
          else ref_export (map row_pair rs) startTS endTS max (recs ++ [rec]) intents
      | _, _ => ref_export (map row_pair rs) startTS endTS max recs intents
      end)).
  { destruct (ref_export_key (row_key r) r.2 startTS endTS) as [rec|]; [|done]. cbn [rbind].
    destruct rec as [rec|]; [|apply Hnext; by rewrite view_SeekGE].
    destruct intents; [|apply Hnext; by rewrite view_SeekGE].
    destruct ((0 <? max) && _); [done|]. apply Hnext. by rewrite view_SeekGE. }
  unfold row_view, key_view in Erv. unfold row_meta_ok in Hm1. destruct r.1.2 as [raw|].
  - injection Erv as <- <- _. rewrite Decode_meta in Hd. injection Hd as <-. cbn [IsEmpty ts0].
    destruct Hm1 as (meta & -> & _). cbn [lift_meta rbind].
    destruct (Less endTS (mTimestamp meta)); cbn [negb]; [exact Hval|].
    destruct (maxIntentsPerError <=? _)%nat; [done|]. by apply Hnext.
  - destruct r.2 as [|v vs] eqn:Ev; [done|]. injection Erv as <- <- _.
    destruct Hr as (_ & _ & [_ Hvv] & _). rewrite Ev in Hvv. inversion Hvv as [|? ? [Hv1 Hv2]]; subst.
    rewrite Decode_vkey in Hd by done. injection Hd as <-. rewrite (proj2 (IsEmpty_neq _) Hv2). exact Hval.
Qed.

(** ** The rows of a span exist *)

Definition span_ok (start end_ : bytes) : Prop := bytes_ok start /\ bytes_ok end_ /\ [2] ≼ start.

Lemma above_local start k : [2] ≼ start -> start ≼ k -> IsLocal k = false.
Proof.
  intros H1 H2. pose proof (ble_trans _ _ _ H1 H2) as H. destruct k as [|c k]; [done|]. cbn [bcompare] in H.
  unfold IsLocal, localPrefixByte. apply Z.eqb_neq. intros ->. done.
Qed.

Lemma metaKey_above2 k x : [2] ≼ k -> [2] ≼ metaKey k ++ x.
Proof.
  destruct k as [|c k]; [done|]. unfold metaKey, EncodeBytes. cbn [escape_bytes]. intros H.
  destruct (Z.eqb_spec c escape) as [->|]; [done|]. cbn [app bcompare] in *.
  destruct (2 ?= c) eqn:E; [|done|done]. destruct ((escape_bytes k ++ [escape; terminator]) ++ x) eqn:E2; done.
Qed.

Lemma metaKey_in_span start end_ k x :
  bytes_ok start -> bytes_ok end_ -> bytes_ok k ->
  (metaKey start ≼ metaKey k ++ x /\ metaKey k ++ x ≺ metaKey end_) <-> (start ≼ k /\ k ≺ end_).
Proof.
  intros Hs He Hk. rewrite <- (app_nil_r (metaKey start)), <- (app_nil_r (metaKey end_)).
  rewrite !metaKey_compare by done. destruct (bcompare start k) eqn:E1, (bcompare k end_) eqn:E2; try (split; intros [? ?]; done).
  all: destruct x; cbn; split; intros [? ?]; try done.
Qed.

Record range_rows (s : store) (start end_ : bytes) (rs : list row) : Prop := {
  rr_view : bounded (metaKey start) (metaKey end_) (st_entries s) = rows_view rs;
  rr_ok : rows_ok rs;
  rr_meta : Forall row_meta_ok rs;
  rr_is_view : Forall (fun r => is_view s (row_key r) r.1.2 r.2) rs;
  rr_span : Forall (fun r => start ≼ row_key r /\ row_key r ≺ end_) rs }.

(** The keys of the entries, sorted and without repetition. *)
Definition ukey (x : bytes) : bytes := match DecodeMVCCKey x with Ok (k, _) => k | Err _ => [] end.

Lemma sorted_keys_exist (l : list bytes) :
  exists ks, StronglySorted (fun a b => a ≺ b) ks /\ forall k, k ∈ ks <-> k ∈ l.
Proof.
  set (es := merge_sort entry_le (map (fun k => (k, [])) (remove_dups l)) : list entry).
  assert (Hperm : es ≡ₚ map (fun k => (k, [])) (remove_dups l)) by apply merge_sort_Permutation.
  assert (Hfst : map fst (map (fun k : bytes => (k, @nil Z)) (remove_dups l)) = remove_dups l).
  { rewrite map_map. apply map_id. }
  assert (Hs : StronglySorted entry_lt es).
  { apply sorted_strict; [apply (StronglySorted_merge_sort entry_le)|]. rewrite Hperm.
    change (NoDup (map fst (map (fun k : bytes => (k, @nil Z)) (remove_dups l)))). rewrite Hfst. apply NoDup_remove_dups. }
  exists (map fst es). split.
  - clear Hperm. induction Hs as [|e es' Hs IH Hf]; cbn [map]; [constructor|]. constructor; [done|].
    rewrite Forall_forall in Hf. apply Forall_forall. intros k Hk. apply list_elem_of_In, in_map_iff in Hk as (e' & <- & He').
    apply Hf. by apply list_elem_of_In.
  - intros k. change (map fst es) with (es.*1). rewrite Hperm.
    change ((map (fun k : bytes => (k, @nil Z)) (remove_dups l)).*1) with (map fst (map (fun k : bytes => (k, @nil Z)) (remove_dups l))).
    rewrite Hfst. apply elem_of_remove_dups.
Qed.

Lemma choose_rows s ks :
  store_wf s -> Forall (fun k => IsLocal k = false) ks ->
  exists rs, map row_key rs = ks /\ Forall (fun r => is_view s (row_key r) r.1.2 r.2) rs.
Proof.
  intros Hwf. induction 1 as [|k ks Hk Hks IH]; [by exists []|]. destruct IH as (rs & Hrs & Hv).
  destruct (is_view_exists s k Hwf Hk) as (mo & vs & Hview). exists ((k, mo, vs) :: rs).
  split; [cbn; by rewrite Hrs|by constructor].
Qed.

Lemma is_view_elem s r e :
  is_view s (row_key r) r.1.2 r.2 -> e ∈ row_view r <-> st_get s e.1 = Some e.2 /\ exists x, e.1 = metaKey (row_key r) ++ x.
Proof. intros [Hv _]. unfold row_view. fold (row_key r). rewrite <- Hv. apply elem_of_key_bounds. Qed.

Lemma range_rows_exist s start end_ :
  store_wf s -> span_ok start end_ -> exists rs, range_rows s start end_ rs.
Proof.
  intros Hwf (Hst & Hen & Hlo). set (l := bounded (metaKey start) (metaKey end_) (st_entries s)).
  assert (Hl : forall e, e ∈ l <-> st_get s e.1 = Some e.2 /\ metaKey start ≼ e.1 /\ e.1 ≺ metaKey end_).
  { intros [x v]. unfold l. rewrite elem_of_bounded. cbn [fst snd]. by rewrite get_entries. }
  assert (Hkey : forall e, e ∈ l -> bytes_ok (ukey e.1) /\ (start ≼ ukey e.1 /\ ukey e.1 ≺ end_) /\ exists x, e.1 = metaKey (ukey e.1) ++ x).
  { intros e He. apply Hl in He as (Hg & Hb).
    destruct (wf_keys s Hwf e.1 e.2 Hg) as (k & Hk & Hx).
    { apply (above_local (metaKey start)); [|apply Hb]. rewrite <- (app_nil_r (metaKey start)).
      apply (metaKey_above2 start); done. }
    assert (Hu : ukey e.1 = k /\ exists x, e.1 = metaKey k ++ x).
    { destruct Hx as [->|(t & Ht & ->)].
      - split; [unfold ukey; by rewrite Decode_meta|]. exists []. by rewrite app_nil_r.
      - split; [unfold ukey; by rewrite Decode_vkey by apply Ht|]. by eexists. }
    destruct Hu as (-> & x & Ex). split; [done|]. split; [|by exists x]. rewrite Ex in Hb. by apply metaKey_in_span in Hb. }
  destruct (sorted_keys_exist (map (fun e => ukey e.1) l)) as (ks & Hsorted & Hks).
  assert (Hks' : forall k, k ∈ ks <-> exists e, e ∈ l /\ ukey e.1 = k).
  { intros k. rewrite Hks, list_elem_of_In, in_map_iff. split; intros (e & H1 & H2); exists e; rewrite list_elem_of_In in *; done. }
  destruct (choose_rows s ks Hwf) as (rs & Hrs & Hviews).
  { apply Forall_forall. intros k Hk. apply Hks' in Hk as (e & He & <-). apply (above_local start); [done|]. by apply Hkey. }
  assert (Hrk : forall r, r ∈ rs -> row_key r ∈ ks).
  { intros r Hr. rewrite <- Hrs. apply (list_elem_of_fmap_2 row_key rs r Hr). }
  rewrite Forall_forall in Hviews.
  assert (Hsub : forall r e, r ∈ rs -> e ∈ row_view r <-> e ∈ l /\ ukey e.1 = row_key r).
  { intros r e Hr. rewrite (is_view_elem s r e (Hviews r Hr)), Hl.
    pose proof (Hrk r Hr) as Hk. apply Hks' in Hk as (e0 & He0 & Hu0). destruct (Hkey e0 He0) as (Hk0 & Hspan & _). rewrite Hu0 in *.
    split.
    - intros (Hg & x & Hx). assert (Hel : e ∈ l).
      { apply Hl. split; [done|]. rewrite Hx. by apply metaKey_in_span. }
      split; [split; [done|rewrite Hx; by apply metaKey_in_span]|]. destruct (Hkey e Hel) as (_ & _ & y & Hy).
      rewrite Hx in Hy. apply metaKey_inj_app in Hy as [-> _]. by rewrite Hx.
    - intros [(Hg & Hb) Hu]. split; [done|]. rewrite <- Hu. apply Hkey. by apply Hl. }
  exists rs. assert (Hrow_ok : Forall row_ok rs).
  { apply Forall_forall. intros r Hr. pose proof (Hrk r Hr) as Hk. apply Hks' in Hk as (e0 & He0 & Hu0).
    destruct (Hkey e0 He0) as (Hk0 & Hspan & _). rewrite Hu0 in *. split; [apply (above_local start); [done|apply Hspan]|]. split; [done|].
    split; [apply (Hviews r Hr)|]. intros Hnil. assert (Hin : e0 ∈ row_view r) by (apply Hsub; done).
    rewrite Hnil in Hin. by apply not_elem_of_nil in Hin. }
  assert (Hrows : rows_ok rs).
  { split; [done|]. rewrite <- Hrs in Hsorted. clear - Hsorted. induction rs as [|r rs IH]; [constructor|].
    inversion Hsorted as [|? ? Hs Hf]; subst. constructor; [by apply IH|]. rewrite Forall_forall in Hf. apply Forall_forall.
    intros q Hq. apply Hf. apply (list_elem_of_fmap_2 row_key rs q Hq). }
  split; [|done| |by apply Forall_forall|].
  - apply sorted_ext; [apply bounded_sorted|by apply rows_view_sorted|]. intros e. fold l. rewrite rows_view_elem. split.
    + intros He. assert (Hk : ukey e.1 ∈ ks) by (apply Hks'; by exists e). rewrite <- Hrs in Hk.
      apply list_elem_of_In, in_map_iff in Hk as (r & Hr & Hin). apply list_elem_of_In in Hin. exists r. split; [done|]. by apply Hsub.
    + intros (r & Hr & He). by apply (Hsub r e Hr) in He as [He _].
  - apply Forall_forall. intros r Hr. unfold row_meta_ok. pose proof (Hviews r Hr) as Hv.
    pose proof (is_view_meta _ _ _ _ Hv) as Hg. destruct r.1.2 as [raw|]; [|done].
    rewrite Forall_forall in Hrow_ok. destruct (wf_meta s Hwf (row_key r) raw (proj1 (Hrow_ok r Hr)) Hg) as (_ & Hm). done.
  - apply Forall_forall. intros r Hr. pose proof (Hrk r Hr) as Hk. apply Hks' in Hk as (e0 & He0 & <-). apply Hkey. done.
Qed.
End Rows.
