(* ===== verification/MvccRangeSpec.v ===== *)
(** * What range reads return

    Scans in terms of point reads and of each other: a scan returns exactly
    the rows [MVCCGet] would, a page and its continuation make up the whole
    scan, and a reverse scan is the forward scan reversed. *)

From S2P Require Import Prelude Encoding Hlc Keys MvccKey Pebble Enginepb Mvcc MvccView MvccRead MvccWrite MvccState MvccScan MvccRange MvccTxn.

(** The options of a scan without a size limit. *)
Definition unlimited (opts : MVCCGetOptions) : MVCCGetOptions :=
  mkOpts (optTxn opts) (UncertaintyLimit opts) 0 (Inconsistent opts).

Section Spec.
Context {P : Pebble} {PL : PebbleLaws P} {C : MetaCodec} {CL : MetaCodecLaws C}.

Lemma rows_view_length rs : Forall row_ok rs -> (length rs < S (length (rows_view rs)))%nat.
Proof.
  induction 1 as [|r rs Hr Hok IH]; [cbn; lia|].
  unfold rows_view in *. cbn [map concat length]. rewrite length_app. destruct Hr as (_ & _ & _ & Hne).
  destruct (row_view r); [done|]. cbn [length]. lia.
Qed.

Lemma map_reverse {A B} (f : A -> B) l : map f (reverse l) = reverse (map f l).
Proof. induction l as [|x l IH]; [done|]. cbn [map]. by rewrite !reverse_cons, map_app, IH. Qed.

Lemma MVCCScan_ref pb s start end_ ts max opts rs :
  range_rows s start end_ rs -> ts_valid ts ->
  MVCCScan pb s start end_ ts max opts = ref_scan Key_Next (map row_pair rs) ts max opts [] [] 0.
Proof.
  intros Hrr Hts. unfold MVCCScan. rewrite !EncodeMVCCKey_meta.
  assert (Hview : view (NewIter pb s (metaKey start) (metaKey end_)) = rows_view rs).
  { unfold view, NewIter. cbn [pit]. rewrite new_view. apply (rr_view _ _ _ _ Hrr). }
  apply (scan_loop_at rs _ _ []); [apply (rr_ok _ _ _ _ Hrr)|apply (rr_meta _ _ _ _ Hrr)| |done|].
  - apply plain_seek_to; [rewrite Hview; by apply rows_view_sorted, (rr_ok _ _ _ _ Hrr)|done|by apply Forall_nil|].
    rewrite <- (rr_view _ _ _ _ Hrr). apply Forall_forall. intros e He. apply elem_of_bounded in He. tauto.
  - fold (view (NewIter pb s (metaKey start) (metaKey end_))). rewrite Hview.
    pose proof (rr_ok _ _ _ _ Hrr) as [Hok _]. by apply rows_view_length.
Qed.

(** ** Rows and point reads *)

Definition join_found (o : option (option bytes)) : option bytes := match o with Some v => v | None => None end.

Lemma read_value_found raw :
  read_value raw = (let* o := found_value raw in Ok (join_found o)).
Proof. unfold read_value, found_value. destruct (lift_value (decodeMVCCValue raw)) as [[d []]|]; done. Qed.

(** A key of the scan and the point read of that key. *)
Lemma ref_scan_key_read k K ts opts :
  kstate_ok K -> (forall meta, k_intent K = Some meta -> ts_valid (mTimestamp meta)) ->
  match ref_scan_key k K ts opts [] with
  | ([], r) => ref_read k K ts opts = (let* o := r in Ok (join_found o))
  | (i :: l, r) => l = [] /\ r = Ok None /\ inKey i = k /\ ref_read k K ts opts = Err (WriteIntentError [i])
  end.
Proof.
  intros HK Hmv. unfold ref_scan_key, ref_read. unfold kstate_ok in HK.
  assert (Hvs : forall skip, ref_versions k (k_versions K) ts opts ts0 skip =
    (let* o := ref_scan_versions (k_versions K) ts opts skip true in Ok (join_found o))).
  { intros skip. unfold ref_versions, ref_scan_versions, ref_newest. cbn [IsEmpty ts0 negb].
    destruct (ref_uncertain (k_versions K) ts skip opts); [|done]. cbn [rbind].
    destruct (newest (k_versions K) ts skip) as [[]|]; [apply read_value_found|done]. }
  destruct (k_intent K) as [meta|] eqn:Ei; [|by apply Hvs].
  destruct (intent_switch meta ts opts) as [t|t|] eqn:Esw; [|by apply Hvs|done].
  assert (t = mTimestamp meta) as -> by (revert Esw; unfold intent_switch; repeat case_match; by intros [= <-]).
  destruct HK as (_ & raw & rest & Hv). rewrite (provisional_lookup K meta raw rest Ei Hv).
  unfold ref_versions. rewrite (proj2 (IsEmpty_neq _) (proj2 (Hmv meta eq_refl))). cbn [negb]. rewrite Hv. cbn [first fst].
  rewrite (proj2 (Equal_eq (mTimestamp meta) _) eq_refl). apply read_value_found.
Qed.

(** What the rows of an unlimited scan are, key by key. *)
Definition key_rows (ts : Timestamp) (opts : MVCCGetOptions) (p : bytes * kstate) : list KeyValue :=
  match ref_scan_key p.1 p.2 ts opts [] with
  | ([], Ok (Some v)) => [mkKV p.1 v]
  | _ => []
  end.

Definition key_ok (ts : Timestamp) (opts : MVCCGetOptions) (p : bytes * kstate) : Prop :=
  exists o, ref_scan_key p.1 p.2 ts opts [] = ([], Ok o).

#[local] Instance key_ok_dec ts opts p : Decision (key_ok ts opts p).
Proof.
  unfold Decision, key_ok. destruct (ref_scan_key p.1 p.2 ts opts []) as [[|] [o|]];
    [left; by exists o|right; intros [? [=]]..].
Defined.

Lemma page_unlimited opts rows bytes : TargetBytes opts = 0 -> page_full 0 opts rows bytes = false.
Proof. intros H. unfold page_full. by rewrite H. Qed.

Lemma ref_scan_unlimited resume keys ts opts rows bytes :
  TargetBytes opts = 0 -> Forall (key_ok ts opts) keys ->
  ref_scan resume keys ts 0 opts rows [] bytes = Ok (mkScan (rows ++ concat (map (key_rows ts opts) keys)) None).
Proof.
  intros Ht Hk. revert rows bytes. induction Hk as [|[k K] keys [o Ho] Hk IH]; intros rows bytes; cbn [ref_scan map concat].
  - by rewrite app_nil_r.
  - cbn [fst snd] in Ho. unfold key_rows at 1. cbn [fst snd]. rewrite Ho. cbn [rbind]. destruct o as [v|]; [|apply IH].
    rewrite page_unlimited by done. rewrite IH. by rewrite <- app_assoc.
Qed.

(** An unlimited scan succeeds only if every key can be read. *)
Lemma ref_scan_ok_keys resume keys ts opts rows bytes res :
  TargetBytes opts = 0 -> ref_scan resume keys ts 0 opts rows [] bytes = Ok res -> Forall (key_ok ts opts) keys.
Proof.
  intros Ht. revert rows bytes. induction keys as [|[k K] keys IH]; intros rows bytes H; [constructor|].
  assert (Hint : forall i l rows bytes, ref_scan resume keys ts 0 opts rows (i :: l) bytes <> Ok res).
  { clear. induction keys as [|[k K] keys IH]; intros i l rows bytes; cbn [ref_scan]; [done|].
    destruct (ref_scan_key k K ts opts (i :: l)) as [l' r] eqn:E.
    assert (exists i' l2, l' = i' :: l2) as (i' & l2 & ->).
    { revert E. unfold ref_scan_key. repeat case_match; intros [= <- _]; eauto. }
    destruct r as [[v|]|e]; cbn [rbind]; [apply IH|apply IH|done]. }
  cbn [ref_scan] in H. destruct (ref_scan_key k K ts opts []) as [l r] eqn:E. destruct r as [o|e]; [|done]. cbn [rbind] in H.
  destruct l as [|i l]; [|destruct o; by apply Hint in H].
  constructor; [by exists o|]. destruct o as [v|]; [|by eapply IH]. rewrite page_unlimited in H by done. by eapply IH.
Qed.

Lemma ref_scan_err_keys resume keys ts opts rows bytes e :
  TargetBytes opts = 0 -> ref_scan resume keys ts 0 opts rows [] bytes = Err e ->
  exists k K, (k, K) ∈ keys /\ ~ key_ok ts opts (k, K).
Proof.
  intros Ht Hrun. destruct (decide (Exists (fun p => ~ key_ok ts opts p) keys)) as [He|Hne].
  2: { exfalso. assert (Hall : Forall (key_ok ts opts) keys).
       { apply Forall_forall. intros p Hp. destruct (decide (key_ok ts opts p)) as [|Hn]; [done|].
         exfalso. apply Hne, Exists_exists. by exists p. }
       rewrite (ref_scan_unlimited resume keys ts opts rows bytes Ht Hall) in Hrun. done. }
  apply Exists_exists in He as ([k K] & Hin & Hn). by exists k, K.
Qed.

Lemma key_rows_elem rs ts opts kv :
  kv ∈ concat (map (key_rows ts opts) (map row_pair rs)) <->
  exists r, r ∈ rs /\ kvKey kv = row_key r /\
    ref_scan_key (row_key r) (row_state r) ts opts [] = ([], Ok (Some (kvValue kv))).
Proof.
  rewrite list_elem_of_In, in_concat. split.
  - intros (l & Hl & Hkv). apply in_map_iff in Hl as (p & <- & Hp). apply in_map_iff in Hp as (r & <- & Hr).
    exists r. rewrite list_elem_of_In. split; [done|]. unfold key_rows in Hkv. cbn [fst snd row_pair] in Hkv.
    destruct (ref_scan_key (row_key r) (row_state r) ts opts []) as [[|] [[v|]|]]; try done.
    destruct Hkv as [<-|[]]. done.
  - intros (r & Hr & Hk & Hv). exists (key_rows ts opts (row_pair r)). split.
    + apply in_map, in_map. by apply list_elem_of_In.
    + unfold key_rows. cbn [fst snd row_pair]. rewrite Hv. left. destruct kv. cbn in *. by subst.
Qed.

Lemma key_rows_sorted rs ts opts :
  rows_ok rs -> StronglySorted (fun a b => kvKey a ≺ kvKey b) (concat (map (key_rows ts opts) (map row_pair rs))).
Proof.
  intros [_ Hs]. induction Hs as [|r rs Hs IH Hf]; [constructor|]. cbn [map concat].
  assert (Hlt : forall kv, kv ∈ concat (map (key_rows ts opts) (map row_pair rs)) -> row_key r ≺ kvKey kv).
  { intros kv Hkv. apply key_rows_elem in Hkv as (q & Hq & -> & _). rewrite Forall_forall in Hf. by apply Hf. }
  unfold key_rows at 1. cbn [fst snd row_pair].
  destruct (ref_scan_key (row_key r) (row_state r) ts opts []) as [[|] [[v|]|]]; cbn [app]; try done.
  constructor; [done|]. apply Forall_forall. intros kv Hkv. by apply Hlt.
Qed.

(** A row of the span, its key's state and its point read. *)
Lemma row_models s r : is_view s (row_key r) r.1.2 r.2 -> row_meta_ok r -> models s (row_key r) (row_state r).
Proof.
  intros Hv Hm. exists r.1.2. split; [done|]. unfold row_state, row_meta_ok in *. cbn [k_intent].
  destruct r.1.2; [|done]. destruct Hm as (meta & -> & _). done.
Qed.

Lemma row_read pb s start end_ rs r ts opts :
  store_ok s -> range_rows s start end_ rs -> r ∈ rs -> opts_ok ts opts ->
  match ref_scan_key (row_key r) (row_state r) ts opts [] with
  | ([], Ok o) => MVCCGet pb s (row_key r) ts opts = Ok (join_found o)
  | _ => exists e, MVCCGet pb s (row_key r) ts opts = Err e
  end.
Proof.
  intros [Hwf Hok] Hrr Hr Ho. pose proof (rr_ok _ _ _ _ Hrr) as [Hrok _]. pose proof (rr_meta _ _ _ _ Hrr) as Hm.
  pose proof (rr_is_view _ _ _ _ Hrr) as Hv. rewrite Forall_forall in Hrok, Hm, Hv.
  destruct (Hrok r Hr) as (Hl & _). pose proof (row_models s r (Hv r Hr) (Hm r Hr)) as HK.
  rewrite (MVCCGet_models pb s (row_key r) (row_state r) ts opts Hwf Hl Ho HK).
  pose proof (ref_scan_key_read (row_key r) (row_state r) ts opts (Hok _ _ Hl HK)) as H.
  specialize (H (fun meta Hi => models_meta_valid s _ _ meta Hwf Hl HK Hi)).
  destruct (ref_scan_key (row_key r) (row_state r) ts opts []) as [[|i l] [o|e]].
  - by rewrite H.
  - rewrite H. by exists e.
  - destruct H as (_ & _ & _ & ->). eauto.
  - destruct H as (_ & ? & _). done.
Qed.

(** A key of the span with no engine entry reads as nothing. *)
Lemma absent_read pb s start end_ rs k ts opts :
  store_ok s -> span_ok start end_ -> range_rows s start end_ rs -> start ≼ k -> k ≺ end_ -> bytes_ok k -> opts_ok ts opts ->
  (forall r, r ∈ rs -> row_key r <> k) -> MVCCGet pb s k ts opts = Ok None.
Proof.
  intros [Hwf Hok] (Hs & He & Hlo) Hrr H1 H2 Hk Ho Hno.
  assert (Hl : IsLocal k = false) by (by apply (above_local start)).
  assert (Hnone : forall x v, st_get s (metaKey k ++ x) = Some v -> False).
  { intros x v Hg.
    assert (Hin : (metaKey k ++ x, v) ∈ rows_view rs).
    { rewrite <- (rr_view _ _ _ _ Hrr). apply elem_of_bounded. cbn [fst]. split; [by apply get_entries|].
      by apply metaKey_in_span. }
    apply rows_view_elem in Hin as (r & Hr & Hin). apply row_view_prefix in Hin as [y Hy]. cbn [fst] in Hy.
    apply metaKey_inj_app in Hy as [E _]. by apply (Hno r Hr). }
  assert (HK : models s k (mkK None [])).
  { exists None. split; [|done]. apply view_intro; [done|done|split; constructor| |].
    - destruct (st_get s (metaKey k)) as [v|] eqn:E; [|done]. rewrite <- (app_nil_r (metaKey k)) in E. by apply Hnone in E.
    - intros t raw _. split; [intros Hg; by apply Hnone in Hg|]. intros Hin. by apply not_elem_of_nil in Hin. }
  rewrite (MVCCGet_models pb s k _ ts opts Hwf Hl Ho HK). unfold ref_read, ref_versions, ref_uncertain. cbn.
  by destruct (has_uncertainty ts opts).
Qed.

(** A key with a version is a row of the span. *)
Lemma row_of_version s start end_ rs k t raw : store_wf s -> range_rows s start end_ rs -> bytes_ok start -> bytes_ok end_ -> bytes_ok k -> start ≼ k -> k ≺ end_ ->
  has_version s k t raw -> exists r, r ∈ rs /\ row_key r = k.
Proof.
  intros Hwf Hrr Hs1 Hs2 Hk H1 H2 [Ht Hg]. assert (Hel : (vkey k t, raw) ∈ rows_view rs).
  { rewrite <- (rr_view _ _ _ _ Hrr). apply elem_of_bounded. split; [by apply get_entries|]. cbn [fst]. by apply metaKey_in_span. }
  apply rows_view_elem in Hel as (r & Hr & Hel). exists r. split; [done|]. unfold row_view, key_view in Hel. apply elem_of_app in Hel as [Hel|Hel].
  - destruct r.1.2; [|by apply not_elem_of_nil in Hel]. apply list_elem_of_singleton in Hel as [= E _]. by apply vkey_not_meta in E.
  - apply list_elem_of_In, in_map_iff in Hel as (v & Ev & _). unfold ventry in Ev. injection Ev as Ev _. by apply metaKey_inj_app in Ev as [<- _].
Qed.

(** The version a read of [k] takes: the transaction's own provisional one, or
    the newest at or below [ts] beneath an ignored intent; and the row a scan
    owes for it, when it is not a tombstone. *)
Definition read_version (s : store) (k : bytes) (ts : Timestamp) (opts : MVCCGetOptions) (raw : bytes) : Prop :=
  (exists meta, intent_of s k = Some meta /\ own_epoch meta opts /\ has_version s k (mTimestamp meta) raw) \/
  (exists skip t, beneath s k ts opts skip /\ newest_at s k ts skip t raw).
Definition live_row (s : store) (k : bytes) (ts : Timestamp) (opts : MVCCGetOptions) (v : option bytes) : Prop :=
  exists raw data, read_version s k ts opts raw /\ decodeMVCCValue raw = Ok (data, false) /\ v = append_nil data.

Lemma read_version_has s k ts opts raw : read_version s k ts opts raw -> exists t, has_version s k t raw.
Proof. intros [(meta & _ & _ & H)|(skip & t & _ & H & _)]; eauto. Qed.

Lemma read_version_fun s k ts opts raw raw' : read_version s k ts opts raw -> read_version s k ts opts raw' -> raw = raw'.
Proof.
  intros [(meta & Hi & Ho & _ & Hg)|(skip & t & Hb & Hn)] [(meta' & Hi' & Ho' & _ & Hg')|(skip' & t' & Hb' & Hn')].
  - congruence.
  - unfold beneath in Hb'. rewrite Hi in Hb'. tauto.
  - unfold beneath in Hb. rewrite Hi' in Hb. tauto.
  - rewrite (beneath_fun _ _ _ _ _ _ Hb Hb') in Hn. apply (newest_at_fun _ _ _ _ _ _ _ _ Hn Hn').
Qed.

Lemma found_live raw o :
  found_value raw = Ok o -> forall v, o = Some v <-> exists data, decodeMVCCValue raw = Ok (data, false) /\ v = append_nil data.
Proof.
  unfold found_value. destruct (decodeMVCCValue raw) as [[d []]|]; cbn; intros [= <-] v; split; try done.
  - by intros (data & [= ] & _).
  - intros [= <-]. by exists d.
  - by intros (data & [= <-] & ->).
Qed.

(** What the scan finds at a key is exactly its live row. *)
Lemma scan_key_live s k K ts opts o :
  store_wf s -> IsLocal k = false -> models s k K -> kstate_ok K ->
  ref_scan_key k K ts opts [] = ([], Ok o) -> forall v, o = Some v <-> live_row s k ts opts v.
Proof.
  intros Hwf Hl HK Hok Hr v. pose proof (models_intent_of s k K Hwf Hl HK) as Hi. pose proof HK as (mo & [Hv Hvs] & _).
  assert (Hat : forall raw, read_version s k ts opts raw -> found_value raw = Ok o -> o = Some v <-> live_row s k ts opts v).
  { intros raw Hrv Hf. rewrite (found_live raw o Hf v). split; [intros (data & Hd & ->); by exists raw, data|].
    intros (raw' & data & Hrv' & Hd & ->). rewrite (read_version_fun _ _ _ _ _ _ Hrv' Hrv) in Hd. by exists data. }
  assert (Hbelow : forall skip, beneath s k ts opts skip -> ref_scan_versions (k_versions K) ts opts skip true = Ok o ->
    o = Some v <-> live_row s k ts opts v).
  { intros skip Hb. unfold ref_scan_versions, found_of. destruct (ref_uncertain _ _ _ _); [|done]. cbn [rbind].
    destruct (newest (k_versions K) ts skip) as [[t raw]|] eqn:En.
    - apply Hat. right. exists skip, t. split; [done|]. by eapply newest_some.
    - intros [= <-]. split; [done|]. intros (raw & data & Hrv & _ & _). exfalso. apply (newest_none _ _ _ _ _ _ Hv Hvs) in En.
      destruct Hrv as [(meta & Hm & Ho & _)|(skip' & t & Hb' & Hh & Hle & Hne & _)].
      + unfold beneath in Hb. rewrite Hm in Hb. tauto.
      + rewrite (beneath_fun _ _ _ _ _ _ Hb' Hb) in Hne. apply Hne. by eapply En. }
  unfold ref_scan_key in Hr. destruct (k_intent K) as [meta|] eqn:Ei; [|injection Hr as Hr; apply (Hbelow ts0); [unfold beneath; by rewrite Hi|exact Hr]].
  pose proof (intent_switch_spec meta ts opts) as Hsw. destruct (intent_switch meta ts opts) as [t|t|]; [|injection Hr as Hr|done].
  - destruct Hsw as [-> Hown]. unfold kstate_ok in Hok. rewrite Ei in Hok. destruct Hok as (_ & raw & rest & Hver).
    rewrite (provisional_lookup K meta raw rest Ei Hver) in Hr. injection Hr as Hr. apply (Hat raw); [|exact Hr]. left. exists meta.
    split_and!; [done..|]. apply (has_version_view s k mo _ _ _ Hv Hvs). rewrite Hver. apply list_elem_of_here.
  - apply (Hbelow t); [unfold beneath; by rewrite Hi|exact Hr].
Qed.

(** The rows of an unlimited scan are the live rows of the span's keys. *)
Lemma key_rows_live s start end_ rs k ts opts :
  store_ok s -> span_ok start end_ -> range_rows s start end_ rs ->
  (forall r, r ∈ rs -> exists o, ref_scan_key (row_key r) (row_state r) ts opts [] = ([], Ok o)) ->
  bytes_ok k -> start ≼ k -> k ≺ end_ ->
  forall v, mkKV k v ∈ concat (map (key_rows ts opts) (map row_pair rs)) <-> live_row s k ts opts v.
Proof.
  intros [Hwf Hok] (Hs1 & Hs2 & _) Hrr Hall Hk H1 H2 v. pose proof (rr_ok _ _ _ _ Hrr) as [Hrok Hsort].
  pose proof (rr_meta _ _ _ _ Hrr) as Hm. pose proof (rr_is_view _ _ _ _ Hrr) as Hv. rewrite Forall_forall in Hrok, Hm, Hv.
  assert (Hrow : forall r, r ∈ rs -> forall o, ref_scan_key (row_key r) (row_state r) ts opts [] = ([], Ok o) ->
    forall v, o = Some v <-> live_row s (row_key r) ts opts v).
  { intros r Hr o Ho. destruct (Hrok r Hr) as (Hl & _). pose proof (row_models s r (Hv r Hr) (Hm r Hr)) as HK.
    apply (scan_key_live s _ (row_state r)); [done|done|done|by eapply Hok|done]. }
  rewrite key_rows_elem. cbn [kvKey kvValue]. split.
  - intros (r & Hr & -> & Ho). by apply (Hrow r Hr (Some v) Ho v).
  - intros Hlive. pose proof Hlive as (raw & data & Hrv & _). destruct (read_version_has _ _ _ _ _ Hrv) as (t & Hh).
    destruct (row_of_version s start end_ rs k t raw Hwf Hrr Hs1 Hs2 Hk H1 H2 Hh) as (r & Hr & <-).
    exists r. split; [done|]. split; [done|]. destruct (Hall r Hr) as [o Ho]. rewrite Ho. apply (Hrow r Hr o Ho v) in Hlive. by subst.
Qed.

(** C9: An unlimited scan and point reads agree: a scan of a span succeeds
    exactly when [MVCCGet] succeeds on every key of it.  The rows are then in
    key order and in the span; every row is what [MVCCGet] returns for its key,
    and every key of the span that [MVCCGet] finds a value for has its row; and
    a key has a row exactly when the version a read of it takes is not a
    tombstone, with that version's value, so a deleted key is never listed. *)
Theorem MVCCScan_agrees_with_MVCCGet pb s start end_ ts opts :
  store_ok s -> span_ok start end_ -> ts_valid ts -> opts_ok ts opts -> TargetBytes opts = 0 ->
  match MVCCScan pb s start end_ ts 0 opts with
  | Ok res =>
      Resume res = None /\
      StronglySorted (fun a b => kvKey a ≺ kvKey b) (KVs res) /\
      (forall kv, kv ∈ KVs res ->
         start ≼ kvKey kv /\ kvKey kv ≺ end_ /\ MVCCGet pb s (kvKey kv) ts opts = Ok (kvValue kv)) /\
      (forall k, bytes_ok k -> start ≼ k -> k ≺ end_ ->
         (exists v, MVCCGet pb s k ts opts = Ok v /\ (v <> None -> mkKV k v ∈ KVs res)) /\
         (forall v, mkKV k v ∈ KVs res <-> live_row s k ts opts v))
  | Err _ => exists k e, start ≼ k /\ k ≺ end_ /\ MVCCGet pb s k ts opts = Err e
  end.
Proof.
  intros Hs Hsp Hts Ho Ht. pose proof Hs as [Hwf _]. destruct (range_rows_exist s start end_ Hwf Hsp) as (rs & Hrr).
  rewrite (MVCCScan_ref pb s start end_ ts 0 opts rs Hrr Hts).
  pose proof (rr_span _ _ _ _ Hrr) as Hspan. rewrite Forall_forall in Hspan.
  assert (Hpair : forall k K, (k, K) ∈ map row_pair rs -> exists r, r ∈ rs /\ k = row_key r /\ K = row_state r).
  { intros k K Hin. apply list_elem_of_In, in_map_iff in Hin as (r & [= <- <-] & Hr). exists r. by rewrite list_elem_of_In. }
  destruct (ref_scan Key_Next (map row_pair rs) ts 0 opts [] [] 0) as [res|e] eqn:Erun.
  - pose proof (ref_scan_ok_keys _ _ _ _ _ _ _ Ht Erun) as Hall.
    rewrite (ref_scan_unlimited Key_Next _ ts opts [] 0 Ht Hall) in Erun. injection Erun as <-. cbn [Resume KVs app].
    split; [done|]. split; [by apply key_rows_sorted, (rr_ok _ _ _ _ Hrr)|]. rewrite Forall_forall in Hall. split.
    + intros kv Hkv. apply key_rows_elem in Hkv as (r & Hr & Hk & Hv). destruct (Hspan r Hr) as [H1 H2]. rewrite Hk.
      split; [done|]. split; [done|]. pose proof (row_read pb s start end_ rs r ts opts Hs Hrr Hr Ho) as Hread.
      rewrite Hv in Hread. exact Hread.
    + intros k Hk H1 H2. split; [|apply (key_rows_live s start end_ rs k ts opts); try done; intros r Hr; destruct (Hall (row_pair r)) as [o Ho'];
        [apply (list_elem_of_fmap_2 row_pair rs r Hr)|by exists o]]. destruct (decide (Exists (fun r => row_key r = k) rs)) as [He|Hne].
      * apply Exists_exists in He as (r & Hr & <-). pose proof (row_read pb s start end_ rs r ts opts Hs Hrr Hr Ho) as Hread.
        destruct (Hall (row_pair r)) as [o Ho']; [apply (list_elem_of_fmap_2 row_pair rs r Hr)|]. cbn [fst snd row_pair] in Ho'.
        rewrite Ho' in Hread. exists (join_found o). split; [done|]. intros Hv. destruct o as [v|]; [|done].
        apply key_rows_elem. exists r. by rewrite Ho'.
      * exists None. split; [|done]. apply (absent_read pb s start end_ rs); try done.
        intros r Hr E. apply Hne, Exists_exists. by exists r.
  - destruct (ref_scan_err_keys _ _ _ _ _ _ _ Ht Erun) as (k & K & Hin & Hbad).
    destruct (Hpair k K Hin) as (r & Hr & -> & ->). destruct (Hspan r Hr) as [H1 H2].
    pose proof (row_read pb s start end_ rs r ts opts Hs Hrr Hr Ho) as Hread. unfold key_ok in Hbad. cbn [fst snd] in Hbad.
    exists (row_key r). destruct (ref_scan_key (row_key r) (row_state r) ts opts []) as [[|] [o|]];
      [by destruct Hbad; exists o|..]; destruct Hread as [e' He']; by exists e'.
Qed.

(** ** Pages *)

(** The per-key outcome does not depend on the size limit. *)
Lemma ref_scan_key_unlimited k K ts opts intents :
  ref_scan_key k K ts (unlimited opts) intents = ref_scan_key k K ts opts intents.
Proof. done. Qed.

(** A full page stops at a row; the rest of the keys continue it. *)
Lemma ref_scan_page resume keys ts max opts rows bytes out r :
  ref_scan resume keys ts max opts rows [] bytes = Ok (mkScan out (Some r)) ->
  exists keys1 k K keys2, keys = keys1 ++ (k, K) :: keys2 /\ r = resume k /\
    forall bytes', exists bytes2,
      ref_scan resume keys ts 0 (unlimited opts) rows [] bytes' = ref_scan resume keys2 ts 0 (unlimited opts) out [] bytes2.
Proof.
  assert (Hint : forall keys i l rows bytes, ref_scan resume keys ts max opts rows (i :: l) bytes <> Ok (mkScan out (Some r))).
  { clear. induction keys as [|[k K] keys IH]; intros i l rows bytes; cbn [ref_scan]; [done|].
    destruct (ref_scan_key k K ts opts (i :: l)) as [l' res] eqn:E.
    assert (exists i' l2, l' = i' :: l2) as (i' & l2 & ->).
    { revert E. unfold ref_scan_key. repeat case_match; intros [= <- _]; eauto. }
    destruct res as [[v|]|e]; cbn [rbind]; [apply IH|apply IH|done]. }
  revert rows bytes. induction keys as [|[k K] keys IH]; intros rows bytes H; [done|].
  cbn [ref_scan] in H. cbn [ref_scan]. rewrite ref_scan_key_unlimited.
  destruct (ref_scan_key k K ts opts []) as [l res]. destruct res as [o|e]; [|done]. cbn [rbind] in *.
  destruct l as [|i l]; [|destruct o; by apply Hint in H].
  assert (Hcont : forall rows bytes, ref_scan resume keys ts max opts rows [] bytes = Ok (mkScan out (Some r)) ->
    exists keys1 k' K' keys2, (k, K) :: keys = keys1 ++ (k', K') :: keys2 /\ r = resume k' /\
      forall bytes', exists bytes2,
        ref_scan resume keys ts 0 (unlimited opts) rows [] bytes' = ref_scan resume keys2 ts 0 (unlimited opts) out [] bytes2).
  { intros rows' bytes' Hr. destruct (IH rows' bytes' Hr) as (keys1 & k' & K' & keys2 & -> & -> & Hb).
    by exists ((k, K) :: keys1), k', K', keys2. }
  destruct o as [v|].
  - destruct (page_full max opts (rows ++ [mkKV k v]) (bytes + row_bytes k v)).
    + injection H as <- <-. exists [], k, K, keys. split; [done|]. split; [done|]. intros bytes'.
      rewrite page_unlimited by done. by eexists.
    + destruct (Hcont _ _ H) as (keys1 & k' & K' & keys2 & Hk & Hr & Hb). exists keys1, k', K', keys2. split; [done|].
      split; [done|]. intros bytes'. rewrite page_unlimited by done. apply Hb.
  - destruct (Hcont _ _ H) as (keys1 & k' & K' & keys2 & Hk & Hr & Hb). by exists keys1, k', K', keys2.
Qed.

(** Rows found before only prepend. *)
Lemma ref_scan_prepend resume keys ts opts out rows bytes bytes' :
  TargetBytes opts = 0 ->
  ref_scan resume keys ts 0 opts (out ++ rows) [] bytes =
    (let* res := ref_scan resume keys ts 0 opts rows [] bytes' in Ok (mkScan (out ++ KVs res) (Resume res))).
Proof.
  intros Ht.
  assert (Hint : forall keys i l rows rows' bytes bytes', (ref_scan resume keys ts 0 opts rows (i :: l) bytes : result mvcc_err ScanResult)
    = ref_scan resume keys ts 0 opts rows' (i :: l) bytes' /\ (forall res, ref_scan resume keys ts 0 opts rows (i :: l) bytes <> Ok res)).
  { clear. induction keys as [|[k K] keys IH]; intros i l rows rows' bytes bytes'; cbn [ref_scan]; [done|].
    destruct (ref_scan_key k K ts opts (i :: l)) as [l' r] eqn:E.
    assert (exists i' l2, l' = i' :: l2) as (i' & l2 & ->).
    { revert E. unfold ref_scan_key. repeat case_match; intros [= <- _]; eauto. }
    destruct r as [[v|]|e]; cbn [rbind]; [apply IH|apply IH|done]. }
  revert rows bytes bytes'. induction keys as [|[k K] keys IH]; intros rows bytes bytes'; cbn [ref_scan]; [done|].
  destruct (ref_scan_key k K ts opts []) as [l r]. destruct r as [o|e]; [|done]. cbn [rbind].
  destruct l as [|i l].
  - destruct o as [v|]; [|apply IH]. rewrite !page_unlimited by done. rewrite <- app_assoc. apply IH.
  - assert (Hgo : forall rows bytes bytes', ref_scan resume keys ts 0 opts (out ++ rows) (i :: l) bytes =
      (let* res := ref_scan resume keys ts 0 opts rows (i :: l) bytes' in Ok (mkScan (out ++ KVs res) (Resume res)))).
    { intros rows1 b1 b2. destruct (Hint keys i l (out ++ rows1) rows1 b1 b2) as [-> _].
      destruct (Hint keys i l rows1 rows1 b2 b2) as [_ Hno].
      destruct (ref_scan resume keys ts 0 opts rows1 (i :: l) b2) as [res|]; [by destruct (Hno res)|done]. }
    destruct o; apply Hgo.
Qed.

(** The rows after a row are the rows of the span after its key. *)
Lemma range_rows_after s start end_ rs1 r rs2 :
  span_ok start end_ -> range_rows s start end_ (rs1 ++ r :: rs2) -> range_rows s (Key_Next (row_key r)) end_ rs2.
Proof.
  intros (Hst & Hen & _) Hrr. pose proof (rr_ok _ _ _ _ Hrr) as Hok. pose proof Hok as [Hrok Hsort].
  pose proof (rows_around _ rs1 r rs2 Hok eq_refl) as (Hr & Hpre & Hpost). pose proof Hr as (_ & Hk & _).
  pose proof (rr_meta _ _ _ _ Hrr) as Hm. pose proof (rr_is_view _ _ _ _ Hrr) as Hv. pose proof (rr_span _ _ _ _ Hrr) as Hspan.
  apply Forall_app in Hrok as [_ Hrok]. apply Forall_app in Hm as [_ Hm]. apply Forall_app in Hv as [_ Hv].
  apply Forall_app in Hspan as [_ Hspan]. inversion Hrok; inversion Hm; inversion Hv; inversion Hspan as [|? ? [Hr1 Hr2] Hspan2]; subst.
  assert (Hsort2 : StronglySorted row_lt rs2) by (apply StronglySorted_app_1_r in Hsort; by inversion Hsort).
  assert (Hlo : start ≼ Key_Next (row_key r)).
  { eapply ble_trans; [exact Hr1|]. apply blt_ble, Key_Next_gt. }
  split; [|done|done|done|].
  - apply sorted_ext; [apply bounded_sorted|by apply rows_view_sorted|]. intros e.
    assert (Hbig : e ∈ bounded (metaKey start) (metaKey end_) (st_entries s) <-> e ∈ rows_view (rs1 ++ r :: rs2))
      by (by rewrite (rr_view _ _ _ _ Hrr)).
    rewrite elem_of_bounded in *. unfold rows_view in Hbig. rewrite map_app, concat_app in Hbig. cbn [map concat] in Hbig.
    rewrite !elem_of_app in Hbig. fold (rows_view rs1) in Hbig. fold (rows_view rs2) in Hbig. rewrite Forall_forall in Hpre, Hpost.
    rewrite <- (app_nil_r (metaKey (Key_Next (row_key r)))). split.
    + intros (He & H1' & H2'). destruct (proj1 Hbig) as [Hin|[Hin|Hin]]; [|exfalso..|done].
      * split; [done|]. split; [|done]. eapply ble_trans; [|exact H1']. rewrite app_nil_r. rewrite <- (app_nil_r (metaKey (Key_Next _))).
        apply metaKey_le; [done|by apply Key_Next_ok|done].
      * destruct (Hpre e Hin) as (k & x & Hk' & Hlt & Ex). rewrite Ex in H1'. apply ble_not_lt in H1'. apply H1'.
        apply metaKey_lt; [done|by apply Key_Next_ok|]. eapply blt_trans; [exact Hlt|apply Key_Next_gt].
      * apply row_view_prefix in Hin as [x Ex]. rewrite Ex in H1'. apply ble_not_lt in H1'. apply H1'.
        apply metaKey_lt; [done|by apply Key_Next_ok|apply Key_Next_gt].
    + intros Hin. destruct (proj2 Hbig) as (He & _ & H2'); [by right; right|]. split; [done|]. split; [|done].
      destruct (Hpost e Hin) as (k & x & Hk' & Hlt & ->). rewrite app_nil_r.
      apply metaKey_le; [by apply Key_Next_ok|done|by apply Key_Next_least].
  - rewrite Forall_forall in Hspan2. apply Forall_forall. intros q Hq. destruct (Hspan2 q Hq) as [_ Hq2]. split; [|done].
    apply Key_Next_least; [|].
    + rewrite Forall_forall in *. assert (row_ok q) by auto. apply H.
    + apply (StronglySorted_app_1_elem_of row_lt (rs1 ++ [r]) rs2 r q); [by rewrite <- app_assoc| |done].
      apply elem_of_app. right. by apply list_elem_of_singleton.
Qed.

(** C24: Paging loses and repeats nothing: when a scan stops at its row or
    byte limit, its rows followed by those of an unlimited scan from its
    [Resume] key are the rows of the unlimited scan of the whole span, and
    the continuation fails exactly when the whole scan does. *)
Theorem MVCCScan_pages pb s start end_ ts max opts rows r :
  store_ok s -> span_ok start end_ -> ts_valid ts -> opts_ok ts opts ->
  MVCCScan pb s start end_ ts max opts = Ok (mkScan rows (Some r)) ->
  MVCCScan pb s start end_ ts 0 (unlimited opts) =
    (let* rest := MVCCScan pb s r end_ ts 0 (unlimited opts) in Ok (mkScan (rows ++ KVs rest) (Resume rest))).
Proof.
  intros [Hwf _] Hsp Hts Ho Hrun. destruct (range_rows_exist s start end_ Hwf Hsp) as (rs & Hrr).
  rewrite (MVCCScan_ref pb s start end_ ts max opts rs Hrr Hts) in Hrun.
  rewrite (MVCCScan_ref pb s start end_ ts 0 _ rs Hrr Hts).
  destruct (ref_scan_page _ _ _ _ _ _ _ _ _ Hrun) as (keys1 & k & K & keys2 & Hkeys & -> & Hb).
  apply map_eq_app in Hkeys as (rs1 & rs' & -> & <- & Hkeys). apply map_eq_cons in Hkeys as (q & rs2 & -> & [= <- <-] & <-).
  rewrite (MVCCScan_ref pb s _ end_ ts 0 _ rs2 (range_rows_after _ _ _ _ _ _ Hsp Hrr) Hts).
  destruct (Hb 0) as [b2 ->]. rewrite <- (app_nil_r rows) at 1. by apply ref_scan_prepend.
Qed.

(** ** Reverse scans *)

Lemma MVCCReverseScan_ref pb s start end_ ts max opts rs :
  range_rows s start end_ rs -> ts_valid ts ->
  MVCCReverseScan pb s start end_ ts max opts = ref_scan (fun k => k) (map row_pair (reverse rs)) ts max opts [] [] 0.
Proof.
  intros Hrr Hts. unfold MVCCReverseScan. rewrite !EncodeMVCCKey_meta.
  assert (Hview : view (NewIter pb s (metaKey start) (metaKey end_)) = rows_view rs).
  { unfold view, NewIter. cbn [pit]. rewrite new_view. apply (rr_view _ _ _ _ Hrr). }
  pose proof (rows_view_sorted rs (rr_ok _ _ _ _ Hrr)) as Hsort.
  assert (Hlt : Forall (fun e => e.1 ≺ metaKey end_) (rows_view rs)).
  { rewrite <- (rr_view _ _ _ _ Hrr). apply Forall_forall. intros e He. apply elem_of_bounded in He. tauto. }
  apply (reverse_loop_at rs _ _ []); [rewrite app_nil_r; apply (rr_ok _ _ _ _ Hrr)|apply (rr_meta _ _ _ _ Hrr)| |done|].
  - destruct (rows_view rs) as [|e l _] eqn:El using rev_ind.
    + apply plain_seek_lt_none; rewrite Hview; [done|by apply Forall_nil].
    + apply at_last_snoc, plain_seek_lt_to; rewrite ?Hview; [done|done|done|by apply Forall_nil].
  - fold (view (NewIter pb s (metaKey start) (metaKey end_))). rewrite Hview.
    pose proof (rr_ok _ _ _ _ Hrr) as [Hok _]. by apply rows_view_length.
Qed.

(** A reverse scan is the forward scan reversed: over the same span,
    without limits, it returns the same rows largest key first, and it
    fails exactly when the forward scan fails.  The bounded walks with
    Prev end where the forward walks begin. *)
Theorem MVCCReverseScan_is_reverse pb s start end_ ts opts :
  store_ok s -> span_ok start end_ -> ts_valid ts -> TargetBytes opts = 0 ->
  match MVCCScan pb s start end_ ts 0 opts with
  | Ok res => MVCCReverseScan pb s start end_ ts 0 opts = Ok (mkScan (reverse (KVs res)) None)
  | Err _ => exists e, MVCCReverseScan pb s start end_ ts 0 opts = Err e
  end.
Proof.
  intros [Hwf _] Hsp Hts Ht. destruct (range_rows_exist s start end_ Hwf Hsp) as (rs & Hrr).
  rewrite (MVCCScan_ref pb s start end_ ts 0 opts rs Hrr Hts), (MVCCReverseScan_ref pb s start end_ ts 0 opts rs Hrr Hts).
  destruct (ref_scan Key_Next (map row_pair rs) ts 0 opts [] [] 0) as [res|e] eqn:Erun.
  - pose proof (ref_scan_ok_keys _ _ _ _ _ _ _ Ht Erun) as Hall.
    rewrite (ref_scan_unlimited Key_Next _ ts opts [] 0 Ht Hall) in Erun. injection Erun as <-. cbn [KVs app].
    rewrite map_reverse, ref_scan_unlimited; [|done|by apply Forall_reverse]. cbn [app]. do 2 f_equal.
    induction (map row_pair rs) as [|p l IH]; [done|]. rewrite reverse_cons, map_app, concat_app. cbn [map concat].
    inversion Hall; subst. rewrite IH, reverse_app, app_nil_r by done. f_equal.
    unfold key_rows. destruct (ref_scan_key p.1 p.2 ts opts []) as [[|] [[v|]|]]; done.
  - destruct (ref_scan_err_keys _ _ _ _ _ _ _ Ht Erun) as (k & K & Hin & Hbad).
    destruct (ref_scan (fun k => k) (map row_pair (reverse rs)) ts 0 opts [] [] 0) as [res|e'] eqn:Erev; [|by exists e'].
    exfalso. apply Hbad. pose proof (ref_scan_ok_keys _ _ _ _ _ _ _ Ht Erev) as Hall. rewrite Forall_forall in Hall.
    apply Hall. rewrite map_reverse. by apply elem_of_reverse.
Qed.

(** ** Refresh *)

Lemma MVCCCheckForWrites_ref pb s start end_ fromTS toTS own rs :
  range_rows s start end_ rs -> ts_valid toTS ->
  MVCCCheckForWrites pb s start end_ fromTS toTS own = ref_refresh (map row_pair rs) fromTS toTS own.
Proof.
  intros Hrr Hts. unfold MVCCCheckForWrites. rewrite !EncodeMVCCKey_meta.
  assert (Hview : view (NewIter pb s (metaKey start) (metaKey end_)) = rows_view rs).
  { unfold view, NewIter. cbn [pit]. rewrite new_view. apply (rr_view _ _ _ _ Hrr). }
  apply (refresh_loop_at rs _ _ []); [apply (rr_ok _ _ _ _ Hrr)|apply (rr_meta _ _ _ _ Hrr)| |done|].
  - apply plain_seek_to; [rewrite Hview; by apply rows_view_sorted, (rr_ok _ _ _ _ Hrr)|done|by apply Forall_nil|].
    rewrite <- (rr_view _ _ _ _ Hrr). apply Forall_forall. intros e He. apply elem_of_bounded in He. tauto.
  - fold (view (NewIter pb s (metaKey start) (metaKey end_))). rewrite Hview.
    pose proof (rr_ok _ _ _ _ Hrr) as [Hok _]. by apply rows_view_length.
Qed.

Lemma ref_refresh_keys keys fromTS toTS own :
  match ref_refresh keys fromTS toTS own with
  | Ok _ => Forall (fun p => ref_refresh_key p.1 p.2 fromTS toTS own = Ok tt) keys
  | Err e => exists k K, (k, K) ∈ keys /\ ref_refresh_key k K fromTS toTS own = Err e
  end.
Proof.
  induction keys as [|[k K] keys IH]; cbn [ref_refresh]; [constructor|].
  destruct (ref_refresh_key k K fromTS toTS own) as [[]|e] eqn:E; cbn [rbind].
  - destruct (ref_refresh keys fromTS toTS own) as [[]|e]; [by constructor|].
    destruct IH as (k' & K' & Hin & He). exists k', K'. split; [by apply list_elem_of_further|done].
  - exists k, K. split; [apply list_elem_of_here|done].
Qed.

(** No candidate between the two timestamps: the reads agree. *)
Lemma newest_window vs fromTS toTS skip :
  fromTS <=t toTS ->
  match newest vs toTS skip with Some (t, _) => t <=t fromTS | None => True end ->
  newest vs fromTS skip = newest vs toTS skip.
Proof.
  intros Hle. unfold newest. fold (candidate fromTS skip) (candidate toTS skip).
  assert (Hm : forall v, candidate toTS skip v = false -> candidate fromTS skip v = false).
  { intros v Hv. destruct (decide (fromTS = toTS)) as [->|Hne]; [done|]. apply (candidate_mono fromTS toTS); [|done]. ts_lia. }
  induction vs as [|v vs IH]; cbn [first]; [done|]. destruct (candidate toTS skip v) eqn:E.
  - destruct v as [t raw]. intros Ht. assert (candidate fromTS skip (t, raw) = true) as ->; [|done].
    unfold candidate in *. cbn [fst] in *. apply andb_true_iff in E as [_ ->]. by rewrite (proj2 (LessEq_le _ _) Ht).
  - rewrite (Hm v E). exact IH.
Qed.

Lemma refresh_key_reads k K fromTS toTS own opts t :
  fromTS <=t toTS -> ref_refresh_key k K fromTS toTS own = Ok tt ->
  optTxn opts = Some t -> ID t = own -> UncertaintyLimit opts = ts0 ->
  ref_read k K fromTS opts = ref_read k K toTS opts.
Proof.
  intros Hle Hok Ho Hid Hul. unfold ref_read, ref_refresh_key in *.
  assert (Hvs : forall skip,
    match newest (k_versions K) toTS skip with
    | Some (t, _) => if Less fromTS t then Err (RefreshFailed k t fromTS toTS) else Ok tt
    | None => Ok tt
    end = Ok tt -> ref_versions k (k_versions K) fromTS opts ts0 skip = ref_versions k (k_versions K) toTS opts ts0 skip).
  { intros skip Hn. unfold ref_versions, ref_uncertain, has_uncertainty, ref_newest. rewrite Hul. cbn [IsEmpty ts0 negb andb rbind].
    rewrite (newest_window (k_versions K) fromTS toTS skip Hle); [done|].
    destruct (newest (k_versions K) toTS skip) as [[u raw]|]; [|done]. destruct (Less fromTS u) eqn:E; [done|]. by tsb. }
  destruct (k_intent K) as [meta|]; [|by apply Hvs].
  destruct (beqb (ID (mTxn meta)) own) eqn:Eid; [|done]. cbn [negb] in Hok.
  unfold intent_switch, own_txn. rewrite Ho, Hid, Eid. case_bool_decide; [|by apply Hvs].
  destruct (IsEmpty (mTimestamp meta)) eqn:Ee; [|unfold ref_versions; by rewrite Ee].
  apply IsEmpty_eq in Ee. rewrite Ee in *. by apply Hvs.
Qed.

(** The conflict a failed refresh names: an intent of another transaction, or
    the newest version in the window other than the transaction's provisional
    one. *)
Definition refresh_conflict (s : store) (start end_ : bytes) (fromTS toTS : Timestamp) (own : uuid) (e : mvcc_err) : Prop :=
  match e with
  | WriteIntentError [i] =>
      start ≼ inKey i /\ inKey i ≺ end_ /\
      exists meta, intent_of s (inKey i) = Some meta /\ inTxn i = mTxn meta /\ ID (mTxn meta) <> own
  | RefreshFailed k t from to =>
      from = fromTS /\ to = toTS /\ start ≼ k /\ k ≺ end_ /\ fromTS <t t /\
      exists skip raw, newest_at s k toTS skip t raw /\
        match intent_of s k with Some meta => ID (mTxn meta) = own /\ skip = mTimestamp meta | None => skip = ts0 end
  | _ => False
  end.

Lemma refresh_key_conflict s start end_ k K fromTS toTS own e :
  store_wf s -> IsLocal k = false -> models s k K -> start ≼ k -> k ≺ end_ -> ref_refresh_key k K fromTS toTS own = Err e ->
  refresh_conflict s start end_ fromTS toTS own e.
Proof.
  intros Hwf Hl HK H1 H2 He. pose proof (models_intent_of s k K Hwf Hl HK) as Hi.
  unfold ref_refresh_key in He. pose proof HK as (mo & [Hv Hvs] & _).
  assert (Hnew : forall skip,
    match intent_of s k with Some meta => ID (mTxn meta) = own /\ skip = mTimestamp meta | None => skip = ts0 end ->
    match newest (k_versions K) toTS skip with
    | Some (t, _) => if Less fromTS t then Err (RefreshFailed k t fromTS toTS) else Ok tt
    | None => Ok tt
    end = Err e -> refresh_conflict s start end_ fromTS toTS own e).
  { intros skip Hskip Hn. destruct (newest (k_versions K) toTS skip) as [[t raw]|] eqn:En; [|done].
    destruct (Less fromTS t) eqn:El; [|done]. tsb. injection Hn as <-. cbn [refresh_conflict]. split_and!; try done.
    exists skip, raw. split; [by eapply newest_some|done]. }
  rewrite Hi in Hnew. destruct (k_intent K) as [meta|]; [|by apply (Hnew ts0)].
  destruct (beqb (ID (mTxn meta)) own) eqn:Eid; cbn [negb] in He.
  - apply beqb_eq in Eid. by apply (Hnew (mTimestamp meta)).
  - injection He as <-. cbn [refresh_conflict inKey inTxn]. split_and!; try done. exists meta. split_and!; try done. by apply beqb_neq.
Qed.


(** ** Export *)

Lemma MVCCExport_ref pb s start end_ startTS endTS max rs :
  range_rows s start end_ rs -> ts_valid endTS ->
  MVCCExport pb s start end_ startTS endTS max = ref_export (map row_pair rs) startTS endTS max [] [].
Proof.
  intros Hrr Hts. unfold MVCCExport. rewrite !EncodeMVCCKey_meta.
  assert (Hview : view (NewIter pb s (metaKey start) (metaKey end_)) = rows_view rs).
  { unfold view, NewIter. cbn [pit]. rewrite new_view. apply (rr_view _ _ _ _ Hrr). }
  apply (export_loop_at rs _ _ []); [apply (rr_ok _ _ _ _ Hrr)|apply (rr_meta _ _ _ _ Hrr)| |done|].
  - apply plain_seek_to; [rewrite Hview; by apply rows_view_sorted, (rr_ok _ _ _ _ Hrr)|done|by apply Forall_nil|].
    rewrite <- (rr_view _ _ _ _ Hrr). apply Forall_forall. intros e He. apply elem_of_bounded in He. tauto.
  - fold (view (NewIter pb s (metaKey start) (metaKey end_))). rewrite Hview.
    pose proof (rr_ok _ _ _ _ Hrr) as [Hok _]. by apply rows_view_length.
Qed.

(** The records of the keys, when the whole span exports. *)
Definition export_rows (startTS endTS : Timestamp) (p : bytes * kstate) : list ExportedRecord :=
  match ref_export_key p.1 (k_versions p.2) startTS endTS with Ok (Some r) => [r] | _ => [] end.

(** The intents on a key, if any, are above the export. *)
Definition intent_above (endTS : Timestamp) (K : kstate) : Prop :=
  forall meta, k_intent K = Some meta -> endTS <t mTimestamp meta.

Lemma ref_export_all keys startTS endTS recs res :
  ref_export keys startTS endTS 0 recs [] = Ok res ->
  Records res = recs ++ concat (map (export_rows startTS endTS) keys) /\ exResume res = None /\
  Forall (fun p => intent_above endTS p.2 /\ exists o, ref_export_key p.1 (k_versions p.2) startTS endTS = Ok o) keys.
Proof.
  assert (Hint : forall keys i l recs, ref_export keys startTS endTS 0 recs (i :: l) <> Ok res).
  { clear. induction keys as [|[k K] keys IH]; intros i l recs; cbn [ref_export]; [done|].
    assert (Hv : (let* rec := ref_export_key k (k_versions K) startTS endTS in
      match rec with Some _ | _ => ref_export keys startTS endTS 0 recs (i :: l) end) <> Ok res).
    { destruct (ref_export_key k (k_versions K) startTS endTS) as [o|]; [|done]. cbn [rbind]. destruct o; apply IH. }
    destruct (k_intent K) as [meta|]; [|exact Hv]. destruct (Less endTS (mTimestamp meta)); cbn [negb]; [exact Hv|].
    destruct (maxIntentsPerError <=? _)%nat; [done|]. apply IH. }
  revert recs. induction keys as [|[k K] keys IH]; intros recs H; cbn [ref_export] in H.
  { injection H as <-. cbn. by rewrite app_nil_r. }
  assert (Hval : (let* rec := ref_export_key k (k_versions K) startTS endTS in
      match rec with
      | Some rec => ref_export keys startTS endTS 0 (recs ++ [rec]) []
      | None => ref_export keys startTS endTS 0 recs []
      end) = Ok res /\ intent_above endTS K).
  { unfold intent_above. destruct (k_intent K) as [meta|].
    - destruct (Less endTS (mTimestamp meta)) eqn:El; cbn [negb] in H.
      + tsb. split; [exact H|]. by intros m [= <-].
      + cbn [length app Nat.leb maxIntentsPerError] in H. by apply Hint in H.
    - split; [exact H|]. done. }
  destruct Hval as [Hval Hab]. cbn [map concat]. unfold export_rows at 1. cbn [fst snd].
  destruct (ref_export_key k (k_versions K) startTS endTS) as [o|] eqn:Ek; [|done]. cbn [rbind] in Hval.
  destruct o as [rec|]; destruct (IH _ Hval) as (H1 & H2 & H3).
  - rewrite H1, <- app_assoc. split; [done|]. split; [done|]. constructor; [by split; [|exists (Some rec)]|done].
  - rewrite H1. split; [done|]. split; [done|]. constructor; [by split; [|exists None]|done].
Qed.

Lemma export_rows_elem rs startTS endTS rec :
  rec ∈ concat (map (export_rows startTS endTS) (map row_pair rs)) <->
  exists r, r ∈ rs /\ ref_export_key (row_key r) r.2 startTS endTS = Ok (Some rec).
Proof.
  rewrite list_elem_of_In, in_concat. split.
  - intros (l & Hl & Hrec). apply in_map_iff in Hl as (p & <- & Hp). apply in_map_iff in Hp as (r & <- & Hr).
    exists r. rewrite list_elem_of_In. split; [done|]. unfold export_rows in Hrec. cbn [fst snd row_pair row_state k_versions] in Hrec.
    destruct (ref_export_key (row_key r) r.2 startTS endTS) as [[x|]|]; try done. by destruct Hrec as [<-|[]].
  - intros (r & Hr & Hv). exists (export_rows startTS endTS (row_pair r)). split.
    + apply in_map, in_map. by apply list_elem_of_In.
    + unfold export_rows. cbn [fst snd row_pair row_state k_versions]. rewrite Hv. by left.
Qed.

Lemma ref_export_key_name k vs startTS endTS rec : ref_export_key k vs startTS endTS = Ok (Some rec) -> erKey rec = k.
Proof.
  unfold ref_export_key, export_record. intros H. destruct (newest vs endTS ts0) as [[t raw]|]; [|done].
  destruct (LessEq t startTS); [done|]. destruct (lift_value (decodeMVCCValue raw)) as [[d b]|]; [|done].
  cbn in H. by injection H as <-.
Qed.

(** The records of a key are those of its newest version in the window. *)
Lemma export_records_exact s start end_ rs startTS endTS k :
  store_ok s -> span_ok start end_ -> range_rows s start end_ rs -> bytes_ok k -> start ≼ k -> k ≺ end_ ->
  forall r, r ∈ concat (map (export_rows startTS endTS) (map row_pair rs)) /\ erKey r = k <->
    exists t raw data dead, newest_at s k endTS ts0 t raw /\ startTS <t t /\ decodeMVCCValue raw = Ok (data, dead) /\
      r = mkExported k (if dead then None else append_nil data) dead.
Proof.
  intros [Hwf _] (Hs1 & Hs2 & _) Hrr Hk H1 H2 rec. pose proof (rr_ok _ _ _ _ Hrr) as [Hrok _]. pose proof (rr_is_view _ _ _ _ Hrr) as Hv.
  rewrite Forall_forall in Hrok, Hv. rewrite export_rows_elem.
  assert (Hrow : forall r, r ∈ rs -> ref_export_key (row_key r) r.2 startTS endTS = Ok (Some rec) <->
    exists t raw data dead, newest_at s (row_key r) endTS ts0 t raw /\ startTS <t t /\ decodeMVCCValue raw = Ok (data, dead) /\
      rec = mkExported (row_key r) (if dead then None else append_nil data) dead).
  { intros r Hr. destruct (Hrok r Hr) as (_ & _ & Hvs & _). destruct (Hv r Hr) as [Hview _]. unfold ref_export_key, export_record.
    destruct (newest r.2 endTS ts0) as [[t raw]|] eqn:En.
    - apply (newest_some _ _ _ _ _ _ _ _ Hview Hvs) in En. destruct (LessEq t startTS) eqn:El; tsb.
      + split; [done|]. intros (t' & raw' & data & dead & Hn & Hlt & _). destruct (newest_at_fun _ _ _ _ _ _ _ _ Hn En) as [-> _]. ts_lia.
      + destruct (decodeMVCCValue raw) as [[data dead]|e] eqn:Ed; cbn; (split; [intros H|intros (t' & raw' & data' & dead' & Hn & Hlt & Hd & ->)]); try done.
        * exists t, raw, data, dead. split_and!; [done..|]. destruct dead; by injection H as <-.
        * destruct (newest_at_fun _ _ _ _ _ _ _ _ Hn En) as [-> ->]. rewrite Ed in Hd. injection Hd as -> ->. by destruct dead'.
        * destruct (newest_at_fun _ _ _ _ _ _ _ _ Hn En) as [-> ->]. congruence.
    - apply (newest_none _ _ _ _ _ _ Hview Hvs) in En. split; [done|]. intros (t & raw & _ & _ & (Hh & Hle & Hne & _) & _). exfalso. apply Hne. by eapply En. }
  split.
  - intros [(r & Hr & He) <-]. pose proof (ref_export_key_name _ _ _ _ _ He) as ->. by apply Hrow.
  - intros Hex. pose proof Hex as (t & raw & data & dead & (Hh & _) & _ & _ & ->). cbn [erKey]. split; [|done].
    destruct (row_of_version s start end_ rs k t raw Hwf Hrr Hs1 Hs2 Hk H1 H2 Hh) as (r & Hr & <-). exists r. split; [done|]. by apply Hrow.
Qed.

(** A plain read: no transaction, no uncertainty. *)
Definition plain_read : MVCCGetOptions := mkOpts None ts0 0 false.

(** Beneath an intent above it, a plain read is of the versions alone. *)
Lemma plain_read_newest k K ts :
  ts_ok ts -> versions_sorted (k_versions K) -> (forall meta, k_intent K = Some meta -> ts <t mTimestamp meta) ->
  ref_read k K ts plain_read = ref_newest (k_versions K) ts ts0.
Proof.
  intros Hts [_ Hv] Hab. unfold ref_read. destruct (k_intent K) as [meta|] eqn:Ei; [|done].
  specialize (Hab meta eq_refl). unfold intent_switch, own_txn. cbn [optTxn plain_read Inconsistent].
  destruct (intentAboveRead (mTimestamp meta) ts (UncertaintyLimit plain_read)) eqn:Ea.
  - unfold ref_versions, ref_uncertain, has_uncertainty, ref_newest. cbn [UncertaintyLimit plain_read IsEmpty ts0 negb andb rbind].
    assert (newest (k_versions K) ts (mTimestamp meta) = newest (k_versions K) ts ts0) as ->; [|done].
    unfold newest. apply first_ext. rewrite Forall_forall in Hv. apply Forall_forall. intros v Hin.
    destruct (LessEq v.1 ts) eqn:El; [|done]. cbn [andb].
    tsb. rewrite (proj2 (skipped_false (mTimestamp meta) v.1 (Hv v Hin))); [done|]. intros E. rewrite E in El. ts_lia.
  - exfalso. apply not_true_iff_false in Ea. apply Ea. unfold intentAboveRead. cbn [UncertaintyLimit plain_read].
    apply Less_lt. destruct (Less ts ts0) eqn:E0; tsb; [|done].
    exfalso. unfold ts_ok in Hts. cbn in E0. ts_lia.
Qed.

Definition find_record (k : bytes) (recs : list ExportedRecord) : option ExportedRecord :=
  first (fun r => beqb (erKey r) k) recs.

Lemma row_key_inj rs r r' : StronglySorted row_lt rs -> r ∈ rs -> r' ∈ rs -> row_key r' = row_key r -> r' = r.
Proof.
  induction 1 as [|q rs Hs IH Hf]; intros Hr Hr' E; [by apply not_elem_of_nil in Hr|]. rewrite Forall_forall in Hf.
  apply elem_of_cons in Hr as [->|Hr]; apply elem_of_cons in Hr' as [->|Hr']; [done|..|by apply IH].
  - specialize (Hf r' Hr'). unfold row_lt in Hf. rewrite E in Hf. by apply blt_irrefl in Hf.
  - specialize (Hf r Hr). unfold row_lt in Hf. rewrite E in Hf. by apply blt_irrefl in Hf.
Qed.

Lemma find_record_none rs r startTS endTS :
  (forall r', r' ∈ rs -> row_key r' = row_key r -> ref_export_key (row_key r') r'.2 startTS endTS = Ok None) ->
  find_record (row_key r) (concat (map (export_rows startTS endTS) (map row_pair rs))) = None.
Proof.
  intros H. apply first_none, Forall_forall. intros rec Hin. apply export_rows_elem in Hin as (r' & Hr' & Hx).
  apply beqb_neq. intros E. pose proof (ref_export_key_name _ _ _ _ _ Hx) as En. rewrite (H r' Hr') in Hx by congruence. done.
Qed.

Lemma find_record_unique rs r startTS endTS rec :
  StronglySorted row_lt rs -> r ∈ rs -> ref_export_key (row_key r) r.2 startTS endTS = Ok (Some rec) ->
  find_record (row_key r) (concat (map (export_rows startTS endTS) (map row_pair rs))) = Some rec.
Proof.
  intros Hs Hr Hx. pose proof (ref_export_key_name _ _ _ _ _ Hx) as En.
  destruct (find_record (row_key r) (concat (map (export_rows startTS endTS) (map row_pair rs)))) as [rec'|] eqn:Ef.
  - apply first_some in Ef as (pre & post & Hl & Hk & _). apply beqb_eq in Hk.
    assert (Hin : rec' ∈ concat (map (export_rows startTS endTS) (map row_pair rs))).
    { rewrite Hl. apply elem_of_app. right. apply list_elem_of_here. }
    apply export_rows_elem in Hin as (r' & Hr' & Hx'). pose proof (ref_export_key_name _ _ _ _ _ Hx') as En'.
    assert (r' = r) as -> by (eapply row_key_inj; [done..|congruence]). congruence.
  - apply first_none in Ef. rewrite Forall_forall in Ef. exfalso.
    assert (Hin : rec ∈ concat (map (export_rows startTS endTS) (map row_pair rs))) by (apply export_rows_elem; eauto).
    specialize (Ef rec Hin). rewrite En, beqb_refl in Ef. done.
Qed.

(** C10: Incremental export is exactly the difference: when the export of the
    window (startTS, endTS] of a span succeeds, a key of the span has a record
    exactly when its newest version at or below [endTS] is above [startTS], and
    the record carries that version's value, or marks its deletion.  The value
    every key of the span has at [endTS] is then the one its record carries
    (nothing, for a deletion record), or, when the export has no record of the
    key, the value it had at [startTS]: restoring a prior export at [startTS]
    and this one over it gives the state at [endTS]. *)
Theorem export_delta_restores pb s start end_ startTS endTS res k :
  store_ok s -> span_ok start end_ -> ts_ok startTS -> ts_valid endTS -> startTS <=t endTS ->
  MVCCExport pb s start end_ startTS endTS 0 = Ok res ->
  bytes_ok k -> start ≼ k -> k ≺ end_ ->
  (forall r, r ∈ Records res /\ erKey r = k <->
     exists t raw data dead, newest_at s k endTS ts0 t raw /\ startTS <t t /\ decodeMVCCValue raw = Ok (data, dead) /\
       r = mkExported k (if dead then None else append_nil data) dead) /\
  MVCCGet pb s k endTS plain_read =
    match find_record k (Records res) with
    | Some r => Ok (erValue r)
    | None => MVCCGet pb s k startTS plain_read
    end.
Proof.
  intros Hs Hsp Hst [Het Het0] Hle Hrun Hk H1 H2. pose proof Hs as [Hwf _].
  destruct (range_rows_exist s start end_ Hwf Hsp) as (rs & Hrr).
  rewrite (MVCCExport_ref pb s start end_ startTS endTS 0 rs Hrr (conj Het Het0)) in Hrun.
  destruct (ref_export_all _ _ _ _ _ Hrun) as (Hrec & _ & Hall). cbn [app] in Hrec. rewrite Hrec. clear Hrun Hrec.
  split; [by apply (export_records_exact s start end_)|].
  assert (Ho1 : opts_ok startTS plain_read) by (split; [done|apply ts0_ok]).
  assert (Ho2 : opts_ok endTS plain_read) by (split; [done|apply ts0_ok]).
  pose proof (rr_ok _ _ _ _ Hrr) as [Hrok Hsort]. pose proof (rr_meta _ _ _ _ Hrr) as Hm. pose proof (rr_is_view _ _ _ _ Hrr) as Hv.
  rewrite Forall_forall in Hrok, Hm, Hv. rewrite Forall_forall in Hall.
  destruct (decide (Exists (fun r => row_key r = k) rs)) as [He|Hne].
  2: { assert (Hno : forall r, r ∈ rs -> row_key r <> k) by (intros r Hr E; apply Hne, Exists_exists; by exists r).
       rewrite !(absent_read pb s start end_ rs k) by done.
       assert (find_record k (concat (map (export_rows startTS endTS) (map row_pair rs))) = None) as ->; [|done].
       apply first_none, Forall_forall. intros rec Hin. apply export_rows_elem in Hin as (r & Hr & Hx).
       apply beqb_neq. rewrite (ref_export_key_name _ _ _ _ _ Hx). by apply Hno. }
  apply Exists_exists in He as (r & Hr & <-). destruct (Hrok r Hr) as (Hl & _ & Hvs & _).
  pose proof (row_models s r (Hv r Hr) (Hm r Hr)) as HK.
  rewrite (MVCCGet_models pb s _ _ endTS _ Hwf Hl Ho2 HK), (MVCCGet_models pb s _ _ startTS _ Hwf Hl Ho1 HK).
  destruct (Hall (row_pair r)) as [Hab [o Ho]]; [apply (list_elem_of_fmap_2 row_pair rs r Hr)|].
  cbn [fst snd row_pair row_state k_versions] in Ho, Hab.
  rewrite !(plain_read_newest (row_key r) (row_state r)); [|done|done| |done|done|exact Hab].
  2: { intros meta Hi. specialize (Hab meta Hi). ts_lia. }
  assert (Huniq : forall rec, ref_export_key (row_key r) r.2 startTS endTS = Ok (Some rec) ->
    find_record (row_key r) (concat (map (export_rows startTS endTS) (map row_pair rs))) = Some rec).
  { intros rec Hx. by apply find_record_unique. }
  cbn [row_state k_versions]. unfold ref_newest, ref_export_key in *.
  destruct (newest r.2 endTS ts0) as [[t raw]|] eqn:En.
  - destruct (LessEq t startTS) eqn:El.
    + rewrite (newest_window r.2 startTS endTS ts0 Hle) by (rewrite En; by tsb). rewrite En.
      rewrite find_record_none; [done|]. intros r' Hr' Hk'. assert (r' = r) as -> by (by eapply row_key_inj).
      unfold ref_export_key. by rewrite En, El.
    + destruct (export_record (row_key r) raw) as [rec|e] eqn:Er; [|done]. rewrite (Huniq rec eq_refl).
      unfold export_record, read_value in *. destruct (lift_value (decodeMVCCValue raw)) as [[d []]|]; [..|done]; by injection Er as <-.
  - rewrite (newest_window r.2 startTS endTS ts0 Hle) by (by rewrite En). rewrite En.
    rewrite find_record_none; [done|]. intros r' Hr' Hk'. assert (r' = r) as -> by (by eapply row_key_inj).
    unfold ref_export_key. by rewrite En.
Qed.
End Spec.

(** ** Witnesses *)

Definition ex_key2 : bytes := [4; 2].

(** Two keys with a committed version each. *)
Definition ex_batch2 : Batch := (MVCCPutCommitted ex_key2 (mkTs 6 0) [8] ex_batch).1.

Lemma ex_key2_ok : IsLocal ex_key2 = false /\ bytes_ok ex_key2.
Proof. split; [done|]. by_compute. Qed.

Lemma ex_batch2_ok : store_ok (b_store ex_batch2).
Proof.
  destruct ex_batch_ok as [Hs _]. destruct ex_key2_ok as [Hl Hk].
  destruct (models_exists (b_store ex_batch) ex_key2 (proj1 Hs) Hl) as [K HK].
  apply (run_op_store_ok ex_batch (OpCommitted ex_key2 (mkTs 6 0) [8] false) K); [done|done|].
  split; [done|]. split; [done|]. by apply ex_ts_valid.
Qed.

Lemma ex_span_ok : span_ok [4] [5].
Proof. split; [by_compute|]. split; [by_compute|done]. Qed.

Lemma MVCCScan_agrees_with_MVCCGet_witness :
  MVCCScan true (b_store ex_batch2) [4] [5] (mkTs 6 0) 0 (ex_opts None) =
    Ok (mkScan [mkKV ex_key (Some [7]); mkKV ex_key2 (Some [8])] None) /\
  MVCCGet true (b_store ex_batch2) ex_key2 (mkTs 6 0) (ex_opts None) = Ok (Some [8]).
Proof.
  assert (E : MVCCScan true (b_store ex_batch2) [4] [5] (mkTs 6 0) 0 (ex_opts None) =
    Ok (mkScan [mkKV ex_key (Some [7]); mkKV ex_key2 (Some [8])] None)) by (vm_compute; reflexivity).
  split; [exact E|].
  pose proof (MVCCScan_agrees_with_MVCCGet true (b_store ex_batch2) [4] [5] (mkTs 6 0) (ex_opts None)
    ex_batch2_ok ex_span_ok (ex_ts_valid 6 0 ltac:(lia) ltac:(lia)) (ex_opts_ok None 6 ltac:(lia)) eq_refl) as H.
  rewrite E in H. destruct H as (_ & _ & Hrows & _).
  apply (Hrows (mkKV ex_key2 (Some [8]))). apply list_elem_of_further, list_elem_of_here.
Defined.

Lemma MVCCScan_pages_witness :
  MVCCScan true (b_store ex_batch2) [4] [5] (mkTs 6 0) 1 (ex_opts None) =
    Ok (mkScan [mkKV ex_key (Some [7])] (Some [4; 1; 0])) /\
  MVCCScan true (b_store ex_batch2) [4] [5] (mkTs 6 0) 0 (unlimited (ex_opts None)) =
    (let* rest := MVCCScan true (b_store ex_batch2) [4; 1; 0] [5] (mkTs 6 0) 0 (unlimited (ex_opts None)) in
     Ok (mkScan (mkKV ex_key (Some [7]) :: KVs rest) (Resume rest))).
Proof.
  assert (E : MVCCScan true (b_store ex_batch2) [4] [5] (mkTs 6 0) 1 (ex_opts None) =
    Ok (mkScan [mkKV ex_key (Some [7])] (Some [4; 1; 0]))) by (vm_compute; reflexivity).
  split; [exact E|].
  exact (MVCCScan_pages true (b_store ex_batch2) [4] [5] (mkTs 6 0) 1 (ex_opts None) _ _
    ex_batch2_ok ex_span_ok (ex_ts_valid 6 0 ltac:(lia) ltac:(lia)) (ex_opts_ok None 6 ltac:(lia)) E).
Defined.

Lemma MVCCReverseScan_is_reverse_witness :
  MVCCReverseScan true (b_store ex_batch2) [4] [5] (mkTs 6 0) 0 (ex_opts None) =
    Ok (mkScan [mkKV ex_key2 (Some [8]); mkKV ex_key (Some [7])] None).
Proof.
  assert (E : MVCCScan true (b_store ex_batch2) [4] [5] (mkTs 6 0) 0 (ex_opts None) =
    Ok (mkScan [mkKV ex_key (Some [7]); mkKV ex_key2 (Some [8])] None)) by (vm_compute; reflexivity).
  pose proof (MVCCReverseScan_is_reverse true (b_store ex_batch2) [4] [5] (mkTs 6 0) (ex_opts None)
    ex_batch2_ok ex_span_ok (ex_ts_valid 6 0 ltac:(lia) ltac:(lia)) eq_refl) as H.
  rewrite E in H. exact H.
Defined.


Lemma export_delta_restores_witness :
  MVCCExport true (b_store ex_batch2) [4] [5] (mkTs 5 0) (mkTs 9 0) 0 =
    Ok (mkExport [mkExported ex_key2 (Some [8]) false] None) /\
  MVCCGet true (b_store ex_batch2) ex_key2 (mkTs 9 0) plain_read = Ok (Some [8]).
Proof.
  assert (E : MVCCExport true (b_store ex_batch2) [4] [5] (mkTs 5 0) (mkTs 9 0) 0 =
    Ok (mkExport [mkExported ex_key2 (Some [8]) false] None)) by (vm_compute; reflexivity).
  split; [exact E|].
  rewrite (proj2 (export_delta_restores true (b_store ex_batch2) [4] [5] (mkTs 5 0) (mkTs 9 0) _ ex_key2 ex_batch2_ok ex_span_ok
    (proj1 (ex_ts_valid 5 0 ltac:(lia) ltac:(lia))) (ex_ts_valid 9 0 ltac:(lia) ltac:(lia)) ltac:(vm_compute; intuition congruence) E
    (proj2 ex_key2_ok) ltac:(vm_compute; congruence) eq_refl)).
  reflexivity.
Defined.

(** ** Locking reads that lose data *)

(** A locking scan row pins what it read: scan, lock, commit. *)
Definition lock_row (k : bytes) (readTS : Timestamp) (t : TxnMeta) (b : Batch) : Batch :=
  match MVCCScan (b_prefixBloom b) (b_store b) k (Key_Next k) readTS 0 (mkOpts (Some t) ts0 0 false) with
  | Ok (mkScan [kv] _) => (MVCCLock (kvKey kv) readTS (kvValue kv) (Some t) b).1
  | _ => b
  end.

(** A locking scan deletes a key whose stored value is empty.  A
    committed empty value is a row of the scan, with Go's nil for its value
    (an empty slice appended to nil); [MVCCLock] takes nil for "absent" and
    pins a tombstone, and when the transaction commits the key is gone for
    every later read, although the transaction only read it. *)
Theorem locking_scan_deletes_empty_value :
  let b0 := (MVCCPutCommitted ex_key (mkTs 5 0) [] ex_empty).1 in
  let t := ex_txn 9 (mkTs 8 0) true in
  let b1 := (MVCCResolveIntent ex_key (ID t) COMMITTED (mkTs 8 0) (lock_row ex_key (mkTs 8 0) t b0)).1 in
  MVCCScan true (b_store b0) [4] [5] (mkTs 9 0) 0 (ex_opts None) = Ok (mkScan [mkKV ex_key None] None) /\
  MVCCScan true (b_store b1) [4] [5] (mkTs 9 0) 0 (ex_opts None) = Ok (mkScan [] None).
Proof. vm_compute. split; reflexivity. Qed.

(** A locking read of a version at exactly its write timestamp loses it.
    [MVCCLock] admits a version at [readTS]; when the transaction's write
    timestamp is the read timestamp, the lock's provisional value takes the
    version's engine key, and aborting the transaction deletes it: a read
    that returned the committed value before the lock returns nothing
    after the abort. *)
Theorem lock_abort_loses_observed_version :
  let t := ex_txn 9 (mkTs 5 0) true in
  let b1 := (MVCCLock ex_key (mkTs 5 0) (Some [7]) (Some t) ex_batch).1 in
  let b2 := (MVCCResolveIntent ex_key (ID t) ABORTED ts0 b1).1 in
  (MVCCLock ex_key (mkTs 5 0) (Some [7]) (Some t) ex_batch).2 = Ok tt /\
  MVCCGet true (b_store ex_batch) ex_key (mkTs 9 0) (ex_opts None) = Ok (Some [7]) /\
  MVCCGet true (b_store b2) ex_key (mkTs 9 0) (ex_opts None) = Ok None.
Proof. vm_compute. repeat split; reflexivity. Qed.
