(* ===== verification/MvccTotal.v ===== *)
(** * Reads return

    The range loops of mvcc.go and mvcc_export.go run until their iterator
    is exhausted.  Here: over an engine that keeps the MVCC invariant, every
    one of them returns, and fails only with the conflicts a transaction
    knows how to handle, never on what the engine holds. *)

From S2P Require Import Prelude Encoding Hlc Keys MvccKey Pebble Enginepb Mvcc MvccView MvccRead MvccWrite MvccState MvccTxn MvccScan MvccRange MvccRangeSpec.

#[local] Abbreviation length := Datatypes.length.
#[local] Open Scope list_scope.
Open Scope Z_scope.

(** What a read may fail with. *)
Definition conflict (e : mvcc_err) : bool :=
  match e with WriteIntentError _ | UncertaintyError _ _ | RefreshFailed _ _ _ _ => true | _ => false end.
Definition settles {A} (r : result mvcc_err A) : Prop := match r with Ok _ => True | Err e => conflict e = true end.

Lemma settles_bind {A B} (m : result mvcc_err A) (f : A -> result mvcc_err B) :
  settles m -> (forall a, m = Ok a -> settles (f a)) -> settles (rbind m f).
Proof. destruct m; cbn; auto. Qed.

Section Total.
Context {P : Pebble} {PL : PebbleLaws P} {C : MetaCodec}.

(** What the reads rely on: every version decodes, an intent has its
    provisional version. *)
Definition state_readable (K : kstate) : Prop :=
  (forall v, v ∈ k_versions K -> value_ok v.2) /\
  forall meta, k_intent K = Some meta -> ts_valid (mTimestamp meta) /\ exists raw, lookup_version (mTimestamp meta) (k_versions K) = Some raw.

Lemma models_readable s k K : store_ok s -> IsLocal k = false -> models s k K -> state_readable K.
Proof.
  intros [Hwf Hok] Hl HK. split; [intros v; by apply (models_value_ok s k K v)|].
  intros meta Hi. split; [by apply (models_meta_valid s k K meta)|].
  pose proof (Hok k K Hl HK) as Hs. unfold kstate_ok in Hs. rewrite Hi in Hs.
  destruct Hs as (_ & raw & rest & Hr). exists raw. by apply (provisional_lookup K meta raw rest).
Qed.

Lemma settles_value raw : value_ok raw -> settles (read_value raw).
Proof. intros (d & t & E). unfold read_value. rewrite E. by destruct t. Qed.
Lemma settles_found raw : value_ok raw -> settles (found_value raw).
Proof. intros (d & t & E). unfold found_value. rewrite E. by destruct t. Qed.

Lemma newest_readable K ts skipAt v : state_readable K -> newest (k_versions K) ts skipAt = Some v -> value_ok v.2.
Proof. intros [Hv _] E. by apply Hv, (first_elem _ _ _ E). Qed.
Lemma lookup_readable K t raw : state_readable K -> lookup_version t (k_versions K) = Some raw -> value_ok raw.
Proof.
  intros [Hv _]. unfold lookup_version. destruct (first _ _) as [v|] eqn:E; [|done]. intros [= <-]. by apply Hv, (first_elem _ _ _ E).
Qed.

Lemma settles_uncertain vs ts skipAt opts : settles (ref_uncertain vs ts skipAt opts).
Proof. unfold ref_uncertain. repeat case_match; done. Qed.

Lemma settles_versions k K ts opts skipAt : state_readable K -> settles (ref_versions k (k_versions K) ts opts ts0 skipAt).
Proof.
  intros HK. unfold ref_versions. cbn [IsEmpty ts0 negb]. apply settles_bind; [apply settles_uncertain|]. intros _ _. unfold ref_newest.
  destruct (newest _ _ _) as [[t raw]|] eqn:E; [|done]. by apply settles_value, (newest_readable K ts skipAt (t, raw)).
Qed.

Lemma switch_own meta ts opts t : intent_switch meta ts opts = ReadAt t -> t = mTimestamp meta.
Proof. unfold intent_switch. repeat case_match; congruence. Qed.

Lemma settles_read k K ts opts : state_readable K -> settles (ref_read k K ts opts).
Proof.
  intros HK. unfold ref_read. destruct (k_intent K) as [meta|] eqn:Hi; [|by apply settles_versions].
  destruct (intent_switch meta ts opts) as [t|t|] eqn:Esw; [|by apply settles_versions|done]. apply switch_own in Esw as ->.
  destruct (proj2 HK meta Hi) as [Ht [raw Hl]]. unfold ref_versions. destruct (negb _); [|apply settles_bind; [apply settles_uncertain|]].
  - pose proof (lookup_readable K _ raw HK Hl) as Hraw. unfold lookup_version in Hl. destruct (first _ _) as [[u r]|]; [|done].
    injection Hl as ->. by apply settles_value.
  - intros _ _. unfold ref_newest. destruct (newest _ _ _) as [[t r]|] eqn:E; [|done]. by apply settles_value, (newest_readable K ts ts0 (t, r)).
Qed.

Lemma settles_scan_versions K ts opts skipAt check : state_readable K -> settles (ref_scan_versions (k_versions K) ts opts skipAt check).
Proof.
  intros HK. unfold ref_scan_versions. apply settles_bind; [destruct check; [apply settles_uncertain|done]|]. intros _ _.
  unfold found_of. destruct (newest _ _ _) as [[t raw]|] eqn:E; [|done]. by apply settles_found, (newest_readable K ts skipAt (t, raw)).
Qed.

Lemma settles_scan_key k K ts opts intents : state_readable K -> settles (ref_scan_key k K ts opts intents).2.
Proof.
  intros HK. unfold ref_scan_key. destruct (k_intent K) as [meta|]; [|by apply settles_scan_versions].
  destruct (intent_switch meta ts opts) as [t|t|]; cbn [snd]; [|by apply settles_scan_versions|by case_match].
  destruct (lookup_version t (k_versions K)) as [raw|] eqn:E; [|done]. by apply settles_found, (lookup_readable K t).
Qed.

(** The loops, over keys that are readable. *)
Abbreviation readable keys := (Forall (fun p : bytes * kstate => state_readable p.2) keys).

Lemma settles_scan resume keys ts max opts : readable keys ->
  forall rows intents bytes, settles (ref_scan resume keys ts max opts rows intents bytes).
Proof.
  induction 1 as [|[k K] keys HK _ IH]; intros rows intents bytes; cbn [ref_scan]; [by destruct intents|].
  pose proof (settles_scan_key k K ts opts intents HK) as Hk. destruct (ref_scan_key k K ts opts intents) as [met r]; cbn [snd] in Hk.
  apply settles_bind; [done|]. intros found _. destruct found as [v|], met; try apply IH. case_match; [done|apply IH].
Qed.

Lemma settles_refresh keys fromTS toTS own : readable keys -> settles (ref_refresh keys fromTS toTS own).
Proof.
  induction 1 as [|[k K] keys HK _ IH]; cbn [ref_refresh]; [done|]. apply settles_bind; [|done].
  unfold ref_refresh_key. repeat case_match; done.
Qed.

Lemma settles_export keys startTS endTS max : readable keys ->
  forall recs intents, settles (ref_export keys startTS endTS max recs intents).
Proof.
  induction 1 as [|[k K] keys HK _ IH]; intros recs intents; cbn [ref_export]; [by destruct intents|].
  assert (Hrec : settles (ref_export_key k (k_versions K) startTS endTS)).
  { unfold ref_export_key. destruct (newest _ _ _) as [[t raw]|] eqn:E; [|done]. case_match; [done|]. apply settles_bind; [|done].
    destruct (newest_readable K _ _ _ HK E) as (d & tb & Ed). cbn [snd] in Ed. unfold export_record. by rewrite Ed. }
  assert (Hval : settles (let* rec := ref_export_key k (k_versions K) startTS endTS in
    match rec, intents with
    | Some rec, [] =>
        let recs := recs ++ [rec] in
        if (0 <? max) && (Z.of_nat (length recs) =? max) then Ok (mkExport recs (Some (Key_Next k)))
        else ref_export keys startTS endTS max recs intents
    | _, _ => ref_export keys startTS endTS max recs intents
    end)).
  { apply settles_bind; [exact Hrec|]. intros [rec|] _; [|apply IH]. destruct intents; [|apply IH]. cbn zeta. case_match; [done|apply IH]. }
  destruct (k_intent K) as [meta|]; [|exact Hval]. destruct (negb _); [|exact Hval]. cbn zeta. destruct (_ <=? _)%nat; [done|apply IH].
Qed.

Lemma rows_readable s start end_ rs : store_ok s -> range_rows s start end_ rs -> readable (map row_pair rs).
Proof.
  intros Hs Hrr. apply Forall_fmap, Forall_forall. intros r Hr. pose proof (rr_ok _ _ _ _ Hrr) as [Hrok _].
  pose proof (rr_meta _ _ _ _ Hrr) as Hm. pose proof (rr_is_view _ _ _ _ Hrr) as Hv. rewrite Forall_forall in Hrok, Hm, Hv.
  apply (models_readable s (row_key r)); [done|apply Hrok, Hr|]. by apply row_models; [apply Hv|apply Hm].
Qed.

(** C30: Every read of the MVCC layer returns.  Over an engine that keeps the
    layer's invariant, a point read, a forward or reverse scan, a refresh
    and an export end, whatever the limits, and end well or with a conflict:
    a foreign intent, an uncertain version or a refresh that failed.  None
    meets a malformed key, value or metadata, an intent with no provisional
    value, or loops. *)
Theorem mvcc_reads_settle pb s start end_ :
  store_ok s -> span_ok start end_ ->
  (forall k ts opts, IsLocal k = false -> opts_ok ts opts -> settles (MVCCGet pb s k ts opts)) /\
  (forall ts max opts, ts_valid ts ->
     settles (MVCCScan pb s start end_ ts max opts) /\ settles (MVCCReverseScan pb s start end_ ts max opts)) /\
  (forall fromTS toTS own, ts_valid toTS -> settles (MVCCCheckForWrites pb s start end_ fromTS toTS own)) /\
  (forall startTS endTS max, ts_valid endTS -> settles (MVCCExport pb s start end_ startTS endTS max)).
Proof.
  intros Hs Hsp. pose proof Hs as [Hwf _]. destruct (range_rows_exist s start end_ Hwf Hsp) as (rs & Hrr).
  pose proof (rows_readable s start end_ rs Hs Hrr) as Hrd. split_and!.
  - intros k ts opts Hl Ho. destruct (models_exists s k Hwf Hl) as [K HK].
    rewrite (MVCCGet_models pb s k K ts opts Hwf Hl Ho HK). by apply settles_read, (models_readable s k).
  - intros ts max opts Hts. rewrite (MVCCScan_ref pb s _ _ _ _ _ rs), (MVCCReverseScan_ref pb s _ _ _ _ _ rs) by done.
    split; apply settles_scan; [done|]. rewrite map_reverse. by apply Forall_reverse.
  - intros fromTS toTS own Hts. rewrite (MVCCCheckForWrites_ref pb s _ _ _ _ _ rs) by done. by apply settles_refresh.
  - intros startTS endTS max Hts. rewrite (MVCCExport_ref pb s _ _ _ _ _ rs) by done. by apply settles_export.
Qed.
End Total.

(** ** Witness *)

Lemma mvcc_reads_settle_witness :
  settles (MVCCScan true (b_store ex_batch2) [4] [5] (mkTs 9 0) 1 (ex_opts None)).
Proof.
  pose proof (mvcc_reads_settle true (b_store ex_batch2) [4] [5] ex_batch2_ok ex_span_ok) as (_ & H & _).
  exact (proj1 (H (mkTs 9 0) 1 (ex_opts None) (ex_ts_valid 9 0 ltac:(lia) ltac:(lia)))).
Defined.
