(* ===== verification/Kvpb.v ===== *)
(** * The KV API (pkg/kvpb: data.go, api.go, errors.go)

    Descriptors, transactions, the requests and responses of a batch, and
    the wire error.  A [RequestUnion] is a struct of pointers of which one
    is set; [GetInner] returns the first that is.  The Go interface
    [Request] is the sum of its implementations. *)

From S2P Require Import Prelude Encoding Hlc Keys MvccKey Pebble Enginepb Mvcc MvccScan.

Open Scope Z_scope.

(** ** Descriptors *)

Record ReplicaDescriptor := mkReplica { rdNodeID : Z; rdStoreID : Z; rdReplicaID : Z }.

Record RangeDescriptor := mkRange {
  RangeID : Z; StartKey : bytes; EndKey : bytes; Replicas : list ReplicaDescriptor; NextReplicaID : Z; Generation : Z }.

#[export] Instance ReplicaDescriptor_eq_dec : EqDecision ReplicaDescriptor.
Proof. solve_decision. Defined.
#[export] Instance RangeDescriptor_eq_dec : EqDecision RangeDescriptor.
Proof. solve_decision. Defined.

Definition rangeDescriptor0 : RangeDescriptor := mkRange 0 [] [] [] 0 0.

Definition ContainsKey (d : RangeDescriptor) (k : bytes) : bool := bleb (StartKey d) k && bltb k (EndKey d).

Fixpoint find_replica (rs : list ReplicaDescriptor) (nodeID : Z) : option ReplicaDescriptor :=
  match rs with
  | [] => None
  | r :: rs => if rdNodeID r =? nodeID then Some r else find_replica rs nodeID
  end.
Definition GetReplica (d : RangeDescriptor) (nodeID : Z) : option ReplicaDescriptor := find_replica (Replicas d) nodeID.

(** ** Transactions *)

Record Transaction := mkTxn {
  tMeta : TxnMeta;
  tName : bytes;
  tStatus : TxnStatus;
  tReadTimestamp : Timestamp;
  tLastHeartbeat : Timestamp;
  tIntentKeys : list bytes;
  tWaitingFor : uuid;
  tWaitingForKey : bytes;
  tInFlightKeys : list bytes }.

#[export] Instance Transaction_eq_dec : EqDecision Transaction.
Proof. solve_decision. Defined.

(** [uuid.New] is the argument [id]. *)
Definition NewTransaction (id : uuid) (name : bytes) (priority : Z) (now : Timestamp) : Transaction :=
  mkTxn (mkTxnMeta id [] 0 now now priority 0 0 false) name PENDING now now [] uuid_Nil [] [].

Definition Clone (t : Transaction) : Transaction := t.

Definition with_status (t : Transaction) (st : TxnStatus) : Transaction :=
  mkTxn (tMeta t) (tName t) st (tReadTimestamp t) (tLastHeartbeat t) (tIntentKeys t) (tWaitingFor t) (tWaitingForKey t)
    (tInFlightKeys t).
Definition with_in_flight (t : Transaction) (ks : list bytes) : Transaction :=
  mkTxn (tMeta t) (tName t) (tStatus t) (tReadTimestamp t) (tLastHeartbeat t) (tIntentKeys t) (tWaitingFor t)
    (tWaitingForKey t) ks.
Definition with_intent_keys (t : Transaction) (ks : list bytes) : Transaction :=
  mkTxn (tMeta t) (tName t) (tStatus t) (tReadTimestamp t) (tLastHeartbeat t) ks (tWaitingFor t) (tWaitingForKey t)
    (tInFlightKeys t).

(** [Restart]: a new epoch at [now]; the priority is an int32 below 2^30. *)
Definition Restart (t : Transaction) (now : Timestamp) : Transaction :=
  let m := tMeta t in
  let prio := if Priority m <? 2 ^ 30 then Priority m + 1 else Priority m in
  mkTxn (mkTxnMeta (ID m) (Key m) (i32 (Epoch m + 1)) now (MinTimestamp m) prio (Sequence m) (HistoryFloor m) (BinaryMeta m))
    (tName t) (tStatus t) now (tLastHeartbeat t) (tIntentKeys t) (tWaitingFor t) (tWaitingForKey t) (tInFlightKeys t).

(** ** Requests *)

Record RequestHeader := mkHeader { hKey : bytes; hEndKey : bytes }.

Record GetRequest := mkGet { gtHeader : RequestHeader; gtForUpdate : bool }.
Record PutRequest := mkPut { puHeader : RequestHeader; puValue : bytes }.
Record DeleteRequest := mkDelete { deHeader : RequestHeader }.
Record IncrementRequest := mkIncrement { icHeader : RequestHeader; icBy : Z }.
Record ScanRequest := mkScanReq { scHeader : RequestHeader; scMaxRows : Z; scForUpdate : bool; scReverse : bool }.
Record ExportRequest := mkExportReq { exHeader : RequestHeader; exStartTS : Timestamp; exMaxRecords : Z }.
Record EndTxnRequest := mkEndTxn {
  etHeader : RequestHeader; etCommit : bool; etIntentKeys : list bytes; etInFlight : list bytes; etAll : bool }.
Record HeartbeatTxnRequest := mkHeartbeat {
  hbHeader : RequestHeader; hbNow : Timestamp; hbWaitingFor : uuid; hbWaitingForKey : bytes }.
Record PushTxnRequest := mkPush {
  ptHeader : RequestHeader; ptPusherTxn : option Transaction; ptPusheeTxn : TxnMeta; ptPushAbort : bool; ptNow : Timestamp;
  ptQueryOnly : bool; ptForceAbort : bool }.
Record ResolveIntentRequest := mkResolve {
  riHeader : RequestHeader; riTxnID : uuid; riStatus : TxnStatus; riCommitTS : Timestamp }.
Record RollbackIntentRequest := mkRollback { rbHeader : RequestHeader; rbTxnID : uuid; rbSequence : Z }.
Record RecoverTxnRequest := mkRecover { rtHeader : RequestHeader; rtTxnID : uuid; rtCommit : bool }.
Record RefreshRequest := mkRefresh { rfHeader : RequestHeader; rfFromTS : Timestamp }.
Record GCVersion := mkGCVersion { gvKey : bytes; gvTS : Timestamp; gvBytes : Z }.
Record GCRequest := mkGC {
  gcHeader : RequestHeader; gcThreshold : Timestamp; gcVersions : list GCVersion; gcTxnRecordKeys : list bytes }.
Record TruncateLogRequest := mkTruncate { tlHeader : RequestHeader; tlIndex : Z; tlTerm : Z }.
Record AdminSplitRequest := mkAdminSplit { asHeader : RequestHeader }.
Record AdminChangeReplicasRequest := mkAdminChange { acHeader : RequestHeader; acAddNode : Z; acRemoveNode : Z }.
Record AdminTransferLeaseRequest := mkAdminTransfer { atHeader : RequestHeader; atTarget : Z }.
Record AdminMergeRequest := mkAdminMerge { amHeader : RequestHeader }.
Record SubsumeRequest := mkSubsume { suHeader : RequestHeader; suMergeInto : Z }.
Record UnfreezeRequest := mkUnfreeze { ufHeader : RequestHeader }.
Record UpdateMetaRequest := mkUpdateMeta {
  umHeader : RequestHeader; umDesc : option RangeDescriptor; umIfRangeID : Z; umIfGeneration : Z }.

Inductive Request :=
| RGet (r : GetRequest) | RPut (r : PutRequest) | RDelete (r : DeleteRequest) | RIncrement (r : IncrementRequest)
| RScan (r : ScanRequest) | RExport (r : ExportRequest) | REndTxn (r : EndTxnRequest)
| RHeartbeatTxn (r : HeartbeatTxnRequest) | RPushTxn (r : PushTxnRequest) | RResolveIntent (r : ResolveIntentRequest)
| RRollbackIntent (r : RollbackIntentRequest) | RRecoverTxn (r : RecoverTxnRequest) | RRefresh (r : RefreshRequest)
| RGC (r : GCRequest) | RTruncateLog (r : TruncateLogRequest) | RAdminSplit (r : AdminSplitRequest)
| RAdminChangeReplicas (r : AdminChangeReplicasRequest) | RAdminTransferLease (r : AdminTransferLeaseRequest)
| RAdminMerge (r : AdminMergeRequest) | RSubsume (r : SubsumeRequest) | RUnfreeze (r : UnfreezeRequest)
| RUpdateMeta (r : UpdateMetaRequest).

Record RequestUnion := mkRU {
  uGet : option GetRequest; uPut : option PutRequest; uDelete : option DeleteRequest; uIncrement : option IncrementRequest;
  uScan : option ScanRequest; uExport : option ExportRequest; uEndTxn : option EndTxnRequest;
  uHeartbeatTxn : option HeartbeatTxnRequest; uPushTxn : option PushTxnRequest; uResolveIntent : option ResolveIntentRequest;
  uRollbackIntent : option RollbackIntentRequest; uRecoverTxn : option RecoverTxnRequest; uRefresh : option RefreshRequest;
  uGC : option GCRequest; uTruncateLog : option TruncateLogRequest; uAdminSplit : option AdminSplitRequest;
  uAdminChangeReplicas : option AdminChangeReplicasRequest; uAdminTransferLease : option AdminTransferLeaseRequest;
  uAdminMerge : option AdminMergeRequest; uSubsume : option SubsumeRequest; uUnfreeze : option UnfreezeRequest;
  uUpdateMeta : option UpdateMetaRequest }.

(** The switch of [GetInner]: a field that is set is returned, in order. *)
Definition or_else (o : option Request) (k : option Request) : option Request := match o with Some r => Some r | None => k end.

Definition GetInner (u : RequestUnion) : option Request :=
  or_else (RGet <$> uGet u) $ or_else (RPut <$> uPut u) $ or_else (RDelete <$> uDelete u) $
  or_else (RIncrement <$> uIncrement u) $ or_else (RScan <$> uScan u) $ or_else (RExport <$> uExport u) $
  or_else (REndTxn <$> uEndTxn u) $ or_else (RHeartbeatTxn <$> uHeartbeatTxn u) $ or_else (RPushTxn <$> uPushTxn u) $
  or_else (RResolveIntent <$> uResolveIntent u) $ or_else (RRollbackIntent <$> uRollbackIntent u) $
  or_else (RRecoverTxn <$> uRecoverTxn u) $ or_else (RRefresh <$> uRefresh u) $ or_else (RGC <$> uGC u) $
  or_else (RTruncateLog <$> uTruncateLog u) $ or_else (RAdminSplit <$> uAdminSplit u) $
  or_else (RAdminChangeReplicas <$> uAdminChangeReplicas u) $ or_else (RAdminTransferLease <$> uAdminTransferLease u) $
  or_else (RAdminMerge <$> uAdminMerge u) $ or_else (RSubsume <$> uSubsume u) $ or_else (RUnfreeze <$> uUnfreeze u) $
  (RUpdateMeta <$> uUpdateMeta u).

(** The union with one field set, which [Add] builds. *)
Definition union_of (r : Request) : RequestUnion :=
  mkRU
    (match r with RGet x => Some x | _ => None end) (match r with RPut x => Some x | _ => None end)
    (match r with RDelete x => Some x | _ => None end) (match r with RIncrement x => Some x | _ => None end)
    (match r with RScan x => Some x | _ => None end) (match r with RExport x => Some x | _ => None end)
    (match r with REndTxn x => Some x | _ => None end) (match r with RHeartbeatTxn x => Some x | _ => None end)
    (match r with RPushTxn x => Some x | _ => None end) (match r with RResolveIntent x => Some x | _ => None end)
    (match r with RRollbackIntent x => Some x | _ => None end) (match r with RRecoverTxn x => Some x | _ => None end)
    (match r with RRefresh x => Some x | _ => None end) (match r with RGC x => Some x | _ => None end)
    (match r with RTruncateLog x => Some x | _ => None end) (match r with RAdminSplit x => Some x | _ => None end)
    (match r with RAdminChangeReplicas x => Some x | _ => None end)
    (match r with RAdminTransferLease x => Some x | _ => None end)
    (match r with RAdminMerge x => Some x | _ => None end) (match r with RSubsume x => Some x | _ => None end)
    (match r with RUnfreeze x => Some x | _ => None end) (match r with RUpdateMeta x => Some x | _ => None end).

Definition Header (r : Request) : RequestHeader :=
  match r with
  | RGet r => gtHeader r | RPut r => puHeader r | RDelete r => deHeader r | RIncrement r => icHeader r
  | RScan r => scHeader r | RExport r => exHeader r | REndTxn r => etHeader r | RHeartbeatTxn r => hbHeader r
  | RPushTxn r => ptHeader r | RResolveIntent r => riHeader r | RRollbackIntent r => rbHeader r
  | RRecoverTxn r => rtHeader r | RRefresh r => rfHeader r | RGC r => gcHeader r | RTruncateLog r => tlHeader r
  | RAdminSplit r => asHeader r | RAdminChangeReplicas r => acHeader r | RAdminTransferLease r => atHeader r
  | RAdminMerge r => amHeader r | RSubsume r => suHeader r | RUnfreeze r => ufHeader r | RUpdateMeta r => umHeader r
  end.

Definition Request_IsReadOnly (r : Request) : bool :=
  match r with
  | RGet r => negb (gtForUpdate r)
  | RScan r => negb (scForUpdate r)
  | RExport _ => true
  | RPushTxn r => ptQueryOnly r
  | RRefresh _ => true
  | _ => false
  end.

(** ** Batches *)

Record BatchHeader := mkBatchHeader {
  bhTimestamp : Timestamp; bhTxn : option Transaction; bhRangeID : Z; bhCreateTxnRecord : bool;
  bhReadInconsistent : bool; bhStaleRead : bool }.
Record BatchRequest := mkBatchRequest { baHeader : BatchHeader; baRequests : list RequestUnion }.

Definition BatchRequest_IsReadOnly (b : BatchRequest) : bool :=
  forallb (fun u => match GetInner u with Some r => Request_IsReadOnly r | None => false end) (baRequests b).

Definition writes_mvcc (r : option Request) : bool :=
  match r with
  | Some (RPut _) | Some (RDelete _) | Some (RIncrement _) | Some (RUpdateMeta _) => true
  | Some (RGet r) => gtForUpdate r
  | Some (RScan r) => scForUpdate r
  | _ => false
  end.
Definition HasMVCCWrites (b : BatchRequest) : bool := existsb (fun u => writes_mvcc (GetInner u)) (baRequests b).

Definition Add (b : BatchRequest) (r : Request) : BatchRequest :=
  mkBatchRequest (baHeader b) (baRequests b ++ [union_of r]).

(** ** Responses *)

Record PushTxnResponse := mkPushTxnResponse {
  prStatus : TxnStatus; prCommitTS : Timestamp; prWaitingFor : uuid; prWaitingForKey : bytes; prPriority : Z;
  prInFlightKeys : list bytes }.

(** A response literal that names only the status, the timestamp and the
    staged write set. *)
Definition mkPushResp (st : TxnStatus) (ts : Timestamp) (inFlight : list bytes) : PushTxnResponse :=
  mkPushTxnResponse st ts uuid_Nil [] 0 inFlight.

Record ScanResponse := mkScanResponse { srRows : list KeyValue; srResume : option bytes }.
Record ExportResponse := mkExportResponse { xrRecords : list ExportedRecord; xrResume : option bytes }.

(** The field of a [ResponseUnion] that is set, with its contents. *)
Inductive Response :=
| OGet (value : option bytes) | OPut | ODelete | OIncrement (newValue : Z) | OScan (r : ScanResponse)
| OExport (r : ExportResponse) | OEndTxn (commitTS : Timestamp) (onePhase : bool) | OHeartbeatTxn (status : TxnStatus)
| OPushTxn (r : PushTxnResponse) | OResolveIntent | ORollbackIntent | ORecoverTxn (status : TxnStatus) | ORefresh | OGC
| OTruncateLog | OAdminSplit (left right : RangeDescriptor) | OAdminChangeReplicas (desc : RangeDescriptor)
| OAdminTransferLease (desc : RangeDescriptor) | OAdminMerge (desc : RangeDescriptor) | OSubsume | OUnfreeze
| OUpdateMeta (applied : bool).

Record BatchResponse := mkBatchResponse {
  brTxn : option Transaction; brTimestamp : Timestamp; brResponses : list Response }.

(** ** Errors *)

(** [kvpb.Error]: a message and the typed details. *)
Record Error := mkError {
  Message : bytes;
  eNotLeader : option (Z * Z);                               (* range, leader hint *)
  eRangeNotFound : option Z;
  eRangeKeyMismatch : option (bytes * list RangeDescriptor); (* request key, actual descriptors *)
  eWriteIntent : option (list Intent);
  eWriteTooOld : option (Timestamp * Timestamp);
  eUncertainty : option (Timestamp * Timestamp);
  eTxnAborted : bool;
  eTxnRetry : option Timestamp;
  eTxnNotFound : bool;
  eAmbiguous : bool;
  eStorageOverloaded : bool }.

Definition NewErrorf (msg : bytes) : Error :=
  mkError msg None None None None None None false None false false false.

(** [NewError] of a storage error whose text is [msg]. *)
Definition NewError (msg : bytes) (e : mvcc_err) : Error :=
  match e with
  | WriteIntentError intents => mkError msg None None None (Some intents) None None false None false false false
  | WriteTooOldError ts actual => mkError msg None None None None (Some (ts, actual)) None false None false false false
  | UncertaintyError r x => mkError msg None None None None None (Some (r, x)) false None false false false
  | _ => NewErrorf msg
  end.

Definition IsRetryableTxnError (e : Error) : bool :=
  bool_decide (is_Some (eWriteTooOld e)) || bool_decide (is_Some (eUncertainty e)) || bool_decide (is_Some (eTxnRetry e)) || eTxnAborted e.

Definition RetryTimestamp (e : Error) (fallback : Timestamp) : Timestamp :=
  match eWriteTooOld e, eUncertainty e, eTxnRetry e with
  | Some (_, actual), _, _ => Forward fallback actual
  | None, Some (_, existing), _ => Forward fallback (Next existing)
  | None, None, Some ts => Forward fallback ts
  | None, None, None => fallback
  end.
