(* ===== verification/TxnRecord.v ===== *)
(** * Transaction records (pkg/kvserver/txn.go; Transaction of pkg/kvpb)

    A transaction's fate is one record in the range-local addressed
    keyspace.  The operations that create, commit, stage, abort, heartbeat,
    push and recover it run on the engine batch of a replicated command and
    return a response or an error.  The stored encodings are JSON and
    protobuf, told apart by their first byte; the marshallers are library
    code ([TxnCodec]). *)

From S2P Require Import Prelude Encoding Hlc Keys MvccKey Pebble Enginepb Mvcc MvccWrite Kvpb.

Open Scope Z_scope.

(** ** Stored encodings (pkg/kvpb/proto.go) *)

Record PbTransaction := mkPbTxn {
  pbtMeta : option PbTxnMeta;
  pbtName : bytes;
  pbtStatus : Z;
  pbtReadTimestamp : option PbHlc;
  pbtLastHeartbeat : option PbHlc;
  pbtIntentKeys : list bytes;
  pbtWaitingFor : bytes;
  pbtWaitingForKey : bytes;
  pbtInFlightKeys : list bytes }.

(** The constants of [enginepb.TxnStatus] as its int32 values. *)
Definition status_to_int (s : TxnStatus) : Z :=
  match s with PENDING => 0 | COMMITTED => 1 | ABORTED => 2 | STAGING => 3 end.
Definition status_of_int (z : Z) : option TxnStatus :=
  if z =? 0 then Some PENDING else if z =? 1 then Some COMMITTED else if z =? 2 then Some ABORTED
  else if z =? 3 then Some STAGING else None.

Definition txnToProto (t : Transaction) : PbTransaction :=
  mkPbTxn (Some (TxnMetaToProto (tMeta t))) (tName t) (status_to_int (tStatus t)) (TimestampToProto (tReadTimestamp t))
    (TimestampToProto (tLastHeartbeat t)) (tIntentKeys t) (UUIDToProto (tWaitingFor t)) (tWaitingForKey t) (tInFlightKeys t).

(** A status that is none of the constants, which no writer stores, does
    not decode here. *)
Definition txnFromProto (p : PbTransaction) : option Transaction :=
  match TxnMetaFromProto (pbtMeta p), UUIDFromProto (pbtWaitingFor p), status_of_int (pbtStatus p) with
  | Some meta, Some w, Some st =>
      Some (mkTxn meta (pbtName p) st (TimestampFromProto (pbtReadTimestamp p)) (TimestampFromProto (pbtLastHeartbeat p))
              (pbtIntentKeys p) w (pbtWaitingForKey p) (pbtInFlightKeys p))
  | _, _, _ => None
  end.

Class TxnCodec := {
  txn_json_marshal : Transaction -> bytes;
  txn_json_unmarshal : bytes -> option Transaction;
  txn_proto_marshal : PbTransaction -> bytes;
  txn_proto_unmarshal : bytes -> option PbTransaction;
}.

(** UUIDs are arrays of 16 bytes. *)
Definition txn_ok (t : Transaction) : Prop :=
  length (ID (tMeta t)) = 16%nat /\ length (tWaitingFor t) = 16%nat.

#[export] Instance txn_ok_dec t : Decision (txn_ok t).
Proof. unfold txn_ok. apply _. Defined.

Class TxnCodecLaws (T : TxnCodec) : Prop := {
  txn_json_roundtrip t : txn_ok t -> txn_json_unmarshal (txn_json_marshal t) = Some t;
  txn_json_typed raw t : txn_json_unmarshal raw = Some t -> txn_ok t;
  txn_proto_roundtrip p : txn_proto_unmarshal (txn_proto_marshal p) = Some p;
  txn_json_head t : exists r, txn_json_marshal t = json_open :: r;
  txn_proto_head p : pbtMeta p <> None -> exists r, txn_proto_marshal p = 10 :: r;
}.

(** ** Errors *)

Inductive kv_err :=
| ErrStorage (e : mvcc_err)
| ErrTxnAborted
| ErrTxnRetry (retryTS : Timestamp)
| ErrTxnNotFound
| ErrTxnCommitted           (* the record is already committed *)
| ErrNewerEpoch             (* the record is at a newer epoch *)
| ErrCorruptRecord
| ErrNoTransaction          (* the request needs a transaction header *)
| ErrNotOnePhase            (* EndTxn.All outside a one-phase batch *)
| ErrUnsupported            (* a request the evaluator does not take *)
| ErrText.                  (* other message-only errors *)

Declare Scope eval_scope.
Delimit Scope eval_scope with eval.

Section Eval.
Context {P : Pebble} {T : TxnCodec}.

Definition MarshalTxnRecord (t : Transaction) : bytes :=
  if BinaryMeta (tMeta t) then txn_proto_marshal (txnToProto t) else txn_json_marshal t.

(** [None] is an error (empty or malformed record). *)
Definition UnmarshalTxnRecord (raw : bytes) : option Transaction :=
  match raw with
  | [] => None
  | c :: _ =>
      if c =? json_open then txn_json_unmarshal raw
      else match txn_proto_unmarshal raw with Some pb => txnFromProto pb | None => None end
  end.

(** The monad of evaluation: the batch and a [kvpb.Error]. *)
Definition EM (A : Type) : Type := Batch -> Batch * result kv_err A.
Definition eret {A} (a : A) : EM A := fun b => (b, Ok a).
Definition efail {A} (e : kv_err) : EM A := fun b => (b, Err e).
Definition ebind {A B} (m : EM A) (k : A -> EM B) : EM B := fun b =>
  match m b with
  | (b', Ok a) => k a b'
  | (b', Err e) => (b', Err e)
  end.
(** A storage operation, its error wrapped by [kvpb.NewError]. *)
Definition estore {A} (m : BM A) : EM A := fun b =>
  match m b with
  | (b', Ok a) => (b', Ok a)
  | (b', Err e) => (b', Err (ErrStorage e))
  end.

Definition txnRecordKey (m : TxnMeta) : bytes := TransactionKey (Key m) (ID m).

Definition loadTxnRecord (key : bytes) : EM (option Transaction) := fun b =>
  match Batch_Get (b_store b) key with
  | None => (b, Ok None)
  | Some raw => match UnmarshalTxnRecord raw with Some t => (b, Ok (Some t)) | None => (b, Err ErrCorruptRecord) end
  end.

Definition putTxnRecord (key : bytes) (t : Transaction) : EM unit :=
  estore (bPut key (MarshalTxnRecord t)).
End Eval.

Notation "'let!' x := m 'in' k" := (ebind m (fun x => k)) (at level 10, x pattern, m at level 200, k at level 200) : eval_scope.
Open Scope eval_scope.

Definition TxnExpiration : Z := 5 * 1000000000.

(** [now.WallTime - last.WallTime] on int64. *)
Definition expired (now last : Timestamp) : bool := TxnExpiration <? i64 (WallTime now - WallTime last).

Section Records.
Context {P : Pebble} {T : TxnCodec}.

(** [thr] is the range's replicated GC threshold. *)
Definition createTxnRecord (thr : Timestamp) (txn : option Transaction) : EM unit :=
  match txn with
  | None => efail ErrNoTransaction
  | Some txn =>
      if negb (IsEmpty thr) && LessEq (MinTimestamp (tMeta txn)) thr then efail ErrTxnAborted
      else
        let key := txnRecordKey (tMeta txn) in
        let! existing := loadTxnRecord key in
        match existing with
        | Some e =>
            match tStatus e with
            | ABORTED => efail ErrTxnAborted
            | COMMITTED => efail ErrTxnCommitted
            | _ => putTxnRecord key (with_status (Clone txn) PENDING)
            end
        | None => putTxnRecord key (with_status (Clone txn) PENDING)
        end
  end.

(** The record [EndTxn] writes. *)
Definition end_record (txn : Transaction) (req : EndTxnRequest) : Transaction :=
  if etCommit req then
    with_intent_keys
      (match etInFlight req with
       | [] => with_in_flight (with_status (Clone txn) COMMITTED) []
       | ks => with_in_flight (with_status (Clone txn) STAGING) ks
       end) (etIntentKeys req)
  else with_in_flight (with_status (Clone txn) ABORTED) [].

(** The response is the commit timestamp. *)
Definition evalEndTxn (txn : option Transaction) (req : EndTxnRequest) : EM Timestamp :=
  match txn with
  | None => efail ErrNoTransaction
  | Some txn =>
      if etAll req then efail ErrNotOnePhase
      else
        let key := txnRecordKey (tMeta txn) in
        let! rec := loadTxnRecord key in
        let finish :=
          if etCommit req && negb (Equal (tReadTimestamp txn) (WriteTimestamp (tMeta txn)))
          then efail (ErrTxnRetry (WriteTimestamp (tMeta txn)))
          else
            let final := end_record txn req in
            let! _ := putTxnRecord key final in
            eret (WriteTimestamp (tMeta final)) in
        match rec with
        | Some rec =>
            match tStatus rec with
            | ABORTED => efail ErrTxnAborted
            | COMMITTED =>
                if etCommit req && (Epoch (tMeta rec) =? Epoch (tMeta txn)) then eret (WriteTimestamp (tMeta rec))
                else efail ErrTxnCommitted
            | _ => if Epoch (tMeta txn) <? Epoch (tMeta rec) then efail ErrNewerEpoch else finish
            end
        | None => finish
        end
  end.

Definition evalHeartbeatTxn (txn : option Transaction) (req : HeartbeatTxnRequest) : EM TxnStatus :=
  match txn with
  | None => efail ErrNoTransaction
  | Some txn =>
      let key := txnRecordKey (tMeta txn) in
      let! rec := loadTxnRecord key in
      match rec with
      | None => efail ErrTxnNotFound
      | Some rec =>
          if bool_decide (tStatus rec = PENDING) then
            let rec := mkTxn (tMeta rec) (tName rec) (tStatus rec) (tReadTimestamp rec)
                         (Forward (tLastHeartbeat rec) (hbNow req)) (tIntentKeys rec)
                         (hbWaitingFor req) (hbWaitingForKey req) (tInFlightKeys rec) in
            let! _ := putTxnRecord key rec in
            eret (tStatus rec)
          else eret (tStatus rec)
      end
  end.

Definition pusherPriority (req : PushTxnRequest) : Z :=
  match ptPusherTxn req with Some t => Priority (tMeta t) | None => 2 ^ 30 end.

Definition push_abort (key : bytes) (rec : Transaction) : EM PushTxnResponse :=
  let! _ := putTxnRecord key (with_status rec ABORTED) in
  eret (mkPushResp ABORTED ts0 []).

Definition evalPushTxn (req : PushTxnRequest) : EM PushTxnResponse :=
  let key := TransactionKey (Key (ptPusheeTxn req)) (ID (ptPusheeTxn req)) in
  let! rec := loadTxnRecord key in
  match rec with
  | None =>
      if expired (ptNow req) (MinTimestamp (ptPusheeTxn req)) then
        let poisoned := mkTxn (ptPusheeTxn req) [] ABORTED ts0 ts0 [] uuid_Nil [] [] in
        let! _ := putTxnRecord key poisoned in
        eret (mkPushResp ABORTED ts0 [])
      else eret (mkPushResp PENDING ts0 [])
  | Some rec =>
      match tStatus rec with
      | COMMITTED => eret (mkPushResp COMMITTED (WriteTimestamp (tMeta rec)) [])
      | ABORTED => eret (mkPushResp ABORTED ts0 [])
      | STAGING => eret (mkPushResp STAGING (WriteTimestamp (tMeta rec)) (tInFlightKeys rec))
      | PENDING =>
          if expired (ptNow req) (tLastHeartbeat rec) then push_abort key rec
          else if ptForceAbort req then push_abort key rec
          else if ptPushAbort req && (Priority (tMeta rec) <? pusherPriority req) then push_abort key rec
          else eret (mkPushResp PENDING ts0 [])
      end
  end.

Definition evalRecoverTxn (req : RecoverTxnRequest) : EM TxnStatus :=
  let key := TransactionKey (hKey (rtHeader req)) (rtTxnID req) in
  let! rec := loadTxnRecord key in
  match rec with
  | None => eret ABORTED
  | Some rec =>
      if negb (bool_decide (tStatus rec = STAGING)) then eret (tStatus rec)
      else
        let st := if rtCommit req then COMMITTED else ABORTED in
        let rec := with_in_flight (with_status rec st) [] in
        let! _ := putTxnRecord key rec in
        eret (tStatus rec)
  end.
End Records.
