(* ===== verification/TxnRecordSpec.v ===== *)
(** * What transaction records promise

    Every command on a transaction record is a step of an abstract state
    machine on that record ([rstep]): the evaluators read the record at one
    key, and write at most that key.  The promises of txn.go ("flipped
    exactly once to COMMITTED or ABORTED", the commit gate, the safety of a
    staged record) are then invariants of the machine, by induction on the
    commands a replica applies. *)

From S2P Require Import Prelude Encoding Hlc Keys MvccKey Pebble Enginepb Mvcc MvccWrite Kvpb TxnRecord.

Open Scope Z_scope.

(** ** Commands *)

Inductive txn_cmd :=
| CCreate (thr : Timestamp) (txn : option Transaction)
| CEnd (txn : option Transaction) (req : EndTxnRequest)
| CHeartbeat (txn : option Transaction) (req : HeartbeatTxnRequest)
| CPush (req : PushTxnRequest)
| CRecover (req : RecoverTxnRequest).

Definition header_key (txn : option Transaction) : option bytes := (fun t => txnRecordKey (tMeta t)) <$> txn.

(** The key of the record a command reads and writes. *)
Definition cmd_key (c : txn_cmd) : option bytes :=
  match c with
  | CCreate _ txn | CEnd txn _ | CHeartbeat txn _ => header_key txn
  | CPush req => Some (TransactionKey (Key (ptPusheeTxn req)) (ID (ptPusheeTxn req)))
  | CRecover req => Some (TransactionKey (hKey (rtHeader req)) (rtTxnID req))
  end.

Definition header_ok (txn : option Transaction) : Prop := match txn with Some t => txn_ok t | None => True end.
Definition cmd_ok (c : txn_cmd) : Prop :=
  match c with
  | CCreate _ txn | CEnd txn _ => header_ok txn
  | CHeartbeat txn req => header_ok txn /\ length (hbWaitingFor req) = 16%nat
  | CPush req => length (ID (ptPusheeTxn req)) = 16%nat
  | CRecover _ => True
  end.

Definition is_final (s : TxnStatus) : bool := match s with COMMITTED | ABORTED => true | _ => false end.

(** ** The record's state machine *)

Inductive rstep : txn_cmd -> option Transaction -> Transaction -> Prop :=
| step_create thr txn old :
    (forall e, old = Some e -> is_final (tStatus e) = false) ->
    (IsEmpty thr = true \/ Less thr (MinTimestamp (tMeta txn)) = true) ->
    rstep (CCreate thr (Some txn)) old (with_status txn PENDING)
| step_end txn req old :
    (forall e, old = Some e -> is_final (tStatus e) = false /\ Epoch (tMeta e) <= Epoch (tMeta txn)) ->
    (etCommit req = true -> tReadTimestamp txn = WriteTimestamp (tMeta txn)) ->
    rstep (CEnd (Some txn) req) old (end_record txn req)
| step_heartbeat txn req e :
    tStatus e = PENDING ->
    rstep (CHeartbeat (Some txn) req) (Some e)
      (mkTxn (tMeta e) (tName e) PENDING (tReadTimestamp e) (Forward (tLastHeartbeat e) (hbNow req)) (tIntentKeys e)
         (hbWaitingFor req) (hbWaitingForKey req) (tInFlightKeys e))
| step_poison req :
    expired (ptNow req) (MinTimestamp (ptPusheeTxn req)) = true ->
    rstep (CPush req) None (mkTxn (ptPusheeTxn req) [] ABORTED ts0 ts0 [] uuid_Nil [] [])
| step_push req e :
    tStatus e = PENDING ->
    expired (ptNow req) (tLastHeartbeat e) = true \/ ptForceAbort req = true \/
      (ptPushAbort req = true /\ Priority (tMeta e) < pusherPriority req) ->
    rstep (CPush req) (Some e) (with_status e ABORTED)
| step_recover req e :
    tStatus e = STAGING ->
    rstep (CRecover req) (Some e)
      (with_in_flight (with_status e (if rtCommit req then COMMITTED else ABORTED)) []).

Section Spec.
Context {P : Pebble} {PL : PebbleLaws P} {T : TxnCodec} {TL : TxnCodecLaws T}.

(** The record readers find at a key. *)
Definition record (s : store) (key : bytes) : option Transaction :=
  match Batch_Get s key with Some raw => UnmarshalTxnRecord raw | None => None end.

(** One command: the batch after it and whether it was an error. *)
Definition txn_do (c : txn_cmd) (b : Batch) : Batch * result kv_err unit :=
  match c with
  | CCreate thr txn => createTxnRecord thr txn b
  | CEnd txn req => (let! _ := evalEndTxn txn req in eret tt) b
  | CHeartbeat txn req => (let! _ := evalHeartbeatTxn txn req in eret tt) b
  | CPush req => (let! _ := evalPushTxn req in eret tt) b
  | CRecover req => (let! _ := evalRecoverTxn req in eret tt) b
  end.

(** The commands a range applies to its batch, in log order. *)
Inductive applies : list txn_cmd -> Batch -> Batch -> Prop :=
| applies_nil b : applies [] b b
| applies_cons c cs b b1 r b2 :
    txn_do c b = (b1, r) -> applies cs b1 b2 -> applies (c :: cs) b b2.

(** *** The stored encodings *)

Lemma txnProto_roundtrip t : txn_ok t -> txnFromProto (txnToProto t) = Some t.
Proof.
  intros [H1 H2]. unfold txnFromProto, txnToProto, TxnMetaFromProto, TxnMetaToProto. cbn.
  rewrite !UUIDProto_roundtrip by done. rewrite !TimestampProto_roundtrip.
  destruct t as [[] ? [] ? ? ? ? ? ?]; reflexivity.
Qed.

Lemma unmarshal_marshal t : txn_ok t -> UnmarshalTxnRecord (MarshalTxnRecord t) = Some t.
Proof.
  intros Ht. unfold MarshalTxnRecord. destruct (BinaryMeta (tMeta t)).
  - destruct (txn_proto_head (txnToProto t)) as [r E]; [done|].
    pose proof (txn_proto_roundtrip (txnToProto t)) as Hr. rewrite E in *. cbn [UnmarshalTxnRecord].
    rewrite Hr. by apply txnProto_roundtrip.
  - destruct (txn_json_head t) as [r E]. pose proof (txn_json_roundtrip t Ht) as Hr. rewrite E in *.
    cbn [UnmarshalTxnRecord]. by rewrite Z.eqb_refl.
Qed.

Lemma marshal_nonempty t : MarshalTxnRecord t <> [].
Proof.
  unfold MarshalTxnRecord. destruct (BinaryMeta (tMeta t)).
  - by destruct (txn_proto_head (txnToProto t)) as [r ->].
  - by destruct (txn_json_head t) as [r ->].
Qed.

Lemma record_put s key t : txn_ok t -> record (Batch_Put s key (MarshalTxnRecord t)) key = Some t.
Proof.
  intros Ht. unfold record, Batch_Get, Batch_Put. rewrite get_set_eq.
  pose proof (unmarshal_marshal t Ht) as H. pose proof (marshal_nonempty t) as Hn.
  by destruct (MarshalTxnRecord t).
Qed.

Lemma record_put_ne s key key' v : key <> key' -> record (Batch_Put s key v) key' = record s key'.
Proof. intros Hn. unfold record, Batch_Get, Batch_Put. by rewrite get_set_ne. Qed.

(** *** The evaluators are steps of the machine *)

Lemma load_cases key b :
  loadTxnRecord key b = (b, Ok (record (b_store b) key)) \/ loadTxnRecord key b = (b, Err ErrCorruptRecord).
Proof.
  unfold loadTxnRecord, record. destruct (Batch_Get _ _) as [raw|]; [|by left].
  destruct (UnmarshalTxnRecord raw); [by left|by right].
Qed.

Lemma load_record key b t : record (b_store b) key = Some t -> loadTxnRecord key b = (b, Ok (Some t)).
Proof.
  unfold loadTxnRecord, record. destruct (Batch_Get _ _) as [raw|]; [|done]. by intros ->.
Qed.

Lemma put_record key t b :
  putTxnRecord key t b = (b_with_store b (Batch_Put (b_store b) key (MarshalTxnRecord t)), Ok tt).
Proof. reflexivity. Qed.

(** The effect of a command: none, or a step of the machine at its key. *)
Definition effect (c : txn_cmd) (b b' : Batch) : Prop :=
  b' = b \/
  exists key t, cmd_key c = Some key /\ rstep c (record (b_store b) key) t /\
    b' = b_with_store b (Batch_Put (b_store b) key (MarshalTxnRecord t)).

Lemma effect_none c b : effect c b b.
Proof. by left. Qed.

Lemma effect_step c b key t :
  cmd_key c = Some key -> rstep c (record (b_store b) key) t ->
  effect c b (b_with_store b (Batch_Put (b_store b) key (MarshalTxnRecord t))).
Proof. intros H1 H2. right. eauto. Qed.

Ltac load_at key b :=
  let E := fresh "Hload" in
  destruct (load_cases key b) as [E|E]; unfold ebind at 1; rewrite E.

Lemma create_effect thr txn b : effect (CCreate thr txn) b (txn_do (CCreate thr txn) b).1.
Proof.
  cbn [txn_do]. unfold createTxnRecord. destruct txn as [t|]; [|by left].
  destruct (negb (IsEmpty thr) && _) eqn:Eg; [by left|].
  assert (IsEmpty thr = true \/ Less thr (MinTimestamp (tMeta t)) = true) as Hg.
  { destruct (IsEmpty thr); [by left|]. cbn in Eg. unfold LessEq in Eg. apply negb_false_iff in Eg. by right. }
  load_at (txnRecordKey (tMeta t)) b; [|by left].
  destruct (record (b_store b) (txnRecordKey (tMeta t))) as [e|] eqn:E.
  - destruct (tStatus e) eqn:Es; try (by left); rewrite put_record; apply effect_step; try done;
      rewrite E; apply step_create; try done; intros e' [= <-]; by rewrite Es.
  - rewrite put_record. apply effect_step; [done|]. rewrite E. by apply step_create.
Qed.

Lemma end_effect txn req b : effect (CEnd txn req) b (txn_do (CEnd txn req) b).1.
Proof.
  cbn [txn_do]. unfold evalEndTxn. destruct txn as [t|]; [|by left]. destruct (etAll req); [by left|].
  unfold ebind at 1. load_at (txnRecordKey (tMeta t)) b; [|by left].
  set (finish := if etCommit req && _ then _ else _).
  assert (forall old, record (b_store b) (txnRecordKey (tMeta t)) = old ->
    (forall e, old = Some e -> is_final (tStatus e) = false /\ Epoch (tMeta e) <= Epoch (tMeta t)) ->
    effect (CEnd (Some t) req) b (match finish b with
      | (b', Ok _) => eret tt b' | (b', Err e) => (b', Err e) end).1) as Hfin.
  { intros old Hold Hf. subst finish. destruct (etCommit req) eqn:Ec; cbn [andb].
    - destruct (Equal _ _) eqn:Eq; cbn [negb]; [|by left]. unfold ebind. rewrite put_record. cbn [eret fst].
      apply effect_step; [done|]. rewrite Hold. apply step_end; [exact Hf|]. intros _. by apply Equal_eq.
    - unfold ebind. rewrite put_record. cbn [eret fst]. apply effect_step; [done|]. rewrite Hold. apply step_end; [exact Hf|]. congruence. }
  destruct (record (b_store b) (txnRecordKey (tMeta t))) as [e|] eqn:E; [|apply (Hfin None eq_refl); intros ? H; discriminate H].
  destruct (tStatus e) eqn:Es; try (by left).
  1, 3: destruct (Epoch (tMeta t) <? Epoch (tMeta e)) eqn:Ee; [by left|]; apply Z.ltb_ge in Ee;
    apply (Hfin (Some e) eq_refl); intros e' [= <-]; by rewrite Es.
  clear finish Hfin. destruct (etCommit req && _); by left.
Qed.

Lemma heartbeat_effect txn req b : effect (CHeartbeat txn req) b (txn_do (CHeartbeat txn req) b).1.
Proof.
  cbn [txn_do]. unfold evalHeartbeatTxn. destruct txn as [t|]; [|by left].
  unfold ebind at 1. load_at (txnRecordKey (tMeta t)) b; [|by left].
  destruct (record (b_store b) (txnRecordKey (tMeta t))) as [e|] eqn:E; [|by left].
  case_bool_decide as Es; [|by left]. unfold ebind. rewrite put_record. cbn [eret fst].
  apply effect_step; [done|]. rewrite E, Es. by apply step_heartbeat.
Qed.

Lemma push_effect req b : effect (CPush req) b (txn_do (CPush req) b).1.
Proof.
  cbn [txn_do]. unfold evalPushTxn. unfold ebind at 1.
  load_at (TransactionKey (Key (ptPusheeTxn req)) (ID (ptPusheeTxn req))) b; [|by left].
  destruct (record _ _) as [e|] eqn:E.
  - destruct (tStatus e) eqn:Es; try (by left). unfold push_abort.
    destruct (expired _ _) eqn:Ex; [|destruct (ptForceAbort req) eqn:Ef; [|destruct (ptPushAbort req) eqn:Ep;
      cbn [andb]; [destruct (_ <? _) eqn:El|]]]; try (by left);
      unfold ebind; rewrite put_record; cbn [eret fst]; (apply effect_step; [done|]); rewrite E;
      apply step_push; auto. right; right. split; [done|]. by apply Z.ltb_lt.
  - destruct (expired _ _) eqn:Ex; [|by left]. unfold ebind. rewrite put_record. cbn [eret fst].
    apply effect_step; [done|]. rewrite E. by apply step_poison.
Qed.

Lemma recover_effect req b : effect (CRecover req) b (txn_do (CRecover req) b).1.
Proof.
  cbn [txn_do]. unfold evalRecoverTxn. unfold ebind at 1.
  load_at (TransactionKey (hKey (rtHeader req)) (rtTxnID req)) b; [|by left].
  destruct (record _ _) as [e|] eqn:E; [|by left].
  case_bool_decide as Es; cbn [negb]; [|by left]. unfold ebind. rewrite put_record. cbn [eret fst].
  apply effect_step; [done|]. rewrite E. by apply step_recover.
Qed.

Lemma txn_do_effect c b b' r : txn_do c b = (b', r) -> effect c b b'.
Proof.
  intros H. replace b' with ((txn_do c b).1) by by rewrite H.
  destruct c; auto using create_effect, end_effect, heartbeat_effect, push_effect, recover_effect.
Qed.

Lemma rstep_not_final c e t : rstep c (Some e) t -> is_final (tStatus e) = false.
Proof. inversion 1 as [? ? ? H1|? ? ? H1| | | |]; subst; try (by destruct (tStatus e)); naive_solver. Qed.

(** *** Finality *)

Lemma final_step c b b' r key t :
  txn_do c b = (b', r) -> record (b_store b) key = Some t -> is_final (tStatus t) = true ->
  record (b_store b') key = Some t.
Proof.
  intros H Hr Hf. destruct (txn_do_effect _ _ _ _ H) as [->|(k & t' & _ & Hs & ->)]; [done|].
  destruct (decide (k = key)) as [->|Hn]; [|by cbn; rewrite record_put_ne].
  rewrite Hr in Hs. apply rstep_not_final in Hs. congruence.
Qed.

Lemma final_stays cs b b' key t :
  applies cs b b' -> record (b_store b) key = Some t -> is_final (tStatus t) = true ->
  record (b_store b') key = Some t.
Proof. induction 1 as [|c cs b b1 r b2 H _ IH]; [done|]. intros Hr Hf. apply IH; [|done]. by eapply final_step. Qed.

(** *** Every record that decodes is well typed *)

Lemma UUIDFromProto_length b id : UUIDFromProto b = Some id -> length id = 16%nat.
Proof.
  unfold UUIDFromProto. destruct (length b =? 0)%nat; [by intros [= <-]|].
  destruct (length b =? 16)%nat eqn:E; [|done]. intros [= <-]. by apply Nat.eqb_eq in E.
Qed.

Lemma txnFromProto_ok p t : txnFromProto p = Some t -> txn_ok t.
Proof.
  unfold txnFromProto. destruct (TxnMetaFromProto (pbtMeta p)) as [m|] eqn:Em; [|done].
  destruct (UUIDFromProto (pbtWaitingFor p)) as [w|] eqn:E2; [|done].
  destruct (status_of_int _); [|done]. intros [= <-]. split; cbn; [|by eapply UUIDFromProto_length].
  unfold TxnMetaFromProto in Em. destruct (pbtMeta p) as [q|]; [|by simplify_eq].
  destruct (UUIDFromProto (pbId q)) as [id|] eqn:E1; [|done]. injection Em as <-. by eapply UUIDFromProto_length.
Qed.

Lemma record_ok s key t : record s key = Some t -> txn_ok t.
Proof.
  unfold record, UnmarshalTxnRecord. destruct (Batch_Get s key) as [[|c raw]|]; try done.
  destruct (c =? json_open); [by eapply txn_json_typed|].
  destruct (txn_proto_unmarshal _); [|done]. by apply txnFromProto_ok.
Qed.

Lemma end_record_ok txn req : txn_ok txn -> txn_ok (end_record txn req).
Proof. unfold end_record, txn_ok. destruct (etCommit req); [destruct (etInFlight req)|]; done. Qed.

Lemma rstep_ok c s key t : cmd_ok c -> rstep c (record s key) t -> txn_ok t.
Proof.
  intros Hc. destruct (record s key) as [e|] eqn:E; [apply record_ok in E|];
    inversion 1; subst; cbn in Hc; try (by apply end_record_ok); unfold txn_ok in *; cbn; naive_solver.
Qed.

(** *** The invariant of records *)

(** A commit passed the gate; the write set in flight is on the record
    exactly while it stages. *)
Definition record_inv (t : Transaction) : Prop :=
  (tStatus t = COMMITTED \/ tStatus t = STAGING -> tReadTimestamp t = WriteTimestamp (tMeta t)) /\
  (tStatus t = COMMITTED -> tInFlightKeys t = []) /\
  (tStatus t = STAGING -> tInFlightKeys t <> []).

Lemma rstep_inv c old t :
  (forall e, old = Some e -> record_inv e) -> rstep c old t -> record_inv t.
Proof.
  intros Hold. inversion 1 as [| txn req ? _ Hg| | |req e Hs|req e Hs]; subst; try (by split_and!; naive_solver).
  - unfold end_record. destruct (etCommit req); [|split_and!; cbn; naive_solver].
    destruct (etInFlight req) eqn:Ei; split_and!; cbn; naive_solver.
  - destruct (Hold e eq_refl) as (H1 & _ & _). specialize (H1 (or_intror Hs)).
    destruct (rtCommit req); split_and!; cbn; naive_solver.
Qed.

Lemma applies_inv cs b b' key :
  applies cs b b' -> Forall cmd_ok cs ->
  (forall t, record (b_store b) key = Some t -> record_inv t) ->
  forall t, record (b_store b') key = Some t -> record_inv t.
Proof.
  induction 1 as [|c cs b b1 r b2 H _ IH]; [done|]. inversion 1 as [|? ? Hc Hcs]; subst. intros Hi. apply IH; [done|].
  intros t. destruct (txn_do_effect _ _ _ _ H) as [->|(k & t' & _ & Hs & ->)]; [by auto|]. cbn [b_store b_with_store].
  destruct (decide (k = key)) as [->|Hn]; [|rewrite record_put_ne by done; auto].
  rewrite record_put by by eapply rstep_ok. intros [= <-]. eapply rstep_inv, Hs. done.
Qed.

(** *** What a decided record answers *)

Lemma push_of_record pr b t :
  record (b_store b) (TransactionKey (Key (ptPusheeTxn pr)) (ID (ptPusheeTxn pr))) = Some t ->
  tStatus t <> PENDING ->
  evalPushTxn pr b = (b, Ok (mkPushResp (tStatus t)
    (if bool_decide (tStatus t = ABORTED) then ts0 else WriteTimestamp (tMeta t))
    (if bool_decide (tStatus t = STAGING) then tInFlightKeys t else []))).
Proof. intros H Hp. unfold evalPushTxn, ebind. rewrite (load_record _ _ _ H). by destruct (tStatus t). Qed.

Lemma recover_of_record rr b t :
  record (b_store b) (TransactionKey (hKey (rtHeader rr)) (rtTxnID rr)) = Some t -> is_final (tStatus t) = true ->
  evalRecoverTxn rr b = (b, Ok (tStatus t)).
Proof. intros H Hf. unfold evalRecoverTxn, ebind. rewrite (load_record _ _ _ H). by destruct (tStatus t). Qed.

Lemma end_of_committed txn req b t :
  record (b_store b) (txnRecordKey (tMeta txn)) = Some t -> tStatus t = COMMITTED -> etAll req = false ->
  evalEndTxn (Some txn) req b =
    (b, if etCommit req && (Epoch (tMeta t) =? Epoch (tMeta txn)) then Ok (WriteTimestamp (tMeta t)) else Err ErrTxnCommitted).
Proof.
  intros H Hs Ha. unfold evalEndTxn, ebind. rewrite Ha, (load_record _ _ _ H), Hs. by destruct (etCommit req && _).
Qed.

Lemma end_of_aborted txn req b t :
  record (b_store b) (txnRecordKey (tMeta txn)) = Some t -> tStatus t = ABORTED -> etAll req = false ->
  evalEndTxn (Some txn) req b = (b, Err ErrTxnAborted).
Proof. intros H Hs Ha. unfold evalEndTxn, ebind. by rewrite Ha, (load_record _ _ _ H), Hs. Qed.

Lemma create_of_aborted thr txn b t :
  record (b_store b) (txnRecordKey (tMeta txn)) = Some t -> tStatus t = ABORTED ->
  createTxnRecord thr (Some txn) b = (b, Err ErrTxnAborted).
Proof.
  intros H Hs. unfold createTxnRecord, ebind. destruct (_ && _); [done|]. by rewrite (load_record _ _ _ H), Hs.
Qed.

(** The record of a successful commit. *)
Lemma end_commit_record txn req ts b b1 :
  txn_ok txn -> etCommit req = true -> etInFlight req = [] -> evalEndTxn (Some txn) req b = (b1, Ok ts) ->
  etAll req = false /\ exists t, record (b_store b1) (txnRecordKey (tMeta txn)) = Some t /\ tStatus t = COMMITTED /\
    WriteTimestamp (tMeta t) = ts /\ Epoch (tMeta t) = Epoch (tMeta txn).
Proof.
  intros Ht Hc Hi. unfold evalEndTxn. destruct (etAll req); [done|]. intros H. split; [done|]. revert H.
  load_at (txnRecordKey (tMeta txn)) b; [|done]. rewrite Hc. cbn [andb].
  assert (forall b', (if negb (Equal (tReadTimestamp txn) (WriteTimestamp (tMeta txn)))
      then efail (ErrTxnRetry (WriteTimestamp (tMeta txn)))
      else let! _ := putTxnRecord (txnRecordKey (tMeta txn)) (end_record txn req)
           in eret (WriteTimestamp (tMeta (end_record txn req)))) b = (b', Ok ts) ->
    exists t, record (b_store b') (txnRecordKey (tMeta txn)) = Some t /\ tStatus t = COMMITTED /\
      WriteTimestamp (tMeta t) = ts /\ Epoch (tMeta t) = Epoch (tMeta txn)) as Hfin.
  { intros b'. destruct (negb _); [done|]. unfold ebind. rewrite put_record. cbn [eret]. intros [= <- <-].
    exists (end_record txn req). cbn [b_store b_with_store]. rewrite record_put by by apply end_record_ok.
    unfold end_record. by rewrite Hc, Hi. }
  destruct (record (b_store b) (txnRecordKey (tMeta txn))) as [e|] eqn:E; [|by apply Hfin].
  destruct (tStatus e) eqn:Es; try done.
  1, 3: destruct (Epoch (tMeta txn) <? _); [done|]; by apply Hfin.
  destruct (_ =? _) eqn:Ee; [|done]. intros [= <- <-]. apply Z.eqb_eq in Ee. eauto 10.
Qed.

(** The record behind a push that answered ABORTED. *)
Lemma push_abort_record pr b b1 resp :
  length (ID (ptPusheeTxn pr)) = 16%nat -> evalPushTxn pr b = (b1, Ok resp) -> prStatus resp = ABORTED ->
  exists t, record (b_store b1) (txnRecordKey (ptPusheeTxn pr)) = Some t /\ tStatus t = ABORTED.
Proof.
  intros Hl. unfold evalPushTxn. change (TransactionKey _ _) with (txnRecordKey (ptPusheeTxn pr)).
  load_at (txnRecordKey (ptPusheeTxn pr)) b; [|done].
  destruct (record _ _) as [e|] eqn:E.
  - pose proof (record_ok _ _ _ E) as He. destruct (tStatus e) eqn:Es.
    + assert (forall r, push_abort (txnRecordKey (ptPusheeTxn pr)) e b = (b1, Ok r) ->
        exists t, record (b_store b1) (txnRecordKey (ptPusheeTxn pr)) = Some t /\ tStatus t = ABORTED) as Hw.
      { intros r [= <- _]. exists (with_status e ABORTED). split; [by apply record_put|done]. }
      destruct (expired _ _); [|destruct (ptForceAbort pr); [|destruct (_ && _)]]; intros H; eauto.
      by injection H as <- <-.
    + by intros [= <- <-].
    + intros [= <- <-] _. eauto.
    + by intros [= <- <-].
  - destruct (expired _ _); [|by intros [= <- <-]]. unfold ebind. rewrite put_record. intros [= <- <-] _.
    eexists. split; [by apply record_put|done].
Qed.

(** ** Properties *)

(** C3: A commit is final.  Once [EndTxn(commit)] has answered with a commit
    timestamp and nothing in flight, then whatever commands on transaction
    records the range applies next (record creations, commits, aborts,
    heartbeats, pushes, recoveries, of this or any other transaction), every
    push and every recovery of the transaction is told COMMITTED, pushes
    with exactly that timestamp; the commit can be retried and answers the
    same timestamp; and an abort is refused. *)
Theorem commit_is_final txn req ts b b1 cs b2 :
  txn_ok txn -> etCommit req = true -> etInFlight req = [] ->
  evalEndTxn (Some txn) req b = (b1, Ok ts) -> applies cs b1 b2 ->
  (forall pr, txnRecordKey (ptPusheeTxn pr) = txnRecordKey (tMeta txn) ->
     evalPushTxn pr b2 = (b2, Ok (mkPushResp COMMITTED ts []))) /\
  (forall rr, TransactionKey (hKey (rtHeader rr)) (rtTxnID rr) = txnRecordKey (tMeta txn) ->
     evalRecoverTxn rr b2 = (b2, Ok COMMITTED)) /\
  evalEndTxn (Some txn) req b2 = (b2, Ok ts) /\
  (forall req', etCommit req' = false -> etAll req' = false ->
     evalEndTxn (Some txn) req' b2 = (b2, Err ErrTxnCommitted)).
Proof.
  intros Ht Hc Hi He Hcs. destruct (end_commit_record _ _ _ _ _ Ht Hc Hi He) as (Ha & t & Hr & Hs & <- & Hep).
  apply (final_stays _ _ _ _ _ Hcs) in Hr; [|by rewrite Hs]. split_and!.
  - intros pr Hk. unfold txnRecordKey at 1 in Hk. rewrite (push_of_record pr b2 t); rewrite ?Hk, ?Hs; done.
  - intros rr Hk. rewrite (recover_of_record rr b2 t); rewrite ?Hk, ?Hs; done.
  - rewrite (end_of_committed _ _ _ t) by done. by rewrite Hc, Hep, Z.eqb_refl.
  - intros req' Hc' Ha'. rewrite (end_of_committed _ _ _ t) by done. by rewrite Hc'.
Qed.

(** C20: An abort by a pusher is final.  Once a push has answered ABORTED
    (the pushee had expired, lost on priority, was a deadlock victim or had
    already aborted), then after any further commands its coordinator can
    neither create the record anew nor commit or stage: both fail with the
    aborted error and change nothing, and every other push and recovery is
    told ABORTED too. *)
Theorem pushed_abort_is_final pr b b1 resp cs b2 txn :
  length (ID (ptPusheeTxn pr)) = 16%nat ->
  evalPushTxn pr b = (b1, Ok resp) -> prStatus resp = ABORTED -> applies cs b1 b2 ->
  txnRecordKey (tMeta txn) = txnRecordKey (ptPusheeTxn pr) ->
  (forall thr, createTxnRecord thr (Some txn) b2 = (b2, Err ErrTxnAborted)) /\
  (forall req, etAll req = false -> evalEndTxn (Some txn) req b2 = (b2, Err ErrTxnAborted)) /\
  (forall pr', txnRecordKey (ptPusheeTxn pr') = txnRecordKey (ptPusheeTxn pr) ->
     evalPushTxn pr' b2 = (b2, Ok (mkPushResp ABORTED ts0 []))) /\
  (forall rr, TransactionKey (hKey (rtHeader rr)) (rtTxnID rr) = txnRecordKey (ptPusheeTxn pr) ->
     evalRecoverTxn rr b2 = (b2, Ok ABORTED)).
Proof.
  intros Hl Hp Hst Hcs Hk. destruct (push_abort_record _ _ _ _ Hl Hp Hst) as (t & Hr & Hs).
  apply (final_stays _ _ _ _ _ Hcs) in Hr; [|by rewrite Hs]. split_and!.
  - intros thr. eapply create_of_aborted; [rewrite Hk|]; done.
  - intros req Ha. eapply end_of_aborted; [rewrite Hk| |]; done.
  - intros pr' Hk'. unfold txnRecordKey at 1 in Hk'. rewrite (push_of_record pr' b2 t); rewrite ?Hk', ?Hs; done.
  - intros rr Hk'. rewrite (recover_of_record rr b2 t); rewrite ?Hk', ?Hs; done.
Qed.

(** C19: The commit gate is an invariant of the store.  From a store whose
    record at a key satisfies it, and along any commands, a COMMITTED or
    STAGING record always has its read timestamp equal to its write
    timestamp (so no transaction commits above the timestamp its reads were
    validated at, whether it commits directly, by staging or by recovery),
    a COMMITTED record lists no write in flight and a STAGING record lists
    at least one. *)
Theorem commit_gate_invariant cs b b' key :
  applies cs b b' -> Forall cmd_ok cs ->
  (forall t, record (b_store b) key = Some t -> record_inv t) ->
  forall t, record (b_store b') key = Some t -> record_inv t.
Proof. apply applies_inv. Qed.

(** Commands that may touch a staged record: anything on another record,
    pushes, heartbeats, and recoveries that found every write. *)
Definition staged_cmd (key : bytes) (c : txn_cmd) : Prop :=
  cmd_key c <> Some key \/
  match c with CPush _ | CHeartbeat _ _ => True | CRecover req => rtCommit req = true | _ => False end.

Lemma staged_step key c old t :
  cmd_key c = Some key -> staged_cmd key c -> tStatus old = STAGING -> rstep c (Some old) t ->
  t = with_in_flight (with_status old COMMITTED) [].
Proof.
  intros Hk Hc Hs Hst. destruct Hc as [Hc|Hc]; [done|].
  inversion Hst as [| |? ? ? Hp| |? ? Hp|? ? Hp]; subst; try done; try congruence. by rewrite Hc.
Qed.

(** C21: A staged commit survives every push.  Once a record is STAGING, any
    sequence of pushes (expired, forced or prioritised), heartbeats,
    recoveries that commit and commands on other records leaves it STAGING
    as it was or committed at its staged timestamp: an implicitly
    committed transaction is not aborted by a conflicting one. *)
Theorem staged_commit_survives_pushes cs b b' key t :
  applies cs b b' -> Forall (staged_cmd key) cs ->
  record (b_store b) key = Some t -> tStatus t = STAGING ->
  record (b_store b') key = Some t \/
  record (b_store b') key = Some (with_in_flight (with_status t COMMITTED) []).
Proof.
  induction 1 as [|c cs b b1 r b2 H Ha IH]; [by left|]. inversion 1 as [|? ? Hc Hcs]; subst. intros Hr Hs.
  destruct (txn_do_effect _ _ _ _ H) as [->|(k & t' & Hk & Hst & ->)]; [by apply IH|]. cbn in IH.
  destruct (decide (k = key)) as [->|Hn]; [|apply IH; [done| |done]; by rewrite record_put_ne].
  rewrite Hr in Hst. apply (staged_step key) in Hst as ->; try done. right.
  apply (final_stays _ _ _ _ _ Ha); [|done]. cbn [b_store b_with_store]. apply record_put. by eapply record_ok in Hr.
Qed.
End Spec.

(** ** Witnesses *)

#[export] Instance TxnStatus_tokens : Tokens TxnStatus.
Proof.
  refine (via status_to_int (fun z => match status_of_int z with Some s => s | None => PENDING end) _). by intros [].
Defined.
#[export] Instance Transaction_tokens : Tokens Transaction.
Proof.
  refine (via
    (fun t => (tMeta t, tName t, tStatus t, tReadTimestamp t, tLastHeartbeat t, tIntentKeys t, tWaitingFor t, tWaitingForKey t, tInFlightKeys t))
    (fun '(a, b, c, d, e, f, g, h, i) => mkTxn a b c d e f g h i) _). by intros [].
Defined.
#[export] Instance PbTransaction_tokens : Tokens PbTransaction.
Proof.
  refine (via
    (fun t => (pbtMeta t, pbtName t, pbtStatus t, pbtReadTimestamp t, pbtLastHeartbeat t, pbtIntentKeys t, pbtWaitingFor t, pbtWaitingForKey t, pbtInFlightKeys t))
    (fun '(a, b, c, d, e, f, g, h, i) => mkPbTxn a b c d e f g h i) _). by intros [].
Defined.

#[export] Instance token_txn_codec : TxnCodec := {|
  txn_json_marshal := code_with json_open;
  txn_json_unmarshal raw :=
    match uncode raw with Some t => if bool_decide (txn_ok t) then Some t else None | None => None end;
  txn_proto_marshal := code_with 10;
  txn_proto_unmarshal := uncode;
|}.

#[export] Instance token_txn_codec_laws : TxnCodecLaws token_txn_codec.
Proof.
  split.
  - intros t Ht. cbn [txn_json_unmarshal txn_json_marshal token_txn_codec]. rewrite uncode_code. by rewrite bool_decide_true.
  - intros raw t. cbn [txn_json_unmarshal token_txn_codec]. destruct (uncode raw) as [t'|]; [|done].
    case_bool_decide; [by intros [= <-]|done].
  - intros p. apply uncode_code.
  - intros t. by exists (to_tok t).
  - intros p _. by exists (to_tok p).
Qed.

(** A transaction of the witnesses, at read and write timestamp [w]. *)
Definition ex_transaction (n w : Z) : Transaction :=
  NewTransaction (repeat n 16) [] 1 (mkTs w 0).
Definition ex_store : Batch := mkBatch (P := map_pebble) (∅ : gmap (list Z) (list Z)) None false.
Definition ex_push (t : Transaction) (now : Z) : PushTxnRequest := mkPush (mkHeader [] []) None (tMeta t) true (mkTs now 0) false false.
Definition ex_commit (inFlight : list bytes) : EndTxnRequest := mkEndTxn (mkHeader [] []) true [[4; 1]] inFlight false.

(** The batch after commands, by evaluation. *)
Fixpoint txn_run (cs : list txn_cmd) (b : Batch (P := map_pebble)) : Batch :=
  match cs with [] => b | c :: cs => txn_run cs (txn_do c b).1 end.

Lemma txn_run_applies cs b : applies cs b (txn_run cs b).
Proof.
  revert b. induction cs as [|c cs IH]; intros b; [constructor|].
  destruct (txn_do c b) as [b1 r] eqn:E. cbn [txn_run]. rewrite E. econstructor; [done|apply IH].
Qed.

Definition ex_t : Transaction := ex_transaction 7 100.
Definition ex_traffic : list txn_cmd :=
  [CPush (ex_push ex_t 9000000000000); CEnd (Some ex_t) (mkEndTxn (mkHeader [] []) false [] [] false);
   CCreate ts0 (Some (ex_transaction 8 50)); CRecover (mkRecover (mkHeader [] []) (repeat 7 16) false)].

Lemma commit_is_final_witness :
  let b1 := txn_run [CCreate ts0 (Some ex_t); CEnd (Some ex_t) (ex_commit [])] ex_store in
  evalPushTxn (ex_push ex_t 1) (txn_run ex_traffic b1) =
    (txn_run ex_traffic b1, Ok (mkPushResp COMMITTED (mkTs 100 0) [])).
Proof.
  intros b1.
  assert (evalEndTxn (Some ex_t) (ex_commit []) (txn_run [CCreate ts0 (Some ex_t)] ex_store) = (b1, Ok (mkTs 100 0))) as He
    by (vm_compute; reflexivity).
  destruct (commit_is_final ex_t (ex_commit []) (mkTs 100 0) (txn_run [CCreate ts0 (Some ex_t)] ex_store) b1 ex_traffic (txn_run ex_traffic b1)) as (Hp & _).
  - split; reflexivity.
  - reflexivity.
  - reflexivity.
  - exact He.
  - apply txn_run_applies.
  - apply Hp. reflexivity.
Defined.

Lemma pushed_abort_is_final_witness :
  let b1 := txn_run [CCreate ts0 (Some ex_t); CPush (ex_push ex_t 9000000000000)] ex_store in
  evalEndTxn (Some ex_t) (ex_commit []) (txn_run ex_traffic b1) = (txn_run ex_traffic b1, Err ErrTxnAborted).
Proof.
  intros b1.
  assert (evalPushTxn (ex_push ex_t 9000000000000) (txn_run [CCreate ts0 (Some ex_t)] ex_store) =
            (b1, Ok (mkPushResp ABORTED ts0 []))) as He by (vm_compute; reflexivity).
  destruct (pushed_abort_is_final (ex_push ex_t 9000000000000) (txn_run [CCreate ts0 (Some ex_t)] ex_store) b1
    (mkPushResp ABORTED ts0 []) ex_traffic (txn_run ex_traffic b1) ex_t) as (_ & Hp & _).
  - reflexivity.
  - exact He.
  - reflexivity.
  - apply txn_run_applies.
  - reflexivity.
  - apply Hp. reflexivity.
Defined.

(** The staged record of the next witnesses. *)
Definition ex_staged : Transaction := end_record ex_t (ex_commit [[4; 2]]).

Lemma commit_gate_invariant_witness :
  let b := txn_run [CCreate ts0 (Some ex_t); CEnd (Some ex_t) (ex_commit [[4; 2]])] ex_store in
  record (b_store b) (txnRecordKey (tMeta ex_t)) = Some ex_staged /\ record_inv ex_staged.
Proof.
  intros b. assert (record (b_store b) (txnRecordKey (tMeta ex_t)) = Some ex_staged) as Hr by (vm_compute; reflexivity).
  split; [exact Hr|].
  apply (commit_gate_invariant [CCreate ts0 (Some ex_t); CEnd (Some ex_t) (ex_commit [[4; 2]])] ex_store b
           (txnRecordKey (tMeta ex_t))).
  - apply txn_run_applies.
  - repeat constructor.
  - intros t Ht. vm_compute in Ht. discriminate.
  - exact Hr.
Defined.

Lemma staged_commit_survives_pushes_witness :
  let b := txn_run [CCreate ts0 (Some ex_t); CEnd (Some ex_t) (ex_commit [[4; 2]])] ex_store in
  let cs := [CPush (ex_push ex_t 9000000000000); CPush (mkPush (mkHeader [] []) None (tMeta ex_t) true (mkTs 1 0) false true);
             CRecover (mkRecover (mkHeader [] []) (repeat 7 16) true)] in
  record (b_store (txn_run cs b)) (txnRecordKey (tMeta ex_t)) = Some ex_staged \/
  record (b_store (txn_run cs b)) (txnRecordKey (tMeta ex_t)) = Some (with_in_flight (with_status ex_staged COMMITTED) []).
Proof.
  intros b cs. apply (staged_commit_survives_pushes cs b).
  - apply txn_run_applies.
  - repeat constructor; by right.
  - vm_compute. reflexivity.
  - reflexivity.
Defined.

