(* ===== verification/KvpbWire.v ===== *)
(** * The wire encoding of batches (pkg/kvpb/proto.go)

    Converters between the API types and their protobuf mirrors, used for
    the Batch RPC and for the raft command payload.  The mirrors have one
    constructor per message of the union, with the message's fields; a
    bytes field is a byte string (protobuf does not tell an absent one from
    an empty one), a message field is optional.  Marshalling itself is
    library code ([WireCodec]). *)

From S2P Require Import Prelude Encoding Hlc Keys MvccKey Pebble Enginepb Mvcc MvccScan MvccWrite Kvpb TxnRecord TxnRecordSpec.

Open Scope Z_scope.

(** ** Mirrors *)

Record PbHeader := mkPbHeader { pbhKey : bytes; pbhEndKey : bytes }.
Record PbReplica := mkPbReplica { pbNodeId : Z; pbStoreId : Z; pbReplicaId : Z }.
Record PbRange := mkPbRange {
  pbRangeId : Z; pbStartKey : bytes; pbEndKey : bytes; pbReplicas : list PbReplica; pbNextReplicaId : Z; pbGeneration : Z }.
Record PbGcVersion := mkPbGcVersion { pbgKey : bytes; pbgTs : option PbHlc; pbgBytes : Z }.

Inductive PbRequest :=
| PbGet (h : option PbHeader) (forUpdate : bool)
| PbPut (h : option PbHeader) (value : bytes)
| PbDelete (h : option PbHeader)
| PbIncrement (h : option PbHeader) (by_ : Z)
| PbScan (h : option PbHeader) (maxRows : Z) (forUpdate reverse : bool)
| PbExport (h : option PbHeader) (startTs : option PbHlc) (maxRecords : Z)
| PbEndTxn (h : option PbHeader) (commit all : bool) (intentKeys inFlight : list bytes)
| PbHeartbeatTxn (h : option PbHeader) (now : option PbHlc) (waitingFor waitingForKey : bytes)
| PbPushTxn (h : option PbHeader) (pusher : option PbTransaction) (pushee : option PbTxnMeta) (pushAbort : bool)
    (now : option PbHlc) (queryOnly forceAbort : bool)
| PbResolveIntent (h : option PbHeader) (txnId : bytes) (status : Z) (commitTs : option PbHlc)
| PbRollbackIntent (h : option PbHeader) (txnId : bytes) (sequence : Z)
| PbRecoverTxn (h : option PbHeader) (txnId : bytes) (commit : bool)
| PbRefresh (h : option PbHeader) (fromTs : option PbHlc)
| PbGc (h : option PbHeader) (threshold : option PbHlc) (versions : list PbGcVersion) (txnRecordKeys : list bytes)
| PbTruncateLog (h : option PbHeader) (index term : Z)
| PbAdminSplit (h : option PbHeader)
| PbAdminChangeReplicas (h : option PbHeader) (addNode removeNode : Z)
| PbAdminTransferLease (h : option PbHeader) (target : Z)
| PbAdminMerge (h : option PbHeader)
| PbSubsume (h : option PbHeader) (mergeInto : Z)
| PbUnfreeze (h : option PbHeader)
| PbUpdateMeta (h : option PbHeader) (desc : bytes) (ifRangeId ifGeneration : Z).

(** [rpcpb.RequestUnion]: its oneof, [None] when no case is set. *)
Abbreviation PbRequestUnion := (option PbRequest) (only parsing).

Record PbBatchHeader := mkPbBatchHeader {
  pbbTimestamp : option PbHlc; pbbTxn : option PbTransaction; pbbRangeId : Z; pbbCreateTxnRecord : bool;
  pbbReadInconsistent : bool; pbbStaleRead : bool }.
Record PbBatchRequest := mkPbBatchRequest { pbbHeader : option PbBatchHeader; pbbRequests : list PbRequestUnion }.

Record PbKeyValue := mkPbKeyValue { pbkKey : bytes; pbkValue : bytes }.
Record PbExportRecord := mkPbExportRecord { pbeKey : bytes; pbeValue : bytes; pbeDeleted : bool }.

Inductive PbResponse :=
| PbOGet (value : bytes) (found : bool) | PbOPut | PbODelete | PbOIncrement (newValue : Z)
| PbOScan (rows : list PbKeyValue) (resume : bytes) | PbOExport (records : list PbExportRecord) (resume : bytes)
| PbOEndTxn (commitTs : option PbHlc) (onePhase : bool) | PbOHeartbeatTxn (status : Z)
| PbOPushTxn (status : Z) (commitTs : option PbHlc) (waitingFor waitingForKey : bytes) (priority : Z) (inFlight : list bytes)
| PbOResolveIntent | PbORollbackIntent | PbORecoverTxn (status : Z) | PbORefresh | PbOGc | PbOTruncateLog
| PbOAdminSplit (left right : option PbRange) | PbOAdminChangeReplicas (desc : option PbRange)
| PbOAdminTransferLease (desc : option PbRange) | PbOAdminMerge (desc : option PbRange) | PbOSubsume | PbOUnfreeze
| PbOUpdateMeta (applied : bool).

Record PbBatchResponse := mkPbBatchResponse {
  pbrTxn : option PbTransaction; pbrTimestamp : option PbHlc; pbrResponses : list (option PbResponse) }.

Record PbError := mkPbError {
  pbMessage : bytes;
  pbNotLeader : option (Z * Z);
  pbRangeNotFound : option Z;
  pbRangeKeyMismatch : option (bytes * list PbRange);
  pbWriteIntent : option (list (bytes * option PbTxnMeta));
  pbWriteTooOld : option (option PbHlc * option PbHlc);
  pbUncertainty : option (option PbHlc * option PbHlc);
  pbTxnAborted : bool;
  pbTxnRetry : option (option PbHlc);
  pbTxnNotFound : bool;
  pbAmbiguous : bool;
  pbStorageOverloaded : bool }.

Record PbEnvelope := mkPbEnvelope { pbvResponse : option PbBatchResponse; pbvError : option PbError }.

(** The marshallers, and the JSON of descriptors that [UpdateMeta] carries. *)
Class WireCodec := {
  desc_marshal : RangeDescriptor -> bytes;
  desc_unmarshal : bytes -> option RangeDescriptor;
  request_marshal : PbBatchRequest -> bytes;
  request_unmarshal : bytes -> option PbBatchRequest;
  envelope_marshal : PbEnvelope -> bytes;
  envelope_unmarshal : bytes -> option PbEnvelope;
}.

Class WireCodecLaws (W : WireCodec) : Prop := {
  desc_roundtrip d : desc_unmarshal (desc_marshal d) = Some d;
  desc_nonempty d : desc_marshal d <> [];
  request_roundtrip p : request_unmarshal (request_marshal p) = Some p;
  envelope_roundtrip p : envelope_unmarshal (envelope_marshal p) = Some p;
}.

(** ** Converters *)

Definition tsToProto (t : Timestamp) : option PbHlc := TimestampToProto t.
Definition tsFromProto (p : option PbHlc) : Timestamp := TimestampFromProto p.
Definition uuidToProto (id : uuid) : bytes := UUIDToProto id.
Definition uuidFromProto (b : bytes) : option uuid := UUIDFromProto b.
Definition keysToProto (ks : list bytes) : list bytes := ks.
Definition keysFromProto (bs : list bytes) : list bytes := bs.

(** A nil [*Transaction] stays nil. *)
Definition txnPtrToProto (t : option Transaction) : option PbTransaction := txnToProto <$> t.
Definition txnPtrFromProto (p : option PbTransaction) : option (option Transaction) :=
  match p with None => Some None | Some p => Some <$> txnFromProto p end.

Definition ReplicaToProto (r : ReplicaDescriptor) : PbReplica := mkPbReplica (rdNodeID r) (rdStoreID r) (rdReplicaID r).
(** Node, store and replica ids are int32, carried as int64. *)
Definition ReplicaFromProto (p : PbReplica) : ReplicaDescriptor :=
  mkReplica (i32 (pbNodeId p)) (i32 (pbStoreId p)) (i32 (pbReplicaId p)).

Definition RangeDescriptorToProto (d : RangeDescriptor) : PbRange :=
  mkPbRange (RangeID d) (StartKey d) (EndKey d) (map ReplicaToProto (Replicas d)) (NextReplicaID d) (Generation d).
Definition RangeDescriptorFromProto (p : option PbRange) : RangeDescriptor :=
  match p with
  | None => rangeDescriptor0
  | Some p => mkRange (pbRangeId p) (pbStartKey p) (pbEndKey p) (map ReplicaFromProto (pbReplicas p))
                (i32 (pbNextReplicaId p)) (pbGeneration p)
  end.

Definition reqHeaderToProto (h : RequestHeader) : option PbHeader := Some (mkPbHeader (hKey h) (hEndKey h)).
Definition reqHeaderFromProto (p : option PbHeader) : RequestHeader :=
  match p with None => mkHeader [] [] | Some p => mkHeader (pbhKey p) (pbhEndKey p) end.

Definition GCVersionToProto (v : GCVersion) : PbGcVersion := mkPbGcVersion (gvKey v) (tsToProto (gvTS v)) (gvBytes v).
Definition GCVersionFromProto (p : PbGcVersion) : GCVersion := mkGCVersion (pbgKey p) (tsFromProto (pbgTs p)) (pbgBytes p).

Section Converters.
Context {W : WireCodec}.

(** [None]: "unencodable request type". *)
Definition requestUnionToProto (u : RequestUnion) : option PbRequestUnion :=
  match GetInner u with
  | Some (RGet r) => Some (Some (PbGet (reqHeaderToProto (gtHeader r)) (gtForUpdate r)))
  | Some (RPut r) => Some (Some (PbPut (reqHeaderToProto (puHeader r)) (puValue r)))
  | Some (RDelete r) => Some (Some (PbDelete (reqHeaderToProto (deHeader r))))
  | Some (RIncrement r) => Some (Some (PbIncrement (reqHeaderToProto (icHeader r)) (icBy r)))
  | Some (RScan r) => Some (Some (PbScan (reqHeaderToProto (scHeader r)) (scMaxRows r) (scForUpdate r) (scReverse r)))
  | Some (RExport r) => Some (Some (PbExport (reqHeaderToProto (exHeader r)) (tsToProto (exStartTS r)) (exMaxRecords r)))
  | Some (REndTxn r) =>
      Some (Some (PbEndTxn (reqHeaderToProto (etHeader r)) (etCommit r) (etAll r) (etIntentKeys r) (etInFlight r)))
  | Some (RHeartbeatTxn r) =>
      Some (Some (PbHeartbeatTxn (reqHeaderToProto (hbHeader r)) (tsToProto (hbNow r)) (uuidToProto (hbWaitingFor r))
                    (hbWaitingForKey r)))
  | Some (RPushTxn r) =>
      Some (Some (PbPushTxn (reqHeaderToProto (ptHeader r)) (txnPtrToProto (ptPusherTxn r))
                    (Some (TxnMetaToProto (ptPusheeTxn r))) (ptPushAbort r) (tsToProto (ptNow r)) (ptQueryOnly r) (ptForceAbort r)))
  | Some (RResolveIntent r) =>
      Some (Some (PbResolveIntent (reqHeaderToProto (riHeader r)) (uuidToProto (riTxnID r)) (status_to_int (riStatus r))
                    (tsToProto (riCommitTS r))))
  | Some (RRollbackIntent r) =>
      Some (Some (PbRollbackIntent (reqHeaderToProto (rbHeader r)) (uuidToProto (rbTxnID r)) (rbSequence r)))
  | Some (RRecoverTxn r) =>
      Some (Some (PbRecoverTxn (reqHeaderToProto (rtHeader r)) (uuidToProto (rtTxnID r)) (rtCommit r)))
  | Some (RRefresh r) => Some (Some (PbRefresh (reqHeaderToProto (rfHeader r)) (tsToProto (rfFromTS r))))
  | Some (RGC r) =>
      Some (Some (PbGc (reqHeaderToProto (gcHeader r)) (tsToProto (gcThreshold r)) (map GCVersionToProto (gcVersions r))
                    (gcTxnRecordKeys r)))
  | Some (RTruncateLog r) => Some (Some (PbTruncateLog (reqHeaderToProto (tlHeader r)) (tlIndex r) (tlTerm r)))
  | Some (RAdminSplit r) => Some (Some (PbAdminSplit (reqHeaderToProto (asHeader r))))
  | Some (RAdminChangeReplicas r) =>
      Some (Some (PbAdminChangeReplicas (reqHeaderToProto (acHeader r)) (acAddNode r) (acRemoveNode r)))
  | Some (RAdminTransferLease r) => Some (Some (PbAdminTransferLease (reqHeaderToProto (atHeader r)) (atTarget r)))
  | Some (RAdminMerge r) => Some (Some (PbAdminMerge (reqHeaderToProto (amHeader r))))
  | Some (RSubsume r) => Some (Some (PbSubsume (reqHeaderToProto (suHeader r)) (suMergeInto r)))
  | Some (RUnfreeze r) => Some (Some (PbUnfreeze (reqHeaderToProto (ufHeader r))))
  | Some (RUpdateMeta r) =>
      Some (Some (PbUpdateMeta (reqHeaderToProto (umHeader r))
                    (match umDesc r with Some d => desc_marshal d | None => [] end) (umIfRangeID r) (umIfGeneration r)))
  | None => None
  end.

Definition requestFromProto (p : PbRequest) : option Request :=
  match p with
  | PbGet h fu => Some (RGet (mkGet (reqHeaderFromProto h) fu))
  | PbPut h v => Some (RPut (mkPut (reqHeaderFromProto h) v))
  | PbDelete h => Some (RDelete (mkDelete (reqHeaderFromProto h)))
  | PbIncrement h n => Some (RIncrement (mkIncrement (reqHeaderFromProto h) n))
  | PbScan h n fu rev => Some (RScan (mkScanReq (reqHeaderFromProto h) n fu rev))
  | PbExport h ts n => Some (RExport (mkExportReq (reqHeaderFromProto h) (tsFromProto ts) n))
  | PbEndTxn h c a ks fl => Some (REndTxn (mkEndTxn (reqHeaderFromProto h) c ks fl a))
  | PbHeartbeatTxn h now w k =>
      match uuidFromProto w with
      | Some id => Some (RHeartbeatTxn (mkHeartbeat (reqHeaderFromProto h) (tsFromProto now) id k))
      | None => None
      end
  | PbPushTxn h pusher pushee pa now q fa =>
      match txnPtrFromProto pusher, TxnMetaFromProto pushee with
      | Some t, Some m => Some (RPushTxn (mkPush (reqHeaderFromProto h) t m pa (tsFromProto now) q fa))
      | _, _ => None
      end
  | PbResolveIntent h id st ts =>
      match uuidFromProto id, status_of_int st with
      | Some id, Some st => Some (RResolveIntent (mkResolve (reqHeaderFromProto h) id st (tsFromProto ts)))
      | _, _ => None
      end
  | PbRollbackIntent h id seq =>
      match uuidFromProto id with
      | Some id => Some (RRollbackIntent (mkRollback (reqHeaderFromProto h) id seq))
      | None => None
      end
  | PbRecoverTxn h id c =>
      match uuidFromProto id with
      | Some id => Some (RRecoverTxn (mkRecover (reqHeaderFromProto h) id c))
      | None => None
      end
  | PbRefresh h ts => Some (RRefresh (mkRefresh (reqHeaderFromProto h) (tsFromProto ts)))
  | PbGc h thr vs ks => Some (RGC (mkGC (reqHeaderFromProto h) (tsFromProto thr) (map GCVersionFromProto vs) ks))
  | PbTruncateLog h i t => Some (RTruncateLog (mkTruncate (reqHeaderFromProto h) i t))
  | PbAdminSplit h => Some (RAdminSplit (mkAdminSplit (reqHeaderFromProto h)))
  | PbAdminChangeReplicas h a r => Some (RAdminChangeReplicas (mkAdminChange (reqHeaderFromProto h) (i32 a) (i32 r)))
  | PbAdminTransferLease h t => Some (RAdminTransferLease (mkAdminTransfer (reqHeaderFromProto h) (i32 t)))
  | PbAdminMerge h => Some (RAdminMerge (mkAdminMerge (reqHeaderFromProto h)))
  | PbSubsume h m => Some (RSubsume (mkSubsume (reqHeaderFromProto h) m))
  | PbUnfreeze h => Some (RUnfreeze (mkUnfreeze (reqHeaderFromProto h)))
  | PbUpdateMeta h d i g =>
      match d with
      | [] => Some (RUpdateMeta (mkUpdateMeta (reqHeaderFromProto h) None i g))
      | _ => match desc_unmarshal d with
             | Some d => Some (RUpdateMeta (mkUpdateMeta (reqHeaderFromProto h) (Some d) i g))
             | None => None
             end
      end
  end.

Definition requestUnionFromProto (p : PbRequestUnion) : option RequestUnion :=
  match p with None => None | Some p => union_of <$> requestFromProto p end.

(** [None] is the panic on an unencodable request. *)
Definition BatchRequestToProto (b : BatchRequest) : option PbBatchRequest :=
  let h := baHeader b in
  match mapM requestUnionToProto (baRequests b) with
  | None => None
  | Some us =>
      Some (mkPbBatchRequest
        (Some (mkPbBatchHeader (tsToProto (bhTimestamp h)) (txnPtrToProto (bhTxn h)) (bhRangeID h) (bhCreateTxnRecord h)
                 (bhReadInconsistent h) (bhStaleRead h))) us)
  end.

Definition batchHeader0 : BatchHeader := mkBatchHeader ts0 None 0 false false false.

Definition BatchRequestFromProto (pb : PbBatchRequest) : option BatchRequest :=
  let header :=
    match pbbHeader pb with
    | None => Some batchHeader0
    | Some h =>
        match txnPtrFromProto (pbbTxn h) with
        | None => None
        | Some txn => Some (mkBatchHeader (tsFromProto (pbbTimestamp h)) txn (pbbRangeId h) (pbbCreateTxnRecord h)
                              (pbbReadInconsistent h) (pbbStaleRead h))
        end
    end in
  match header, mapM requestUnionFromProto (pbbRequests pb) with
  | Some h, Some us => Some (mkBatchRequest h us)
  | _, _ => None
  end.

Definition MarshalBatchRequest (b : BatchRequest) : option bytes := request_marshal <$> BatchRequestToProto b.
Definition UnmarshalBatchRequest (data : bytes) : option BatchRequest :=
  match request_unmarshal data with Some pb => BatchRequestFromProto pb | None => None end.
End Converters.

(** ** Responses and errors *)

Definition bytes_of (o : option bytes) : bytes := match o with Some b => b | None => [] end.

Definition responseUnionToProto (u : option Response) : option PbResponse :=
  match u with
  | Some (OGet v) => Some (PbOGet (bytes_of v) (bool_decide (is_Some v)))
  | Some OPut => Some PbOPut
  | Some ODelete => Some PbODelete
  | Some (OIncrement v) => Some (PbOIncrement v)
  | Some (OScan r) =>
      Some (PbOScan (map (fun kv => mkPbKeyValue (kvKey kv) (bytes_of (kvValue kv))) (srRows r)) (bytes_of (srResume r)))
  | Some (OExport r) =>
      Some (PbOExport (map (fun x => mkPbExportRecord (erKey x) (bytes_of (erValue x)) (erDeleted x)) (xrRecords r))
              (bytes_of (xrResume r)))
  | Some (OEndTxn ts one) => Some (PbOEndTxn (tsToProto ts) one)
  | Some (OHeartbeatTxn st) => Some (PbOHeartbeatTxn (status_to_int st))
  | Some (OPushTxn r) =>
      Some (PbOPushTxn (status_to_int (prStatus r)) (tsToProto (prCommitTS r)) (uuidToProto (prWaitingFor r))
              (prWaitingForKey r) (prPriority r) (keysToProto (prInFlightKeys r)))
  | Some OResolveIntent => Some PbOResolveIntent
  | Some ORollbackIntent => Some PbORollbackIntent
  | Some (ORecoverTxn st) => Some (PbORecoverTxn (status_to_int st))
  | Some ORefresh => Some PbORefresh
  | Some OGC => Some PbOGc
  | Some OTruncateLog => Some PbOTruncateLog
  | Some (OAdminSplit l r) => Some (PbOAdminSplit (Some (RangeDescriptorToProto l)) (Some (RangeDescriptorToProto r)))
  | Some (OAdminChangeReplicas d) => Some (PbOAdminChangeReplicas (Some (RangeDescriptorToProto d)))
  | Some (OAdminTransferLease d) => Some (PbOAdminTransferLease (Some (RangeDescriptorToProto d)))
  | Some (OAdminMerge d) => Some (PbOAdminMerge (Some (RangeDescriptorToProto d)))
  | Some OSubsume => Some PbOSubsume
  | Some OUnfreeze => Some PbOUnfreeze
  | Some (OUpdateMeta a) => Some (PbOUpdateMeta a)
  | None => None
  end.

Definition responseUnionFromProto (p : option PbResponse) : option Response :=
  match p with
  | Some (PbOGet v found) => Some (OGet (if found then Some v else None))
  | Some PbOPut => Some OPut
  | Some PbODelete => Some ODelete
  | Some (PbOIncrement v) => Some (OIncrement v)
  | Some (PbOScan rows resume) =>
      Some (OScan (mkScanResponse (map (fun kv => mkKV (pbkKey kv) (append_nil (pbkValue kv))) rows) (append_nil resume)))
  | Some (PbOExport recs resume) =>
      Some (OExport (mkExportResponse (map (fun x => mkExported (pbeKey x) (append_nil (pbeValue x)) (pbeDeleted x)) recs)
              (append_nil resume)))
  | Some (PbOEndTxn ts one) => Some (OEndTxn (tsFromProto ts) one)
  | Some (PbOHeartbeatTxn st) => OHeartbeatTxn <$> status_of_int st
  | Some (PbOPushTxn st ts w wk p ks) =>
      match uuidFromProto w, status_of_int st with
      | Some id, Some st => Some (OPushTxn (mkPushTxnResponse st (tsFromProto ts) id wk p (keysFromProto ks)))
      | _, _ => None
      end
  | Some PbOResolveIntent => Some OResolveIntent
  | Some PbORollbackIntent => Some ORollbackIntent
  | Some (PbORecoverTxn st) => ORecoverTxn <$> status_of_int st
  | Some PbORefresh => Some ORefresh
  | Some PbOGc => Some OGC
  | Some PbOTruncateLog => Some OTruncateLog
  | Some (PbOAdminSplit l r) => Some (OAdminSplit (RangeDescriptorFromProto l) (RangeDescriptorFromProto r))
  | Some (PbOAdminChangeReplicas d) => Some (OAdminChangeReplicas (RangeDescriptorFromProto d))
  | Some (PbOAdminTransferLease d) => Some (OAdminTransferLease (RangeDescriptorFromProto d))
  | Some (PbOAdminMerge d) => Some (OAdminMerge (RangeDescriptorFromProto d))
  | Some PbOSubsume => Some OSubsume
  | Some PbOUnfreeze => Some OUnfreeze
  | Some (PbOUpdateMeta a) => Some (OUpdateMeta a)
  | None => None
  end.

Definition BatchResponseToProto (b : option BatchResponse) : option PbBatchResponse :=
  match b with
  | None => None
  | Some b => Some (mkPbBatchResponse (txnPtrToProto (brTxn b)) (tsToProto (brTimestamp b))
                      (map (fun r => responseUnionToProto (Some r)) (brResponses b)))
  end.

(** The outer option is the conversion error, the inner one the pointer. *)
Definition BatchResponseFromProto (pb : option PbBatchResponse) : option (option BatchResponse) :=
  match pb with
  | None => Some None
  | Some pb =>
      match txnPtrFromProto (pbrTxn pb), mapM responseUnionFromProto (pbrResponses pb) with
      | Some txn, Some rs => Some (Some (mkBatchResponse txn (tsFromProto (pbrTimestamp pb)) rs))
      | _, _ => None
      end
  end.

Definition ErrorToProto (e : option Error) : option PbError :=
  match e with
  | None => None
  | Some e =>
      Some (mkPbError (Message e) (eNotLeader e) (eRangeNotFound e)
        ((fun '(k, ds) => (k, map RangeDescriptorToProto ds)) <$> eRangeKeyMismatch e)
        (map (fun i => (inKey i, Some (TxnMetaToProto (inTxn i)))) <$> eWriteIntent e)
        ((fun '(a, b) => (tsToProto a, tsToProto b)) <$> eWriteTooOld e)
        ((fun '(a, b) => (tsToProto a, tsToProto b)) <$> eUncertainty e)
        (eTxnAborted e) (tsToProto <$> eTxnRetry e) (eTxnNotFound e) (eAmbiguous e) (eStorageOverloaded e))
  end.

Definition IntentFromProto (p : bytes * option PbTxnMeta) : option Intent :=
  match TxnMetaFromProto p.2 with Some m => Some (mkIntent p.1 m) | None => None end.

Definition ErrorFromProto (pb : option PbError) : option (option Error) :=
  match pb with
  | None => Some None
  | Some pb =>
      let intents := match pbWriteIntent pb with None => Some None | Some is_ => Some <$> mapM IntentFromProto is_ end in
      match intents with
      | None => None
      | Some intents =>
          Some (Some (mkError (pbMessage pb) ((fun '(r, l) => (r, i32 l)) <$> pbNotLeader pb) (pbRangeNotFound pb)
            ((fun '(k, ds) => (k, map (fun d => RangeDescriptorFromProto (Some d)) ds)) <$> pbRangeKeyMismatch pb)
            intents
            ((fun '(a, b) => (tsFromProto a, tsFromProto b)) <$> pbWriteTooOld pb)
            ((fun '(a, b) => (tsFromProto a, tsFromProto b)) <$> pbUncertainty pb)
            (pbTxnAborted pb) (tsFromProto <$> pbTxnRetry pb) (pbTxnNotFound pb) (pbAmbiguous pb) (pbStorageOverloaded pb)))
      end
  end.

Definition MarshalBatchEnvelope {W : WireCodec} (br : option BatchResponse) (kerr : option Error) : bytes :=
  envelope_marshal (mkPbEnvelope (BatchResponseToProto br) (ErrorToProto kerr)).

Definition UnmarshalBatchEnvelope {W : WireCodec} (data : bytes) : option (option BatchResponse * option Error) :=
  match envelope_unmarshal data with
  | None => None
  | Some pb =>
      match BatchResponseFromProto (pbvResponse pb), ErrorFromProto (pbvError pb) with
      | Some br, Some e => Some (br, e)
      | _, _ => None
      end
  end.

(** ** Round trips *)

(** What Go's types guarantee of a request: 16-byte UUIDs, int32 ids. *)
Definition ptr_ok (t : option Transaction) : Prop := match t with Some t => txn_ok t | None => True end.
Definition meta_id_ok (m : TxnMeta) : Prop := length (ID m) = 16%nat.
Definition request_ok (r : Request) : Prop :=
  match r with
  | RHeartbeatTxn r => length (hbWaitingFor r) = 16%nat
  | RPushTxn r => ptr_ok (ptPusherTxn r) /\ meta_id_ok (ptPusheeTxn r)
  | RResolveIntent r => length (riTxnID r) = 16%nat
  | RRollbackIntent r => length (rbTxnID r) = 16%nat
  | RRecoverTxn r => length (rtTxnID r) = 16%nat
  | RAdminChangeReplicas r => in_i32 (acAddNode r) /\ in_i32 (acRemoveNode r)
  | RAdminTransferLease r => in_i32 (atTarget r)
  | _ => True
  end.

(** A batch whose unions were built by [Add]. *)
Definition batch_ok (b : BatchRequest) : Prop :=
  ptr_ok (bhTxn (baHeader b)) /\ Forall (fun u => exists r, u = union_of r /\ request_ok r) (baRequests b).

Definition replica_ok (r : ReplicaDescriptor) : Prop := in_i32 (rdNodeID r) /\ in_i32 (rdStoreID r) /\ in_i32 (rdReplicaID r).
Definition range_ok (d : RangeDescriptor) : Prop := Forall replica_ok (Replicas d) /\ in_i32 (NextReplicaID d).

(** Values the server produces: a slice that is nil or not empty. *)
Definition nilable_ok (o : option bytes) : Prop := o <> Some [].
Definition response_ok (r : Response) : Prop :=
  match r with
  | OScan r => Forall (fun kv => nilable_ok (kvValue kv)) (srRows r) /\ nilable_ok (srResume r)
  | OExport r => Forall (fun x => nilable_ok (erValue x)) (xrRecords r) /\ nilable_ok (xrResume r)
  | OPushTxn r => length (prWaitingFor r) = 16%nat
  | OAdminSplit l r => range_ok l /\ range_ok r
  | OAdminChangeReplicas d | OAdminTransferLease d | OAdminMerge d => range_ok d
  | _ => True
  end.
Definition br_ok (br : option BatchResponse) : Prop :=
  match br with Some b => ptr_ok (brTxn b) /\ Forall response_ok (brResponses b) | None => True end.
Definition error_ok (e : option Error) : Prop :=
  match e with
  | Some e =>
      match eNotLeader e with Some (_, l) => in_i32 l | None => True end /\
      match eRangeKeyMismatch e with Some (_, ds) => Forall range_ok ds | None => True end /\
      match eWriteIntent e with Some is_ => Forall (fun i => meta_id_ok (inTxn i)) is_ | None => True end
  | None => True
  end.

Lemma TxnMetaProto_roundtrip m : meta_id_ok m -> TxnMetaFromProto (Some (TxnMetaToProto m)) = Some m.
Proof.
  intros H. unfold TxnMetaFromProto, TxnMetaToProto. cbn. rewrite UUIDProto_roundtrip by done.
  rewrite !TimestampProto_roundtrip. by destruct m.
Qed.

Lemma txnPtr_roundtrip t : ptr_ok t -> txnPtrFromProto (txnPtrToProto t) = Some t.
Proof. destruct t as [t|]; [|done]. intros H. cbn. by rewrite txnProto_roundtrip. Qed.

Lemma status_roundtrip st : status_of_int (status_to_int st) = Some st.
Proof. by destruct st. Qed.

Lemma header_roundtrip h : reqHeaderFromProto (reqHeaderToProto h) = h.
Proof. by destruct h. Qed.

Lemma map_roundtrip {A B} (f : A -> B) (g : B -> A) l : Forall (fun a => g (f a) = a) l -> map g (map f l) = l.
Proof. induction 1 as [|a l E _ IH]; cbn; [done|]. by rewrite E, IH. Qed.

Lemma GCVersions_roundtrip vs : map GCVersionFromProto (map GCVersionToProto vs) = vs.
Proof.
  apply map_roundtrip, Forall_forall. intros [] _. unfold GCVersionFromProto, GCVersionToProto.
  cbn. unfold tsFromProto, tsToProto. by rewrite TimestampProto_roundtrip.
Qed.

Lemma i32_small v : in_i32 v -> i32 v = v.
Proof. unfold in_i32, i32. intros H. rewrite Z.mod_small; lia. Qed.

Lemma GetInner_union_of r : GetInner (union_of r) = Some r.
Proof. by destruct r. Qed.

Lemma mapM_some {A B} (f : A -> option B) (g : B -> option A) l :
  Forall (fun a => exists b, f a = Some b /\ g b = Some a) l -> exists m, mapM f l = Some m /\ mapM g m = Some l.
Proof.
  induction 1 as [|a l (b & Hf & Hg) _ (m & H1 & H2)]; [by exists []|]. exists (b :: m). cbn. by rewrite Hf, H1, Hg, H2.
Qed.

Section RoundTrip.
Context {W : WireCodec} {WL : WireCodecLaws W}.

Lemma request_union_roundtrip r :
  request_ok r -> exists p, requestUnionToProto (union_of r) = Some p /\ requestUnionFromProto p = Some (union_of r).
Proof.
  intros Hr. unfold requestUnionToProto. rewrite GetInner_union_of.
  destruct r as [[]|[]|[]|[]|[]|[]|[]|[]|[]|[]|[]|[]|[]|[]|[]|[]|[]|[]|[]|[]|[]|[]]; cbn in Hr; eexists; (split; [reflexivity|]);
    unfold requestUnionFromProto, requestFromProto, tsFromProto, tsToProto, uuidFromProto, uuidToProto; cbn -[union_of i32 UUIDFromProto UUIDToProto TxnMetaFromProto TxnMetaToProto txnPtrFromProto txnPtrToProto TimestampFromProto TimestampToProto status_of_int status_to_int reqHeaderFromProto reqHeaderToProto];
    rewrite ?header_roundtrip, ?TimestampProto_roundtrip, ?status_roundtrip; try reflexivity.
  - by rewrite UUIDProto_roundtrip.
  - destruct Hr as [H1 H2]. rewrite txnPtr_roundtrip by done.
    by rewrite TxnMetaProto_roundtrip.
  - by rewrite UUIDProto_roundtrip.
  - by rewrite UUIDProto_roundtrip.
  - by rewrite UUIDProto_roundtrip.
  - by rewrite GCVersions_roundtrip.
  - destruct Hr. by rewrite !i32_small.
  - by rewrite !i32_small.
  - match goal with |- context [match ?o with Some d => desc_marshal d | None => [] end] => destruct o as [d|] end; [|done]. pose proof (desc_nonempty d) as Hn. pose proof (desc_roundtrip d) as Hd.
    destruct (desc_marshal d); [done|]. by rewrite Hd.
Qed.

(** C33: A batch survives the wire: a batch built with [Add], with any
    header and any mix of the 22 request types, is encoded, and decoding
    the bytes gives back exactly that batch, every field of every request
    included. *)
Theorem batch_request_roundtrip b :
  batch_ok b -> exists data, MarshalBatchRequest b = Some data /\ UnmarshalBatchRequest data = Some b.
Proof.
  intros [Ht Hr]. destruct (mapM_some requestUnionToProto requestUnionFromProto (baRequests b)) as (us & H1 & H2).
  { eapply Forall_impl; [exact Hr|]. intros u (r & -> & H). by apply request_union_roundtrip. }
  unfold MarshalBatchRequest, BatchRequestToProto. rewrite H1. eexists. split; [reflexivity|].
  unfold UnmarshalBatchRequest. rewrite request_roundtrip. unfold BatchRequestFromProto. cbn [pbbHeader pbbRequests pbbTxn
    pbbTimestamp pbbRangeId pbbCreateTxnRecord pbbReadInconsistent pbbStaleRead].
  rewrite txnPtr_roundtrip by done. rewrite H2. unfold tsFromProto, tsToProto. rewrite TimestampProto_roundtrip.
  by destruct b as [[] ?].
Qed.

Lemma range_roundtrip d : range_ok d -> RangeDescriptorFromProto (Some (RangeDescriptorToProto d)) = d.
Proof.
  intros [Hr Hn]. unfold RangeDescriptorFromProto, RangeDescriptorToProto.
  cbn [pbRangeId pbStartKey pbEndKey pbReplicas pbNextReplicaId pbGeneration]. rewrite i32_small by done. rewrite map_roundtrip; [by destruct d|].
  eapply Forall_impl; [exact Hr|]. intros [n0 s0 r0] (H1 & H2 & H3). unfold ReplicaFromProto, ReplicaToProto.
  cbn [rdNodeID rdStoreID rdReplicaID pbNodeId pbStoreId pbReplicaId] in *. by rewrite !i32_small.
Qed.

Lemma append_nil_bytes_of o : nilable_ok o -> append_nil (bytes_of o) = o.
Proof. by destruct o as [[|]|]. Qed.

Lemma response_roundtrip r : response_ok r -> responseUnionFromProto (responseUnionToProto (Some r)) = Some r.
Proof.
  intros Hr. unfold responseUnionFromProto, responseUnionToProto, tsFromProto, tsToProto, uuidFromProto, uuidToProto.
  destruct r as [[v|]| | | |[rows res]|[recs res]| | |[st ts w wk pr fl]| | | | | | | | | | | | |]; cbn [response_ok] in Hr; try reflexivity.
  - destruct Hr as [H1 H2]. cbn [srRows srResume] in *. rewrite append_nil_bytes_of, map_roundtrip; [done| |done].
    eapply Forall_impl; [exact H1|]. intros [] H. cbn in *. by rewrite append_nil_bytes_of.
  - destruct Hr as [H1 H2]. cbn [xrRecords xrResume] in *. rewrite append_nil_bytes_of, map_roundtrip; [done| |done].
    eapply Forall_impl; [exact H1|]. intros [] H. cbn in *. by rewrite append_nil_bytes_of.
  - by rewrite TimestampProto_roundtrip.
  - by rewrite status_roundtrip.
  - cbn [prStatus prCommitTS prWaitingFor prWaitingForKey prPriority prInFlightKeys] in *.
    by rewrite UUIDProto_roundtrip, status_roundtrip, TimestampProto_roundtrip.
  - by rewrite status_roundtrip.
  - destruct Hr. by rewrite !range_roundtrip.
  - by rewrite range_roundtrip.
  - by rewrite range_roundtrip.
  - by rewrite range_roundtrip.
Qed.

Lemma responses_roundtrip rs :
  Forall response_ok rs -> mapM responseUnionFromProto (map (fun r => responseUnionToProto (Some r)) rs) = Some rs.
Proof. induction 1 as [|r rs Hr _ IH]; [done|]. cbn -[responseUnionFromProto responseUnionToProto]. by rewrite response_roundtrip, IH. Qed.

Lemma intents_roundtrip is_ :
  Forall (fun i => meta_id_ok (inTxn i)) is_ ->
  mapM IntentFromProto (map (fun i => (inKey i, Some (TxnMetaToProto (inTxn i)))) is_) = Some is_.
Proof.
  intros H. apply mapM_Some_2. induction H as [|i is_ Hi _ IH]; cbn [map]; constructor; [|done].
  unfold IntentFromProto. cbn [fst snd]. rewrite TxnMetaProto_roundtrip by done. by destruct i.
Qed.

Lemma error_roundtrip e : error_ok e -> ErrorFromProto (ErrorToProto e) = Some e.
Proof.
  destruct e as [e|]; [|done]. intros (H1 & H2 & H3). unfold ErrorFromProto, ErrorToProto, tsFromProto, tsToProto.
  cbn [pbMessage pbNotLeader pbRangeNotFound pbRangeKeyMismatch pbWriteIntent pbWriteTooOld pbUncertainty pbTxnAborted
    pbTxnRetry pbTxnNotFound pbAmbiguous pbStorageOverloaded].
  destruct e as [msg nl rnf rkm wi wto unc ab re nf am so].
  cbn [Message eNotLeader eRangeNotFound eRangeKeyMismatch eWriteIntent eWriteTooOld eUncertainty eTxnAborted eTxnRetry
    eTxnNotFound eAmbiguous eStorageOverloaded] in *.
  assert ((match map (fun i => (inKey i, Some (TxnMetaToProto (inTxn i)))) <$> wi with
           | None => Some None | Some is_ => Some <$> mapM IntentFromProto is_ end) = Some wi) as ->.
  { destruct wi as [is_|]; [|done]. cbn [fmap option_fmap option_map]. by rewrite intents_roundtrip. }
  do 2 f_equal. f_equal.
  - destruct nl as [[r l]|]; [|done]. cbn. by rewrite i32_small.
  - destruct rkm as [[k ds]|]; [|done]. cbn [fmap option_fmap option_map]. do 2 f_equal. apply map_roundtrip.
    eapply Forall_impl; [exact H2|]. intros d Hd. by apply range_roundtrip.
  - destruct wto as [[a b]|]; [|done]. cbn [fmap option_fmap option_map]. by rewrite !TimestampProto_roundtrip.
  - destruct unc as [[a b]|]; [|done]. cbn [fmap option_fmap option_map]. by rewrite !TimestampProto_roundtrip.
  - destruct re as [t|]; [|done]. cbn [fmap option_fmap option_map]. by rewrite TimestampProto_roundtrip.
Qed.

(** The outcome of a batch survives the wire: whatever response or
    error the server encodes, the client decodes exactly it; in
    particular a key that was not found is told apart from an empty
    value, the typed error details the client dispatches on are kept, and
    a nil response or error stays nil. *)
Theorem batch_envelope_roundtrip br kerr :
  br_ok br -> error_ok kerr -> UnmarshalBatchEnvelope (MarshalBatchEnvelope br kerr) = Some (br, kerr).
Proof.
  intros Hb He. unfold UnmarshalBatchEnvelope, MarshalBatchEnvelope. rewrite envelope_roundtrip. cbn [pbvResponse pbvError].
  rewrite error_roundtrip by done. destruct br as [[txn ts rs]|]; [|done]. destruct Hb as [H1 H2].
  unfold BatchResponseFromProto, BatchResponseToProto. cbn [pbrTxn pbrTimestamp pbrResponses brTxn brTimestamp brResponses] in *.
  rewrite txnPtr_roundtrip, responses_roundtrip by done. unfold tsFromProto, tsToProto. by rewrite TimestampProto_roundtrip.
Qed.
End RoundTrip.

(** ** A codec instance, and witnesses *)

#[export] Instance PbHeader_tokens : Tokens PbHeader.
Proof. refine (via (fun h => (pbhKey h, pbhEndKey h)) (fun '(a, b) => mkPbHeader a b) _). by intros []. Defined.
#[export] Instance PbGcVersion_tokens : Tokens PbGcVersion.
Proof. refine (via (fun v => (pbgKey v, pbgTs v, pbgBytes v)) (fun '(a, b, c) => mkPbGcVersion a b c) _). by intros []. Defined.
#[export] Instance PbReplica_tokens : Tokens PbReplica.
Proof. refine (via (fun r => (pbNodeId r, pbStoreId r, pbReplicaId r)) (fun '(a, b, c) => mkPbReplica a b c) _). by intros []. Defined.
#[export] Instance PbRange_tokens : Tokens PbRange.
Proof.
  refine (via (fun d => (pbRangeId d, pbStartKey d, pbEndKey d, pbReplicas d, pbNextReplicaId d, pbGeneration d))
            (fun '(a, b, c, d, e, f) => mkPbRange a b c d e f) _). by intros [].
Defined.
#[export] Instance Replica_tokens : Tokens ReplicaDescriptor.
Proof. refine (via (fun r => (rdNodeID r, rdStoreID r, rdReplicaID r)) (fun '(a, b, c) => mkReplica a b c) _). by intros []. Defined.
#[export] Instance Range_tokens : Tokens RangeDescriptor.
Proof.
  refine (via (fun d => (RangeID d, StartKey d, EndKey d, Replicas d, NextReplicaID d, Generation d))
            (fun '(a, b, c, d, e, f) => mkRange a b c d e f) _). by intros [].
Defined.

(** The fields of a message by kind: its tag, header, booleans, integers,
    byte strings, lists of byte strings, timestamps and nested messages. *)
Abbreviation req_fields := (Z * option PbHeader * list bool * list Z * list bytes * list (list bytes) *
  list (option PbHlc) * (option PbTransaction * option PbTxnMeta) * list PbGcVersion)%type (only parsing).

Definition req_to_fields (p : PbRequest) : req_fields :=
  let no := (None, None) in
  match p with
  | PbGet h a => (0, h, [a], [], [], [], [], no, [])
  | PbPut h v => (1, h, [], [], [v], [], [], no, [])
  | PbDelete h => (2, h, [], [], [], [], [], no, [])
  | PbIncrement h n => (3, h, [], [n], [], [], [], no, [])
  | PbScan h n a b => (4, h, [a; b], [n], [], [], [], no, [])
  | PbExport h t n => (5, h, [], [n], [], [], [t], no, [])
  | PbEndTxn h a b k l => (6, h, [a; b], [], [], [k; l], [], no, [])
  | PbHeartbeatTxn h t w k => (7, h, [], [], [w; k], [], [t], no, [])
  | PbPushTxn h p q a t b c => (8, h, [a; b; c], [], [], [], [t], (p, q), [])
  | PbResolveIntent h i n t => (9, h, [], [n], [i], [], [t], no, [])
  | PbRollbackIntent h i n => (10, h, [], [n], [i], [], [], no, [])
  | PbRecoverTxn h i a => (11, h, [a], [], [i], [], [], no, [])
  | PbRefresh h t => (12, h, [], [], [], [], [t], no, [])
  | PbGc h t vs ks => (13, h, [], [], [], [ks], [t], no, vs)
  | PbTruncateLog h m n => (14, h, [], [m; n], [], [], [], no, [])
  | PbAdminSplit h => (15, h, [], [], [], [], [], no, [])
  | PbAdminChangeReplicas h m n => (16, h, [], [m; n], [], [], [], no, [])
  | PbAdminTransferLease h n => (17, h, [], [n], [], [], [], no, [])
  | PbAdminMerge h => (18, h, [], [], [], [], [], no, [])
  | PbSubsume h n => (19, h, [], [n], [], [], [], no, [])
  | PbUnfreeze h => (20, h, [], [], [], [], [], no, [])
  | PbUpdateMeta h d m n => (21, h, [], [m; n], [d], [], [], no, [])
  end.

Definition req_of_fields (f : req_fields) : PbRequest :=
  match f with
  | (0, h, [a], _, _, _, _, _, _) => PbGet h a
  | (1, h, _, _, [v], _, _, _, _) => PbPut h v
  | (2, h, _, _, _, _, _, _, _) => PbDelete h
  | (3, h, _, [n], _, _, _, _, _) => PbIncrement h n
  | (4, h, [a; b], [n], _, _, _, _, _) => PbScan h n a b
  | (5, h, _, [n], _, _, [t], _, _) => PbExport h t n
  | (6, h, [a; b], _, _, [k; l], _, _, _) => PbEndTxn h a b k l
  | (7, h, _, _, [w; k], _, [t], _, _) => PbHeartbeatTxn h t w k
  | (8, h, [a; b; c], _, _, _, [t], (p, q), _) => PbPushTxn h p q a t b c
  | (9, h, _, [n], [i], _, [t], _, _) => PbResolveIntent h i n t
  | (10, h, _, [n], [i], _, _, _, _) => PbRollbackIntent h i n
  | (11, h, [a], _, [i], _, _, _, _) => PbRecoverTxn h i a
  | (12, h, _, _, _, _, [t], _, _) => PbRefresh h t
  | (13, h, _, _, _, [ks], [t], _, vs) => PbGc h t vs ks
  | (14, h, _, [m; n], _, _, _, _, _) => PbTruncateLog h m n
  | (15, h, _, _, _, _, _, _, _) => PbAdminSplit h
  | (16, h, _, [m; n], _, _, _, _, _) => PbAdminChangeReplicas h m n
  | (17, h, _, [n], _, _, _, _, _) => PbAdminTransferLease h n
  | (18, h, _, _, _, _, _, _, _) => PbAdminMerge h
  | (19, h, _, [n], _, _, _, _, _) => PbSubsume h n
  | (20, h, _, _, _, _, _, _, _) => PbUnfreeze h
  | (21, h, _, [m; n], [d], _, _, _, _) => PbUpdateMeta h d m n
  | (_, h, _, _, _, _, _, _, _) => PbDelete h
  end.

#[export] Instance PbRequest_tokens : Tokens PbRequest.
Proof. refine (via req_to_fields req_of_fields _). by intros []. Defined.
#[export] Instance PbBatchHeader_tokens : Tokens PbBatchHeader.
Proof.
  refine (via (fun h => (pbbTimestamp h, pbbTxn h, pbbRangeId h, pbbCreateTxnRecord h, pbbReadInconsistent h, pbbStaleRead h))
            (fun '(a, b, c, d, e, f) => mkPbBatchHeader a b c d e f) _). by intros [].
Defined.
#[export] Instance PbBatchRequest_tokens : Tokens PbBatchRequest.
Proof. refine (via (fun b => (pbbHeader b, pbbRequests b)) (fun '(a, b) => mkPbBatchRequest a b) _). by intros []. Defined.

#[export] Instance PbKeyValue_tokens : Tokens PbKeyValue.
Proof. refine (via (fun k => (pbkKey k, pbkValue k)) (fun '(a, b) => mkPbKeyValue a b) _). by intros []. Defined.
#[export] Instance PbExportRecord_tokens : Tokens PbExportRecord.
Proof. refine (via (fun r => (pbeKey r, pbeValue r, pbeDeleted r)) (fun '(a, b, c) => mkPbExportRecord a b c) _). by intros []. Defined.

Abbreviation resp_fields := (Z * list bool * list Z * list bytes * list bytes * list (option PbHlc) *
  list PbKeyValue * list PbExportRecord * list (option PbRange))%type (only parsing).

Definition resp_to_fields (p : PbResponse) : resp_fields :=
  match p with
  | PbOGet v a => (0, [a], [], [v], [], [], [], [], [])
  | PbOPut => (1, [], [], [], [], [], [], [], [])
  | PbODelete => (2, [], [], [], [], [], [], [], [])
  | PbOIncrement n => (3, [], [n], [], [], [], [], [], [])
  | PbOScan rows r => (4, [], [], [r], [], [], rows, [], [])
  | PbOExport recs r => (5, [], [], [r], [], [], [], recs, [])
  | PbOEndTxn t a => (6, [a], [], [], [], [t], [], [], [])
  | PbOHeartbeatTxn n => (7, [], [n], [], [], [], [], [], [])
  | PbOPushTxn n t w k m ks => (8, [], [n; m], [w; k], ks, [t], [], [], [])
  | PbOResolveIntent => (9, [], [], [], [], [], [], [], [])
  | PbORollbackIntent => (10, [], [], [], [], [], [], [], [])
  | PbORecoverTxn n => (11, [], [n], [], [], [], [], [], [])
  | PbORefresh => (12, [], [], [], [], [], [], [], [])
  | PbOGc => (13, [], [], [], [], [], [], [], [])
  | PbOTruncateLog => (14, [], [], [], [], [], [], [], [])
  | PbOAdminSplit l r => (15, [], [], [], [], [], [], [], [l; r])
  | PbOAdminChangeReplicas d => (16, [], [], [], [], [], [], [], [d])
  | PbOAdminTransferLease d => (17, [], [], [], [], [], [], [], [d])
  | PbOAdminMerge d => (18, [], [], [], [], [], [], [], [d])
  | PbOSubsume => (19, [], [], [], [], [], [], [], [])
  | PbOUnfreeze => (20, [], [], [], [], [], [], [], [])
  | PbOUpdateMeta a => (21, [a], [], [], [], [], [], [], [])
  end.

Definition resp_of_fields (f : resp_fields) : PbResponse :=
  match f with
  | (0, [a], _, [v], _, _, _, _, _) => PbOGet v a
  | (2, _, _, _, _, _, _, _, _) => PbODelete
  | (3, _, [n], _, _, _, _, _, _) => PbOIncrement n
  | (4, _, _, [r], _, _, rows, _, _) => PbOScan rows r
  | (5, _, _, [r], _, _, _, recs, _) => PbOExport recs r
  | (6, [a], _, _, _, [t], _, _, _) => PbOEndTxn t a
  | (7, _, [n], _, _, _, _, _, _) => PbOHeartbeatTxn n
  | (8, _, [n; m], [w; k], ks, [t], _, _, _) => PbOPushTxn n t w k m ks
  | (9, _, _, _, _, _, _, _, _) => PbOResolveIntent
  | (10, _, _, _, _, _, _, _, _) => PbORollbackIntent
  | (11, _, [n], _, _, _, _, _, _) => PbORecoverTxn n
  | (12, _, _, _, _, _, _, _, _) => PbORefresh
  | (13, _, _, _, _, _, _, _, _) => PbOGc
  | (14, _, _, _, _, _, _, _, _) => PbOTruncateLog
  | (15, _, _, _, _, _, _, _, [l; r]) => PbOAdminSplit l r
  | (16, _, _, _, _, _, _, _, [d]) => PbOAdminChangeReplicas d
  | (17, _, _, _, _, _, _, _, [d]) => PbOAdminTransferLease d
  | (18, _, _, _, _, _, _, _, [d]) => PbOAdminMerge d
  | (19, _, _, _, _, _, _, _, _) => PbOSubsume
  | (20, _, _, _, _, _, _, _, _) => PbOUnfreeze
  | (21, [a], _, _, _, _, _, _, _) => PbOUpdateMeta a
  | _ => PbOPut
  end.

#[export] Instance PbResponse_tokens : Tokens PbResponse.
Proof. refine (via resp_to_fields resp_of_fields _). by intros []. Defined.
#[export] Instance PbBatchResponse_tokens : Tokens PbBatchResponse.
Proof. refine (via (fun b => (pbrTxn b, pbrTimestamp b, pbrResponses b)) (fun '(a, b, c) => mkPbBatchResponse a b c) _). by intros []. Defined.
#[export] Instance PbError_tokens : Tokens PbError.
Proof.
  refine (via (fun e => (pbMessage e, pbNotLeader e, pbRangeNotFound e, pbRangeKeyMismatch e, pbWriteIntent e, pbWriteTooOld e,
                pbUncertainty e, pbTxnAborted e, pbTxnRetry e, pbTxnNotFound e, pbAmbiguous e, pbStorageOverloaded e))
            (fun '(a, b, c, d, e, f, g, h, i, j, k, l) => mkPbError a b c d e f g h i j k l) _). by intros [].
Defined.
#[export] Instance PbEnvelope_tokens : Tokens PbEnvelope.
Proof. refine (via (fun e => (pbvResponse e, pbvError e)) (fun '(a, b) => mkPbEnvelope a b) _). by intros []. Defined.

#[export] Instance token_wire_codec : WireCodec := {|
  desc_marshal := code_with json_open; desc_unmarshal := uncode;
  request_marshal := code_with 10; request_unmarshal := uncode;
  envelope_marshal := code_with 10; envelope_unmarshal := uncode;
|}.

#[export] Instance token_wire_codec_laws : WireCodecLaws token_wire_codec.
Proof. split; intros; try apply uncode_code. done. Qed.

Lemma batch_request_roundtrip_witness :
  exists data,
    MarshalBatchRequest (Add (Add (mkBatchRequest (mkBatchHeader (mkTs 5 1) (Some ex_t) 3 true false false) [])
      (RPut (mkPut (mkHeader [4; 1] []) [9]))) (RAdminTransferLease (mkAdminTransfer (mkHeader [4] []) 2))) = Some data /\
    UnmarshalBatchRequest data =
      Some (Add (Add (mkBatchRequest (mkBatchHeader (mkTs 5 1) (Some ex_t) 3 true false false) [])
        (RPut (mkPut (mkHeader [4; 1] []) [9]))) (RAdminTransferLease (mkAdminTransfer (mkHeader [4] []) 2))).
Proof.
  apply batch_request_roundtrip. split; [split; reflexivity|].
  constructor; [eexists; split; [reflexivity|exact I]|].
  constructor; [eexists; split; [reflexivity|cbn; unfold in_i32; lia]|constructor].
Defined.

Lemma batch_envelope_roundtrip_witness :
  UnmarshalBatchEnvelope (MarshalBatchEnvelope
    (Some (mkBatchResponse None (mkTs 5 1) [OGet (Some []); OGet None; OScan (mkScanResponse [mkKV [4] (Some [1])] None)])) None) =
  Some (Some (mkBatchResponse None (mkTs 5 1) [OGet (Some []); OGet None; OScan (mkScanResponse [mkKV [4] (Some [1])] None)]), None).
Proof.
  apply batch_envelope_roundtrip; [|exact I]. split; [exact I|]. repeat constructor; discriminate.
Defined.
