(* ===== verification/Gc.v ===== *)
(** * Garbage collection (pkg/kvserver/gc.go; the GC case of apply.go)

    The leader enumerates garbage from one snapshot: per user key, the
    newest version at or below the threshold survives (unless it is a
    tombstone) and every older one goes; keys with an intent are skipped.
    Finalized transaction records go too.  The deletions are proposed in
    chunks, and applying a chunk deletes exactly the keys it lists.

    The retention options are the arguments [expire] (every version at or
    below the threshold) and [rowExpired] (a predicate the SQL layer
    supplies).  [Execute], which replicates a chunk, is outside; [runGC] is
    the list of requests it is given.  The routed sender that resolves a
    record's write set is the argument [send]: whether a batch of resolutions
    was answered without an error. *)

From S2P Require Import Prelude Encoding Hlc Keys MvccKey Pebble Enginepb Mvcc MvccView MvccRead MvccWrite MvccState MvccTxn MvccScan.
From S2P Require Import MvccRange MvccRangeSpec Kvpb TxnRecord TxnRecordSpec.

Open Scope Z_scope.

Definition gcChunkSize : nat := 1000.

(** A reclaimable record; [gtrResolve] is the write set to resolve first. *)
Record gcTxnRecord := mkGcTxnRecord {
  gtrKey : bytes; gtrResolve : list bytes; gtrTxnID : uuid; gtrCommitTS : Timestamp }.

Section Enumerate.
Context {P : Pebble} {C : MetaCodec} {T : TxnCodec}.

(** The result of an enumeration: the versions, how many [rowExpired]
    added, and the transactions that hold an intent. *)
Abbreviation garbage := (list GCVersion * Z * gset (list Z))%type (only parsing).

Definition intentTxnID (raw : bytes) : option uuid :=
  match decodeMeta raw with Some meta => Some (ID (mTxn meta)) | None => None end.

Definition row_expired (rowExpired : option (bytes -> Timestamp -> bool)) (k : bytes) (t : Timestamp) : bool :=
  match rowExpired with Some p => p k t | None => false end.

(** The versions of one key, newest first. *)
Fixpoint gc_inner (fuel : nat) (it : pebbleIter) (cur_key : bytes) (threshold : Timestamp) (expire : bool)
    (rowExpired : option (bytes -> Timestamp -> bool)) (survivorSeen : bool) (out : list GCVersion) (n : Z)
    : result mvcc_err (pebbleIter * list GCVersion * Z) :=
  match fuel with
  | O => Err OutOfFuel
  | S fuel =>
      match cur it with
      | None => Ok (it, out, n)
      | Some (x, v) =>
          let* (k, cvts) := lift_key (DecodeMVCCKey x) in
          if negb (beqb cur_key k) then Ok (it, out, n)
          else
            let stored := Z.of_nat (length x + length v) in
            let item := mkGCVersion cur_key cvts stored in
            let next := gc_inner fuel (INext it) cur_key threshold expire rowExpired in
            if row_expired rowExpired cur_key cvts then next survivorSeen (out ++ [item]) (n + 1)
            else if LessEq cvts threshold then
              if survivorSeen || expire then next survivorSeen (out ++ [item]) n
              else
                let* tomb := lift_value (IsTombstoneValue v) in
                next true (if (tomb : bool) then out ++ [item] else out) n
            else next survivorSeen out n
      end
  end.

Fixpoint gc_outer (fuel : nat) (it : pebbleIter) (threshold : Timestamp) (expire : bool)
    (rowExpired : option (bytes -> Timestamp -> bool)) (out : list GCVersion) (n : Z) (live : gset (list Z))
    : result mvcc_err garbage :=
  match fuel with
  | O => Err OutOfFuel
  | S fuel =>
      match cur it with
      | None => Ok (out, n, live)
      | Some (x, v) =>
          let* (cur_key, vts) := lift_key (DecodeMVCCKey x) in
          if IsEmpty vts then
            let live := match intentTxnID v with Some id => {[ id ]} ∪ live | None => live end in
            gc_outer fuel (SeekGE it (EncodeMVCCKey (Key_Next cur_key) ts0)) threshold expire rowExpired out n live
          else
            let* (it, out, n) := gc_inner (S (length (it_view (pit it)))) it cur_key threshold expire rowExpired false out n in
            gc_outer fuel it threshold expire rowExpired out n live
      end
  end.

Definition enumerateGarbageVersions (prefixBloom : bool) (snap : store) (desc : RangeDescriptor) (threshold : Timestamp)
    (expire : bool) (rowExpired : option (bytes -> Timestamp -> bool)) : result mvcc_err garbage :=
  let lower := EncodeMVCCKey (StartKey desc) ts0 in
  let upper := EncodeMVCCKey (EndKey desc) ts0 in
  let it := NewIter prefixBloom snap lower upper in
  gc_outer (S (length (it_view (pit it)))) (SeekGE it lower) threshold expire rowExpired [] 0 ∅.

(** What the loop over the records does with one of them. *)
Definition gc_record (key raw : bytes) (threshold : Timestamp) (live : gset (list Z)) : result kv_err (option gcTxnRecord) :=
  if negb (IsTransactionKey key) then Ok None
  else
    match UnmarshalTxnRecord raw with
    | None => Err ErrCorruptRecord
    | Some txn =>
        if negb (is_final (tStatus txn)) then Ok None
        else if negb (LessEq (WriteTimestamp (tMeta txn)) threshold) || negb (LessEq (tLastHeartbeat txn) threshold) then Ok None
        else
          let tr resolve := mkGcTxnRecord key resolve (ID (tMeta txn)) (WriteTimestamp (tMeta txn)) in
          if bool_decide (tStatus txn = COMMITTED) && negb (bool_decide (tIntentKeys txn = []))
          then Ok (Some (tr (tIntentKeys txn)))
          else if bool_decide (ID (tMeta txn) ∈ live) then Ok None
          else Ok (Some (tr []))
    end.

Fixpoint gc_records_loop (fuel : nat) (it : pebbleIter) (threshold : Timestamp) (live : gset (list Z)) (out : list gcTxnRecord)
    : result kv_err (list gcTxnRecord) :=
  match fuel with
  | O => Err (ErrStorage OutOfFuel)
  | S fuel =>
      match cur it with
      | None => Ok out
      | Some (x, v) =>
          let* r := gc_record x v threshold live in
          gc_records_loop fuel (INext it) threshold live (match r with Some tr => out ++ [tr] | None => out end)
      end
  end.

Definition enumerateGarbageTxnRecords (prefixBloom : bool) (snap : store) (desc : RangeDescriptor) (threshold : Timestamp)
    (live : gset (list Z)) : result kv_err (list gcTxnRecord) :=
  let '(lo, hi) := RangeLocalAddressedSpan (StartKey desc) (EndKey desc) in
  let it := NewIter prefixBloom snap lo hi in
  gc_records_loop (S (length (it_view (pit it)))) (SeekGE it lo) threshold live [].

(** *** Resolving a record's write set *)

Definition resolveChunk : nat := 100.
Definition resolve_request (tr : gcTxnRecord) (k : bytes) : ResolveIntentRequest :=
  mkResolve (mkHeader k []) (gtrTxnID tr) COMMITTED (gtrCommitTS tr).
(** The batches, [resolveChunk] keys each; the fuel is the number of keys. *)
Fixpoint resolve_batches (fuel : nat) (tr : gcTxnRecord) (ks : list bytes) : list (list ResolveIntentRequest) :=
  match fuel with
  | O => []
  | S fuel =>
      match ks with
      | [] => []
      | _ => map (resolve_request tr) (take resolveChunk ks) :: resolve_batches fuel tr (drop resolveChunk ks)
      end
  end.
Definition resolveRecordIntents (send : option (list ResolveIntentRequest -> bool)) (tr : gcTxnRecord) : bool :=
  match send with
  | None => false
  | Some send => forallb send (resolve_batches (length (gtrResolve tr)) tr (gtrResolve tr))
  end.

(** *** runGC *)

Fixpoint gc_chunks (fuel size : nat) (versions : list GCVersion) (records : list bytes)
    : list (list GCVersion * list bytes) :=
  match fuel with
  | O => []
  | S fuel =>
      match versions, records with
      | [], [] => []
      | _, _ =>
          let chunkV := take size versions in
          let chunkR := take (size - length chunkV) records in
          (chunkV, chunkR) :: gc_chunks fuel size (drop size versions) (drop (size - length chunkV) records)
      end
  end.

Definition gc_request (desc : RangeDescriptor) (threshold : Timestamp) (chunk : list GCVersion * list bytes) : GCRequest :=
  mkGC (mkHeader (StartKey desc) (EndKey desc)) threshold chunk.1 chunk.2.

(** The requests of one pass, in order; [current] is the range's GC
    threshold. *)
Definition runGC (prefixBloom : bool) (size : nat) (current : Timestamp) (snap : store) (desc : RangeDescriptor)
    (threshold : Timestamp) (expire : bool) (rowExpired : option (bytes -> Timestamp -> bool))
    (send : option (list ResolveIntentRequest -> bool)) : result kv_err (list GCRequest) :=
  if LessEq threshold current then Ok []
  else
    let* (versions, _, live) :=
      rmap_err ErrStorage (enumerateGarbageVersions prefixBloom snap desc threshold expire rowExpired) in
    let* work := enumerateGarbageTxnRecords prefixBloom snap desc threshold live in
    let records := map gtrKey (filter (fun tr => gtrResolve tr = [] \/ resolveRecordIntents send tr = true) work) in
    Ok (map (gc_request desc threshold) (gc_chunks (length versions + length records) size versions records)).

(** *** Applying a chunk (the GC case of evalWriteBatch) *)

Definition delete_versions (s : store) (vs : list GCVersion) : store :=
  fold_left (fun s v => Batch_Delete s (EncodeMVCCKey (gvKey v) (gvTS v))) vs s.
Definition delete_records (s : store) (ks : list bytes) : store := fold_left Batch_Delete ks s.
Definition evalGC (b : Batch) (req : GCRequest) : Batch :=
  b_with_store b (delete_records (delete_versions (b_store b) (gcVersions req)) (gcTxnRecordKeys req)).
End Enumerate.

(** ** The garbage of a key *)

Definition gc_item (k : bytes) (v : version) : GCVersion :=
  mkGCVersion k v.1 (Z.of_nat (length (vkey k v.1) + length v.2)).

(** What the loop over the versions of a key adds. *)
Fixpoint ref_gc (k : bytes) (thr : Timestamp) (expire : bool) (rowExpired : option (bytes -> Timestamp -> bool)) (seen : bool)
    (vs : list version) : result mvcc_err (list GCVersion * Z) :=
  match vs with
  | [] => Ok ([], 0)
  | v :: vs =>
      if row_expired rowExpired k v.1 then
        let* (l, n) := ref_gc k thr expire rowExpired seen vs in Ok (gc_item k v :: l, n + 1)
      else if LessEq v.1 thr then
        if seen || expire then let* (l, n) := ref_gc k thr expire rowExpired seen vs in Ok (gc_item k v :: l, n)
        else
          let* tomb := lift_value (IsTombstoneValue v.2) in
          let* (l, n) := ref_gc k thr expire rowExpired true vs in
          Ok (if (tomb : bool) then gc_item k v :: l else l, n)
      else ref_gc k thr expire rowExpired seen vs
  end.

Definition tombstone (raw : bytes) : bool := match IsTombstoneValue raw with Ok b => b | Err _ => false end.

(** Without retention options: the versions that go and those that stay. *)
Definition dead (thr : Timestamp) (vs : list version) : list version :=
  match from_ts thr vs with [] => [] | v :: rest => if tombstone v.2 then v :: rest else rest end.
Fixpoint above (thr : Timestamp) (vs : list version) : list version :=
  match vs with [] => [] | v :: vs => if LessEq v.1 thr then [] else v :: above thr vs end.
Definition survivors (thr : Timestamp) (vs : list version) : list version :=
  above thr vs ++
  match from_ts thr vs with [] => [] | v :: _ => if tombstone v.2 then [] else [v] end.

Lemma ref_gc_seen k thr vs :
  Forall (fun v => v.1 <=t thr) vs -> ref_gc k thr false None true vs = Ok (map (gc_item k) vs, 0).
Proof.
  induction 1 as [|v vs Hv _ IH]; [done|]. cbn [ref_gc row_expired]. apply LessEq_le in Hv. rewrite Hv. cbn [orb].
  by rewrite IH.
Qed.

Lemma ref_gc_dead k thr vs l n :
  StronglySorted (fun a b : version => b.1 <t a.1) vs ->
  ref_gc k thr false None false vs = Ok (l, n) -> l = map (gc_item k) (dead thr vs) /\ n = 0.
Proof.
  intros Hs. revert l n. induction Hs as [|v vs Hs IH Hf]; intros l n; cbn [ref_gc row_expired]; [by intros [= <- <-]|].
  unfold dead. cbn [from_ts]. destruct (LessEq v.1 thr) eqn:E; [|apply IH]. cbn [orb].
  unfold tombstone. destruct (IsTombstoneValue v.2) as [tomb|]; [|done]. cbn [lift_value rmap_err rbind].
  rewrite ref_gc_seen; [|eapply Forall_impl; [exact Hf|]; cbn; intros; tsb; ts_lia]. cbn [rbind].
  intros [= <- <-]. by destruct tomb.
Qed.

Lemma from_ts_split thr vs : vs = above thr vs ++ from_ts thr vs /\ Forall (fun v => thr <t v.1) (above thr vs).
Proof.
  induction vs as [|v vs [IH Hf]]; [done|]. cbn [from_ts above]. destruct (LessEq v.1 thr) eqn:E; [done|]. tsb.
  cbn [app]. split; [by rewrite <- IH|by constructor].
Qed.

Lemma survivors_sublist thr vs : survivors thr vs `sublist_of` vs.
Proof.
  rewrite (proj1 (from_ts_split thr vs)) at 2. unfold survivors. apply sublist_app; [done|].
  destruct (from_ts thr vs) as [|v rest]; [done|]. destruct (tombstone v.2); [apply sublist_nil_l|].
  apply sublist_skip, sublist_nil_l.
Qed.

Lemma sublist_elem_of {A} (l1 l2 : list A) x : l1 `sublist_of` l2 -> x ∈ l1 -> x ∈ l2.
Proof. induction 1; set_solver. Qed.

Lemma StronglySorted_sublist {A} (R : A -> A -> Prop) l1 l2 : l1 `sublist_of` l2 -> StronglySorted R l2 -> StronglySorted R l1.
Proof.
  induction 1 as [|x l1 l2 H IH|x l1 l2 H IH]; [done|..]; inversion 1 as [|? ? Hs Hf]; subst; [|by apply IH].
  constructor; [by apply IH|]. rewrite Forall_forall in Hf |- *. intros y Hy. apply Hf. by eapply sublist_elem_of.
Qed.

Lemma survivors_sorted thr vs : versions_sorted vs -> versions_sorted (survivors thr vs).
Proof.
  intros [Hs Hv]. pose proof (survivors_sublist thr vs) as Hsub. split; [by eapply StronglySorted_sublist|].
  rewrite Forall_forall in Hv |- *. intros v Hin. apply Hv. by eapply sublist_elem_of.
Qed.

(** A version stays unless it is dead. *)
Lemma survivors_elem thr vs v :
  StronglySorted (fun a b : version => b.1 <t a.1) vs ->
  v ∈ survivors thr vs <-> v ∈ vs /\ v ∉ dead thr vs.
Proof.
  intros Hs. destruct (from_ts_split thr vs) as [Hsp Hhi']. pose proof (from_ts_le thr vs Hs) as Hle.
  assert (Hhi : forall u, u ∈ above thr vs -> u ∉ from_ts thr vs).
  { intros u Hu Hl. rewrite Forall_forall in Hle, Hhi'. specialize (Hle u Hl). specialize (Hhi' u Hu). cbn in *. ts_lia. }
  assert (Hlo : StronglySorted (fun a b : version => b.1 <t a.1) (from_ts thr vs)).
  { rewrite Hsp in Hs. by apply StronglySorted_app_1_r in Hs. }
  rewrite Hsp at 2. unfold survivors, dead. rewrite !elem_of_app.
  destruct (from_ts thr vs) as [|u rest]; [set_solver|].
  assert (u ∉ rest) as Hu.
  { inversion Hlo as [|? ? _ Hf]; subst. intros Hin. rewrite Forall_forall in Hf. specialize (Hf u Hin). cbn in Hf. ts_lia. }
  destruct (tombstone u.2); set_solver.
Qed.

(** *** Reads above the threshold *)

Lemma newest_above_all vs t : Forall (fun v : version => v.1 <=t t) vs -> newest vs t ts0 = head vs.
Proof. destruct 1 as [|v vs Hv _]; [done|]. cbn. apply LessEq_le in Hv. by rewrite Hv. Qed.

Lemma newest_app vs ws t : newest (vs ++ ws) t ts0 = match newest vs t ts0 with Some v => Some v | None => newest ws t ts0 end.
Proof. apply first_app. Qed.

Lemma tombstone_read raw : tombstone raw = true -> read_value raw = Ok None.
Proof.
  unfold tombstone, IsTombstoneValue, read_value. destruct (decodeMVCCValue raw) as [[d []]|]; cbn; try done.
Qed.

(** What a read at [t] finds among the survivors. *)
Lemma newest_survivors thr vs t :
  StronglySorted (fun a b : version => b.1 <t a.1) vs -> thr <t t ->
  newest (survivors thr vs) t ts0 = newest vs t ts0 \/
  exists v, newest vs t ts0 = Some v /\ v.1 <=t thr /\ tombstone v.2 = true /\ newest (survivors thr vs) t ts0 = None.
Proof.
  intros Hs Ht.
  assert (newest vs t ts0 = match newest (above thr vs) t ts0 with Some v => Some v | None => newest (from_ts thr vs) t ts0 end) as ->.
  { rewrite (proj1 (from_ts_split thr vs)) at 1. apply newest_app. }
  unfold survivors. rewrite !newest_app. destruct (newest (above thr vs) t ts0) as [v|] eqn:E; [by left|].
  pose proof (from_ts_le thr vs Hs) as Hle. destruct (from_ts thr vs) as [|v rest]; [by left|].
  rewrite (newest_above_all (v :: rest)) by (eapply Forall_impl; [exact Hle|]; cbn; intros; ts_lia).
  inversion Hle as [|? ? Hv _]; subst. cbn in Hv. destruct (tombstone v.2) eqn:Et.
  - right. by exists v.
  - left. rewrite newest_above_all; [done|]. constructor; [cbn; ts_lia|constructor].
Qed.

Lemma survivors_read k thr vs ts opts :
  StronglySorted (fun a b : version => b.1 <t a.1) vs -> thr <t ts ->
  ref_versions k (survivors thr vs) ts opts ts0 ts0 = ref_versions k vs ts opts ts0 ts0.
Proof.
  intros Hs Ht. unfold ref_versions. cbn [IsEmpty ts0 negb].
  assert (ref_uncertain (survivors thr vs) ts ts0 opts = ref_uncertain vs ts ts0 opts) as ->.
  { unfold ref_uncertain, has_uncertainty. destruct (negb _ && Less ts _) eqn:E; [|done].
    apply andb_true_iff in E as [_ E]. apply Less_lt in E.
    destruct (newest_survivors thr vs (UncertaintyLimit opts) Hs) as [->|(v & -> & Hv & _ & ->)]; [ts_lia|done|].
    destruct v as [t raw]. cbn in Hv. destruct (Less ts t) eqn:El; [tsb; ts_lia|done]. }
  assert (ref_newest (survivors thr vs) ts ts0 = ref_newest vs ts ts0) as ->; [|done].
  unfold ref_newest. destruct (newest_survivors thr vs ts Hs Ht) as [->|(v & -> & _ & Hv & ->)]; [done|].
  destruct v as [t raw]. by rewrite tombstone_read.
Qed.

(** ** The enumeration over a range *)

Section RangeGC.
Context {P : Pebble} {PL : PebbleLaws P} {C : MetaCodec} {CL : MetaCodecLaws C}.

Lemma gc_inner_at b thr expire re : forall fuel it pre r post a seen out n,
  around pre r post -> decodes post -> on_versions it pre r post a b -> (length b < fuel)%nat ->
  match ref_gc (row_key r) thr expire re seen b with
  | Ok (l, c) => exists it', gc_inner fuel it (row_key r) thr expire re seen out n = Ok (it', out ++ l, n + c) /\
                   plain_at it' (pre ++ row_view r) post
  | Err e => gc_inner fuel it (row_key r) thr expire re seen out n = Err e
  end.
Proof.
  induction b as [|v b IH]; intros fuel it pre r post a seen out n Har Hdec Hat Hf; pose proof Har as (Hr & _);
    (destruct fuel as [|fuel]; [lia|]); cbn [gc_inner ref_gc]; rewrite (on_versions_cur _ _ _ _ _ _ Hat).
  - exists it. rewrite app_nil_r, Z.add_0_r. split.
    + destruct (head post) as [[x w]|] eqn:Eh; [|done].
      destruct (post_head_other_key pre r post (x, w) Har Eh) as (k & t & Hd & Hne).
      { destruct post; [done|]. injection Eh as ->. by inversion Hdec. }
      cbn [fst] in Hd. rewrite Hd. cbn [lift_key rmap_err rbind]. apply beqb_neq in Hne.
      assert (beqb (row_key r) k = false) as -> by (apply beqb_neq; congruence). done.
    + destruct Hat as [Hv Hat]. rewrite app_nil_r in Hv. cbn [map app] in Hat. unfold row_view, key_view. fold (row_key r).
      rewrite Hv. by destruct r.1.2.
  - pose proof (on_versions_valid _ _ _ _ _ _ Hr Hat) as Hval. inversion Hval as [|? ? [Hv1 _]]; subst.
    cbn [ventry]. rewrite Decode_vkey by done. cbn [lift_key rmap_err rbind]. rewrite beqb_refl. cbn [negb].
    assert (Hnext : forall seen out n,
      match ref_gc (row_key r) thr expire re seen b with
      | Ok (l, c) => exists it', gc_inner fuel (INext it) (row_key r) thr expire re seen out n = Ok (it', out ++ l, n + c) /\
                       plain_at it' (pre ++ row_view r) post
      | Err e => gc_inner fuel (INext it) (row_key r) thr expire re seen out n = Err e
      end).
    { intros. apply (IH fuel (INext it) pre r post (a ++ [v])); [done..|by apply on_versions_next|cbn in Hf; lia]. }
    fold (gc_item (row_key r) v). destruct (row_expired re (row_key r) v.1).
    + specialize (Hnext seen (out ++ [gc_item (row_key r) v]) (n + 1)).
      destruct (ref_gc _ _ _ _ _ b) as [[l c]|]; [|done]. destruct Hnext as (it' & -> & Hp). exists it'.
      split; [|done]. rewrite <- app_assoc. cbn. do 2 f_equal. lia.
    + destruct (LessEq v.1 thr); [|apply Hnext]. destruct (seen || expire).
      * specialize (Hnext seen (out ++ [gc_item (row_key r) v]) n). destruct (ref_gc _ _ _ _ _ b) as [[l c]|]; [|done].
        destruct Hnext as (it' & -> & Hp). exists it'. by rewrite <- app_assoc.
      * destruct (lift_value (IsTombstoneValue v.2)) as [tomb|]; [|done]. cbn [rbind].
        specialize (Hnext true (if tomb then out ++ [gc_item (row_key r) v] else out) n).
        destruct (ref_gc _ _ _ _ true b) as [[l c]|]; [|done]. destruct Hnext as (it' & -> & Hp). exists it'.
        split; [|done]. destruct tomb; by rewrite <- ?app_assoc.
Qed.

(** The garbage of the rows of a range, and the holders of intents. *)
Fixpoint ref_gc_rows (rs : list row) (thr : Timestamp) (expire : bool) (re : option (bytes -> Timestamp -> bool))
    (out : list GCVersion) (n : Z) (live : gset (list Z)) : result mvcc_err (list GCVersion * Z * gset (list Z)) :=
  match rs with
  | [] => Ok (out, n, live)
  | r :: rs =>
      match r.1.2 with
      | Some raw =>
          ref_gc_rows rs thr expire re out n (match intentTxnID raw with Some id => {[ id ]} ∪ live | None => live end)
      | None => let* (l, c) := ref_gc (row_key r) thr expire re false r.2 in ref_gc_rows rs thr expire re (out ++ l) (n + c) live
      end
  end.

Lemma gc_outer_at rs thr expire re : forall fuel it done_ out n live,
  rows_ok (done_ ++ rs) -> plain_at it (rows_view done_) (rows_view rs) -> (length rs < fuel)%nat ->
  gc_outer fuel it thr expire re out n live = ref_gc_rows rs thr expire re out n live.
Proof.
  induction rs as [|r rs IH]; intros fuel it done_ out n live Hok Hat Hf;
    (destruct fuel as [|fuel]; [lia|]); cbn [gc_outer ref_gc_rows]; rewrite (plain_cur _ _ _ Hat); [done|].
  pose proof (rows_around _ done_ r rs Hok eq_refl) as Har. pose proof Har as (Hr & _).
  pose proof Hok as [Hrok _]. apply Forall_app in Hrok as [_ Hrok]. inversion Hrok as [|? ? _ Hrok']; subst.
  pose proof (rows_decode rs Hrok') as Hdec. destruct (plain_view _ _ _ Hat) as [Hv Hs].
  assert (Hdone : rows_view (done_ ++ [r]) = rows_view done_ ++ row_view r).
  { unfold rows_view. rewrite map_app, concat_app. cbn [map concat]. by rewrite app_nil_r. }
  destruct (row_view r) as [|[x w] l] eqn:Erv; [by destruct Hr as (_ & _ & _ & ?)|].
  unfold rows_view at 1. cbn [map concat]. rewrite Erv. cbn [app head]. rewrite <- Erv in Hdone.
  pose proof Erv as Erv0. unfold row_view, key_view in Erv. destruct r.1.2 as [raw|] eqn:Em.
  - injection Erv as <- <- _. rewrite Decode_meta. cbn [lift_key rmap_err rbind IsEmpty ts0].
    apply (IH fuel _ (done_ ++ [r])); [by rewrite <- app_assoc| |cbn in Hf; lia]. rewrite Hdone. by apply seek_past.
  - cbn [app] in Erv. destruct r.2 as [|v vs] eqn:Ev; [done|]. injection Erv as <- <- _.
    pose proof Hr as (_ & _ & [_ Hvv] & _). rewrite Ev in Hvv. inversion Hvv as [|? ? [Hv1 Hv2]]; subst.
    fold (row_key r). rewrite Decode_vkey by done. cbn [lift_key rmap_err rbind]. rewrite (proj2 (IsEmpty_neq _) Hv2).
    assert (Hov : on_versions it (rows_view done_) r (rows_view rs) [] (v :: vs)).
    { split; [done|]. rewrite Em. cbn [map app]. rewrite app_nil_r. unfold rows_view at 2 in Hat. cbn [map concat] in Hat.
      unfold row_view, key_view in Hat. rewrite Em, Ev in Hat. exact Hat. }
    pose proof (gc_inner_at (v :: vs) thr expire re (S (length (it_view (pit it)))) it (rows_view done_) r (rows_view rs) []
      false out n Har Hdec Hov) as Hi.
    destruct (ref_gc (row_key r) thr expire re false (v :: vs)) as [[l' c]|e].
    + destruct Hi as (it' & -> & Hp).
      { fold (view it). destruct (on_versions_view _ _ _ _ _ _ Hov) as [-> _]. unfold row_view, key_view.
        rewrite !length_app, length_map, Ev. lia. }
      cbn [rbind]. apply (IH fuel it' (done_ ++ [r])); [by rewrite <- app_assoc|by rewrite Hdone|cbn in Hf; lia].
    + rewrite Hi; [done|]. fold (view it). destruct (on_versions_view _ _ _ _ _ _ Hov) as [-> _]. unfold row_view, key_view.
      rewrite !length_app, length_map, Ev. lia.
Qed.

Lemma enumerate_ref pb s desc thr expire re rs :
  range_rows s (StartKey desc) (EndKey desc) rs ->
  enumerateGarbageVersions pb s desc thr expire re = ref_gc_rows rs thr expire re [] 0 ∅.
Proof.
  intros Hrr. unfold enumerateGarbageVersions. rewrite !EncodeMVCCKey_meta.
  assert (Hv : view (NewIter pb s (metaKey (StartKey desc)) (metaKey (EndKey desc))) = rows_view rs).
  { unfold view, NewIter. cbn [pit]. rewrite new_view. apply (rr_view _ _ _ _ Hrr). }
  apply (gc_outer_at rs _ _ _ _ _ []); [apply (rr_ok _ _ _ _ Hrr)| |].
  - apply plain_seek_to; [rewrite Hv; by apply rows_view_sorted, (rr_ok _ _ _ _ Hrr)|done|by apply Forall_nil|].
    rewrite <- (rr_view _ _ _ _ Hrr). apply Forall_forall. intros e He. apply elem_of_bounded in He. tauto.
  - fold (view (NewIter pb s (metaKey (StartKey desc)) (metaKey (EndKey desc)))). rewrite Hv.
    pose proof (rr_ok _ _ _ _ Hrr) as [Hok _]. by apply rows_view_length.
Qed.

Definition row_garbage (thr : Timestamp) (r : row) : list GCVersion :=
  match r.1.2 with Some _ => [] | None => map (gc_item (row_key r)) (dead thr r.2) end.

Lemma ref_gc_rows_garbage rs thr : forall out n live out' n' live',
  Forall row_ok rs -> ref_gc_rows rs thr false None out n live = Ok (out', n', live') ->
  out' = out ++ concat (map (row_garbage thr) rs).
Proof.
  induction rs as [|r rs IH]; intros out n live out' n' live' Hok; cbn [ref_gc_rows]; [by intros [= <- _ _]; rewrite app_nil_r|].
  inversion Hok as [|? ? (_ & _ & [Hvs _] & _) Hok']; subst. cbn [map concat]. unfold row_garbage at 1.
  destruct r.1.2 as [raw|]; [by apply IH|].
  destruct (ref_gc _ _ _ _ _ r.2) as [[l c]|] eqn:E; [|done]. cbn [rbind]. apply ref_gc_dead in E as [-> _]; [|done].
  intros H. apply IH in H as ->; [|done]. by rewrite <- app_assoc.
Qed.

(** Every holder of an intent in the rows is live. *)
Lemma ref_gc_rows_live rs thr expire re : forall out n live out' n' live',
  ref_gc_rows rs thr expire re out n live = Ok (out', n', live') ->
  live ⊆ live' /\ forall r raw id, r ∈ rs -> r.1.2 = Some raw -> intentTxnID raw = Some id -> id ∈ live'.
Proof.
  induction rs as [|r rs IH]; intros out n live out' n' live'; cbn [ref_gc_rows].
  { intros [= _ _ <-]. split; [done|]. intros r raw id Hr. by apply not_elem_of_nil in Hr. }
  destruct r.1.2 as [raw|] eqn:Em.
  - intros H. apply IH in H as [Hsub Hin]. split; [destruct (intentTxnID raw); set_solver|].
    intros r' raw' id Hr. apply elem_of_cons in Hr as [->|Hr]; [|by apply Hin]. rewrite Em. intros [= <-] Hid. rewrite Hid in Hsub. set_solver.
  - destruct (ref_gc _ _ _ _ _ r.2) as [[l c]|]; [|done]. cbn [rbind]. intros H. apply IH in H as [Hsub Hin]. split; [done|].
    intros r' raw' id Hr. apply elem_of_cons in Hr as [->|Hr]; [congruence|by apply Hin].
Qed.

Abbreviation gv_key v := (EncodeMVCCKey (gvKey v) (gvTS v)) (only parsing).

Lemma delete_versions_none vs : forall s x, Exists (fun v => gv_key v = x) vs -> st_get (delete_versions s vs) x = None.
Proof.
  induction vs as [|v vs IH] using rev_ind; intros s x; [by inversion 1|].
  unfold delete_versions. rewrite fold_left_app. cbn [fold_left]. fold (delete_versions s vs). unfold Batch_Delete.
  rewrite Exists_app, Exists_cons, Exists_nil. intros H. destruct (decide (gv_key v = x)) as [<-|Hn]; [apply get_del_eq|].
  rewrite get_del_ne by done. apply IH. tauto.
Qed.

Lemma delete_versions_keep vs : forall s x, Forall (fun v => gv_key v <> x) vs -> st_get (delete_versions s vs) x = st_get s x.
Proof.
  induction vs as [|v vs IH]; intros s x; [done|]. inversion 1 as [|? ? Hn Hf]; subst. cbn [delete_versions fold_left].
  fold (delete_versions (Batch_Delete s (gv_key v)) vs). rewrite IH by done. by apply get_del_ne.
Qed.

Lemma delete_versions_wf vs : forall s, store_wf s -> store_wf (delete_versions s vs).
Proof.
  induction vs as [|v vs IH]; intros s Hs; [done|]. apply (IH (Batch_Delete s (gv_key v))). by apply wf_del.
Qed.

Lemma garbage_elem rs thr v :
  v ∈ concat (map (row_garbage thr) rs) <->
  exists r u, r ∈ rs /\ r.1.2 = None /\ u ∈ dead thr r.2 /\ v = gc_item (row_key r) u.
Proof.
  rewrite list_elem_of_In, in_concat. split.
  - intros (l & Hl & Hv). apply in_map_iff in Hl as (r & <- & Hr). unfold row_garbage in Hv. destruct r.1.2 eqn:E; [done|].
    apply in_map_iff in Hv as (u & <- & Hu). exists r, u. rewrite !list_elem_of_In. done.
  - intros (r & u & Hr & Hm & Hu & ->). exists (row_garbage thr r). split; [by apply in_map, list_elem_of_In|].
    unfold row_garbage. rewrite Hm. by apply in_map, list_elem_of_In.
Qed.

Lemma dead_sub thr vs v : v ∈ dead thr vs -> v ∈ vs.
Proof.
  unfold dead. rewrite (proj1 (from_ts_split thr vs)) at 2. rewrite elem_of_app. destruct (from_ts thr vs); [set_solver|].
  destruct (tombstone _); set_solver.
Qed.

(** The view of a key after its range was collected. *)
Lemma collected_view s start end_ rs thr r :
  store_wf s -> range_rows s start end_ rs -> r ∈ rs ->
  is_view (delete_versions s (concat (map (row_garbage thr) rs))) (row_key r) r.1.2
    (match r.1.2 with Some _ => r.2 | None => survivors thr r.2 end).
Proof.
  intros Hwf Hrr Hr. pose proof (rr_ok _ _ _ _ Hrr) as [Hrok Hsort]. pose proof (rr_is_view _ _ _ _ Hrr) as Hvw.
  rewrite Forall_forall in Hrok, Hvw. pose proof (Hvw r Hr) as Hv. destruct (Hrok r Hr) as (Hl & Hk & Hvs & _).
  set (out := concat (map (row_garbage thr) rs)).
  assert (Hgv : forall v, v ∈ out -> exists r' u, r' ∈ rs /\ r'.1.2 = None /\ u ∈ dead thr r'.2 /\ ts_valid u.1 /\
    gv_key v = vkey (row_key r') u.1).
  { intros v Hv'. apply garbage_elem in Hv' as (r' & u & Hr' & Hm & Hu & ->). exists r', u. cbn [gc_item gvKey gvTS].
    destruct (Hrok r' Hr') as (_ & _ & [_ Hval] & _). rewrite Forall_forall in Hval. pose proof (Hval u (dead_sub _ _ _ Hu)) as Hu'.
    split_and!; try done. apply EncodeMVCCKey_vkey, Hu'. }
  apply view_intro; [by apply delete_versions_wf|done|destruct r.1.2; [done|by apply survivors_sorted]| |].
  - rewrite delete_versions_keep; [by eapply is_view_meta|]. apply Forall_forall. intros v Hin.
    destruct (Hgv v Hin) as (r' & u & _ & _ & _ & _ & ->). apply vkey_not_meta.
  - intros t raw Ht. destruct (decide (Exists (fun v => gv_key v = vkey (row_key r) t) out)) as [He|He].
    + rewrite delete_versions_none by done. split; [done|]. intros Hin. exfalso.
      apply Exists_exists in He as (v & Hin' & E). destruct (Hgv v Hin') as (r' & u & Hr' & Hm & Hu & Hut & Eu). rewrite Eu in E.
      apply vkey_inj in E as [Ek Et]; [|apply Hut|apply Ht]. assert (r' = r) as -> by (by eapply row_key_inj).
      rewrite Hm in Hin. apply survivors_elem in Hin as [Hin Hnd]; [|apply Hvs]. apply Hnd.
      destruct u as [t' raw']. cbn in Et. subst t'. pose proof (dead_sub _ _ _ Hu) as Hu2.
      apply (is_view_version _ _ _ _ t raw Hv Ht) in Hin. apply (is_view_version _ _ _ _ t raw' Hv Ht) in Hu2. congruence.
    + rewrite delete_versions_keep by by apply Forall_Exists_neg. rewrite (is_view_version _ _ _ _ t raw Hv Ht).
      destruct r.1.2 as [m|] eqn:Em; [done|]. rewrite survivors_elem by apply Hvs. split; [|tauto]. intros Hin. split; [done|].
      intros Hd. apply He, Exists_exists. exists (gc_item (row_key r) (t, raw)). split.
      * apply garbage_elem. by exists r, (t, raw).
      * cbn [gc_item gvKey gvTS fst]. apply EncodeMVCCKey_vkey, Ht.
Qed.

(** Deleting every version the enumeration lists leaves every read above the
    threshold as it was. *)
Lemma collected_reads pb s desc thr out n live k ts opts :
  store_wf s -> span_ok (StartKey desc) (EndKey desc) ->
  enumerateGarbageVersions pb s desc thr false None = Ok (out, n, live) ->
  IsLocal k = false -> opts_ok ts opts -> thr <t ts ->
  MVCCGet pb (delete_versions s out) k ts opts = MVCCGet pb s k ts opts.
Proof.
  intros Hwf Hsp He Hl Ho Ht. destruct (range_rows_exist s _ _ Hwf Hsp) as (rs & Hrr).
  pose proof (rr_ok _ _ _ _ Hrr) as [Hrok _]. rewrite (enumerate_ref _ _ _ _ _ _ rs Hrr) in He.
  apply ref_gc_rows_garbage in He; [|done]. cbn [app] in He. subst out. pose proof (rr_is_view _ _ _ _ Hrr) as Hvw.
  destruct (decide (Exists (fun r => row_key r = k) rs)) as [Hin|Hno].
  - apply Exists_exists in Hin as (r & Hr & <-). rewrite Forall_forall in Hvw, Hrok.
    destruct (Hvw r Hr) as [Hv1 Hvs]. destruct (collected_view s _ _ rs thr r Hwf Hrr Hr) as [Hv2 Hvs2].
    rewrite (MVCCGet_ref pb s _ ts opts _ _ Hwf Hl Ho Hv1 Hvs).
    rewrite (MVCCGet_ref pb _ _ ts opts _ _ (delete_versions_wf _ _ Hwf) Hl Ho Hv2 Hvs2).
    unfold ref_get. destruct r.1.2; [done|]. apply survivors_read; [apply Hvs|done].
  - destruct (is_view_exists s k Hwf Hl) as (mo & vs & Hv).
    assert (Hv2 : is_view (delete_versions s (concat (map (row_garbage thr) rs))) k mo vs).
    { assert (Hne : forall x, (exists y, x = metaKey k ++ y) ->
        st_get (delete_versions s (concat (map (row_garbage thr) rs))) x = st_get s x).
      { intros x (y & ->). apply delete_versions_keep, Forall_forall. intros v Hin E.
        apply garbage_elem in Hin as (r & u & Hr & _ & Hu & ->). apply Hno, Exists_exists. exists r. split; [done|].
        cbn [gc_item gvKey gvTS] in E. rewrite Forall_forall in Hrok. destruct (Hrok r Hr) as (_ & _ & [_ Hval] & _).
        rewrite Forall_forall in Hval. destruct (Hval u (dead_sub _ _ _ Hu)) as [_ Hu0].
        rewrite EncodeMVCCKey_vkey in E by done. by apply metaKey_inj_app in E as [-> _]. }
      apply view_intro; [by apply delete_versions_wf|done|apply Hv| |].
      - rewrite Hne; [by eapply is_view_meta|]. exists []. by rewrite app_nil_r.
      - intros t raw Htv. rewrite Hne; [by eapply is_view_version|]. by eexists. }
    destruct Hv as [Hv1 Hvs]. destruct Hv2 as [Hv2 _].
    rewrite (MVCCGet_ref pb s _ ts opts _ _ Hwf Hl Ho Hv1 Hvs).
    by rewrite (MVCCGet_ref pb _ _ ts opts _ _ (delete_versions_wf _ _ Hwf) Hl Ho Hv2 Hvs).
Qed.

Lemma plain_read_value pb s k ts t raw :
  store_wf s -> IsLocal k = false -> ts_ok ts -> intent_of s k = None -> newest_at s k ts ts0 t raw ->
  MVCCGet pb s k ts plain_read = read_value raw.
Proof.
  intros Hwf Hl Ht Hi Hn. eapply get_spec_fun; [apply MVCCGet_get_spec; [done..|split; [done|apply ts0_ok]]|].
  eapply get_value; [|by intros H|exact Hn|by apply value_spec_read]. unfold beneath. by rewrite Hi.
Qed.

(** A prefix of the enumeration that ends between a key's newest version, a
    tombstone, and the older value beneath it. *)
Lemma prefix_resurrects pb s thr size pre v1 v2 post k data ts :
  store_wf s -> IsLocal k = false -> ts_ok ts -> thr <t ts -> intent_of s k = None ->
  S (length pre) = size -> Forall (fun v => gvKey v <> k) pre -> gvKey v1 = k -> gvKey v2 = k ->
  ts_valid (gvTS v1) -> ts_valid (gvTS v2) -> gvTS v2 <t gvTS v1 -> gvTS v1 <=t thr ->
  st_get s (vkey k (gvTS v1)) = Some (encodeMVCCValue [] true) ->
  st_get s (vkey k (gvTS v2)) = Some (encodeMVCCValue data false) ->
  (forall t raw, has_version s k t raw -> t = gvTS v1 \/ t <=t gvTS v2) ->
  MVCCGet pb s k ts plain_read = Ok None /\
  MVCCGet pb (delete_versions s (take size (pre ++ v1 :: v2 :: post))) k ts plain_read = Ok (append_nil data).
Proof.
  intros Hwf Hl Ht Hthr Hi Hsz Hpre <- Hk2 Hv1 Hv2 Hlt Hle H1 H2 Hall. split.
  - rewrite (plain_read_value pb s _ ts (gvTS v1) (encodeMVCCValue [] true)); [done..|].
    split; [done|]. split; [ts_lia|]. split; [apply Hv1|]. intros u raw Hu _ _. destruct (Hall u raw Hu) as [->|]; ts_lia.
  - assert (take size (pre ++ v1 :: v2 :: post) = pre ++ [v1]) as ->.
    { subst size. rewrite take_app_ge by lia.
      by replace (S (length pre) - length pre)%nat with 1%nat by lia. }
    set (s' := delete_versions s (pre ++ [v1])).
    assert (Hkeep : forall x, (exists y, x = metaKey (gvKey v1) ++ y) -> x <> vkey (gvKey v1) (gvTS v1) -> st_get s' x = st_get s x).
    { intros x (y & ->) Hx. apply delete_versions_keep, Forall_app. split.
      - eapply Forall_impl; [exact Hpre|]. intros v Hv E. apply Hv. cbn in E.
        unfold EncodeMVCCKey in E. destruct (IsEmpty (gvTS v)).
        + rewrite <- (app_nil_r (EncodeBytes [] (gvKey v))) in E. by apply metaKey_inj_app in E as [-> _].
        + rewrite appendVersionSuffix_eq in E. by apply metaKey_inj_app in E as [-> _].
      - constructor; [|constructor]. rewrite EncodeMVCCKey_vkey by apply Hv1. congruence. }
    assert (Hdel : st_get s' (vkey (gvKey v1) (gvTS v1)) = None).
    { apply delete_versions_none, Exists_app. right. constructor. apply EncodeMVCCKey_vkey, Hv1. }
    assert (Hmeta : st_get s' (metaKey (gvKey v1)) = st_get s (metaKey (gvKey v1))).
    { apply Hkeep; [exists []; by rewrite app_nil_r|]. intros E. symmetry in E. by apply vkey_not_meta in E. }
    assert (Hver : forall t raw, has_version s' (gvKey v1) t raw <-> has_version s (gvKey v1) t raw /\ t <> gvTS v1).
    { intros t raw. unfold has_version. destruct (decide (t = gvTS v1)) as [->|Hn]; [rewrite Hdel; naive_solver|].
      destruct (decide (ts_valid t)) as [Htv|]; [|naive_solver]. rewrite Hkeep; [naive_solver|by eexists|].
      intros E. apply vkey_inj in E as [_ E]; [done|apply Htv|apply Hv1]. }
    rewrite (plain_read_value pb s' _ ts (gvTS v2) (encodeMVCCValue data false)).
    + done.
    + by apply delete_versions_wf.
    + done.
    + done.
    + unfold intent_of in *. by rewrite Hmeta.
    + split; [apply Hver; split; [done|ts_lia]|]. split; [ts_lia|]. split; [apply Hv2|].
      intros u raw Hu _ _. apply Hver in Hu as [Hu Hne]. destruct (Hall u raw Hu); done.
Qed.
End RangeGC.

(** ** Transaction records *)

Section RecordGC.
Context {P : Pebble} {PL : PebbleLaws P} {C : MetaCodec} {CL : MetaCodecLaws C} {T : TxnCodec} {TL : TxnCodecLaws T}.

Lemma gc_records_at l thr live : forall fuel it pre out work,
  plain_at it pre l -> (length l < fuel)%nat -> gc_records_loop fuel it thr live out = Ok work ->
  forall tr, tr ∈ work -> tr ∈ out \/ exists e, e ∈ l /\ gc_record e.1 e.2 thr live = Ok (Some tr).
Proof.
  induction l as [|e l IH]; intros fuel it pre out work Hat Hf; (destruct fuel as [|fuel]; [lia|]); cbn [gc_records_loop];
    rewrite (plain_cur _ _ _ Hat); cbn [head]; [intros [= <-]; by left|].
  destruct e as [x v]. destruct (gc_record x v thr live) as [o|] eqn:E; [|done]. cbn [rbind]. intros H tr Htr.
  apply plain_next in Hat. cbn in Hf.
  destruct (IH fuel (INext it) (pre ++ [(x, v)]) _ work Hat ltac:(lia) H tr Htr) as [Ho|(e & He & Hg)];
    [|right; exists e; split; [by apply list_elem_of_further|done]].
  destruct o as [tr'|]; [|by left]. apply elem_of_app in Ho as [Ho|Ho]; [by left|]. apply list_elem_of_singleton in Ho as ->.
  right. exists (x, v). split; [apply list_elem_of_here|done].
Qed.

Lemma enumerate_records_elem pb s desc thr live work tr :
  enumerateGarbageTxnRecords pb s desc thr live = Ok work -> tr ∈ work ->
  exists key raw, st_get s key = Some raw /\ gc_record key raw thr live = Ok (Some tr).
Proof.
  unfold enumerateGarbageTxnRecords. destruct (RangeLocalAddressedSpan _ _) as [lo hi]. intros H Htr.
  set (it := NewIter pb s lo hi) in *.
  assert (Hv : view it = bounded lo hi (st_entries s)) by (unfold view, it, NewIter; cbn [pit]; apply new_view).
  assert (Hat : plain_at (SeekGE it lo) [] (view it)).
  { apply plain_seek_to; [rewrite Hv; apply bounded_sorted|done|constructor|]. rewrite Hv. apply Forall_forall. intros e He.
    apply elem_of_bounded in He. tauto. }
  destruct (gc_records_at _ thr live _ _ _ _ _ Hat (Nat.lt_succ_diag_r _) H tr Htr) as [Ho|(e & He & Hg)];
    [by apply not_elem_of_nil in Ho|].
  rewrite Hv in He. apply elem_of_bounded in He as [He _]. destruct e as [key raw]. exists key, raw.
  split; [by apply get_entries|done].
Qed.

(** What makes a record collectible. *)
Lemma gc_record_some key raw thr live tr :
  gc_record key raw thr live = Ok (Some tr) ->
  IsTransactionKey key = true /\ gtrKey tr = key /\
  exists txn, UnmarshalTxnRecord raw = Some txn /\ is_final (tStatus txn) = true /\
    WriteTimestamp (tMeta txn) <=t thr /\ tLastHeartbeat txn <=t thr /\ gtrTxnID tr = ID (tMeta txn) /\
    gtrCommitTS tr = WriteTimestamp (tMeta txn) /\
    ((tStatus txn = COMMITTED /\ gtrResolve tr = tIntentKeys txn /\ tIntentKeys txn <> []) \/
     (gtrResolve tr = [] /\ ID (tMeta txn) ∉ live)).
Proof.
  unfold gc_record. destruct (IsTransactionKey key); [|done]. cbn [negb]. destruct (UnmarshalTxnRecord raw) as [txn|]; [|done].
  destruct (is_final (tStatus txn)) eqn:Ef; [|done]. cbn [negb].
  destruct (negb _ || negb _) eqn:Et; [done|]. apply orb_false_iff in Et as [Et1 Et2]. apply negb_false_iff in Et1, Et2.
  apply LessEq_le in Et1, Et2. repeat case_bool_decide; cbn [andb negb]; intros [= <-];
    (split; [done|]; split; [done|]; exists txn; split_and!; try done); first [by left|by right].
Qed.

(** A record the enumeration lists. *)
Lemma collectible_record pb s desc thr expire re out n live work tr :
  store_wf s -> span_ok (StartKey desc) (EndKey desc) ->
  enumerateGarbageVersions pb s desc thr expire re = Ok (out, n, live) ->
  enumerateGarbageTxnRecords pb s desc thr live = Ok work -> tr ∈ work ->
  exists txn, record s (gtrKey tr) = Some txn /\ is_final (tStatus txn) = true /\ gtrTxnID tr = ID (tMeta txn) /\
    WriteTimestamp (tMeta txn) <=t thr /\ tLastHeartbeat txn <=t thr /\
    (gtrResolve tr <> [] -> tStatus txn = COMMITTED /\ gtrResolve tr = tIntentKeys txn /\ gtrCommitTS tr = WriteTimestamp (tMeta txn)) /\
    (gtrResolve tr = [] -> forall k meta, bytes_ok k -> ContainsKey desc k = true -> intent_of s k = Some meta ->
       ID (mTxn meta) <> gtrTxnID tr) /\
    (thr <> ts0 -> forall txn' b, MinTimestamp (tMeta txn') <=t WriteTimestamp (tMeta txn) ->
       createTxnRecord thr (Some txn') b = (b, Err ErrTxnAborted)).
Proof.
  intros Hwf Hsp He Hw Htr. destruct (enumerate_records_elem _ _ _ _ _ _ _ Hw Htr) as (key & raw & Hg & Hgc).
  apply gc_record_some in Hgc as (_ & Hk & txn & Hu & Hf & Hw1 & Hw2 & Hid & Hcts & Hcase). exists txn. subst key. split_and!; try done.
  - unfold record, Batch_Get. rewrite Hg. by destruct raw.
  - intros Hr. destruct Hcase as [(? & ? & _)|[? _]]; done.
  - intros Hr k meta Hkb Hc Hi. rewrite Hid. intros E. destruct Hcase as [(_ & Hr' & Hne)|[_ Hlive]]; [congruence|]. apply Hlive.
    rewrite <- E. destruct (range_rows_exist s _ _ Hwf Hsp) as (rs & Hrr). rewrite (enumerate_ref _ _ _ _ _ _ rs Hrr) in He.
    apply ref_gc_rows_live in He as [_ Hin]. unfold intent_of in Hi. destruct (st_get s (metaKey k)) as [m|] eqn:Em; [|done].
    unfold ContainsKey in Hc. apply andb_true_iff in Hc as [H1 H2]. apply bleb_le in H1. apply bltb_lt in H2.
    assert (Hel : (metaKey k, m) ∈ rows_view rs).
    { rewrite <- (rr_view _ _ _ _ Hrr). apply elem_of_bounded. split; [by apply get_entries|]. cbn [fst].
      rewrite <- (app_nil_r (metaKey k)). destruct Hsp as (Hs1 & Hs2 & _). by apply metaKey_in_span. }
    apply rows_view_elem in Hel as (r & Hr2 & Hel). pose proof (rr_ok _ _ _ _ Hrr) as [Hrok _]. rewrite Forall_forall in Hrok.
    unfold row_view, key_view in Hel. apply elem_of_app in Hel as [Hel|Hel].
    + destruct r.1.2 as [m'|] eqn:Er; [|by apply not_elem_of_nil in Hel]. apply list_elem_of_singleton in Hel as [= Ek ->].
      apply (Hin r m'); [done..|]. unfold intentTxnID. by rewrite Hi.
    + exfalso. apply list_elem_of_In, in_map_iff in Hel as (v & Ev & _). unfold ventry in Ev. injection Ev as Ev _.
      by apply vkey_not_meta in Ev.
  - intros Hne txn' b Hmin. unfold createTxnRecord.
    assert (IsEmpty thr = false) as -> by by apply IsEmpty_neq. assert (LessEq (MinTimestamp (tMeta txn')) thr = true) as ->; [|done].
    apply LessEq_le. ts_lia.
Qed.
(** ** A whole pass *)

Definition gc_keys (req : GCRequest) : list bytes := map (fun v => EncodeMVCCKey (gvKey v) (gvTS v)) (gcVersions req) ++ gcTxnRecordKeys req.

Lemma evalGC_store b req : b_store (evalGC b req) = fold_left Batch_Delete (gc_keys req) (b_store b).
Proof.
  unfold evalGC, delete_records, delete_versions, gc_keys. cbn [b_store b_with_store]. rewrite fold_left_app. f_equal.
  generalize (b_store b). induction (gcVersions req) as [|v vs IH]; intros s; [done|]. cbn [fold_left map]. apply IH.
Qed.

Lemma delete_all_get ks : forall s x, st_get (fold_left Batch_Delete ks s) x = if bool_decide (x ∈ ks) then None else st_get s x.
Proof.
  induction ks as [|k ks IH]; intros s x; cbn [fold_left]; [done|]. rewrite IH. unfold Batch_Delete.
  destruct (decide (x = k)) as [->|Hne].
  - rewrite get_del_eq. rewrite (bool_decide_true (k ∈ k :: ks)) by by left. by case_bool_decide.
  - rewrite get_del_ne by done. rewrite !bool_decide_decide. destruct (decide (x ∈ ks)), (decide (x ∈ k :: ks)); set_solver.
Qed.

Lemma pass_store reqs : forall b, b_store (fold_left evalGC reqs b) = fold_left Batch_Delete (concat (map gc_keys reqs)) (b_store b).
Proof.
  induction reqs as [|req reqs IH]; intros b; cbn [fold_left map concat]; [done|]. by rewrite IH, evalGC_store, fold_left_app.
Qed.

Lemma delete_all_wf ks : forall s, store_wf s -> store_wf (fold_left Batch_Delete ks s).
Proof. induction ks as [|k ks IH]; intros s Hs; [done|]. apply IH. by apply wf_del. Qed.

(** The chunks hold the versions and the records, all of them. *)
Lemma gc_chunks_all size : (0 < size)%nat -> forall fuel versions records, (length versions + length records <= fuel)%nat ->
  concat (map fst (gc_chunks fuel size versions records)) = versions /\ concat (map snd (gc_chunks fuel size versions records)) = records.
Proof.
  intros Hs. induction fuel as [|fuel IH]; intros versions records Hf.
  { destruct versions, records; cbn in Hf; try lia. done. }
  cbn [gc_chunks]. assert (Hstep : (versions <> [] \/ records <> []) ->
    (length (drop size versions) + length (drop (size - length (take size versions)) records) <= fuel)%nat).
  { rewrite !length_drop, length_take. intros [H|H]; [destruct versions; [done|]|destruct records; [done|]]; cbn [length] in *; lia. }
  destruct versions as [|v vs], records as [|k ks]; [done|..];
    (destruct (IH _ _ (Hstep ltac:(by (by left) || (by right)))) as [E1 E2]; cbn [map concat fst snd]; rewrite E1, E2; by rewrite !take_drop).
Qed.

Lemma transaction_key_local k : IsTransactionKey k = true -> IsLocal k = true.
Proof.
  unfold IsTransactionKey. destruct (has_prefix k localAddressedPrefix) eqn:E; [|done]. intros _. apply has_prefix_spec in E as [r ->]. reflexivity.
Qed.

Definition gc_pass (reqs : list GCRequest) (b : Batch) : Batch := fold_left evalGC reqs b.

(** What a pass leaves at the keys of user data. *)
Lemma pass_get pb size current s desc thr expire re send reqs out n live x :
  (0 < size)%nat -> current <t thr -> enumerateGarbageVersions pb s desc thr expire re = Ok (out, n, live) ->
  runGC pb size current s desc thr expire re send = Ok reqs -> IsLocal x = false ->
  forall b, b_store b = s -> st_get (b_store (gc_pass reqs b)) x = st_get (delete_versions s out) x.
Proof.
  intros Hsz Hcur He Hrun Hx b <-. unfold gc_pass. rewrite pass_store, delete_all_get. unfold runGC in Hrun.
  destruct (LessEq thr current) eqn:El; [tsb; ts_lia|]. rewrite He in Hrun. cbn [rmap_err rbind] in Hrun.
  destruct (enumerateGarbageTxnRecords _ _ _ _ _) as [work|] eqn:Ew; [|done]. cbn [rbind] in Hrun. injection Hrun as <-.
  set (records := map gtrKey _) in *. set (chunks := gc_chunks _ _ _ _) in *.
  destruct (gc_chunks_all size Hsz (length out + length records) out records (le_n _)) as [E1 E2]. fold chunks in E1, E2.
  assert (Hrec : forall k, k ∈ records -> IsTransactionKey k = true).
  { intros k Hk. apply list_elem_of_In, in_map_iff in Hk as (tr & <- & Htr). apply list_elem_of_In, list_elem_of_filter in Htr as [_ Htr].
    destruct (enumerate_records_elem _ _ _ _ _ _ _ Ew Htr) as (key & raw & _ & (Hk & -> & _)%gc_record_some). done. }
  assert (Hin : x ∈ concat (map gc_keys (map (gc_request desc thr) chunks)) <-> Exists (fun v => EncodeMVCCKey (gvKey v) (gvTS v) = x) out).
  { rewrite list_elem_of_In, in_concat, Exists_exists. split.
    - intros (l & Hl & Hxl). apply in_map_iff in Hl as (req & <- & Hreq). apply in_map_iff in Hreq as (ch & <- & Hch).
      unfold gc_keys, gc_request in Hxl. cbn [gcVersions gcTxnRecordKeys] in Hxl. apply in_app_or in Hxl as [Hxl|Hxl].
      + apply in_map_iff in Hxl as (v & E & Hv). exists v. split; [|done]. rewrite <- E1. apply list_elem_of_In, in_concat. exists ch.1. split; [by apply in_map|done].
      + exfalso. assert (Hr : x ∈ records) by (rewrite <- E2; apply list_elem_of_In, in_concat; exists ch.2; split; [by apply in_map|done]).
        apply Hrec, transaction_key_local in Hr. congruence.
    - intros (v & Hv & E). rewrite <- E1 in Hv. apply list_elem_of_In, in_concat in Hv as (l & Hl & Hv). apply in_map_iff in Hl as (ch & <- & Hch).
      exists (gc_keys (gc_request desc thr ch)). split; [by apply in_map, in_map|]. unfold gc_keys, gc_request. cbn [gcVersions].
      apply in_or_app. left. apply in_map_iff. by exists v. }
  rewrite bool_decide_decide. destruct (decide (x ∈ _)) as [H|H].
  - symmetry. apply delete_versions_none. by apply Hin.
  - symmetry. apply delete_versions_keep. apply not_Exists_Forall; [intros v; apply _|]. by rewrite <- Hin.
Qed.

Lemma store_same_views s1 s2 k mo vs : store_wf s2 -> IsLocal k = false -> (forall x, IsLocal x = false -> st_get s2 x = st_get s1 x) ->
  is_view s1 k mo vs -> is_view s2 k mo vs.
Proof.
  intros Hwf Hl He Hv. apply view_intro; [done..|apply Hv| |].
  - rewrite He; [by eapply is_view_meta|]. rewrite <- (app_nil_r (metaKey k)). by rewrite metaKey_local.
  - intros t raw Ht. rewrite He; [by eapply is_view_version|]. by rewrite vkey_local.
Qed.

Lemma store_same_reads pb s1 s2 k ts opts : store_wf s1 -> store_wf s2 -> IsLocal k = false -> opts_ok ts opts ->
  (forall x, IsLocal x = false -> st_get s2 x = st_get s1 x) -> MVCCGet pb s2 k ts opts = MVCCGet pb s1 k ts opts.
Proof.
  intros H1 H2 Hl Ho He. destruct (is_view_exists s1 k H1 Hl) as (mo & vs & Hv). pose proof (store_same_views s1 s2 k mo vs H2 Hl He Hv) as [Hv2 _].
  destruct Hv as [Hv1 Hvs]. rewrite (MVCCGet_ref pb s1 _ ts opts mo vs) by done. by rewrite (MVCCGet_ref pb s2 _ ts opts mo vs).
Qed.

(** A survivor is above the threshold, or the newest at it and a value. *)
Lemma survivor_spec s k mo vs thr t raw : is_view s k mo vs ->
  (t, raw) ∈ survivors thr vs <-> has_version s k t raw /\ (thr <t t \/ (newest_at s k thr ts0 t raw /\ tombstone raw = false)).
Proof.
  intros [Hv Hvs]. pose proof Hvs as [Hs Hval]. destruct (from_ts_split thr vs) as [Hsp Hhi]. rewrite Forall_forall in Hhi.
  pose proof (from_ts_le thr vs Hs) as Hle. rewrite Forall_forall in Hle. rewrite (has_version_view s k mo vs t raw Hv Hvs).
  assert (Hnew : newest vs thr ts0 = head (from_ts thr vs)).
  { assert (Hnone : newest (above thr vs) thr ts0 = None).
    { apply first_none, Forall_forall. intros v Hin. specialize (Hhi v Hin). cbn in Hhi. destruct (LessEq v.1 thr) eqn:E; [tsb; ts_lia|done]. }
    rewrite Hsp at 1. rewrite newest_app, Hnone. apply newest_above_all, Forall_forall. exact Hle. }
  unfold survivors. rewrite elem_of_app. split.
  - intros [Hin|Hin].
    + split; [rewrite Hsp; apply elem_of_app; by left|left; exact (Hhi _ Hin)].
    + destruct (from_ts thr vs) as [|v rest] eqn:Ef; [by apply not_elem_of_nil in Hin|]. destruct (tombstone v.2) eqn:Et; [by apply not_elem_of_nil in Hin|].
      apply list_elem_of_singleton in Hin as <-. split; [rewrite Hsp; apply elem_of_app; right; by left|right]. split; [|done]. by eapply newest_some.
  - intros [Hin [Hgt|[Hnw Ht]]].
    + left. rewrite Hsp in Hin. apply elem_of_app in Hin as [|Hin]; [done|]. specialize (Hle _ Hin). cbn in Hle. ts_lia.
    + right. destruct (from_ts thr vs) as [|v rest] eqn:Ef; cbn [head] in Hnew.
      * exfalso. apply (newest_none s k mo vs thr ts0 Hv Hvs) in Hnew. destruct Hnw as (Hh & Hlt & Hne & _). apply Hne. by eapply Hnew.
      * destruct v as [t' raw']. pose proof (newest_some _ _ _ _ _ _ _ _ Hv Hvs Hnew) as Hn'. destruct (newest_at_fun _ _ _ _ _ _ _ _ Hnw Hn') as [-> ->].
        cbn [snd]. rewrite Ht. by apply list_elem_of_singleton.
Qed.


Lemma sub_drop {A} n (l : list A) : drop n l ⊆ l.
Proof. intros y Hy. rewrite <- (take_drop n l). apply elem_of_app. by right. Qed.
Lemma sub_take {A} n (l : list A) : take n l ⊆ l.
Proof. intros y Hy. rewrite <- (take_drop n l). apply elem_of_app. by left. Qed.
Lemma gc_chunks_sub size fuel : forall versions records ch, ch ∈ gc_chunks fuel size versions records -> ch.1 ⊆ versions /\ ch.2 ⊆ records.
Proof.
  induction fuel as [|fuel IH]; intros versions records ch; cbn [gc_chunks]; [by intros ?%not_elem_of_nil|].
  assert (Htail : ch ∈ gc_chunks fuel size (drop size versions) (drop (size - length (take size versions)) records) -> ch.1 ⊆ versions /\ ch.2 ⊆ records).
  { intros [H1 H2]%IH. split; (etransitivity; [eassumption|apply sub_drop]). }
  assert (Hhead : take size versions ⊆ versions /\ take (size - length (take size versions)) records ⊆ records) by (split; apply sub_take).
  destruct versions, records; [by intros ?%not_elem_of_nil|..]; (intros [->|H]%elem_of_cons; [exact Hhead|exact (Htail H)]).
Qed.

(** Every key of a write set is in a batch. *)
Lemma resolve_batches_all tr fuel : forall ks k, (length ks <= fuel)%nat -> k ∈ ks -> exists batch, batch ∈ resolve_batches fuel tr ks /\ resolve_request tr k ∈ batch.
Proof.
  induction fuel as [|fuel IH]; intros ks k Hf Hk; [destruct ks; [by apply not_elem_of_nil in Hk|cbn in Hf; lia]|].
  cbn [resolve_batches]. destruct ks as [|k0 ks]; [by apply not_elem_of_nil in Hk|]. rewrite <- (take_drop resolveChunk (k0 :: ks)) in Hk. apply elem_of_app in Hk as [Hk|Hk].
  - eexists. split; [by left|]. apply list_elem_of_In, in_map, list_elem_of_In, Hk.
  - destruct (IH (drop resolveChunk (k0 :: ks)) k) as (batch & Hb & Hin); [rewrite length_drop; unfold resolveChunk; cbn [length] in *; lia|done|].
    exists batch. split; [by right|done].
Qed.


(** C0: Chunking can bring a deleted row back.  When the [size]-th version that
    a pass lists is a key's newest, a tombstone, and the next is the older value
    beneath it (the enumeration lists newest first), the first request of
    [runGC] deletes the tombstone and keeps the value: until the next request
    is applied, a read above the threshold that found nothing returns the
    deleted value. *)
Theorem gc_chunk_resurrects pb size current s desc thr send pre v1 v2 post n live work k data ts b :
  store_wf s -> IsLocal k = false -> ts_ok ts -> current <t thr -> thr <t ts -> intent_of s k = None -> b_store b = s ->
  enumerateGarbageVersions pb s desc thr false None = Ok (pre ++ v1 :: v2 :: post, n, live) ->
  enumerateGarbageTxnRecords pb s desc thr live = Ok work ->
  S (length pre) = size -> Forall (fun v => gvKey v <> k) pre -> gvKey v1 = k -> gvKey v2 = k ->
  ts_valid (gvTS v1) -> ts_valid (gvTS v2) -> gvTS v2 <t gvTS v1 -> gvTS v1 <=t thr ->
  st_get s (vkey k (gvTS v1)) = Some (encodeMVCCValue [] true) ->
  st_get s (vkey k (gvTS v2)) = Some (encodeMVCCValue data false) ->
  (forall t raw, has_version s k t raw -> t = gvTS v1 \/ t <=t gvTS v2) ->
  exists first rest, runGC pb size current s desc thr false None send = Ok (first :: rest) /\
    MVCCGet pb s k ts plain_read = Ok None /\
    MVCCGet pb (b_store (evalGC b first)) k ts plain_read = Ok (append_nil data).
Proof.
  intros Hwf Hl Ht Hcur Hthr Hi Hb He Hw Hsz Hpre Hk1 Hk2 Hv1 Hv2 Hlt Hle H1 H2 Hall. set (versions := pre ++ v1 :: v2 :: post) in *.
  assert (Hlen : length (take size versions) = size) by (rewrite length_take; subst versions; rewrite length_app; cbn [length]; lia).
  unfold runGC. destruct (LessEq thr current) eqn:El; [tsb; ts_lia|]. rewrite He. cbn [rmap_err rbind]. rewrite Hw. cbn [rbind]. set (records := map gtrKey _).
  assert (Hch : exists rest, gc_chunks (length versions + length records) size versions records = (take size versions, []) :: rest).
  { assert (Hn : exists m, (length versions + length records = S m)%nat) by (exists (length pre + S (length post) + length records)%nat; subst versions; rewrite length_app; cbn [length]; lia).
    destruct Hn as [m ->]. cbn [gc_chunks]. rewrite Hlen, Nat.sub_diag. cbn [take]. destruct versions as [|v vs] eqn:Ev; [by destruct pre|eauto]. }
  destruct Hch as [rest ->]. eexists _, _. split; [reflexivity|].
  destruct (prefix_resurrects pb s thr size pre v1 v2 post k data ts) as [Hr1 Hr2]; [done..|]. split; [done|].
  unfold evalGC, gc_request, delete_records. cbn [b_store b_with_store gcVersions gcTxnRecordKeys fst snd fold_left]. by rewrite Hb.
Qed.

End RecordGC.

(** ** Witnesses, on the map engine *)

(** A deleted row: its value at 5 and a tombstone at 8. *)
Definition ex_deleted : Batch := (MVCCDeleteCommitted ex_key (mkTs 8 0) ex_batch).1.
Definition ex_deleted_K : kstate := mkK None [(mkTs 8 0, encodeMVCCValue [] true); (mkTs 5 0, [1; 7])].
Definition ex_range : RangeDescriptor := mkRange 1 [4] [5] [] 0 0.

Lemma ex_deleted_ok : store_ok (b_store ex_deleted) /\ models (b_store ex_deleted) ex_key ex_deleted_K.
Proof.
  destruct ex_batch_ok as [Hs HK]. destruct ex_key_ok as [Hl Hk].
  pose proof (mvccWriteCommitted_refines ex_batch ex_key ex_K (mkTs 8 0) [] true (proj1 Hs) HK Hl Hk ltac:(by apply ex_ts_valid)) as Hr.
  split; [|exact (proj1 (proj2 (proj2 Hr)))].
  eapply (refines_store_ok ex_batch); [done|done|exact Hr|]. intros K'. apply ref_write_committed_ok.
Qed.


Lemma gc_chunk_resurrects_witness :
  exists first rest, runGC true 1 ts0 (b_store ex_deleted) ex_range (mkTs 8 0) false None None = Ok (first :: rest) /\
  MVCCGet true (b_store ex_deleted) ex_key (mkTs 9 0) plain_read = Ok None /\
  MVCCGet true (b_store (evalGC ex_deleted first)) ex_key (mkTs 9 0) plain_read = Ok (Some [7]).
Proof.
  apply (gc_chunk_resurrects true 1 ts0 (b_store ex_deleted) ex_range (mkTs 8 0) None []
    (mkGCVersion ex_key (mkTs 8 0) 17) (mkGCVersion ex_key (mkTs 5 0) 18) [] 0 ∅ [] ex_key [7] (mkTs 9 0) ex_deleted).
  - apply ex_deleted_ok.
  - reflexivity.
  - by apply ex_ts_valid.
  - ts_lia.
  - ts_lia.
  - vm_compute. reflexivity.
  - reflexivity.
  - vm_compute. reflexivity.
  - vm_compute. reflexivity.
  - reflexivity.
  - constructor.
  - reflexivity.
  - reflexivity.
  - by apply ex_ts_valid.
  - by apply ex_ts_valid.
  - cbn. ts_lia.
  - cbn. ts_lia.
  - vm_compute. reflexivity.
  - vm_compute. reflexivity.
  - intros t raw [Hv Hg]. destruct (proj2 ex_deleted_ok) as (mo & Hview & _).
    apply (is_view_version _ _ _ _ t raw Hview Hv) in Hg. cbn [ex_deleted_K k_versions] in Hg.
    apply elem_of_cons in Hg as [[= -> _]|Hg]; [by left|]. apply list_elem_of_singleton in Hg as [= -> _]. right. cbn. ts_lia.
Defined.

(** A committed record with a write set, anchored in the range. *)
Definition ex_anchored : Transaction := mkTxn (mkTxnMeta (repeat 7 16) ex_key 0 (mkTs 6 0) (mkTs 6 0) 1 0 0 false) [] COMMITTED
  (mkTs 6 0) (mkTs 6 0) [[4; 2]] uuid_Nil [] [].
Definition ex_recorded : Batch := (putTxnRecord (txnRecordKey (tMeta ex_anchored)) ex_anchored ex_batch).1.
(** A sender that accepts the batches of commit resolutions. *)
Definition ex_sender (batch : list ResolveIntentRequest) : bool :=
  forallb (fun r => match riStatus r with COMMITTED => true | _ => false end) batch.

