(* ===== verification/Latch.v ===== *)
(** * Span latches (pkg/kvserver/latch.go)

    The latch manager serializes overlapping requests on a range.  A latch is
    a pointer in the code: [lid] is its identity.  Its [done] channel, on
    which a waiter sleeps, is the release event of the model's schedules.
    The manager's mutex makes [findConflict] followed by [insert] one step,
    and [remove] one step; the step relation interleaves them. *)

From S2P Require Import Prelude Encoding Hlc Keys MvccKey Pebble Enginepb Mvcc Kvpb.

Open Scope Z_scope.

Inductive latchMode := latchShared | latchExclusive.
#[export] Instance latchMode_eq_dec : EqDecision latchMode.
Proof. solve_decision. Defined.

(** [sEnd = None] (nil) is the point span of [sStart]. *)
Record latchSpan := mkSpan { sStart : bytes; sEnd : option bytes }.
#[export] Instance latchSpan_eq_dec : EqDecision latchSpan.
Proof. solve_decision. Defined.

Definition overlaps (s o : latchSpan) : bool :=
  match sEnd s, sEnd o with
  | None, None => beqb (sStart s) (sStart o)
  | None, Some oe => bleb (sStart o) (sStart s) && bltb (sStart s) oe
  | Some se, None => bleb (sStart s) (sStart o) && bltb (sStart o) se
  | Some se, Some oe => bltb (sStart s) oe && bltb (sStart o) se
  end.

Definition is_ranged (sp : latchSpan) : bool := match sEnd sp with Some _ => true | None => false end.

Record latch := mkLatch { lid : N; lspans : list latchSpan; lmode : latchMode; lranged : bool }.
#[export] Instance latch_eq_dec : EqDecision latch.
Proof. solve_decision. Defined.

(** The sets of pointers [held] and [ranged], and the index by point key. *)
Record latchManager := mkManager {
  held : gmap N latch; points : gmap (list Z) (list latch); ranged : gmap N latch }.

Definition newLatchManager : latchManager := mkManager ∅ ∅ ∅.

(** The latch [Acquire] allocates. *)
Definition new_latch (id : N) (spans : list latchSpan) (mode : latchMode) : latch :=
  mkLatch id spans mode (existsb is_ranged spans).

Definition insert (m : latchManager) (l : latch) : latchManager :=
  mkManager (<[lid l := l]> (held m))
    (fold_left (fun ps sp => if is_ranged sp then ps else <[sStart sp := lookup_list (sStart sp) ps ++ [l]]> ps)
       (lspans l) (points m))
    (if lranged l then <[lid l := l]> (ranged m) else ranged m).

Definition remove_point (l : latch) (ps : gmap (list Z) (list latch)) (sp : latchSpan) : gmap (list Z) (list latch) :=
  if is_ranged sp then ps
  else
    let n := filter (fun h => lid h <> lid l) (lookup_list (sStart sp) ps) in
    if (length n =? 0)%nat then delete (sStart sp) ps else <[sStart sp := n]> ps.

Definition remove (m : latchManager) (l : latch) : latchManager :=
  mkManager (delete (lid l) (held m)) (fold_left (remove_point l) (lspans l) (points m)) (delete (lid l) (ranged m)).

Definition conflicts (l h : latch) : bool :=
  bool_decide (lmode l = latchExclusive) || bool_decide (lmode h = latchExclusive).

Section FindConflict.
Context `{MapRange}.

(** What one span of the request finds. *)
Definition span_conflict (m : latchManager) (l : latch) (ls : latchSpan) : option latch :=
  if is_ranged ls then
    find (fun h => conflicts l h && existsb (fun hs => overlaps hs ls) (lspans h)) (map snd (range_map (held m)))
  else
    match find (conflicts l) (lookup_list (sStart ls) (points m)) with
    | Some h => Some h
    | None =>
        find (fun h => conflicts l h && existsb (fun hs => is_ranged hs && overlaps hs ls) (lspans h))
          (map snd (range_map (ranged m)))
    end.

Fixpoint find_conflict (m : latchManager) (l : latch) (spans : list latchSpan) : option latch :=
  match spans with
  | [] => None
  | ls :: spans => match span_conflict m l ls with Some h => Some h | None => find_conflict m l spans end
  end.
Definition findConflict (m : latchManager) (l : latch) : option latch := find_conflict m l (lspans l).

(** One pass of [Acquire]'s loop: the latch taken, or the holder to wait for. *)
Definition try_acquire (m : latchManager) (l : latch) : latchManager + latch :=
  match findConflict m l with None => inl (insert m l) | Some h => inr h end.

(** [Acquire] among the releases of other requests: [wait] is what happened
    to the manager by the time the holder waited for has been released. *)
Fixpoint Acquire (fuel : nat) (wait : latchManager -> latch -> latchManager) (m : latchManager) (l : latch)
    : option latchManager :=
  match fuel with
  | O => None
  | S fuel => match try_acquire m l with inl m' => Some m' | inr h => Acquire fuel wait (wait m h) l end
  end.
End FindConflict.

(** [latchGuard.Release], with its [sync.Once]. *)
Record latchGuard := mkGuard { gLatch : latch; gDone : bool }.
Definition Release (m : latchManager) (g : latchGuard) : latchManager * latchGuard :=
  if gDone g then (m, g) else (remove m (gLatch g), mkGuard (gLatch g) true).

Definition wholeRangeSpan : latchSpan := mkSpan MinKey (Some MaxKey).

(** The span one request latches; a request without contents none. *)
Definition request_span (u : RequestUnion) : result addr_err (option latchSpan) :=
  match GetInner u with
  | None => Ok None
  | Some req =>
      let h := Header req in
      let* start := Addr (hKey h) in
      if (0 <? length (hEndKey h))%nat then
        let* end_ := Addr (hEndKey h) in Ok (Some (mkSpan start (Some end_)))
      else Ok (Some (mkSpan start None))
  end.

Fixpoint request_spans (us : list RequestUnion) : result addr_err (list latchSpan) :=
  match us with
  | [] => Ok []
  | u :: us =>
      let* o := request_span u in
      let* spans := request_spans us in
      Ok (match o with Some sp => sp :: spans | None => spans end)
  end.

Definition latchSpans (ba : BatchRequest) : result addr_err (list latchSpan * latchMode) :=
  let mode := if BatchRequest_IsReadOnly ba then latchShared else latchExclusive in
  let* spans := request_spans (baRequests ba) in
  Ok (spans, mode).

(** ** Spans *)

Definition covers (sp : latchSpan) (k : bytes) : Prop :=
  match sEnd sp with None => k = sStart sp | Some e => sStart sp ≼ k /\ k ≺ e end.
(** A span is degenerate when it is a range with no key in it. *)
Definition proper_span (sp : latchSpan) : Prop := match sEnd sp with None => True | Some e => sStart sp ≺ e end.

Lemma overlaps_covers s o k : covers s k -> covers o k -> overlaps s o = true.
Proof.
  unfold covers, overlaps. destruct (sEnd s) as [se|], (sEnd o) as [oe|]; intros H1 H2.
  - destruct H1, H2. apply andb_true_iff. rewrite !bltb_lt. eauto using ble_lt_trans.
  - subst. by rewrite andb_true_iff, bleb_le, bltb_lt.
  - subst. by rewrite andb_true_iff, bleb_le, bltb_lt.
  - subst. apply beqb_eq. congruence.
Qed.

(** Spans that hold a key overlap only if they share one. *)
Lemma overlaps_shared s o : proper_span s -> proper_span o -> overlaps s o = true -> exists k, covers s k /\ covers o k.
Proof.
  unfold proper_span, covers, overlaps. intros Hs Ho.
  destruct (sEnd s) as [se|], (sEnd o) as [oe|]; rewrite ?andb_true_iff, ?bltb_lt, ?bleb_le, ?beqb_eq.
  - intros [H1 H2]. destruct (decide (sStart s ≼ sStart o)) as [Hc|Hc]; [by exists (sStart o); eauto with datax|].
    exists (sStart s). apply blt_not_le in Hc. eauto 6 with datax.
  - intros [H1 H2]. by exists (sStart o).
  - intros [H1 H2]. by exists (sStart s).
  - intros E. by exists (sStart s).
Qed.

Lemma overlaps_sym s o : overlaps s o = overlaps o s.
Proof.
  unfold overlaps. destruct (sEnd s), (sEnd o); [apply andb_comm|done..|].
  apply eq_true_iff_eq. by rewrite !beqb_eq.
Qed.

(** A span of one point covers only it. *)
Lemma is_ranged_false sp : is_ranged sp = false -> sp = mkSpan (sStart sp) None.
Proof. by destruct sp as [? []]. Qed.

(** ** The index *)

(** At least one of the two writes and they meet on some span. *)
Definition clash (l h : latch) : Prop :=
  conflicts l h = true /\ exists ls hs, ls ∈ lspans l /\ hs ∈ lspans h /\ overlaps hs ls = true.

Lemma conflicts_sym l h : conflicts l h = conflicts h l.
Proof. apply orb_comm. Qed.

Lemma clash_sym l h : clash l h -> clash h l.
Proof.
  intros [Hc (ls & hs & H1 & H2 & Ho)]. split; [by rewrite conflicts_sym|]. exists hs, ls. by rewrite overlaps_sym.
Qed.

Record index_ok (m : latchManager) : Prop := {
  io_held i l : held m !! i = Some l -> lid l = i /\ lranged l = existsb is_ranged (lspans l);
  io_ranged i l : ranged m !! i = Some l <-> held m !! i = Some l /\ lranged l = true;
  io_points k (h : latch) : h ∈ lookup_list k (points m) <-> held m !! lid h = Some h /\ mkSpan k None ∈ lspans h }.

Lemma lookup_list_insert {V} (k k' : bytes) (vs : list V) (ps : gmap (list Z) (list V)) :
  lookup_list k' (<[k := vs]> ps) = if decide (k = k') then vs else lookup_list k' ps.
Proof.
  unfold lookup_list. case_decide as E; [subst; by rewrite lookup_insert, decide_True|by rewrite lookup_insert_ne].
Qed.

Lemma lookup_list_delete {V} (k k' : bytes) (ps : gmap (list Z) (list V)) :
  lookup_list k' (delete k ps) = if decide (k = k') then [] else lookup_list k' ps.
Proof.
  unfold lookup_list. case_decide as E; [subst; by rewrite lookup_delete, decide_True|by rewrite lookup_delete_ne].
Qed.

Lemma insert_points (l : latch) k (h : latch) spans : forall ps : gmap (list Z) (list latch),
  h ∈ lookup_list k (fold_left (fun ps sp => if is_ranged sp then ps else <[sStart sp := lookup_list (sStart sp) ps ++ [l]]> ps)
       spans ps) <-> h ∈ lookup_list k ps \/ (h = l /\ mkSpan k None ∈ spans).
Proof.
  induction spans as [|sp spans IH]; intros ps; cbn [fold_left]; [set_solver|]. rewrite IH, elem_of_cons.
  destruct (is_ranged sp) eqn:Er.
  - assert (mkSpan k None <> sp) by (intros <-; discriminate). naive_solver.
  - rewrite (is_ranged_false _ Er). cbn [sStart]. rewrite lookup_list_insert.
    case_decide as E; [subst; rewrite elem_of_app, list_elem_of_singleton; naive_solver|].
    assert (mkSpan k None <> mkSpan (sStart sp) None) by congruence. naive_solver.
Qed.

Lemma remove_point_elem l k h sp ps :
  h ∈ lookup_list k (remove_point l ps sp) <-> h ∈ lookup_list k ps /\ (lid h <> lid l \/ mkSpan k None <> sp).
Proof.
  unfold remove_point. destruct (is_ranged sp) eqn:Er.
  - assert (mkSpan k None <> sp) by (intros <-; discriminate). naive_solver.
  - rewrite (is_ranged_false _ Er). cbn [sStart]. set (n := filter _ _).
    assert (Hn : h ∈ n <-> lid h <> lid l /\ h ∈ lookup_list (sStart sp) ps) by (unfold n; by rewrite list_elem_of_filter).
    destruct (Nat.eqb_spec (length n) 0) as [E0|_]; [apply nil_length_inv in E0|];
      rewrite ?lookup_list_delete, ?lookup_list_insert; (case_decide as E; [subst k|]).
    + rewrite E0 in Hn. naive_solver.
    + assert (mkSpan k None <> mkSpan (sStart sp) None) by congruence. naive_solver.
    + naive_solver.
    + assert (mkSpan k None <> mkSpan (sStart sp) None) by congruence. naive_solver.
Qed.

Lemma remove_points l k (h : latch) spans : forall ps : gmap (list Z) (list latch),
  h ∈ lookup_list k (fold_left (remove_point l) spans ps) <->
  h ∈ lookup_list k ps /\ (lid h <> lid l \/ mkSpan k None ∉ spans).
Proof.
  induction spans as [|sp spans IH]; intros ps; cbn [fold_left]; [set_solver|].
  rewrite IH, remove_point_elem, not_elem_of_cons. tauto.
Qed.

Lemma index_ok_new : index_ok newLatchManager.
Proof.
  split; cbn; [done| |].
  - intros i l. rewrite lookup_empty. naive_solver.
  - intros k h. unfold lookup_list. rewrite !lookup_empty. cbn. set_solver.
Qed.

Lemma index_ok_insert m l :
  index_ok m -> held m !! lid l = None -> lranged l = existsb is_ranged (lspans l) -> index_ok (insert m l).
Proof.
  intros [H1 H2 H3] Hf Hr. split; cbn [insert held points ranged].
  - intros i h. rewrite lookup_insert_Some. intros [[<- <-]|[_ Hh]]; [done|by apply H1].
  - intros i h. rewrite lookup_insert_Some. destruct (lranged l) eqn:E; rewrite ?lookup_insert_Some, H2; [intuition congruence|].
    split; [|intuition congruence]. intros [Hh ?]. split; [|done]. right. split; [|done]. intros <-. congruence.
  - intros k h. rewrite insert_points, H3, lookup_insert_Some. split.
    + intros [[Hh ?]|[-> ?]]; [|by split; [left|]]. split; [|done]. right. split; [|done]. intros E. rewrite <- E in Hh. congruence.
    + intros [[[_ ->]|[_ ?]] ?]; [by right|by left].
Qed.

Lemma index_ok_remove m l : index_ok m -> held m !! lid l = Some l -> index_ok (remove m l).
Proof.
  intros [H1 H2 H3] Hl. split; cbn [remove held points ranged].
  - intros i h. rewrite lookup_delete_Some. intros [_ Hh]. by apply H1.
  - intros i h. rewrite !lookup_delete_Some, H2. tauto.
  - intros k h. rewrite remove_points, H3, lookup_delete_Some. split; [|intuition congruence].
    intros [[Hh Hs] Hc]. split; [|done]. split; [|done]. intros E. destruct Hc as [Hc|Hc]; [congruence|].
    apply Hc. rewrite <- E in Hh. assert (h = l) as -> by congruence. done.
Qed.

Section Conflict.
Context `{MapRange}.

Lemma find_none {A} (f : A -> bool) l : find f l = None <-> forall x, x ∈ l -> f x = false.
Proof.
  split; [intros Hf x Hx; eapply find_none; [done|by apply list_elem_of_In]|].
  induction l as [|x l IH]; intros Hl; [done|]. cbn [find]. rewrite Hl by apply list_elem_of_here.
  apply IH. intros y Hy. by apply Hl, list_elem_of_further.
Qed.

Lemma find_elem {A} (f : A -> bool) l x : find f l = Some x -> x ∈ l /\ f x = true.
Proof. intros Hf. apply find_some in Hf as [? ?]. by rewrite list_elem_of_In. Qed.

Lemma elem_of_range (m : gmap N latch) (h : latch) : h ∈ map snd (range_map m) <-> exists i, m !! i = Some h.
Proof.
  rewrite list_elem_of_In, in_map_iff. split.
  - intros ([i h'] & <- & Hin). exists i. by apply elem_of_range_map, list_elem_of_In.
  - intros (i & Hi). exists (i, h). split; [done|]. by apply list_elem_of_In, elem_of_range_map.
Qed.

Lemma existsb_elem {A} (f : A -> bool) l : existsb f l = true <-> exists x, x ∈ l /\ f x = true.
Proof. rewrite existsb_exists. by setoid_rewrite list_elem_of_In. Qed.

(** A span finds a holder exactly when one clashes with it. *)
Lemma span_conflict_some m l ls h :
  index_ok m -> span_conflict m l ls = Some h ->
  held m !! lid h = Some h /\ conflicts l h = true /\ exists hs, hs ∈ lspans h /\ overlaps hs ls = true.
Proof.
  intros [H1 H2 H3]. unfold span_conflict. destruct (is_ranged ls) eqn:Er.
  - intros Hf. apply find_elem in Hf as [Hin Hb]. apply elem_of_range in Hin as (i & Hi). destruct (H1 i h Hi) as [<- _].
    apply andb_true_iff in Hb as [Hc Hs]. by apply existsb_elem in Hs.
  - destruct (find _ (lookup_list _ _)) as [h'|] eqn:Ef.
    + intros [= ->]. apply find_elem in Ef as [Hin Hc]. apply H3 in Hin as [Hh Hs]. split_and!; [done..|].
      eexists. split; [done|]. rewrite (is_ranged_false _ Er). by apply (overlaps_covers _ _ (sStart ls)).
    + intros Hf. apply find_elem in Hf as [Hin Hb]. apply elem_of_range in Hin as (i & Hi). apply H2 in Hi as [Hi _].
      destruct (H1 i h Hi) as [<- _]. apply andb_true_iff in Hb as [Hc Hs]. apply existsb_elem in Hs as (hs & ? & Hs).
      apply andb_true_iff in Hs as [_ ?]. eauto.
Qed.

Lemma span_conflict_none m l ls h :
  index_ok m -> span_conflict m l ls = None -> held m !! lid h = Some h -> conflicts l h = true ->
  forall hs, hs ∈ lspans h -> overlaps hs ls = false.
Proof.
  intros [H1 H2 H3] Hn Hh Hc hs Hs. apply not_true_iff_false. intros Ho. revert Hn. unfold span_conflict.
  destruct (is_ranged ls) eqn:Er.
  - rewrite find_none. intros Hf. specialize (Hf h). rewrite Hc in Hf. cbn [andb] in Hf.
    apply not_true_iff_false in Hf; [|by apply elem_of_range; eauto]. apply Hf, existsb_elem. eauto.
  - destruct (find _ (lookup_list _ _)) eqn:Ef; [done|]. rewrite find_none in Ef. rewrite find_none. intros Hf.
    destruct (is_ranged hs) eqn:Eh.
    + specialize (Hf h). rewrite Hc in Hf. cbn [andb] in Hf. apply not_true_iff_false in Hf.
      * apply Hf, existsb_elem. exists hs. by rewrite Eh, Ho.
      * apply elem_of_range. exists (lid h). apply H2. split; [done|]. destruct (H1 _ _ Hh) as [_ ->].
        apply existsb_elem. eauto.
    + apply is_ranged_false in Eh, Er. rewrite Eh, Er in Ho. apply beqb_eq in Ho. cbn in Ho.
      specialize (Ef h). rewrite Hc in Ef. discriminate Ef. apply H3. split; [done|]. by rewrite <- Ho, <- Eh.
Qed.

(** [findConflict] is exact: it returns a holder that clashes with the
    request, and none only when no holder does. *)
Lemma findConflict_spec m l :
  index_ok m ->
  match findConflict m l with
  | Some h => held m !! lid h = Some h /\ clash l h
  | None => forall h, held m !! lid h = Some h -> ~ clash l h
  end.
Proof.
  intros Hix. unfold findConflict.
  assert (Hg : forall spans, (forall sp, sp ∈ spans -> sp ∈ lspans l) ->
    match find_conflict m l spans with
    | Some h => held m !! lid h = Some h /\ clash l h
    | None => forall h, held m !! lid h = Some h -> conflicts l h = true ->
        forall ls hs, ls ∈ spans -> hs ∈ lspans h -> overlaps hs ls = false
    end).
  { induction spans as [|ls spans IH]; intros Hsub; cbn [find_conflict]; [set_solver|].
    destruct (span_conflict m l ls) as [h|] eqn:E.
    - apply span_conflict_some in E as (Hh & Hc & hs & Hs & Ho); [|done]. split; [done|]. split; [done|].
      exists ls, hs. split_and!; [|done..]. apply Hsub, list_elem_of_here.
    - assert (Hsub' : forall sp, sp ∈ spans -> sp ∈ lspans l) by (intros; apply Hsub; by apply list_elem_of_further).
      specialize (IH Hsub'). destruct (find_conflict m l spans); [done|].
      intros h Hh Hc ls' hs Hin Hs. apply elem_of_cons in Hin as [->|Hin]; [by eapply span_conflict_none|by eapply IH]. }
  specialize (Hg (lspans l) (fun _ H => H)). destruct (find_conflict m l (lspans l)); [done|].
  intros h Hh [Hc (ls & hs & Hl & Hs & Ho)]. rewrite (Hg h Hh Hc ls hs Hl Hs) in Ho. discriminate.
Qed.

(** The scan of every holder the index replaces. *)
Definition scan_conflict (m : latchManager) (l : latch) : bool :=
  existsb (fun h => conflicts l h && existsb (fun ls => existsb (fun hs => overlaps hs ls) (lspans h)) (lspans l))
    (map snd (map_to_list (held m))).

Lemma scan_conflict_clash m l :
  index_ok m -> scan_conflict m l = true <-> exists h, held m !! lid h = Some h /\ clash l h.
Proof.
  intros Hix. unfold scan_conflict, clash. rewrite existsb_elem. split.
  - intros (h & Hin & Hb). apply list_elem_of_In, in_map_iff in Hin as ([i h'] & <- & Hin). apply list_elem_of_In, elem_of_map_to_list in Hin.
    cbn [snd] in *. apply andb_true_iff in Hb as [Hc Hb]. apply existsb_elem in Hb as (ls & Hl & Hb).
    apply existsb_elem in Hb as (hs & Hs & Ho). exists h'. destruct (io_held _ Hix i h' Hin) as [<- _]. eauto 10.
  - intros (h & Hh & Hc & ls & hs & Hl & Hs & Ho). exists h. split.
    + apply list_elem_of_In, in_map_iff. exists (lid h, h). split; [done|]. by apply list_elem_of_In, elem_of_map_to_list.
    + rewrite Hc. apply existsb_elem. exists ls. split; [done|]. apply existsb_elem. eauto.
Qed.

(** ** The manager as a state machine *)

(** Requests take latches whose pointers are new, and release held ones. *)
Inductive latch_step : latchManager -> latchManager -> Prop :=
| step_acquire m m' id spans mode :
    held m !! id = None -> try_acquire m (new_latch id spans mode) = inl m' -> latch_step m m'
| step_release m l : held m !! lid l = Some l -> latch_step m (remove m l).

Definition reachable (m : latchManager) : Prop := rtc latch_step newLatchManager m.

Definition exclusive (m : latchManager) : Prop :=
  forall l h, held m !! lid l = Some l -> held m !! lid h = Some h -> lid l <> lid h -> ~ clash l h.

Lemma try_acquire_inl m l m' : try_acquire m l = inl m' -> findConflict m l = None /\ m' = insert m l.
Proof. unfold try_acquire. destruct (findConflict m l); [done|]. by intros [= <-]. Qed.

Lemma step_inv m m' : latch_step m m' -> index_ok m -> exclusive m -> index_ok m' /\ exclusive m'.
Proof.
  intros Hst Hix Hex. destruct Hst as [m m' id spans mode Hf Ht|m l Hl].
  - set (n := new_latch id spans mode) in *. apply try_acquire_inl in Ht as [Hn ->]. split; [by apply index_ok_insert|].
    pose proof (findConflict_spec m n Hix) as Hs. rewrite Hn in Hs. change (lid n) with id in *.
    intros l h. cbn [insert held]. rewrite !lookup_insert_Some. intros [[? <-]|[? Hl]] [[? <-]|[? Hh]] Hne.
    + done.
    + by apply Hs.
    + intros Hc. apply clash_sym in Hc. by eapply Hs.
    + by apply Hex.
  - split; [by apply index_ok_remove|]. intros a b. cbn [remove held]. rewrite !lookup_delete_Some.
    intros [_ ?] [_ ?]. by apply Hex.
Qed.

Lemma reachable_inv m : reachable m -> index_ok m /\ exclusive m.
Proof.
  intros Hr. apply (rtc_ind_r (R := latch_step) (fun m => index_ok m /\ exclusive m) newLatchManager); [|by intros y z _ Hst [? ?]; eapply step_inv|done].
  split; [apply index_ok_new|]. intros l h Hl. cbn in Hl. by rewrite lookup_empty in Hl.
Qed.

(** C18: Latches exclude.  In every state the manager can reach, two latches
    held at once that cover a common key are both shared: a writer holds its
    keys alone, whatever mix of point and range spans is held. *)
Theorem latch_exclusion m i j l h k :
  reachable m -> held m !! i = Some l -> held m !! j = Some h -> i <> j ->
  (exists sp, sp ∈ lspans l /\ covers sp k) -> (exists sp, sp ∈ lspans h /\ covers sp k) ->
  lmode l = latchShared /\ lmode h = latchShared.
Proof.
  intros Hr Hl Hh Hne (ls & Hls & Hlk) (hs & Hhs & Hhk). destruct (reachable_inv m Hr) as [Hix Hex].
  destruct (io_held _ Hix _ _ Hl) as [<- _], (io_held _ Hix _ _ Hh) as [<- _].
  destruct (conflicts l h) eqn:Ec.
  - exfalso. apply (Hex l h Hl Hh Hne). split; [done|]. exists ls, hs. split_and!; [done..|]. by eapply overlaps_covers.
  - unfold conflicts in Ec. apply orb_false_iff in Ec as [E1 E2]. apply bool_decide_eq_false in E1, E2.
    by destruct (lmode l), (lmode h).
Qed.

(** The conflict index is exact.  In every reachable state
    [findConflict], which looks points up by key and scans only the holders
    of ranges, finds a holder for a request exactly when the scan of every
    holder against every span would, and the holder it returns (whichever
    the map order yields) is held and conflicts with the request. *)
Theorem findConflict_is_scan m l :
  reachable m ->
  (scan_conflict m l = false <-> findConflict m l = None) /\
  (forall h, findConflict m l = Some h -> held m !! lid h = Some h /\ clash l h).
Proof.
  intros Hr. destruct (reachable_inv m Hr) as [Hix _]. pose proof (findConflict_spec m l Hix) as Hs.
  split; [|by intros h E; rewrite E in Hs]. rewrite <- not_true_iff_false, scan_conflict_clash by done.
  destruct (findConflict m l) as [h|]; [|naive_solver]. split; [|done]. intros Hn. destruct Hn. by exists h.
Qed.

(** What may happen while a request waits for [h]: other requests release
    latches, [h] among them. *)
Definition releases (wait : latchManager -> latch -> latchManager) : Prop :=
  forall m h, reachable m -> held m !! lid h = Some h ->
    reachable (wait m h) /\ held (wait m h) !! lid h = None /\ held (wait m h) ⊆ held m.

Lemma releases_shrink (a b : gmap N latch) i l : b ⊆ a -> a !! i = Some l -> b !! i = None -> (size b < size a)%nat.
Proof.
  intros Hsub Ha Hb. apply map_subset_size. split; [done|]. intros Hab.
  rewrite (lookup_weaken _ _ _ _ Ha Hab) in Hb. discriminate.
Qed.

End Conflict.

(** ** Witnesses *)

(** A reader of a range and a reader of a point in it. *)
Definition ex_reader : latch := new_latch 1 [mkSpan [4] (Some [5])] latchShared.
Definition ex_point : latch := new_latch 2 [mkSpan [4; 1] None] latchShared.
Definition ex_writer : latch := new_latch 3 [mkSpan [7] None; mkSpan [4; 1] None] latchExclusive.
Definition ex_manager : latchManager := insert (insert newLatchManager ex_reader) ex_point.

Lemma ex_manager_reachable : reachable (H := range_to_list) ex_manager.
Proof.
  apply (rtc_l _ _ (insert newLatchManager ex_reader)).
  { by apply (step_acquire (H := range_to_list) newLatchManager _ 1 [mkSpan [4] (Some [5])] latchShared). }
  apply (rtc_l _ _ ex_manager); [|constructor].
  by apply (step_acquire (H := range_to_list) (insert newLatchManager ex_reader) _ 2 [mkSpan [4; 1] None] latchShared).
Qed.

Lemma latch_exclusion_witness : lmode ex_reader = latchShared /\ lmode ex_point = latchShared.
Proof.
  apply (latch_exclusion (H := range_to_list) ex_manager 1%N 2%N ex_reader ex_point [4; 1]).
  - apply ex_manager_reachable.
  - reflexivity.
  - reflexivity.
  - discriminate.
  - exists (mkSpan [4] (Some [5])). split; [apply list_elem_of_here|]. split; [discriminate|reflexivity].
  - exists (mkSpan [4; 1] None). split; [apply list_elem_of_here|reflexivity].
Defined.

Lemma findConflict_is_scan_witness :
  findConflict (H := range_to_list) ex_manager ex_writer = Some ex_point /\
  held ex_manager !! 2%N = Some ex_point /\ clash ex_writer ex_point.
Proof.
  assert (E : findConflict (H := range_to_list) ex_manager ex_writer = Some ex_point) by (vm_compute; reflexivity).
  split; [exact E|].
  destruct (findConflict_is_scan (H := range_to_list) ex_manager ex_writer ex_manager_reachable) as [_ Hs].
  exact (Hs ex_point E).
Defined.

Lemma releases_remove : releases (H := range_to_list) remove.
Proof.
  intros m h Hr Hh. split; [eapply rtc_r; [done|by constructor]|]. cbn [remove held].
  split; [by rewrite lookup_delete, decide_True|apply delete_subseteq].
Qed.

