(* ===== verification/TsCache.v ===== *)
(** * Timestamp cache (pkg/kvserver/tscache.go)

    Which spans of a range were read at which timestamps, so that no write
    lands at or below a timestamp served to a reader of an overlapping span.
    Point reads live in a map, ranged reads in a slice, in two generations;
    when the current one fills, the older folds into a range-wide floor. *)

From S2P Require Import Prelude Encoding Hlc Keys MvccKey Pebble Enginepb Mvcc Kvpb Latch.

Open Scope Z_scope.

Record tsCacheRead := mkRead { rdTS : Timestamp; rdTxnID : uuid }.
Record tsCacheEntry := mkEntry { enSpan : latchSpan; enTS : Timestamp; enTxnID : uuid }.

Record tsCacheGen := mkGen { gPoints : gmap (list Z) tsCacheRead; gRanged : list tsCacheEntry; gN : nat }.
Definition gen0 : tsCacheGen := mkGen ∅ [] 0.

Record tsCache := mkCache { tcFloor : Timestamp; tcCur : tsCacheGen; tcPrev : tsCacheGen }.
Definition tsCache0 : tsCache := mkCache ts0 gen0 gen0.

Definition tsCacheGenerationSize : nat := 4096.

(** [tsCacheGen.record]. *)
Definition gen_record (g : tsCacheGen) (key : bytes) (ts : Timestamp) (txnID : uuid) : tsCacheGen :=
  match gPoints g !! key with
  | None => mkGen (<[key := mkRead ts txnID]> (gPoints g)) (gRanged g) (S (gN g))
  | Some old =>
      if Less (rdTS old) ts then mkGen (<[key := mkRead ts txnID]> (gPoints g)) (gRanged g) (gN g)
      else if Equal (rdTS old) ts && negb (beqb (rdTxnID old) txnID)
      then mkGen (<[key := mkRead ts uuid_Nil]> (gPoints g)) (gRanged g) (gN g)
      else g
  end.

Definition whole_range (sp : latchSpan) : bool :=
  match sEnd sp with
  | None => false
  | Some e => bleb (sStart sp) (sStart wholeRangeSpan) && bleb MaxKey e
  end.

(** The same test as [overlaps], written out again in this file. *)
Definition spansOverlap (a b : latchSpan) : bool :=
  match sEnd a, sEnd b with
  | None, None => beqb (sStart a) (sStart b)
  | None, Some be => bleb (sStart b) (sStart a) && bltb (sStart a) be
  | Some ae, None => bleb (sStart a) (sStart b) && bltb (sStart b) ae
  | Some ae, Some be => bltb (sStart a) be && bltb (sStart b) ae
  end.
Definition overlapsAny (s : latchSpan) (spans : list latchSpan) : bool := existsb (spansOverlap s) spans.

(** One span of [Bump]'s loop. *)
Definition bump_span (ts : Timestamp) (txnID : uuid) (c : tsCache) (sp : latchSpan) : tsCache :=
  match sEnd sp with
  | None => mkCache (tcFloor c) (gen_record (tcCur c) (sStart sp) ts txnID) (tcPrev c)
  | Some _ =>
      if whole_range sp then mkCache ts (tcCur c) (tcPrev c)
      else
        let g := tcCur c in
        mkCache (tcFloor c) (mkGen (gPoints g) (gRanged g ++ [mkEntry sp ts txnID]) (S (gN g))) (tcPrev c)
  end.

Section Cache.
Context `{MapRange}.

(** The older generation folds into the floor. *)
Definition raise (floor ts : Timestamp) : Timestamp := if Less floor ts then ts else floor.
Definition collapse (floor : Timestamp) (g : tsCacheGen) : Timestamp :=
  fold_left (fun f e => raise f (enTS e)) (gRanged g)
    (fold_left (fun f kr => raise f (rdTS kr.2)) (range_map (gPoints g)) floor).

Definition rotate (c : tsCache) : tsCache := mkCache (collapse (tcFloor c) (tcPrev c)) gen0 (tcCur c).

Definition Bump (spans : list latchSpan) (ts : Timestamp) (txnID : uuid) (c : tsCache) : tsCache :=
  if negb (Less (tcFloor c) ts) then c
  else
    let c := fold_left (bump_span ts txnID) spans c in
    if (tsCacheGenerationSize <=? gN (tcCur c))%nat then rotate c else c.

(** Every read the write must be compared with. *)
Definition gen_reads (g : tsCacheGen) (spans : list latchSpan) : list (Timestamp * uuid) :=
  map (fun e => (enTS e, enTxnID e)) (filter (fun e => overlapsAny (enSpan e) spans = true) (gRanged g)) ++
  flat_map (fun w =>
    match sEnd w with
    | None => match gPoints g !! sStart w with Some r => [(rdTS r, rdTxnID r)] | None => [] end
    | Some _ =>
        map (fun kr => (rdTS kr.2, rdTxnID kr.2))
          (filter (fun kr => spansOverlap (mkSpan kr.1 None) w = true) (range_map (gPoints g)))
    end) spans.

(** [note]: the running answer and the running maximum. *)
Definition note (ts : Timestamp) (txnID : uuid) (acc : bool * Timestamp) (r : Timestamp * uuid) : bool * Timestamp :=
  (if Less ts r.1 || (Equal ts r.1 && (beqb txnID uuid_Nil || negb (beqb txnID r.2))) then false else acc.1,
   raise acc.2 r.1).

Definition AllowsWrite (c : tsCache) (spans : list latchSpan) (ts : Timestamp) (txnID : uuid) : bool * Timestamp :=
  fold_left (note ts txnID) (gen_reads (tcPrev c) spans ++ gen_reads (tcCur c) spans) (Less (tcFloor c) ts, tcFloor c).
End Cache.

(** ** What the cache remembers *)

(** A remembered read answers for another of the same key: it is newer, or
    equal with the same reader or none. *)
Definition answers (r q : Timestamp * uuid) : Prop := q.1 <t r.1 \/ (q.1 = r.1 /\ (r.2 = q.2 \/ r.2 = uuid_Nil)).

Definition gen_notes (g : tsCacheGen) (k : bytes) (q : Timestamp * uuid) : Prop :=
  (exists r, gPoints g !! k = Some r /\ answers (rdTS r, rdTxnID r) q) \/
  (exists e, e ∈ gRanged g /\ covers (enSpan e) k /\ answers (enTS e, enTxnID e) q).

Definition notes (c : tsCache) (k : bytes) (q : Timestamp * uuid) : Prop :=
  q.1 <=t tcFloor c \/ gen_notes (tcCur c) k q \/ gen_notes (tcPrev c) k q.

Lemma gen_record_notes g key ts id : gen_notes (gen_record g key ts id) key (ts, id).
Proof.
  left. unfold gen_record. destruct (gPoints g !! key) as [old|] eqn:E.
  - destruct (Less (rdTS old) ts) eqn:El.
    { exists (mkRead ts id). cbn. rewrite lookup_insert, decide_True by done. split; [done|]. right. cbn. tauto. }
    destruct (Equal (rdTS old) ts) eqn:Ee; cbn [andb].
    + apply Equal_eq in Ee. destruct (negb (beqb (rdTxnID old) id)) eqn:Ei.
      * exists (mkRead ts uuid_Nil). cbn. rewrite lookup_insert, decide_True by done. split; [done|]. right. cbn. tauto.
      * apply negb_false_iff, beqb_eq in Ei. exists old. split; [done|]. right. cbn. auto.
    + exists old. split; [done|]. left. cbn. ts_lia.
  - exists (mkRead ts id). cbn. rewrite lookup_insert, decide_True by done. split; [done|]. right. cbn. tauto.
Qed.

Lemma answers_newer r ts id q : answers r q -> r.1 <t ts -> answers (ts, id) q.
Proof. intros [H|[H _]] Hlt; left; cbn in *; ts_lia. Qed.

Lemma answers_merge r q : answers r q -> answers (r.1, uuid_Nil) q.
Proof. intros [H|[H _]]; [by left|]. right. cbn. auto. Qed.

Lemma gen_record_keeps g key ts id k q : gen_notes g k q -> gen_notes (gen_record g key ts id) k q.
Proof.
  intros [(r & Hr & Ha)|(e & He & Hc & Ha)].
  - left. unfold gen_record. destruct (decide (key = k)) as [->|Hne].
    + rewrite Hr. destruct (Less (rdTS r) ts) eqn:El.
      { exists (mkRead ts id). cbn. rewrite lookup_insert, decide_True by done. split; [done|]. tsb. by eapply answers_newer. }
      destruct (Equal (rdTS r) ts && negb (beqb (rdTxnID r) id)) eqn:Ee; [|by exists r].
      apply andb_true_iff in Ee as [Ee _]. apply Equal_eq in Ee. subst ts.
      exists (mkRead (rdTS r) uuid_Nil). cbn. rewrite lookup_insert, decide_True by done. split; [done|].
      by apply (answers_merge (rdTS r, rdTxnID r)).
    + exists r. split; [|done]. destruct (gPoints g !! key); [repeat case_match|]; cbn; by rewrite ?lookup_insert_ne.
  - right. exists e. split; [|done]. unfold gen_record. by repeat case_match.
Qed.

Lemma bump_span_keeps ts id c sp k q : tcFloor c <=t ts -> notes c k q -> notes (bump_span ts id c sp) k q.
Proof.
  intros Hf Hn. unfold bump_span. destruct (sEnd sp); [destruct (whole_range sp)|].
  - destruct Hn as [Hn|Hn]; [left; cbn; ts_lia|by right].
  - destruct Hn as [Hn|[Hn|Hn]]; [by left| |by right; right]. right. left. cbn [tcCur].
    destruct Hn as [Hn|(e & He & Hn)]; [by left|right]. exists e. split; [|done]. cbn. apply elem_of_app. by left.
  - destruct Hn as [Hn|[Hn|Hn]]; [by left| |by right; right]. right. left. by apply gen_record_keeps.
Qed.

Lemma bump_span_notes ts id c sp k : covers sp k -> notes (bump_span ts id c sp) k (ts, id).
Proof.
  unfold covers, bump_span. destruct (sEnd sp) as [e|] eqn:Ee.
  - intros Hc. destruct (whole_range sp); [left; cbn; ts_lia|]. right. left. right. exists (mkEntry sp ts id). cbn.
    split; [apply elem_of_app; right; apply list_elem_of_here|]. split; [unfold covers; by rewrite Ee|]. right. cbn. tauto.
  - intros ->. right. left. apply gen_record_notes.
Qed.

Lemma bump_span_floor ts id c sp : tcFloor c <=t ts -> tcFloor (bump_span ts id c sp) <=t ts.
Proof. unfold bump_span. intros H. repeat case_match; cbn; ts_lia. Qed.

Lemma bump_spans_keeps ts id spans : forall c k q,
  tcFloor c <=t ts -> notes c k q -> notes (fold_left (bump_span ts id) spans c) k q.
Proof.
  induction spans as [|sp spans IH]; intros c k q Hf Hn; [done|]. apply IH; [by apply bump_span_floor|by apply bump_span_keeps].
Qed.

Lemma bump_spans_notes ts id spans sp k : forall c,
  tcFloor c <=t ts -> sp ∈ spans -> covers sp k -> notes (fold_left (bump_span ts id) spans c) k (ts, id).
Proof.
  induction spans as [|sp' spans IH]; intros c Hf Hin Hc; [by apply not_elem_of_nil in Hin|]. cbn [fold_left].
  apply elem_of_cons in Hin as [<-|Hin]; [|by apply IH; [apply bump_span_floor|..]].
  apply bump_spans_keeps; [by apply bump_span_floor|by apply bump_span_notes].
Qed.

Lemma raise_max f ts : f <=t raise f ts /\ ts <=t raise f ts.
Proof. unfold raise. destruct (Less f ts) eqn:E; ts_lia. Qed.

Lemma fold_raise {A} (g : A -> Timestamp) l : forall f,
  f <=t fold_left (fun f x => raise f (g x)) l f /\ forall x, x ∈ l -> g x <=t fold_left (fun f x => raise f (g x)) l f.
Proof.
  induction l as [|y l IH]; intros f; cbn [fold_left].
  { split; [ts_lia|]. intros x Hx. by apply not_elem_of_nil in Hx. }
  destruct (IH (raise f (g y))) as [H1 H2]. destruct (raise_max f (g y)). split; [ts_lia|].
  intros x Hx. apply elem_of_cons in Hx as [->|Hx]; [ts_lia|by apply H2].
Qed.

Lemma fold_raise_attained {A} (g : A -> Timestamp) l : forall f,
  fold_left (fun f x => raise f (g x)) l f = f \/ exists x, x ∈ l /\ fold_left (fun f x => raise f (g x)) l f = g x.
Proof.
  induction l as [|y l IH]; intros f; cbn [fold_left]; [by left|].
  destruct (IH (raise f (g y))) as [->|(x & Hx & ->)].
  - unfold raise. destruct (Less f (g y)); [|by left]. right. exists y. split; [apply list_elem_of_here|done].
  - right. exists x. split; [by apply list_elem_of_further|done].
Qed.

Lemma spansOverlap_eq a b : spansOverlap a b = overlaps a b.
Proof. done. Qed.

Section CacheSpec.
Context `{MapRange}.

Lemma collapse_ge f g :
  f <=t collapse f g /\ (forall k r, gPoints g !! k = Some r -> rdTS r <=t collapse f g) /\
  (forall e, e ∈ gRanged g -> enTS e <=t collapse f g).
Proof.
  unfold collapse. destruct (fold_raise (fun kr : list Z * tsCacheRead => rdTS kr.2) (range_map (gPoints g)) f) as [H1 H2].
  destruct (fold_raise enTS (gRanged g) (fold_left (fun f kr => raise f (rdTS kr.2)) (range_map (gPoints g)) f)) as [H3 H4].
  split_and!; [ts_lia| |done]. intros k r Hr. apply elem_of_range_map in Hr. specialize (H2 _ Hr). cbn in H2. ts_lia.
Qed.

Lemma rotate_keeps c k q : notes c k q -> notes (rotate c) k q.
Proof.
  destruct (collapse_ge (tcFloor c) (tcPrev c)) as (H1 & H2 & H3). unfold notes, rotate. cbn [tcFloor tcCur tcPrev].
  intros [Hq|[Hq|Hq]]; [left; ts_lia|by right; right|left].
  destruct Hq as [(r & Hr & Ha)|(e & He & _ & Ha)].
  - specialize (H2 _ _ Hr). destruct Ha as [Ha|[Ha _]]; cbn in Ha; ts_lia.
  - specialize (H3 _ He). destruct Ha as [Ha|[Ha _]]; cbn in Ha; ts_lia.
Qed.

Lemma Bump_keeps spans ts id c k q : notes c k q -> notes (Bump spans ts id c) k q.
Proof.
  intros Hn. unfold Bump. destruct (Less (tcFloor c) ts) eqn:El; [|done]. cbn [negb]. tsb.
  assert (notes (fold_left (bump_span ts id) spans c) k q) by (apply bump_spans_keeps; [ts_lia|done]).
  destruct (_ <=? _)%nat; [by apply rotate_keeps|done].
Qed.

Lemma Bump_notes spans ts id c sp k : sp ∈ spans -> covers sp k -> notes (Bump spans ts id c) k (ts, id).
Proof.
  intros Hin Hc. unfold Bump. destruct (Less (tcFloor c) ts) eqn:El; cbn [negb]; tsb; [|left; cbn; ts_lia].
  assert (notes (fold_left (bump_span ts id) spans c) k (ts, id)) by (eapply bump_spans_notes; [ts_lia|done..]).
  destruct (_ <=? _)%nat; [by apply rotate_keeps|done].
Qed.

(** The reads of a history, in order. *)
Definition bump_all (reads : list (list latchSpan * Timestamp * uuid)) (c : tsCache) : tsCache :=
  fold_left (fun c r => Bump r.1.1 r.1.2 r.2 c) reads c.

Lemma bump_all_keeps reads : forall c k q, notes c k q -> notes (bump_all reads c) k q.
Proof. induction reads as [|r reads IH]; intros c k q Hn; [done|]. apply IH. by apply Bump_keeps. Qed.

Lemma bump_all_notes reads spans ts id sp k : forall c,
  (spans, ts, id) ∈ reads -> sp ∈ spans -> covers sp k -> notes (bump_all reads c) k (ts, id).
Proof.
  induction reads as [|r reads IH]; intros c Hin Hsp Hc; [by apply not_elem_of_nil in Hin|]. cbn [bump_all fold_left].
  apply elem_of_cons in Hin as [<-|Hin]; [|by eapply IH]. apply bump_all_keeps. by eapply Bump_notes.
Qed.

(** ** The answer to a write *)

(** [note]'s test: the write is above the read, or is the reader's own. *)
Definition admits (ts : Timestamp) (id : uuid) (r : Timestamp * uuid) : Prop :=
  r.1 <t ts \/ (r.1 = ts /\ r.2 = id /\ id <> uuid_Nil).

Lemma note_ok ts id acc r : (note ts id acc r).1 = true <-> acc.1 = true /\ admits ts id r.
Proof.
  unfold note, admits. cbn [fst]. destruct (Less ts r.1) eqn:El; cbn [orb].
  { split; [done|]. intros [_ [H1|[H1 _]]]; tsb; ts_lia. }
  destruct (Equal ts r.1) eqn:Ee; cbn [andb].
  - apply Equal_eq in Ee. subst ts. destruct (beqb id uuid_Nil) eqn:E1; cbn [orb].
    + apply beqb_eq in E1. split; [done|]. intros [_ [H1|(_ & _ & H1)]]; [by apply ts_lt_irrefl in H1|done].
    + apply beqb_neq in E1. destruct (beqb id r.2) eqn:E2; cbn [negb].
      * apply beqb_eq in E2. split; [|tauto]. intros ?. split; [done|]. right. auto.
      * apply beqb_neq in E2. split; [done|]. intros [_ [H1|(_ & H1 & _)]]; [by apply ts_lt_irrefl in H1|congruence].
  - apply Equal_neq in Ee. split; [|tauto]. intros ?. split; [done|]. left. tsb. assert (ts <> r.1) by done. ts_lia.
Qed.

Lemma fold_note ts id l : forall acc,
  ((fold_left (note ts id) l acc).1 = true <-> acc.1 = true /\ Forall (admits ts id) l) /\
  (fold_left (note ts id) l acc).2 = fold_left (fun f r => raise f r.1) l acc.2.
Proof.
  induction l as [|r l IH]; intros acc; cbn [fold_left]; [split; [|done]; split; [done|tauto]|].
  destruct (IH (note ts id acc r)) as [IH1 IH2]. split; [|done]. rewrite IH1, note_ok, Forall_cons. tauto.
Qed.

(** The reads the write was compared with. *)
Definition met (c : tsCache) (spans : list latchSpan) : list (Timestamp * uuid) :=
  gen_reads (tcPrev c) spans ++ gen_reads (tcCur c) spans.

Lemma AllowsWrite_spec c spans ts id :
  ((AllowsWrite c spans ts id).1 = true <-> tcFloor c <t ts /\ Forall (admits ts id) (met c spans)) /\
  (AllowsWrite c spans ts id).2 = fold_left (fun f r => raise f r.1) (met c spans) (tcFloor c).
Proof.
  unfold AllowsWrite. destruct (fold_note ts id (met c spans) (Less (tcFloor c) ts, tcFloor c)) as [H1 H2]. cbn [fst snd] in *.
  split; [|exact H2]. rewrite <- Less_lt. exact H1.
Qed.

(** A remembered read of a key the write covers is met. *)
Lemma gen_reads_meets g spans w k q :
  gen_notes g k q -> w ∈ spans -> covers w k -> exists r, r ∈ gen_reads g spans /\ answers r q.
Proof.
  intros Hn Hw Hk. unfold gen_reads. destruct Hn as [(r & Hr & Ha)|(e & He & Hc & Ha)].
  - exists (rdTS r, rdTxnID r). split; [|done]. apply elem_of_app. right. apply list_elem_of_In, in_flat_map.
    exists w. split; [by apply list_elem_of_In|]. unfold covers in Hk. destruct (sEnd w) as [we|] eqn:Ew.
    + apply in_map_iff. exists (k, r). split; [done|]. apply list_elem_of_In, list_elem_of_filter. cbn [fst snd].
      rewrite spansOverlap_eq. split; [|by apply elem_of_range_map]. apply (overlaps_covers _ _ k); [done|]. unfold covers. by rewrite Ew.
    + subst k. rewrite Hr. by left.
  - exists (enTS e, enTxnID e). split; [|done]. apply elem_of_app. left. apply list_elem_of_In, in_map_iff. exists e.
    split; [done|]. apply list_elem_of_In, list_elem_of_filter. split; [|done]. unfold overlapsAny. apply existsb_elem.
    exists w. split; [done|]. by apply (overlaps_covers _ _ k).
Qed.

Lemma admits_answers ts id r q : admits ts id r -> answers r q -> admits ts id q.
Proof.
  unfold admits, answers. intros [H1|(H1 & H2 & H3)] [H4|[H4 H5]]; try (left; solve [ts_lia]).
  right. split_and!; [congruence| |done]. destruct H5 as [H5|H5]; [congruence|]. congruence.
Qed.

Lemma AllowsWrite_notes c spans w k ts id q :
  notes c k q -> w ∈ spans -> covers w k -> (AllowsWrite c spans ts id).1 = true -> admits ts id q.
Proof.
  intros Hn Hw Hk Ha. apply AllowsWrite_spec in Ha as [Hf Hall]. rewrite Forall_forall in Hall. unfold met in Hall.
  destruct Hn as [Hn|Hn]; [left; ts_lia|].
  assert (exists r, r ∈ gen_reads (tcPrev c) spans ++ gen_reads (tcCur c) spans /\ answers r q) as (r & Hr & Har).
  { destruct Hn as [Hn|Hn]; destruct (gen_reads_meets _ _ _ _ _ Hn Hw Hk) as (r & Hr & Har); exists r; (split; [|done]);
      apply elem_of_app; [by right|by left]. }
  eapply admits_answers; [by apply Hall|done].
Qed.

(** No write lands at or below a read already served.  Whatever reads
    were recorded, however often the generations rotated, and in whatever
    order the maps were ranged over: a write the cache allows is strictly
    above every recorded read of every key it covers, or at exactly its
    timestamp and by the reader itself. *)
Theorem tscache_protects_reads reads c spans ts id rspans rts rid sp w k :
  (AllowsWrite (bump_all reads c) spans ts id).1 = true ->
  (rspans, rts, rid) ∈ reads -> sp ∈ rspans -> covers sp k -> w ∈ spans -> covers w k ->
  rts <t ts \/ (rts = ts /\ rid = id /\ id <> uuid_Nil).
Proof.
  intros Ha Hin Hsp Hc Hw Hk. apply (AllowsWrite_notes (bump_all reads c) spans w k ts id (rts, rid)); [|done..].
  by eapply bump_all_notes.
Qed.

(** A refused write is told how far to go.  The second result does not
    depend on the timestamp or the transaction; a refused write is at or
    below it, and every write strictly above it is allowed, so a writer that
    forwards past it is not pushed again by the same reads.  It is no higher
    than needed: it is the floor or the timestamp of a remembered read that
    the write meets. *)
Theorem AllowsWrite_low c spans ts id :
  let '(ok, low) := AllowsWrite c spans ts id in
  (forall ts' id', low <t ts' -> AllowsWrite c spans ts' id' = (true, low)) /\
  (ok = false -> ts <=t low) /\
  (low = tcFloor c \/ exists r, r ∈ met c spans /\ low = r.1).
Proof.
  destruct (AllowsWrite c spans ts id) as [ok low] eqn:E. destruct (AllowsWrite_spec c spans ts id) as [H1 H2].
  rewrite E in H1, H2. cbn [fst snd] in H1, H2.
  destruct (fold_raise fst (met c spans) (tcFloor c)) as [Hf Hr]. rewrite <- H2 in Hf, Hr.
  assert (Hup : forall ts' id', low <t ts' -> (AllowsWrite c spans ts' id').1 = true).
  { intros ts' id' Hlt. apply AllowsWrite_spec. split; [ts_lia|]. apply Forall_forall. intros r Hin. left. specialize (Hr r Hin). ts_lia. }
  split_and!.
  - intros ts' id' Hlt. specialize (Hup ts' id' Hlt). destruct (AllowsWrite_spec c spans ts' id') as [_ H3].
    rewrite <- H2 in H3. destruct (AllowsWrite c spans ts' id') as [ok' low']. cbn in *. congruence.
  - intros ->. destruct (decide (low <t ts)) as [Hlt|Hn]; [|ts_lia]. specialize (Hup ts id Hlt). by rewrite E in Hup.
  - subst low. apply (fold_raise_attained fst).
Qed.

(** ** Memory *)

Definition gen_ok (g : tsCacheGen) : Prop := gN g = (size (gPoints g) + length (gRanged g))%nat.

Lemma gen_record_ok g key ts id : gen_ok g -> gen_ok (gen_record g key ts id) /\ (gN (gen_record g key ts id) <= S (gN g))%nat.
Proof.
  unfold gen_ok, gen_record. intros Hg. destruct (gPoints g !! key) as [old|] eqn:E.
  - destruct (Less _ _); [|destruct (_ && _)]; cbn; rewrite ?map_size_insert, ?E; (split; [done|lia]).
  - cbn. rewrite map_size_insert, E. split; lia.
Qed.

Lemma bump_span_ok ts id c sp :
  gen_ok (tcCur c) -> gen_ok (tcCur (bump_span ts id c sp)) /\ (gN (tcCur (bump_span ts id c sp)) <= S (gN (tcCur c)))%nat /\
  tcPrev (bump_span ts id c sp) = tcPrev c.
Proof.
  unfold bump_span. intros Hg. destruct (sEnd sp); [destruct (whole_range sp)|]; cbn.
  - split; [done|]. split; [lia|done].
  - split; [|split; [lia|done]]. unfold gen_ok in *. cbn. rewrite length_app. cbn. lia.
  - destruct (gen_record_ok (tcCur c) (sStart sp) ts id Hg). done.
Qed.

Lemma bump_spans_ok ts id spans : forall c, gen_ok (tcCur c) ->
  gen_ok (tcCur (fold_left (bump_span ts id) spans c)) /\
  (gN (tcCur (fold_left (bump_span ts id) spans c)) <= gN (tcCur c) + length spans)%nat /\
  tcPrev (fold_left (bump_span ts id) spans c) = tcPrev c.
Proof.
  induction spans as [|sp spans IH]; intros c Hg; cbn [fold_left length]; [split_and!; [done|lia|done]|].
  destruct (bump_span_ok ts id c sp Hg) as (H1 & H2 & H3). destruct (IH _ H1) as (H4 & H5 & H6). rewrite H6, H3.
  split_and!; [done|lia|done].
Qed.

(** Between bumps of at most [n] spans. *)
Definition cache_ok (n : nat) (c : tsCache) : Prop :=
  gen_ok (tcCur c) /\ gen_ok (tcPrev c) /\ (gN (tcCur c) < tsCacheGenerationSize)%nat /\
  (gN (tcPrev c) < tsCacheGenerationSize + n)%nat.

Lemma Bump_ok n spans ts id c : (length spans <= n)%nat -> cache_ok n c -> cache_ok n (Bump spans ts id c).
Proof.
  intros Hn (H1 & H2 & H3 & H4). unfold Bump. destruct (Less _ _); [|done]. cbn [negb].
  destruct (bump_spans_ok ts id spans c H1) as (H5 & H6 & H7). unfold cache_ok.
  destruct (Nat.leb_spec tsCacheGenerationSize (gN (tcCur (fold_left (bump_span ts id) spans c)))); cbn [rotate tcCur tcPrev].
  - split_and!; [done..| |]; [unfold tsCacheGenerationSize; cbn; lia|lia].
  - rewrite H7. done.
Qed.

End CacheSpec.

(** ** Witnesses *)

Definition ex_reads : list (list latchSpan * Timestamp * uuid) :=
  [([mkSpan [4; 1] None; mkSpan [4; 2] (Some [4; 5])], mkTs 7 0, repeat 9 16); ([mkSpan [4; 1] None], mkTs 5 0, uuid_Nil)].

Lemma tscache_protects_reads_witness :
  (AllowsWrite (H := range_to_list) (bump_all (H := range_to_list) ex_reads tsCache0) [mkSpan [4; 3] None] (mkTs 7 0) (repeat 9 16)).1
    = true /\
  (mkTs 7 0 <t mkTs 7 0 \/ (mkTs 7 0 = mkTs 7 0 /\ repeat 9 16 = repeat 9 16 /\ repeat 9 16 <> uuid_Nil)).
Proof.
  assert (E : (AllowsWrite (H := range_to_list) (bump_all (H := range_to_list) ex_reads tsCache0) [mkSpan [4; 3] None] (mkTs 7 0)
    (repeat 9 16)).1 = true) by (vm_compute; reflexivity).
  split; [exact E|].
  apply (tscache_protects_reads (H := range_to_list) ex_reads tsCache0 [mkSpan [4; 3] None] (mkTs 7 0) (repeat 9 16)
    [mkSpan [4; 1] None; mkSpan [4; 2] (Some [4; 5])] (mkTs 7 0) (repeat 9 16) (mkSpan [4; 2] (Some [4; 5])) (mkSpan [4; 3] None) [4; 3]).
  - exact E.
  - apply list_elem_of_here.
  - apply list_elem_of_further, list_elem_of_here.
  - split; [discriminate|reflexivity].
  - apply list_elem_of_here.
  - reflexivity.
Defined.

(** A write at the reader's timestamp by another transaction is refused. *)
Example tscache_refuses :
  AllowsWrite (H := range_to_list) (bump_all (H := range_to_list) ex_reads tsCache0) [mkSpan [4; 3] None] (mkTs 7 0) (repeat 8 16) =
    (false, mkTs 7 0).
Proof. vm_compute. reflexivity. Qed.

