(* ===== verification/Strconv.v ===== *)
(** * Decimal integers (Go's strconv.ParseInt and FormatInt, base 10, 64 bits)

    The counters of the keyspace are stored as decimal text. *)

From S2P Require Import Prelude.

Open Scope Z_scope.

Definition ascii_minus : byte := 45.
Definition ascii_plus : byte := 43.

(** The digits of [n], most significant first, before [acc]. *)
Fixpoint format_digits (fuel : nat) (n : Z) (acc : bytes) : bytes :=
  match fuel with
  | O => acc
  | S fuel =>
      let acc := 48 + n mod 10 :: acc in
      if n / 10 =? 0 then acc else format_digits fuel (n / 10) acc
  end.

(** 2^63 has nineteen digits. *)
Definition FormatInt (v : Z) : bytes :=
  if v <? 0 then ascii_minus :: format_digits 20 (- v) [] else format_digits 20 v [].

Fixpoint parse_digits (l : bytes) (acc : Z) : option Z :=
  match l with
  | [] => Some acc
  | c :: l => if (48 <=? c) && (c <=? 57) then parse_digits l (acc * 10 + (c - 48)) else None
  end.

(** [None] is a syntax or range error. *)
Definition ParseInt (s : bytes) : option Z :=
  let '(neg, digits) :=
    match s with
    | c :: r => if c =? ascii_minus then (true, r) else if c =? ascii_plus then (false, r) else (false, s)
    | [] => (false, [])
    end in
  match digits with
  | [] => None
  | _ =>
      match parse_digits digits 0 with
      | None => None
      | Some u =>
          let v := if (neg : bool) then - u else u in
          if bool_decide (in_i64 v) then Some v else None
      end
  end.

Lemma parse_digit d l acc : 0 <= d < 10 -> parse_digits (48 + d :: l) acc = parse_digits l (acc * 10 + d).
Proof.
  intros Hd. cbn [parse_digits].
  replace ((48 <=? 48 + d) && (48 + d <=? 57)) with true by (symmetry; apply andb_true_iff; split; apply Z.leb_le; lia).
  f_equal. lia.
Qed.

Lemma format_digits_head fuel : forall n acc,
  fuel <> O -> exists d r, format_digits fuel n acc = 48 + d :: r /\ 0 <= d < 10.
Proof.
  induction fuel as [|fuel IH]; intros n acc Hf; [done|]. cbn [format_digits].
  assert (Hm : 0 <= n mod 10 < 10) by (apply Z.mod_pos_bound; lia).
  destruct (n / 10 =? 0); [by eexists _, _|]. destruct fuel as [|fuel]; [by eexists _, _|]. by apply IH.
Qed.

Lemma parse_format_digits fuel : forall n acc,
  0 <= n < 10 ^ Z.of_nat fuel -> fuel <> O -> parse_digits (format_digits fuel n acc) 0 = parse_digits acc n.
Proof.
  induction fuel as [|fuel IH]; intros n acc Hn Hf; [done|]. cbn [format_digits].
  assert (Hm : 0 <= n mod 10 < 10) by (apply Z.mod_pos_bound; lia). pose proof (Z.div_mod n 10 ltac:(lia)) as Hdm.
  destruct (Z.eqb_spec (n / 10) 0) as [E|E]; [rewrite parse_digit by done; f_equal; lia|].
  destruct fuel as [|fuel]; [exfalso; apply E, Z.div_small; change (10 ^ Z.of_nat 1) with 10 in Hn; lia|].
  rewrite IH; [rewrite parse_digit by done; f_equal; lia| |done].
  rewrite Nat2Z.inj_succ, Z.pow_succ_r in Hn by lia. split; [apply Z.div_pos; lia|apply Z.div_lt_upper_bound; lia].
Qed.

(** Parsing the text of a 64-bit integer returns it. *)
Lemma ParseInt_FormatInt v : in_i64 v -> ParseInt (FormatInt v) = Some v.
Proof.
  intros Hv. unfold in_i64 in Hv. unfold FormatInt. destruct (Z.ltb_spec v 0) as [Hneg|Hpos].
  - unfold ParseInt. cbn [ascii_minus Z.eqb Pos.eqb].
    destruct (format_digits_head 20 (- v) [] ltac:(done)) as (d & r & E & _). rewrite E, <- E.
    rewrite parse_format_digits by (cbn; lia). cbn [parse_digits]. rewrite Z.opp_involutive.
    by rewrite bool_decide_eq_true_2.
  - unfold ParseInt. destruct (format_digits_head 20 v [] ltac:(done)) as (d & r & E & Hd).
    rewrite E. destruct (Z.eqb_spec (48 + d) ascii_minus) as [F|_]; [unfold ascii_minus in F; lia|].
    destruct (Z.eqb_spec (48 + d) ascii_plus) as [F|_]; [unfold ascii_plus in F; lia|]. rewrite <- E.
    rewrite parse_format_digits by (cbn; lia). cbn [parse_digits]. by rewrite bool_decide_eq_true_2.
Qed.
