(* ===== verification/Apply.v ===== *)
(** * Command evaluation and application (pkg/kvserver/apply.go, state.go,
      the triggers of split.go and merge.go, evalOnePhase of txn.go)

    A replica is a state machine over its engine: each committed log entry
    is evaluated on an engine batch, and the batch is committed together
    with the applied index and the rest of the replicated state.  The
    in-memory copies of that state ([r.mu]) are the record [replicaMu].

    The model is of a store whose raft state shares the state engine
    (TruncateLog deletes its log prefix in the command's batch).  JSON
    marshalling of the stored records is a parameter ([StateCodec]).  What a
    command meets outside the range is the environment of its application:
    the log's last index (TruncateLog) and the local right-hand replica once
    the merge's wait is over ([None] when the wait was abandoned).  The load
    handoff and the checksum trigger, which change no replicated state, are
    not modelled. *)

From S2P Require Import Prelude Encoding Hlc Keys MvccKey Pebble Enginepb Mvcc MvccWrite MvccScan Kvpb TxnRecord Gc Strconv.
From Stdlib Require Import String.

#[local] Abbreviation length := Datatypes.length.
#[local] Open Scope list_scope.

Open Scope Z_scope.

(** ** Stored state (state.go) *)

Record truncatedState := mkTrunc { tsIndex : Z; tsTerm : Z }.

Record replicaState := mkState {
  rsAppliedIndex : Z; rsTruncated : truncatedState; rsGCThreshold : Timestamp; rsSizeBytes : Z; rsFrozen : bool;
  rsMergedInto : Z; rsClosedTS : Timestamp }.
Definition replicaState0 : replicaState := mkState 0 (mkTrunc 0 0) ts0 0 false 0 ts0.

Class StateCodec := {
  state_marshal : replicaState -> bytes;
  state_unmarshal : bytes -> option replicaState;
  desc_marshal : RangeDescriptor -> bytes;
  desc_unmarshal : bytes -> option RangeDescriptor }.

Class StateCodecLaws (SC : StateCodec) : Prop := {
  state_roundtrip st : state_unmarshal (state_marshal st) = Some st;
  state_nonempty st : state_marshal st <> [];
  desc_roundtrip d : desc_unmarshal (desc_marshal d) = Some d;
  desc_nonempty d : desc_marshal d <> [] }.

(** The replicated part of [Replica.mu]. *)
Record replicaMu := mkMu {
  muDesc : RangeDescriptor; muAppliedIndex : Z; muTruncated : truncatedState; muGCThreshold : Timestamp; muSizeBytes : Z;
  muFrozen : bool; muMergedInto : Z; muClosedTS : Timestamp }.

Definition mu_desc (m : replicaMu) (d : RangeDescriptor) : replicaMu :=
  mkMu d (muAppliedIndex m) (muTruncated m) (muGCThreshold m) (muSizeBytes m) (muFrozen m) (muMergedInto m) (muClosedTS m).
Definition mu_applied (m : replicaMu) (i : Z) : replicaMu :=
  mkMu (muDesc m) i (muTruncated m) (muGCThreshold m) (muSizeBytes m) (muFrozen m) (muMergedInto m) (muClosedTS m).
Definition mu_truncated (m : replicaMu) (t : truncatedState) : replicaMu :=
  mkMu (muDesc m) (muAppliedIndex m) t (muGCThreshold m) (muSizeBytes m) (muFrozen m) (muMergedInto m) (muClosedTS m).
Definition mu_gc (m : replicaMu) (t : Timestamp) : replicaMu :=
  mkMu (muDesc m) (muAppliedIndex m) (muTruncated m) t (muSizeBytes m) (muFrozen m) (muMergedInto m) (muClosedTS m).
Definition mu_size (m : replicaMu) (z : Z) : replicaMu :=
  mkMu (muDesc m) (muAppliedIndex m) (muTruncated m) (muGCThreshold m) z (muFrozen m) (muMergedInto m) (muClosedTS m).
Definition mu_frozen (m : replicaMu) (f : bool) (into : Z) : replicaMu :=
  mkMu (muDesc m) (muAppliedIndex m) (muTruncated m) (muGCThreshold m) (muSizeBytes m) f into (muClosedTS m).
Definition mu_closed (m : replicaMu) (t : Timestamp) : replicaMu :=
  mkMu (muDesc m) (muAppliedIndex m) (muTruncated m) (muGCThreshold m) (muSizeBytes m) (muFrozen m) (muMergedInto m) t.

(** ** Small rules *)

Definition maxTimestamp : Timestamp := mkTs maxInt64 maxInt32.

Definition batchTxnMeta (ba : BatchRequest) : option TxnMeta := tMeta <$> bhTxn (baHeader ba).
Definition readTimestamp (ba : BatchRequest) : Timestamp :=
  match bhTxn (baHeader ba) with Some t => tReadTimestamp t | None => bhTimestamp (baHeader ba) end.
Definition writeTimestamp (ba : BatchRequest) : Timestamp :=
  match bhTxn (baHeader ba) with Some t => WriteTimestamp (tMeta t) | None => bhTimestamp (baHeader ba) end.

Definition plain_write (u : RequestUnion) : bool :=
  match GetInner u with Some (RPut _) | Some (RDelete _) => true | _ => false end.

Definition is1PC (ba : BatchRequest) : bool :=
  match bhTxn (baHeader ba) with
  | None => false
  | Some _ =>
      if (length (baRequests ba) <? 2)%nat then false
      else
        match last (baRequests ba) with
        | Some u =>
            match uEndTxn u with
            | Some e => etCommit e && etAll e && forallb plain_write (removelast (baRequests ba))
            | None => false
            end
        | None => false
        end
  end.

Definition scanTargetBytes : Z := Z.shiftl 8 20.
Definition scanResponse (res : ScanResult) : ScanResponse :=
  mkScanResponse (map (fun kv => mkKV (kvKey kv) (kvValue kv)) (KVs res)) (Resume res).

Definition mvccVersionOverhead : Z := 16.
Definition zlen {A} (l : list A) : Z := Z.of_nat (length l).

(** What one request adds; the sums are on int64. *)
Definition request_size_delta (u : RequestUnion) : Z :=
  match GetInner u with
  | Some (RPut r) => zlen (hKey (puHeader r)) + zlen (puValue r) + mvccVersionOverhead
  | Some (RDelete r) => zlen (hKey (deHeader r)) + mvccVersionOverhead
  | Some (RIncrement r) => zlen (hKey (icHeader r)) + mvccVersionOverhead + 8
  | Some (RGC r) => fold_left (fun d v => i64 (d - gvBytes v)) (gcVersions r) 0
  | _ => 0
  end.
Definition commandSizeDelta (ba : BatchRequest) : Z :=
  fold_left (fun d u => i64 (d + request_size_delta u)) (baRequests ba) 0.

(** The intents collected so far, one per key, in the order met. *)
Definition intentCollector := list Intent.
Definition collect_one (c : intentCollector) (i : Intent) : intentCollector :=
  if existsb (fun j => beqb (inKey j) (inKey i)) c then c else c ++ [i].
Definition collect (c : intentCollector) (intents : list Intent) : intentCollector := fold_left collect_one intents c.
Definition collector_err (c : intentCollector) : option mvcc_err :=
  match c with [] => None | _ => Some (WriteIntentError c) end.

Definition metaUpdateApplies (existing : option RangeDescriptor) (req : UpdateMetaRequest) : bool :=
  match umDesc req with
  | None =>
      match existing with
      | Some e => (RangeID e =? umIfRangeID req) && (Generation e <=? umIfGeneration req)
      | None => false
      end
  | Some d =>
      match existing with
      | None => true
      | Some e =>
          if Generation e <? Generation d then true
          else (RangeID e =? RangeID d) && (Generation e =? Generation d)
      end
  end.

Definition staleDescriptorChange (current produced : Z) : bool := negb (produced =? i64 (current + 1)).

Definition sameReplicas (a b : list ReplicaDescriptor) : bool :=
  (length a =? length b)%nat && forallb (fun x => existsb (fun y => bool_decide (x = y)) b) a.
Definition sameDescriptor (a b : RangeDescriptor) : bool :=
  (RangeID a =? RangeID b) && (Generation a =? Generation b) && beqb (StartKey a) (StartKey b) &&
  beqb (EndKey a) (EndKey b) && sameReplicas (Replicas a) (Replicas b).

(** ** Triggers and commands *)

Record splitTrigger := mkSplit { spLeft : RangeDescriptor; spRight : RangeDescriptor; spClosedTS : Timestamp }.
Record mergeTrigger := mkMerge {
  mgLeft : RangeDescriptor; mgRight : RangeDescriptor; mgMerged : RangeDescriptor; mgRightAppliedIndex : Z;
  mgRightSizeBytes : Z; mgRightGCThreshold : Timestamp }.
Record raftCommand := mkCommand {
  cmBatch : BatchRequest; cmSplit : option splitTrigger; cmMerge : option mergeTrigger; cmClosedTS : Timestamp }.

(** The environment of an application, with the replica's fixed identity. *)
Record applyEnv := mkEnv { evRangeID : Z; evNodeID : Z; evLastIndex : Z; evRhs : option RangeDescriptor }.

(** What a request evaluates to: a response, or intents in its way. *)
Inductive evalOut := Responded (r : Response) | Conflicted (intents : list Intent).

Section Eval.
Context {P : Pebble} {C : MetaCodec} {T : TxnCodec} {SC : StateCodec}.

Definition loadReplicaStateFrom (s : store) (rangeID : Z) : option replicaState :=
  match Batch_Get s (RaftAppliedStateKey rangeID) with
  | None => Some replicaState0
  | Some raw => state_unmarshal raw
  end.
Definition putReplicaState (rangeID : Z) (st : replicaState) (s : store) : store :=
  Batch_Put s (RaftAppliedStateKey rangeID) (state_marshal st).
(** [None]: no descriptor, or a corrupt one. *)
Definition loadRangeDescriptor (s : store) (rangeID : Z) : option RangeDescriptor :=
  match Batch_Get s (RangeDescriptorKey rangeID) with None => None | Some raw => desc_unmarshal raw end.
Definition PutRangeDescriptor (d : RangeDescriptor) (s : store) : store :=
  Batch_Put s (RangeDescriptorKey (RangeID d)) (desc_marshal d).

(** [newReplica]'s recovery of the replicated state from the engine. *)
Definition recover (desc : RangeDescriptor) (s : store) : option replicaMu :=
  match loadReplicaStateFrom s (RangeID desc) with
  | None => None
  | Some st =>
      Some (mkMu desc (rsAppliedIndex st) (rsTruncated st) (rsGCThreshold st) (rsSizeBytes st) (rsFrozen st)
              (rsMergedInto st) (rsClosedTS st))
  end.

(** The state an evaluation threads: the batch, [r.mu], the batch's getter. *)
Record evalState := mkES { es_b : Batch; es_mu : replicaMu; es_g : Getter }.
Definition AM (A : Type) : Type := evalState -> evalState * result kv_err A.

Definition es_with_b (st : evalState) (b : Batch) : evalState := mkES b (es_mu st) (es_g st).

(** A storage operation whose intent conflicts are collected. *)
Definition collecting {A} (m : BM A) (k : A -> AM evalOut) : AM evalOut := fun st =>
  match m (es_b st) with
  | (b, Ok a) => k a (es_with_b st b)
  | (b, Err (WriteIntentError intents)) => (es_with_b st b, Ok (Conflicted intents))
  | (b, Err e) => (es_with_b st b, Err (ErrStorage e))
  end.
(** One whose every error ends the batch. *)
Definition strictly {A} (m : EM A) (k : A -> AM evalOut) : AM evalOut := fun st =>
  match m (es_b st) with
  | (b, Ok a) => k a (es_with_b st b)
  | (b, Err e) => (es_with_b st b, Err e)
  end.
Definition respond (r : Response) : AM evalOut := fun st => (st, Ok (Responded r)).
Definition refuse (e : kv_err) : AM evalOut := fun st => (st, Err e).

Definition read {A} (f : bool -> store -> result mvcc_err A) : BM A := fun b => (b, f (b_prefixBloom b) (b_store b)).
Definition txn_opts (meta : option TxnMeta) (target : Z) : MVCCGetOptions := mkOpts meta ts0 target false.

(** The locking scan's loop: every row is tried. *)
Fixpoint lock_rows (rows : list KeyValue) (readTS : Timestamp) (meta : option TxnMeta) (met : list Intent)
    : BM (list Intent) :=
  match rows with
  | [] => bret met
  | kv :: rows => fun b =>
      match MVCCLock (kvKey kv) readTS (kvValue kv) meta b with
      | (b, Ok _) => lock_rows rows readTS meta met b
      | (b, Err (WriteIntentError intents)) => lock_rows rows readTS meta (met ++ intents) b
      | (b, Err e) => (b, Err e)
      end
  end.

Definition evalIncrement (ts : Timestamp) (meta : option TxnMeta) (req : IncrementRequest) : AM evalOut :=
  let key := hKey (icHeader req) in
  collecting (read (fun pb s => MVCCGet pb s key maxTimestamp (txn_opts meta 0))) (fun cur =>
    match (match cur with None => Some 0 | Some raw => ParseInt raw end) with
    | None => refuse ErrText
    | Some v =>
        let v := i64 (v + icBy req) in
        collecting (MVCCPut key ts (FormatInt v) meta) (fun _ => respond (OIncrement v))
    end).

Definition evalGet (ba : BatchRequest) (req : GetRequest) : AM evalOut := fun st =>
  let key := hKey (gtHeader req) in
  let meta := batchTxnMeta ba in
  let '(g, r) := Getter_Get (es_g st) (b_store (es_b st)) key (readTimestamp ba) (txn_opts meta 0) in
  collecting (blift r) (fun val =>
    if gtForUpdate req then
      match meta with
      | None => refuse ErrText
      | Some _ => collecting (MVCCLock key (readTimestamp ba) val meta) (fun _ => respond (OGet val))
      end
    else respond (OGet val)) (mkES (es_b st) (es_mu st) g).

Definition evalScan (ba : BatchRequest) (req : ScanRequest) : AM evalOut :=
  let meta := batchTxnMeta ba in
  if scReverse req && scForUpdate req then refuse ErrText
  else
    let scan := if scReverse req then MVCCReverseScan else MVCCScan in
    collecting (read (fun pb s => scan pb s (hKey (scHeader req)) (hEndKey (scHeader req)) (readTimestamp ba) (scMaxRows req)
                                    (txn_opts meta scanTargetBytes))) (fun res =>
      if scForUpdate req then
        match meta with
        | None => refuse ErrText
        | Some _ =>
            collecting (lock_rows (KVs res) (readTimestamp ba) meta []) (fun met =>
              match met with [] => respond (OScan (scanResponse res)) | _ => fun st => (st, Ok (Conflicted met)) end)
        end
      else respond (OScan (scanResponse res))).

(** [evalUpdateMeta]: whether the record was changed. *)
Definition evalUpdateMeta (req : UpdateMetaRequest) (ts : Timestamp) : EM bool :=
  let key := hKey (umHeader req) in
  let! raw := estore (read (fun pb s => MVCCGet pb s key maxTimestamp (txn_opts None 0))) in
  let decide_on existing :=
    if negb (metaUpdateApplies existing req) then eret false
    else
      match umDesc req with
      | None => let! _ := estore (MVCCDelete key ts None) in eret true
      | Some d => let! _ := estore (MVCCPut key ts (desc_marshal d) None) in eret true
      end in
  match raw with
  | None => decide_on None
  | Some raw => match desc_unmarshal raw with None => efail ErrText | Some d => decide_on (Some d) end
  end.

(** [raftStorage.stageTruncate] on the shared engine. *)
Definition stageTruncate (rangeID last index term : Z) : AM unit := fun st =>
  let old := tsIndex (muTruncated (es_mu st)) in
  if index <=? old then (st, Ok tt)
  else if last <? index then (st, Err ErrText)
  else
    let drop := map (fun i => RaftLogKey rangeID (old + 1 + Z.of_nat i)) (seq 0 (Z.to_nat (index - old))) in
    let b := es_b st in
    (mkES (b_with_store b (fold_left Batch_Delete drop (b_store b))) (mu_truncated (es_mu st) (mkTrunc index term)) (es_g st),
     Ok tt).

Definition evalTruncate (env : applyEnv) (req : TruncateLogRequest) : AM evalOut := fun st =>
  match stageTruncate (evRangeID env) (evLastIndex env) (tlIndex req) (tlTerm req) st with
  | (st, Ok _) => (st, Ok (Responded OTruncateLog))
  | (st, Err e) => (st, Err e)
  end.

Definition set_frozen (f : bool) (into : Z) (r : Response) : AM evalOut := fun st =>
  (mkES (es_b st) (mu_frozen (es_mu st) f into) (es_g st), Ok (Responded r)).

(** One request of a write batch. *)
Definition evalRequest (env : applyEnv) (ba : BatchRequest) (u : RequestUnion) : AM evalOut :=
  let ts := writeTimestamp ba in
  let meta := batchTxnMeta ba in
  match GetInner u with
  | Some (RPut req) => collecting (MVCCPut (hKey (puHeader req)) ts (puValue req) meta) (fun _ => respond OPut)
  | Some (RDelete req) => collecting (MVCCDelete (hKey (deHeader req)) ts meta) (fun _ => respond ODelete)
  | Some (RIncrement req) => evalIncrement ts meta req
  | Some (RGet req) => evalGet ba req
  | Some (RScan req) => evalScan ba req
  | Some (REndTxn req) => strictly (evalEndTxn (bhTxn (baHeader ba)) req) (fun cts => respond (OEndTxn cts false))
  | Some (RHeartbeatTxn req) => strictly (evalHeartbeatTxn (bhTxn (baHeader ba)) req) (fun x => respond (OHeartbeatTxn x))
  | Some (RPushTxn req) => strictly (evalPushTxn req) (fun r => respond (OPushTxn r))
  | Some (RResolveIntent req) =>
      strictly (estore (MVCCResolveIntent (hKey (riHeader req)) (riTxnID req) (riStatus req) (riCommitTS req)))
        (fun _ => respond OResolveIntent)
  | Some (RUpdateMeta req) => strictly (evalUpdateMeta req ts) (fun applied => respond (OUpdateMeta applied))
  | Some (RRollbackIntent req) =>
      strictly (estore (MVCCRollbackIntent (hKey (rbHeader req)) (rbTxnID req) (rbSequence req)))
        (fun _ => respond ORollbackIntent)
  | Some (RRecoverTxn req) => strictly (evalRecoverTxn req) (fun x => respond (ORecoverTxn x))
  | Some (RGC req) => fun st => respond OGC (es_with_b st (evalGC (es_b st) req))
  | Some (RTruncateLog req) => evalTruncate env req
  | Some (RSubsume req) => set_frozen true (suMergeInto req) OSubsume
  | Some (RUnfreeze req) => set_frozen false 0 OUnfreeze
  | _ => refuse ErrUnsupported
  end.

(** The loop over requests: conflicts are collected and reported at the end. *)
Fixpoint eval_requests (eval : RequestUnion -> AM evalOut) (us : list RequestUnion) (c : intentCollector) (out : list Response)
    : AM (list Response) := fun st =>
  match us with
  | [] => match collector_err c with Some e => (st, Err (ErrStorage e)) | None => (st, Ok out) end
  | u :: us =>
      match eval u st with
      | (st, Ok (Responded r)) => eval_requests eval us c (out ++ [r]) st
      | (st, Ok (Conflicted intents)) => eval_requests eval us (collect c intents) out st
      | (st, Err e) => (st, Err e)
      end
  end.

(** [evalOnePhase]: the whole transaction as committed values. *)
Definition evalOnePhaseRequest (ts : Timestamp) (u : RequestUnion) : AM evalOut :=
  match GetInner u with
  | Some (RPut req) => collecting (MVCCPutCommitted (hKey (puHeader req)) ts (puValue req)) (fun _ => respond OPut)
  | Some (RDelete req) => collecting (MVCCDeleteCommitted (hKey (deHeader req)) ts) (fun _ => respond ODelete)
  | Some (REndTxn _) => respond (OEndTxn ts true)
  | _ => refuse ErrUnsupported
  end.

Definition evalOnePhase (ba : BatchRequest) : AM (list Response) := fun st =>
  match bhTxn (baHeader ba) with
  | None => (st, Err ErrNoTransaction)
  | Some txn =>
      let ts := WriteTimestamp (tMeta txn) in
      if negb (Equal (tReadTimestamp txn) ts) then (st, Err (ErrTxnRetry ts))
      else
        match loadTxnRecord (txnRecordKey (tMeta txn)) (es_b st) with
        | (_, Err e) => (st, Err e)
        | (_, Ok rec) =>
            if bool_decide (tStatus <$> rec = Some ABORTED) then (st, Err ErrTxnAborted)
            else eval_requests (evalOnePhaseRequest ts) (baRequests ba) [] [] st
        end
  end.

Definition evalWriteBatch (env : applyEnv) (ba : BatchRequest) : AM BatchResponse := fun st =>
  let finish out :=
    match out with
    | (st, Ok rs) => (st, Ok (mkBatchResponse (bhTxn (baHeader ba)) (bhTimestamp (baHeader ba)) rs))
    | (st, Err e) => (st, Err e)
    end in
  if is1PC ba then finish (evalOnePhase ba st)
  else
    let created :=
      if bhCreateTxnRecord (baHeader ba)
      then createTxnRecord (muGCThreshold (es_mu st)) (bhTxn (baHeader ba)) (es_b st)
      else (es_b st, Ok tt) in
    match created with
    | (b, Err e) => (es_with_b st b, Err e)
    | (b, Ok _) =>
        finish (eval_requests (evalRequest env ba) (baRequests ba) [] []
                  (mkES b (es_mu st) (NewGetter (b_prefixBloom b) true)))
    end.

(** [evalReadOnly], on the engine; [maxOffset] is the clock's bound. *)
Definition read_opts (maxOffset : Z) (ba : BatchRequest) (target : Z) : MVCCGetOptions :=
  let limit :=
    if bhStaleRead (baHeader ba) then readTimestamp ba
    else match bhTxn (baHeader ba) with Some t => AddNanos (tReadTimestamp t) maxOffset | None => ts0 end in
  mkOpts (batchTxnMeta ba) limit target (bhReadInconsistent (baHeader ba)).

Definition query_push (s : store) (req : PushTxnRequest) : result kv_err Response :=
  if negb (ptQueryOnly req) then Err ErrUnsupported
  else
    match (loadTxnRecord (txnRecordKey (ptPusheeTxn req)) (NewBatch false s)).2 with
    | Err e => Err e
    | Ok None => Ok (OPushTxn (mkPushResp PENDING ts0 []))
    | Ok (Some rec) =>
        Ok (OPushTxn (mkPushTxnResponse (tStatus rec) (WriteTimestamp (tMeta rec)) (tWaitingFor rec) (tWaitingForKey rec)
                        (Priority (tMeta rec)) []))
    end.

Definition evalReadRequest (maxOffset : Z) (pb : bool) (s : store) (ba : BatchRequest) (g : Getter) (u : RequestUnion)
    : Getter * result kv_err Response :=
  let ts := readTimestamp ba in
  let stored {A} (r : result mvcc_err A) (k : A -> Response) : result kv_err Response :=
    match r with Ok a => Ok (k a) | Err e => Err (ErrStorage e) end in
  match GetInner u with
  | Some (RGet req) =>
      let '(g, r) := Getter_Get g s (hKey (gtHeader req)) ts (read_opts maxOffset ba 0) in
      (g, stored r OGet)
  | Some (RScan req) =>
      let scan := if scReverse req then MVCCReverseScan else MVCCScan in
      (g, stored (scan pb s (hKey (scHeader req)) (hEndKey (scHeader req)) ts (scMaxRows req)
                    (read_opts maxOffset ba scanTargetBytes)) (fun res => OScan (scanResponse res)))
  | Some (RExport req) =>
      (g, stored (MVCCExport pb s (hKey (exHeader req)) (hEndKey (exHeader req)) (exStartTS req) ts (exMaxRecords req))
            (fun res => OExport (mkExportResponse (Records res) (exResume res))))
  | Some (RRefresh req) =>
      match bhTxn (baHeader ba) with
      | None => (g, Err ErrNoTransaction)
      | Some txn =>
          let key := hKey (rfHeader req) in
          let end_ := if (length (hEndKey (rfHeader req)) =? 0)%nat then Key_Next key else hEndKey (rfHeader req) in
          (g, stored (MVCCCheckForWrites pb s key end_ (rfFromTS req) ts (ID (tMeta txn))) (fun _ => ORefresh))
      end
  | Some (RPushTxn req) => (g, query_push s req)
  | _ => (g, Err ErrUnsupported)
  end.

Fixpoint eval_reads (maxOffset : Z) (pb : bool) (s : store) (ba : BatchRequest) (g : Getter) (us : list RequestUnion)
    (out : list Response) : result kv_err (list Response) :=
  match us with
  | [] => Ok out
  | u :: us =>
      match evalReadRequest maxOffset pb s ba g u with
      | (g, Ok r) => eval_reads maxOffset pb s ba g us (out ++ [r])
      | (_, Err e) => Err e
      end
  end.

Definition evalReadOnly (maxOffset : Z) (pb : bool) (s : store) (ba : BatchRequest) : result kv_err BatchResponse :=
  let* rs := eval_reads maxOffset pb s ba (NewGetter pb false) (baRequests ba) [] in
  Ok (mkBatchResponse (bhTxn (baHeader ba)) (bhTimestamp (baHeader ba)) rs).

(** ** Application *)

(** A replica: its replicated state in memory and its engine. *)
Record replica := mkReplica { r_mu : replicaMu; r_store : store }.

Definition stageAppliedIndex (rangeID idx : Z) (m : replicaMu) (s : store) : store :=
  putReplicaState rangeID
    (mkState idx (muTruncated m) (muGCThreshold m) (muSizeBytes m) (muFrozen m) (muMergedInto m) (muClosedTS m)) s.

Fixpoint size_loop (fuel : nat) (it : pebbleIter) (size : Z) : option Z :=
  match fuel with
  | O => None
  | S fuel => match cur it with None => Some size | Some (k, v) => size_loop fuel (INext it) (i64 (size + i64 (zlen k + zlen v))) end
  end.
(** The fuel is the number of entries of the span and one more. *)
Definition spanSizeBytes (pb : bool) (s : store) (start end_ : bytes) : Z :=
  let lower := EncodeMVCCKey start ts0 in
  let upper := EncodeMVCCKey end_ ts0 in
  let it := Batch_NewIter pb s lower upper in
  default 0 (size_loop (S (length (it_view (pit it)))) (SeekGE it lower) 0).

Definition stageSplit (pb : bool) (trig : splitTrigger) (m : replicaMu) (s : store) : result kv_err (replicaMu * store) :=
  if staleDescriptorChange (Generation (muDesc m)) (Generation (spLeft trig)) then Err ErrText
  else
    let s := PutRangeDescriptor (spRight trig) (PutRangeDescriptor (spLeft trig) s) in
    let leftSize := spanSizeBytes pb s (StartKey (spLeft trig)) (EndKey (spLeft trig)) in
    let rightSize := spanSizeBytes pb s (StartKey (spRight trig)) (EndKey (spRight trig)) in
    Ok (mu_size m leftSize,
        putReplicaState (RangeID (spRight trig))
          (mkState 0 (mkTrunc 0 0) (muGCThreshold m) rightSize false 0 (spClosedTS trig)) s).

(** [None] is the abandoned apply. *)
Definition stageMerge (env : applyEnv) (trig : mergeTrigger) (m : replicaMu) (s : store)
    : option (result kv_err (replicaMu * store)) :=
  if negb (Generation (muDesc m) =? Generation (mgLeft trig)) then Some (Err ErrText)
  else
    match evRhs env with
    | None => None
    | Some rd =>
        if negb (Generation rd =? Generation (mgRight trig)) || negb (beqb (EndKey rd) (EndKey (mgMerged trig)))
        then Some (Err ErrText)
        else
          let pre := RangeUnreplicatedPrefix (RangeID (mgRight trig)) in
          let s := PutRangeDescriptor (mgMerged trig) s in
          let s := Batch_DeleteRange s pre (PrefixEnd pre) in
          let s := Batch_Put s (RangeTombstoneKey (RangeID (mgRight trig))) (str "merged"%string) in
          let m := mu_size m (i64 (muSizeBytes m + mgRightSizeBytes trig)) in
          Some (Ok (if Less (muGCThreshold m) (mgRightGCThreshold trig) then mu_gc m (mgRightGCThreshold trig) else m, s))
    end.

(** What a successful evaluation does to the replicated state. *)
Definition raise_gc (ba : BatchRequest) (m : replicaMu) : replicaMu :=
  let newThr := fold_left (fun t u => match uGC u with Some g => Forward t (gcThreshold g) | None => t end) (baRequests ba) ts0 in
  if negb (IsEmpty newThr) && Less (muGCThreshold m) newThr then mu_gc m newThr else m.
Definition raise_closed (closed : Timestamp) (m : replicaMu) : replicaMu :=
  if negb (IsEmpty closed) && Less (muClosedTS m) closed then mu_closed m closed else m.
Definition add_size (ba : BatchRequest) (m : replicaMu) : replicaMu :=
  let delta := commandSizeDelta ba in
  if delta =? 0 then m
  else let size := i64 (muSizeBytes m + delta) in mu_size m (if size <? 0 then 0 else size).

Inductive applyOut := Applied (r : result kv_err BatchResponse) | Aborted.

(** What is staged so far: the memory, the batch and the outcome.  On an
    error the batch is replaced by an empty one. *)
Definition staged := (replicaMu * store * result kv_err BatchResponse)%type.

Definition stage_eval (pb : bool) (env : applyEnv) (cmd : raftCommand) (r : replica) : staged :=
  let '(st, res) := evalWriteBatch env (cmBatch cmd) (mkES (NewBatch pb (r_store r)) (r_mu r) (NewGetter pb true)) in
  match res with
  | Ok _ => (add_size (cmBatch cmd) (raise_closed (cmClosedTS cmd) (raise_gc (cmBatch cmd) (es_mu st))), b_store (es_b st), res)
  | Err _ => (es_mu st, r_store r, res)
  end.

Definition stage_split (pb : bool) (cmd : raftCommand) (r : replica) (sg : staged) : staged :=
  let '(m, s, res) := sg in
  match res, cmSplit cmd with
  | Ok _, Some trig => match stageSplit pb trig m s with Ok (m, s) => (m, s, res) | Err e => (m, r_store r, Err e) end
  | _, _ => sg
  end.

Definition stage_merge (env : applyEnv) (cmd : raftCommand) (r : replica) (sg : staged) : option staged :=
  let '(m, s, res) := sg in
  match res, cmMerge cmd with
  | Ok _, Some trig =>
      match stageMerge env trig m s with
      | None => None
      | Some (Ok (m, s)) => Some (m, s, res)
      | Some (Err e) => Some (m, r_store r, Err e)
      end
  | _, _ => Some sg
  end.

(** [finishSplit] and [finishMerge] adopt the new descriptor. *)
Definition finish_desc (cmd : raftCommand) (res : result kv_err BatchResponse) (m : replicaMu) : replicaMu :=
  let m := match res, cmSplit cmd with Ok _, Some trig => mu_desc m (spLeft trig) | _, _ => m end in
  match res, cmMerge cmd with Ok _, Some trig => mu_desc m (mgMerged trig) | _, _ => m end.

Definition applyCommand (pb : bool) (env : applyEnv) (cmd : raftCommand) (idx : Z) (r : replica) : replica * applyOut :=
  let sg := stage_split pb cmd r (stage_eval pb env cmd r) in
  match stage_merge env cmd r sg with
  | None => (mkReplica sg.1.1 (r_store r), Aborted)
  | Some (m, s, res) =>
      (mkReplica (finish_desc cmd res (mu_applied m idx)) (stageAppliedIndex (evRangeID env) idx m s), Applied res)
  end.

(** A log entry, decoded. *)
Inductive entryData :=
| ENoop | ECommand (cmd : raftCommand) | ECorrupt | EConfChange (removeNode : bool) (newDesc : option RangeDescriptor).
Record logEntry := mkLogEntry { leIndex : Z; leData : entryData }.

Inductive entryOut := Skipped | Done (r : result kv_err BatchResponse) | Changed | Refused | Removed | Stopped.

Definition applyEntry (pb : bool) (env : applyEnv) (ent : logEntry) (r : replica) : replica * entryOut :=
  let m := r_mu r in
  if leIndex ent <=? muAppliedIndex m then (r, Skipped)
  else
    let advance m s := mkReplica (mu_applied m (leIndex ent)) (stageAppliedIndex (evRangeID env) (leIndex ent) m s) in
    match leData ent with
    | ENoop => (advance m (r_store r), Changed)
    | ECorrupt => (r, Stopped)
    | ECommand cmd =>
        match applyCommand pb env cmd (leIndex ent) r with
        | (r, Applied res) => (r, Done res)
        | (r, Aborted) => (r, Stopped)
        end
    | EConfChange removeNode None => (advance m (r_store r), Changed)
    | EConfChange removeNode (Some d) =>
        if staleDescriptorChange (Generation (muDesc m)) (Generation d) && negb (sameDescriptor (muDesc m) d)
        then (advance m (r_store r), Refused)
        else
          let r := advance (mu_desc m d) (PutRangeDescriptor d (r_store r)) in
          (r, if removeNode && negb (bool_decide (is_Some (GetReplica d (evNodeID env)))) then Removed else Changed)
    end.
End Eval.
