(* ===== verification/ApplySpec.v ===== *)
(** * The replicated state machine: frames, crash recovery, failed commands

    What evaluation may touch: MVCC operations on global keys leave every
    local key alone, and no request writes the range's own descriptor.  With
    it, the durable state always equals the state in memory, so recovery
    after a crash continues exactly where the log left off. *)

From S2P Require Import Prelude Encoding Hlc Keys MvccKey Pebble Enginepb Mvcc MvccView MvccRead MvccWrite MvccState MvccTxn MvccScan.
From S2P Require Import MvccRange MvccRangeSpec Kvpb KvpbWire TxnRecord TxnRecordSpec Gc Strconv Apply.
From Stdlib Require Import String.

#[local] Abbreviation length := Datatypes.length.
#[local] Open Scope list_scope.
Open Scope Z_scope.

Section Frames.
Context {P : Pebble} {PL : PebbleLaws P} {C : MetaCodec} {T : TxnCodec} {SC : StateCodec}.

(** A batch operation that leaves the engine key [x] as it was. *)
Definition keeps {A} (x : bytes) (m : BM A) : Prop := forall b, st_get (b_store (m b).1) x = st_get (b_store b) x.

Lemma keeps_ret {A} x (a : A) : keeps x (bret a).
Proof. by intros b. Qed.
Lemma keeps_fail {A} x e : keeps x (bfail (A := A) e).
Proof. by intros b. Qed.
Lemma keeps_lift {A} x (r : result mvcc_err A) : keeps x (blift r).
Proof. by intros b. Qed.
Lemma keeps_get x k : keeps x (bGet k).
Proof. by intros b. Qed.
Lemma keeps_put x k v : k <> x -> keeps x (bPut k v).
Proof. intros Hk b. cbn. by apply get_set_ne. Qed.
Lemma keeps_delete x k : k <> x -> keeps x (bDelete k).
Proof. intros Hk b. cbn. by apply get_del_ne. Qed.
Lemma keeps_bind {A B} x (m : BM A) (k : A -> BM B) : keeps x m -> (forall a, keeps x (k a)) -> keeps x (bbind m k).
Proof.
  intros Hm Hk b. unfold bbind. specialize (Hm b). destruct (m b) as [b' [a|e]]; cbn [fst] in *; [|done]. by rewrite Hk.
Qed.
Lemma keeps_writeState x mk upper : keeps x (writeState mk upper).
Proof.
  intros b. unfold writeState. destruct (it_cur _) as [[k v]|]; [|done]. destruct (beqb k mk); [done|].
  by destruct (lift_key (DecodeMVCCKey k)) as [[]|].
Qed.
Lemma keeps_read {A} x (f : bool -> store -> result mvcc_err A) : keeps x (read f).
Proof. by intros b. Qed.

Create HintDb frame.
#[local] Hint Resolve keeps_ret keeps_fail keeps_lift keeps_get keeps_put keeps_delete keeps_bind keeps_writeState keeps_read : frame.

(** Case analysis on what an operation branches on. *)
Ltac frame :=
  repeat first
    [ progress eauto with frame
    | match goal with
      | |- keeps _ (bbind _ _) => apply keeps_bind; [|intros ?]
      | |- keeps _ (match ?t with _ => _ end) => destruct t
      end ].

(** The engine keys of a global user key are not local. *)
Lemma meta_not_local k x : IsLocal k = false -> IsLocal x = true -> metaKey k <> x.
Proof. intros Hk Hx <-. rewrite <- (app_nil_r (metaKey k)), metaKey_local in Hx. congruence. Qed.
Lemma version_not_local k t x : IsLocal k = false -> IsLocal x = true -> appendVersionSuffix (metaKey k) t <> x.
Proof. intros Hk Hx <-. rewrite appendVersionSuffix_eq, metaKey_local in Hx. congruence. Qed.
Lemma engine_not_local k t x : IsLocal k = false -> IsLocal x = true -> EncodeMVCCKey k t <> x.
Proof.
  intros Hk Hx. destruct (decide (t = ts0)) as [->|Ht]; [rewrite EncodeMVCCKey_meta; by apply meta_not_local|].
  rewrite EncodeMVCCKey_version by done. intros <-. rewrite metaKey_local in Hx. congruence.
Qed.
#[local] Hint Resolve meta_not_local version_not_local engine_not_local : frame.

Lemma keeps_mvccWrite x k ts v tomb txn : IsLocal k = false -> IsLocal x = true -> keeps x (mvccWrite k ts v tomb txn).
Proof. intros Hk Hx. unfold mvccWrite. rewrite mvccKeyBounds_pair. unfold rewrite_history. frame. Qed.
Lemma keeps_mvccWriteCommitted x k ts v tomb : IsLocal k = false -> IsLocal x = true -> keeps x (mvccWriteCommitted k ts v tomb).
Proof. intros Hk Hx. unfold mvccWriteCommitted. rewrite mvccKeyBounds_pair. frame. Qed.
Lemma keeps_rollback x k id seq : IsLocal k = false -> IsLocal x = true -> keeps x (MVCCRollbackIntent k id seq).
Proof. intros Hk Hx. unfold MVCCRollbackIntent. rewrite mvccKeyBounds_pair. frame. Qed.
Lemma keeps_resolve x k id st ts : IsLocal k = false -> IsLocal x = true -> keeps x (MVCCResolveIntent k id st ts).
Proof. intros Hk Hx. unfold MVCCResolveIntent. rewrite mvccKeyBounds_pair. frame. Qed.
Lemma keeps_lock x k ts v txn : IsLocal k = false -> IsLocal x = true -> keeps x (MVCCLock k ts v txn).
Proof. intros Hk Hx. unfold MVCCLock. destruct txn; [by apply keeps_mvccWrite|apply keeps_fail]. Qed.

Lemma keeps_lock_rows x rows ts meta : IsLocal x = true -> Forall (fun kv => IsLocal (kvKey kv) = false) rows ->
  forall met, keeps x (lock_rows rows ts meta met).
Proof.
  intros Hx. induction 1 as [|kv rows Hkv _ IH]; intros met b; cbn [lock_rows]; [done|].
  pose proof (keeps_lock x (kvKey kv) ts (kvValue kv) meta Hkv Hx b) as Hb.
  destruct (MVCCLock (kvKey kv) ts (kvValue kv) meta b) as [b' [a|e]]; cbn [fst] in Hb; [by rewrite IH|].
  destruct e; cbn [fst]; try done. by rewrite IH.
Qed.

(** ** The rows of a scan *)

Definition in_view (V : list entry) (it : pebbleIter) : Prop :=
  it_view (pit it) = V /\ forall e, cur it = Some e -> e ∈ V.

Lemma in_view_seek V it k : it_view (pit it) = V -> in_view V (SeekGE it k).
Proof.
  intros Hv. unfold SeekGE, in_view, cur. cbn [pit with_it]. rewrite seek_ge_view. split; [done|].
  intros e. rewrite seek_ge_cur, Hv. apply first_elem.
Qed.
Lemma in_view_next V it e : in_view V it -> cur it = Some e -> in_view V (INext it).
Proof.
  intros [Hv _] He. unfold INext, in_view, cur in *. cbn [pit with_it]. rewrite next_view. split; [done|].
  intros e'. destruct e as [k v]. rewrite (next_cur _ _ _ He), Hv. apply first_elem.
Qed.

Lemma in_view_stepPast V n : forall it k pfx, in_view V it -> in_view V (stepPast_loop n it k pfx).
Proof.
  induction n as [|n IH]; intros it k pfx H; cbn [stepPast_loop]; (destruct (cur it) as [[x v]|] eqn:E; [|done]);
    (destruct (negb _); [done|]); [apply in_view_seek, H|]. by eapply IH, in_view_next.
Qed.

Lemma in_view_uncertain V fuel : forall it pfx ts sk lim, in_view V it -> in_view V (scan_uncertain_loop fuel it pfx ts sk lim).1.
Proof.
  induction fuel as [|fuel IH]; intros it pfx ts sk lim H; cbn [scan_uncertain_loop]; [done|].
  destruct (cur it) as [[x v]|] eqn:E; [|done]. destruct (negb _); [done|]. destruct (_ && _).
  - by destruct (Less _ _).
  - by eapply IH, in_view_next.
Qed.
Lemma in_view_value V fuel : forall it k pfx ts sk n, in_view V it -> in_view V (scan_value_loop fuel it k pfx ts sk n).1.
Proof.
  induction fuel as [|fuel IH]; intros it k pfx ts sk n H; cbn [scan_value_loop]; [done|].
  destruct (cur it) as [[x v]|] eqn:E; [|done]. destruct (negb _); [done|]. destruct (_ || _); [|done].
  destruct (_ <=? _)%nat; apply IH; [apply in_view_seek, H|by eapply in_view_next].
Qed.
Lemma in_view_versions V it k pfx ts opts ra sk c : in_view V it -> in_view V (scan_versions it k pfx ts opts ra sk c).1.
Proof.
  intros H. unfold scan_versions. destruct (negb _).
  - destruct (cur _) as [[x v]|]; [destruct (_ && _)|]; apply in_view_seek, H.
  - destruct (_ && _ && _).
    + destruct (scan_uncertain_loop _ _ _ _ _ _) as [it' r] eqn:E.
      assert (in_view V it') as Hit' by (replace it' with (it', r).1 by done; rewrite <- E; by apply in_view_uncertain).
      destruct r; [by apply in_view_value|done].
    + by apply in_view_value.
Qed.
Lemma in_view_scanKey V it k pfx ts opts ints : in_view V it -> in_view V (mvccScanKey it k pfx ts opts ints).1.1.
Proof.
  intros H. unfold mvccScanKey. destruct (cur it) as [[x v]|] eqn:E; [|done]. destruct (IsEmpty _).
  - destruct (decodeMeta v) as [meta|]; [|done]. assert (Hn : in_view V (INext it)) by by eapply in_view_next.
    destruct (intent_switch meta ts opts) as [t|t|]; [..|by destruct (_ <=? _)%nat];
      (destruct (cur (INext it)); [|done]); destruct (scan_versions _ _ _ _ _ _ _ _) as [it' r] eqn:E'; cbn [fst];
      replace it' with (it', r).1 by done; rewrite <- E'; by apply in_view_versions.
  - destruct (scan_versions _ _ _ _ _ _ _ _) as [it' r] eqn:E'. cbn [fst]. replace it' with (it', r).1 by done.
    rewrite <- E'. by apply in_view_versions.
Qed.

(** Every row's key is decoded from an entry of the view. *)
Lemma scan_loop_rows V fuel : forall it ts max opts rows ints n res,
  in_view V it -> scan_loop fuel it ts max opts rows ints n = Ok res ->
  Forall (fun kv => kv ∈ rows \/ exists e t, e ∈ V /\ DecodeMVCCKey e.1 = Ok (kvKey kv, t)) (KVs res).
Proof.
  induction fuel as [|fuel IH]; intros it ts max opts rows ints n res Hv; cbn [scan_loop]; [done|].
  destruct (cur it) as [[x v]|] eqn:E.
  2: { destruct ints; [|done]. intros [= <-]. apply Forall_forall. intros kv Hkv. by left. }
  destruct (DecodeMVCCKey x) as [[k vts]|] eqn:Ed; [|done]. cbn [lift_key rmap_err rbind].
  pose proof (in_view_scanKey V it k (appendMetaKeyOf x vts) ts opts ints Hv) as Hv'.
  destruct (mvccScanKey it k (appendMetaKeyOf x vts) ts opts ints) as [[it' ints'] r]. cbn [fst] in Hv'.
  destruct r as [found|]; [|done]. cbn [rbind].
  assert (Hrow : forall val, mkKV k val ∈ rows \/ exists e t, e ∈ V /\ DecodeMVCCKey e.1 = Ok (k, t)).
  { intros val. right. exists (x, v), vts. split; [by apply Hv|done]. }
  assert (Hgo : forall rows' ints'' n', (forall kv, kv ∈ rows' -> kv ∈ rows \/ exists e t, e ∈ V /\ DecodeMVCCKey e.1 = Ok (kvKey kv, t)) ->
    scan_loop fuel (stepPastKey it' k (appendMetaKeyOf x vts)) ts max opts rows' ints'' n' = Ok res ->
    Forall (fun kv => kv ∈ rows \/ exists e t, e ∈ V /\ DecodeMVCCKey e.1 = Ok (kvKey kv, t)) (KVs res)).
  { intros rows' ints'' n' Hsub Hs. apply IH in Hs; [|by apply in_view_stepPast]. eapply Forall_impl; [exact Hs|].
    intros kv [Hkv|Hkv]; [by apply Hsub|by right]. }
  destruct found as [val|]; [|by apply Hgo; left]. destruct ints' as [|i ints']; [|by apply Hgo; left].
  assert (Hrows : forall kv, kv ∈ rows ++ [mkKV k val] -> kv ∈ rows \/ exists e t, e ∈ V /\ DecodeMVCCKey e.1 = Ok (kvKey kv, t)).
  { intros kv Hkv. apply elem_of_app in Hkv as [Hkv|Hkv]; [by left|]. apply list_elem_of_singleton in Hkv as ->. apply Hrow. }
  destruct (page_full _ _ _ _); [|by apply Hgo]. intros [= <-]. apply Forall_forall. by apply Hrows.
Qed.

(** The keys a scan of a global span returns are global. *)
Lemma scan_rows_global pb s start end_ ts max opts res :
  [2] ≼ start -> MVCCScan pb s start end_ ts max opts = Ok res -> Forall (fun kv => IsLocal (kvKey kv) = false) (KVs res).
Proof.
  intros Hst. unfold MVCCScan. rewrite !EncodeMVCCKey_meta. set (V := bounded (metaKey start) (metaKey end_) (st_entries s)). intros H.
  apply (scan_loop_rows V) in H.
  - eapply Forall_impl; [exact H|]. intros kv [Hkv|(e & t & He & Hd)]; [by apply not_elem_of_nil in Hkv|].
    unfold DecodeMVCCKey in Hd. destruct (DecodeBytes e.1) as [[rest u]|] eqn:Eb; [|done].
    apply DecodeBytes_inv in Eb. assert (u = kvKey kv) as -> by (repeat case_match; congruence).
    unfold V in He. apply elem_of_bounded in He as [_ [Hlo _]].
    rewrite <- (metaKey_local (kvKey kv) rest). unfold metaKey. rewrite <- Eb.
    apply (above_local (metaKey start)); [|done]. rewrite <- (app_nil_r (metaKey start)). by apply metaKey_above2.
  - apply in_view_seek. apply new_view.
Qed.

(** ** What evaluation may touch *)

(** A local key that is not a transaction record's. *)
Definition private (x : bytes) : Prop := IsLocal x = true /\ has_prefix x localAddressedPrefix = false.

Lemma txn_key_private x anchor id : private x -> TransactionKey anchor id <> x.
Proof.
  intros [_ Hp] <-. unfold TransactionKey in Hp. rewrite EncodeBytes_prefix, <- app_assoc, has_prefix_app in Hp. discriminate.
Qed.
Lemma IsTransactionKey_private x k : private x -> IsTransactionKey k = true -> k <> x.
Proof. intros [_ Hp] Hk ->. unfold IsTransactionKey in Hk. rewrite Hp in Hk. discriminate. Qed.

Definition ekeeps {A} (x : bytes) (m : EM A) : Prop := forall b, st_get (b_store (m b).1) x = st_get (b_store b) x.

Lemma ekeeps_bind {A B} x (m : EM A) (k : A -> EM B) : ekeeps x m -> (forall a, ekeeps x (k a)) -> ekeeps x (ebind m k).
Proof.
  intros Hm Hk b. unfold ebind. specialize (Hm b). destruct (m b) as [b' [a|e]]; cbn [fst] in *; [|done]. by rewrite Hk.
Qed.
Lemma ekeeps_store {A} x (m : BM A) : keeps x m -> ekeeps x (estore m).
Proof. intros Hm b. unfold estore. specialize (Hm b). by destruct (m b) as [b' [a|e]]. Qed.
Lemma ekeeps_load x k : ekeeps x (loadTxnRecord k).
Proof. intros b. unfold loadTxnRecord. destruct (Batch_Get _ _); [|done]. by destruct (UnmarshalTxnRecord _). Qed.
Lemma ekeeps_ret {A} x (a : A) : ekeeps x (eret a).
Proof. by intros b. Qed.
Lemma ekeeps_fail {A} x e : ekeeps x (efail (A := A) e).
Proof. by intros b. Qed.
Lemma ekeeps_put x anchor id t : private x -> ekeeps x (putTxnRecord (TransactionKey anchor id) t).
Proof. intros Hx. apply ekeeps_store, keeps_put. by apply txn_key_private. Qed.

#[local] Hint Resolve ekeeps_bind ekeeps_store ekeeps_load ekeeps_ret ekeeps_fail ekeeps_put : frame.

Ltac eframe :=
  repeat first
    [ progress eauto with frame
    | match goal with
      | |- ekeeps _ (ebind _ _) => apply ekeeps_bind; [|intros ?]
      | |- ekeeps _ (match ?t with _ => _ end) => destruct t
      end ].

Lemma ekeeps_create x thr txn : private x -> ekeeps x (createTxnRecord thr txn).
Proof. intros Hx. unfold createTxnRecord, txnRecordKey. eframe. Qed.
Lemma ekeeps_end x txn req : private x -> ekeeps x (evalEndTxn txn req).
Proof. intros Hx. unfold evalEndTxn, txnRecordKey. cbn zeta. eframe. Qed.
Lemma ekeeps_heartbeat x txn req : private x -> ekeeps x (evalHeartbeatTxn txn req).
Proof. intros Hx. unfold evalHeartbeatTxn, txnRecordKey. cbn zeta. eframe. Qed.
Lemma ekeeps_push x req : private x -> ekeeps x (evalPushTxn req).
Proof. intros Hx. unfold evalPushTxn, push_abort. cbn zeta. eframe. Qed.
Lemma ekeeps_recover x req : private x -> ekeeps x (evalRecoverTxn req).
Proof. intros Hx. unfold evalRecoverTxn. cbn zeta. eframe. Qed.
Lemma ekeeps_update x req ts : private x -> IsLocal (hKey (umHeader req)) = false -> ekeeps x (evalUpdateMeta req ts).
Proof.
  intros [Hx _] Hk. unfold evalUpdateMeta, MVCCDelete, MVCCPut. cbn zeta.
  apply ekeeps_bind; [apply ekeeps_store, keeps_read|]. intros raw.
  assert (forall ts v tomb, ekeeps x (let! _ := estore (mvccWrite (hKey (umHeader req)) ts v tomb None) in eret true)) as Hw.
  { intros ts' v tomb. apply ekeeps_bind; [by apply ekeeps_store, keeps_mvccWrite|intros; apply ekeeps_ret]. }
  eframe.
Qed.
(** An evaluation that keeps the engine key [x] and the descriptor. *)
Definition akeeps {A} (x : bytes) (m : AM A) : Prop := forall st,
  st_get (b_store (es_b (m st).1)) x = st_get (b_store (es_b st)) x /\ muDesc (es_mu (m st).1) = muDesc (es_mu st).

Lemma akeeps_collecting_of {A} x (m : BM A) k :
  keeps x m -> (forall a b b', m b = (b', Ok a) -> akeeps x (k a)) -> akeeps x (collecting m k).
Proof.
  intros Hm Hk st. unfold collecting. specialize (Hm (es_b st)). destruct (m (es_b st)) as [b [a|e]] eqn:E; cbn [fst] in Hm.
  - destruct (Hk a _ _ E (es_with_b st b)) as [H1 H2]. cbn in H1. by rewrite H1, H2.
  - by destruct e.
Qed.
Lemma akeeps_collecting {A} x (m : BM A) k : keeps x m -> (forall a, akeeps x (k a)) -> akeeps x (collecting m k).
Proof. intros Hm Hk. apply akeeps_collecting_of; [done|]. intros a _ _ _. apply Hk. Qed.
Lemma akeeps_strictly {A} x (m : EM A) k : ekeeps x m -> (forall a, akeeps x (k a)) -> akeeps x (strictly m k).
Proof.
  intros Hm Hk st. unfold strictly. specialize (Hm (es_b st)). destruct (m (es_b st)) as [b [a|e]]; cbn [fst] in Hm; [|done].
  destruct (Hk a (es_with_b st b)) as [H1 H2]. cbn in H1. by rewrite H1, H2.
Qed.
Lemma akeeps_respond x r : akeeps x (respond r).
Proof. by intros st. Qed.
Lemma akeeps_refuse x e : akeeps x (refuse e).
Proof. by intros st. Qed.
#[local] Hint Resolve akeeps_respond akeeps_refuse : frame.

(** MVCC requests name global keys; GC deletes versions of global keys and
    transaction records. *)
Definition request_ok (u : RequestUnion) : Prop :=
  match GetInner u with
  | Some (RPut r) => IsLocal (hKey (puHeader r)) = false
  | Some (RDelete r) => IsLocal (hKey (deHeader r)) = false
  | Some (RIncrement r) => IsLocal (hKey (icHeader r)) = false
  | Some (RGet r) => IsLocal (hKey (gtHeader r)) = false
  | Some (RScan r) => [2] ≼ hKey (scHeader r)
  | Some (RResolveIntent r) => IsLocal (hKey (riHeader r)) = false
  | Some (RRollbackIntent r) => IsLocal (hKey (rbHeader r)) = false
  | Some (RUpdateMeta r) => IsLocal (hKey (umHeader r)) = false
  | Some (RGC r) => Forall (fun v => IsLocal (gvKey v) = false) (gcVersions r) /\
      Forall (fun k => IsTransactionKey k = true) (gcTxnRecordKeys r)
  | _ => True
  end.

Lemma delete_all_keeps x ks : Forall (fun k => k <> x) ks -> forall s, st_get (fold_left Batch_Delete ks s) x = st_get s x.
Proof. induction 1 as [|k ks Hk _ IH]; intros s; cbn [fold_left]; [done|]. rewrite IH. by apply get_del_ne. Qed.

Lemma akeeps_scan x ba req : private x -> [2] ≼ hKey (scHeader req) -> akeeps x (evalScan ba req).
Proof.
  intros [Hx _] Hk. unfold evalScan. destruct (scReverse req && scForUpdate req) eqn:Erf; [apply akeeps_refuse|].
  apply akeeps_collecting_of; [apply keeps_read|]. intros r b b' Er. unfold read in Er. injection Er as _ Er.
  destruct (scForUpdate req) eqn:Ef; [|apply akeeps_respond]. destruct (batchTxnMeta ba) as [meta|]; [|apply akeeps_refuse].
  rewrite andb_true_r in Erf. rewrite Erf in Er. apply scan_rows_global in Er; [|done].
  apply akeeps_collecting; [by apply keeps_lock_rows|]. intros met. by destruct met.
Qed.

Lemma akeeps_get x ba req : private x -> IsLocal (hKey (gtHeader req)) = false -> akeeps x (evalGet ba req).
Proof.
  intros [Hx _] Hk st. unfold evalGet. destruct (Getter_Get _ _ _ _ _) as [g r].
  refine (akeeps_collecting x (blift r) _ (keeps_lift x r) _ (mkES (es_b st) (es_mu st) g)). intros val.
  destruct (gtForUpdate req); [|apply akeeps_respond]. destruct (batchTxnMeta ba); [|apply akeeps_refuse].
  apply akeeps_collecting; [by apply keeps_lock|intros; apply akeeps_respond].
Qed.

Lemma akeeps_increment x ts meta req : private x -> IsLocal (hKey (icHeader req)) = false -> akeeps x (evalIncrement ts meta req).
Proof.
  intros [Hx _] Hk. unfold evalIncrement. apply akeeps_collecting; [apply keeps_read|]. intros cur.
  destruct (match cur with None => _ | Some _ => _ end); [|apply akeeps_refuse].
  apply akeeps_collecting; [by apply keeps_mvccWrite|intros; apply akeeps_respond].
Qed.

Lemma akeeps_truncate x env req : (forall i, RaftLogKey (evRangeID env) i <> x) -> akeeps x (evalTruncate env req).
Proof.
  intros Hx st. unfold evalTruncate, stageTruncate. destruct (_ <=? _); [done|]. destruct (_ <? _); [done|].
  cbn [fst es_b es_mu b_store b_with_store mu_truncated muDesc]. split; [|done]. apply delete_all_keeps, Forall_forall.
  intros k Hk. apply list_elem_of_In, in_map_iff in Hk as (i & <- & _). apply Hx.
Qed.

Lemma akeeps_gc x req : private x -> Forall (fun v => IsLocal (gvKey v) = false) (gcVersions req) ->
  Forall (fun k => IsTransactionKey k = true) (gcTxnRecordKeys req) ->
  akeeps x (fun st => respond OGC (es_with_b st (evalGC (es_b st) req))).
Proof.
  intros Hx Hv Hr st. split; [|done]. cbn [respond fst es_b es_with_b]. unfold evalGC, delete_records. cbn [b_store b_with_store].
  rewrite delete_all_keeps, delete_versions_keep; [done|..].
  - eapply Forall_impl; [exact Hv|]. intros v Hvl. apply engine_not_local; [done|apply Hx].
  - eapply Forall_impl; [exact Hr|]. intros k Hkr. by apply IsTransactionKey_private.
Qed.

Lemma akeeps_request x env ba u :
  private x -> (forall i, RaftLogKey (evRangeID env) i <> x) -> request_ok u -> akeeps x (evalRequest env ba u).
Proof.
  intros Hx Hl Hok. pose proof (proj1 Hx) as Hloc. unfold evalRequest, request_ok in *.
  destruct (GetInner u) as [[r|r|r|r|r|r|r|r|r|r|r|r|r|r|r|r|r|r|r|r|r|r]|]; try apply akeeps_refuse.
  - by apply akeeps_get.
  - apply akeeps_collecting; [by apply keeps_mvccWrite|intros; apply akeeps_respond].
  - apply akeeps_collecting; [by apply keeps_mvccWrite|intros; apply akeeps_respond].
  - by apply akeeps_increment.
  - by apply akeeps_scan.
  - apply akeeps_strictly; [by apply ekeeps_end|intros; apply akeeps_respond].
  - apply akeeps_strictly; [by apply ekeeps_heartbeat|intros; apply akeeps_respond].
  - apply akeeps_strictly; [by apply ekeeps_push|intros; apply akeeps_respond].
  - apply akeeps_strictly; [by apply ekeeps_store, keeps_resolve|intros; apply akeeps_respond].
  - apply akeeps_strictly; [by apply ekeeps_store, keeps_rollback|intros; apply akeeps_respond].
  - apply akeeps_strictly; [by apply ekeeps_recover|intros; apply akeeps_respond].
  - destruct Hok. by apply akeeps_gc.
  - by apply akeeps_truncate.
  - by intros st.
  - by intros st.
  - apply akeeps_strictly; [by apply ekeeps_update|intros; apply akeeps_respond].
Qed.

Lemma akeeps_onephase x ts u : private x -> request_ok u -> akeeps x (evalOnePhaseRequest ts u).
Proof.
  intros [Hx _] Hok. unfold evalOnePhaseRequest, request_ok in *.
  destruct (GetInner u) as [[r|r|r|r|r|r|r|r|r|r|r|r|r|r|r|r|r|r|r|r|r|r]|]; try apply akeeps_refuse; try apply akeeps_respond;
    (apply akeeps_collecting; [by apply keeps_mvccWriteCommitted|intros; apply akeeps_respond]).
Qed.

Lemma akeeps_requests x eval us : Forall (fun u => akeeps x (eval u)) us -> forall c out, akeeps x (eval_requests eval us c out).
Proof.
  induction 1 as [|u us Hu _ IH]; intros c out st; cbn [eval_requests]; [by destruct (collector_err c)|].
  destruct (Hu st) as [H1 H2]. destruct (eval u st) as [st' [[r|ints]|e]]; cbn [fst] in *; [..|done].
  - destruct (IH c (out ++ [r]) st') as [H3 H4]. by rewrite H3, H4.
  - destruct (IH (collect c ints) out st') as [H3 H4]. by rewrite H3, H4.
Qed.

Lemma akeeps_batch x env ba :
  private x -> (forall i, RaftLogKey (evRangeID env) i <> x) -> Forall request_ok (baRequests ba) -> akeeps x (evalWriteBatch env ba).
Proof.
  intros Hx Hl Hok st. unfold evalWriteBatch. destruct (is1PC ba).
  - assert (Ho : akeeps x (evalOnePhase ba)).
    { intros st'. unfold evalOnePhase. destruct (bhTxn (baHeader ba)) as [txn|]; [|done]. destruct (negb _); [done|].
      destruct (loadTxnRecord _ _) as [b [rec|e]]; [|done]. destruct (bool_decide _); [done|].
      apply akeeps_requests. eapply Forall_impl; [exact Hok|]. intros. by apply akeeps_onephase. }
    specialize (Ho st). by destruct (evalOnePhase ba st) as [st' [rs|e]].
  - set (created := if bhCreateTxnRecord _ then _ else _).
    assert (Hc : st_get (b_store created.1) x = st_get (b_store (es_b st)) x).
    { unfold created. destruct (bhCreateTxnRecord _); [|done]. by apply ekeeps_create. }
    destruct created as [b [[]|e]]; cbn [fst] in Hc; [|done].
    destruct (akeeps_requests x (evalRequest env ba) (baRequests ba)) with (c := @nil Intent) (out := @nil Response)
      (st := mkES b (es_mu st) (NewGetter (b_prefixBloom b) true)) as [H1 H2].
    { eapply Forall_impl; [exact Hok|]. intros. by apply akeeps_request. }
    cbn [es_b es_mu] in H1, H2. rewrite Hc in H1.
    by destruct (eval_requests (evalRequest env ba) (baRequests ba) [] [] _) as [st' [rs|e]].
Qed.
End Frames.

(** ** Range-local keys *)

Lemma makeRangeLocalKey_eq id suffix :
  makeRangeLocalKey id suffix = ([1; 117; 114] ++ be 8 (u64 id)) ++ str suffix.
Proof. done. Qed.

Lemma desc_key_private id : private (RangeDescriptorKey id).
Proof. by split. Qed.

Lemma range_local_inj id id' a b r s :
  makeRangeLocalKey id a ++ r = makeRangeLocalKey id' b ++ s -> u64 id = u64 id' /\ str a ++ r = str b ++ s.
Proof.
  rewrite !makeRangeLocalKey_eq, <- !app_assoc. intros E. apply (inj (app [1; 117; 114])) in E.
  apply app_inj_1 in E as [E1 E2]; [|by rewrite !length_be]. split; [|done].
  apply (f_equal be_val) in E1. rewrite !be_val_be in E1. rewrite !Z.mod_small in E1; [done|..]; apply u64_bound.
Qed.

Lemma range_local_inj_nil id id' a b : makeRangeLocalKey id a = makeRangeLocalKey id' b -> u64 id = u64 id' /\ str a = str b.
Proof.
  intros E. assert (makeRangeLocalKey id a ++ [] = makeRangeLocalKey id' b ++ []) as E' by (by rewrite !app_nil_r).
  apply range_local_inj in E'. by rewrite !app_nil_r in E'.
Qed.

Lemma log_key_not_desc id i id' : RaftLogKey id i <> RangeDescriptorKey id'.
Proof.
  unfold RaftLogKey, EncodeUint64, RangeDescriptorKey. intros E.
  assert (makeRangeLocalKey id "log" ++ be 8 i = makeRangeLocalKey id' "desc" ++ []) as E' by (by rewrite app_nil_r).
  apply range_local_inj in E' as [_ E']. discriminate.
Qed.
Lemma state_key_not_desc id id' : RaftAppliedStateKey id <> RangeDescriptorKey id'.
Proof. intros E. apply range_local_inj_nil in E as [_ E]. discriminate. Qed.
Lemma tomb_key_not_desc id id' : RangeTombstoneKey id <> RangeDescriptorKey id'.
Proof. intros E. apply range_local_inj_nil in E as [_ E]. discriminate. Qed.
Lemma desc_key_inj id id' : RangeDescriptorKey id = RangeDescriptorKey id' -> u64 id = u64 id'.
Proof. intros E. by apply range_local_inj_nil in E as [E _]. Qed.

Lemma desc_not_in_other_range id id' :
  u64 id <> u64 id' ->
  ~ (RangeUnreplicatedPrefix id ≼ RangeDescriptorKey id' /\ RangeDescriptorKey id' ≺ PrefixEnd (RangeUnreplicatedPrefix id)).
Proof.
  intros Hne Hin. assert (Hok : bytes_ok (RangeDescriptorKey id')).
  { unfold RangeDescriptorKey. rewrite makeRangeLocalKey_eq. repeat apply Forall_app_2; [by_compute|apply be_ok|by_compute]. }
  apply (in_span_prefix (RangeUnreplicatedPrefix id)) in Hin; [|done|by apply Exists_head].
  apply has_prefix_spec in Hin as [r Hr]. apply Hne.
  assert (makeRangeLocalKey id' "desc" ++ [] = makeRangeLocalKey id "" ++ r) as E by (by rewrite app_nil_r).
  by apply range_local_inj in E as [E _].
Qed.

(** ** Durable state *)

Section Replay.
Context {P : Pebble} {PL : PebbleLaws P} {C : MetaCodec} {T : TxnCodec} {SC : StateCodec} {SL : StateCodecLaws SC}.

(** What a restart finds: the stored descriptor and the applied state. *)
Definition restart (rangeID : Z) (s : store) : option replica :=
  match loadRangeDescriptor s rangeID with
  | None => None
  | Some d => match recover d s with Some m => Some (mkReplica m s) | None => None end
  end.

(** Memory and engine agree. *)
Record durable (id : Z) (r : replica) : Prop := {
  du_id : RangeID (muDesc (r_mu r)) = id;
  du_desc : loadRangeDescriptor (r_store r) id = Some (muDesc (r_mu r));
  du_state : recover (muDesc (r_mu r)) (r_store r) = Some (r_mu r) }.

Lemma durable_restart id r : durable id r -> restart id (r_store r) = Some r.
Proof. intros [_ Hd Hs]. unfold restart. rewrite Hd, Hs. by destruct r. Qed.

Lemma get_put s k v : v <> [] -> Batch_Get (Batch_Put s k v) k = Some v.
Proof. intros Hv. unfold Batch_Get, Batch_Put. rewrite get_set_eq. by destruct v. Qed.
Lemma load_desc_ext s s' id :
  st_get s (RangeDescriptorKey id) = st_get s' (RangeDescriptorKey id) -> loadRangeDescriptor s id = loadRangeDescriptor s' id.
Proof. unfold loadRangeDescriptor, Batch_Get. by intros ->. Qed.
Lemma load_desc_put d s : loadRangeDescriptor (PutRangeDescriptor d s) (RangeID d) = Some d.
Proof. unfold loadRangeDescriptor, PutRangeDescriptor. rewrite get_put by apply desc_nonempty. apply desc_roundtrip. Qed.
Lemma put_desc_keeps d s id : u64 (RangeID d) <> u64 id ->
  st_get (PutRangeDescriptor d s) (RangeDescriptorKey id) = st_get s (RangeDescriptorKey id).
Proof. intros Hne. unfold PutRangeDescriptor, Batch_Put. apply get_set_ne. intros E. by apply desc_key_inj in E. Qed.
Lemma put_state_keeps id st s id' :
  st_get (putReplicaState id st s) (RangeDescriptorKey id') = st_get s (RangeDescriptorKey id').
Proof. apply get_set_ne, state_key_not_desc. Qed.

(** Staging the applied index makes whatever is in memory durable. *)
Lemma stage_durable id idx m s d :
  RangeID d = id -> loadRangeDescriptor s id = Some d ->
  durable id (mkReplica (mu_desc (mu_applied m idx) d) (stageAppliedIndex id idx m s)).
Proof.
  intros Hid Hd. split; cbn [r_mu r_store mu_desc muDesc]; [done| |].
  - rewrite <- Hd. apply load_desc_ext, put_state_keeps.
  - unfold recover, loadReplicaStateFrom, stageAppliedIndex, putReplicaState. rewrite Hid.
    rewrite get_put by apply state_nonempty. by rewrite state_roundtrip.
Qed.

(** The triggers are built for this range. *)
Definition split_ok (id : Z) (t : splitTrigger) : Prop := RangeID (spLeft t) = id /\ u64 (RangeID (spRight t)) <> u64 id.
Definition merge_ok (id : Z) (t : mergeTrigger) : Prop := RangeID (mgMerged t) = id /\ u64 (RangeID (mgRight t)) <> u64 id.
Definition command_ok (id : Z) (c : raftCommand) : Prop :=
  Forall request_ok (baRequests (cmBatch c)) /\ (forall t, cmSplit c = Some t -> split_ok id t) /\
  (forall t, cmMerge c = Some t -> merge_ok id t).
Definition entry_ok (id : Z) (e : logEntry * applyEnv) : Prop :=
  evRangeID e.2 = id /\
  match leData e.1 with
  | ECommand c => command_ok id c
  | EConfChange _ (Some d) => RangeID d = id
  | _ => True
  end.

Lemma stageSplit_desc id pb t m s m' s' :
  split_ok id t -> stageSplit pb t m s = Ok (m', s') ->
  loadRangeDescriptor s' id = Some (spLeft t) /\ muAppliedIndex m' = muAppliedIndex m.
Proof.
  intros [Hl Hr]. unfold stageSplit. destruct (staleDescriptorChange _ _); [done|]. intros [= <- <-]. split; [|done].
  rewrite <- Hl, <- (load_desc_put (spLeft t) s). apply load_desc_ext.
  rewrite put_state_keeps, put_desc_keeps; [done|]. by rewrite Hl.
Qed.

Lemma stageMerge_desc id env t m s m' s' :
  merge_ok id t -> stageMerge env t m s = Some (Ok (m', s')) -> loadRangeDescriptor s' id = Some (mgMerged t).
Proof.
  intros [Hm Hr]. unfold stageMerge. destruct (negb _); [done|]. destruct (evRhs env) as [rd|]; [|done].
  destruct (_ || _); [done|]. intros [= _ <-]. rewrite <- Hm, <- (load_desc_put (mgMerged t) s). apply load_desc_ext.
  unfold Batch_Put at 1. rewrite get_set_ne by apply tomb_key_not_desc. unfold Batch_DeleteRange.
  apply get_del_range_out, desc_not_in_other_range. by rewrite Hm.
Qed.

(** The descriptor of the staged outcome, before and after the triggers. *)
Definition staged_ok (id : Z) (d : RangeDescriptor) (sg : staged) (d' : result kv_err BatchResponse -> RangeDescriptor) : Prop :=
  muDesc sg.1.1 = d /\ loadRangeDescriptor sg.1.2 id = Some (d' sg.2).

Lemma raise_desc c ba m : muDesc (add_size ba (raise_closed c (raise_gc ba m))) = muDesc m.
Proof.
  unfold add_size, raise_closed, raise_gc. destruct (_ =? 0); [|destruct (_ <? 0)]; cbn [mu_size muDesc];
    (destruct (negb (IsEmpty c) && _); cbn [mu_closed muDesc]; by destruct (negb _ && _)).
Qed.

Lemma stage_eval_ok id pb env c r :
  durable id r -> command_ok id c -> staged_ok id (muDesc (r_mu r)) (stage_eval pb env c r) (fun _ => muDesc (r_mu r)).
Proof.
  intros Hd (Hrq & _ & _). unfold stage_eval.
  pose proof (akeeps_batch (RangeDescriptorKey id) env (cmBatch c) (desc_key_private id)
    (fun i => log_key_not_desc _ i id) Hrq (mkES (NewBatch pb (r_store r)) (r_mu r) (NewGetter pb true))) as [Hk1 Hk2].
  destruct (evalWriteBatch env (cmBatch c) _) as [st [br|e]]; cbn [fst es_b es_mu b_store NewBatch] in Hk1, Hk2; (split; cbn [fst snd]).
  - by rewrite raise_desc.
  - rewrite <- (du_desc _ _ Hd). by apply load_desc_ext.
  - done.
  - apply Hd.
Qed.

Definition split_desc (c : raftCommand) (d : RangeDescriptor) (res : result kv_err BatchResponse) : RangeDescriptor :=
  match res, cmSplit c with Ok _, Some t => spLeft t | _, _ => d end.
Definition merge_desc (c : raftCommand) (d : RangeDescriptor) (res : result kv_err BatchResponse) : RangeDescriptor :=
  match res, cmMerge c with Ok _, Some t => mgMerged t | _, _ => split_desc c d res end.

Lemma stage_split_ok id pb c r sg :
  durable id r -> command_ok id c -> staged_ok id (muDesc (r_mu r)) sg (fun _ => muDesc (r_mu r)) ->
  staged_ok id (muDesc (r_mu r)) (stage_split pb c r sg) (split_desc c (muDesc (r_mu r))).
Proof.
  intros Hd (_ & Hsp & _) [Hm Hs]. destruct sg as [[m s] res]. cbn [fst snd] in Hm, Hs. unfold stage_split, split_desc.
  destruct res as [br|e]; [|by split]. destruct (cmSplit c) as [t|] eqn:Ec; [|by split].
  destruct (stageSplit pb t m s) as [[m' s']|e] eqn:E; (split; cbn [fst snd]); [| |done|apply Hd].
  - revert E. unfold stageSplit. destruct (staleDescriptorChange _ _); [done|]. by intros [= <- _].
  - by destruct (stageSplit_desc id pb t m s m' s' (Hsp t eq_refl) E).
Qed.

Lemma stage_merge_ok id env c r sg sg' :
  durable id r -> command_ok id c -> staged_ok id (muDesc (r_mu r)) sg (split_desc c (muDesc (r_mu r))) ->
  stage_merge env c r sg = Some sg' -> staged_ok id (muDesc (r_mu r)) sg' (merge_desc c (muDesc (r_mu r))).
Proof.
  intros Hd (_ & _ & Hmg) [Hm Hs]. destruct sg as [[m s] res]. cbn [fst snd] in Hm, Hs. unfold stage_merge, merge_desc.
  destruct res as [br|e]; [|intros [= <-]; by split]. destruct (cmMerge c) as [t|] eqn:Ec; [|intros [= <-]; by split].
  destruct (stageMerge env t m s) as [[[m' s']|e]|] eqn:E; [..|done]; intros [= <-]; (split; cbn [fst snd]).
  - revert E. unfold stageMerge. repeat (case_match; try done); intros [= <- _]; done.
  - by eapply stageMerge_desc; [apply Hmg|].
  - done.
  - apply Hd.
Qed.

Lemma finish_desc_eq c res m d : muDesc m = d -> finish_desc c res m = mu_desc m (merge_desc c d res).
Proof.
  intros <-. unfold finish_desc, merge_desc, split_desc. destruct res; [|by destruct m].
  destruct (cmMerge c), (cmSplit c); try done. by destruct m.
Qed.

Lemma merge_desc_id id c r res : durable id r -> command_ok id c -> RangeID (merge_desc c (muDesc (r_mu r)) res) = id.
Proof.
  intros Hd (_ & Hsp & Hmg). unfold merge_desc, split_desc. destruct res; [|apply Hd].
  destruct (cmMerge c) as [t|]; [by apply Hmg|]. destruct (cmSplit c) as [t|]; [by apply Hsp|apply Hd].
Qed.

Lemma applyCommand_durable id pb env c idx r r' res :
  durable id r -> evRangeID env = id -> command_ok id c -> applyCommand pb env c idx r = (r', Applied res) ->
  durable id r' /\ muAppliedIndex (r_mu r') = idx.
Proof.
  intros Hd He Hc. unfold applyCommand.
  pose proof (stage_split_ok id pb c r _ Hd Hc (stage_eval_ok id pb env c r Hd Hc)) as Hs.
  destruct (stage_merge env c r _) as [[[m s] res']|] eqn:E; [|done]. intros [= <- <-].
  pose proof (stage_merge_ok id env c r _ _ Hd Hc Hs E) as [Hm Hl]. cbn [fst snd] in Hm, Hl.
  rewrite (finish_desc_eq c res' _ (muDesc (r_mu r))) by done. rewrite He. split; [|done].
  apply stage_durable; [by apply merge_desc_id|done].
Qed.

Lemma advance_durable id idx m s d :
  RangeID d = id -> muDesc m = d -> loadRangeDescriptor s id = Some d ->
  durable id (mkReplica (mu_applied m idx) (stageAppliedIndex id idx m s)).
Proof.
  intros Hid Hm Hl. replace (mu_applied m idx) with (mu_desc (mu_applied m idx) d) by (rewrite <- Hm; by destruct m).
  by apply stage_durable.
Qed.

(** An entry leaves the replica durable at its index, or changes nothing durable. *)
Lemma applyEntry_durable id pb e r r' out :
  durable id r -> entry_ok id e -> applyEntry pb e.2 e.1 r = (r', out) ->
  match out with
  | Skipped => r' = r /\ leIndex e.1 <= muAppliedIndex (r_mu r)
  | Stopped => r_store r' = r_store r /\ muAppliedIndex (r_mu r) < leIndex e.1
  | _ => durable id r' /\ muAppliedIndex (r_mu r') = leIndex e.1
  end.
Proof.
  intros Hd [He Hok]. unfold applyEntry. destruct (Z.leb_spec (leIndex e.1) (muAppliedIndex (r_mu r))) as [Hle|Hgt]; [by intros [= <- <-]|].
  assert (Hadv : durable id (mkReplica (mu_applied (r_mu r) (leIndex e.1)) (stageAppliedIndex id (leIndex e.1) (r_mu r) (r_store r)))).
  { eapply advance_durable; [apply Hd|done|apply Hd]. }
  rewrite He. revert Hok. destruct (leData e.1) as [|c| |rm [d|]]; intros Hok.
  - by intros [= <- <-].
  - destruct (applyCommand pb e.2 c (leIndex e.1) r) as [r1 [res|]] eqn:E; intros [= <- <-]; [eapply applyCommand_durable; [exact Hd|exact He|exact Hok|exact E]|].
    revert E. unfold applyCommand. destruct (stage_merge _ _ _ _) as [[[m s] res']|]; [done|]. by intros [= <-].
  - by intros [= <- <-].
  - destruct (_ && _); [by intros [= <- <-]|].
    assert (Hd' : durable id (mkReplica (mu_applied (mu_desc (r_mu r) d) (leIndex e.1))
      (stageAppliedIndex id (leIndex e.1) (mu_desc (r_mu r) d) (PutRangeDescriptor d (r_store r))))).
    { eapply advance_durable; [exact Hok|done|]. rewrite <- Hok. apply load_desc_put. }
    intros [= <- <-]. by destruct (_ && _).
  - by intros [= <- <-].
Qed.
(** ** The log *)

Inductive loopState := Running | Halted | Gone.

(** The apply loop: a corrupt entry or an abandoned merge stops it, and a
    removed replica is taken down. *)
Fixpoint apply_log (pb : bool) (log : list (logEntry * applyEnv)) (r : replica) : replica * loopState :=
  match log with
  | [] => (r, Running)
  | e :: log =>
      match applyEntry pb e.2 e.1 r with
      | (r, Stopped) => (r, Halted)
      | (r, Removed) => (r, Gone)
      | (r, _) => apply_log pb log r
      end
  end.

Definition log_sorted (log : list (logEntry * applyEnv)) : Prop :=
  StronglySorted (fun a b => leIndex a.1 < leIndex b.1) log.

Lemma apply_log_skips pb log1 log2 r :
  Forall (fun e => leIndex e.1 <= muAppliedIndex (r_mu r)) log1 -> apply_log pb (log1 ++ log2) r = apply_log pb log2 r.
Proof.
  induction 1 as [|e log1 He _ IH]; [done|]. cbn [apply_log app]. unfold applyEntry.
  apply Z.leb_le in He. rewrite He. exact IH.
Qed.

(** What is durable after a prefix of the log: the replica as of the last
    entry applied, from which replaying the whole log does what the run
    without the crash did. *)
Lemma apply_log_durable id pb log : forall r r' st,
  durable id r -> Forall (entry_ok id) log -> log_sorted log -> apply_log pb log r = (r', st) -> st <> Gone ->
  exists r1, durable id r1 /\ r_store r1 = r_store r' /\ muAppliedIndex (r_mu r) <= muAppliedIndex (r_mu r1) /\
    forall rest, apply_log pb (log ++ rest) r1 = apply_log pb (log ++ rest) r.
Proof.
  induction log as [|e log IH]; intros r r' st Hd Hok Hsort; cbn [apply_log].
  { intros [= <- <-] _. by exists r. }
  inversion Hok as [|? ? He Hok']; subst. inversion Hsort as [|? ? Hsort' _]; subst.
  destruct (applyEntry pb e.2 e.1 r) as [r2 out] eqn:Ea. pose proof (applyEntry_durable id pb e r r2 out Hd He Ea) as Hout.
  assert (Hcont : durable id r2 -> leIndex e.1 <= muAppliedIndex (r_mu r2) -> muAppliedIndex (r_mu r) <= muAppliedIndex (r_mu r2) ->
    (forall rest, apply_log pb ((e :: log) ++ rest) r = apply_log pb (log ++ rest) r2) ->
    apply_log pb log r2 = (r', st) -> st <> Gone ->
    exists r1, durable id r1 /\ r_store r1 = r_store r' /\ muAppliedIndex (r_mu r) <= muAppliedIndex (r_mu r1) /\
      forall rest, apply_log pb ((e :: log) ++ rest) r1 = apply_log pb ((e :: log) ++ rest) r).
  { intros Hd2 Hidx Hmon Hrun Hlog Hst. destruct (IH r2 r' st Hd2 Hok' Hsort' Hlog Hst) as (r1 & Hd1 & Hs1 & Hle & Hr1).
    exists r1. split_and!; [done|done|lia|]. intros rest. rewrite Hrun, <- Hr1. apply (apply_log_skips pb [e]).
    constructor; [lia|constructor]. }
  assert (Hrun : out <> Stopped -> out <> Removed -> forall rest, apply_log pb ((e :: log) ++ rest) r = apply_log pb (log ++ rest) r2).
  { intros H1 H2 rest. cbn [apply_log app]. rewrite Ea. by destruct out. }
  assert (Hgt : out <> Skipped -> muAppliedIndex (r_mu r) < leIndex e.1).
  { intros H1. apply Z.nle_gt. intros Hle. revert Ea. unfold applyEntry. apply Z.leb_le in Hle. rewrite Hle. intros [= _ <-]. done. }
  destruct out as [|res| | | |].
  - destruct Hout as [-> Hle]. apply Hcont; [done|done|lia|by apply Hrun].
  - destruct Hout as [Hd2 Hi]. apply Hcont; [done|lia|rewrite Hi; by apply Z.lt_le_incl, Hgt|by apply Hrun].
  - destruct Hout as [Hd2 Hi]. apply Hcont; [done|lia|rewrite Hi; by apply Z.lt_le_incl, Hgt|by apply Hrun].
  - destruct Hout as [Hd2 Hi]. apply Hcont; [done|lia|rewrite Hi; by apply Z.lt_le_incl, Hgt|by apply Hrun].
  - by intros [= <- <-].
  - intros [= <- <-] _. exists r. split_and!; [done|by destruct Hout|lia|done].
Qed.

(** C1: Crash recovery is exact.  Whenever the process stops, after any part
    of the log, what it recovers from the engine (the descriptor and the
    applied state) is a state from which replaying the whole log, applied
    prefix included, ends exactly where the run without the crash ends: same
    engine, same memory, same loop state.  Nothing is applied twice and
    nothing is lost, for every mix of commands, splits, merges, membership
    changes, refused and failed commands, and for a merge whose wait was
    abandoned. *)
Theorem crash_replay_exact id pb log1 log2 r :
  durable id r -> Forall (entry_ok id) log1 -> log_sorted log1 -> (apply_log pb log1 r).2 <> Gone ->
  exists r1, restart id (r_store (apply_log pb log1 r).1) = Some r1 /\
    apply_log pb (log1 ++ log2) r1 = apply_log pb (log1 ++ log2) r.
Proof.
  intros Hd Hok Hs Hg. destruct (apply_log pb log1 r) as [r' st] eqn:E.
  destruct (apply_log_durable id pb log1 r r' st Hd Hok Hs E Hg) as (r1 & Hd1 & Hst & _ & Hr). exists r1.
  cbn [fst]. rewrite <- Hst. split; [by apply durable_restart|apply Hr].
Qed.

End Replay.

(** ** Witnesses *)

#[export] Instance truncated_tokens : Tokens truncatedState.
Proof. refine (via (fun t => (tsIndex t, tsTerm t)) (fun '(a, b) => mkTrunc a b) _). by intros []. Defined.
#[export] Instance state_tokens : Tokens replicaState.
Proof.
  refine (via
    (fun t => (rsAppliedIndex t, rsTruncated t, rsGCThreshold t, rsSizeBytes t, rsFrozen t, rsMergedInto t, rsClosedTS t))
    (fun '(a, b, c, d, e, f, g) => mkState a b c d e f g) _). by intros [].
Defined.
#[export] Instance token_state_codec : StateCodec := {|
  state_marshal := code_with json_open; state_unmarshal := uncode; desc_marshal := code_with json_open; desc_unmarshal := uncode |}.
#[export] Instance token_state_codec_laws : StateCodecLaws token_state_codec.
Proof. split; intros; first [apply uncode_code|discriminate]. Qed.

(** A fresh range [4, 5) with id 1. *)
Definition ex_mu : replicaMu := mkMu ex_range 0 (mkTrunc 0 0) ts0 0 false 0 ts0.
Definition ex_replica : replica :=
  mkReplica ex_mu (PutRangeDescriptor (P := map_pebble) ex_range (∅ : gmap (list Z) (list Z))).
Definition ex_env : applyEnv := mkEnv 1 1 10 None.

Lemma ex_replica_durable : durable 1 ex_replica.
Proof. split; vm_compute; reflexivity. Qed.

Definition ex_put_batch (k v : bytes) (ts : Z) : BatchRequest :=
  Add (mkBatchRequest (mkBatchHeader (mkTs ts 0) None 1 false false false) []) (RPut (mkPut (mkHeader k []) v)).
Definition ex_command (ba : BatchRequest) : entryData := ECommand (mkCommand ba None None ts0).
(** A write, then a split at [4; 5], then a write. *)
Definition ex_split : splitTrigger := mkSplit (mkRange 1 [4] [4; 5] [] 0 1) (mkRange 2 [4; 5] [5] [] 0 1) ts0.
Definition ex_log1 : list (logEntry * applyEnv) :=
  [(mkLogEntry 1 (ex_command (ex_put_batch [4; 1] [7] 5)), ex_env);
   (mkLogEntry 2 (ECommand (mkCommand (mkBatchRequest (mkBatchHeader ts0 None 1 false false false) []) (Some ex_split) None ts0)), ex_env)].
Definition ex_log2 : list (logEntry * applyEnv) := [(mkLogEntry 3 (ex_command (ex_put_batch [4; 2] [8] 6)), ex_env)].

Lemma crash_replay_exact_witness :
  exists r1, restart 1 (r_store (apply_log true ex_log1 ex_replica).1) = Some r1 /\
    apply_log true (ex_log1 ++ ex_log2) r1 = apply_log true (ex_log1 ++ ex_log2) ex_replica.
Proof.
  apply (crash_replay_exact 1 true ex_log1 ex_log2 ex_replica).
  - exact ex_replica_durable.
  - constructor; [|constructor; [|constructor]]; (split; [reflexivity|]); (split; [repeat constructor|]).
    + split; intros t Ht; discriminate.
    + split; intros t Ht; [|discriminate]. injection Ht as <-. split; [reflexivity|vm_compute; discriminate].
  - constructor; [constructor; [constructor|constructor]|constructor; [reflexivity|constructor]].
  - vm_compute. discriminate.
Defined.

(** A batch that freezes the range and then runs into a foreign intent. *)
Definition ex_intent_replica : replica :=
  mkReplica ex_mu (b_store (mvccWrite [4; 1] (mkTs 5 0) [7] false (Some (ex_txn 9 (mkTs 5 0) true)) (NewBatch true (r_store ex_replica))).1).
Definition ex_freeze : raftCommand :=
  mkCommand (Add (Add (mkBatchRequest (mkBatchHeader (mkTs 6 0) None 1 false false false) []) (RSubsume (mkSubsume (mkHeader [4] [5]) 7)))
    (RPut (mkPut (mkHeader [4; 1] []) [9]))) None None ts0.


(** A failed command can still freeze its range: Subsume sets the flag in
    memory while the batch is evaluated, the conflict discards the batch,
    and the applied state then persists the flag. *)
Theorem failed_command_freezes :
  let '(r', out) := applyCommand true ex_env ex_freeze 1 ex_intent_replica in
  (match out with Applied (Err _) => True | _ => False end) /\ muFrozen (r_mu ex_intent_replica) = false /\
  muFrozen (r_mu r') = true /\
  (rsFrozen <$> loadReplicaStateFrom (r_store r') 1) = Some true.
Proof. vm_compute. repeat split. Qed.
