(* ===== verification/OnePhase.v ===== *)
(** * One-phase commits (evalOnePhase of pkg/kvserver/txn.go)

    A transaction whose whole write set is one batch commits in one
    proposal: its writes land as committed values, with no record and no
    intents.  It is shown to be the classic protocol (record and intents,
    then EndTxn, then the resolution of every intent) in one step. *)

From S2P Require Import Prelude Encoding Hlc Keys MvccKey Pebble Enginepb Mvcc MvccView MvccRead MvccWrite MvccState MvccTxn MvccScan.
From S2P Require Import Kvpb KvpbWire TxnRecord TxnRecordSpec Gc Strconv Apply ApplySpec.

Open Scope Z_scope.

(** A blind write of the transaction. *)
Record write1 := mkW1 { w1_key : bytes; w1_value : bytes; w1_tomb : bool }.
Definition w1_data (w : write1) : bytes := if w1_tomb w then [] else w1_value w.

Definition w1_request (w : write1) : RequestUnion :=
  union_of (if w1_tomb w then RDelete (mkDelete (mkHeader (w1_key w) [])) else RPut (mkPut (mkHeader (w1_key w) []) (w1_value w))).

Definition txn_header (txn : Transaction) (create : bool) : BatchHeader := mkBatchHeader ts0 (Some txn) 0 create false false.

(** The batches of the two protocols. *)
Definition one_phase_batch (txn : Transaction) (ws : list write1) : BatchRequest :=
  mkBatchRequest (txn_header txn true)
    (map w1_request ws ++ [union_of (REndTxn (mkEndTxn (mkHeader (Key (tMeta txn)) []) true (map w1_key ws) [] true))]).
Definition write_batch (txn : Transaction) (ws : list write1) : BatchRequest :=
  mkBatchRequest (txn_header txn true) (map w1_request ws).
Definition commit_batch (txn : Transaction) (ws : list write1) : BatchRequest :=
  mkBatchRequest (txn_header txn false)
    [union_of (REndTxn (mkEndTxn (mkHeader (Key (tMeta txn)) []) true (map w1_key ws) [] false))].
Definition resolve_batch (txn : Transaction) (ws : list write1) : BatchRequest :=
  mkBatchRequest (mkBatchHeader ts0 None 0 false false false)
    (map (fun w => union_of (RResolveIntent (mkResolve (mkHeader (w1_key w) []) (ID (tMeta txn)) COMMITTED (WriteTimestamp (tMeta txn))))) ws).

Section OnePhase.
Context {P : Pebble} {PL : PebbleLaws P} {C : MetaCodec} {CL : MetaCodecLaws C} {T : TxnCodec} {TL : TxnCodecLaws T} {SC : StateCodec}.

(** ** Stores that agree on the user keys *)

Definition agree (s1 s2 : store) (k : bytes) : Prop := exists K, models s1 k K /\ models s2 k K.

Lemma models_elsewhere s s' k k' K :
  store_wf s' -> IsLocal k' = false -> same_elsewhere s s' k -> k' <> k -> models s k' K -> models s' k' K.
Proof. intros Hwf Hl Hse Hne (mo & Hv & Hm). exists mo. split; [by eapply same_elsewhere_view|done]. Qed.

(** Local keys are not part of any user key's state. *)
Lemma models_local_change s s' k K :
  store_wf s' -> (forall x, IsLocal x = false -> st_get s' x = st_get s x) -> IsLocal k = false ->
  models s k K -> models s' k K.
Proof.
  intros Hwf Hsame Hl (mo & Hv & Hm). exists mo. split; [|done]. pose proof Hv as [_ Hvs].
  assert (Hm' : IsLocal (metaKey k) = false) by (rewrite <- (app_nil_r (metaKey k)), metaKey_local; done).
  apply view_intro; [done..| |].
  - rewrite Hsame by done. by eapply is_view_meta.
  - intros t raw Ht. rewrite Hsame; [by eapply is_view_version|]. unfold vkey. by rewrite metaKey_local.
Qed.

Lemma store_ok_local_change s x v : store_ok s -> IsLocal x = true -> store_ok (st_set s x v).
Proof.
  intros [Hwf Hok] Hx. assert (Hwf' : store_wf (st_set s x v)) by by apply wf_set_local. split; [done|].
  intros k K Hl HK. apply (Hok k); [done|]. destruct (models_exists s k Hwf Hl) as [K0 HK0].
  assert (models (st_set s x v) k K0).
  { eapply models_local_change; [done| |done|done]. intros y Hy. apply get_set_ne. intros ->. congruence. }
  by rewrite (models_fun _ _ _ _ HK H).
Qed.

(** ** The writes, in the two stores *)

Definition w1_ok (w : write1) : Prop := IsLocal (w1_key w) = false /\ bytes_ok (w1_key w).

(** [k] was written: committed in [s1], provisional in [s2]. *)
Definition twin (t : TxnMeta) (s1 s2 : store) (k : bytes) : Prop :=
  exists vs raw, models s1 k (mkK None ((WriteTimestamp t, raw) :: vs)) /\
    models s2 k (mkK (Some (mkMeta t (WriteTimestamp t) [])) ((WriteTimestamp t, raw) :: vs)).

Record paired (t : TxnMeta) (done : list bytes) (s1 s2 : store) : Prop := {
  pa_ok1 : store_ok s1;
  pa_ok2 : store_ok s2;
  pa_done k : k ∈ done -> twin t s1 s2 k;
  pa_rest k : IsLocal k = false -> k ∉ done -> agree s1 s2 k }.

Lemma paired_step t done b1 b2 w b1' :
  length (ID t) = 16%nat -> ts_valid (WriteTimestamp t) -> w1_ok w -> w1_key w ∉ done -> Forall (fun k => IsLocal k = false) done ->
  paired t done (b_store b1) (b_store b2) ->
  mvccWriteCommitted (w1_key w) (WriteTimestamp t) (w1_data w) (w1_tomb w) b1 = (b1', Ok tt) ->
  exists b2', mvccWrite (w1_key w) (WriteTimestamp t) (w1_data w) (w1_tomb w) (Some t) b2 = (b2', Ok tt) /\
    paired t (w1_key w :: done) (b_store b1') (b_store b2').
Proof.
  intros Hid Hts [Hl Hk] Hnd Hdl Hp Hw. destruct (pa_rest _ _ _ _ Hp _ Hl Hnd) as (K & HK1 & HK2).
  pose proof (pa_ok1 _ _ _ _ Hp) as Hs1. pose proof (pa_ok2 _ _ _ _ Hp) as Hs2.
  pose proof (mvccWriteCommitted_refines b1 _ K (WriteTimestamp t) (w1_data w) (w1_tomb w) (proj1 Hs1) HK1 Hl Hk Hts) as Hr1.
  rewrite Hw in Hr1.
  assert (Hwok : write_ok (w1_key w) (WriteTimestamp t) (Some t) K) by done.
  pose proof (mvccWrite_refines b2 _ K (WriteTimestamp t) (w1_data w) (w1_tomb w) (Some t) (proj1 Hs2) HK2 Hwok) as Hr2.
  unfold ref_write_committed in Hr1. unfold ref_write in Hr2. destruct (k_intent K) as [meta|] eqn:Ei.
  { destruct Hr1 as [Hr1 _]. discriminate. }
  assert (Hbelow : Forall (fun v : version => v.1 <t WriteTimestamp t) (k_versions K)).
  { destruct (k_versions K) as [|[v raw] vs] eqn:Ev; [constructor|]. cbn [head] in Hr1.
    destruct (LessEq (WriteTimestamp t) v) eqn:El; [destruct Hr1; discriminate|].
    pose proof (models_sorted _ _ _ HK1) as Hsort. rewrite Ev in Hsort. apply below_head; [done|]. tsb. cbn. ts_lia. }
  assert (E1 : match head (k_versions K) with
    | Some (v, _) => if LessEq (WriteTimestamp t) v then true else false | None => false end = false).
  { destruct (k_versions K) as [|[v raw] vs]; [done|]. cbn [head]. inversion Hbelow as [|? ? Hv _]; subst. cbn in Hv.
    assert (LessEq (WriteTimestamp t) v = false) as -> by (apply LessEq_gt; ts_lia). done. }
  assert (Hr1' : refines b1 (w1_key w) (b1', Ok tt) (Ok (mkK None ((WriteTimestamp t, encodeMVCCValue (w1_data w) (w1_tomb w)) :: k_versions K)))).
  { rewrite <- (insert_version_top _ _ _ Hbelow). destruct (head (k_versions K)) as [[v raw]|]; [|done].
    destruct (LessEq (WriteTimestamp t) v); [done|done]. }
  assert (Hr2' : refines b2 (w1_key w) (mvccWrite (w1_key w) (WriteTimestamp t) (w1_data w) (w1_tomb w) (Some t) b2)
    (Ok (mkK (Some (mkMeta t (WriteTimestamp t) [])) ((WriteTimestamp t, encodeMVCCValue (w1_data w) (w1_tomb w)) :: k_versions K)))).
  { rewrite <- (insert_version_top _ _ _ Hbelow). destruct (head (k_versions K)) as [[v raw]|]; [|done].
    destruct (LessEq (WriteTimestamp t) v); [done|done]. }
  assert (Hso2 : store_ok (b_store (mvccWrite (w1_key w) (WriteTimestamp t) (w1_data w) (w1_tomb w) (Some t) b2).1)).
  { eapply mvccWrite_store_ok; [done|exact HK2|done|]. unfold write_forward. rewrite Ei. left. ts_lia. }
  assert (Hso1 : store_ok (b_store b1')).
  { eapply (refines_store_ok b1 (w1_key w) (b1', Ok tt)); [done|done|exact Hr1'|]. intros K' [= <-]. done. }
  clear Hr1 Hr2. destruct Hr1' as (_ & Hwf1 & HM1 & Hse1). destruct Hr2' as (Ho2 & Hwf2 & HM2 & Hse2). cbn [fst] in *.
  destruct (mvccWrite (w1_key w) (WriteTimestamp t) (w1_data w) (w1_tomb w) (Some t) b2) as [b2' r2]. cbn [fst snd] in *. subst r2.
  exists b2'. split; [done|]. split; [done|done| |].
  - intros k Hin. destruct (decide (k = w1_key w)) as [->|Hne]; [by eexists _, _|].
    apply elem_of_cons in Hin as [->|Hin]; [done|]. destruct (pa_done _ _ _ _ Hp k Hin) as (vs & raw & H1 & H2).
    rewrite Forall_forall in Hdl. specialize (Hdl k Hin).
    exists vs, raw. split; [by eapply (models_elsewhere (b_store b1))|by eapply (models_elsewhere (b_store b2))].
  - intros k Hkl Hin. apply not_elem_of_cons in Hin as [Hne Hin]. destruct (pa_rest _ _ _ _ Hp k Hkl Hin) as (K' & H1 & H2).
    exists K'. split; [by eapply (models_elsewhere (b_store b1))|by eapply (models_elsewhere (b_store b2))].
Qed.

(** Resolving a written key makes the two stores agree on it. *)
Lemma paired_resolve t k done b1 b2 :
  IsLocal k = false -> bytes_ok k -> ts_valid (WriteTimestamp t) -> k ∉ done -> Forall (fun k => IsLocal k = false) done ->
  paired t (k :: done) (b_store b1) (b_store b2) ->
  exists b2', MVCCResolveIntent k (ID t) COMMITTED (WriteTimestamp t) b2 = (b2', Ok tt) /\ paired t done (b_store b1) (b_store b2').
Proof.
  intros Hl Hk [Hts Hts0] Hnd Hdl Hp. destruct (pa_done _ _ _ _ Hp k (list_elem_of_here _ _)) as (vs & raw & H1 & H2).
  pose proof (pa_ok2 _ _ _ _ Hp) as Hs2. pose proof Hs2 as [Hwf2 Hok2].
  pose proof (MVCCResolveIntent_refines b2 k _ (ID t) COMMITTED (WriteTimestamp t) Hwf2 H2 (Hok2 k _ Hl H2) Hl Hk Hts) as Hr.
  unfold ref_resolve in Hr. rewrite bool_decide_eq_false_2 in Hr by done. cbn [k_intent k_versions mTxn mTimestamp] in Hr.
  rewrite beqb_refl in Hr. rewrite bool_decide_eq_false_2 in Hr by done.
  destruct (remove_head _ _ _ (models_sorted _ _ _ H2)) as [Hrm Hlow]. cbn [k_versions] in Hrm. rewrite Hrm in Hr.
  unfold lookup_version in Hr. cbn [first fst] in Hr. rewrite (proj2 (Equal_eq (WriteTimestamp t) _) eq_refl) in Hr.
  cbn [option_map snd] in Hr. rewrite (proj2 (IsEmpty_neq _) Hts0) in Hr. change (snd <$> Some (WriteTimestamp t, raw)) with (Some raw) in Hr. cbv beta iota in Hr.
  rewrite insert_version_top in Hr by exact Hlow.
  pose proof (refines_store_ok _ _ _ _ Hs2 Hl Hr ltac:(by intros K' [= <-])) as Hso.
  destruct Hr as (Ho & Hwf' & HM & Hse).
  destruct (MVCCResolveIntent k (ID t) COMMITTED (WriteTimestamp t) b2) as [b2' r2]. cbn [fst snd] in *. subst r2.
  exists b2'. split; [done|]. split; [apply Hp|done| |].
  - intros k' Hin. assert (k' <> k) by (intros ->; done). rewrite Forall_forall in Hdl. specialize (Hdl k' Hin).
    destruct (pa_done _ _ _ _ Hp k' (list_elem_of_further _ _ _ Hin)) as (vs' & raw' & H3 & H4).
    exists vs', raw'. split; [done|]. by eapply (models_elsewhere (b_store b2)).
  - intros k' Hkl Hin. destruct (decide (k' = k)) as [->|Hne]; [by eexists|].
    destruct (pa_rest _ _ _ _ Hp k' Hkl) as (K' & H3 & H4); [by apply not_elem_of_cons|].
    exists K'. split; [done|]. by eapply (models_elsewhere (b_store b2)).
Qed.
Lemma paired_ext t d1 d2 s1 s2 : (forall k, k ∈ d1 <-> k ∈ d2) -> paired t d1 s1 s2 -> paired t d2 s1 s2.
Proof.
  intros Hd [H1 H2 H3 H4]. split; [done|done| |].
  - intros k Hk. by apply H3, Hd.
  - intros k Hl Hk. apply H4; [done|]. by rewrite Hd.
Qed.

(** ** Evaluation *)

Lemma collect_nonempty c ints : c <> [] -> collect c ints <> [].
Proof.
  unfold collect. revert c. induction ints as [|i ints IH]; intros c Hc; cbn [fold_left]; [done|]. apply IH. unfold collect_one.
  destruct (existsb _ c); [done|]. by destruct c.
Qed.

(** Once a conflict is collected, the batch fails. *)
Lemma eval_requests_conflicted eval us : forall c out st st' rs, c <> [] -> eval_requests eval us c out st = (st', Ok rs) -> False.
Proof.
  induction us as [|u us IH]; intros c out st st' rs Hc; cbn [eval_requests]; [by destruct c|].
  destruct (eval u st) as [st1 [[r|ints]|e]]; [by apply IH|apply IH; by apply collect_nonempty|done].
Qed.

Definition w1_response (w : write1) : Response := if w1_tomb w then ODelete else OPut.

Lemma eval_one_phase_write ts w st :
  evalOnePhaseRequest ts (w1_request w) st =
    collecting (mvccWriteCommitted (w1_key w) ts (w1_data w) (w1_tomb w)) (fun _ => respond (w1_response w)) st.
Proof. by destruct w as [k v []]. Qed.

Lemma eval_classic_write env txn create us w st :
  evalRequest env (mkBatchRequest (txn_header txn create) us) (w1_request w) st =
    collecting (mvccWrite (w1_key w) (WriteTimestamp (tMeta txn)) (w1_data w) (w1_tomb w) (Some (tMeta txn)))
      (fun _ => respond (w1_response w)) st.
Proof. by destruct w as [k v []]. Qed.

Lemma committed_conflict b k ts v tomb b' ints :
  store_ok (b_store b) -> IsLocal k = false -> bytes_ok k -> ts_valid ts ->
  mvccWriteCommitted k ts v tomb b = (b', Err (WriteIntentError ints)) -> ints <> [].
Proof.
  intros [Hwf Hok] Hl Hk Ht Hw. destruct (models_exists (b_store b) k Hwf Hl) as [K HK].
  pose proof (mvccWriteCommitted_refines b k K ts v tomb Hwf HK Hl Hk Ht) as Hr. rewrite Hw in Hr. unfold ref_write_committed in Hr.
  destruct (k_intent K); [destruct Hr as [[= ->] _]; done|].
  destruct (head (k_versions K)) as [[]|]; [destruct (LessEq _ _)|]; destruct Hr as [Hr _]; discriminate.
Qed.

(** Both protocols run the writes in step. *)
Lemma writes_in_step env txn create us tail ws : forall done st b2 out st1 rs,
  length (ID (tMeta txn)) = 16%nat -> ts_valid (WriteTimestamp (tMeta txn)) ->
  Forall w1_ok ws -> NoDup (map w1_key ws) -> Forall (fun k => k ∉ done) (map w1_key ws) -> Forall (fun k => IsLocal k = false) done ->
  paired (tMeta txn) done (b_store (es_b st)) (b_store b2) ->
  eval_requests (evalOnePhaseRequest (WriteTimestamp (tMeta txn))) (map w1_request ws ++ tail) [] out st = (st1, Ok rs) ->
  exists stm outm b2',
    eval_requests (evalOnePhaseRequest (WriteTimestamp (tMeta txn))) tail [] outm stm = (st1, Ok rs) /\
    paired (tMeta txn) (rev (map w1_key ws) ++ done) (b_store (es_b stm)) (b_store b2') /\
    (forall x, IsLocal x = true -> st_get (b_store b2') x = st_get (b_store b2) x) /\
    (forall x, IsLocal x = true -> st_get (b_store (es_b stm)) x = st_get (b_store (es_b st)) x) /\
    forall mu g out2, eval_requests (evalRequest env (mkBatchRequest (txn_header txn create) us)) (map w1_request ws) [] out2 (mkES b2 mu g) =
      (mkES b2' mu g, Ok (out2 ++ map w1_response ws)).
Proof.
  induction ws as [|w ws IH]; intros done st b2 out st1 rs Hid Hts Hok Hnd Hdis Hdl Hp; cbn [map app].
  { intros H. exists st, out, b2. cbn [rev app eval_requests collector_err]. split_and!; try done. intros. by rewrite app_nil_r. }
  inversion Hok as [|? ? Hw Hok']; subst. inversion Hnd as [|? ? Hnin Hnd']; subst. inversion Hdis as [|? ? Hwd Hdis']; subst.
  destruct Hw as [Hl Hk]. cbn [eval_requests]. rewrite eval_one_phase_write. unfold collecting.
  destruct (mvccWriteCommitted _ _ _ _ (es_b st)) as [b1' [[]|e]] eqn:Ew.
  - cbn [respond]. intros H.
    destruct (paired_step _ done (es_b st) b2 w b1' Hid Hts (conj Hl Hk) Hwd Hdl Hp Ew) as (b2' & Ew2 & Hp').
    destruct (IH (w1_key w :: done) (es_with_b st b1') b2' (out ++ [w1_response w]) st1 rs) as (stm & outm & b2'' & H1 & H2 & H3 & H3' & H4); try done.
    + apply Forall_forall. intros k Hin. rewrite Forall_forall in Hdis'. apply not_elem_of_cons. split; [|by apply Hdis'].
      intros ->. by apply Hnin.
    + by constructor.
    + exists stm, outm, b2''. split; [done|]. split; [cbn [rev]; by rewrite <- app_assoc|]. split.
      { intros x Hx. rewrite H3 by done. pose proof (keeps_mvccWrite x (w1_key w) (WriteTimestamp (tMeta txn)) (w1_data w) (w1_tomb w)
          (Some (tMeta txn)) Hl Hx b2) as Hkp. by rewrite Ew2 in Hkp. }
      split.
      { intros x Hx. rewrite H3' by done. pose proof (keeps_mvccWriteCommitted x (w1_key w) (WriteTimestamp (tMeta txn)) (w1_data w)
          (w1_tomb w) Hl Hx (es_b st)) as Hkp. by rewrite Ew in Hkp. }
      intros mu g out2. cbn [eval_requests]. rewrite eval_classic_write. unfold collecting. cbn [es_b]. rewrite Ew2. cbn [respond].
      unfold es_with_b. cbn [es_mu es_g]. rewrite H4, <- app_assoc. done.
  - destruct e as [ints| | | | | | | | | |]; try done. intros H. exfalso. eapply eval_requests_conflicted; [|exact H].
    pose proof (committed_conflict _ _ _ _ _ _ _ (pa_ok1 _ _ _ _ Hp) Hl Hk Hts Ew) as Hne. destruct ints as [|i ints]; [done|].
    unfold collect. cbn [fold_left]. by apply (collect_nonempty [i] ints).
Qed.

(** Resolving every written key. *)
Lemma resolves_in_step env txn ba ws : forall b1 b2 mu g out,
  ts_valid (WriteTimestamp (tMeta txn)) -> Forall w1_ok ws -> NoDup (map w1_key ws) ->
  paired (tMeta txn) (map w1_key ws) (b_store b1) (b_store b2) ->
  exists b2' rs, eval_requests (evalRequest env ba) (baRequests (resolve_batch txn ws)) [] out (mkES b2 mu g) = (mkES b2' mu g, Ok rs) /\
    paired (tMeta txn) [] (b_store b1) (b_store b2').
Proof.
  induction ws as [|w ws IH]; intros b1 b2 mu g out Hts Hok Hnd Hp; cbn [resolve_batch baRequests map] in *.
  { exists b2, out. done. }
  inversion Hok as [|? ? [Hl Hk] Hok']; subst. inversion Hnd as [|? ? Hnin Hnd']; subst.
  destruct (paired_resolve (tMeta txn) (w1_key w) (map w1_key ws) b1 b2) as (b2' & Er & Hp'); try done.
  { apply Forall_forall. intros k Hin. apply list_elem_of_In, in_map_iff in Hin as (w' & <- & Hin). rewrite Forall_forall in Hok'.
    apply Hok'. by apply list_elem_of_In. }
  destruct (IH b1 b2' mu g (out ++ [OResolveIntent]) Hts Hok' Hnd' Hp') as (b2'' & rs & Hev & Hp'').
  exists b2'', rs. split; [|done]. cbn [eval_requests]. unfold evalRequest at 1. rewrite GetInner_union_of.
  unfold strictly, estore. cbn [es_b riHeader hKey riTxnID riStatus riCommitTS]. rewrite Er. cbn [respond es_with_b]. exact Hev.
Qed.
Lemma is1PC_one_phase txn ws : ws <> [] -> is1PC (one_phase_batch txn ws) = true.
Proof.
  intros Hne. unfold is1PC, one_phase_batch. cbn [bhTxn baHeader txn_header baRequests].
  rewrite length_app, length_map. cbn [length]. destruct (Nat.ltb_spec (length ws + 1) 2) as [Hlt|_]; [destruct ws; cbn in Hlt; [done|lia]|].
  rewrite last_snoc, removelast_last. cbn [uEndTxn union_of etCommit etAll andb]. apply forallb_forall.
  intros u Hu. apply in_map_iff in Hu as (w & <- & _). by destruct w as [k v []].
Qed.

Lemma is1PC_writes txn create ws : is1PC (mkBatchRequest (txn_header txn create) (map w1_request ws)) = false.
Proof.
  unfold is1PC. cbn [bhTxn baHeader txn_header baRequests]. destruct (_ <? _)%nat; [done|].
  destruct (last (map w1_request ws)) as [u|] eqn:E; [|done]. apply last_Some_elem_of in E.
  apply list_elem_of_In, in_map_iff in E as (w & <- & _). by destruct w as [k v []].
Qed.

(** The engine batch of the next proposal. *)
Definition again (pb : bool) (st : evalState) : evalState :=
  mkES (NewBatch pb (b_store (es_b st))) (es_mu st) (NewGetter pb true).

Lemma txn_key_local anchor id : IsLocal (TransactionKey anchor id) = true.
Proof. unfold TransactionKey. by rewrite EncodeBytes_prefix. Qed.

Lemma store_ok_put_record s m t : store_ok s -> store_ok (Batch_Put s (txnRecordKey m) (MarshalTxnRecord t)).
Proof. intros Hs. apply store_ok_local_change; [done|apply txn_key_local]. Qed.

Lemma paired_put_record t done s1 s2 m rec :
  paired t done s1 s2 -> Forall (fun k => IsLocal k = false) done ->
  paired t done s1 (Batch_Put s2 (txnRecordKey m) (MarshalTxnRecord rec)).
Proof.
  intros Hp Hdl. pose proof (store_ok_put_record s2 m rec (pa_ok2 _ _ _ _ Hp)) as Hok.
  assert (Hm : forall k K, IsLocal k = false -> models s2 k K -> models (Batch_Put s2 (txnRecordKey m) (MarshalTxnRecord rec)) k K).
  { intros k K Hl HK. eapply models_local_change; [apply Hok| |done|exact HK]. intros x Hx. apply get_set_ne. intros E.
    rewrite <- E in Hx. unfold txnRecordKey in Hx. by rewrite txn_key_local in Hx. }
  split; [apply Hp|done| |].
  - intros k Hk. rewrite Forall_forall in Hdl. destruct (pa_done _ _ _ _ Hp k Hk) as (vs & raw & H1 & H2).
    exists vs, raw. split; [done|]. apply Hm; [by apply Hdl|done].
  - intros k Hl Hk. destruct (pa_rest _ _ _ _ Hp k Hl Hk) as (K & H1 & H2). exists K. split; [done|]. by apply Hm.
Qed.

(** C8: A one-phase commit is the classic protocol in one step.  When the
    batch of a transaction's whole write set commits in one phase, the
    classic protocol from the same state succeeds too: the batch that
    creates the record and lays the intents, the EndTxn that commits it at
    the transaction's timestamp, and the batch that resolves the intents.
    Afterwards every read of every key, at every timestamp and by every
    reader, is the same in the two stores, and the one-phase store holds no
    record of the transaction. *)
Theorem one_phase_is_two_phase env pb txn ws s mu g st1 r1 :
  store_ok s -> txn_ok txn -> ts_valid (WriteTimestamp (tMeta txn)) ->
  Forall w1_ok ws -> NoDup (map w1_key ws) -> ws <> [] ->
  st_get s (txnRecordKey (tMeta txn)) = None ->
  IsEmpty (muGCThreshold mu) = true \/ LessEq (MinTimestamp (tMeta txn)) (muGCThreshold mu) = false ->
  evalWriteBatch env (one_phase_batch txn ws) (mkES (NewBatch pb s) mu g) = (st1, Ok r1) ->
  exists st2 r2 st3 st4 r4,
    evalWriteBatch env (write_batch txn ws) (mkES (NewBatch pb s) mu g) = (st2, Ok r2) /\
    evalWriteBatch env (commit_batch txn ws) (again pb st2) =
      (st3, Ok (mkBatchResponse (Some txn) ts0 [OEndTxn (WriteTimestamp (tMeta txn)) false])) /\
    evalWriteBatch env (resolve_batch txn ws) (again pb st3) = (st4, Ok r4) /\
    (forall k, IsLocal k = false -> same_reads (b_store (es_b st1)) (b_store (es_b st4)) k) /\
    st_get (b_store (es_b st1)) (txnRecordKey (tMeta txn)) = None.
Proof.
  intros Hs Htxn Hts Hok Hnd Hne Hrec Hthr. pose proof (proj1 Htxn) as Hid. set (key := txnRecordKey (tMeta txn)) in *.
  unfold evalWriteBatch at 1. rewrite is1PC_one_phase by done. unfold evalOnePhase.
  cbn [bhTxn baHeader one_phase_batch txn_header baRequests es_b]. fold key.
  destruct (Equal (tReadTimestamp txn) (WriteTimestamp (tMeta txn))) eqn:Eeq; [|done]. cbn [negb].
  assert (loadTxnRecord key (NewBatch pb s) = (NewBatch pb s, Ok None)) as ->.
  { unfold loadTxnRecord, Batch_Get. cbn [NewBatch b_store]. by rewrite Hrec. }
  cbn [fmap option_fmap option_map]. rewrite bool_decide_eq_false_2 by done.
  destruct (eval_requests (evalOnePhaseRequest _) _ [] [] _) as [st1' [rs|e]] eqn:E1; intros [= <- <-].
  set (pending := with_status (Clone txn) PENDING).
  set (b2 := b_with_store (NewBatch pb s) (Batch_Put s key (MarshalTxnRecord pending))).
  assert (Hcreate : createTxnRecord (muGCThreshold mu) (Some txn) (NewBatch pb s) = (b2, Ok tt)).
  { unfold createTxnRecord. assert (negb (IsEmpty (muGCThreshold mu)) && LessEq (MinTimestamp (tMeta txn)) (muGCThreshold mu) = false) as ->.
    { destruct Hthr as [->| ->]; [done|]. apply andb_false_r. }
    fold key. unfold ebind. unfold loadTxnRecord, Batch_Get. cbn [NewBatch b_store]. rewrite Hrec. by rewrite put_record. }
  assert (Hp0 : paired (tMeta txn) [] s (b_store b2)).
  { apply paired_put_record; [|constructor]. split; [done|done|intros k Hk; by apply not_elem_of_nil in Hk|].
    intros k Hl _. destruct (models_exists s k (proj1 Hs) Hl) as [K HK]. by exists K. }
  destruct (writes_in_step env txn true (map w1_request ws) _ ws [] (mkES (NewBatch pb s) mu g) b2 _ _ _ Hid Hts Hok Hnd
    ltac:(apply Forall_forall; intros; apply not_elem_of_nil) ltac:(constructor) Hp0 E1) as (stm & outm & b2' & Et & Hp1 & Hloc & Hloc1 & Hcl).
  cbn [eval_requests] in Et. unfold evalOnePhaseRequest in Et. rewrite GetInner_union_of in Et. cbn [respond eval_requests collector_err] in Et.
  injection Et as <- _. rewrite app_nil_r in Hp1.
  assert (Hp2 : paired (tMeta txn) (map w1_key ws) (b_store (es_b stm)) (b_store b2')).
  { eapply paired_ext; [|exact Hp1]. intros k. by rewrite !list_elem_of_In, <- in_rev. }
  assert (Hdl : Forall (fun k => IsLocal k = false) (map w1_key ws)).
  { apply Forall_forall. intros k Hin. apply list_elem_of_In, in_map_iff in Hin as (w & <- & Hin). rewrite Forall_forall in Hok.
    apply Hok. by apply list_elem_of_In. }
  assert (Hrec2 : record (b_store b2') key = Some pending).
  { unfold record, Batch_Get. rewrite Hloc by apply txn_key_local. apply record_put. exact Htxn. }
  set (final := end_record txn (mkEndTxn (mkHeader (Key (tMeta txn)) []) true (map w1_key ws) [] false)).
  set (b3 := b_with_store (NewBatch pb (b_store b2')) (Batch_Put (b_store b2') key (MarshalTxnRecord final))).
  assert (Hp3 : paired (tMeta txn) (map w1_key ws) (b_store (es_b stm)) (b_store b3)) by (by apply paired_put_record).
  destruct (resolves_in_step env txn (resolve_batch txn ws) ws (es_b stm) (NewBatch pb (b_store b3)) mu (NewGetter pb true) []
    Hts Hok Hnd Hp3) as (b4 & rs4 & Hev4 & Hp4).
  eexists (mkES b2' mu (NewGetter pb true)), _, (mkES b3 mu (NewGetter pb true)), (mkES b4 mu (NewGetter pb true)), _.
  split_and!.
  - unfold evalWriteBatch. unfold write_batch at 1. rewrite is1PC_writes.
    cbn [bhCreateTxnRecord bhTxn baHeader write_batch txn_header es_b es_mu baRequests]. rewrite Hcreate.
    unfold write_batch in Hcl. rewrite Hcl. done.
  - unfold evalWriteBatch. assert (is1PC (commit_batch txn ws) = false) as -> by done.
    cbn [bhCreateTxnRecord bhTxn baHeader commit_batch txn_header es_b es_mu again baRequests eval_requests].
    unfold evalRequest. rewrite GetInner_union_of. unfold strictly, evalEndTxn. cbn [es_b bhTxn baHeader txn_header commit_batch etAll]. cbn zeta. fold key.
    unfold ebind at 1. rewrite (load_record key _ pending) by exact Hrec2.
    cbn [tStatus pending with_status tMeta Clone etCommit]. rewrite Z.ltb_irrefl, Eeq. cbn [negb andb]. fold final. unfold ebind. by rewrite put_record.
  - unfold evalWriteBatch. assert (is1PC (resolve_batch txn ws) = false) as -> by done.
    assert (bhCreateTxnRecord (baHeader (resolve_batch txn ws)) = false) as -> by done.
    cbn [es_b es_mu again b_prefixBloom NewBatch]. by rewrite Hev4.
  - intros k Hl. destruct (pa_rest _ _ _ _ Hp4 k Hl (not_elem_of_nil _)) as (K & H1 & H2). cbn [es_b].
    eapply same_reads_models; [apply Hp4|apply Hp4|done|exact H1|exact H2].
  - rewrite Hloc1 by apply txn_key_local. exact Hrec.
Qed.
(** ** A key written twice *)

(** A key whose newest version is at the transaction's timestamp. *)
Definition at_top (ts : Timestamp) (s : store) (k : bytes) : Prop :=
  exists raw vs, models s k (mkK None ((ts, raw) :: vs)).

Lemma committed_too_old ts b w :
  store_ok (b_store b) -> w1_ok w -> ts_valid ts -> at_top ts (b_store b) (w1_key w) ->
  (mvccWriteCommitted (w1_key w) ts (w1_data w) (w1_tomb w) b).2 = Err (WriteTooOldError ts (Next ts)).
Proof.
  intros [Hwf _] [Hl Hk] Ht (raw & vs & HK).
  pose proof (mvccWriteCommitted_refines b _ _ ts (w1_data w) (w1_tomb w) Hwf HK Hl Hk Ht) as Hr. unfold ref_write_committed in Hr.
  cbn [k_intent k_versions head] in Hr. rewrite (proj2 (LessEq_le ts ts) (ts_le_refl ts)) in Hr. by destruct Hr.
Qed.

(** A committed write puts its key at the top and moves no other. *)
Lemma committed_at_top ts b w b' :
  store_ok (b_store b) -> w1_ok w -> ts_valid ts ->
  mvccWriteCommitted (w1_key w) ts (w1_data w) (w1_tomb w) b = (b', Ok tt) ->
  store_ok (b_store b') /\ at_top ts (b_store b') (w1_key w) /\
  forall k, IsLocal k = false -> k <> w1_key w -> at_top ts (b_store b) k -> at_top ts (b_store b') k.
Proof.
  intros Hs [Hl Hk] Ht Hw. pose proof Hs as [Hwf Hok]. destruct (models_exists (b_store b) (w1_key w) Hwf Hl) as [K HK].
  pose proof (mvccWriteCommitted_refines b _ K ts (w1_data w) (w1_tomb w) Hwf HK Hl Hk Ht) as Hr. rewrite Hw in Hr.
  unfold ref_write_committed in Hr. destruct (k_intent K); [destruct Hr; discriminate|].
  set (K' := mkK None (insert_version ts (encodeMVCCValue (w1_data w) (w1_tomb w)) (k_versions K))) in Hr.
  assert (Hr' : refines b (w1_key w) (b', Ok tt) (Ok K') /\ Forall (fun v : version => v.1 <t ts) (k_versions K)).
  { pose proof (models_sorted _ _ _ HK) as Hsort. destruct (k_versions K) as [|[v raw] vs]; [done|]. cbn [head] in Hr.
    destruct (LessEq ts v) eqn:E; [destruct Hr; discriminate|]. split; [done|]. apply below_head; [done|]. cbn. tsb. ts_lia. }
  destruct Hr' as [Hr' Hb].
  assert (Hso : store_ok (b_store b')) by (apply (refines_store_ok b (w1_key w) (b', Ok tt) (Ok K')); [done..|]; by intros ? [= <-]).
  destruct Hr' as (_ & Hwf' & HK' & Hse). unfold K' in HK'. rewrite insert_version_top in HK' by done. split_and!.
  - done.
  - by eexists _, _.
  - intros k Hkl Hne (raw & vs & HKk). exists raw, vs. by eapply (models_elsewhere (b_store b)).
Qed.

Lemma one_phase_blocked ts tail ws k : forall st out st1 rs,
  ts_valid ts -> Forall w1_ok ws -> k ∈ map w1_key ws -> IsLocal k = false -> store_ok (b_store (es_b st)) ->
  at_top ts (b_store (es_b st)) k ->
  eval_requests (evalOnePhaseRequest ts) (map w1_request ws ++ tail) [] out st = (st1, Ok rs) -> False.
Proof.
  induction ws as [|w ws IH]; intros st out st1 rs Ht Hok Hin Hl Hs Htop; [by apply not_elem_of_nil in Hin|].
  inversion Hok as [|? ? Hw Hok']; subst. cbn [map app eval_requests]. rewrite eval_one_phase_write. unfold collecting.
  destruct (mvccWriteCommitted _ _ _ _ (es_b st)) as [b' [[]|e]] eqn:E.
  - destruct (committed_at_top ts _ w b' Hs Hw Ht E) as (Hs' & _ & Hother). cbn [respond].
    destruct (decide (k = w1_key w)) as [->|Hne].
    + pose proof (committed_too_old ts (es_b st) w Hs Hw Ht Htop) as Hto. rewrite E in Hto. discriminate.
    + apply IH; [done|done| |done|done|by apply Hother]. cbn [map] in Hin. by apply elem_of_cons in Hin as [->|].
  - destruct e as [ints| | | | | | | | | |]; try done. apply eval_requests_conflicted.
    destruct Hw as [Hwl Hwk]. pose proof (committed_conflict _ _ _ _ _ _ _ Hs Hwl Hwk Ht E) as Hne. destruct ints as [|i ints]; [done|].
    by apply (collect_nonempty [i] ints).
Qed.

(** A write set that names a key twice cannot commit in one phase, whatever
    the state and the timestamp: the second write finds the first one's
    version at its own timestamp and is told the write is too old, so a
    retry at a higher timestamp meets the same answer. *)
Theorem one_phase_duplicate_never_commits env txn ws st st1 r1 :
  store_ok (b_store (es_b st)) -> ts_valid (WriteTimestamp (tMeta txn)) -> Forall w1_ok ws ->
  ~ NoDup (map w1_key ws) -> evalWriteBatch env (one_phase_batch txn ws) st <> (st1, Ok r1).
Proof.
  intros Hs Ht Hok Hdup. assert (Hne : ws <> []) by (intros ->; apply Hdup; constructor).
  unfold evalWriteBatch. rewrite is1PC_one_phase by done. unfold evalOnePhase. cbn [bhTxn baHeader one_phase_batch txn_header baRequests].
  destruct (negb _); [done|]. destruct (loadTxnRecord _ _) as [b0 [rec|e]]; [|done]. destruct (bool_decide _); [done|].
  set (tail := [union_of _]). set (ts := WriteTimestamp (tMeta txn)) in *. clearbody tail. clear Hne.
  enough (Hg : forall st out st' rs, store_ok (b_store (es_b st)) ->
    eval_requests (evalOnePhaseRequest ts) (map w1_request ws ++ tail) [] out st <> (st', Ok rs)).
  { destruct (eval_requests _ _ _ _ _) as [st' [rs|e]] eqn:E; [|done]. by apply Hg in E. }
  clear st Hs. induction ws as [|w ws IH]; [destruct Hdup; constructor|]. intros st out st' rs Hs.
  inversion Hok as [|? ? Hw Hok']; subst. cbn [map app eval_requests]. rewrite eval_one_phase_write. unfold collecting.
  destruct (mvccWriteCommitted _ _ _ _ (es_b st)) as [b' [[]|e]] eqn:E.
  - destruct (committed_at_top ts _ w b' Hs Hw Ht E) as (Hs' & Htop & _). cbn [respond].
    destruct (decide (w1_key w ∈ map w1_key ws)) as [Hin|Hnin].
    + intros H. by eapply (one_phase_blocked ts tail ws (w1_key w)); [..|exact H]; try done; apply Hw.
    + apply IH; [done|intros Hnd; apply Hdup; by constructor|done].
  - destruct e as [ints| | | | | | | | | |]; try done. intros H. eapply eval_requests_conflicted; [|exact H].
    destruct Hw as [Hwl Hwk]. pose proof (committed_conflict _ _ _ _ _ _ _ Hs Hwl Hwk Ht E) as Hne. destruct ints as [|i ints]; [done|].
    by apply (collect_nonempty [i] ints).
Qed.
End OnePhase.

(** ** Witnesses *)

Definition ex_one_phase : Transaction :=
  mkTxn (mkTxnMeta (repeat 7 16) ex_key 0 (mkTs 8 0) (mkTs 8 0) 1 0 0 false) [] PENDING (mkTs 8 0) (mkTs 8 0) [] uuid_Nil [] [].
Definition ex_ws : list write1 := [mkW1 ex_key [42] false; mkW1 [4; 9] [] true].
Definition ex_st (s : store (Pebble := map_pebble)) : evalState := mkES (NewBatch true s) ex_mu (NewGetter true true).

Lemma one_phase_is_two_phase_witness :
  exists st2 r2 st3 st4 r4,
    evalWriteBatch ex_env (write_batch ex_one_phase ex_ws) (ex_st (b_store ex_batch)) = (st2, Ok r2) /\
    evalWriteBatch ex_env (commit_batch ex_one_phase ex_ws) (again true st2) =
      (st3, Ok (mkBatchResponse (Some ex_one_phase) ts0 [OEndTxn (mkTs 8 0) false])) /\
    evalWriteBatch ex_env (resolve_batch ex_one_phase ex_ws) (again true st3) = (st4, Ok r4) /\
    MVCCGet true (b_store (es_b st4)) ex_key (mkTs 9 0) (ex_opts None) = Ok (Some [42]).
Proof.
  assert (E : exists r1, (evalWriteBatch ex_env (one_phase_batch ex_one_phase ex_ws) (ex_st (b_store ex_batch))).2 = Ok r1)
    by (vm_compute; by eexists).
  destruct E as [r1 E]. apply outcome_ok in E.
  destruct (one_phase_is_two_phase ex_env true ex_one_phase ex_ws (b_store ex_batch) ex_mu (NewGetter true true)
    (evalWriteBatch ex_env (one_phase_batch ex_one_phase ex_ws) (ex_st (b_store ex_batch))).1 r1)
    as (st2 & r2 & st3 & st4 & r4 & H2 & H3 & H4 & Hread & _).
  - apply ex_batch_ok.
  - split; reflexivity.
  - exact (ex_ts_valid 8 0 ltac:(lia) ltac:(lia)).
  - constructor; [|constructor; [|constructor]]; (split; [reflexivity|by_compute]).
  - by_compute.
  - discriminate.
  - vm_compute. reflexivity.
  - left. reflexivity.
  - exact E.
  - exists st2, r2, st3, st4, r4. split; [exact H2|]. split; [exact H3|]. split; [exact H4|].
    rewrite (Hread ex_key eq_refl true (mkTs 9 0) (ex_opts None) (ex_opts_ok None 9 ltac:(lia))). vm_compute. reflexivity.
Defined.

(** The same key twice commits under the classic protocol. *)
Example classic_duplicate_commits :
  exists r, (evalWriteBatch ex_env (write_batch ex_one_phase [mkW1 ex_key [1] false; mkW1 ex_key [2] false]) (ex_st (b_store ex_batch))).2 = Ok r.
Proof. vm_compute. by eexists. Qed.
