(* ===== verification/Execute.v ===== *)
(** * Serving batches on the leader (pkg/kvserver/replica.go, closedts.go)

    [Execute] takes its batch through key bounds, latches, the frozen and GC
    gates and, for a write, the timestamp cache, before it proposes it; the
    closed-timestamp publisher drains writes with a shared latch over the
    whole range, raises the cache and proposes its promise.  Many of them run
    at once: the model cuts each into its atomic steps (a mutex-protected
    call each) and interleaves the steps as a list of events.

    The latch manager and the timestamp cache are used through the interfaces
    [LatchService] and [CacheService]; Latch.v and TsCache.v implement them.
    The raft group is the log the leader appends to, under a stable
    leadership, and the application of its entries in order; the verdicts of
    the engine (overload), of the lease and of the read index arrive with the
    events.  Administrative requests, whose handlers propose commands of
    their own, are the events [EOther]. *)

From S2P Require Import Prelude Encoding Hlc Keys MvccKey Pebble Enginepb Mvcc MvccWrite MvccScan Kvpb TxnRecord Gc Strconv Latch TsCache Apply.

#[local] Abbreviation length := Datatypes.length.
#[local] Open Scope list_scope.
Open Scope Z_scope.

(** ** Interfaces *)

Class LatchService (M : Type) := {
  ls_held : M -> gmap N latch;
  ls_try : M -> latch -> option M;
  ls_release : M -> latch -> M }.

Class CacheService (C : Type) := {
  cs_bump : list latchSpan -> Timestamp -> uuid -> C -> C;
  cs_allows : C -> list latchSpan -> Timestamp -> uuid -> bool * Timestamp }.

(** What a caller of the latch manager relies on. *)
Class LatchLaws (M : Type) `{LatchService M} := {
  ls_inv : M -> Prop;
  ls_exclusive m i j l h :
    ls_inv m -> ls_held m !! i = Some l -> ls_held m !! j = Some h -> i <> j -> ~ clash l h;
  ls_try_held m l m' :
    ls_inv m -> ls_held m !! lid l = None -> lranged l = existsb is_ranged (lspans l) -> ls_try m l = Some m' ->
    ls_inv m' /\ ls_held m' = <[lid l := l]> (ls_held m);
  ls_release_held m l :
    ls_inv m -> ls_held m !! lid l = Some l -> ls_inv (ls_release m l) /\ ls_held (ls_release m l) = delete (lid l) (ls_held m) }.

(** A timestamp with a successor. *)
Definition ts_small (t : Timestamp) : Prop := ts_ok t /\ t <> ts_max.

(** What a caller of the timestamp cache relies on: it remembers the reads
    it was told of, and answers for them. *)
Class CacheLaws (C : Type) `{CacheService C} := {
  cs_notes : C -> bytes -> Timestamp * uuid -> Prop;
  cs_ok : C -> Prop;
  cs_bump_ok spans ts id c : ts_small ts -> cs_ok c -> cs_ok (cs_bump spans ts id c);
  cs_bump_keeps spans ts id c k q : cs_notes c k q -> cs_notes (cs_bump spans ts id c) k q;
  cs_bump_notes spans ts id c sp k : sp ∈ spans -> covers sp k -> cs_notes (cs_bump spans ts id c) k (ts, id);
  cs_allows_notes c spans w k ts id q :
    cs_notes c k q -> w ∈ spans -> covers w k -> (cs_allows c spans ts id).1 = true -> admits ts id q;
  cs_low c spans w k ts id q :
    cs_notes c k q -> w ∈ spans -> covers w k -> q.1 <=t (cs_allows c spans ts id).2;
  cs_low_small c spans ts id : cs_ok c -> ts_small (cs_allows c spans ts id).2 }.

(** ** The gates of [Execute] *)

Inductive exec_err :=
| XNotLeader | XAddr (e : addr_err) | XEmptyUnion
| XRangeKeyMismatch (requestKey : bytes) (actual : list RangeDescriptor)
| XBelowGC (ts thr : Timestamp) | XExportBelowGC (start thr : Timestamp)
| XOverloaded | XTxnRetry (retryTS : Timestamp) | XEval (e : kv_err)
| XPanic.                  (* a Go run-time error *)

Definition batchTxnID (ba : BatchRequest) : uuid :=
  match bhTxn (baHeader ba) with Some t => ID (tMeta t) | None => uuid_Nil end.

Definition isGCBatch (ba : BatchRequest) : bool :=
  existsb (fun u => match uGC u with Some _ => true | None => false end) (baRequests ba).

Fixpoint is_table_data (us : list RequestUnion) : bool :=
  match us with
  | [] => false
  | u :: us =>
      match GetInner u with
      | None => is_table_data us
      | Some req =>
          if Request_IsReadOnly req then is_table_data us
          else match hKey (Header req) with b :: _ => b =? tablePrefixByte | [] => false end
      end
  end.
Definition batchIsTableData (ba : BatchRequest) : bool := is_table_data (baRequests ba).

(** The span of a request that writes MVCC versions; unaddressable keys are
    skipped. *)
Definition write_span (u : RequestUnion) : option latchSpan :=
  if writes_mvcc (GetInner u) then
    match GetInner u with
    | None => None
    | Some req =>
        match Addr (hKey (Header req)) with
        | Err _ => None
        | Ok start =>
            if (0 <? length (hEndKey (Header req)))%nat then
              match Addr (hEndKey (Header req)) with
              | Ok end_ => Some (mkSpan start (Some end_))
              | Err _ => Some (mkSpan start None)
              end
            else Some (mkSpan start None)
        end
    end
  else None.
Definition mvccWriteSpans (ba : BatchRequest) : list latchSpan := omap write_span (baRequests ba).

(** [None] is a batch addressed to the range. *)
Definition check_bounds (desc : RangeDescriptor) (u : RequestUnion) : option exec_err :=
  match GetInner u with
  | None => Some XEmptyUnion
  | Some req =>
      let h := Header req in
      match Addr (hKey h) with
      | Err e => Some (XAddr e)
      | Ok addr =>
          if negb (ContainsKey desc addr) then Some (XRangeKeyMismatch addr [desc])
          else if (0 <? length (hEndKey h))%nat then
            match Addr (hEndKey h) with
            | Err e => Some (XAddr e)
            | Ok endAddr => if bltb (EndKey desc) endAddr then Some (XRangeKeyMismatch endAddr [desc]) else None
            end
          else None
      end
  end.
Fixpoint check_all_bounds (desc : RangeDescriptor) (us : list RequestUnion) : option exec_err :=
  match us with
  | [] => None
  | u :: us => match check_bounds desc u with Some e => Some e | None => check_all_bounds desc us end
  end.
Definition checkKeyBounds (desc : RangeDescriptor) (ba : BatchRequest) : option exec_err :=
  check_all_bounds desc (baRequests ba).

Definition thaws (u : RequestUnion) : bool :=
  match GetInner u with Some (RSubsume _) | Some (RUnfreeze _) => true | _ => false end.
Definition checkFrozen (mu : replicaMu) (ba : BatchRequest) : option exec_err :=
  if negb (muFrozen mu) then None
  else if existsb thaws (baRequests ba) then None
  else
    match baRequests ba with
    | [] => Some XPanic
    | u :: _ =>
        match GetInner u with
        | None => Some XPanic
        | Some req => Some (XRangeKeyMismatch (match Addr (hKey (Header req)) with Ok a => a | Err _ => [] end) [])
        end
    end.

(** The first incremental export that opens below the threshold. *)
Fixpoint export_below (thr : Timestamp) (us : list RequestUnion) : option exec_err :=
  match us with
  | [] => None
  | u :: us =>
      match uExport u with
      | Some e =>
          if negb (IsEmpty (exStartTS e)) && negb (IsEmpty thr) && Less (exStartTS e) thr
          then Some (XExportBelowGC (exStartTS e) thr)
          else export_below thr us
      | None => export_below thr us
      end
  end.

Definition with_txn (ba : BatchRequest) (t : Transaction) : BatchRequest :=
  let h := baHeader ba in
  mkBatchRequest (mkBatchHeader (bhTimestamp h) (Some t) (bhRangeID h) (bhCreateTxnRecord h) (bhReadInconsistent h) (bhStaleRead h))
    (baRequests ba).
Definition with_write_ts (t : Transaction) (ts : Timestamp) : Transaction :=
  let m := tMeta t in
  mkTxn (mkTxnMeta (ID m) (Key m) (Epoch m) ts (MinTimestamp m) (Priority m) (Sequence m) (HistoryFloor m) (BinaryMeta m))
    (tName t) (tStatus t) (tReadTimestamp t) (tLastHeartbeat t) (tIntentKeys t) (tWaitingFor t) (tWaitingForKey t) (tInFlightKeys t).

(** What the gates decide: the batch fails, is read, or is proposed (with
    its transaction's write timestamp possibly forwarded). *)
Inductive gated := GFail (e : exec_err) | GRead | GWrite (ba : BatchRequest).

Section Gate.
Context {C : Type} `{CacheService C}.

(** Backpressure, then the timestamp cache.  [over] is the verdict on the
    engine and on the other replicas' nodes. *)
Definition admit_write (over : bool) (c : C) (ba : BatchRequest) : gated :=
  if HasMVCCWrites ba && negb (isGCBatch ba) && batchIsTableData ba && over then GFail XOverloaded
  else if HasMVCCWrites ba then
    let '(ok, low) := cs_allows c (mvccWriteSpans ba) (writeTimestamp ba) (batchTxnID ba) in
    if is1PC ba then
      if negb (Equal (readTimestamp ba) (writeTimestamp ba)) then GFail (XTxnRetry (writeTimestamp ba))
      else if ok then GWrite ba else GFail (XTxnRetry (Next low))
    else if ok then GWrite ba
    else
      match bhTxn (baHeader ba) with
      | None => GFail (XTxnRetry (Next low))
      | Some t => GWrite (with_txn ba (with_write_ts t (Forward (WriteTimestamp (tMeta t)) (Next low))))
      end
  else GWrite ba.

Definition gate (mu : replicaMu) (over : bool) (c : C) (ba : BatchRequest) : gated :=
  let thr := muGCThreshold mu in
  match checkFrozen mu ba with
  | Some e => GFail e
  | None =>
      if negb (isGCBatch ba) && negb (IsEmpty thr) && LessEq (readTimestamp ba) thr then GFail (XBelowGC (readTimestamp ba) thr)
      else
        match export_below thr (baRequests ba) with
        | Some e => GFail e
        | None => if BatchRequest_IsReadOnly ba then GRead else admit_write over c ba
        end
  end.
End Gate.

(** ** Stale reads on any replica (closedts.go) *)

(** [ClosedTimestamp] of a replica that is not a sleeping, registered
    leader; [side] is its off-log promise. *)
Definition ClosedTimestamp (mu : replicaMu) (side : Timestamp) : Timestamp := Forward (muClosedTS mu) side.

(** [acceptClosedTimestamp]: [follows] is raft's word that this replica
    follows the sender at the term of the promise. *)
Definition acceptClosedTimestamp (follows : bool) (index : Z) (closed : Timestamp) (mu : replicaMu) (side : Timestamp)
    : Timestamp * bool :=
  if negb follows then (side, false)
  else if (muAppliedIndex mu <? index) || muFrozen mu then (side, false)
  else (if Less side closed then closed else side, true).

Section Leader.
Context {P : Pebble} {MC : MetaCodec} {TC : TxnCodec} {SC : StateCodec}.

Definition executeStaleRead (maxOffset : Z) (pb : bool) (r : replica) (side : Timestamp) (ba : BatchRequest)
    : result exec_err BatchResponse :=
  let mu := r_mu r in
  match checkKeyBounds (muDesc mu) ba with
  | Some e => Err e
  | None =>
      match checkFrozen mu ba with
      | Some e => Err e
      | None =>
          let ts := readTimestamp ba in
          if negb (IsEmpty (muGCThreshold mu)) && LessEq ts (muGCThreshold mu) then Err (XBelowGC ts (muGCThreshold mu))
          else if Less (ClosedTimestamp mu side) ts then Err XNotLeader
          else
            match evalReadOnly maxOffset pb (r_store r) ba with
            | Err (ErrStorage (WriteIntentError _)) => Err XNotLeader
            | Err e => Err (XEval e)
            | Ok br => Ok br
            end
      end
  end.

(** ** The leader as a state machine *)

Context {M : Type} `{LatchService M} {C : Type} `{CacheService C}.

Inductive job := JExec (ba : BatchRequest) | JClose (target : Timestamp).
Inductive phase :=
| Latched                          (* holds its latch, not gated yet *)
| Bumped                           (* raised the cache, still latched *)
| Checked (ba : BatchRequest)      (* passed the gates with this batch *)
| Proposed (n : nat)               (* its command is entry n of the log *)
| Released.                        (* a publisher past its latch *)
Record call := mkCall { cJob : job; cLatch : latch; cPhase : phase }.

(** The history of cache bumps: who read what, and the length of the log
    and of its applied part at that moment. *)
Record bump := mkBump { bmSpans : list latchSpan; bmTS : Timestamp; bmID : uuid; bmLog : nat; bmApplied : nat }.

Record leader := mkLeader {
  ld_latches : M; ld_cache : C; ld_calls : gmap N call; ld_log : list raftCommand; ld_applied : nat; ld_replica : replica;
  ld_bumps : list bump; ld_served : list (N * result exec_err BatchResponse) }.

Inductive event :=
| EStart (id : N) (ba : BatchRequest)      (* Execute up to the latch *)
| EGate (id : N) (over : bool)             (* the gates; a read bumps the cache *)
| EServe (id : N) (confirmed : bool)       (* the read index, evaluation, release *)
| EPropose (id : N)                        (* the command is appended to the log *)
| EApply (env : applyEnv)                  (* the next entry is applied *)
| EFinish (id : N)                         (* the applied result, release *)
| EAbandon (id : N)                        (* the caller's context ends first: release *)
| EClose (id : N) (target : Timestamp)     (* publishClosedTimestamp up to its latch *)
| EBump (id : N) | ERelease (id : N)
| EOther (cmd : raftCommand).              (* another command, of no MVCC write *)

Definition with_calls (st : leader) (m : M) (calls : gmap N call) : leader :=
  mkLeader m (ld_cache st) calls (ld_log st) (ld_applied st) (ld_replica st) (ld_bumps st) (ld_served st).
Definition set_phase (st : leader) (id : N) (c : call) (p : phase) : leader :=
  with_calls st (ld_latches st) (<[id := mkCall (cJob c) (cLatch c) p]> (ld_calls st)).
(** The call returns and its deferred [Release] runs. *)
Definition return_call (st : leader) (id : N) (c : call) : leader :=
  with_calls st (ls_release (ld_latches st) (cLatch c)) (delete id (ld_calls st)).
Definition answer (st : leader) (id : N) (res : result exec_err BatchResponse) : leader :=
  mkLeader (ld_latches st) (ld_cache st) (ld_calls st) (ld_log st) (ld_applied st) (ld_replica st) (ld_bumps st)
    (ld_served st ++ [(id, res)]).
Definition append_log (st : leader) (cmd : raftCommand) : leader :=
  mkLeader (ld_latches st) (ld_cache st) (ld_calls st) (ld_log st ++ [cmd]) (ld_applied st) (ld_replica st) (ld_bumps st)
    (ld_served st).
Definition bump_cache (st : leader) (spans : list latchSpan) (ts : Timestamp) (id : uuid) : leader :=
  mkLeader (ld_latches st) (cs_bump spans ts id (ld_cache st)) (ld_calls st) (ld_log st) (ld_applied st) (ld_replica st)
    (mkBump spans ts id (length (ld_log st)) (ld_applied st) :: ld_bumps st) (ld_served st).

(** A new call takes its latch; [None] while it has to wait. *)
Definition take_latch (st : leader) (id : N) (j : job) (spans : list latchSpan) (mode : latchMode) : option leader :=
  match ld_calls st !! id, ls_held (ld_latches st) !! id with
  | None, None =>
      let l := new_latch id spans mode in
      match ls_try (ld_latches st) l with
      | Some m => Some (with_calls st m (<[id := mkCall j l Latched]> (ld_calls st)))
      | None => None
      end
  | _, _ => None
  end.

Definition closed_command (rangeID : Z) (target : Timestamp) : raftCommand :=
  mkCommand (mkBatchRequest (mkBatchHeader ts0 None rangeID false false false) []) None None target.

(** One event; [None] is an event that cannot happen in the state. *)
Definition step (maxOffset : Z) (pb : bool) (e : event) (st : leader) : option leader :=
  let mu := r_mu (ld_replica st) in
  match e with
  | EStart id ba =>
      match checkKeyBounds (muDesc mu) ba, latchSpans ba with
      | None, Ok (spans, mode) => take_latch st id (JExec ba) spans mode
      | _, _ => None
      end
  | EGate id over =>
      match ld_calls st !! id with
      | Some (mkCall (JExec ba) l Latched as c) =>
          match gate mu over (ld_cache st) ba with
          | GFail e => Some (answer (return_call st id c) id (Err e))
          | GRead => Some (set_phase (bump_cache st (lspans l) (readTimestamp ba) (batchTxnID ba)) id c Bumped)
          | GWrite ba' => Some (set_phase st id c (Checked ba'))
          end
      | _ => None
      end
  | EServe id confirmed =>
      match ld_calls st !! id with
      | Some (mkCall (JExec ba) l Bumped as c) =>
          let res :=
            if negb confirmed then Err XNotLeader
            else match evalReadOnly maxOffset pb (r_store (ld_replica st)) ba with Ok br => Ok br | Err e => Err (XEval e) end in
          Some (answer (return_call st id c) id res)
      | _ => None
      end
  | EPropose id =>
      match ld_calls st !! id with
      | Some (mkCall _ l (Checked ba) as c) =>
          Some (append_log (set_phase st id c (Proposed (length (ld_log st)))) (mkCommand ba None None ts0))
      | Some (mkCall (JClose target) l Released) =>
          Some (append_log (with_calls st (ld_latches st) (delete id (ld_calls st))) (closed_command (RangeID (muDesc mu)) target))
      | _ => None
      end
  | EApply env =>
      match ld_log st !! ld_applied st with
      | None => None
      | Some cmd =>
          match applyCommand pb env cmd (Z.of_nat (S (ld_applied st))) (ld_replica st) with
          | (r, Applied _) =>
              Some (mkLeader (ld_latches st) (ld_cache st) (ld_calls st) (ld_log st) (S (ld_applied st)) r (ld_bumps st)
                     (ld_served st))
          | (_, Aborted) => None
          end
      end
  | EFinish id =>
      match ld_calls st !! id with
      | Some (mkCall _ _ (Proposed n) as c) => if (n <? ld_applied st)%nat then Some (return_call st id c) else None
      | _ => None
      end
  | EAbandon id =>
      match ld_calls st !! id with
      | Some (mkCall _ _ (Proposed n) as c) => Some (return_call st id c)
      | _ => None
      end
  | EClose id target => take_latch st id (JClose target) [wholeRangeSpan] latchShared
  | EBump id =>
      match ld_calls st !! id with
      | Some (mkCall (JClose target) l Latched as c) =>
          Some (set_phase (bump_cache st [wholeRangeSpan] target uuid_Nil) id c Bumped)
      | _ => None
      end
  | ERelease id =>
      match ld_calls st !! id with
      | Some (mkCall (JClose target) l Bumped as c) =>
          Some (set_phase (with_calls st (ls_release (ld_latches st) l) (ld_calls st)) id c Released)
      | _ => None
      end
  | EOther cmd =>
      if HasMVCCWrites (cmBatch cmd) || negb (IsEmpty (cmClosedTS cmd)) then None else Some (append_log st cmd)
  end.

Fixpoint run (maxOffset : Z) (pb : bool) (es : list event) (st : leader) : option leader :=
  match es with
  | [] => Some st
  | e :: es => match step maxOffset pb e st with Some st => run maxOffset pb es st | None => None end
  end.
End Leader.
