(* ===== verification/ExecuteSpec.v ===== *)
(** * What the leader guarantees: latches and the timestamp cache together

    The invariants documented as L1 and L2 (pkg/kvserver/latch.go) and the
    argument of closedts.go, over every interleaving of the steps of
    Execute.v.  The proofs use the interfaces only; the instances for the
    latch manager and the timestamp cache discharge them. *)

From S2P Require Import Prelude Encoding Hlc Keys MvccKey Pebble Enginepb Mvcc MvccWrite MvccScan Kvpb KvpbWire TxnRecord TxnRecordSpec Gc Strconv.
From S2P Require Import MvccTxn Latch TsCache Apply ApplySpec Execute.

#[local] Abbreviation length := Datatypes.length.
#[local] Open Scope list_scope.
Open Scope Z_scope.

(** ** What a batch writes, and the latch that guards it *)

Definition writes (ba : BatchRequest) (k : bytes) : Prop := exists w, w ∈ mvccWriteSpans ba /\ covers w k.
Definition reads_key (b : bump) (k : bytes) : Prop := exists sp, sp ∈ bmSpans b /\ covers sp k.

(** On every key they share the batch is admitted over the read: above it,
    or at its timestamp by the reader itself. *)
Definition above (ba : BatchRequest) (b : bump) : Prop :=
  forall k, writes ba k -> reads_key b k -> admits (writeTimestamp ba) (batchTxnID ba) (bmTS b, bmID b).

Definition guards (l : latch) (ba : BatchRequest) : Prop :=
  lmode l = latchExclusive /\ forall k, writes ba k -> exists sp, sp ∈ lspans l /\ covers sp k.

Lemma write_spans_none ba k : HasMVCCWrites ba = false -> ~ writes ba k.
Proof.
  unfold HasMVCCWrites, writes, mvccWriteSpans. intros Hn (w & Hw & _). apply list_elem_of_omap in Hw as (u & Hu & Hw).
  assert (writes_mvcc (GetInner u) = false) as Hf.
  { destruct (writes_mvcc (GetInner u)) eqn:E; [|done]. rewrite <- not_true_iff_false in Hn. destruct Hn.
    apply existsb_exists. exists u. by rewrite <- list_elem_of_In. }
  unfold write_span in Hw. by rewrite Hf in Hw.
Qed.

Lemma writes_same_requests ba ba' k : baRequests ba' = baRequests ba -> writes ba' k <-> writes ba k.
Proof. unfold writes, mvccWriteSpans. by intros ->. Qed.

Lemma request_spans_writes us : forall spans, request_spans us = Ok spans -> forall w, w ∈ omap write_span us -> w ∈ spans.
Proof.
  induction us as [|u us IH]; intros spans Hs w Hw; [by apply not_elem_of_nil in Hw|]. cbn [request_spans] in Hs.
  unfold rbind in Hs. destruct (request_span u) as [o|] eqn:Eo; [|done]. destruct (request_spans us) as [spans'|] eqn:Es; [|done].
  injection Hs as <-. cbn [omap list_omap] in Hw. unfold write_span in Hw. unfold request_span, rbind in Eo.
  destruct (writes_mvcc (GetInner u)); [|destruct o; [apply list_elem_of_further|]; by eapply IH].
  destruct (GetInner u) as [req|]; [|injection Eo as <-; by eapply IH].
  destruct (Addr (hKey (Header req))) as [start|]; [|done].
  destruct (0 <? length (hEndKey (Header req)))%nat; [destruct (Addr (hEndKey (Header req))) as [e|]; [|done]|];
    injection Eo as <-; apply elem_of_cons in Hw as [->|Hw]; [apply list_elem_of_here|apply list_elem_of_further|
      apply list_elem_of_here|apply list_elem_of_further]; by eapply IH.
Qed.

Lemma latchSpans_guards ba ba' l :
  latchSpans ba = Ok (lspans l, lmode l) -> BatchRequest_IsReadOnly ba = false -> baRequests ba' = baRequests ba -> guards l ba'.
Proof.
  unfold latchSpans, rbind. intros Hl Hr He. rewrite Hr in Hl. destruct (request_spans _) as [spans|] eqn:Es; [|done].
  injection Hl as Hl Hm. split; [done|]. intros k (w & Hw & Hk). exists w. split; [|done]. rewrite <- Hl.
  eapply request_spans_writes; [exact Es|]. unfold mvccWriteSpans in Hw. by rewrite He in Hw.
Qed.

(** A reader's latch and a writer's that share a key clash. *)
Lemma guards_clash l h ba b k :
  guards h ba -> writes ba k -> bmSpans b = lspans l -> reads_key b k -> clash l h.
Proof.
  intros [Hm Hg] Hw Hb (sp & Hsp & Hk). destruct (Hg k Hw) as (ws & Hws & Hwk). rewrite Hb in Hsp.
  split; [unfold conflicts; rewrite (bool_decide_eq_true_2 (lmode h = _)) by done; apply orb_true_r|].
  exists sp, ws. split_and!; [done..|]. by eapply overlaps_covers.
Qed.

(** ** The invariant *)

Section Leader.
Context {P : Pebble} {MC : MetaCodec} {TC : TxnCodec} {SC : StateCodec}.
Context {M : Type} `{LL : LatchLaws M} {C : Type} `{CL : CacheLaws C}.

#[local] Abbreviation leader := (@leader P M C).

(** What a batch that passed the gates may rely on. *)
Lemma admit_write_above over (c : C) ba ba' k q :
  cs_ok c -> admit_write over c ba = GWrite ba' -> cs_notes c k q -> writes ba' k ->
  admits (writeTimestamp ba') (batchTxnID ba') q.
Proof.
  intros Hok Ha Hn Hw. unfold admit_write in Ha. destruct (HasMVCCWrites ba && _ && _ && _); [done|].
  destruct (HasMVCCWrites ba) eqn:Em; [|injection Ha as <-; by apply write_spans_none in Hw].
  destruct (cs_allows c (mvccWriteSpans ba) (writeTimestamp ba) (batchTxnID ba)) as [ok low] eqn:Ec.
  assert (Hdone : ok = true -> ba' = ba -> admits (writeTimestamp ba') (batchTxnID ba') q).
  { intros -> ->. destruct Hw as (w & Hw & Hk). eapply (cs_allows_notes c (mvccWriteSpans ba)); [done..|]. by rewrite Ec. }
  destruct (is1PC ba); [destruct (negb _); [done|]; destruct ok; [|done]; by injection Ha as <-; apply Hdone|].
  destruct ok; [by injection Ha as <-; apply Hdone|]. destruct (bhTxn (baHeader ba)) as [t|] eqn:Et; [|done]. injection Ha as <-.
  destruct Hw as (w & Hw & Hk). pose proof (cs_low c (mvccWriteSpans ba) w k (writeTimestamp ba) (batchTxnID ba) q Hn Hw Hk) as Hlow.
  destruct (cs_low_small c (mvccWriteSpans ba) (writeTimestamp ba) (batchTxnID ba) Hok) as [Hs1 Hs2]. rewrite Ec in *. cbn [snd] in *.
  left. pose proof (Next_gt low Hs1 Hs2) as Hnext. unfold writeTimestamp. cbn [with_txn baHeader bhTxn with_write_ts tMeta WriteTimestamp].
  destruct (Forward_max (WriteTimestamp (tMeta t)) (Next low)) as (_ & Hf & _). ts_lia.
Qed.

Lemma admit_write_requests over (c : C) ba ba' : admit_write over c ba = GWrite ba' -> baRequests ba' = baRequests ba.
Proof. unfold admit_write. repeat case_match; intros Hg; try done; by injection Hg as <-. Qed.

Lemma gate_write mu over (c : C) ba ba' :
  gate mu over c ba = GWrite ba' -> BatchRequest_IsReadOnly ba = false /\ admit_write over c ba = GWrite ba'.
Proof.
  unfold gate. destruct (checkFrozen mu ba); [done|]. destruct (negb _ && _ && _); [done|]. destruct (export_below _ _); [done|].
  by destruct (BatchRequest_IsReadOnly ba).
Qed.

Lemma gate_read mu over (c : C) ba : gate mu over c ba = GRead -> BatchRequest_IsReadOnly ba = true.
Proof.
  unfold gate. destruct (checkFrozen mu ba); [done|]. destruct (negb _ && _ && _); [done|]. destruct (export_below _ _); [done|].
  destruct (BatchRequest_IsReadOnly ba); [done|]. unfold admit_write. destruct (_ && _ && _ && _); [done|].
  destruct (HasMVCCWrites ba); [|done]. destruct (cs_allows _ _ _ _) as [ok low]. repeat case_match; done.
Qed.

(** The promise [T], made before entry [n]. *)
Definition closes (bs : list bump) (T : Timestamp) (n : nat) : Prop :=
  exists b, b ∈ bs /\ bmSpans b = [wholeRangeSpan] /\ bmTS b = T /\ bmID b = uuid_Nil /\ (bmLog b <= n)%nat.

(** A call and what it holds. *)
Definition phase_ok (log : list raftCommand) (bs : list bump) (c : call) : Prop :=
  match cJob c, cPhase c with
  | JExec ba, Latched | JExec ba, Bumped => latchSpans ba = Ok (lspans (cLatch c), lmode (cLatch c)) /\ ts_small (readTimestamp ba)
  | JExec _, Checked ba => guards (cLatch c) ba
  | JExec _, Proposed n => exists cmd, log !! n = Some cmd /\ guards (cLatch c) (cmBatch cmd)
  | JClose T, Latched => lspans (cLatch c) = [wholeRangeSpan] /\ ts_small T
  | JClose T, Bumped | JClose T, Released => closes bs T (length log)
  | _, _ => False
  end.

Record call_ok (hs : gmap N latch) (log : list raftCommand) (bs : list bump) (id : N) (c : call) : Prop := {
  co_held : cPhase c <> Released -> hs !! id = Some (cLatch c);
  co_id : lid (cLatch c) = id;
  co_phase : phase_ok log bs c }.

Record inv (st : leader) : Prop := {
  v_latch : ls_inv (ld_latches st);
  v_cache : cs_ok (ld_cache st);
  v_calls id c : ld_calls st !! id = Some c -> call_ok (ls_held (ld_latches st)) (ld_log st) (ld_bumps st) id c;
  v_noted b k : b ∈ ld_bumps st -> reads_key b k -> cs_notes (ld_cache st) k (bmTS b, bmID b);
  v_checked b id c ba : b ∈ ld_bumps st -> ld_calls st !! id = Some c -> cPhase c = Checked ba -> above ba b;
  v_past b : b ∈ ld_bumps st -> (bmLog b <= length (ld_log st))%nat;
  v_log b j cmd : b ∈ ld_bumps st -> (bmLog b <= j)%nat -> ld_log st !! j = Some cmd -> above (cmBatch cmd) b;
  v_closed i cmd : ld_log st !! i = Some cmd -> cmClosedTS cmd <> ts0 -> closes (ld_bumps st) (cmClosedTS cmd) i }.

Lemma closes_mono bs bs' T n n' : bs ⊆ bs' -> (n <= n')%nat -> closes bs T n -> closes bs' T n'.
Proof. intros Hb Hn (b & Hin & H1 & H2 & H3 & H4). exists b. split_and!; [by apply Hb|done..|lia]. Qed.

Lemma call_ok_mono hs hs' log more bs bs' id c :
  (hs !! id = Some (cLatch c) -> cPhase c <> Released -> hs' !! id = Some (cLatch c)) -> bs ⊆ bs' ->
  call_ok hs log bs id c -> call_ok hs' (log ++ more) bs' id c.
Proof.
  intros Hh Hb [H1 H2 H3]. split; [by eauto|done|]. unfold phase_ok in *.
  assert (Hlen : (length log <= length (log ++ more))%nat) by (rewrite length_app; lia).
  destruct (cJob c), (cPhase c); try done; try (by eapply closes_mono).
  destruct H3 as (cmd & Hc & Hg). exists cmd. split; [by apply lookup_app_l_Some|done].
Qed.

Lemma call_ok_held hs hs' log bs id c :
  (hs !! id = Some (cLatch c) -> cPhase c <> Released -> hs' !! id = Some (cLatch c)) ->
  call_ok hs log bs id c -> call_ok hs' log bs id c.
Proof. intros Hh Hc. rewrite <- (app_nil_r log). by eapply call_ok_mono. Qed.

Lemma inv_take st id j spans mode st' :
  inv st -> phase_ok (ld_log st) (ld_bumps st) (mkCall j (new_latch id spans mode) Latched) ->
  take_latch st id j spans mode = Some st' -> inv st'.
Proof.
  intros I Hp Ht. unfold take_latch in Ht. destruct (ld_calls st !! id) eqn:E1; [done|].
  destruct (ls_held (ld_latches st) !! id) eqn:E2; [done|]. set (l := new_latch id spans mode) in *.
  destruct (ls_try (ld_latches st) l) as [m|] eqn:Et; [|done]. injection Ht as <-.
  destruct (ls_try_held _ l m (v_latch _ I) E2 eq_refl Et) as [Hi Hh]. destruct I as [? ? I3 ? I5 ? ? ?].
  split; cbn [with_calls ld_latches ld_cache ld_calls ld_log ld_bumps]; try done.
  - intros id' c'. rewrite Hh. rewrite lookup_insert_Some. intros [[<- <-]|[Hne Hc]].
    + split; [|done..]. intros _. change (lid l) with id. by rewrite lookup_insert, decide_True.
    + eapply call_ok_held; [|by apply I3]. intros Hl _. by rewrite lookup_insert_ne.
  - intros b id' c' ba Hb. rewrite lookup_insert_Some. intros [[<- <-]|[Hne Hc]]; [done|]. by eapply I5.
Qed.

Lemma inv_return st id c :
  inv st -> ld_calls st !! id = Some c -> cPhase c <> Released -> inv (return_call st id c).
Proof.
  intros I Hc Hp. destruct (v_calls _ I id c Hc) as [Hh Hid _]. specialize (Hh Hp). rewrite <- Hid in Hh.
  destruct (ls_release_held _ _ (v_latch _ I) Hh) as [Hi Hd]. destruct I as [? ? I3 ? I5 ? ? ?].
  split; cbn [return_call with_calls ld_latches ld_cache ld_calls ld_log ld_bumps]; try done.
  - intros id' c'. rewrite lookup_delete_Some. intros [Hne Hc']. rewrite Hd, Hid.
    eapply call_ok_held; [|by apply I3]. intros Hl _. by rewrite lookup_delete_ne.
  - intros b id' c' ba Hb. rewrite lookup_delete_Some. intros [_ Hc']. by eapply I5.
Qed.

Lemma inv_answer st id res : inv st -> inv (answer st id res).
Proof. intros []. by split. Qed.

Lemma inv_phase st id c p :
  inv st -> ld_calls st !! id = Some c -> cPhase c <> Released -> phase_ok (ld_log st) (ld_bumps st) (mkCall (cJob c) (cLatch c) p) ->
  (forall ba b, p = Checked ba -> b ∈ ld_bumps st -> above ba b) -> inv (set_phase st id c p).
Proof.
  intros I Hc Hr Hp Hab. destruct (v_calls _ I id c Hc) as [Hh Hid _]. destruct I as [? ? I3 ? I5 ? ? ?].
  split; cbn [set_phase with_calls ld_latches ld_cache ld_calls ld_log ld_bumps]; try done.
  - intros id' c'. rewrite lookup_insert_Some. intros [[<- <-]|[Hne Hc']]; [|by apply I3]. split; [|done..].
    intros _. by apply Hh.
  - intros b id' c' ba Hb. rewrite lookup_insert_Some. intros [[<- <-]|[Hne Hc']]; [|by eapply I5]. cbn. intros Hq. by apply Hab.
Qed.

Lemma inv_bump st id c ts uid :
  inv st -> ld_calls st !! id = Some c -> cPhase c = Latched -> ts_small ts ->
  inv (bump_cache st (lspans (cLatch c)) ts uid).
Proof.
  intros I Hc Hp Hts. destruct (v_calls _ I id c Hc) as [Hh Hid _]. rewrite Hp in Hh. specialize (Hh ltac:(done)).
  set (b0 := mkBump (lspans (cLatch c)) ts uid (length (ld_log st)) (ld_applied st)).
  assert (Hsub : ld_bumps st ⊆ b0 :: ld_bumps st) by (intros x; apply list_elem_of_further).
  split; cbn [bump_cache ld_latches ld_cache ld_calls ld_log ld_bumps]; fold b0.
  - apply I.
  - apply cs_bump_ok; [done|apply I].
  - intros id' c' Hc'. rewrite <- (app_nil_r (ld_log st)). eapply call_ok_mono; [done|exact Hsub|by apply I].
  - intros b k. rewrite elem_of_cons. intros [->|Hb] Hk; [|apply cs_bump_keeps; by apply I].
    destruct Hk as (sp & Hsp & Hk). by eapply cs_bump_notes.
  - intros b id' c' ba. rewrite elem_of_cons. intros [->|Hb] Hc' Hq; [|by eapply (v_checked _ I)].
    intros k Hw Hk. exfalso. destruct (v_calls _ I id' c' Hc') as [Hh' Hid' Hok']. rewrite Hq in Hh'. specialize (Hh' ltac:(done)).
    assert (Hg : guards (cLatch c') ba) by (unfold phase_ok in Hok'; rewrite Hq in Hok'; by destruct (cJob c')).
    eapply (ls_exclusive _ id id' _ _ (v_latch _ I) Hh Hh'); [|by eapply (guards_clash _ _ ba b0)].
    intros <-. rewrite Hc in Hc'. injection Hc' as <-. by rewrite Hp in Hq.
  - intros b. rewrite elem_of_cons. intros [->|Hb]; [done|by apply I].
  - intros b j cmd. rewrite elem_of_cons. intros [->|Hb] Hj Hl; [|by eapply (v_log _ I)].
    apply lookup_lt_Some in Hl. cbn in Hj. lia.
  - intros i cmd Hl Hn. eapply closes_mono; [exact Hsub|done|by eapply I].
Qed.

Lemma inv_append st cmd :
  inv st -> (forall b, b ∈ ld_bumps st -> above (cmBatch cmd) b) ->
  (cmClosedTS cmd <> ts0 -> closes (ld_bumps st) (cmClosedTS cmd) (length (ld_log st))) -> inv (append_log st cmd).
Proof.
  intros I Hab Hcl. split; cbn [append_log ld_latches ld_cache ld_calls ld_log ld_bumps]; try apply I.
  - intros id' c' Hc'. eapply call_ok_mono; [done|done|by apply I].
  - intros b Hb. rewrite length_app. pose proof (v_past _ I b Hb). lia.
  - intros b j cmd' Hb Hj. rewrite lookup_snoc_Some. intros [[_ Hl]|[_ <-]]; [by eapply (v_log _ I)|by apply Hab].
  - intros i cmd'. rewrite lookup_snoc_Some. intros [[_ Hl]|[-> <-]]; [by eapply (v_closed _ I)|done].
Qed.

Lemma inv_released st id T l :
  inv st -> ld_calls st !! id = Some (mkCall (JClose T) l Bumped) ->
  inv (set_phase (with_calls st (ls_release (ld_latches st) l) (ld_calls st)) id (mkCall (JClose T) l Bumped) Released).
Proof.
  intros I Hc. destruct (v_calls _ I _ _ Hc) as [Hh Hid Hp]. cbn [cPhase cLatch] in *. specialize (Hh ltac:(done)). rewrite <- Hid in Hh.
  destruct (ls_release_held _ _ (v_latch _ I) Hh) as [Hi Hd]. destruct I as [? ? I3 ? I5 ? ? ?].
  split; cbn [set_phase with_calls ld_latches ld_cache ld_calls ld_log ld_bumps]; try done.
  - intros id' c'. rewrite lookup_insert_Some. intros [[<- <-]|[Hne Hc']]; [split; [done|done|exact Hp]|].
    eapply call_ok_held; [|by apply I3]. intros Hl _. rewrite Hd, Hid. by rewrite lookup_delete_ne.
  - intros b id' c' ba Hb. rewrite lookup_insert_Some. intros [[<- <-]|[Hne Hc']]; [done|by eapply I5].
Qed.

Lemma inv_drop st id c : inv st -> ld_calls st !! id = Some c -> inv (with_calls st (ld_latches st) (delete id (ld_calls st))).
Proof.
  intros I Hc. destruct I as [? ? I3 ? I5 ? ? ?].
  split; cbn [with_calls ld_latches ld_cache ld_calls ld_log ld_bumps]; try done.
  - intros id' c'. rewrite lookup_delete_Some. intros [_ Hc']. by apply I3.
  - intros b id' c' ba Hb. rewrite lookup_delete_Some. intros [_ Hc']. by eapply I5.
Qed.

(** The timestamps of a schedule have successors (clock readings do). *)
Definition event_ok (e : event) : Prop :=
  match e with EStart _ ba => ts_small (readTimestamp ba) | EClose _ T => ts_small T | _ => True end.

Lemma inv_gate st id ba l over :
  inv st -> ld_calls st !! id = Some (mkCall (JExec ba) l Latched) -> forall st',
  step 0 true (EGate id over) st = Some st' -> inv st'.
Proof.
  intros I Hc st'. cbn [step]. rewrite Hc. destruct (v_calls _ I _ _ Hc) as [_ _ [Hls Hsm]]. cbn [cLatch] in Hls, Hsm.
  destruct (gate _ over (ld_cache st) ba) as [e| |ba'] eqn:Eg; intros [= <-].
  - by apply inv_answer, (inv_return st id _ I Hc).
  - apply (inv_phase (bump_cache st (lspans l) (readTimestamp ba) (batchTxnID ba)) id (mkCall (JExec ba) l Latched)); [|done..].
    by apply (inv_bump st id (mkCall (JExec ba) l Latched)).
  - apply gate_write in Eg as [Hr Ha]. apply (inv_phase st id (mkCall (JExec ba) l Latched)); [done..| |].
    + eapply latchSpans_guards; [done..|]. by eapply admit_write_requests.
    + intros ba2 b [= <-] Hb k Hw Hk. eapply admit_write_above; [apply I|done|by apply I|done].
Qed.

Lemma inv_step maxOffset pb e st st' : event_ok e -> inv st -> step maxOffset pb e st = Some st' -> inv st'.
Proof.
  intros He I Hs. destruct e as [id ba|id over|id ok|id|env|id|id|id T|id|id|cmd]; cbn [step] in Hs.
  - destruct (checkKeyBounds _ ba); [done|]. destruct (latchSpans ba) as [[spans mode]|] eqn:El; [|done].
    eapply inv_take; [exact I| |exact Hs]. done.
  - destruct (ld_calls st !! id) as [[[ba|T] l []]|] eqn:Hc; try done. eapply (inv_gate st id ba l over I Hc).
    cbn [step]. by rewrite Hc.
  - destruct (ld_calls st !! id) as [[[ba|T] l []]|] eqn:Hc; try done. injection Hs as <-.
    by apply inv_answer, (inv_return st id _ I Hc).
  - destruct (ld_calls st !! id) as [[j l []]|] eqn:Hc; [by destruct j..|destruct j as [ba0|T]|by destruct j|destruct j as [ba0|T]|done].
    + injection Hs as <-. destruct (v_calls _ I _ _ Hc) as [_ _ Hg]. set (c := mkCall (JExec ba0) l (Checked ba)) in *.
      set (cmd := mkCommand ba None None ts0).
      change (inv (set_phase (append_log st cmd) id c (Proposed (length (ld_log st))))).
      apply inv_phase; [|done..| |done].
      * apply inv_append; [done| |done]. intros b Hb. by eapply (v_checked _ I).
      * exists cmd. split; [|exact Hg]. cbn [append_log ld_log]. rewrite lookup_app_r by done. by rewrite Nat.sub_diag.
    + by destruct (v_calls _ I _ _ Hc) as [_ _ []].
    + done.
    + injection Hs as <-. destruct (v_calls _ I _ _ Hc) as [_ _ Hcl]. apply inv_append; [by eapply inv_drop| |intros _; exact Hcl].
      intros b Hb k Hw. by apply write_spans_none in Hw.
  - destruct (ld_log st !! ld_applied st) as [cmd|]; [|done]. destruct (applyCommand _ _ _ _ _) as [r []]; [|done].
    injection Hs as <-. destruct I. by split.
  - destruct (ld_calls st !! id) as [[j l []]|] eqn:Hc; try done; try (by destruct j). assert (step 0 true (EAbandon id) st = Some st') as Ha.
    { cbn [step]. rewrite Hc. by destruct j, (_ <? _)%nat. }
    cbn [step] in Ha. rewrite Hc in Ha. destruct j; injection Ha as <-; by apply (inv_return st id _ I Hc).
  - destruct (ld_calls st !! id) as [[j l []]|] eqn:Hc; try done; try (by destruct j). destruct j; injection Hs as <-; by apply (inv_return st id _ I Hc).
  - eapply inv_take; [exact I| |exact Hs]. done.
  - destruct (ld_calls st !! id) as [[[ba|T] l []]|] eqn:Hc; try done. injection Hs as <-.
    destruct (v_calls _ I _ _ Hc) as [_ _ [Hsp Hsm]]. cbn [cLatch] in Hsp.
    apply (inv_phase (bump_cache st [wholeRangeSpan] T uuid_Nil) id (mkCall (JClose T) l Latched)); [|done..| |done].
    + rewrite <- Hsp. by apply (inv_bump st id (mkCall (JClose T) l Latched)).
    + eexists. split; [apply list_elem_of_here|]. done.
  - destruct (ld_calls st !! id) as [[[ba|T] l []]|] eqn:Hc; try done. injection Hs as <-. by apply inv_released.
  - destruct (HasMVCCWrites (cmBatch cmd)) eqn:Em; [done|]. destruct (IsEmpty (cmClosedTS cmd)) eqn:Ec; [|done]. injection Hs as <-.
    apply IsEmpty_eq in Ec. apply inv_append; [done| |done]. intros b Hb k Hw. by apply write_spans_none in Hw.
Qed.

Lemma inv_run maxOffset pb es : forall st st', Forall event_ok es -> inv st -> run maxOffset pb es st = Some st' -> inv st'.
Proof.
  induction es as [|e es IH]; intros st st' He I Hr; [by injection Hr as <-|]. apply Forall_cons in He as [He Hes]. cbn [run] in Hr.
  destruct (step maxOffset pb e st) as [st1|] eqn:Es; [|done]. eapply IH; [done| |done]. by eapply inv_step.
Qed.

(** ** Without abandoned proposals *)

Record winv (st : leader) : Prop := {
  w_pending j cmd k :
    (ld_applied st <= j)%nat -> ld_log st !! j = Some cmd -> writes (cmBatch cmd) k ->
    exists id c, ld_calls st !! id = Some c /\ cPhase c = Proposed j;
  w_log b j cmd : b ∈ ld_bumps st -> (bmApplied b <= j)%nat -> ld_log st !! j = Some cmd -> above (cmBatch cmd) b }.

Lemma winv_calls (st st' : leader) :
  ld_log st' = ld_log st -> ld_applied st' = ld_applied st -> ld_bumps st' = ld_bumps st ->
  (forall id c j, ld_calls st !! id = Some c -> cPhase c = Proposed j -> (ld_applied st <= j)%nat -> ld_calls st' !! id = Some c) ->
  winv st -> winv st'.
Proof.
  intros El Ea Eb Hk [W1 W2]. split; rewrite ?El, ?Ea, ?Eb; [|done]. intros j cmd k Hj Hl Hw.
  destruct (W1 j cmd k Hj Hl Hw) as (id & c & Hc & Hp). exists id, c. split; [by eapply Hk|done].
Qed.

Lemma winv_take st id j spans mode st' : take_latch st id j spans mode = Some st' -> winv st -> winv st'.
Proof.
  unfold take_latch. destruct (ld_calls st !! id) eqn:E1; [done|]. destruct (ls_held _ !! id); [done|].
  destruct (ls_try _ _) as [m|]; [|done]. intros [= <-]. apply winv_calls; [done..|]. intros id' c' n Hc _ _. cbn.
  rewrite lookup_insert_ne; [done|congruence].
Qed.

Lemma winv_return st id c :
  ld_calls st !! id = Some c -> (forall n, cPhase c = Proposed n -> (n < ld_applied st)%nat) -> winv st -> winv (return_call st id c).
Proof.
  intros Hc Hn. apply winv_calls; [done..|]. intros id' c' n Hc' Hp Hle. cbn. rewrite lookup_delete_ne; [done|].
  intros <-. rewrite Hc in Hc'. injection Hc' as <-. specialize (Hn n Hp). lia.
Qed.

Lemma winv_phase st id c p :
  ld_calls st !! id = Some c -> (forall n, cPhase c <> Proposed n) -> winv st -> winv (set_phase st id c p).
Proof.
  intros Hc Hn. apply winv_calls; [done..|]. intros id' c' n Hc' Hp Hle. cbn. rewrite lookup_insert_ne; [done|].
  intros <-. rewrite Hc in Hc'. injection Hc' as <-. by destruct (Hn n).
Qed.

Lemma winv_bump st id c ts uid :
  inv st -> winv st -> ld_calls st !! id = Some c -> cPhase c = Latched -> winv (bump_cache st (lspans (cLatch c)) ts uid).
Proof.
  intros I [W1 W2] Hc Hp. destruct (v_calls _ I id c Hc) as [Hh Hid _]. rewrite Hp in Hh. specialize (Hh ltac:(done)).
  split; cbn [bump_cache ld_log ld_applied ld_calls ld_bumps]; [done|]. intros b j cmd. rewrite elem_of_cons.
  intros [->|Hb] Hj Hl; [|by eapply W2]. intros k Hw Hk. exfalso. cbn [bmApplied] in Hj.
  destruct (W1 j cmd k Hj Hl Hw) as (id' & c' & Hc' & Hp'). destruct (v_calls _ I id' c' Hc') as [Hh' _ Hok'].
  rewrite Hp' in Hh'. specialize (Hh' ltac:(done)). unfold phase_ok in Hok'. rewrite Hp' in Hok'.
  destruct (cJob c'); [|done]. destruct Hok' as (cmd' & Hl' & Hg). rewrite Hl in Hl'. injection Hl' as <-.
  eapply (ls_exclusive _ id id' _ _ (v_latch _ I) Hh Hh').
  - intros <-. rewrite Hc in Hc'. injection Hc' as <-. congruence.
  - eapply guards_clash; [done|done| |exact Hk]. done.
Qed.

Lemma winv_append st cmd :
  winv st -> (forall b, b ∈ ld_bumps st -> above (cmBatch cmd) b) ->
  (forall k, writes (cmBatch cmd) k -> exists id c, ld_calls st !! id = Some c /\ cPhase c = Proposed (length (ld_log st))) ->
  winv (append_log st cmd).
Proof.
  intros [W1 W2] Hab Hpr. split; cbn [append_log ld_log ld_applied ld_calls ld_bumps].
  - intros j cmd' k Hj. rewrite lookup_snoc_Some. intros [[_ Hl]|[-> <-]] Hw; [by eapply W1|by eapply Hpr].
  - intros b j cmd' Hb Hj. rewrite lookup_snoc_Some. intros [[_ Hl]|[_ <-]]; [by eapply W2|by apply Hab].
Qed.

Definition not_abandon (e : event) : Prop := match e with EAbandon _ => False | _ => True end.

Lemma winv_answer st id res : winv st -> winv (answer st id res).
Proof. intros []. by split. Qed.

Lemma winv_step maxOffset pb e st st' :
  event_ok e -> not_abandon e -> inv st -> winv st -> step maxOffset pb e st = Some st' -> winv st'.
Proof.
  intros He Hna I V Hs. destruct e as [id ba|id over|id ok|id|env|id|id|id T|id|id|cmd]; cbn [step] in Hs; [| | | | | |done|..].
  - destruct (checkKeyBounds _ ba); [done|]. destruct (latchSpans ba) as [[spans mode]|]; [|done]. by eapply winv_take.
  - destruct (ld_calls st !! id) as [[[ba|T] l []]|] eqn:Hc; try done.
    destruct (gate _ over _ ba) as [e| |ba']; injection Hs as <-.
    + by apply winv_answer, winv_return.
    + apply winv_phase; [done..|]. by apply (winv_bump st id (mkCall (JExec ba) l Latched)).
    + by apply winv_phase.
  - destruct (ld_calls st !! id) as [[[ba|T] l []]|] eqn:Hc; try done. injection Hs as <-. by apply winv_answer, winv_return.
  - destruct (ld_calls st !! id) as [[j l []]|] eqn:Hc; [by destruct j..|destruct j as [ba0|T]|by destruct j|destruct j as [ba0|T]|done].
    + injection Hs as <-. apply winv_append; [by apply winv_phase| |].
      * intros b Hb. by eapply (v_checked _ I).
      * intros k _. exists id, (mkCall (JExec ba0) l (Proposed (length (ld_log st)))). split; [|done]. cbn.
        by rewrite lookup_insert, decide_True.
    + by destruct (v_calls _ I _ _ Hc) as [_ _ []].
    + done.
    + injection Hs as <-. apply winv_append; [|intros b Hb k Hw; by apply write_spans_none in Hw|intros k Hw; by apply write_spans_none in Hw].
      revert V. apply winv_calls; [done..|]. intros id' c' n Hc' Hp _. cbn. rewrite lookup_delete_ne; [done|].
      intros <-. rewrite Hc in Hc'. injection Hc' as <-. done.
  - destruct (ld_log st !! ld_applied st) as [cmd|]; [|done]. destruct (applyCommand _ _ _ _ _) as [r []]; [|done].
    injection Hs as <-. destruct V as [W1 W2]. split; [|done]. intros j cmd' k Hj. apply W1. cbn in Hj. lia.
  - destruct (ld_calls st !! id) as [[j l []]|] eqn:Hc; try done; try (by destruct j).
    assert (return_call st id (mkCall j l (Proposed n)) = st' /\ (n < ld_applied st)%nat) as [<- Hn].
    { destruct (Nat.ltb_spec n (ld_applied st)); destruct j; try done; injection Hs as <-; done. }
    apply winv_return; [done| |done]. cbn. intros n' [= <-]. done.
  - by eapply winv_take.
  - destruct (ld_calls st !! id) as [[[ba|T] l []]|] eqn:Hc; try done. injection Hs as <-.
    destruct (v_calls _ I _ _ Hc) as [_ _ [Hsp _]]. cbn [cLatch] in Hsp. apply winv_phase; [done..|]. rewrite <- Hsp.
    by apply (winv_bump st id (mkCall (JClose T) l Latched)).
  - destruct (ld_calls st !! id) as [[[ba|T] l []]|] eqn:Hc; try done. injection Hs as <-.
    revert V. apply winv_calls; [done..|]. intros id' c' n Hc' Hp _. cbn. rewrite lookup_insert_ne; [done|].
    intros <-. rewrite Hc in Hc'. injection Hc' as <-. done.
  - destruct (HasMVCCWrites (cmBatch cmd)) eqn:Em; [done|]. destruct (IsEmpty _); [|done]. injection Hs as <-.
    apply winv_append; [done|intros b Hb k Hw; by apply write_spans_none in Hw|intros k Hw; by apply write_spans_none in Hw].
Qed.

Lemma winv_run maxOffset pb es : forall st st',
  Forall event_ok es -> Forall not_abandon es -> inv st -> winv st -> run maxOffset pb es st = Some st' -> winv st'.
Proof.
  induction es as [|e es IH]; intros st st' He Hn I V Hr; [by injection Hr as <-|]. apply Forall_cons in He as [He Hes].
  apply Forall_cons in Hn as [Hn Hns]. cbn [run] in Hr. destruct (step maxOffset pb e st) as [st1|] eqn:Es; [|done].
  eapply IH; [done|done| | |done]; [by eapply inv_step|by eapply winv_step].
Qed.
End Leader.

(** ** The latch manager and the timestamp cache behind the interfaces *)

Section Instances.
Context `{MR : MapRange}.

#[export] Instance latch_service : LatchService latchManager := {|
  ls_held := held;
  ls_try m l := match try_acquire m l with inl m' => Some m' | inr _ => None end;
  ls_release := remove |}.

#[export, refine] Instance latch_laws : LatchLaws latchManager := {| ls_inv := reachable |}.
Proof.
  - intros m i j l h Hr Hl Hh Hne. destruct (reachable_inv m Hr) as [Hix Hex].
    destruct (io_held _ Hix _ _ Hl) as [<- _], (io_held _ Hix _ _ Hh) as [<- _]. by apply Hex.
  - intros m l m' Hr Hf Hl. cbn. destruct (try_acquire m l) as [m1|] eqn:E; [|done]. intros [= <-].
    split; [|by apply try_acquire_inl in E as [_ ->]]. eapply rtc_r; [exact Hr|].
    apply (step_acquire m m1 (lid l) (lspans l) (lmode l)); [done|]. unfold new_latch. rewrite <- Hl. by destruct l.
  - intros m l Hr Hl. split; [|done]. eapply rtc_r; [exact Hr|]. by apply step_release.
Defined.

#[export] Instance cache_service : CacheService tsCache := {| cs_bump := Bump; cs_allows := AllowsWrite |}.

Definition gen_small (g : tsCacheGen) : Prop :=
  (forall k r, gPoints g !! k = Some r -> ts_small (rdTS r)) /\ (forall e, e ∈ gRanged g -> ts_small (enTS e)).
Definition cache_small (c : tsCache) : Prop := ts_small (tcFloor c) /\ gen_small (tcCur c) /\ gen_small (tcPrev c).

Lemma bump_span_small ts id c sp : ts_small ts -> cache_small c -> cache_small (bump_span ts id c sp).
Proof.
  intros Hts (Hf & [Hp Hr] & Hv). unfold bump_span. destruct (sEnd sp); [destruct (whole_range sp)|]; (split; [done|]; split; [|done]).
  - by split.
  - split; [done|]. cbn. intros e. rewrite elem_of_app, list_elem_of_singleton. intros [?| ->]; [by apply Hr|done].
  - unfold gen_small, gen_record. cbn [tcCur]. repeat case_match; cbn [gPoints gRanged]; (split; [|done]); try done;
      intros k' r'; rewrite lookup_insert_Some; intros [[_ <-]|[_ ?]]; first [exact Hts|by eapply Hp].
Qed.

Lemma Bump_small spans ts id c : ts_small ts -> cache_small c -> cache_small (Bump spans ts id c).
Proof.
  intros Hts Hc. unfold Bump. destruct (Less _ _); [|done]. cbn [negb].
  assert (Hf : cache_small (fold_left (bump_span ts id) spans c)).
  { revert c Hc. induction spans as [|sp spans IH]; intros c Hc; [done|]. apply IH. by apply bump_span_small. }
  destruct (_ <=? _)%nat; [|done]. destruct Hf as (Hfl & Hcur & [Hp Hr]). split; [|by split; [split; [done|]|];
    [intros e He; by apply not_elem_of_nil in He|]]. cbn [rotate tcFloor]. unfold collapse.
  destruct (fold_raise_attained enTS (gRanged (tcPrev (fold_left (bump_span ts id) spans c)))
    (fold_left (fun f kr => raise f (rdTS kr.2)) (range_map (gPoints (tcPrev (fold_left (bump_span ts id) spans c))))
      (tcFloor (fold_left (bump_span ts id) spans c)))) as [->|(e & He & ->)]; [|by apply Hr].
  destruct (fold_raise_attained (fun kr : list Z * tsCacheRead => rdTS kr.2)
    (range_map (gPoints (tcPrev (fold_left (bump_span ts id) spans c)))) (tcFloor (fold_left (bump_span ts id) spans c)))
    as [->|([k r] & Hk & ->)]; [done|]. apply elem_of_range_map in Hk. by eapply Hp.
Qed.

Lemma gen_reads_small g spans r : gen_small g -> r ∈ gen_reads g spans -> ts_small r.1.
Proof.
  intros [Hp Hr]. unfold gen_reads. rewrite elem_of_app. intros [Hin|Hin].
  - apply list_elem_of_fmap in Hin as (e & -> & He). apply list_elem_of_filter in He as [_ He]. by apply Hr.
  - apply list_elem_of_In, in_flat_map in Hin as (w & _ & Hin). destruct (sEnd w).
    + apply in_map_iff in Hin as ([k x] & <- & Hin). apply list_elem_of_In, list_elem_of_filter in Hin as [_ Hin].
      apply elem_of_range_map in Hin. by eapply Hp.
    + destruct (gPoints g !! sStart w) eqn:E; [|done]. destruct Hin as [<-|[]]. by eapply Hp.
Qed.

Lemma low_above_notes c spans w k ts id q :
  notes c k q -> w ∈ spans -> covers w k -> q.1 <=t (AllowsWrite c spans ts id).2.
Proof.
  intros Hn Hw Hk. destruct (AllowsWrite_spec c spans ts id) as [_ ->]. destruct (fold_raise fst (met c spans) (tcFloor c)) as [Hf Hr].
  destruct Hn as [Hn|Hn]; [ts_lia|].
  assert (exists r, r ∈ met c spans /\ answers r q) as (r & Hin & Ha).
  { unfold met. destruct Hn as [Hn|Hn]; destruct (gen_reads_meets _ _ _ _ _ Hn Hw Hk) as (r & Hr' & Har); exists r; (split; [|done]);
      apply elem_of_app; [by right|by left]. }
  specialize (Hr r Hin). destruct Ha as [Ha|[Ha _]]; ts_lia.
Qed.

#[export, refine] Instance cache_laws : CacheLaws tsCache := {| cs_notes := notes; cs_ok := cache_small |}.
Proof.
  - intros. by apply Bump_small.
  - intros. by apply Bump_keeps.
  - intros. by eapply Bump_notes.
  - intros. by eapply AllowsWrite_notes.
  - intros. by eapply low_above_notes.
  - intros c spans ts id (Hf & Hcur & Hprev). cbn. destruct (AllowsWrite_spec c spans ts id) as [_ ->].
    destruct (fold_raise_attained fst (met c spans) (tcFloor c)) as [->|(r & Hr & ->)]; [done|].
    apply elem_of_app in Hr as [Hr|Hr]; [exact (gen_reads_small _ _ _ Hprev Hr)|exact (gen_reads_small _ _ _ Hcur Hr)].
Defined.
End Instances.

(** ** Guarantees *)

Section Guarantees.
Context {P : Pebble} {MC : MetaCodec} {TC : TxnCodec} {SC : StateCodec} `{MR : MapRange}.

(** A leader that starts serving with the cache [c]. *)
Definition leader0 (c : tsCache) (r : replica) : leader := mkLeader newLatchManager c ∅ [] 0 r [] [].

Lemma leader0_inv c r : cache_small c -> inv (leader0 c r) /\ winv (leader0 c r).
Proof.
  intros Hc. split; split; cbn [leader0 ld_latches ld_cache ld_calls ld_log ld_bumps ld_applied]; try done.
  all: try apply rtc_refl. all: by intros; set_solver.
Qed.

(** C2: Served reads stay valid.  Over every interleaving of batches,
    closed-timestamp publications and log application in which no caller
    gives up on a proposal in flight: once a read has raised the timestamp
    cache, every write entry not yet applied, and every write proposed later,
    that shares a key with the read is strictly above it, or at its
    timestamp and of the reader's own transaction.  So either the read sees
    a write's effect or the write is ordered after it (invariants L1 and L2). *)
Theorem served_reads_protected maxOffset pb es c r st b j cmd k :
  cache_small c -> Forall event_ok es -> Forall not_abandon es -> run maxOffset pb es (leader0 c r) = Some st ->
  b ∈ ld_bumps st -> (bmApplied b <= j)%nat -> ld_log st !! j = Some cmd -> writes (cmBatch cmd) k -> reads_key b k ->
  bmTS b <t writeTimestamp (cmBatch cmd) \/
  (bmTS b = writeTimestamp (cmBatch cmd) /\ bmID b = batchTxnID (cmBatch cmd) /\ batchTxnID (cmBatch cmd) <> uuid_Nil).
Proof.
  intros Hc He Hn Hr Hb Hj Hl Hw Hk. destruct (leader0_inv c r Hc) as [I W].
  exact (w_log _ (winv_run _ _ es _ _ He Hn I W Hr) b j cmd Hb Hj Hl k Hw Hk).
Qed.

(** C15: A closed timestamp is never undercut.  Over every interleaving, with
    callers giving up on their proposals at any point: a write entry that
    follows a closed-timestamp entry in the log writes strictly above the
    promise, so a replica that has applied the promise serves reads at or
    below it from an unchanging history. *)
Theorem closed_timestamp_honored maxOffset pb es c r st i j ci cj k :
  cache_small c -> Forall event_ok es -> run maxOffset pb es (leader0 c r) = Some st ->
  ld_log st !! i = Some ci -> ld_log st !! j = Some cj -> (i < j)%nat -> cmClosedTS ci <> ts0 ->
  writes (cmBatch cj) k -> covers wholeRangeSpan k ->
  cmClosedTS ci <t writeTimestamp (cmBatch cj).
Proof.
  intros Hc He Hr Hi Hj Hij Hn Hw Hk. destruct (leader0_inv c r Hc) as [I _].
  pose proof (inv_run _ _ es _ _ He I Hr) as I'. destruct (v_closed _ I' i ci Hi Hn) as (b & Hb & Hsp & <- & Hid & Hlog).
  assert (Hrk : reads_key b k) by (exists wholeRangeSpan; rewrite Hsp; split; [apply list_elem_of_here|done]).
  destruct (v_log _ I' b j cj Hb ltac:(lia) Hj k Hw Hrk) as [Ha|(_ & Ha & Hne)]; [done|]. cbn in *. congruence.
Qed.
End Guarantees.

(** ** Witnesses *)

#[local] Existing Instance range_to_list.

Definition ex_get_batch (k : bytes) (ts : Z) : BatchRequest :=
  Add (mkBatchRequest (mkBatchHeader (mkTs ts 0) None 1 false false false) []) (RGet (mkGet (mkHeader k []) false)).

(** A write at 5; a read of the key at 10; a promise to close at 12; a write
    at 20. *)
Definition ex_schedule : list event :=
  [EStart 1 (ex_put_batch [4; 1] [7] 5); EGate 1 false; EPropose 1; EApply ex_env; EFinish 1;
   EStart 2 (ex_get_batch [4; 1] 10); EGate 2 false; EClose 3 (mkTs 12 0); EServe 2 true; EBump 3; ERelease 3; EPropose 3;
   EStart 4 (ex_put_batch [4; 1] [8] 20); EGate 4 false; EApply ex_env; EPropose 4; EApply ex_env; EFinish 4].

Definition ex_end : leader := default (leader0 tsCache0 ex_replica) (run 0 true ex_schedule (leader0 tsCache0 ex_replica)).

Lemma ex_schedule_runs : run 0 true ex_schedule (leader0 tsCache0 ex_replica) = Some ex_end.
Proof. vm_compute. reflexivity. Qed.

Lemma ex_schedule_ok : Forall event_ok ex_schedule /\ cache_small tsCache0.
Proof.
  split; [repeat constructor; cbn; unfold maxInt64, maxInt32; first [lia|discriminate]|].
  split_and!; [split; [apply ts0_ok|discriminate]|split..]; cbn; set_solver.
Qed.

Definition ex_bump : bump := mkBump [mkSpan [4; 1] None] (mkTs 10 0) uuid_Nil 1 1.

Lemma served_reads_protected_witness : mkTs 10 0 <t mkTs 20 0.
Proof.
  destruct ex_schedule_ok as [He Hc].
  destruct (served_reads_protected 0 true ex_schedule tsCache0 ex_replica ex_end ex_bump 2
    (mkCommand (ex_put_batch [4; 1] [8] 20) None None ts0) [4; 1]) as [H|[H _]].
  - exact Hc.
  - exact He.
  - repeat constructor.
  - exact ex_schedule_runs.
  - vm_compute. apply list_elem_of_further, list_elem_of_here.
  - cbn. lia.
  - vm_compute. reflexivity.
  - exists (mkSpan [4; 1] None). split; [apply list_elem_of_here|reflexivity].
  - exists (mkSpan [4; 1] None). split; [apply list_elem_of_here|reflexivity].
  - exact H.
  - discriminate.
Defined.

Lemma closed_timestamp_honored_witness : mkTs 12 0 <t mkTs 20 0.
Proof.
  destruct ex_schedule_ok as [He Hc].
  apply (closed_timestamp_honored 0 true ex_schedule tsCache0 ex_replica ex_end 1 2
    (closed_command 1 (mkTs 12 0)) (mkCommand (ex_put_batch [4; 1] [8] 20) None None ts0) [4; 1]).
  - exact Hc.
  - exact He.
  - exact ex_schedule_runs.
  - vm_compute. reflexivity.
  - vm_compute. reflexivity.
  - lia.
  - discriminate.
  - exists (mkSpan [4; 1] None). split; [apply list_elem_of_here|reflexivity].
  - split; vm_compute; [discriminate|reflexivity].
Defined.

(** A caller that gives up releases its latch with its write still in the
    log: the read at 10 that follows passes the gates, sees nothing and
    raises the cache too late; then the write applies at 5, beneath it. *)
Definition ex_abandoned : list event :=
  [EStart 1 (ex_put_batch [4; 1] [7] 5); EGate 1 false; EPropose 1; EAbandon 1;
   EStart 2 (ex_get_batch [4; 1] 10); EGate 2 false; EServe 2 true; EApply ex_env].

