(* ===== verification/RaftStorage.v ===== *)
(** * The raft log on the engine (pkg/kvserver/raft_storage.go, state.go,
      raftengine.go)

    [raftStorage] keeps a replica's log entries, hard state and truncation
    point as unreplicated keys and implements raft.Storage over them.  The
    record below is the struct's memory; the engine it writes is passed
    along.  On a split store the raft keys have an engine of their own, and
    the deletion of applied entries waits until the state engine has flushed
    past them.

    The marshalling of raftpb messages is a parameter ([EntryCodec]); uint64
    arithmetic is written out.  Commits of batches are the engine's; a batch
    that is not committed is the store it started from. *)

From S2P Require Import Prelude Encoding Hlc Keys MvccKey Pebble Enginepb Mvcc MvccWrite MvccScan Kvpb TxnRecord Gc Strconv Apply.

#[local] Abbreviation length := Datatypes.length.
#[local] Open Scope list_scope.
Open Scope Z_scope.

(** ** raftpb *)

Record rentry := mkEnt { enIndex : Z; enTerm : Z; enType : Z; enData : bytes }.
Record hardState := mkHS { hsTerm : Z; hsVote : Z; hsCommit : Z }.
Definition hardState0 : hardState := mkHS 0 0 0.

Class EntryCodec := {
  ent_marshal : rentry -> bytes;
  ent_unmarshal : bytes -> option rentry;
  ent_size : rentry -> Z;
  hs_marshal : hardState -> bytes;
  hs_unmarshal : bytes -> option hardState;
  trunc_marshal : truncatedState -> bytes;
  trunc_unmarshal : bytes -> option truncatedState }.

Class EntryCodecLaws (EC : EntryCodec) : Prop := {
  ent_roundtrip e : ent_unmarshal (ent_marshal e) = Some e;
  ent_nonempty e : ent_marshal e <> [];
  ent_size_nonneg e : 0 <= ent_size e;
  hs_roundtrip h : hs_unmarshal (hs_marshal h) = Some h;
  hs_nonempty h : hs_marshal h <> [];
  trunc_roundtrip t : trunc_unmarshal (trunc_marshal t) = Some t;
  trunc_nonempty t : trunc_marshal t <> [] }.

(** ** The struct *)

Record raftStorage := mkRS {
  rs_split : bool; rs_rangeID : Z; rs_lastIndex : Z; rs_confState : list Z; rs_applied : Z; rs_truncated : truncatedState }.

Inductive raft_err := ErrCompacted | ErrUnavailable | ErrBeyondLast | ErrSnapshotTemporarilyUnavailable | ErrCorrupt | ErrLoopBound.

Definition rs_with_last (rs : raftStorage) (i : Z) : raftStorage :=
  mkRS (rs_split rs) (rs_rangeID rs) i (rs_confState rs) (rs_applied rs) (rs_truncated rs).
Definition rs_with_truncated (rs : raftStorage) (t : truncatedState) : raftStorage :=
  mkRS (rs_split rs) (rs_rangeID rs) (rs_lastIndex rs) (rs_confState rs) (rs_applied rs) t.

Definition setConfStateRaw (voters : list Z) (rs : raftStorage) : raftStorage :=
  mkRS (rs_split rs) (rs_rangeID rs) (rs_lastIndex rs) voters (rs_applied rs) (rs_truncated rs).
Definition setConfState (desc : RangeDescriptor) (rs : raftStorage) : raftStorage :=
  setConfStateRaw (map (fun r => u64 (rdReplicaID r)) (Replicas desc)) rs.
Definition setApplied (idx : Z) (rs : raftStorage) : raftStorage :=
  mkRS (rs_split rs) (rs_rangeID rs) (rs_lastIndex rs) (rs_confState rs)
    (if rs_applied rs <? idx then idx else rs_applied rs) (rs_truncated rs).

Definition LastIndex (rs : raftStorage) : Z := rs_lastIndex rs.
Definition FirstIndex (rs : raftStorage) : Z := u64 (tsIndex (rs_truncated rs) + 1).

Definition applyIncomingSnapshot (index term : Z) (rs : raftStorage) : raftStorage :=
  mkRS (rs_split rs) (rs_rangeID rs) index (rs_confState rs)
    (if rs_applied rs <? index then index else rs_applied rs) (mkTrunc index term).

Section Storage.
Context {P : Pebble} {SC : StateCodec} {EC : EntryCodec}.

Definition decodeEntry (raw : bytes) : result raft_err rentry :=
  match ent_unmarshal raw with Some e => Ok e | None => Err ErrCorrupt end.

(** The truncation point: the raft engine's own key on a split store, else
    (or when that key is absent) the applied state's copy. *)
Definition loadTruncatedState (split : bool) (raftEng stateEng : store) (rangeID : Z) : result raft_err truncatedState :=
  let from_state :=
    match loadReplicaStateFrom stateEng rangeID with Some st => Ok (rsTruncated st) | None => Err ErrCorrupt end in
  if split then
    match Batch_Get raftEng (RaftTruncatedStateKey rangeID) with
    | Some raw => match trunc_unmarshal raw with Some ts => Ok ts | None => Err ErrCorrupt end
    | None => from_state
    end
  else from_state.

Definition putTruncatedState (rangeID : Z) (ts : truncatedState) (s : store) : store :=
  Batch_Put s (RaftTruncatedStateKey rangeID) (trunc_marshal ts).

(** The highest index of the stored entries, or [last]. *)
Fixpoint last_loop (fuel : nat) (it : pebbleIter) (last : Z) : result raft_err Z :=
  match fuel with
  | O => Err ErrLoopBound
  | S fuel =>
      match cur it with
      | None => Ok last
      | Some (_, v) =>
          let* ent := decodeEntry v in
          last_loop fuel (INext it) (if last <? enIndex ent then enIndex ent else last)
      end
  end.

Definition newRaftStorage (pb split : bool) (raftEng stateEng : store) (rangeID : Z) (desc : RangeDescriptor)
    : result raft_err raftStorage :=
  let* ts := loadTruncatedState split raftEng stateEng rangeID in
  let lower := RaftLogPrefix rangeID in
  let it := NewIter pb raftEng lower (PrefixEnd lower) in
  let* last := last_loop (S (length (it_view (pit it)))) (SeekGE it lower) (tsIndex ts) in
  Ok (setConfState desc (mkRS split rangeID last [] 0 ts)).

Definition InitialState (eng : store) (rs : raftStorage) : result raft_err (hardState * list Z) :=
  match Batch_Get eng (RaftHardStateKey (rs_rangeID rs)) with
  | None => Ok (hardState0, rs_confState rs)
  | Some raw => match hs_unmarshal raw with Some hs => Ok (hs, rs_confState rs) | None => Err ErrCorrupt end
  end.

Fixpoint entries_loop (fuel : nat) (it : pebbleIter) (maxSize size : Z) (ents : list rentry) : result raft_err (list rentry) :=
  match fuel with
  | O => Err ErrLoopBound
  | S fuel =>
      match cur it with
      | None => Ok ents
      | Some (_, v) =>
          let* ent := decodeEntry v in
          if (0 <? length ents)%nat && (maxSize <? u64 (size + u64 (ent_size ent))) then Ok ents
          else entries_loop fuel (INext it) maxSize (u64 (size + u64 (ent_size ent))) (ents ++ [ent])
      end
  end.

Definition Entries (pb : bool) (eng : store) (rs : raftStorage) (lo hi maxSize : Z) : result raft_err (list rentry) :=
  if lo <=? tsIndex (rs_truncated rs) then Err ErrCompacted
  else if u64 (rs_lastIndex rs + 1) <? hi then Err ErrBeyondLast
  else
    let lower := RaftLogKey (rs_rangeID rs) lo in
    let it := NewIter pb eng lower (RaftLogKey (rs_rangeID rs) hi) in
    let* ents := entries_loop (S (length (it_view (pit it)))) (SeekGE it lower) maxSize 0 [] in
    match ents with
    | [] => Err ErrUnavailable
    | e :: _ => if enIndex e =? lo then Ok ents else Err ErrUnavailable
    end.

Definition Term (eng : store) (rs : raftStorage) (i : Z) : result raft_err Z :=
  if i =? tsIndex (rs_truncated rs) then Ok (tsTerm (rs_truncated rs))
  else if i <? tsIndex (rs_truncated rs) then Err ErrCompacted
  else if rs_lastIndex rs <? i then Err ErrUnavailable
  else
    match Batch_Get eng (RaftLogKey (rs_rangeID rs) i) with
    | None => Err ErrUnavailable
    | Some raw => let* ent := decodeEntry raw in Ok (enTerm ent)
    end.

(** The metadata of a snapshot: index, term, voters. *)
Definition Snapshot (eng : store) (rs : raftStorage) : result raft_err (Z * Z * list Z) :=
  if (rs_applied rs =? 0) || (length (rs_confState rs) =? 0)%nat then Err ErrSnapshotTemporarilyUnavailable
  else
    match Term eng rs (rs_applied rs) with
    | Err _ => Err ErrSnapshotTemporarilyUnavailable
    | Ok term => Ok (rs_applied rs, term, rs_confState rs)
    end.

(** [for i := from; i <= to; i++ { b.Delete(RaftLogKey(i)) }] *)
Fixpoint delete_log (n : nat) (rangeID i : Z) (b : store) : store :=
  match n with O => b | S n => delete_log n rangeID (u64 (i + 1)) (Batch_Delete b (RaftLogKey rangeID i)) end.
Definition delete_log_range (rangeID from to : Z) (b : store) : store := delete_log (Z.to_nat (to + 1 - from)) rangeID from b.

Definition put_entries (rangeID : Z) (ents : list rentry) (b : store) : store :=
  fold_left (fun b e => Batch_Put b (RaftLogKey rangeID (enIndex e)) (ent_marshal e)) ents b.

Definition append (ents : list rentry) (rs : raftStorage) (b : store) : raftStorage * store :=
  match last ents with
  | None => (rs, b)
  | Some e =>
      let b := put_entries (rs_rangeID rs) ents b in
      let newLast := enIndex e in
      (rs_with_last rs newLast, delete_log_range (rs_rangeID rs) (u64 (newLast + 1)) (rs_lastIndex rs) b)
  end.

Definition rs_stageTruncate (index term : Z) (rs : raftStorage) (b : store) : result raft_err (raftStorage * store) :=
  let old := tsIndex (rs_truncated rs) in
  if index <=? old then Ok (rs, b)
  else if rs_lastIndex rs <? index then Err ErrBeyondLast
  else Ok (rs_with_truncated rs (mkTrunc index term), delete_log_range (rs_rangeID rs) (u64 (old + 1)) index b).

Definition stageTruncatedState (rs : raftStorage) (b : store) : store :=
  if negb (rs_split rs) then b else putTruncatedState (rs_rangeID rs) (rs_truncated rs) b.

Definition setHardState (hs : hardState) (rs : raftStorage) (b : store) : store :=
  Batch_Put b (RaftHardStateKey (rs_rangeID rs)) (hs_marshal hs).
End Storage.

(** The raft-engine side of a snapshot's installation on a split store
    (applySnapshot, catchup.go). *)
Section Install.
Context {P : Pebble} {EC : EntryCodec}.
Definition reset_log (index term : Z) (rs : raftStorage) (b : store) : raftStorage * store :=
  let pre := RaftLogPrefix (rs_rangeID rs) in
  (applyIncomingSnapshot index term rs,
   putTruncatedState (rs_rangeID rs) (mkTrunc index term) (Batch_DeleteRange b pre (PrefixEnd pre))).
End Install.

(** ** Deferred truncation on a split store (raftengine.go) *)

Record appliedSeq := mkSeq { asIndex : Z; asSeq : Z }.
Definition appliedSeqSpacing : Z := 32.

(** What a replica keeps of its applies: samples of (index, sequence
    number), the highest index known to be flushed, and the truncation that
    waits. *)
Record deferral := mkDeferral { df_seqs : list appliedSeq; df_durable : Z; df_pending : truncatedState }.
Definition deferral0 : deferral := mkDeferral [] 0 (mkTrunc 0 0).

Definition noteAppliedSeq (split : bool) (idx seq : Z) (d : deferral) : deferral :=
  if negb split then d
  else
    let n := length (df_seqs d) in
    let near i := match df_seqs d !! i with Some a => u64 (idx - asIndex a) <? appliedSeqSpacing | None => false end in
    let seqs :=
      if (0 <? n)%nat && near (n - 1)%nat && (1 <? n)%nat && near (n - 2)%nat
      then take (n - 1) (df_seqs d) ++ [mkSeq idx seq]
      else df_seqs d ++ [mkSeq idx seq] in
    mkDeferral seqs (df_durable d) (df_pending d).

(** The samples at or below the flushed watermark are consumed. *)
Fixpoint consume (flushed durable : Z) (seqs : list appliedSeq) : list appliedSeq * Z :=
  match seqs with
  | [] => ([], durable)
  | a :: rest =>
      if asSeq a <=? flushed then consume flushed (if durable <? asIndex a then asIndex a else durable) rest
      else (seqs, durable)
  end.
Definition durableAppliedLocked (split : bool) (flushed appliedIndex : Z) (d : deferral) : deferral * Z :=
  if negb split then (d, appliedIndex)
  else
    let '(seqs, durable) := consume flushed (df_durable d) (df_seqs d) in
    (mkDeferral seqs durable (df_pending d), durable).

Definition notePendingTruncate (index term : Z) (d : deferral) : deferral :=
  if tsIndex (df_pending d) <? index then mkDeferral (df_seqs d) (df_durable d) (mkTrunc index term) else d.

Section Deferred.
Context {P : Pebble} {EC : EntryCodec}.

(** [maybeTruncateDeferredLocked] on a running replica; an error leaves the
    engine as it was. *)
Definition maybeTruncateDeferred (flushed appliedIndex : Z) (d : deferral) (rs : raftStorage) (b : store)
    : deferral * raftStorage * store :=
  let pending := df_pending d in
  if tsIndex pending =? 0 then (d, rs, b)
  else
    let '(d, durable) := durableAppliedLocked (rs_split rs) flushed appliedIndex d in
    if durable <? tsIndex pending then (d, rs, b)
    else
      let d := mkDeferral (df_seqs d) (df_durable d) (mkTrunc 0 0) in
      match rs_stageTruncate (tsIndex pending) (tsTerm pending) rs b with
      | Err _ => (d, rs, b)
      | Ok (rs', b') => (d, rs', stageTruncatedState rs' b')
      end.
End Deferred.
