(* ===== verification/RaftStorageSpec.v ===== *)
(** * The raft log refines a list

    An abstract log is a truncation point and the entries after it, one per
    index.  Every operation of [raftStorage] implements its obvious effect
    on such a log, the queries of raft.Storage answer from it, and a restart
    finds the same log on the engine. *)

From S2P Require Import Prelude Encoding Hlc Keys MvccKey Pebble Enginepb Mvcc MvccView MvccWrite MvccScan Kvpb KvpbWire TxnRecord TxnRecordSpec Gc Strconv.
From S2P Require Import MvccTxn Apply ApplySpec RaftStorage.

#[local] Abbreviation length := Datatypes.length.
#[local] Open Scope list_scope.
Open Scope Z_scope.

(** ** The abstract log *)

Record raftLog := mkLog { al_trunc : truncatedState; al_entries : list rentry }.
Definition al_last (a : raftLog) : Z := tsIndex (al_trunc a) + Z.of_nat (length (al_entries a)).

(** Entries with consecutive indexes from [n]. *)
Fixpoint contiguous (n : Z) (l : list rentry) : Prop :=
  match l with [] => True | e :: l => enIndex e = n /\ contiguous (n + 1) l end.

Definition log_ok (a : raftLog) : Prop :=
  0 <= tsIndex (al_trunc a) /\ al_last a < 2 ^ 64 - 1 /\ contiguous (tsIndex (al_trunc a) + 1) (al_entries a).

Definition log_append (ents : list rentry) (a : raftLog) : raftLog :=
  match ents with
  | [] => a
  | e :: _ => mkLog (al_trunc a) (take (Z.to_nat (enIndex e - tsIndex (al_trunc a) - 1)) (al_entries a) ++ ents)
  end.
Definition log_truncate (index term : Z) (a : raftLog) : raftLog :=
  if index <=? tsIndex (al_trunc a) then a
  else mkLog (mkTrunc index term) (drop (Z.to_nat (index - tsIndex (al_trunc a))) (al_entries a)).
Definition log_reset (index term : Z) : raftLog := mkLog (mkTrunc index term) [].
Definition log_between (lo hi : Z) (a : raftLog) : list rentry :=
  filter (fun e => lo <= enIndex e < hi) (al_entries a).

Lemma contiguous_lookup l : forall n i e, contiguous n l -> l !! i = Some e -> enIndex e = n + Z.of_nat i.
Proof.
  induction l as [|x l IH]; intros n i e; [done|]. intros [Hx Hl]. destruct i as [|i]; cbn; [intros [= <-]; lia|].
  intros He. rewrite (IH (n + 1) i e Hl He). lia.
Qed.

Lemma contiguous_app l1 l2 n : contiguous n (l1 ++ l2) <-> contiguous n l1 /\ contiguous (n + Z.of_nat (length l1)) l2.
Proof.
  revert n. induction l1 as [|x l1 IH]; intros n; cbn [app contiguous length].
  - rewrite Z.add_0_r. tauto.
  - rewrite IH. replace (n + Z.of_nat (S (length l1))) with (n + 1 + Z.of_nat (length l1)) by lia. tauto.
Qed.

Lemma contiguous_elem l n e : contiguous n l -> e ∈ l -> n <= enIndex e < n + Z.of_nat (length l).
Proof.
  intros Hc Hin. apply list_elem_of_lookup in Hin as [i Hi]. rewrite (contiguous_lookup l n i e Hc Hi).
  apply lookup_lt_Some in Hi. lia.
Qed.

(** An entry is in a cut of the log when its index is. *)
Lemma contiguous_take l : forall n m e, contiguous n l -> e ∈ take m l <-> e ∈ l /\ enIndex e < n + Z.of_nat m.
Proof.
  induction l as [|x l IH]; intros n m e Hc; [rewrite take_nil; set_solver|]. destruct Hc as [Hx Hl]. destruct m as [|m].
  - cbn [take]. split; [set_solver|]. intros [Hin Hlt]. pose proof (contiguous_elem (x :: l) n e (conj Hx Hl) Hin). lia.
  - cbn [take]. rewrite !elem_of_cons, (IH (n + 1) m e Hl). split; [|intros [[->|?] ?]; [by left|right; split; [done|lia]]].
    intros [->|[? ?]]; (split; [tauto|lia]).
Qed.

Lemma contiguous_drop l : forall n m e, contiguous n l -> e ∈ drop m l <-> e ∈ l /\ n + Z.of_nat m <= enIndex e.
Proof.
  induction l as [|x l IH]; intros n m e Hc; [rewrite drop_nil; set_solver|]. destruct Hc as [Hx Hl]. destruct m as [|m].
  - cbn [drop]. split; [|tauto]. intros Hin. pose proof (contiguous_elem (x :: l) n e (conj Hx Hl) Hin). split; [done|lia].
  - cbn [drop]. rewrite elem_of_cons, (IH (n + 1) m e Hl). split; [intros [? ?]; split; [tauto|lia]|].
    intros [[->|?] ?]; [lia|]. split; [done|lia].
Qed.

Lemma contiguous_drop_self l n m : (m <= length l)%nat -> contiguous n l -> contiguous (n + Z.of_nat m) (drop m l).
Proof.
  intros Hm Hc. rewrite <- (take_drop m l) in Hc. apply contiguous_app in Hc as [_ Hc]. by rewrite length_take_le in Hc.
Qed.

Lemma contiguous_fun l n e e' : contiguous n l -> e ∈ l -> e' ∈ l -> enIndex e = enIndex e' -> e = e'.
Proof.
  intros Hc He He' E. apply list_elem_of_lookup in He as [i Hi], He' as [j Hj].
  rewrite (contiguous_lookup l n i e Hc Hi), (contiguous_lookup l n j e' Hc Hj) in E. assert (i = j) by lia. congruence.
Qed.

(** ** Log keys *)

Definition in_log_span (id : Z) (k : bytes) : Prop := RaftLogPrefix id ≼ k /\ k ≺ PrefixEnd (RaftLogPrefix id).

Lemma log_key_inj id i j : in_u64 i -> in_u64 j -> RaftLogKey id i = RaftLogKey id j -> i = j.
Proof.
  intros Hi Hj E. unfold RaftLogKey in E. apply (f_equal (fun k => k ++ [])) in E. by apply EncodeUint64_inj_app in E as [-> _].
Qed.

Lemma log_key_lt id i j : in_u64 i -> in_u64 j -> RaftLogKey id i ≺ RaftLogKey id j <-> i < j.
Proof.
  intros Hi Hj. rewrite <- (app_nil_r (RaftLogKey id i)), <- (app_nil_r (RaftLogKey id j)). unfold RaftLogKey.
  rewrite EncodeUint64_compare by done. destruct (Z.compare_spec i j); cbn; split; intros; try done; try lia.
Qed.

Lemma log_key_le id i j : in_u64 i -> in_u64 j -> RaftLogKey id i ≼ RaftLogKey id j <-> i <= j.
Proof.
  intros Hi Hj. rewrite ble_not_lt, log_key_lt by done. lia.
Qed.

Lemma log_key_in_span id i : in_log_span id (RaftLogKey id i).
Proof.
  assert (Hok : bytes_ok (RaftLogKey id i)).
  { unfold RaftLogKey, EncodeUint64, makeRangeLocalKey, EncodeUint64. repeat apply Forall_app_2; try apply be_ok; by_compute. }
  apply (in_span_prefix (RaftLogPrefix id) _ Hok); [by apply Exists_head|]. apply has_prefix_app.
Qed.

Section Refinement.
Context {P : Pebble} {PL : PebbleLaws P} {SC : StateCodec} {EC : EntryCodec} {ECL : EntryCodecLaws EC}.

(** The log span of the engine holds exactly the entries. *)
Definition stored (id : Z) (s : store) (l : list rentry) : Prop :=
  forall k v, in_log_span id k -> st_get s k = Some v <-> exists e, e ∈ l /\ k = RaftLogKey id (enIndex e) /\ v = ent_marshal e.

Definition log_entry (id : Z) (e : rentry) : entry := (RaftLogKey id (enIndex e), ent_marshal e).

Lemma log_entries_sorted id l : forall n, 0 <= n -> n + Z.of_nat (length l) < 2 ^ 64 -> contiguous n l ->
  StronglySorted entry_lt (map (log_entry id) l).
Proof.
  induction l as [|x l IH]; intros n Hn Hb Hc; [constructor|]. cbn [length] in Hb. destruct Hc as [Hx Hl]. cbn [map].
  constructor; [by apply (IH (n + 1)); [lia..|]|]. apply Forall_forall. intros y Hy. apply list_elem_of_fmap in Hy as (e & -> & He).
  pose proof (contiguous_elem l (n + 1) e Hl He). unfold entry_lt. cbn [fst log_entry].
  apply log_key_lt; unfold in_u64 in *; lia.
Qed.

Lemma filter_sorted_map id (Q : rentry -> Prop) `{forall e, Decision (Q e)} l :
  StronglySorted entry_lt (map (log_entry id) l) -> StronglySorted entry_lt (map (log_entry id) (filter Q l)).
Proof.
  induction l as [|x l IH]; [done|]. cbn [map]. intros Hs. apply StronglySorted_inv in Hs as [Hs Hx]. rewrite filter_cons.
  case_decide; [|by apply IH]. cbn [map]. constructor; [by apply IH|]. rewrite Forall_forall in Hx |- *. intros y Hy.
  apply list_elem_of_fmap in Hy as (e & -> & He). apply Hx, list_elem_of_fmap. exists e. split; [done|].
  by apply list_elem_of_filter in He as [_ He].
Qed.

(** What an iterator over part of the log sees. *)
Lemma log_view id s a lo hi :
  log_ok a -> stored id s (al_entries a) -> in_u64 lo -> in_u64 hi ->
  bounded (RaftLogKey id lo) (RaftLogKey id hi) (st_entries s) = map (log_entry id) (log_between lo hi a).
Proof.
  intros (Hn & Hb & Hc) Hst Hlo Hhi. unfold al_last in Hb. apply sorted_ext.
  - apply bounded_sorted.
  - apply filter_sorted_map. apply (log_entries_sorted id _ (tsIndex (al_trunc a) + 1)); [lia|lia|done].
  - intros [k v]. rewrite elem_of_bounded, <- get_entries. cbn [fst]. split.
    + intros (Hg & H1 & H2). apply Hst in Hg as (e & He & -> & ->).
      * pose proof (contiguous_elem _ _ e Hc He). apply list_elem_of_fmap. exists e. split; [done|]. apply list_elem_of_filter.
        split; [|done]. rewrite log_key_le in H1 by (unfold in_u64 in *; lia). rewrite log_key_lt in H2 by (unfold in_u64 in *; lia). done.
      * split; [eapply ble_trans; [apply log_key_in_span|exact H1]|]. eapply blt_trans; [exact H2|apply log_key_in_span].
    + intros Hin. apply list_elem_of_fmap in Hin as (e & [= -> ->] & He). apply list_elem_of_filter in He as [[H1 H2] He].
      pose proof (contiguous_elem _ _ e Hc He). split; [apply Hst; [apply log_key_in_span|by exists e]|].
      split; [apply log_key_le; unfold in_u64 in *; lia|apply log_key_lt; unfold in_u64 in *; lia].
Qed.

Lemma whole_log_view id s a :
  log_ok a -> stored id s (al_entries a) ->
  bounded (RaftLogPrefix id) (PrefixEnd (RaftLogPrefix id)) (st_entries s) = map (log_entry id) (al_entries a).
Proof.
  intros (Hn & Hb & Hc) Hst. unfold al_last in Hb. apply sorted_ext.
  - apply bounded_sorted.
  - apply (log_entries_sorted id _ (tsIndex (al_trunc a) + 1)); [lia|lia|done].
  - intros [k v]. rewrite elem_of_bounded, <- get_entries. cbn [fst]. split.
    + intros (Hg & H1 & H2). apply Hst in Hg as (e & He & -> & ->); [|done]. apply list_elem_of_fmap. by exists e.
    + intros Hin. apply list_elem_of_fmap in Hin as (e & [= -> ->] & He). split; [|apply log_key_in_span].
      apply Hst; [apply log_key_in_span|by exists e].
Qed.

(** An iterator positioned at the start of its view. *)
Lemma seek_start pb s lo hi : let it := NewIter pb s lo hi in
  plain_at (SeekGE it lo) [] (bounded lo hi (st_entries s)) /\ it_view (pit it) = bounded lo hi (st_entries s).
Proof.
  intros it. assert (Hv : view it = bounded lo hi (st_entries s)) by (unfold view, it, NewIter; cbn [pit]; apply new_view).
  split; [|exact Hv]. rewrite <- Hv. apply plain_seek_to; [rewrite Hv; apply bounded_sorted|done|constructor|]. rewrite Hv.
  apply Forall_forall. intros e He. apply elem_of_bounded in He. tauto.
Qed.

Lemma last_loop_at id l : forall fuel it pre last,
  plain_at it pre (map (log_entry id) l) -> (length l < fuel)%nat ->
  last_loop fuel it last = Ok (fold_left (fun m e => if m <? enIndex e then enIndex e else m) l last).
Proof.
  induction l as [|e l IH]; intros fuel it pre last Hat Hf; (destruct fuel as [|fuel]; [cbn in Hf; lia|]); cbn [last_loop];
    rewrite (plain_cur _ _ _ Hat); cbn [map head]; [done|].
  unfold log_entry at 1, decodeEntry. rewrite ent_roundtrip. cbn [rbind fold_left]. cbn [map] in Hat. apply plain_next in Hat.
  eapply IH; [exact Hat|]. cbn in Hf. lia.
Qed.

Lemma fold_last l : forall n last, contiguous (last + 1 + n) l -> 0 <= n ->
  fold_left (fun m e => if m <? enIndex e then enIndex e else m) l last =
    if (length l =? 0)%nat then last else last + n + Z.of_nat (length l).
Proof.
  induction l as [|e l IH]; intros n last Hc Hn; [done|]. destruct Hc as [He Hl]. cbn [fold_left length].
  destruct (Z.ltb_spec last (enIndex e)); [|lia]. rewrite (IH 0 (enIndex e)); [|by rewrite He, Z.add_0_r|lia].
  destruct l; cbn [length Nat.eqb]; lia.
Qed.

(** *** Entries *)

Definition total (l : list rentry) : Z := fold_right (fun e n => ent_size e + n) 0 l.

Lemma total_cons e l : total (e :: l) = ent_size e + total l.
Proof. done. Qed.

Lemma total_nonneg l : 0 <= total l.
Proof. induction l as [|e l IH]; [done|]. rewrite total_cons. pose proof (ent_size_nonneg e). lia. Qed.

Lemma total_app l1 l2 : total (l1 ++ l2) = total l1 + total l2.
Proof. induction l1 as [|e l1 IH]; [done|]. cbn [app]. rewrite !total_cons, IH. lia. Qed.

(** A page of [l]: a prefix, not empty unless [l] is, of at most [maxSize]
    bytes unless it is a single entry, and as long as that allows. *)
Definition page (maxSize : Z) (l ents : list rentry) : Prop :=
  (exists rest, l = ents ++ rest /\ (forall e rest', rest = e :: rest' -> ents <> [] /\ maxSize < total ents + ent_size e)) /\
  ((length ents <= 1)%nat \/ total ents <= maxSize).

Lemma entries_loop_at id maxSize l : forall fuel it pre ents,
  plain_at it pre (map (log_entry id) l) -> (length l < fuel)%nat -> total (ents ++ l) < 2 ^ 64 ->
  ((length ents <= 1)%nat \/ total ents <= maxSize) ->
  exists out, entries_loop fuel it maxSize (total ents) ents = Ok out /\ page maxSize (ents ++ l) out /\ ents `prefix_of` out.
Proof.
  induction l as [|e l IH]; intros fuel it pre ents Hat Hf Hb Hp; (destruct fuel as [|fuel]; [cbn in Hf; lia|]); cbn [entries_loop];
    rewrite (plain_cur _ _ _ Hat); cbn [map head].
  - exists ents. split; [done|]. split; [|done]. split; [|done]. exists []. split; [done|]. by intros e rest'.
  - unfold log_entry at 1, decodeEntry. rewrite ent_roundtrip. cbn [rbind].
    pose proof (ent_size_nonneg e) as He. pose proof (total_nonneg ents). pose proof (total_nonneg l).
    rewrite total_app, total_cons in Hb.
    rewrite (u64_small (ent_size e)), (u64_small (total ents + ent_size e)) by (unfold in_u64; lia).
    destruct ((0 <? length ents)%nat && (maxSize <? total ents + ent_size e)) eqn:Eb.
    + apply andb_true_iff in Eb as [E1 E2]. apply Nat.ltb_lt in E1. apply Z.ltb_lt in E2. exists ents. split; [done|]. split; [|done].
      split; [|done]. exists (e :: l). split; [done|]. intros e' rest' [= <- <-]. split; [by destruct ents; cbn in E1; [lia|]|done].
    + assert (Et : total (ents ++ [e]) = total ents + ent_size e) by (rewrite total_app, total_cons; change (total []) with 0; lia).
      rewrite <- Et. cbn [map] in Hat. apply plain_next in Hat. cbn in Hf.
      destruct (IH fuel (INext it) _ (ents ++ [e]) Hat ltac:(lia)) as (out & Ho & Hpage & Hpre).
      * rewrite total_app, Et. lia.
      * apply andb_false_iff in Eb as [E1|E2]; [left; apply Nat.ltb_ge in E1; rewrite length_app; cbn; lia|].
        right. rewrite Et. by apply Z.ltb_ge in E2.
      * exists out. split; [done|]. rewrite <- app_assoc in Hpage. split; [done|]. etransitivity; [|exact Hpre]. by eexists.
Qed.

(** ** Refinement *)

Definition refines_log (rs : raftStorage) (s : store) (a : raftLog) : Prop :=
  log_ok a /\ rs_truncated rs = al_trunc a /\ rs_lastIndex rs = al_last a /\ stored (rs_rangeID rs) s (al_entries a).

Lemma between_head lo hi l n : contiguous n l -> n <= lo -> lo < hi -> hi <= n + Z.of_nat (length l) ->
  exists e rest, filter (fun e => lo <= enIndex e < hi) l = e :: rest /\ enIndex e = lo.
Proof.
  revert n. induction l as [|x l IH]; intros n Hc H1 H2 H3; [cbn in H3; lia|]. destruct Hc as [Hx Hl]. cbn [length] in H3. rewrite filter_cons.
  case_decide as Hd.
  - exists x, (filter (fun e => lo <= enIndex e < hi) l). split; [done|lia].
  - apply (IH (n + 1)); [done|lia..].
Qed.

Lemma Entries_refines pb rs s a lo hi maxSize :
  refines_log rs s a -> tsIndex (al_trunc a) < lo -> lo < hi -> hi <= al_last a + 1 -> total (al_entries a) < 2 ^ 64 ->
  exists ents, Entries pb s rs lo hi maxSize = Ok ents /\ ents <> [] /\ page maxSize (log_between lo hi a) ents.
Proof.
  intros (Hok & Ht & Hl & Hst) H1 H2 H3 Htot. pose proof Hok as (Hn & Hb & Hc). unfold Entries. rewrite Ht, Hl.
  destruct (Z.leb_spec lo (tsIndex (al_trunc a))); [lia|]. rewrite (u64_small (al_last a + 1)) by (unfold in_u64, al_last in *; lia).
  destruct (Z.ltb_spec (al_last a + 1) hi); [lia|].
  destruct (seek_start pb s (RaftLogKey (rs_rangeID rs) lo) (RaftLogKey (rs_rangeID rs) hi)) as [Hat Hv].
  rewrite Hv. rewrite (log_view (rs_rangeID rs) s a lo hi Hok Hst) in Hat |- * by (unfold in_u64; unfold al_last in *; lia).
  destruct (between_head lo hi (al_entries a) _ Hc ltac:(lia) H2 ltac:(unfold al_last in *; lia)) as (e0 & rest0 & Eb & He0).
  assert (Htb : total (log_between lo hi a) <= total (al_entries a)).
  { unfold log_between. clear -ECL. induction (al_entries a) as [|x l IH]; [done|]. rewrite filter_cons. pose proof (ent_size_nonneg x).
    case_decide; rewrite !total_cons; lia. }
  destruct (entries_loop_at (rs_rangeID rs) maxSize (log_between lo hi a) (S (length (map (log_entry (rs_rangeID rs)) (log_between lo hi a))))
    _ [] [] Hat) as (out & Ho & Hp & _).
  - rewrite length_map. lia.
  - cbn [app]. lia.
  - by left; cbn; lia.
  - cbn [app] in Hp. change (total []) with 0 in Ho. rewrite Ho. cbn [rbind]. exists out. pose proof Hp as [(rest & Hrest & Hmax) _].
    unfold log_between in Hrest. rewrite Eb in Hrest. destruct out as [|e out].
    + cbn [app] in Hrest. by destruct (Hmax e0 rest0 (eq_sym Hrest)) as [[] _].
    + injection Hrest as <- _. rewrite He0, Z.eqb_refl. done.
Qed.

Lemma stored_get id s l n e : stored id s l -> contiguous n l -> e ∈ l -> Batch_Get s (RaftLogKey id (enIndex e)) = Some (ent_marshal e).
Proof.
  intros Hst Hc He. unfold Batch_Get. rewrite (proj2 (Hst (RaftLogKey id (enIndex e)) (ent_marshal e) (log_key_in_span id _))); [|by exists e].
  pose proof (ent_nonempty e). by destruct (ent_marshal e).
Qed.

Lemma Term_refines rs s a i :
  refines_log rs s a -> in_u64 i ->
  Term s rs i =
    if i <? tsIndex (al_trunc a) then Err ErrCompacted
    else if i =? tsIndex (al_trunc a) then Ok (tsTerm (al_trunc a))
    else match al_entries a !! Z.to_nat (i - tsIndex (al_trunc a) - 1) with Some e => Ok (enTerm e) | None => Err ErrUnavailable end.
Proof.
  intros (Hok & Ht & Hl & Hst) Hi. pose proof Hok as (Hn & Hb & Hc). unfold Term. rewrite Ht, Hl.
  destruct (Z.ltb_spec i (tsIndex (al_trunc a))), (Z.eqb_spec i (tsIndex (al_trunc a))); try done; try lia.
  destruct (al_entries a !! _) as [e|] eqn:E.
  - pose proof (lookup_lt_Some _ _ _ E). pose proof (contiguous_lookup _ _ _ _ Hc E) as He.
    destruct (Z.ltb_spec (al_last a) i); [unfold al_last in *; lia|]. replace i with (enIndex e) by lia.
    rewrite (stored_get _ _ _ _ e Hst Hc) by (by eapply list_elem_of_lookup_2). unfold decodeEntry. by rewrite ent_roundtrip.
  - apply lookup_ge_None in E. destruct (Z.ltb_spec (al_last a) i); [done|]. unfold al_last in *. lia.
Qed.

(** *** Updates *)

Lemma delete_log_in id k : forall n i b, 0 <= i -> i + Z.of_nat n < 2 ^ 64 ->
  (exists j, i <= j < i + Z.of_nat n /\ k = RaftLogKey id j) -> st_get (delete_log n id i b) k = None.
Proof.
  assert (Hmono : forall n i b, st_get b k = None -> st_get (delete_log n id i b) k = None).
  { induction n as [|n IH]; intros i b Hb; cbn [delete_log]; [done|]. apply IH. unfold Batch_Delete.
    destruct (decide (RaftLogKey id i = k)) as [<-|]; [apply get_del_eq|by rewrite get_del_ne]. }
  induction n as [|n IH]; intros i b Hi Hb (j & Hj & ->); [lia|]. cbn [delete_log]. destruct (decide (j = i)) as [->|].
  - apply Hmono. apply get_del_eq.
  - rewrite u64_small by (unfold in_u64; lia). apply IH; [lia..|]. exists j. split; [lia|done].
Qed.

Lemma delete_log_out id k : forall n i b, 0 <= i -> i + Z.of_nat n < 2 ^ 64 ->
  (forall j, i <= j < i + Z.of_nat n -> k <> RaftLogKey id j) -> st_get (delete_log n id i b) k = st_get b k.
Proof.
  induction n as [|n IH]; intros i b Hi Hb Hk; [done|]. cbn [delete_log]. rewrite u64_small by (unfold in_u64; lia).
  rewrite IH; [|lia..|intros j Hj; apply Hk; lia]. apply get_del_ne. intros E. symmetry in E. revert E. apply Hk. lia.
Qed.

Lemma put_entries_out id k ents : forall b, (forall e, e ∈ ents -> RaftLogKey id (enIndex e) <> k) -> st_get (put_entries id ents b) k = st_get b k.
Proof.
  induction ents as [|e ents IH]; intros b Hk; [done|]. unfold put_entries in *. cbn [fold_left]. rewrite IH.
  - apply get_set_ne, Hk, list_elem_of_here.
  - intros e' He'. apply Hk. by apply list_elem_of_further.
Qed.

Lemma put_entries_in id ents e : forall b n, contiguous n ents -> 0 <= n -> n + Z.of_nat (length ents) < 2 ^ 64 -> e ∈ ents ->
  st_get (put_entries id ents b) (RaftLogKey id (enIndex e)) = Some (ent_marshal e).
Proof.
  induction ents as [|x ents IH]; intros b n Hc0 Hn Hb Hin; [by apply not_elem_of_nil in Hin|].
  destruct Hc0 as [Hx Hc]. cbn [length] in Hb.
  unfold put_entries in *. cbn [fold_left]. apply elem_of_cons in Hin as [->|Hin].
  - change (fold_left _ ents ?b') with (put_entries id ents b'). rewrite put_entries_out; [apply get_set_eq|].
    intros e' He'. pose proof (contiguous_elem _ _ e' Hc He'). intros E. apply log_key_inj in E; unfold in_u64; lia.
  - eapply (IH _ (n + 1)); [done|lia..|done].
Qed.

Lemma log_append_ok a e ents :
  log_ok a -> contiguous (enIndex e) (e :: ents) -> tsIndex (al_trunc a) < enIndex e -> enIndex e <= al_last a + 1 ->
  enIndex e + Z.of_nat (length ents) < 2 ^ 64 - 1 ->
  log_ok (log_append (e :: ents) a) /\ al_last (log_append (e :: ents) a) = enIndex e + Z.of_nat (length ents).
Proof.
  intros (Hn & Hb & Hc) Hce H1 H2 H3. unfold log_append, log_ok, al_last in *. cbn [al_trunc al_entries].
  set (m := Z.to_nat (enIndex e - tsIndex (al_trunc a) - 1)). assert (Hm : (m <= length (al_entries a))%nat) by lia.
  rewrite length_app, length_take_le by done. cbn [length]. split; [|lia]. split_and!; [done|lia|].
  apply contiguous_app. split; [rewrite <- (take_drop m (al_entries a)) in Hc; by apply contiguous_app in Hc as [Hc _]|].
  rewrite length_take_le by done. by replace (tsIndex (al_trunc a) + 1 + Z.of_nat m) with (enIndex e) by lia.
Qed.

Lemma contiguous_last l : forall n e, contiguous n l -> last l = Some e -> enIndex e = n + Z.of_nat (length l) - 1.
Proof.
  intros n e Hc Hl. rewrite last_lookup in Hl. rewrite (contiguous_lookup l n _ e Hc Hl). apply lookup_lt_Some in Hl. lia.
Qed.

Lemma append_refines rs s a e ents :
  refines_log rs s a -> contiguous (enIndex e) (e :: ents) -> tsIndex (al_trunc a) < enIndex e -> enIndex e <= al_last a + 1 ->
  enIndex e + Z.of_nat (length ents) < 2 ^ 64 - 1 ->
  refines_log (append (e :: ents) rs s).1 (append (e :: ents) rs s).2 (log_append (e :: ents) a).
Proof.
  intros (Hok & Ht & Hl & Hst) Hce H1 H2 H3. destruct (log_append_ok a e ents Hok Hce H1 H2 H3) as [Hok' Hlast'].
  pose proof Hok as (Hn & Hb & Hc). unfold append. destruct (last (e :: ents)) as [x|] eqn:Ex; [|by apply last_None in Ex].
  pose proof (contiguous_last _ _ _ Hce Ex) as Hx. cbn [length] in Hx. cbn [fst snd].
  split; [done|]. split; [exact Ht|]. split; [cbn [rs_with_last rs_lastIndex]; lia|].
  change (rs_rangeID (rs_with_last rs (enIndex x))) with (rs_rangeID rs). set (id := rs_rangeID rs) in *.
  rewrite (u64_small (enIndex x + 1)) by (unfold in_u64; lia). unfold delete_log_range. rewrite Hl.
  set (n := Z.to_nat (al_last a + 1 - (enIndex x + 1))). assert (Hn' : enIndex x + 1 + Z.of_nat n < 2 ^ 64) by lia.
  intros k v Hk. unfold log_append. cbn [al_entries]. set (m := Z.to_nat (enIndex e - tsIndex (al_trunc a) - 1)). split.
  - intros Hg. destruct (decide (Exists (fun y => RaftLogKey id (enIndex y) = k) (e :: ents))) as [Hex|Hnex].
    + apply Exists_exists in Hex as (y & Hy & <-). exists y. pose proof (contiguous_elem _ _ y Hce Hy) as Hyi. cbn [length] in Hyi.
      rewrite delete_log_out in Hg; [|lia|lia|]; [|intros j Hj E; apply log_key_inj in E; unfold in_u64; lia].
      rewrite (put_entries_in id _ y _ (enIndex e) Hce) in Hg; [|lia|cbn [length]; lia|done]. injection Hg as <-.
      split; [apply elem_of_app; by right|done].
    + assert (Hnd : forall j, enIndex x + 1 <= j < enIndex x + 1 + Z.of_nat n -> k <> RaftLogKey id j).
      { intros j Hj ->. rewrite delete_log_in in Hg; [done|lia|lia|]. by exists j. }
      rewrite delete_log_out, put_entries_out in Hg; [|intros y Hy E; apply Hnex, Exists_exists; by exists y|lia|lia|done].
      apply Hst in Hg as (y & Hy & -> & ->); [|done]. exists y. split; [|done]. apply elem_of_app. left.
      apply (contiguous_take _ (tsIndex (al_trunc a) + 1)); [done|]. split; [done|].
      pose proof (contiguous_elem _ _ y Hc Hy) as Hyi. destruct (Z.lt_ge_cases (enIndex y) (enIndex e)) as [|Hge]; [lia|exfalso].
      destruct (Z.lt_ge_cases (enIndex x) (enIndex y)) as [Hgt|Hle]; [eapply (Hnd (enIndex y)); [unfold al_last in *; lia|done]|].
      destruct (lookup_lt_is_Some_2 (e :: ents) (Z.to_nat (enIndex y - enIndex e))) as [z Hz]; [cbn [length]; lia|].
      apply Hnex, Exists_exists. exists z. split; [by eapply list_elem_of_lookup_2|]. f_equal.
      rewrite (contiguous_lookup _ _ _ _ Hce Hz). lia.
  - intros (y & Hy & -> & ->). apply elem_of_app in Hy as [Hy|Hy].
    + apply (contiguous_take _ (tsIndex (al_trunc a) + 1)) in Hy as [Hy Hlt]; [|done]. pose proof (contiguous_elem _ _ y Hc Hy).
      rewrite delete_log_out; [|lia|lia|intros j Hj E; apply log_key_inj in E; unfold in_u64; lia].
      rewrite put_entries_out; [apply Hst; [done|by exists y]|].
      intros z Hz E. pose proof (contiguous_elem _ _ z Hce Hz). cbn [length] in *. apply log_key_inj in E; unfold in_u64; lia.
    + pose proof (contiguous_elem _ _ y Hce Hy) as Hyi. cbn [length] in Hyi.
      rewrite delete_log_out; [|lia|lia|intros j Hj E; apply log_key_inj in E; unfold in_u64; lia].
      apply (put_entries_in id _ y _ (enIndex e) Hce); [lia|cbn [length]; lia|done].
Qed.

Lemma truncate_refines rs s a index term :
  refines_log rs s a -> index <= al_last a ->
  exists rs' s', rs_stageTruncate index term rs s = Ok (rs', s') /\ refines_log rs' s' (log_truncate index term a) /\
    rs_rangeID rs' = rs_rangeID rs /\ rs_split rs' = rs_split rs /\
    (forall k, ~ in_log_span (rs_rangeID rs) k -> st_get s' k = st_get s k).
Proof.
  intros Href Hle. pose proof Href as (Hok & Ht & Hl & Hst). pose proof Hok as (Hn & Hb & Hc).
  unfold rs_stageTruncate, log_truncate. rewrite Ht, Hl. destruct (Z.leb_spec index (tsIndex (al_trunc a))) as [H0|H0].
  { exists rs, s. done. }
  destruct (Z.ltb_spec (al_last a) index); [lia|]. eexists _, _. split; [done|].
  set (m := Z.to_nat (index - tsIndex (al_trunc a))). assert (Hm : (m <= length (al_entries a))%nat) by (unfold al_last in *; lia).
  rewrite (u64_small (tsIndex (al_trunc a) + 1)) by (unfold in_u64, al_last in *; lia). unfold delete_log_range.
  set (n := Z.to_nat (index + 1 - (tsIndex (al_trunc a) + 1))).
  assert (Hn2 : tsIndex (al_trunc a) + 1 + Z.of_nat n < 2 ^ 64) by (unfold al_last in *; lia). split; [|split; [done|split; [done|]]].
  - assert (Hlast : index + Z.of_nat (length (drop m (al_entries a))) = al_last a) by (rewrite length_drop; unfold al_last in *; lia).
    split.
    { split; cbn [al_trunc al_entries tsIndex]; [lia|]. split; [unfold al_last at 1; cbn [al_trunc al_entries tsIndex]; lia|].
      replace (index + 1) with (tsIndex (al_trunc a) + 1 + Z.of_nat m) by lia. by apply contiguous_drop_self. }
    split; [done|]. split; [unfold al_last at 1; cbn [rs_with_truncated rs_lastIndex al_trunc al_entries tsIndex]; lia|].
    change (rs_rangeID (rs_with_truncated _ _)) with (rs_rangeID rs). set (id := rs_rangeID rs) in *. cbn [al_entries]. intros k v Hk. split.
    + intros Hg. assert (Hnd : forall j, tsIndex (al_trunc a) + 1 <= j < tsIndex (al_trunc a) + 1 + Z.of_nat n -> k <> RaftLogKey id j).
      { intros j Hj ->. rewrite delete_log_in in Hg; [done|lia|lia|]. by exists j. }
      rewrite delete_log_out in Hg by (done || lia). apply Hst in Hg as (y & Hy & -> & ->); [|done]. exists y. split; [|done].
      apply (contiguous_drop _ (tsIndex (al_trunc a) + 1)); [done|]. split; [done|].
      pose proof (contiguous_elem _ _ y Hc Hy). destruct (Z.lt_ge_cases (enIndex y) (tsIndex (al_trunc a) + 1 + Z.of_nat m)); [|lia].
      by destruct (Hnd (enIndex y) ltac:(lia)).
    + intros (y & Hy & -> & ->). apply (contiguous_drop _ (tsIndex (al_trunc a) + 1)) in Hy as [Hy Hge]; [|done].
      pose proof (contiguous_elem _ _ y Hc Hy). unfold al_last in *.
      rewrite delete_log_out; [apply Hst; [done|by exists y]|lia|lia|intros j Hj E; apply log_key_inj in E; unfold in_u64; lia].
  - intros k Hk. apply delete_log_out; [lia..|]. intros j _ ->. apply Hk, log_key_in_span.
Qed.

Lemma append_frame rs s ents k : ~ in_log_span (rs_rangeID rs) k ->
  (forall e, e ∈ ents -> 0 <= enIndex e /\ enIndex e + 1 < 2 ^ 64) -> rs_lastIndex rs + 1 < 2 ^ 64 ->
  st_get (append ents rs s).2 k = st_get s k.
Proof.
  intros Hk Hb Hl. unfold append. destruct (last ents) as [x|] eqn:Ex; [|done]. cbn [snd]. apply last_Some_elem_of in Ex as Hx.
  destruct (Hb x Hx) as [H1 H2]. rewrite u64_small by (unfold in_u64; lia). unfold delete_log_range.
  rewrite delete_log_out, put_entries_out; [done| |lia|lia|].
  - intros y _ <-. apply Hk, log_key_in_span.
  - intros j _ ->. apply Hk, log_key_in_span.
Qed.

(** The truncation key is apart from the log. *)
Lemma trunc_key_outside id : ~ in_log_span id (RaftTruncatedStateKey id).
Proof.
  assert (Hok : bytes_ok (RaftTruncatedStateKey id)).
  { unfold RaftTruncatedStateKey, makeRangeLocalKey, EncodeUint64. repeat apply Forall_app_2; try apply be_ok; by_compute. }
  intros Hin. apply (in_span_prefix (RaftLogPrefix id) _ Hok) in Hin; [|by apply Exists_head]. apply has_prefix_spec in Hin as [r Hr].
  rewrite <- (app_nil_r (RaftTruncatedStateKey id)) in Hr. unfold RaftTruncatedStateKey, RaftLogPrefix in Hr.
  apply range_local_inj in Hr as [_ Hr]. discriminate.
Qed.

(** The truncation point a split store's restart will find. *)
Definition trunc_durable (rs : raftStorage) (s : store) (a : raftLog) : Prop :=
  rs_split rs = true /\
  match Batch_Get s (RaftTruncatedStateKey (rs_rangeID rs)) with
  | Some raw => raw = trunc_marshal (al_trunc a)
  | None => al_trunc a = mkTrunc 0 0
  end.

Definition sim (rs : raftStorage) (s : store) (a : raftLog) : Prop := refines_log rs s a /\ trunc_durable rs s a.

Lemma stored_put_trunc id ts s l : stored id s l -> stored id (putTruncatedState id ts s) l.
Proof.
  intros Hst k v Hk. unfold putTruncatedState, Batch_Put. rewrite get_set_ne; [by apply Hst|]. intros <-. by apply (trunc_key_outside id).
Qed.

Lemma get_put_trunc id ts s : Batch_Get (putTruncatedState id ts s) (RaftTruncatedStateKey id) = Some (trunc_marshal ts).
Proof. unfold Batch_Get, putTruncatedState, Batch_Put. rewrite get_set_eq. pose proof (trunc_nonempty ts). by destruct (trunc_marshal ts). Qed.

Lemma reset_refines rs s index term :
  rs_split rs = true -> 0 <= index < 2 ^ 64 - 1 -> sim (reset_log index term rs s).1 (reset_log index term rs s).2 (log_reset index term).
Proof.
  intros Hs Hi. split; [|split; [done|cbn [fst snd reset_log]; by rewrite get_put_trunc]]. split.
  { unfold log_ok, al_last, log_reset. cbn [al_trunc al_entries tsIndex length contiguous]. lia. }
  split; [done|]. split; [unfold al_last; cbn; lia|]. cbn [fst snd reset_log log_reset al_entries].
  change (rs_rangeID (applyIncomingSnapshot index term rs)) with (rs_rangeID rs). apply stored_put_trunc. intros k v [H1 H2].
  unfold Batch_DeleteRange. rewrite get_del_range_in by done. split; [done|]. intros (e & He & _). by apply not_elem_of_nil in He.
Qed.

Lemma restart_refines pb rs s a stateEng desc st :
  sim rs s a -> loadReplicaStateFrom stateEng (rs_rangeID rs) = Some st -> (al_trunc a = mkTrunc 0 0 -> rsTruncated st = mkTrunc 0 0) ->
  exists rs', newRaftStorage pb true s stateEng (rs_rangeID rs) desc = Ok rs' /\ sim rs' s a.
Proof.
  intros [(Hok & Ht & Hl & Hst) [Hs Hd]] Hload Hz. unfold newRaftStorage.
  assert (loadTruncatedState true s stateEng (rs_rangeID rs) = Ok (al_trunc a)) as ->.
  { unfold loadTruncatedState. destruct (Batch_Get s _) as [raw|]; [subst raw; by rewrite trunc_roundtrip|]. rewrite Hload. f_equal. rewrite Hd. by apply Hz. }
  cbn [rbind]. destruct (seek_start pb s (RaftLogPrefix (rs_rangeID rs)) (PrefixEnd (RaftLogPrefix (rs_rangeID rs)))) as [Hat Hv].
  rewrite Hv, (whole_log_view _ s a Hok Hst), length_map. rewrite (whole_log_view _ s a Hok Hst) in Hat.
  rewrite (last_loop_at _ _ _ _ _ (tsIndex (al_trunc a)) Hat) by lia. cbn [rbind]. pose proof Hok as (Hn & Hb & Hc).
  rewrite (fold_last _ 0) by (rewrite ?Z.add_0_r; done || lia).
  eexists. split; [done|]. split; [|split; [done|exact Hd]]. split; [done|]. split; [done|]. split; [|exact Hst].
  cbn [setConfState setConfStateRaw rs_lastIndex]. unfold al_last. destruct (al_entries a); cbn [length Nat.eqb]; lia.
Qed.

(** *** Every run *)

Inductive raft_op :=
| RAppend (ents : list rentry)
| RTruncate (index term : Z)
| RReset (index term : Z)
| RRestart (pb : bool) (stateEng : store) (desc : RangeDescriptor).

Definition apply_op (op : raft_op) (st : raftStorage * store) : option (raftStorage * store) :=
  let '(rs, s) := st in
  match op with
  | RAppend ents => Some (append ents rs s)
  | RTruncate index term =>
      match rs_stageTruncate index term rs s with
      | Ok (rs', s') => Some (rs', stageTruncatedState rs' s')
      | Err _ => None
      end
  | RReset index term => Some (reset_log index term rs s)
  | RRestart pb stateEng desc =>
      match newRaftStorage pb true s stateEng (rs_rangeID rs) desc with Ok rs' => Some (rs', s) | Err _ => None end
  end.
Fixpoint apply_ops (ops : list raft_op) (st : raftStorage * store) : option (raftStorage * store) :=
  match ops with
  | [] => Some st
  | op :: ops => match apply_op op st with Some st => apply_ops ops st | None => None end
  end.

Definition log_op (a : raftLog) (op : raft_op) : raftLog :=
  match op with
  | RAppend ents => log_append ents a
  | RTruncate index term => log_truncate index term a
  | RReset index term => log_reset index term
  | RRestart _ _ _ => a
  end.

(** What raft and the apply path guarantee of their calls: appended entries
    are consecutive, leave no gap and stay above the truncation point;
    truncation stays within the log; a restart finds the state engine's
    copy of the truncation point at zero as long as the log was never
    truncated. *)
Definition op_ok (id : Z) (op : raft_op) (a : raftLog) : Prop :=
  match op with
  | RAppend [] => True
  | RAppend (e :: ents) =>
      contiguous (enIndex e) (e :: ents) /\ tsIndex (al_trunc a) < enIndex e <= al_last a + 1 /\
      enIndex e + Z.of_nat (length ents) < 2 ^ 64 - 1
  | RTruncate index term => index <= al_last a
  | RReset index term => 0 <= index < 2 ^ 64 - 1
  | RRestart _ stateEng _ =>
      exists st, loadReplicaStateFrom stateEng id = Some st /\ (al_trunc a = mkTrunc 0 0 -> rsTruncated st = mkTrunc 0 0)
  end.
Fixpoint ops_ok (id : Z) (ops : list raft_op) (a : raftLog) : Prop :=
  match ops with [] => True | op :: ops => op_ok id op a /\ ops_ok id ops (log_op a op) end.

Lemma step_sim op rs s a :
  sim rs s a -> op_ok (rs_rangeID rs) op a ->
  exists rs' s', apply_op op (rs, s) = Some (rs', s') /\ sim rs' s' (log_op a op) /\ rs_rangeID rs' = rs_rangeID rs.
Proof.
  intros Hsim Hop. pose proof Hsim as [Href [Hs Hd]]. destruct op as [[|e ents]|index term|index term|pb stateEng desc]; cbn [apply_op log_op op_ok] in *.
  - exists rs, s. done.
  - destruct Hop as (Hc & [H1 H2] & H3). pose proof (append_refines rs s a e ents Href Hc H1 H2 H3) as Href'.
    assert (Hid : rs_rangeID (append (e :: ents) rs s).1 = rs_rangeID rs /\ rs_split (append (e :: ents) rs s).1 = true).
    { unfold append. by destruct (last (e :: ents)). }
    destruct Hid as [Hid Hsp]. exists (append (e :: ents) rs s).1, (append (e :: ents) rs s).2. split; [by rewrite <- surjective_pairing|].
    split; [|done]. split; [done|]. split; [done|]. rewrite Hid. unfold Batch_Get in *.
    rewrite append_frame; [exact Hd|apply trunc_key_outside| |].
    + intros y Hy. pose proof (contiguous_elem _ _ y Hc Hy) as Hyi. cbn [length] in Hyi. destruct Href as ((Hn & _) & _). lia.
    + destruct Href as ((_ & Hb & _) & _ & Hl & _). lia.
  - destruct (truncate_refines rs s a index term Href Hop) as (rs' & s' & -> & Href' & Hid & Hsp & Hfr).
    exists rs', (stageTruncatedState rs' s'). split; [done|]. split; [|done]. unfold stageTruncatedState. rewrite Hsp, Hs. cbn [negb].
    destruct Href' as (Hok' & Ht' & Hl' & Hst'). split; [split_and!; [done..|by apply stored_put_trunc]|].
    split; [congruence|]. rewrite get_put_trunc. by rewrite Ht'.
  - exists (reset_log index term rs s).1, (reset_log index term rs s).2. split; [done|]. split; [by apply reset_refines|done].
  - destruct Hop as (st & Hload & Hz). destruct (restart_refines pb rs s a stateEng desc st Hsim Hload Hz) as (rs' & Hnew & Hsim').
    rewrite Hnew. exists rs', s. split; [done|]. split; [done|]. unfold newRaftStorage, rbind in Hnew.
    destruct (loadTruncatedState _ _ _ _); [|done]. destruct (last_loop _ _ _); [|done]. by injection Hnew as <-.
Qed.

(** C12: The raft storage is a log.  Through any sequence of appends (which may
    overwrite a divergent suffix), truncations, snapshot installations and
    restarts that raft's contract allows, on a store with its own raft
    engine: every operation succeeds, and the struct and the engine then
    hold exactly the abstract log.  FirstIndex, LastIndex and Term answer
    from it on every index, and Entries returns a page of the entries asked
    for: never empty, in order, within the size unless a single entry, and
    as long as the size allows; a read into the truncated part is told so. *)
Theorem raft_storage_refines_log ops rs s a :
  sim rs s a -> ops_ok (rs_rangeID rs) ops a ->
  exists rs' s', apply_ops ops (rs, s) = Some (rs', s') /\
    let a' := fold_left log_op ops a in
    sim rs' s' a' /\
    FirstIndex rs' = tsIndex (al_trunc a') + 1 /\ LastIndex rs' = al_last a' /\
    (forall i, in_u64 i -> Term s' rs' i =
      if i <? tsIndex (al_trunc a') then Err ErrCompacted
      else if i =? tsIndex (al_trunc a') then Ok (tsTerm (al_trunc a'))
      else match al_entries a' !! Z.to_nat (i - tsIndex (al_trunc a') - 1) with Some e => Ok (enTerm e) | None => Err ErrUnavailable end) /\
    (forall pb lo hi maxSize, lo <= tsIndex (al_trunc a') -> Entries pb s' rs' lo hi maxSize = Err ErrCompacted) /\
    (forall pb lo hi maxSize, tsIndex (al_trunc a') < lo -> lo < hi -> hi <= al_last a' + 1 -> total (al_entries a') < 2 ^ 64 ->
      exists ents, Entries pb s' rs' lo hi maxSize = Ok ents /\ ents <> [] /\ page maxSize (log_between lo hi a') ents).
Proof.
  revert rs s a. induction ops as [|op ops IH]; intros rs s a Hsim Hops; cbn [apply_ops fold_left].
  - exists rs, s. split; [done|]. pose proof Hsim as [Href _]. pose proof Href as (Hok & Ht & Hl & _). pose proof Hok as (Hn & Hb & _).
    split; [done|]. split; [unfold FirstIndex; rewrite Ht; apply u64_small; unfold in_u64, al_last in *; lia|]. split; [done|].
    split; [intros i Hi; by apply Term_refines|]. split; [|intros pb lo hi maxSize H1 H2 H3 H4; by apply Entries_refines].
    intros pb lo hi maxSize Hlo. unfold Entries. rewrite Ht. by destruct (Z.leb_spec lo (tsIndex (al_trunc a))); [|lia].
  - destruct Hops as [Hop Hops]. destruct (step_sim op rs s a Hsim Hop) as (rs1 & s1 & -> & Hsim1 & Hid). apply IH; [done|]. by rewrite Hid.
Qed.
End Refinement.

(** ** Deferred truncation never outruns the state engine *)

Section Deferral.
Context {P : Pebble} {EC : EntryCodec}.

(** The applied index a state engine without a WAL comes back with after a
    crash: that of the newest apply whose batch was flushed, [base] (where
    it started from) if none was. *)
Definition recovered (base : Z) (hist : list appliedSeq) (flushed : Z) : Z :=
  fold_left (fun m a => if asSeq a <=? flushed then Z.max m (asIndex a) else m) hist base.

Inductive defer_event :=
| DApply (idx seq : Z)          (* an entry applied in the batch at seq *)
| DFlush (seq : Z)              (* the engine flushed up to seq *)
| DPend (index term : Z)        (* a TruncateLog command applied *)
| DRun.                         (* the pending truncation gets its chance *)

Record dstate := mkD { d_hist : list appliedSeq; d_flushed : Z; d_def : deferral; d_rs : raftStorage; d_eng : store }.

Definition defer_step (st : dstate) (e : defer_event) : dstate :=
  match e with
  | DApply idx seq =>
      mkD (d_hist st ++ [mkSeq idx seq]) (d_flushed st) (noteAppliedSeq (rs_split (d_rs st)) idx seq (d_def st)) (d_rs st) (d_eng st)
  | DFlush seq => mkD (d_hist st) (Z.max (d_flushed st) seq) (d_def st) (d_rs st) (d_eng st)
  | DPend index term => mkD (d_hist st) (d_flushed st) (notePendingTruncate index term (d_def st)) (d_rs st) (d_eng st)
  | DRun =>
      let '(d, rs, b) := maybeTruncateDeferred (d_flushed st) 0 (d_def st) (d_rs st) (d_eng st) in mkD (d_hist st) (d_flushed st) d rs b
  end.

Lemma recovered_ge base hist flushed :
  base <= recovered base hist flushed /\ (forall a, a ∈ hist -> asSeq a <= flushed -> asIndex a <= recovered base hist flushed).
Proof.
  unfold recovered. revert base. induction hist as [|x hist IH]; intros base; cbn [fold_left].
  - split; [lia|]. intros a Ha. by apply not_elem_of_nil in Ha.
  - destruct (IH (if asSeq x <=? flushed then Z.max base (asIndex x) else base)) as [H1 H2].
    split; [destruct (asSeq x <=? flushed); lia|]. intros a Ha Hs. apply elem_of_cons in Ha as [->|Ha]; [|by apply H2].
    destruct (Z.leb_spec (asSeq x) flushed); lia.
Qed.

Lemma recovered_mono base hist more f1 f2 : f1 <= f2 -> recovered base hist f1 <= recovered base (hist ++ more) f2.
Proof.
  intros Hf. unfold recovered. rewrite fold_left_app.
  assert (Hl : forall l b1 b2, b1 <= b2 -> fold_left (fun m a => if asSeq a <=? f1 then Z.max m (asIndex a) else m) l b1 <=
    fold_left (fun m a => if asSeq a <=? f2 then Z.max m (asIndex a) else m) l b2).
  { induction l as [|x l IH]; intros b1 b2 Hb; [done|]. cbn [fold_left]. apply IH.
    destruct (Z.leb_spec (asSeq x) f1), (Z.leb_spec (asSeq x) f2); lia. }
  etransitivity; [by apply Hl|]. apply (recovered_ge _ more f2).
Qed.

Definition defer_inv (base : Z) (st : dstate) : Prop :=
  rs_split (d_rs st) = true /\ (forall a, a ∈ df_seqs (d_def st) -> a ∈ d_hist st) /\
  df_durable (d_def st) <= recovered base (d_hist st) (d_flushed st) /\
  tsIndex (rs_truncated (d_rs st)) <= recovered base (d_hist st) (d_flushed st).

Lemma consume_spec flushed seqs : forall durable,
  (forall a, a ∈ (consume flushed durable seqs).1 -> a ∈ seqs) /\
  ((consume flushed durable seqs).2 = durable \/
   exists a, a ∈ seqs /\ asSeq a <= flushed /\ (consume flushed durable seqs).2 = asIndex a).
Proof.
  induction seqs as [|x seqs IH]; intros durable; cbn [consume]; [by split; [|left]|].
  destruct (Z.leb_spec (asSeq x) flushed); [|by split; [|left]].
  destruct (IH (if durable <? asIndex x then asIndex x else durable)) as [H1 H2]. split; [intros a Ha; apply list_elem_of_further; by apply H1|].
  destruct H2 as [H2|(a & Ha & Hs & H2)]; [|right; exists a; split; [by apply list_elem_of_further|done]].
  destruct (durable <? asIndex x); [right; exists x; split; [apply list_elem_of_here|done]|by left].
Qed.

Lemma note_elems split idx seq d a : a ∈ df_seqs (noteAppliedSeq split idx seq d) -> a ∈ df_seqs d \/ a = mkSeq idx seq.
Proof.
  unfold noteAppliedSeq. destruct split; [|by left]. cbn [negb df_seqs]. destruct (_ && _ && _ && _); rewrite elem_of_app, list_elem_of_singleton;
    intros [Ha|Ha]; [left|by right|by left|by right]. rewrite <- (take_drop (length (df_seqs d) - 1) (df_seqs d)). apply elem_of_app. by left.
Qed.

Lemma stageTruncate_index index term rs b rs' b' :
  rs_stageTruncate index term rs b = Ok (rs', b') ->
  rs_split rs' = rs_split rs /\ tsIndex (rs_truncated rs') = Z.max (tsIndex (rs_truncated rs)) index.
Proof.
  unfold rs_stageTruncate. destruct (Z.leb_spec index (tsIndex (rs_truncated rs))); [intros [= <- <-]; split; [done|lia]|].
  destruct (rs_lastIndex rs <? index); [done|]. intros [= <- <-]. cbn. split; [done|lia].
Qed.

Lemma defer_step_inv base st e : defer_inv base st -> defer_inv base (defer_step st e).
Proof.
  intros (Hsp & Hsub & Hd & Ht). destruct e as [idx seq|seq|index term|]; cbn [defer_step].
  - split; [done|]. cbn [d_hist d_flushed d_def d_rs]. pose proof (recovered_mono base (d_hist st) [mkSeq idx seq] _ _ (Z.le_refl (d_flushed st))).
    split_and!; [|unfold noteAppliedSeq; rewrite Hsp; cbn [negb df_durable]; lia|lia].
    intros a Ha. apply note_elems in Ha as [Ha| ->]; apply elem_of_app; [left; by apply Hsub|right; apply list_elem_of_here].
  - pose proof (recovered_mono base (d_hist st) [] (d_flushed st) (Z.max (d_flushed st) seq) ltac:(lia)) as Hm. rewrite app_nil_r in Hm.
    split_and!; cbn [d_hist d_flushed d_def d_rs]; [done|done|lia|lia].
  - unfold notePendingTruncate. split_and!; cbn [d_hist d_flushed d_def d_rs df_seqs df_durable]; [done|destruct (_ <? _); done|destruct (_ <? _); done|done].
  - unfold maybeTruncateDeferred. destruct (tsIndex (df_pending (d_def st)) =? 0) eqn:Ez; [done|]. unfold durableAppliedLocked. rewrite Hsp. cbn [negb].
    destruct (consume_spec (d_flushed st) (df_seqs (d_def st)) (df_durable (d_def st))) as [H1 H2].
    destruct (consume _ _ _) as [seqs durable]. cbn [fst snd] in *.
    assert (Hdur : durable <= recovered base (d_hist st) (d_flushed st)).
    { destruct H2 as [->|(a & Ha & Hs & ->)]; [done|]. apply recovered_ge; [by apply Hsub|done]. }
    destruct (Z.ltb_spec durable (tsIndex (df_pending (d_def st)))); [split_and!; cbn [d_hist d_flushed d_def d_rs df_seqs df_durable]; [done|by intros a Ha; apply Hsub, H1|done|done]|].
    destruct (rs_stageTruncate _ _ _ _) as [[rs' b']|] eqn:Es; [|split_and!; cbn [d_hist d_flushed d_def d_rs df_seqs df_durable]; [done|by intros a Ha; apply Hsub, H1|done|done]].
    apply stageTruncate_index in Es as [Es1 Es2]. split_and!; cbn [d_hist d_flushed d_def d_rs df_seqs df_durable]; [congruence|by intros a Ha; apply Hsub, H1|done|lia].
Qed.

Context {PL : PebbleLaws P} {ECL : EntryCodecLaws EC}.

(** The engine holds the log [a] less a prefix. *)
Definition suffix_of (a : raftLog) (st : dstate) : Prop :=
  exists a' n, refines_log (d_rs st) (d_eng st) a' /\ (n <= length (al_entries a))%nat /\
    al_entries a' = drop n (al_entries a) /\ tsIndex (al_trunc a') = tsIndex (al_trunc a) + Z.of_nat n.

Lemma run_suffix a rs b rs' b' index term a' n :
  refines_log rs b a' -> (n <= length (al_entries a))%nat -> al_entries a' = drop n (al_entries a) ->
  tsIndex (al_trunc a') = tsIndex (al_trunc a) + Z.of_nat n -> rs_stageTruncate index term rs b = Ok (rs', b') ->
  exists a2 m, refines_log rs' (stageTruncatedState rs' b') a2 /\ (m <= length (al_entries a))%nat /\
    al_entries a2 = drop m (al_entries a) /\ tsIndex (al_trunc a2) = tsIndex (al_trunc a) + Z.of_nat m /\ rs_rangeID rs' = rs_rangeID rs.
Proof.
  intros Href Hn He Ht Hs. pose proof Href as (_ & Htr & Hl & _).
  assert (Hle : index <= al_last a').
  { unfold rs_stageTruncate in Hs. rewrite Htr, Hl in Hs. destruct (Z.leb_spec index (tsIndex (al_trunc a'))) as [Hi|Hi]; [unfold al_last; lia|].
    destruct (Z.ltb_spec (al_last a') index); [done|lia]. }
  destruct (truncate_refines rs b a' index term Href Hle) as (rs2 & b2 & Hs2 & Href2 & Hid & _). rewrite Hs in Hs2. injection Hs2 as <- <-.
  assert (Hput : refines_log rs' (stageTruncatedState rs' b') (log_truncate index term a')).
  { destruct Href2 as (H1 & H2 & H3 & H4). split_and!; [done..|]. unfold stageTruncatedState. destruct (rs_split rs'); [by apply stored_put_trunc|done]. }
  unfold log_truncate in *. destruct (Z.leb_spec index (tsIndex (al_trunc a'))) as [Hi|Hi]; [by exists a', n|].
  exists (mkLog (mkTrunc index term) (drop (Z.to_nat (index - tsIndex (al_trunc a'))) (al_entries a'))), (n + Z.to_nat (index - tsIndex (al_trunc a')))%nat.
  cbn [al_entries al_trunc tsIndex]. unfold al_last in Hle. rewrite He, length_drop in Hle. split_and!; [done|lia| |lia|done]. by rewrite He, drop_drop.
Qed.

Lemma defer_step_suffix a st e : suffix_of a st -> suffix_of a (defer_step st e) /\ rs_rangeID (d_rs (defer_step st e)) = rs_rangeID (d_rs st).
Proof.
  intros Hsuf. destruct e as [idx seq|seq|index term|]; try done. cbn [defer_step]. unfold maybeTruncateDeferred.
  destruct (tsIndex (df_pending (d_def st)) =? 0); [done|]. destruct (durableAppliedLocked _ _ _ _) as [d' durable].
  destruct (_ <? _); [done|]. destruct (rs_stageTruncate _ _ _ _) as [[rs' b']|] eqn:Es; [|done].
  destruct Hsuf as (a' & n & Href & Hn & He & Ht). destruct (run_suffix a _ _ _ _ _ _ a' n Href Hn He Ht Es) as (a2 & m & H1 & H2 & H3 & H4 & H5).
  split; [by exists a2, m|exact H5].
Qed.

(** C23: A crash never needs a truncated entry.  On a store whose state engine
    has no WAL, over any schedule of applies, flushes, truncation commands and
    truncation passes from a log [a]: every entry above the applied index the
    state engine comes back with if it crashes now is still stored in the
    raft engine, unchanged, and the replay of any run of them reads the entries
    of [a] (a page of them, within the size limit).  The truncated index is at
    or below that applied index. *)
Theorem deferred_truncation_recoverable pb base es st a :
  defer_inv base st -> refines_log (d_rs st) (d_eng st) a -> total (al_entries a) < 2 ^ 64 ->
  let st' := fold_left defer_step es st in
  let applied := recovered base (d_hist st') (d_flushed st') in
  tsIndex (rs_truncated (d_rs st')) <= applied /\
  (forall e, e ∈ al_entries a -> applied < enIndex e ->
     Batch_Get (d_eng st') (RaftLogKey (rs_rangeID (d_rs st)) (enIndex e)) = Some (ent_marshal e)) /\
  (forall lo hi maxSize, applied < lo -> lo < hi -> hi <= al_last a + 1 ->
     exists ents, Entries pb (d_eng st') (d_rs st') lo hi maxSize = Ok ents /\ ents <> [] /\ page maxSize (log_between lo hi a) ents).
Proof.
  intros Hi Href Htot. cbn zeta. assert (Hsuf : suffix_of a st) by (exists a, 0%nat; split_and!; [done|lia|done|lia]).
  assert (Hall : defer_inv base (fold_left defer_step es st) /\ suffix_of a (fold_left defer_step es st) /\
    rs_rangeID (d_rs (fold_left defer_step es st)) = rs_rangeID (d_rs st)).
  { clear Href. revert st Hi Hsuf. induction es as [|e es IH]; intros st Hi Hsuf; [done|]. destruct (defer_step_suffix a st e Hsuf) as [Hsuf' Hid].
    cbn [fold_left]. rewrite <- Hid. apply IH; [by apply defer_step_inv|done]. }
  destruct Href as ((_ & _ & Hc) & _). set (st' := fold_left defer_step es st) in *. set (applied := recovered _ _ _) in *.
  destruct Hall as ((_ & _ & _ & Ht) & (a' & n & Href' & Hn & He & Htr) & Hid). pose proof Href' as (Hok' & Ht' & _ & Hst').
  fold applied in Ht. rewrite Ht' in Ht |- *. rewrite Hid in Hst'. split; [done|]. split.
  - intros e Hin Hlt. eapply stored_get; [exact Hst'|apply Hok'|]. rewrite He. apply (contiguous_drop _ (tsIndex (al_trunc a) + 1)); [done|]. split; [done|lia].
  - intros lo hi maxSize Hlo Hhi Hle. assert (Hb : log_between lo hi a' = log_between lo hi a).
    { unfold log_between. rewrite He. rewrite <- (take_drop n (al_entries a)) at 2. rewrite filter_app.
      assert (filter (fun e => lo <= enIndex e < hi) (take n (al_entries a)) = []) as ->; [|done].
      destruct (filter _ (take n (al_entries a))) as [|x l] eqn:Ef; [done|]. assert (Hx : x ∈ x :: l) by apply list_elem_of_here.
      rewrite <- Ef in Hx. apply list_elem_of_filter in Hx as [Hx1 Hx]. apply (contiguous_take _ (tsIndex (al_trunc a) + 1)) in Hx as [_ Hx]; [lia|done]. }
    rewrite <- Hb. apply Entries_refines; [done|lia|done| |].
    + unfold al_last in *. rewrite He, length_drop. lia.
    + rewrite He. rewrite <- (take_drop n (al_entries a)), total_app in Htot. pose proof (total_nonneg (take n (al_entries a))). lia.
Qed.
End Deferral.

(** ** Witnesses *)

#[export] Instance rentry_tokens : Tokens rentry.
Proof. refine (via (fun t => (enIndex t, enTerm t, enType t, enData t)) (fun '(a, b, c, d) => mkEnt a b c d) _). by intros []. Defined.
#[export] Instance hard_tokens : Tokens hardState.
Proof. refine (via (fun t => (hsTerm t, hsVote t, hsCommit t)) (fun '(a, b, c) => mkHS a b c) _). by intros []. Defined.
#[export] Instance token_entry_codec : EntryCodec := {|
  ent_marshal := code_with json_open; ent_unmarshal := uncode; ent_size e := Z.of_nat (length (enData e));
  hs_marshal := code_with json_open; hs_unmarshal := uncode; trunc_marshal := code_with json_open; trunc_unmarshal := uncode |}.
#[export] Instance token_entry_codec_laws : EntryCodecLaws token_entry_codec.
Proof. split; intros; first [apply uncode_code|discriminate|apply Zle_0_nat]. Qed.

Definition ex_ent (i t : Z) : rentry := mkEnt i t 0 [i; t].
Definition ex_rs : raftStorage := mkRS true 1 0 [1] 0 (mkTrunc 0 0).
Definition ex_state_eng : store (Pebble := map_pebble) := (∅ : gmap (list Z) (list Z)).

(** Four entries; the last two overwritten by a new term; a truncation to 2;
    a restart. *)
Definition ex_ops : list (raft_op (P := map_pebble)) :=
  [RAppend [ex_ent 1 1; ex_ent 2 1; ex_ent 3 1; ex_ent 4 1]; RAppend [ex_ent 3 2]; RTruncate 2 1; RRestart true ex_state_eng ex_range].

Lemma raft_storage_refines_log_witness :
  exists rs' s', apply_ops ex_ops (ex_rs, ex_state_eng) = Some (rs', s') /\ FirstIndex rs' = 3 /\ LastIndex rs' = 3 /\ Term s' rs' 3 = Ok 2.
Proof.
  destruct (raft_storage_refines_log ex_ops ex_rs ex_state_eng (mkLog (mkTrunc 0 0) [])) as (rs' & s' & Hr & _ & H1 & H2 & H3 & _).
  - split; [|split; [reflexivity|vm_compute; reflexivity]]. split; [split; [reflexivity|split; [reflexivity|exact I]]|].
    split; [reflexivity|]. split; [reflexivity|]. intros k v _. split; [intros Hg; vm_compute in Hg; discriminate|].
    intros (e & He & _). by apply not_elem_of_nil in He.
  - refine (conj _ (conj _ (conj _ (conj _ I)))).
    + repeat split; vm_compute; first [reflexivity|discriminate].
    + repeat split; vm_compute; first [reflexivity|discriminate].
    + vm_compute. discriminate.
    + exists replicaState0. split; [reflexivity|discriminate].
  - exists rs', s'. split; [exact Hr|]. split; [exact H1|]. split; [exact H2|]. rewrite H3 by (split; reflexivity || discriminate). reflexivity.
Defined.

(** Two entries in the log; both applied, the first flushed; a truncation to 1
    is deferred, then done: entry 2 is still there. *)
Definition ex_log2 : raftStorage * store (Pebble := map_pebble) := append [ex_ent 1 1; ex_ent 2 1] ex_rs ex_state_eng.

Lemma deferred_truncation_recoverable_witness :
  let st' := fold_left defer_step [DApply 1 10; DApply 2 20; DPend 1 1; DRun; DFlush 15; DRun] (mkD [] 0 deferral0 ex_log2.1 ex_log2.2) in
  rs_truncated (d_rs st') = mkTrunc 1 1 /\
  Batch_Get (d_eng st') (RaftLogKey 1 2) = Some (ent_marshal (ex_ent 2 1)).
Proof.
  cbn zeta. split; [vm_compute; reflexivity|].
  assert (Hempty : refines_log ex_rs ex_state_eng (mkLog (mkTrunc 0 0) [])).
  { split; [split; [reflexivity|split; [reflexivity|exact I]]|]. split; [reflexivity|]. split; [reflexivity|].
    intros k v _. split; [intros Hg; vm_compute in Hg; discriminate|]. intros (e & He & _). by apply not_elem_of_nil in He. }
  refine (proj1 (proj2 (deferred_truncation_recoverable true 0 [DApply 1 10; DApply 2 20; DPend 1 1; DRun; DFlush 15; DRun]
    (mkD [] 0 deferral0 ex_log2.1 ex_log2.2) (log_append [ex_ent 1 1; ex_ent 2 1] (mkLog (mkTrunc 0 0) [])) _ _ _)) (ex_ent 2 1) _ _).
  - exact (conj eq_refl (conj (fun a Ha => Ha) (conj (Z.le_refl 0) (Z.le_refl 0)))).
  - cbn [d_rs d_eng]. apply append_refines; [exact Hempty|repeat split; reflexivity|reflexivity|vm_compute; discriminate|reflexivity].
  - vm_compute. reflexivity.
  - apply list_elem_of_further, list_elem_of_here.
  - vm_compute. reflexivity.
Defined.
