(* ===== verification/Snapshot.v ===== *)
(** * Range snapshots (pkg/kvserver/replicate.go, catchup.go)

    A leader streams a range's transaction records and MVCC data, read from
    one engine snapshot, with a header; the receiver replaces its copy of
    the range with them.  The stream is the list of the chunks [next]
    returns; a failed stream installs nothing.  The state engine is modelled
    with the raft keys on it, or (split stores) apart, where RaftStorage.v
    resets the log. *)

From S2P Require Import Prelude Encoding Hlc Keys MvccKey Pebble Enginepb Mvcc MvccView MvccRead MvccWrite MvccState MvccTxn MvccScan.
From S2P Require Import MvccRange MvccRangeSpec Kvpb KvpbWire TxnRecord TxnRecordSpec Gc Strconv Apply ApplySpec Latch TsCache Execute RaftStorage RaftStorageSpec.

#[local] Abbreviation length := Datatypes.length.
#[local] Open Scope list_scope.
Open Scope Z_scope.

Record snapshotHeader := mkSnapHeader {
  shDesc : RangeDescriptor; shReplicaID : Z; shAppliedIndex : Z; shTerm : Z; shGCThreshold : Timestamp; shSizeBytes : Z;
  shPrior : option RangeDescriptor }.

Definition snapshotChunkSize : nat := 256.

Inductive snap_err := ErrSnapTerm (e : raft_err) | ErrSnapCorrupt | ErrSnapStale | ErrSnapBounds | ErrSnapUnstaged | ErrSnapMismatch.

Section Snapshot.
Context {P : Pebble} {SC : StateCodec} {EC : EntryCodec}.

(** The rows of a span, in order. *)
Fixpoint span_loop (fuel : nat) (it : pebbleIter) (out : list (bytes * bytes)) : list (bytes * bytes) :=
  match fuel with
  | O => out
  | S fuel => match cur it with None => out | Some kv => span_loop fuel (INext it) (out ++ [kv]) end
  end.
Definition span_rows (pb : bool) (snap : store) (lo hi : bytes) : list (bytes * bytes) :=
  let it := NewIter pb snap lo hi in span_loop (S (length (it_view (pit it)))) (SeekGE it lo) [].

(** What successive calls of [next] return: full chunks across the spans, a
    shorter one, then the empty one that ends the stream. *)
Fixpoint stream_chunks (fuel : nat) (rows : list (bytes * bytes)) : list (list (bytes * bytes)) :=
  match fuel with
  | O => []
  | S fuel => match rows with [] => [] | _ => take snapshotChunkSize rows :: stream_chunks fuel (drop snapshotChunkSize rows) end
  end.

Definition snapshot_rows (pb : bool) (snap : store) (desc : RangeDescriptor) : list (bytes * bytes) :=
  let '(loL, hiL) := RangeLocalAddressedSpan (StartKey desc) (EndKey desc) in
  span_rows pb snap loL hiL ++ span_rows pb snap (EncodeMVCCKey (StartKey desc) ts0) (EncodeMVCCKey (EndKey desc) ts0).

(** The sender's side: the header from the applied state in the snapshot. *)
Definition streamSnapshot (pb : bool) (snap raftEng : store) (rs : raftStorage) (newDesc : RangeDescriptor) (newReplicaID : Z)
    (prior : option RangeDescriptor) : result snap_err (snapshotHeader * list (list (bytes * bytes))) :=
  match loadReplicaStateFrom snap (rs_rangeID rs) with
  | None => Err ErrSnapCorrupt
  | Some st =>
      let* term :=
        if 0 <? rsAppliedIndex st
        then match Term raftEng rs (rsAppliedIndex st) with Ok t => Ok t | Err e => Err (ErrSnapTerm e) end
        else Ok 0 in
      let rows := snapshot_rows pb snap newDesc in
      Ok (mkSnapHeader newDesc newReplicaID (rsAppliedIndex st) term (rsGCThreshold st) (rsSizeBytes st) prior,
          stream_chunks (S (length rows)) rows)
  end.

Definition put_chunk (b : store) (kvs : list (bytes * bytes)) : store := fold_left (fun b kv => Batch_Put b kv.1 kv.2) kvs b.

(** The applied state a snapshot leaves. *)
Definition snapshot_state (h : snapshotHeader) : replicaState :=
  mkState (shAppliedIndex h) (mkTrunc (shAppliedIndex h) (shTerm h)) (shGCThreshold h) (shSizeBytes h) false 0 ts0.

(** Staging over an existing replica. *)
Definition installSnapshot (split : bool) (mu : replicaMu) (h : snapshotHeader) (chunks : list (list (bytes * bytes))) (s : store)
    : result snap_err store :=
  if shAppliedIndex h <=? muAppliedIndex mu then Err ErrSnapStale
  else if negb (beqb (StartKey (muDesc mu)) (StartKey (shDesc h))) || negb (beqb (EndKey (muDesc mu)) (EndKey (shDesc h)))
  then Err ErrSnapBounds
  else
    let id := RangeID (muDesc mu) in
    let b := Batch_DeleteRange s (EncodeMVCCKey (StartKey (shDesc h)) ts0) (EncodeMVCCKey (EndKey (shDesc h)) ts0) in
    let '(loL, hiL) := RangeLocalAddressedSpan (StartKey (shDesc h)) (EndKey (shDesc h)) in
    let b := Batch_DeleteRange b loL hiL in
    let b := if split then b else Batch_DeleteRange b (RaftLogPrefix id) (PrefixEnd (RaftLogPrefix id)) in
    let b := fold_left put_chunk chunks b in
    Ok (PutRangeDescriptor (shDesc h) (putReplicaState id (snapshot_state h) b)).

(** The commit, when raft restores to the index of the staged snapshot:
    what becomes of the replica's memory. *)
Definition applySnapshot (metaIndex : Z) (pending : option (snapshotHeader * store)) (r : replica) : result snap_err replica :=
  let mu := r_mu r in
  match pending with
  | None => if metaIndex <=? muAppliedIndex mu then Ok r else Err ErrSnapUnstaged
  | Some (h, b) =>
      if negb (shAppliedIndex h =? metaIndex) then Err ErrSnapMismatch
      else if shAppliedIndex h <=? muAppliedIndex mu then Ok r
      else
        Ok (mkReplica
              (mkMu (shDesc h) (shAppliedIndex h) (mkTrunc (shAppliedIndex h) (shTerm h)) (shGCThreshold h) (shSizeBytes h)
                 (muFrozen mu) (muMergedInto mu) (muClosedTS mu)) b)
  end.

(** A new replica: the stream onto a store without the range. *)
Definition ApplySnapshotStream (h : snapshotHeader) (chunks : list (list (bytes * bytes))) (s : store) : store :=
  let b := fold_left put_chunk chunks s in
  PutRangeDescriptor (shDesc h) (putReplicaState (RangeID (shDesc h)) (snapshot_state h) b).
End Snapshot.

(** ** What arrives *)

Section SnapshotSpec.
Context {P : Pebble} {PL : PebbleLaws P} {C : MetaCodec} {SC : StateCodec} {SL : StateCodecLaws SC} {EC : EntryCodec}.

Lemma span_loop_at l : forall fuel it pre out,
  plain_at it pre l -> (length l < fuel)%nat -> span_loop fuel it out = out ++ l.
Proof.
  induction l as [|e l IH]; intros fuel it pre out Hat Hf; (destruct fuel as [|fuel]; [cbn in Hf; lia|]); cbn [span_loop];
    rewrite (plain_cur _ _ _ Hat); cbn [head]; [by rewrite app_nil_r|].
  apply plain_next in Hat. cbn in Hf. rewrite (IH fuel _ _ (out ++ [e]) Hat) by lia. by rewrite <- app_assoc.
Qed.

Lemma span_rows_eq pb s lo hi : span_rows pb s lo hi = bounded lo hi (st_entries s).
Proof.
  unfold span_rows. destruct (seek_start pb s lo hi) as [Hat ->]. by rewrite (span_loop_at _ _ _ _ [] Hat) by lia.
Qed.

Lemma concat_stream fuel : forall rows, (length rows < fuel)%nat -> concat (stream_chunks fuel rows) = rows.
Proof.
  induction fuel as [|fuel IH]; intros rows Hf; [lia|]. cbn [stream_chunks]. destruct rows as [|r rows]; [done|]. cbn [concat].
  rewrite IH; [apply take_drop|]. rewrite length_drop. unfold snapshotChunkSize. cbn [length] in *. lia.
Qed.

Lemma put_chunks chunks : forall b, fold_left put_chunk chunks b = put_chunk b (concat chunks).
Proof.
  induction chunks as [|c chunks IH]; intros b; [done|]. cbn [fold_left concat]. rewrite IH. unfold put_chunk. by rewrite fold_left_app.
Qed.

Lemma put_rows_out x rows : forall b, (forall v, (x, v) ∉ rows) -> st_get (put_chunk b rows) x = st_get b x.
Proof.
  induction rows as [|[y w] rows IH]; intros b Hx; [done|]. unfold put_chunk in *. cbn [fold_left fst snd]. rewrite IH.
  - apply get_set_ne. intros ->. apply (Hx w), list_elem_of_here.
  - intros v Hv. apply (Hx v). by apply list_elem_of_further.
Qed.

Lemma put_rows_in x v rows : forall b, (x, v) ∈ rows -> (forall w, (x, w) ∈ rows -> w = v) -> st_get (put_chunk b rows) x = Some v.
Proof.
  induction rows as [|[y w] rows IH]; intros b Hin Hf; [by apply not_elem_of_nil in Hin|]. unfold put_chunk in *. cbn [fold_left fst snd].
  assert (Hd : (exists u, (x, u) ∈ rows) \/ ~ (exists u, (x, u) ∈ rows)).
  { destruct (decide (x ∈ map fst rows)) as [Hm|Hm]; [left|right].
    - apply list_elem_of_fmap in Hm as ([x' u] & -> & Hu). by exists u.
    - intros [u Hu]. apply Hm, list_elem_of_fmap. by exists (x, u). }
  destruct Hd as [[u Hu]|Hno].
  - assert (u = v) as -> by (apply Hf; by apply list_elem_of_further). apply IH; [done|]. intros u Hu'. apply Hf. by apply list_elem_of_further.
  - change (fold_left _ rows ?b') with (put_chunk b' rows). rewrite put_rows_out by (intros u Hu; apply Hno; by exists u).
    apply elem_of_cons in Hin as [[= <- <-]|Hin]; [apply get_set_eq|]. destruct Hno. by exists v.
Qed.

(** Keys between two keys with a common prefix have it. *)
Lemma between_prefix p : forall a b x, p ++ a ≼ x -> x ≺ p ++ b -> exists r, x = p ++ r.
Proof.
  induction p as [|c p IH]; intros a b x H1 H2; [by exists x|]. destruct x as [|d x]; [done|]. cbn [app] in *.
  assert (d = c) as ->.
  { cbn [bcompare] in H1, H2. destruct (Z.compare_spec c d), (Z.compare_spec d c); try done; lia. }
  cbn [bcompare] in H1, H2. rewrite Z.compare_refl in H1, H2. destruct (IH a b x H1 H2) as [r ->]. by exists r.
Qed.

Definition in_data_span (d : RangeDescriptor) (x : bytes) : Prop := metaKey (StartKey d) ≼ x /\ x ≺ metaKey (EndKey d).
Definition in_local_span (d : RangeDescriptor) (x : bytes) : Prop :=
  let '(lo, hi) := RangeLocalAddressedSpan (StartKey d) (EndKey d) in lo ≼ x /\ x ≺ hi.
Definition replicated (d : RangeDescriptor) (x : bytes) : Prop := in_data_span d x \/ in_local_span d x.

Lemma snapshot_rows_elem pb s d x v : (x, v) ∈ snapshot_rows pb s d <-> st_get s x = Some v /\ replicated d x.
Proof.
  unfold snapshot_rows, replicated, in_local_span, in_data_span. destruct (RangeLocalAddressedSpan _ _) as [lo hi].
  rewrite elem_of_app, !span_rows_eq, !elem_of_bounded, <- !get_entries, !EncodeMVCCKey_meta. cbn [fst]. tauto.
Qed.

(** The replica's own records are not part of the replicated content. *)
Lemma local_span_prefix d x : in_local_span d x -> exists r, x = localAddressedPrefix ++ r.
Proof.
  unfold in_local_span. rewrite RangeLocalAddressedSpan_eq. intros [H1 H2]. by eapply between_prefix.
Qed.

Lemma data_span_global d x : [2] ≼ StartKey d -> in_data_span d x -> IsLocal x = false.
Proof.
  intros H1 [H2 _]. eapply (above_local (metaKey (StartKey d))); [|exact H2].
  rewrite <- (app_nil_r (metaKey (StartKey d))). by apply metaKey_above2.
Qed.

Lemma own_key_not_replicated d id suffix :
  [2] ≼ StartKey d -> ~ replicated d (makeRangeLocalKey id suffix).
Proof.
  intros H1 [Hd|Hl].
  - apply (data_span_global d _ H1) in Hd. by rewrite makeRangeLocalKey_eq in Hd.
  - apply local_span_prefix in Hl as [r Hr]. rewrite makeRangeLocalKey_eq in Hr. discriminate.
Qed.

(** The content of the receiver's engine after an installation. *)
Lemma install_content split mu h pb L F F' :
  [2] ≼ StartKey (shDesc h) -> RangeID (shDesc h) = RangeID (muDesc mu) ->
  installSnapshot split mu h (stream_chunks (S (length (snapshot_rows pb L (shDesc h)))) (snapshot_rows pb L (shDesc h))) F = Ok F' ->
  (forall x, replicated (shDesc h) x -> st_get F' x = st_get L x) /\
  (forall x, ~ replicated (shDesc h) x -> x <> RaftAppliedStateKey (RangeID (muDesc mu)) -> x <> RangeDescriptorKey (RangeID (muDesc mu)) ->
     (split = true \/ ~ in_log_span (RangeID (muDesc mu)) x) -> st_get F' x = st_get F x) /\
  loadReplicaStateFrom F' (RangeID (muDesc mu)) = Some (snapshot_state h) /\
  loadRangeDescriptor F' (RangeID (muDesc mu)) = Some (shDesc h).
Proof.
  intros Hs Hid. unfold installSnapshot. destruct (_ <=? _); [done|]. destruct (negb _ || negb _); [done|].
  destruct (RangeLocalAddressedSpan (StartKey (shDesc h)) (EndKey (shDesc h))) as [lo hi] eqn:El.
  rewrite put_chunks, concat_stream by lia. set (id := RangeID (muDesc mu)) in *. set (rows := snapshot_rows pb L (shDesc h)).
  assert (Hfun : forall x v w, (x, v) ∈ rows -> (x, w) ∈ rows -> w = v).
  { intros x v w Hv Hw. apply snapshot_rows_elem in Hv as [Hv _], Hw as [Hw _]. congruence. }
  set (b2 := Batch_DeleteRange (Batch_DeleteRange F _ _) lo hi).
  set (b3 := if split then b2 else Batch_DeleteRange b2 _ _). intros [= <-].
  assert (Hown : forall x, x <> RaftAppliedStateKey id -> x <> RangeDescriptorKey id ->
    st_get (PutRangeDescriptor (shDesc h) (putReplicaState id (snapshot_state h) (put_chunk b3 rows))) x = st_get (put_chunk b3 rows) x).
  { intros x H1 H2. unfold PutRangeDescriptor, putReplicaState, Batch_Put. rewrite Hid. by rewrite !get_set_ne by congruence. }
  split_and!.
  - intros x Hx. rewrite Hown by (intros ->; by apply (own_key_not_replicated _ _ _ Hs) in Hx). destruct (st_get L x) as [v|] eqn:Ev.
    + apply put_rows_in; [by apply snapshot_rows_elem|]. intros w Hw. eapply Hfun; [|exact Hw]. by apply snapshot_rows_elem.
    + rewrite put_rows_out by (intros v Hv; apply snapshot_rows_elem in Hv as [Hv _]; congruence).
      assert (Hdel : forall s a b, st_get s x = None -> st_get (Batch_DeleteRange s a b) x = None).
      { intros s a b Hg. unfold Batch_DeleteRange. destruct (decide (a ≼ x /\ x ≺ b)) as [[? ?]|]; [by apply get_del_range_in|].
        by rewrite get_del_range_out. }
      assert (st_get b2 x = None) as Hb2.
      { destruct Hx as [[H1 H2]|Hx]; [apply Hdel; apply get_del_range_in; by rewrite EncodeMVCCKey_meta|].
        unfold in_local_span in Hx. rewrite El in Hx. destruct Hx. by apply get_del_range_in. }
      unfold b3. destruct split; [done|by apply Hdel].
  - intros x Hx H1 H2 Hlog. rewrite Hown by done. rewrite put_rows_out by (intros v Hv; by apply snapshot_rows_elem in Hv as [_ Hv]).
    assert (st_get b2 x = st_get F x) as Hb2.
    { unfold b2, Batch_DeleteRange. rewrite !get_del_range_out; [done|rewrite !EncodeMVCCKey_meta; intros Hd; apply Hx; by left|].
      intros Hd. apply Hx. right. unfold in_local_span. by rewrite El. }
    unfold b3. destruct split; [done|]. unfold Batch_DeleteRange at 1. rewrite get_del_range_out; [done|]. by destruct Hlog.
  - unfold loadReplicaStateFrom, Batch_Get, PutRangeDescriptor, putReplicaState, Batch_Put.
    rewrite get_set_ne by (rewrite Hid; intros E; symmetry in E; by apply state_key_not_desc in E). rewrite get_set_eq.
    pose proof (state_nonempty (snapshot_state h)). destruct (state_marshal _) eqn:E; [done|]. cbn. rewrite <- E. apply state_roundtrip.
  - unfold loadRangeDescriptor, Batch_Get, PutRangeDescriptor, Batch_Put. rewrite Hid, get_set_eq.
    pose proof (desc_nonempty (shDesc h)). destruct (desc_marshal _) eqn:E; [done|]. cbn. rewrite <- E. apply desc_roundtrip.
Qed.

Lemma log_span_local id x : in_log_span id x -> IsLocal x = true.
Proof.
  intros [H1 H2]. destruct (PrefixEnd_shape (RaftLogPrefix id)) as (p & c & n & Hp & Hc & He); [by apply Exists_head|].
  rewrite He in H2. destruct p as [|d p].
  - exfalso. cbn [app] in Hp. assert (RaftLogPrefix id !! 1%nat = Some 117) as H117 by done. rewrite Hp in H117. cbn in H117.
    by destruct n.
  - assert (d = 1) as -> by (assert (RaftLogPrefix id !! 0%nat = Some 1) as H0 by done; rewrite Hp in H0; by injection H0).
    destruct (between_prefix [1] (drop 1 (RaftLogPrefix id)) (p ++ [c + 1]) x H1 H2) as [r ->]. done.
Qed.

(** Well-formedness is a matter of each key. *)
Lemma store_wf_pointwise s : (forall x v, IsLocal x = false -> st_get s x = Some v -> exists s', store_wf s' /\ st_get s' x = Some v) -> store_wf s.
Proof.
  intros H. split.
  - intros x v Hg Hl. destruct (H x v Hl Hg) as (s' & Hwf & Hg'). by eapply wf_keys.
  - intros k raw Hl Hg. destruct (H (metaKey k) raw) as (s' & Hwf & Hg'); [rewrite <- (app_nil_r (metaKey k)); by rewrite metaKey_local|done|].
    by eapply wf_meta.
  - intros k t raw Hl Ht Hg. destruct (H (vkey k t) raw) as (s' & Hwf & Hg'); [by rewrite vkey_local|done|]. by eapply wf_value.
Qed.

Lemma same_reads_in_span d s s' pb k ts opts :
  store_wf s -> store_wf s' -> span_ok (StartKey d) (EndKey d) -> bytes_ok k -> ContainsKey d k = true -> opts_ok ts opts ->
  (forall x, in_data_span d x -> st_get s' x = st_get s x) -> MVCCGet pb s' k ts opts = MVCCGet pb s k ts opts.
Proof.
  intros Hwf Hwf' (Hb1 & Hb2 & H2) Hk Hc Ho Hsame. unfold ContainsKey in Hc. apply andb_true_iff in Hc as [Hc1 Hc2].
  apply bleb_le in Hc1. apply bltb_lt in Hc2. pose proof (above_local _ k H2 Hc1) as Hl.
  destruct (is_view_exists s k Hwf Hl) as (mo & vs & Hv). pose proof Hv as [Hv1 Hvs].
  rewrite (MVCCGet_ref pb s k ts opts mo vs Hwf Hl Ho Hv1 Hvs). apply MVCCGet_ref; [done..| |done]. rewrite <- Hv1.
  apply sorted_ext; [apply bounded_sorted..|]. intros [x v]. rewrite !elem_of_key_bounds. cbn [fst snd].
  enough (Heq : forall r, x = metaKey k ++ r -> st_get s' x = st_get s x) by (split; intros [Hg [r Hr]]; (split; [|by exists r]); by rewrite (Heq r Hr) in *).
  intros r ->. apply Hsame. by apply metaKey_in_span.
Qed.

(** C11: A snapshot carries the whole range.  When a stream from a leader's
    engine snapshot is installed on a follower of the same range: every
    replicated engine key of the range (data, intents, transaction records)
    then holds exactly what the leader held, stale content is gone, and no
    other range's key changes; every MVCC read of a key of the range answers
    as on the leader; and the follower restarts from the leader's applied
    index, GC threshold and size. *)
Theorem snapshot_transfers_range split pb mu L raftEng rs desc rid prior h chunks F F' st :
  store_wf L -> store_wf F -> span_ok (StartKey desc) (EndKey desc) -> RangeID desc = RangeID (muDesc mu) ->
  rs_rangeID rs = RangeID desc -> loadReplicaStateFrom L (RangeID desc) = Some st ->
  streamSnapshot pb L raftEng rs desc rid prior = Ok (h, chunks) -> installSnapshot split mu h chunks F = Ok F' ->
  (forall x, replicated desc x -> st_get F' x = st_get L x) /\
  (forall x, ~ replicated desc x -> x <> RaftAppliedStateKey (RangeID desc) -> x <> RangeDescriptorKey (RangeID desc) ->
     (split = true \/ ~ in_log_span (RangeID desc) x) -> st_get F' x = st_get F x) /\
  (forall k ts opts, bytes_ok k -> ContainsKey desc k = true -> opts_ok ts opts ->
     MVCCGet pb F' k ts opts = MVCCGet pb L k ts opts) /\
  exists mu', recover desc F' = Some mu' /\ muAppliedIndex mu' = rsAppliedIndex st /\ muGCThreshold mu' = rsGCThreshold st /\
    muSizeBytes mu' = rsSizeBytes st /\ tsIndex (muTruncated mu') = rsAppliedIndex st.
Proof.
  intros HL HF Hsp Hid Hrs Hst. unfold streamSnapshot. rewrite Hrs, Hst.
  destruct (if 0 <? rsAppliedIndex st then _ else _) as [term|]; [|done]. cbn [rbind]. intros [= <- <-] Hin.
  pose proof Hsp as (Hb1 & Hb2 & H2). apply install_content in Hin as (H3 & H4 & H5 & H6); [|done..]. cbn [shDesc] in *. rewrite <- Hid in *.
  assert (HF' : store_wf F').
  { apply store_wf_pointwise. intros x v Hl Hg. assert (Hd : replicated desc x \/ ~ replicated desc x).
    { unfold replicated, in_data_span, in_local_span. destruct (RangeLocalAddressedSpan _ _) as [lo hi].
      destruct (decide (metaKey (StartKey desc) ≼ x /\ x ≺ metaKey (EndKey desc))), (decide (lo ≼ x /\ x ≺ hi)); tauto. }
    destruct Hd as [Hx|Hx]; [exists L; split; [done|by rewrite <- H3]|]. exists F. split; [done|]. rewrite <- H4; [done|done|..].
    - intros ->. discriminate.
    - intros ->. discriminate.
    - right. intros Hp. apply log_span_local in Hp. congruence. }
  split; [done|]. split; [done|]. split.
  - intros k ts opts Hk Hc Ho. eapply same_reads_in_span; [done..|]. intros x Hx. apply H3. by left.
  - unfold recover. rewrite H5. eexists. split; [done|]. done.
Qed.

(** C38: A snapshot forgets a freeze.  Whatever the leader's state, a replica
    that catches up from its snapshot restarts unfrozen, with no merge target
    and no closed timestamp: if the leader was frozen for a merge, this
    replica still admits every batch. *)
Theorem snapshot_forgets_freeze split pb mu L raftEng rs desc rid prior h chunks F F' st :
  span_ok (StartKey desc) (EndKey desc) -> RangeID desc = RangeID (muDesc mu) -> rs_rangeID rs = RangeID desc ->
  loadReplicaStateFrom L (RangeID desc) = Some st -> rsFrozen st = true ->
  streamSnapshot pb L raftEng rs desc rid prior = Ok (h, chunks) -> installSnapshot split mu h chunks F = Ok F' ->
  exists mu', recover desc F' = Some mu' /\ muAppliedIndex mu' = rsAppliedIndex st /\ muFrozen mu' = false /\ muMergedInto mu' = 0 /\
    muClosedTS mu' = ts0 /\ forall ba, checkFrozen mu' ba = None.
Proof.
  intros (_ & _ & H2) Hid Hrs Hst _. unfold streamSnapshot. rewrite Hrs, Hst.
  destruct (if 0 <? rsAppliedIndex st then _ else _) as [term|]; [|done]. cbn [rbind]. intros [= <- <-] Hin.
  apply install_content in Hin as (_ & _ & H5 & _); [|done..]. cbn [shDesc] in *. unfold recover. rewrite Hid, H5. eexists. split; [done|]. done.
Qed.
End SnapshotSpec.

(** ** Witnesses *)

(** A leader frozen for a merge at index 2 (entry 1 a write, 2 the freeze),
    and a follower that has applied nothing. *)
Definition ex_leader : replica :=
  (applyCommand true ex_env (mkCommand (Add (mkBatchRequest (mkBatchHeader ts0 None 1 false false false) []) (RSubsume (mkSubsume (mkHeader [4] [5]) 7)))
     None None ts0) 2 (applyCommand true ex_env (mkCommand (ex_put_batch [4; 1] [7] 5) None None ts0) 1 ex_replica).1).1.
Definition ex_leader_rs : raftStorage := mkRS true 1 2 [1] 2 (mkTrunc 2 1).
Definition ex_stream := streamSnapshot true (r_store ex_leader) (r_store ex_leader) ex_leader_rs ex_range 2 None.
Definition ex_header : snapshotHeader := mkSnapHeader ex_range 2 2 1 ts0 19 None.
Definition ex_follower : replica := ex_replica.

Definition ex_chunks : list (list (bytes * bytes)) := match ex_stream with Ok (_, c) => c | Err _ => [] end.
Definition ex_installed : store :=
  match installSnapshot true (r_mu ex_follower) ex_header ex_chunks (r_store ex_follower) with Ok s => s | Err _ => r_store ex_follower end.

Lemma ex_leader_state : loadReplicaStateFrom (r_store ex_leader) 1 = Some (mkState 2 (mkTrunc 0 0) ts0 19 true 7 ts0).
Proof. vm_compute. reflexivity. Qed.
Lemma ex_stream_ok : ex_stream = Ok (ex_header, ex_chunks).
Proof. vm_compute. reflexivity. Qed.
Lemma ex_install_ok : installSnapshot true (r_mu ex_follower) ex_header ex_chunks (r_store ex_follower) = Ok ex_installed.
Proof. vm_compute. reflexivity. Qed.

Lemma snapshot_forgets_freeze_witness :
  rsFrozen (mkState 2 (mkTrunc 0 0) ts0 19 true 7 ts0) = true /\
  exists mu', recover ex_range ex_installed = Some mu' /\ muAppliedIndex mu' = 2 /\ muFrozen mu' = false.
Proof.
  split; [reflexivity|].
  destruct (snapshot_forgets_freeze true true (r_mu ex_follower) (r_store ex_leader) (r_store ex_leader) ex_leader_rs ex_range 2 None
    ex_header ex_chunks (r_store ex_follower) ex_installed (mkState 2 (mkTrunc 0 0) ts0 19 true 7 ts0)) as (mu' & H1 & H2 & H3 & _).
  - split; [|split]; [repeat constructor; cbn; lia..|]. vm_compute. discriminate.
  - reflexivity.
  - reflexivity.
  - exact ex_leader_state.
  - reflexivity.
  - exact ex_stream_ok.
  - exact ex_install_ok.
  - exists mu'. split; [exact H1|]. split; [exact H2|exact H3].
Defined.

(** A leader's engine with one committed key and its applied state. *)
Definition ex_sender : store (Pebble := map_pebble) := putReplicaState 1 (mkState 2 (mkTrunc 0 0) ts0 19 false 0 ts0) (b_store ex_batch).
Definition ex_sent := streamSnapshot true ex_sender ex_sender ex_leader_rs ex_range 2 None.
Definition ex_sent_chunks : list (list (bytes * bytes)) := match ex_sent with Ok (_, c) => c | Err _ => [] end.
Definition ex_received : store (Pebble := map_pebble) :=
  match installSnapshot true (r_mu ex_follower) ex_header ex_sent_chunks (r_store ex_follower) with Ok s => s | Err _ => ex_sender end.

Lemma ex_stores_wf : store_wf ex_sender /\ store_wf (r_store ex_follower).
Proof.
  split; unfold ex_sender, ex_follower, ex_replica, putReplicaState, PutRangeDescriptor, Batch_Put; apply wf_set_local;
    first [apply ex_batch_ok|apply wf_empty; intros x; apply lookup_empty|reflexivity].
Qed.

Lemma snapshot_transfers_range_witness :
  MVCCGet true ex_received ex_key (mkTs 9 0) (ex_opts None) = MVCCGet true ex_sender ex_key (mkTs 9 0) (ex_opts None) /\
  MVCCGet true ex_received ex_key (mkTs 9 0) (ex_opts None) = Ok (Some [7]).
Proof.
  split; [|vm_compute; reflexivity].
  destruct (snapshot_transfers_range true true (r_mu ex_follower) ex_sender ex_sender ex_leader_rs ex_range 2 None
    ex_header ex_sent_chunks (r_store ex_follower) ex_received (mkState 2 (mkTrunc 0 0) ts0 19 false 0 ts0)) as (_ & _ & H & _).
  - apply ex_stores_wf.
  - apply ex_stores_wf.
  - split; [|split]; [repeat constructor; cbn; lia..|]. vm_compute. discriminate.
  - reflexivity.
  - reflexivity.
  - vm_compute. reflexivity.
  - vm_compute. reflexivity.
  - vm_compute. reflexivity.
  - apply H; [repeat constructor; cbn; lia|vm_compute; reflexivity|by apply ex_opts_ok].
Defined.
