(* ===== verification/Responses.v ===== *)
(** * Responses match requests

    A client takes the i-th response of a batch for the answer to its i-th
    request and reads the field of that request's kind.  Evaluation skips the
    response of a request that met an intent, so the batch must then fail:
    an intent conflict always names at least one intent, and a collected
    intent fails the batch. *)

From S2P Require Import Prelude Encoding Hlc Keys MvccKey Pebble Enginepb Mvcc MvccView MvccRead MvccWrite MvccState MvccTxn MvccScan.
From S2P Require Import Kvpb KvpbWire TxnRecord TxnRecordSpec Gc Strconv Apply ApplySpec OnePhase.

#[local] Abbreviation length := Datatypes.length.
#[local] Open Scope list_scope.
Open Scope Z_scope.

(** The response union's field is the one of the request's kind. *)
Definition resp_for (u : RequestUnion) (r : Response) : bool :=
  match GetInner u, r with
  | Some (RGet _), OGet _ | Some (RPut _), OPut | Some (RDelete _), ODelete | Some (RIncrement _), OIncrement _
  | Some (RScan _), OScan _ | Some (RExport _), OExport _ | Some (REndTxn _), OEndTxn _ _ | Some (RHeartbeatTxn _), OHeartbeatTxn _
  | Some (RPushTxn _), OPushTxn _ | Some (RResolveIntent _), OResolveIntent | Some (RRollbackIntent _), ORollbackIntent
  | Some (RRecoverTxn _), ORecoverTxn _ | Some (RRefresh _), ORefresh | Some (RGC _), OGC | Some (RTruncateLog _), OTruncateLog
  | Some (RSubsume _), OSubsume | Some (RUnfreeze _), OUnfreeze | Some (RUpdateMeta _), OUpdateMeta _ => true
  | _, _ => false
  end.

Section Named.
Context {P : Pebble} {C : MetaCodec} {T : TxnCodec} {SC : StateCodec}.

(** An intent conflict names an intent. *)
Definition named {A} (r : result mvcc_err A) : Prop := r <> Err (WriteIntentError []).
Definition bnamed {A} (m : BM A) : Prop := forall b, named (m b).2.

Lemma named_bind {A B} (m : result mvcc_err A) (k : A -> result mvcc_err B) : named m -> (forall a, named (k a)) -> named (rbind m k).
Proof. intros Hm Hk. destruct m as [a|e]; cbn [rbind]; [apply Hk|]. intros [= ->]. by apply Hm. Qed.
Lemma named_lift_key {A} (r : result key_err A) : named (lift_key r).
Proof. by destruct r. Qed.
Lemma named_lift_value {A} (r : result value_err A) : named (lift_value r).
Proof. by destruct r. Qed.
Lemma named_lift_meta {A} (r : option A) : named (lift_meta r).
Proof. by destruct r. Qed.

Create HintDb named.
#[local] Hint Resolve named_lift_key named_lift_value named_lift_meta : named.

Ltac name :=
  repeat first
    [ done | progress eauto with named
    | match goal with
      | |- named (rbind _ _) => apply named_bind; [|intros ?]
      | |- named (match ?t with _ => _ end) => destruct t
      | |- named (let '(_, _) := ?t in _) => destruct t
      end ].

Lemma named_read_value raw : named (read_value raw).
Proof. unfold read_value. name. Qed.
#[local] Hint Resolve named_read_value : named.
Lemma named_read_loop fuel : forall it skip, named (read_loop fuel it skip).
Proof. induction fuel as [|fuel IH]; intros it skip; cbn [read_loop]; name. Qed.
Lemma named_uncertain fuel : forall it ts skip, named (uncertain_loop fuel it ts skip).
Proof. induction fuel as [|fuel IH]; intros it ts skip; cbn [uncertain_loop]; name. Qed.
#[local] Hint Resolve named_read_loop named_uncertain : named.
Lemma named_versions it mk key ts opts a s : named (mvccGet_versions it mk key ts opts a s).
Proof. unfold mvccGet_versions. name. Qed.
#[local] Hint Resolve named_versions : named.
Lemma named_mvccGet it mk key ts opts : named (mvccGet it mk key ts opts).
Proof. unfold mvccGet. name. Qed.
Lemma named_get pb s k ts opts : named (MVCCGet pb s k ts opts).
Proof. unfold MVCCGet. destruct (mvccKeyBounds k). apply named_mvccGet. Qed.
Lemma named_getter g s k ts opts : named (Getter_Get g s k ts opts).2.
Proof. unfold Getter_Get. destruct (mvccKeyBounds k). apply named_mvccGet. Qed.

Lemma named_found raw : named (found_value raw).
Proof. unfold found_value. name. Qed.
Lemma named_scan_uncertain fuel : forall it pfx ts skip lim, named (scan_uncertain_loop fuel it pfx ts skip lim).2.
Proof. induction fuel as [|fuel IH]; intros it pfx ts skip lim; cbn [scan_uncertain_loop]; repeat case_match; cbn [snd]; done || apply IH. Qed.
Lemma named_scan_value fuel : forall it k pfx ts skip n, named (scan_value_loop fuel it k pfx ts skip n).2.
Proof.
  induction fuel as [|fuel IH]; intros it k pfx ts skip n; cbn [scan_value_loop]; repeat case_match; cbn [snd]; first [done|apply IH|apply named_found].
Qed.
Lemma named_scan_versions it k pfx ts opts a s c : named (scan_versions it k pfx ts opts a s c).2.
Proof.
  unfold scan_versions. destruct (negb (IsEmpty a)); [repeat case_match; first [done|apply named_found]|].
  destruct (c && _ && _); [|apply named_scan_value].
  pose proof (named_scan_uncertain (2 * length (it_view (pit it)) + 3) it pfx ts s (UncertaintyLimit opts)) as Hn.
  destruct (scan_uncertain_loop _ it pfx ts s _) as [it' [u|e]]; [apply named_scan_value|]. cbn [snd] in *. intros [= ->]. by apply Hn.
Qed.
Lemma named_scanKey it k pfx ts opts ints : named (mvccScanKey it k pfx ts opts ints).2.
Proof.
  assert (Hsv : forall it a s c, named (let '(it', r) := scan_versions it k pfx ts opts a s c in (it', ints, r)).2).
  { intros it' a s c. pose proof (named_scan_versions it' k pfx ts opts a s c). by destruct (scan_versions _ _ _ _ _ _ _ _). }
  unfold mvccScanKey. destruct (cur it) as [[x v]|]; [|done]. destruct (IsEmpty _); [|apply Hsv].
  destruct (decodeMeta v) as [meta|]; [|done].
  destruct (intent_switch meta ts opts); [destruct (cur (INext it)); [apply Hsv|done]..|].
  destruct (_ <=? _)%nat; [|done]. cbn [snd]. by destruct ints.
Qed.

Lemma named_finish {A} (a : A) ints : named (match ints with [] => Ok a | _ => Err (WriteIntentError ints) end).
Proof. by destruct ints. Qed.

Lemma named_scan_loop fuel : forall it ts max opts rows ints n, named (scan_loop fuel it ts max opts rows ints n).
Proof.
  induction fuel as [|fuel IH]; intros it ts max opts rows ints n; cbn [scan_loop]; [done|].
  destruct (cur it) as [[x v]|]; [|apply named_finish]. apply named_bind; [apply named_lift_key|]. intros [ck vts].
  pose proof (named_scanKey it ck (appendMetaKeyOf x vts) ts opts ints) as Hk.
  destruct (mvccScanKey _ _ _ _ _ _) as [[it' ints'] r]. apply named_bind; [exact Hk|]. intros found. repeat case_match; first [done|apply IH].
Qed.
Lemma named_reverse_loop fuel : forall it ts max opts rows ints n, named (reverse_loop fuel it ts max opts rows ints n).
Proof.
  induction fuel as [|fuel IH]; intros it ts max opts rows ints n; cbn [reverse_loop]; [done|].
  destruct (cur it) as [[x v]|]; [|apply named_finish]. apply named_bind; [apply named_lift_key|]. intros [ck vts].
  destruct (negb (Valid _)); [apply named_finish|].
  pose proof (named_scanKey (stepToKeyStart it (appendMetaKeyOf x vts)) ck (appendMetaKeyOf x vts) ts opts ints) as Hk.
  destruct (mvccScanKey _ _ _ _ _ _) as [[it' ints'] r]. apply named_bind; [exact Hk|]. intros found. repeat case_match; first [done|apply IH].
Qed.
Lemma named_scan (reverse : bool) pb s a b ts max opts : named ((if reverse then MVCCReverseScan else MVCCScan) pb s a b ts max opts).
Proof. destruct reverse; [apply named_reverse_loop|apply named_scan_loop]. Qed.

(** *** Writes *)

Lemma bnamed_bind {A B} (m : BM A) (k : A -> BM B) : bnamed m -> (forall a, bnamed (k a)) -> bnamed (bbind m k).
Proof.
  intros Hm Hk b. unfold bbind. specialize (Hm b). destruct (m b) as [b' [a|e]]; cbn [snd] in *; [apply Hk|]. intros [= ->]. by apply Hm.
Qed.
Lemma bnamed_lift {A} (r : result mvcc_err A) : named r -> bnamed (blift r).
Proof. by intros H b. Qed.
Lemma bnamed_writeState mk upper : bnamed (writeState mk upper).
Proof.
  intros b. unfold writeState. destruct (it_cur _) as [[k v]|]; [|done]. destruct (beqb k mk); [done|].
  pose proof (named_lift_key (DecodeMVCCKey k)) as Hn. destruct (lift_key (DecodeMVCCKey k)) as [[]|e]; [done|].
  cbn. intros [= ->]. by apply Hn.
Qed.

Ltac bname :=
  repeat first
    [ match goal with
      | |- bnamed (bbind _ _) => apply bnamed_bind; [|intros ?]
      | |- bnamed (writeState _ _) => apply bnamed_writeState
      | |- bnamed (blift _) => apply bnamed_lift; name
      | |- bnamed (match ?t with _ => _ end) => destruct t
      end
    | by intros ? ].

Lemma bnamed_mvccWrite k ts v tomb txn : bnamed (mvccWrite k ts v tomb txn).
Proof. unfold mvccWrite, rewrite_history. destruct (mvccKeyBounds k). bname. Qed.
Lemma bnamed_committed k ts v tomb : bnamed (mvccWriteCommitted k ts v tomb).
Proof. unfold mvccWriteCommitted. destruct (mvccKeyBounds k). bname. Qed.
Lemma bnamed_lock k ts v txn : bnamed (MVCCLock k ts v txn).
Proof. unfold MVCCLock. destruct txn; [apply bnamed_mvccWrite|by intros b]. Qed.

(** ** Evaluation *)

(** An evaluation answers in kind, or conflicts on an intent it names. *)
Definition answers_for (u : RequestUnion) (m : AM evalOut) : Prop := forall st,
  match (m st).2 with Ok (Responded r) => resp_for u r = true | Ok (Conflicted l) => l <> [] | Err _ => True end.

Lemma answers_respond u r : resp_for u r = true -> answers_for u (respond r).
Proof. by intros H st. Qed.
Lemma answers_refuse u e : answers_for u (refuse e).
Proof. by intros st. Qed.
Lemma answers_collecting {A} u (m : BM A) k : bnamed m -> (forall a, answers_for u (k a)) -> answers_for u (collecting m k).
Proof.
  intros Hm Hk st. unfold collecting. specialize (Hm (es_b st)). destruct (m (es_b st)) as [b [a|e]]; [apply Hk|].
  destruct e; cbn [snd] in *; try done. intros ->. by apply Hm.
Qed.
Lemma answers_strictly {A} u (m : EM A) k : (forall a, answers_for u (k a)) -> answers_for u (strictly m k).
Proof. intros Hk st. unfold strictly. destruct (m (es_b st)) as [b [a|e]]; [apply Hk|done]. Qed.

Lemma bnamed_read {A} (f : bool -> store -> result mvcc_err A) : (forall pb s, named (f pb s)) -> bnamed (read f).
Proof. intros H b. apply H. Qed.

Lemma lock_rows_named rows readTS meta : forall met, bnamed (lock_rows rows readTS meta met).
Proof.
  induction rows as [|kv rows IH]; intros met b; cbn [lock_rows]; [done|]. pose proof (bnamed_lock (kvKey kv) readTS (kvValue kv) meta b) as Hl.
  destruct (MVCCLock _ _ _ _ b) as [b' [a|e]]; [apply IH|]. destruct e; try done. apply IH.
Qed.

Lemma answers_increment ts meta req u : GetInner u = Some (RIncrement req) -> answers_for u (evalIncrement ts meta req).
Proof.
  intros Hu. unfold evalIncrement. apply answers_collecting; [apply bnamed_read; intros; apply named_get|]. intros a.
  destruct (match a with None => _ | Some _ => _ end) as [v|]; [|apply answers_refuse].
  apply answers_collecting; [apply bnamed_mvccWrite|]. intros _. apply answers_respond. unfold resp_for. by rewrite Hu.
Qed.

Lemma answers_get ba req u : GetInner u = Some (RGet req) -> answers_for u (evalGet ba req).
Proof.
  intros Hu st. unfold evalGet. pose proof (named_getter (es_g st) (b_store (es_b st)) (hKey (gtHeader req)) (readTimestamp ba) (txn_opts (batchTxnMeta ba) 0)) as Hn.
  destruct (Getter_Get _ _ _ _ _) as [g r]. cbn [snd] in Hn. revert st Hn. intros st Hn.
  apply (answers_collecting u (blift r)); [by apply bnamed_lift|]. intros val.
  assert (Hr : forall x, answers_for u (respond (OGet x))) by (intros x; apply answers_respond; unfold resp_for; by rewrite Hu).
  destruct (gtForUpdate req); [|apply Hr]. destruct (batchTxnMeta ba); [|apply answers_refuse].
  apply answers_collecting; [apply bnamed_lock|]. intros _. apply Hr.
Qed.

Lemma answers_scan ba req u : GetInner u = Some (RScan req) -> answers_for u (evalScan ba req).
Proof.
  intros Hu. unfold evalScan. destruct (_ && _); [apply answers_refuse|].
  apply answers_collecting; [apply bnamed_read; intros; apply named_scan|]. intros res.
  assert (Hr : forall x, answers_for u (respond (OScan x))) by (intros x; apply answers_respond; unfold resp_for; by rewrite Hu).
  destruct (scForUpdate req); [|apply Hr]. destruct (batchTxnMeta ba); [|apply answers_refuse].
  apply answers_collecting; [apply lock_rows_named|]. intros [|i met]; [apply Hr|]. by intros st.
Qed.

Lemma answers_request env ba u : answers_for u (evalRequest env ba u).
Proof.
  unfold evalRequest. destruct (GetInner u) as [[]|] eqn:Hu; try apply answers_refuse;
    try (apply answers_collecting; [apply bnamed_mvccWrite|]; intros ?; apply answers_respond; unfold resp_for; by rewrite Hu);
    try (apply answers_strictly; intros ?; apply answers_respond; unfold resp_for; by rewrite Hu).
  - by apply answers_get.
  - by apply answers_increment.
  - by apply answers_scan.
  - intros st. cbn. unfold resp_for. by rewrite Hu.
  - intros st. unfold evalTruncate. destruct (stageTruncate _ _ _ _ st) as [st' [x|e]]; [|done]. cbn. unfold resp_for. by rewrite Hu.
  - intros st. cbn. unfold resp_for. by rewrite Hu.
  - intros st. cbn. unfold resp_for. by rewrite Hu.
Qed.

Lemma answers_one_phase ts u : answers_for u (evalOnePhaseRequest ts u).
Proof.
  unfold evalOnePhaseRequest. destruct (GetInner u) as [[]|] eqn:Hu; try apply answers_refuse;
    try (apply answers_collecting; [apply bnamed_committed|]; intros ?); apply answers_respond; unfold resp_for; by rewrite Hu.
Qed.

Lemma collect_named l : l <> [] -> collect [] l <> [].
Proof. destruct l as [|i l]; [done|]. intros _. unfold collect. cbn [fold_left]. by apply (collect_nonempty [i] l). Qed.

Lemma eval_requests_match eval us : (forall u, answers_for u (eval u)) -> forall out st st' rs,
  eval_requests eval us [] out st = (st', Ok rs) -> exists more, rs = out ++ more /\ Forall2 (fun u r => resp_for u r = true) us more.
Proof.
  intros He. induction us as [|u us IH]; intros out st st' rs; cbn [eval_requests].
  - intros [= _ <-]. exists []. rewrite app_nil_r. by split.
  - pose proof (He u st) as Hu. destruct (eval u st) as [st1 [[r|l]|e]]; cbn [snd] in Hu; [|intros Hr|done].
    + intros Hr. apply IH in Hr as (more & -> & Hm). exists (r :: more). rewrite <- app_assoc. split; [done|by constructor].
    + exfalso. eapply eval_requests_conflicted; [|exact Hr]. by apply collect_named.
Qed.

Lemma eval_reads_match maxOffset pb s ba us : forall g out rs,
  eval_reads maxOffset pb s ba g us out = Ok rs -> exists more, rs = out ++ more /\ Forall2 (fun u r => resp_for u r = true) us more.
Proof.
  induction us as [|u us IH]; intros g out rs; cbn [eval_reads].
  - intros [= <-]. exists []. rewrite app_nil_r. by split.
  - assert (Hu : forall g' r, evalReadRequest maxOffset pb s ba g u = (g', Ok r) -> resp_for u r = true).
    { intros g' r. unfold evalReadRequest, resp_for. destruct (GetInner u) as [[]|]; try done.
      - by destruct (Getter_Get _ _ _ _ _) as [g1 [v|e]]; intros [= _ <-].
      - match goal with |- context [match ?x with Ok _ => _ | Err _ => _ end] => destruct x end; by intros [= _ <-].
      - by destruct (MVCCExport _ _ _ _ _ _ _); intros [= _ <-].
      - unfold query_push. destruct (negb _); [done|]. by destruct (loadTxnRecord _ _).2 as [[]|]; intros [= _ <-].
      - destruct (bhTxn _); [|done]. by destruct (MVCCCheckForWrites _ _ _ _ _ _ _); intros [= _ <-]. }
    destruct (evalReadRequest maxOffset pb s ba g u) as [g' [r|e]] eqn:E; [|done]. intros Hr.
    apply IH in Hr as (more & -> & Hm). exists (r :: more). rewrite <- app_assoc. split; [done|]. constructor; [by eapply Hu|done].
Qed.

(** C29: Responses are typed by their requests.  When a batch succeeds, on the
    write path (one-phase or not) or on the read path, there is one response
    per request, in order, each of its request's kind: no request that met
    an intent is silently left out. *)
Theorem responses_match_requests :
  (forall env ba st st' br, evalWriteBatch env ba st = (st', Ok br) ->
     Forall2 (fun u r => resp_for u r = true) (baRequests ba) (brResponses br)) /\
  (forall maxOffset pb s ba br, evalReadOnly maxOffset pb s ba = Ok br ->
     Forall2 (fun u r => resp_for u r = true) (baRequests ba) (brResponses br)).
Proof.
  split.
  - intros env ba st st' br. unfold evalWriteBatch, evalOnePhase. destruct (is1PC ba).
    + destruct (bhTxn _); [|done]. destruct (negb _); [done|]. destruct (loadTxnRecord _ _) as [b' [rec|e]]; [|done]. case_bool_decide; [done|].
      destruct (eval_requests _ _ _ _ _) as [st1 [rs|e]] eqn:Er; [|done]. intros [= _ <-].
      by apply (eval_requests_match _ _ (answers_one_phase _)) in Er as (more & -> & Hm).
    + destruct (if bhCreateTxnRecord _ then _ else _) as [b [x|e]]; [|done].
      destruct (eval_requests _ _ _ _ _) as [st1 [rs|e]] eqn:Er; [|done]. intros [= _ <-].
      by apply (eval_requests_match _ _ (answers_request _ _)) in Er as (more & -> & Hm).
  - intros maxOffset pb s ba br. unfold evalReadOnly, rbind. destruct (eval_reads _ _ _ _ _ _ _) as [rs|] eqn:Er; [|done]. intros [= <-].
    by apply eval_reads_match in Er as (more & -> & Hm).
Qed.
End Named.

(** ** Witness *)

Definition ex_answers (r : evalState * result kv_err BatchResponse) : BatchResponse :=
  match r.2 with Ok br => br | Err _ => mkBatchResponse None ts0 [] end.
Definition ex_two_puts : BatchRequest :=
  Add (ex_put_batch [4; 1] [7] 5) (RDelete (mkDelete (mkHeader [4; 2] []))).

Lemma responses_match_requests_witness :
  let run := evalWriteBatch ex_env ex_two_puts (mkES (NewBatch true (r_store ex_replica)) ex_mu (NewGetter true true)) in
  length (brResponses (ex_answers run)) = 2%nat /\
  Forall2 (fun u r => resp_for u r = true) (baRequests ex_two_puts) (brResponses (ex_answers run)).
Proof.
  intros run. split; [vm_compute; reflexivity|].
  apply (proj1 responses_match_requests ex_env ex_two_puts
    (mkES (NewBatch true (r_store ex_replica)) ex_mu (NewGetter true true)) run.1). vm_compute. reflexivity.
Defined.
