(* ===== verification/Decimal.v ===== *)
(** * Exact decimals and their key encoding (pkg/util/decimal/decimal.go,
      pkg/util/encoding/decimal.go)

    A [Dec] is a coefficient times a power of ten.  The coefficient is a
    pointer to a big integer in the code, [None] for nil (the zero value of
    the struct); the exponent is an int32 and wraps.  Text is a byte string;
    the white space [Parse] trims and skips is Go's, in UTF-8.  [Float64]
    needs correctly rounded float parsing and is not modelled. *)

From S2P Require Import Prelude Encoding Strconv.

#[local] Abbreviation length := Datatypes.length.
#[local] Open Scope list_scope.
Open Scope Z_scope.

Definition maxExp : Z := 2000.

Record Dec := mkDec { dCoeff : option Z; dExp : Z }.

#[export] Instance Dec_eq_dec : EqDecision Dec.
Proof. solve_decision. Defined.

Inductive decimal_err :=
| InvalidDecimal                     (* invalid decimal %q, invalid mantissa %q *)
| ExponentRange                      (* decimal exponent out of range *)
| DivisionByZero
| DivisionRange                      (* decimal division out of range *)
| NilCoefficient                     (* a nil dereference *)
| EmptyDecimal | BadMarker (m : Z) | TruncatedExponent | UnterminatedDigits | BadDigit (c : Z)
| InDecimal (e : dec_err).

Definition coeffOf (d : Dec) : Z := default 0 (dCoeff d).

(** ** Canonical form *)

(** The division by ten repeated while it is exact; a coefficient is
    exhausted within as many rounds as it has bits. *)
Fixpoint canon_loop (fuel : nat) (c exp : Z) : Dec :=
  match fuel with
  | O => mkDec (Some c) exp
  | S fuel => if Z.rem c 10 =? 0 then canon_loop fuel (Z.quot c 10) (i32 (exp + 1)) else mkDec (Some c) exp
  end.
Definition bits_of (c : Z) : nat := S (Z.to_nat (Z.log2 (Z.abs c))).
Definition canon (c exp : Z) : Dec := if c =? 0 then mkDec (Some 0) 0 else canon_loop (bits_of c) c exp.

Definition New (coeff exp : Z) : Dec := canon coeff exp.
Definition FromInt (i : Z) : Dec := New i 0.
Definition Sign (d : Dec) : Z := match dCoeff d with None => 0 | Some c => Z.sgn c end.

(** ** Text *)

(** The rest after a leading white-space character, if there is one. *)
Definition is_ascii_space (c : byte) : bool := ((9 <=? c) && (c <=? 13)) || (c =? 32).
(** The last byte of a character U+2000 to U+200A, U+2028, U+2029, U+202F. *)
Definition is_general_space (x : byte) : bool := ((128 <=? x) && (x <=? 138)) || (x =? 168) || (x =? 169) || (x =? 175).
Definition space_front (b : bytes) : option bytes :=
  match b with
  | c :: r => if is_ascii_space c then Some r else
      match b with
      | 194 :: x :: r => if (x =? 133) || (x =? 160) then Some r else None
      | 225 :: 154 :: 128 :: r => Some r
      | 226 :: 128 :: x :: r => if is_general_space x then Some r else None
      | 226 :: 129 :: 159 :: r => Some r
      | 227 :: 128 :: 128 :: r => Some r
      | _ => None
      end
  | [] => None
  end.
(** The same at the end, on the reversed text. *)
Definition space_back (b : bytes) : option bytes :=
  match b with
  | c :: r => if is_ascii_space c then Some r else
      match b with
      | 128 :: 154 :: 225 :: r => Some r
      | 159 :: 129 :: 226 :: r => Some r
      | 128 :: 128 :: 227 :: r => Some r
      | x :: 128 :: 226 :: r => if is_general_space x then Some r else None
      | x :: 194 :: r => if (x =? 133) || (x =? 160) then Some r else None
      | _ => None
      end
  | [] => None
  end.
Fixpoint trim (space : bytes -> option bytes) (fuel : nat) (b : bytes) : bytes :=
  match fuel with
  | O => b
  | S fuel => match space b with Some r => trim space fuel r | None => b end
  end.
(** [strings.TrimSpace]. *)
Definition TrimSpace (s : bytes) : bytes :=
  let t := trim space_front (length s) s in
  rev (trim space_back (length t) (rev t)).

Definition is_digit (c : byte) : bool := (48 <=? c) && (c <=? 57).

(** [fmt.Sscanf(b, "%d", &v)]: white space but no newline, a sign, digits;
    what follows them is left unread. *)
Fixpoint scan_skip (fuel : nat) (b : bytes) : option bytes :=
  match fuel with
  | O => Some b
  | S fuel =>
      match b with
      | 10 :: _ => None
      | _ => match space_front b with Some r => scan_skip fuel r | None => Some b end
      end
  end.
Fixpoint take_digits (b : bytes) : bytes :=
  match b with c :: r => if is_digit c then c :: take_digits r else [] | [] => [] end.
Definition Sscanf_d (b : bytes) : option Z :=
  match scan_skip (length b) b with
  | None => None
  | Some b =>
      let '(sign, r) := match b with c :: r => if (c =? ascii_plus) || (c =? ascii_minus) then ([c], r) else ([], b) | [] => ([], []) end in
      match take_digits r with [] => None | ds => ParseInt (sign ++ ds) end
  end.

(** The text before and after the first character that satisfies [p]. *)
Fixpoint cut (p : byte -> bool) (b : bytes) : option (bytes * bytes) :=
  match b with
  | [] => None
  | c :: r => if p c then Some ([], r) else match cut p r with Some (x, y) => Some (c :: x, y) | None => None end
  end.

(** [SetString] of a big integer's decimal digits. *)
Definition digits_val (ds : bytes) : Z := fold_left (fun acc c => acc * 10 + (c - 48)) ds 0.
(** [String] of a non-negative big integer. *)
Definition big_digits (n : Z) : bytes := format_digits (bits_of n) n [].

Definition Parse (s : bytes) : result decimal_err Dec :=
  let t := TrimSpace s in
  match t with
  | [] => Err InvalidDecimal
  | _ =>
      let* (mant, exp) :=
        match cut (fun c => (c =? 101) || (c =? 69)) t with
        | Some (m, e) => match Sscanf_d e with Some x => Ok (m, x) | None => Err InvalidDecimal end
        | None => Ok (t, 0)
        end in
      let '(neg, mant) :=
        match mant with
        | c :: m => if c =? ascii_minus then (true, m) else if c =? ascii_plus then (false, m) else (false, mant)
        | [] => (false, [])
        end in
      let '(intPart, fracPart) := match cut (fun c => c =? 46) mant with Some p => p | None => (mant, []) end in
      let digits := intPart ++ fracPart in
      match digits with
      | [] => Err InvalidDecimal
      | _ =>
          if negb (forallb is_digit digits) then Err InvalidDecimal
          else
            let c := if (neg : bool) then - digits_val digits else digits_val digits in
            let exp := i64 (exp - Z.of_nat (length fracPart)) in
            if (maxExp <? exp) || (exp <? - maxExp) then Err ExponentRange else Ok (canon c (i32 exp))
      end
  end.

(** [(Dec).String]; the exponent -2^31, whose negation wraps, is out of
    reach of its slices. *)
Definition Dec_String (d : Dec) : bytes :=
  match dCoeff d with
  | None => [48]
  | Some c =>
      if Z.sgn c =? 0 then [48]
      else
        let digits := big_digits (Z.abs c) in
        let n := Z.of_nat (length digits) in
        let exp := dExp d in
        (if Z.sgn c <? 0 then [ascii_minus] else []) ++
        if 0 <=? exp then digits ++ repeat 48 (Z.to_nat exp)
        else if i32 (- exp) <? n then take (Z.to_nat (n + exp)) digits ++ [46] ++ drop (Z.to_nat (n + exp)) digits
        else [48; 46] ++ repeat 48 (Z.to_nat (i32 (- exp) - n)) ++ digits
  end.

(** ** Arithmetic *)

Definition times_ten (n : Z) (c : Z) : Z := Nat.iter (Z.to_nat n) (fun c => c * 10) c.

Definition align (a b : Dec) : Z * Z * Z :=
  let '(ea, eb) := (dExp a, dExp b) in
  if ea =? eb then (coeffOf a, coeffOf b, ea)
  else if eb <? ea then (times_ten (ea - eb) (coeffOf a), coeffOf b, eb)
  else (coeffOf a, times_ten (eb - ea) (coeffOf b), ea).

Definition Add (a b : Dec) : Dec := let '(ca, cb, exp) := align a b in canon (ca + cb) exp.
Definition Sub (a b : Dec) : Dec := let '(ca, cb, exp) := align a b in canon (ca - cb) exp.
Definition Neg (a : Dec) : Dec :=
  match dCoeff a with None => mkDec (Some 0) 0 | Some c => mkDec (Some (- c)) (dExp a) end.
Definition Mul (a b : Dec) : Dec :=
  match dCoeff a, dCoeff b with
  | Some ca, Some cb => canon (ca * cb) (i32 (dExp a + dExp b))
  | _, _ => mkDec (Some 0) 0
  end.
Definition Cmp (a b : Dec) : comparison := let '(ca, cb, _) := align a b in ca ?= cb.

(** The quotient rounded half to even, of non-negative [num] and positive
    [den]. *)
Definition round_half_even (num den : Z) : Z :=
  let '(q, r) := (Z.quot num den, Z.rem num den) in
  match r * 2 ?= den with
  | Gt => q + 1
  | Eq => if Z.odd q then q + 1 else q
  | Lt => q
  end.

Definition DivQuantize (a b : Dec) (scale : Z) : result decimal_err Dec :=
  if Sign b =? 0 then Err DivisionByZero
  else
    match dCoeff a with
    | None => Err NilCoefficient
    | Some ca =>
        let k := dExp a - dExp b + scale in
        let* (num, den) :=
          if 0 <? k then (if 4 * maxExp <? k then Err DivisionRange else Ok (times_ten k ca, coeffOf b))
          else if k <? 0 then (if 4 * maxExp <? - k then Err DivisionRange else Ok (ca, times_ten (- k) (coeffOf b)))
          else Ok (ca, coeffOf b) in
        let sign := Z.sgn num * Z.sgn den in
        let q := round_half_even (Z.abs num) (Z.abs den) in
        Ok (canon (if sign <? 0 then - q else q) (i32 (- scale)))
    end.

Definition Quantize (a : Dec) (scale : Z) : result decimal_err Dec := DivQuantize a (FromInt 1) scale.

Definition rescale (a : Dec) (scale : Z) : Z * Z * Z :=
  let c := coeffOf a in
  if - scale <? dExp a then (times_ten (dExp a + scale) c, 0, 1)
  else
    let unit := times_ten (- scale - dExp a) 1 in
    (Z.quot c unit, Z.rem c unit, unit).

Definition Truncate (a : Dec) (scale : Z) : Dec := let '(q, _, _) := rescale a scale in canon q (i32 (- scale)).

Definition RoundHalfAway (a : Dec) (scale : Z) : Dec :=
  let '(q, rem, unit) := rescale a scale in
  let q :=
    if negb (Z.sgn rem =? 0) && (unit <=? Z.abs rem * 2) then (if Z.sgn rem <? 0 then q - 1 else q + 1) else q in
  canon q (i32 (- scale)).

(** ** The key encoding *)

Definition Mantissa (d : Dec) : bool * bytes * Z :=
  if Sign d =? 0 then (false, [], 0)
  else
    let digits := big_digits (Z.abs (coeffOf d)) in
    (Sign d <? 0, digits, i64 (Z.of_nat (length digits) + dExp d)).

Definition FromMantissa (neg : bool) (digits : bytes) (e : Z) : result decimal_err Dec :=
  match digits with
  | [] => Ok (New 0 0)
  | _ =>
      if negb (forallb is_digit digits) then Err InvalidDecimal
      else
        let c := if neg then - digits_val digits else digits_val digits in
        let exp := i64 (e - Z.of_nat (length digits)) in
        if (maxExp <? exp) || (exp <? - maxExp) then Err ExponentRange else Ok (canon c (i32 exp))
  end.

Definition decMarkerNeg : byte := 20.
Definition decMarkerZero : byte := 21.
Definition decMarkerPos : byte := 22.
Definition decTerminator : byte := 0.

Definition flip (neg : bool) (c : byte) : byte := if neg then compl 8 c else c.

Definition EncodeDecimal (b : bytes) (d : Dec) : bytes :=
  let '(neg, digits, e) := Mantissa d in
  match digits with
  | [] => b ++ [decMarkerZero]
  | _ =>
      let body := EncodeInt64 [] e ++ map (fun c => c - 48 + 1) digits ++ [decTerminator] in
      b ++ [if (neg : bool) then decMarkerNeg else decMarkerPos] ++ map (flip neg) body
  end.

Fixpoint decode_digits (neg : bool) (b : bytes) (digits : bytes) : result decimal_err (bytes * bytes) :=
  match b with
  | [] => Err UnterminatedDigits
  | x :: b =>
      let c := flip neg x in
      if c =? decTerminator then Ok (b, digits)
      else if (c <? 1) || (10 <? c) then Err (BadDigit c)
      else decode_digits neg b (digits ++ [c - 1 + 48])
  end.

Definition DecodeDecimal (b : bytes) : result decimal_err (bytes * Dec) :=
  match b with
  | [] => Err EmptyDecimal
  | marker :: b =>
      if marker =? decMarkerZero then Ok (b, New 0 0)
      else
        let neg := marker =? decMarkerNeg in
        if negb neg && negb (marker =? decMarkerPos) then Err (BadMarker marker)
        else if (length b <? 8)%nat then Err TruncatedExponent
        else
          let* (_, e) := rmap_err InDecimal (DecodeInt64 (map (flip neg) (take 8 b))) in
          let* (rest, digits) := decode_digits neg (drop 8 b) [] in
          let* d := FromMantissa neg digits e in
          Ok (rest, d)
  end.
