(* ===== verification/DecimalSpec.v ===== *)
(** * Exactness, text and key order of decimals

    A decimal's value in units of 10^m is [scaled m]; arithmetic and
    comparison are exact on it.  The canonical form is unique per value, its
    text parses back to it, and the byte order of key encodings is the
    numeric order. *)

From S2P Require Import Prelude Encoding Strconv Decimal.

#[local] Abbreviation length := Datatypes.length.
#[local] Open Scope list_scope.
Open Scope Z_scope.

(** No trailing zeros in the coefficient; zero is 0 times 10^0. *)
Definition canonical (d : Dec) : Prop :=
  match dCoeff d with
  | None => False
  | Some c => if c =? 0 then dExp d = 0 else Z.rem c 10 <> 0
  end.

(** The value in units of [10 ^ m], for an [m] at most the exponent. *)
Definition scaled (m : Z) (d : Dec) : Z := coeffOf d * 10 ^ (dExp d - m).

(** ** The canonical form *)

Lemma pow10_pos n : 0 < 10 ^ Z.max 0 n.
Proof. apply Z.pow_pos_nonneg; lia. Qed.

Lemma pow10_split n k : 0 <= k <= n -> 10 ^ n = 10 ^ (n - k) * 10 ^ k.
Proof. intros H. rewrite <- Z.pow_add_r by lia. f_equal. lia. Qed.

Lemma i32_id v : in_i32 v -> i32 v = v.
Proof. unfold in_i32, i32. intros H. rewrite Z.mod_small; lia. Qed.
Lemma i64_id v : in_i64 v -> i64 v = v.
Proof. unfold in_i64, i64. intros H. rewrite Z.mod_small; lia. Qed.

Lemma quot_ten c : c <> 0 -> Z.rem c 10 = 0 -> Z.quot c 10 <> 0 /\ c = Z.quot c 10 * 10 /\ 2 * Z.abs (Z.quot c 10) <= Z.abs c.
Proof. intros Hc Hr. pose proof (Z.quot_rem' c 10). lia. Qed.

Lemma canon_loop_spec fuel : forall c exp,
  c <> 0 -> Z.abs c < 2 ^ Z.of_nat fuel -> - 2 ^ 31 <= exp -> exp + Z.of_nat fuel < 2 ^ 31 ->
  exists c' k, 0 <= k /\ c = c' * 10 ^ k /\ Z.rem c' 10 <> 0 /\ canon_loop fuel c exp = mkDec (Some c') (exp + k).
Proof.
  induction fuel as [|fuel IH]; intros c exp Hc Hb Hlo Hhi; [change (2 ^ Z.of_nat 0) with 1 in Hb; lia|]. cbn [canon_loop].
  destruct (Z.eqb_spec (Z.rem c 10) 0) as [Hr|Hr].
  - destruct (quot_ten c Hc Hr) as (Hq & Eq & Hhalf). rewrite Nat2Z.inj_succ, Z.pow_succ_r in Hb by lia.
    destruct (IH (Z.quot c 10) (exp + 1)) as (c' & k & Hk & E & Hr' & E'); [done|lia..|].
    exists c', (k + 1). rewrite i32_id by (unfold in_i32; lia). rewrite E'. split_and!; [lia| |done|f_equal; lia].
    rewrite Z.pow_add_r, Z.pow_1_r by lia. rewrite Z.mul_assoc, <- E. done.
  - exists c, 0. rewrite Z.pow_0_r, Z.mul_1_r, Z.add_0_r. done.
Qed.

Lemma bits_bound c : c <> 0 -> Z.abs c < 2 ^ Z.of_nat (bits_of c).
Proof.
  intros Hc. unfold bits_of. rewrite Nat2Z.inj_succ, Z2Nat.id by apply Z.log2_nonneg. apply Z.log2_spec. lia.
Qed.

(** A coefficient and an exponent that canonicalization does not overflow. *)
Definition fits (c exp : Z) : Prop := - 2 ^ 31 <= exp /\ exp + Z.of_nat (bits_of c) < 2 ^ 31.

Lemma canon_spec c exp : c <> 0 -> fits c exp ->
  exists c' k, 0 <= k /\ c = c' * 10 ^ k /\ Z.rem c' 10 <> 0 /\ canon c exp = mkDec (Some c') (exp + k).
Proof.
  intros Hc [Hlo Hhi]. unfold canon. destruct (Z.eqb_spec c 0); [done|]. apply canon_loop_spec; [done|by apply bits_bound|done|done].
Qed.

Lemma canon_canonical c exp : fits c exp -> canonical (canon c exp).
Proof.
  intros Hf. destruct (decide (c = 0)) as [->|Hc]; [done|]. destruct (canon_spec c exp Hc Hf) as (c' & k & _ & E & Hr & ->).
  unfold canonical. cbn [dCoeff dExp]. destruct (Z.eqb_spec c' 0) as [->|]; [cbn in Hr; lia|done].
Qed.

Lemma canon_scaled m c exp : m <= exp -> fits c exp -> c <> 0 \/ m <= 0 -> m <= dExp (canon c exp) /\ scaled m (canon c exp) = c * 10 ^ (exp - m).
Proof.
  intros Hm Hf Hz. destruct (decide (c = 0)) as [->|Hc]; [change (canon 0 exp) with (mkDec (Some 0) 0); split; [cbn [dExp]; destruct Hz; [done|lia]|unfold scaled; cbn [coeffOf dCoeff default id from_option]; lia]|].
  destruct (canon_spec c exp Hc Hf) as (c' & k & Hk & E & _ & ->). unfold scaled, coeffOf. cbn [dCoeff dExp default id from_option].
  split; [lia|]. rewrite E. replace (exp + k - m) with (k + (exp - m)) by lia. rewrite Z.pow_add_r by lia. lia.
Qed.

(** A canonical coefficient is left alone. *)
Lemma canon_id d : canonical d -> canon (coeffOf d) (dExp d) = d.
Proof.
  destruct d as [[c|] e]; unfold canonical, canon, coeffOf; cbn [dCoeff dExp default id from_option]; [|done].
  destruct (Z.eqb_spec c 0) as [->|Hc]; [by intros ->|]. intros Hr. unfold bits_of. cbn [canon_loop].
  by destruct (Z.eqb_spec (Z.rem c 10) 0).
Qed.

Lemma canon_unique c c' k k' : Z.rem c 10 <> 0 -> Z.rem c' 10 <> 0 -> 0 <= k -> 0 <= k' -> c * 10 ^ k = c' * 10 ^ k' -> c = c' /\ k = k'.
Proof.
  assert (Hw : forall c c' k k', Z.rem c 10 <> 0 -> 0 <= k -> k < k' -> c * 10 ^ k = c' * 10 ^ k' -> False).
  { intros a b n n' Ha Hn Hlt E. apply Ha. rewrite (pow10_split n' n) in E by lia.
    assert (a = b * 10 ^ (n' - n)) as -> by (apply (Z.mul_reg_r _ _ (10 ^ n)); [apply Z.pow_nonzero; lia|lia]).
    replace (n' - n) with (Z.succ (n' - n - 1)) by lia. rewrite Z.pow_succ_r by lia. apply Z.rem_divide; [lia|].
    exists (b * 10 ^ (n' - n - 1)). lia. }
  intros Hc Hc' Hk Hk' E. destruct (Z.lt_trichotomy k k') as [H|[->|H]].
  - exfalso. by eapply (Hw c c' k k').
  - split; [|done]. apply (Z.mul_reg_r _ _ (10 ^ k')); [apply Z.pow_nonzero; lia|done].
  - exfalso. by eapply (Hw c' c k' k).
Qed.

(** Equal values have one canonical form. *)
Lemma canonical_unique m a b :
  canonical a -> canonical b -> m <= dExp a -> m <= dExp b -> scaled m a = scaled m b -> a = b.
Proof.
  destruct a as [[ca|] ea], b as [[cb|] eb]; unfold canonical, scaled, coeffOf; cbn [dCoeff dExp default id from_option]; try done.
  destruct (Z.eqb_spec ca 0) as [->|Ha], (Z.eqb_spec cb 0) as [->|Hb].
  - by intros -> ->.
  - intros _ _ _ Hm E. assert (10 ^ (eb - m) <> 0) by (apply Z.pow_nonzero; lia). nia.
  - intros _ _ Hm _ E. assert (10 ^ (ea - m) <> 0) by (apply Z.pow_nonzero; lia). nia.
  - intros Hra Hrb Hma Hmb E. destruct (canon_unique ca cb (ea - m) (eb - m)) as [-> H]; [done|done|lia|lia|done|].
    do 2 f_equal. lia.
Qed.

(** ** Arithmetic *)

Lemma times_ten_pow n c : 0 <= n -> times_ten n c = c * 10 ^ n.
Proof.
  intros Hn. unfold times_ten. rewrite <- (Z2Nat.id n Hn) at 2. induction (Z.to_nat n) as [|k IH]; [cbn; lia|].
  cbn [Nat.iter nat_rect]. rewrite Nat2Z.inj_succ, Z.pow_succ_r by lia. unfold Nat.iter in IH. rewrite IH. lia.
Qed.

Lemma align_scaled a b : exists ca cb e, align a b = (ca, cb, e) /\ e = Z.min (dExp a) (dExp b) /\ ca = scaled e a /\ cb = scaled e b.
Proof.
  unfold align, scaled. destruct (Z.eqb_spec (dExp a) (dExp b)) as [E|E].
  { exists (coeffOf a), (coeffOf b), (dExp a). rewrite E, Z.sub_diag, Z.pow_0_r. split; [done|]. split_and!; lia. }
  destruct (Z.ltb_spec (dExp b) (dExp a)) as [H|H]; rewrite times_ten_pow by lia; eexists _, _, _; (split; [reflexivity|]).
  - rewrite Z.sub_diag, Z.pow_0_r. split_and!; lia.
  - rewrite Z.sub_diag, Z.pow_0_r. split_and!; lia.
Qed.

Lemma scaled_lower m m' d : m' <= m <= dExp d -> scaled m' d = scaled m d * 10 ^ (m - m').
Proof.
  intros H. unfold scaled. replace (dExp d - m') with ((dExp d - m) + (m - m')) by lia. rewrite Z.pow_add_r by lia. lia.
Qed.

Lemma mul_compare x y p : 0 < p -> (x * p ?= y * p) = (x ?= y).
Proof. intros Hp. destruct (Z.compare_spec x y), (Z.compare_spec (x * p) (y * p)); subst; try done; exfalso; nia. Qed.

Lemma Cmp_scaled m a b : m <= dExp a -> m <= dExp b -> Cmp a b = (scaled m a ?= scaled m b).
Proof.
  intros Ha Hb. unfold Cmp. destruct (align_scaled a b) as (ca & cb & e & -> & -> & -> & ->).
  rewrite (scaled_lower (Z.min (dExp a) (dExp b)) m a), (scaled_lower (Z.min (dExp a) (dExp b)) m b) by lia.
  symmetry. apply mul_compare, Z.pow_pos_nonneg; lia.
Qed.

(** ** Digits *)

Abbreviation digits ds := (Forall (fun c => 48 <= c <= 57) ds).

Lemma digits_val_acc ds : forall acc, fold_left (fun acc c => acc * 10 + (c - 48)) ds acc = acc * 10 ^ Z.of_nat (length ds) + digits_val ds.
Proof.
  unfold digits_val. induction ds as [|c ds IH]; intros acc; [cbn; lia|]. cbn [fold_left length].
  rewrite IH, (IH (0 * 10 + (c - 48))), Nat2Z.inj_succ, Z.pow_succ_r by lia. lia.
Qed.
Lemma digits_val_cons c ds : digits_val (c :: ds) = (c - 48) * 10 ^ Z.of_nat (length ds) + digits_val ds.
Proof. unfold digits_val at 1. cbn [fold_left]. rewrite digits_val_acc. lia. Qed.
Lemma digits_val_app a b : digits_val (a ++ b) = digits_val a * 10 ^ Z.of_nat (length b) + digits_val b.
Proof. unfold digits_val at 1. rewrite fold_left_app. apply digits_val_acc. Qed.
Lemma digits_val_zeros n ds : digits_val (repeat 48 n ++ ds) = digits_val ds.
Proof. induction n as [|n IH]; [done|]. cbn [repeat app]. rewrite digits_val_cons, IH. lia. Qed.
Lemma digits_val_shift ds n : digits_val (ds ++ repeat 48 n) = digits_val ds * 10 ^ Z.of_nat n.
Proof. rewrite digits_val_app, repeat_length, <- (app_nil_r (repeat 48 n)), digits_val_zeros. cbn. lia. Qed.

Lemma digits_val_bound ds : digits ds -> 0 <= digits_val ds < 10 ^ Z.of_nat (length ds).
Proof.
  induction 1 as [|c ds Hc _ IH]; [cbn; lia|]. rewrite digits_val_cons. cbn [length]. rewrite Nat2Z.inj_succ, Z.pow_succ_r by lia. nia.
Qed.
Lemma digits_val_lower c ds : digits (c :: ds) -> c <> 48 -> 10 ^ Z.of_nat (length ds) <= digits_val (c :: ds).
Proof.
  intros H Hc. inversion H as [|? ? Hd Hds]; subst. rewrite digits_val_cons. pose proof (digits_val_bound ds Hds).
  assert (0 < 10 ^ Z.of_nat (length ds)) by (apply Z.pow_pos_nonneg; lia). nia.
Qed.

Lemma format_digits_spec fuel : forall n acc, 0 <= n < 10 ^ Z.of_nat fuel -> fuel <> O ->
  exists ds, format_digits fuel n acc = ds ++ acc /\ digits ds /\ digits_val ds = n /\
    (0 < n -> head ds <> Some 48) /\ last ds = Some (48 + n mod 10).
Proof.
  induction fuel as [|fuel IH]; intros n acc Hn Hf; [done|]. cbn [format_digits].
  assert (Hm : 0 <= n mod 10 < 10) by (apply Z.mod_pos_bound; lia). pose proof (Z.div_mod n 10 ltac:(lia)) as Hdm.
  assert (Hd : 48 <= 48 + n mod 10 <= 57) by lia.
  destruct (Z.eqb_spec (n / 10) 0) as [E|E].
  - exists [48 + n mod 10]. split_and!; [done|by constructor|rewrite digits_val_cons; cbn; lia|intros H [= H']; lia|done].
  - destruct fuel as [|fuel]; [exfalso; apply E, Z.div_small; change (10 ^ Z.of_nat 1) with 10 in Hn; lia|].
    destruct (IH (n / 10) (48 + n mod 10 :: acc)) as (ds & -> & Hds & Hv & Hh & _); [|done|].
    { rewrite Nat2Z.inj_succ, Z.pow_succ_r in Hn by lia. split; [apply Z.div_pos; lia|apply Z.div_lt_upper_bound; lia]. }
    exists (ds ++ [48 + n mod 10]). rewrite <- app_assoc. split_and!; [done| | | |apply last_snoc].
    + apply Forall_app. split; [done|by constructor].
    + rewrite digits_val_app, Hv, digits_val_cons. cbn [length Z.of_nat Pos.of_succ_nat digits_val fold_left]. lia.
    + intros H. assert (Hp : 0 < n / 10) by (pose proof (Z.div_pos n 10); lia). specialize (Hh Hp). by destruct ds.
Qed.

Lemma big_digits_spec n : 0 < n -> exists c ds, big_digits n = c :: ds /\ digits (c :: ds) /\ c <> 48 /\
  digits_val (c :: ds) = n /\ (n mod 10 <> 0 -> last (c :: ds) <> Some 48).
Proof.
  intros Hn. unfold big_digits. destruct (format_digits_spec (bits_of n) n []) as (ds & -> & Hds & Hv & Hh & Hl); [|done|].
  { split; [lia|]. eapply Z.lt_le_trans; [pose proof (bits_bound n ltac:(lia)) as Hb; rewrite Z.abs_eq in Hb by lia; exact Hb|].
    apply Z.pow_le_mono_l. lia. }
  rewrite app_nil_r. destruct ds as [|c ds]; [cbn in Hv; lia|]. exists c, ds. split_and!; try done.
  - intros ->. by apply Hh.
  - rewrite Hl. intros H [= H']. lia.
Qed.

(** ** Key order *)

(** Two strings that are equal or differ before either ends. *)
Fixpoint diverge (x y : bytes) : Prop :=
  match x, y with
  | [], [] => True
  | a :: x, b :: y => a = b -> diverge x y
  | _, _ => False
  end.

Lemma diverge_app x y p q : length x = length y -> (x = y -> diverge p q) -> diverge (x ++ p) (y ++ q).
Proof. revert y. induction x as [|a x IH]; intros [|b y]; cbn; try done; [auto|]. intros [= H] Hd ->. apply IH; [done|]. intros ->. by apply Hd. Qed.

Lemma compl8 c : is_byte c -> compl 8 c = 255 - c.
Proof.
  unfold is_byte, compl. intros Hc. change (Z.ones 8) with 255.
  assert (H : forall k, (k < 256)%nat -> Z.lxor (Z.of_nat k) 255 = 255 - Z.of_nat k).
  { intros k Hk. do 256 (destruct k as [|k]; [reflexivity|]). lia. }
  rewrite <- (Z2Nat.id c) by lia. apply H. lia.
Qed.

Definition sign_order (neg : bool) (c : comparison) : comparison := if neg then CompOpp c else c.

Lemma flip_compare neg x y r s : bytes_ok x -> bytes_ok y -> diverge x y ->
  bcompare (map (flip neg) x ++ r) (map (flip neg) y ++ s) =
    match bcompare x y with Eq => bcompare r s | c => sign_order neg c end.
Proof.
  intros Hx. revert y. induction Hx as [|a x Ha Hx IH]; intros [|b y] Hy; cbn [diverge]; try done. intros Hd.
  inversion Hy as [|? ? Hb Hy']; subst. cbn [map app bcompare].
  assert (E : (flip neg a ?= flip neg b) = sign_order neg (a ?= b)).
  { unfold flip, sign_order. destruct neg; [|done]. rewrite !compl8 by done. rewrite <- Z.compare_antisym.
    destruct (Z.compare_spec (255 - a) (255 - b)), (Z.compare_spec b a); try done; exfalso; lia. }
  rewrite E. destruct (Z.compare_spec a b) as [->|H|H].
  - destruct neg; cbn [sign_order CompOpp]; apply IH; auto.
  - by destruct neg.
  - by destruct neg.
Qed.

(** Digits, terminated: the numeric order of the fractions they spell. *)
Definition enc_digits (ds : bytes) : bytes := map (fun c => c - 48 + 1) ds ++ [decTerminator].
Definition no_trailing_zero (ds : bytes) : Prop := ds = [] \/ last ds <> Some 48.

Lemma no_trailing_tail c ds : no_trailing_zero (c :: ds) -> no_trailing_zero ds.
Proof. intros [?|H]; [done|]. destruct ds as [|d ds]; [by left|]. right. by destruct ds. Qed.

Lemma digits_nonzero ds : digits ds -> no_trailing_zero ds -> ds <> [] -> 0 < digits_val ds.
Proof.
  induction 1 as [|c ds Hc Hds IH]; [done|]. intros Hn _. rewrite digits_val_cons. pose proof (digits_val_bound ds Hds).
  assert (0 < 10 ^ Z.of_nat (length ds)) by (apply Z.pow_pos_nonneg; lia).
  destruct ds as [|d ds]; [destruct Hn as [?|Hn]; [done|]; cbn in Hn |- *; assert (c <> 48) by congruence; lia|].
  assert (0 < digits_val (d :: ds)) by (apply IH; [by eapply no_trailing_tail|done]). nia.
Qed.

(** The value of [ds] padded to [n] digits. *)
Definition padded (n : Z) (ds : bytes) : Z := digits_val ds * 10 ^ (n - Z.of_nat (length ds)).

Lemma padded_cons n c ds : Z.of_nat (length (c :: ds)) <= n -> padded n (c :: ds) = (c - 48) * 10 ^ (n - 1) + padded (n - 1) ds.
Proof.
  cbn [length]. intros Hn. unfold padded. rewrite digits_val_cons. cbn [length].
  replace (n - 1 - Z.of_nat (length ds)) with (n - Z.of_nat (S (length ds))) by lia.
  replace (n - 1) with (Z.of_nat (length ds) + (n - Z.of_nat (S (length ds)))) by lia. rewrite Z.pow_add_r by lia. lia.
Qed.
Lemma padded_bound n ds : digits ds -> Z.of_nat (length ds) <= n -> 0 <= padded n ds < 10 ^ n.
Proof.
  intros Hd Hn. unfold padded. pose proof (digits_val_bound ds Hd). rewrite (pow10_split n (n - Z.of_nat (length ds))) by lia.
  replace (n - (n - Z.of_nat (length ds))) with (Z.of_nat (length ds)) by lia.
  assert (0 < 10 ^ (n - Z.of_nat (length ds))) by (apply Z.pow_pos_nonneg; lia). nia.
Qed.

Lemma digits_compare x : forall y n, digits x -> digits y -> no_trailing_zero x -> no_trailing_zero y ->
  Z.of_nat (length x) <= n -> Z.of_nat (length y) <= n ->
  bcompare (enc_digits x) (enc_digits y) = (padded n x ?= padded n y) /\ diverge (enc_digits x) (enc_digits y).
Proof.
  induction x as [|a x IH]; intros [|b y] n Hx Hy Nx Ny Lx Ly.
  - done.
  - inversion Hy; subst. unfold enc_digits. cbn [map app bcompare diverge]. unfold decTerminator.
    destruct (Z.compare_spec 0 (b - 48 + 1)); [lia| |lia]. split; [|lia]. symmetry. apply Z.compare_lt_iff.
    unfold padded at 1. cbn [digits_val fold_left]. pose proof (digits_nonzero _ Hy Ny ltac:(done)). unfold padded.
    assert (0 < 10 ^ (n - Z.of_nat (length (b :: y)))) by (apply Z.pow_pos_nonneg; lia). nia.
  - inversion Hx; subst. unfold enc_digits. cbn [map app bcompare diverge]. unfold decTerminator.
    destruct (Z.compare_spec (a - 48 + 1) 0); [lia|lia|]. split; [|lia]. symmetry. apply Z.compare_gt_iff.
    unfold padded at 1. cbn [digits_val fold_left]. pose proof (digits_nonzero _ Hx Nx ltac:(done)). unfold padded.
    assert (0 < 10 ^ (n - Z.of_nat (length (a :: x)))) by (apply Z.pow_pos_nonneg; lia). nia.
  - inversion Hx as [|? ? Ha Hx']; inversion Hy as [|? ? Hb Hy']; subst. rewrite !padded_cons by done. cbn [length] in Lx, Ly.
    destruct (IH y (n - 1) Hx' Hy' (no_trailing_tail _ _ Nx) (no_trailing_tail _ _ Ny) ltac:(lia) ltac:(lia)) as [Hc Hd].
    pose proof (padded_bound (n - 1) x Hx' ltac:(lia)). pose proof (padded_bound (n - 1) y Hy' ltac:(lia)).
    change (enc_digits (a :: x)) with (a - 48 + 1 :: enc_digits x). change (enc_digits (b :: y)) with (b - 48 + 1 :: enc_digits y).
    cbn [bcompare diverge]. split; [|by intros _].
    destruct (Z.compare_spec (a - 48 + 1) (b - 48 + 1)) as [E|E|E].
    + assert (a = b) as -> by lia. rewrite Hc. symmetry. apply Z.add_compare_mono_l.
    + symmetry. apply Z.compare_lt_iff. nia.
    + symmetry. apply Z.compare_gt_iff. nia.
Qed.

(** What a key can hold: the digits of a coefficient fit in memory. *)
Definition key_ok (d : Dec) : Prop :=
  canonical d /\ in_i32 (dExp d) /\ Z.of_nat (length (big_digits (Z.abs (coeffOf d)))) < 2 ^ 62.

(** The digits and the scientific exponent of a nonzero decimal. *)
Record normal (d : Dec) (ds : bytes) (e : Z) : Prop := {
  n_digits : digits ds;
  n_head : exists c r, ds = c :: r /\ c <> 48;
  n_last : last ds <> Some 48;
  n_val : digits_val ds = Z.abs (coeffOf d);
  n_exp : e = Z.of_nat (length ds) + dExp d;
  n_range : in_i64 e }.

Lemma Mantissa_normal d : key_ok d -> coeffOf d <> 0 ->
  exists ds e, Mantissa d = (coeffOf d <? 0, ds, e) /\ normal d ds e.
Proof.
  intros (Hc & He & Hlen) Hnz. destruct d as [[c|] exp]; [|done]. unfold canonical, coeffOf in *. cbn [dCoeff dExp default id from_option] in *.
  destruct (Z.eqb_spec c 0) as [|Hc0]; [done|]. unfold Mantissa, Sign, coeffOf. cbn [dCoeff dExp default id from_option].
  destruct (big_digits_spec (Z.abs c) ltac:(lia)) as (x & ds & E & Hd & Hx & Hv & Hl). rewrite E in *.
  destruct (Z.eqb_spec (Z.sgn c) 0); [lia|].
  assert (Hr : in_i64 (Z.of_nat (length (x :: ds)) + exp)) by (unfold in_i64, in_i32 in *; lia).
  rewrite i64_id by done. exists (x :: ds), (Z.of_nat (length (x :: ds)) + exp). split.
  - f_equal. f_equal. destruct (Z.ltb_spec (Z.sgn c) 0), (Z.ltb_spec c 0); try done; exfalso; lia.
  - split; try done; [by exists x, ds|]. apply Hl. intros Hm. apply Hc.
    apply Z.rem_divide, Z.divide_abs_r, Z.mod_divide; done || lia.
Qed.

Lemma normal_bounds d ds e m : normal d ds e -> m <= dExp d ->
  10 ^ (e - 1 - m) <= Z.abs (coeffOf d) * 10 ^ (dExp d - m) < 10 ^ (e - m) /\
  Z.abs (coeffOf d) * 10 ^ (dExp d - m) = padded (e - m) ds.
Proof.
  intros [Hd (c & r & -> & Hc) _ Hv -> _] Hm. rewrite <- Hv. unfold padded.
  pose proof (digits_val_bound _ Hd). pose proof (digits_val_lower _ _ Hd Hc). cbn [length] in *.
  replace (Z.of_nat (S (length r)) + dExp d - m - Z.of_nat (S (length r))) with (dExp d - m) by lia. split; [|done].
  rewrite (pow10_split (Z.of_nat (S (length r)) + dExp d - 1 - m) (dExp d - m)), (pow10_split (Z.of_nat (S (length r)) + dExp d - m) (dExp d - m)) by lia.
  replace (Z.of_nat (S (length r)) + dExp d - 1 - m - (dExp d - m)) with (Z.of_nat (length r)) by lia.
  replace (Z.of_nat (S (length r)) + dExp d - m - (dExp d - m)) with (Z.of_nat (S (length r))) by lia.
  assert (0 < 10 ^ (dExp d - m)) by (apply Z.pow_pos_nonneg; lia). nia.
Qed.

Definition key_body (e : Z) (ds : bytes) : bytes := EncodeInt64 [] e ++ enc_digits ds.

(** The order of two bodies is the order of the magnitudes. *)
Lemma body_compare a b da db ea eb m :
  normal a da ea -> normal b db eb -> m <= dExp a -> m <= dExp b ->
  bcompare (key_body ea da) (key_body eb db) = (Z.abs (coeffOf a) * 10 ^ (dExp a - m) ?= Z.abs (coeffOf b) * 10 ^ (dExp b - m)) /\
  diverge (key_body ea da) (key_body eb db).
Proof.
  intros Na Nb Ha Hb. destruct (normal_bounds a da ea m Na Ha) as [Ba Ea]. destruct (normal_bounds b db eb m Nb Hb) as [Bb Eb].
  pose proof (n_exp _ _ _ Na). pose proof (n_exp _ _ _ Nb).
  assert (Hlen : forall v, length (EncodeInt64 [] v) = 8%nat) by (intros v; unfold EncodeInt64; by rewrite app_nil_l, length_be).
  unfold key_body. rewrite EncodeInt64_compare_app by apply n_range with (1 := Na) || apply (n_range _ _ _ Nb).
  assert (Hdiv : ea = eb -> bcompare (enc_digits da) (enc_digits db) = (padded (ea - m) da ?= padded (ea - m) db) /\ diverge (enc_digits da) (enc_digits db)).
  { intros E. apply digits_compare; [apply Na|apply Nb|right; apply Na|right; apply Nb|lia|lia]. }
  split.
  - destruct (Z.compare_spec ea eb) as [E|E|E].
    + by rewrite (proj1 (Hdiv E)), Ea, Eb, E.
    + symmetry. apply Z.compare_lt_iff. pose proof (Z.pow_le_mono_r 10 (ea - m) (eb - 1 - m)). lia.
    + symmetry. apply Z.compare_gt_iff. pose proof (Z.pow_le_mono_r 10 (eb - m) (ea - 1 - m)). lia.
  - apply diverge_app; [by rewrite !Hlen|]. intros E. apply Hdiv. apply Z.compare_eq_iff.
    pose proof (EncodeInt64_compare_app [] ea eb [] [] (n_range _ _ _ Na) (n_range _ _ _ Nb)) as Hc. rewrite E, bcompare_refl in Hc.
    by destruct (ea ?= eb).
Qed.

Lemma key_body_ok e ds : digits ds -> bytes_ok (key_body e ds).
Proof.
  intros Hd. apply Forall_app. split; [unfold EncodeInt64; apply be_ok|]. apply Forall_app. split; [|by repeat constructor].
  apply Forall_map. eapply Forall_impl; [exact Hd|]. unfold is_byte. cbn. lia.
Qed.

Lemma EncodeDecimal_nonzero b d ds e : Mantissa d = (coeffOf d <? 0, ds, e) -> normal d ds e ->
  EncodeDecimal b d = b ++ (if coeffOf d <? 0 then decMarkerNeg else decMarkerPos) :: map (flip (coeffOf d <? 0)) (key_body e ds).
Proof. intros E N. unfold EncodeDecimal. rewrite E. by destruct (n_head _ _ _ N) as (c & r & -> & _). Qed.

Lemma EncodeDecimal_zero b d : coeffOf d = 0 -> EncodeDecimal b d = b ++ [decMarkerZero].
Proof.
  intros H. unfold EncodeDecimal, Mantissa, Sign. unfold coeffOf in H. destruct (dCoeff d) as [c|]; cbn in H; [subst|]; done.
Qed.

Lemma scaled_sign m d : m <= dExp d -> Z.sgn (scaled m d) = Z.sgn (coeffOf d).
Proof.
  intros H. unfold scaled. rewrite Z.sgn_mul. assert (0 < 10 ^ (dExp d - m)) by (apply Z.pow_pos_nonneg; lia).
  rewrite (Z.sgn_pos (10 ^ _)) by done. lia.
Qed.

(** The key encoding of decimals preserves their order: the byte order
    of two keys that go on with encoded decimals is the numeric order of
    the decimals, and equal decimals leave it to what follows. *)
Lemma EncodeDecimal_order b x y r s :
  key_ok x -> key_ok y ->
  bcompare (EncodeDecimal b x ++ r) (EncodeDecimal b y ++ s) = match Cmp x y with Eq => bcompare r s | c => c end.
Proof.
  intros Hx Hy. set (m := Z.min (dExp x) (dExp y)). rewrite (Cmp_scaled m) by (unfold m; lia).
  pose proof (scaled_sign m x ltac:(unfold m; lia)) as Sx. pose proof (scaled_sign m y ltac:(unfold m; lia)) as Sy.
  destruct (decide (coeffOf x = 0)) as [Zx|Nx], (decide (coeffOf y = 0)) as [Zy|Ny].
  - rewrite !EncodeDecimal_zero, <- !app_assoc, bcompare_app by done. cbn [app bcompare]. rewrite Z.compare_refl.
    rewrite Zx in Sx. rewrite Zy in Sy. by rewrite (proj1 (Z.sgn_null_iff _) Sx), (proj1 (Z.sgn_null_iff _) Sy).
  - destruct (Mantissa_normal y Hy Ny) as (ds & e & E & N). rewrite (EncodeDecimal_zero b x), (EncodeDecimal_nonzero b y ds e) by done.
    rewrite <- !app_assoc, bcompare_app. cbn [app bcompare]. rewrite Zx in Sx. rewrite (proj1 (Z.sgn_null_iff _) Sx).
    destruct (Z.ltb_spec (coeffOf y) 0); cbn; [assert (scaled m y < 0) by lia|assert (0 < scaled m y) by lia]; destruct (scaled m y); done || lia.
  - destruct (Mantissa_normal x Hx Nx) as (ds & e & E & N). rewrite (EncodeDecimal_zero b y), (EncodeDecimal_nonzero b x ds e) by done.
    rewrite <- !app_assoc, bcompare_app. cbn [app bcompare]. rewrite Zy in Sy. rewrite (proj1 (Z.sgn_null_iff _) Sy).
    destruct (Z.ltb_spec (coeffOf x) 0); cbn; [assert (scaled m x < 0) by lia|assert (0 < scaled m x) by lia]; destruct (scaled m x); done || lia.
  - destruct (Mantissa_normal x Hx Nx) as (dx & ex & Ex & NMx). destruct (Mantissa_normal y Hy Ny) as (dy & ey & Ey & NMy).
    rewrite (EncodeDecimal_nonzero b x dx ex), (EncodeDecimal_nonzero b y dy ey), <- !app_assoc, bcompare_app by done. cbn [app bcompare].
    destruct (body_compare x y dx dy ex ey m NMx NMy ltac:(unfold m; lia) ltac:(unfold m; lia)) as [Hc Hd].
    destruct (Z.ltb_spec (coeffOf x) 0) as [Hnx|Hnx], (Z.ltb_spec (coeffOf y) 0) as [Hny|Hny]; cbn [Z.compare Pos.compare Pos.compare_cont decMarkerNeg decMarkerPos].
    + rewrite flip_compare by (try apply key_body_ok; try apply NMx; try apply NMy; done). rewrite Hc. unfold scaled.
      rewrite !Z.abs_neq, !Z.mul_opp_l, Z.compare_opp by lia. rewrite Z.compare_antisym. by destruct (coeffOf x * _ ?= coeffOf y * _).
    + symmetry. replace (scaled m x ?= scaled m y) with Lt by (symmetry; apply Z.compare_lt_iff; lia). done.
    + symmetry. replace (scaled m x ?= scaled m y) with Gt by (symmetry; apply Z.compare_gt_iff; lia). done.
    + rewrite flip_compare by (try apply key_body_ok; try apply NMx; try apply NMy; done). rewrite Hc. unfold scaled.
      rewrite !Z.abs_eq by lia. by destruct (coeffOf x * _ ?= coeffOf y * _).
Qed.

(** ** Decoding a key *)

Lemma flip_byte neg c : is_byte c -> flip neg (flip neg c) = c.
Proof. intros H. destruct neg; [|done]. unfold flip. rewrite (compl8 c) by done. rewrite compl8 by (unfold is_byte in *; lia). lia. Qed.
Lemma flip_bytes neg l : bytes_ok l -> map (flip neg) (map (flip neg) l) = l.
Proof. induction 1 as [|c l Hc _ IH]; [done|]. cbn [map]. by rewrite IH, flip_byte. Qed.

Lemma decode_digits_enc neg ds r : digits ds -> forall acc, decode_digits neg (map (flip neg) (enc_digits ds) ++ r) acc = Ok (r, acc ++ ds).
Proof.
  induction 1 as [|c ds Hc _ IH]; intros acc; unfold enc_digits; cbn [map app decode_digits].
  - rewrite flip_byte by (unfold is_byte, decTerminator; lia). by rewrite app_nil_r.
  - rewrite flip_byte by (unfold is_byte; lia). unfold decTerminator at 1. destruct (Z.eqb_spec (c - 48 + 1) 0); [lia|].
    destruct (Z.ltb_spec (c - 48 + 1) 1); [lia|]. destruct (Z.ltb_spec 10 (c - 48 + 1)); [lia|]. cbn [orb].
    change (map (fun c => c - 48 + 1) ds ++ [decTerminator]) with (enc_digits ds). rewrite IH, <- app_assoc. do 3 f_equal. cbn. f_equal. lia.
Qed.

Lemma forallb_digits ds : digits ds -> forallb is_digit ds = true.
Proof.
  intros H. apply forallb_forall. intros c Hc. rewrite Forall_forall in H. apply list_elem_of_In, H in Hc. unfold is_digit.
  destruct (Z.leb_spec 48 c), (Z.leb_spec c 57); done || lia.
Qed.

Definition exp_in_range (d : Dec) : bool := (- maxExp <=? dExp d) && (dExp d <=? maxExp).

(** The signed coefficient from its digits. *)
Lemma signed_digits d ds : digits_val ds = Z.abs (coeffOf d) -> (if coeffOf d <? 0 then - digits_val ds else digits_val ds) = coeffOf d.
Proof. intros ->. destruct (Z.ltb_spec (coeffOf d) 0); lia. Qed.

Lemma FromMantissa_normal d ds e : key_ok d -> normal d ds e ->
  FromMantissa (coeffOf d <? 0) ds e = if exp_in_range d then Ok d else Err ExponentRange.
Proof.
  intros (Hc & He & _) [Hd (c & r & Eds & _) _ Hv -> _]. unfold FromMantissa. rewrite Eds, <- Eds, forallb_digits by done. cbn [negb].
  rewrite (signed_digits d ds Hv). replace (Z.of_nat (length ds) + dExp d - Z.of_nat (length ds)) with (dExp d) by lia.
  assert (Hi : in_i64 (dExp d)) by (unfold in_i64, in_i32 in *; lia). rewrite (i64_id _ Hi), (i32_id _ He), (canon_id d Hc).
  unfold exp_in_range. destruct (Z.ltb_spec maxExp (dExp d)), (Z.ltb_spec (dExp d) (- maxExp)), (Z.leb_spec (- maxExp) (dExp d)), (Z.leb_spec (dExp d) maxExp);
    done || lia.
Qed.

(** A decimal key decodes to the decimal that was encoded, leaving what
    follows it, exactly when the canonical exponent is at most 2000 either
    way; beyond it, the key is refused. *)
Lemma DecodeDecimal_roundtrip d r :
  key_ok d -> DecodeDecimal (EncodeDecimal [] d ++ r) = if exp_in_range d then Ok (r, d) else Err ExponentRange.
Proof.
  intros Hk. destruct (decide (coeffOf d = 0)) as [Hz|Hz].
  - rewrite EncodeDecimal_zero by done. destruct Hk as [Hc _]. destruct d as [[c|] e]; [|done]. unfold canonical, coeffOf in *. cbn in Hz, Hc. subst.
    cbn in Hc. by subst.
  - destruct (Mantissa_normal d Hk Hz) as (ds & e & E & N). rewrite (EncodeDecimal_nonzero [] d ds e) by done. cbn [app]. unfold DecodeDecimal.
    assert (Hlen : length (EncodeInt64 [] e) = 8%nat) by (unfold EncodeInt64; by rewrite app_nil_l, length_be).
    set (neg := coeffOf d <? 0) in *.
    replace ((if neg then decMarkerNeg else decMarkerPos) =? decMarkerZero) with false by (by destruct neg).
    replace ((if neg then decMarkerNeg else decMarkerPos) =? decMarkerNeg) with neg by (by destruct neg).
    replace (negb neg && negb ((if neg then decMarkerNeg else decMarkerPos) =? decMarkerPos)) with false by (by destruct neg).
    unfold key_body. rewrite map_app, <- app_assoc.
    rewrite take_app_length', drop_app_length' by (by rewrite length_map).
    rewrite length_app, length_map, Hlen. destruct (Nat.ltb_spec (8 + length (map (flip neg) (enc_digits ds) ++ r)) 8); [lia|].
    rewrite flip_bytes by (unfold EncodeInt64; apply be_ok). rewrite <- (app_nil_r (EncodeInt64 [] e)), EncodeInt64_roundtrip_app by apply N.
    cbn [rmap_err rbind]. rewrite decode_digits_enc by apply N. cbn [rbind app]. unfold neg. rewrite (FromMantissa_normal d ds e Hk N).
    by destruct (exp_in_range d).
Qed.

(** ** Text *)

(** The characters of a rendered decimal: a digit, the point or the sign. *)
Abbreviation plain s := (Forall (fun c => 45 <= c <= 57) s).

Lemma plain_cases c : 45 <= c <= 57 -> c ∈ [45; 46; 47; 48; 49; 50; 51; 52; 53; 54; 55; 56; 57].
Proof. intros H. rewrite !elem_of_cons. lia. Qed.
Lemma plain_front c r : 45 <= c <= 57 -> space_front (c :: r) = None.
Proof. intros Hi%plain_cases. repeat (apply elem_of_cons in Hi as [->|Hi]; [done|]). by apply not_elem_of_nil in Hi. Qed.
Lemma plain_back c r : 45 <= c <= 57 -> space_back (c :: r) = None.
Proof.
  intros Hi%plain_cases. repeat (apply elem_of_cons in Hi as [->|Hi]; [cbn; by repeat case_match|]). by apply not_elem_of_nil in Hi.
Qed.

Lemma trim_none space n b : space b = None -> trim space n b = b.
Proof. destruct n; cbn; [done|]. by intros ->. Qed.

Lemma TrimSpace_plain s : plain s -> TrimSpace s = s.
Proof.
  intros H. unfold TrimSpace. rewrite (trim_none space_front).
  - rewrite trim_none; [apply rev_involutive|]. apply Forall_rev in H. destruct (rev s) as [|c r]; [done|]. apply plain_back. by inversion H.
  - destruct s as [|c r]; [done|]. apply plain_front. by inversion H.
Qed.

Lemma cut_none p s : Forall (fun c => p c = false) s -> cut p s = None.
Proof. induction 1 as [|c s Hc _ IH]; [done|]. cbn [cut]. by rewrite Hc, IH. Qed.
Lemma cut_at p x c y : Forall (fun c => p c = false) x -> p c = true -> cut p (x ++ c :: y) = Some (x, y).
Proof. intros Hx Hc. induction Hx as [|a x Ha _ IH]; cbn [app cut]; [by rewrite Hc|]. by rewrite Ha, IH. Qed.

Lemma digits_plain ds : digits ds -> plain ds.
Proof. intros H. eapply Forall_impl; [exact H|]. cbn. lia. Qed.
Lemma digits_no_point ds : digits ds -> Forall (fun c => (c =? 46) = false) ds.
Proof. intros H. eapply Forall_impl; [exact H|]. intros c Hc. apply Z.eqb_neq. cbn in Hc. lia. Qed.
Lemma zeros_digits n : digits (repeat 48 n).
Proof. induction n; constructor; [lia|done]. Qed.

(** Parsing a sign, an integer part and a fraction. *)
Lemma Parse_parts (neg : bool) ip fp (point : bool) : digits (ip ++ fp) -> ip <> [] -> (point = false -> fp = []) ->
  Z.of_nat (length fp) <= maxExp ->
  Parse ((if neg then [ascii_minus] else []) ++ ip ++ (if point then 46 :: fp else [])) =
    Ok (canon (if neg then - digits_val (ip ++ fp) else digits_val (ip ++ fp)) (- Z.of_nat (length fp))).
Proof.
  intros Hd Hne Hp Hlen. pose proof Hd as Hd'. apply Forall_app in Hd as [Hi Hf].
  set (mant := ip ++ (if point then 46 :: fp else [])).
  assert (Hm : plain mant) by (apply Forall_app; split; [by apply digits_plain|]; destruct point; [constructor; [lia|by apply digits_plain]|constructor]).
  assert (Hpl : plain ((if neg then [ascii_minus] else []) ++ mant)) by (destruct neg; [constructor; [unfold ascii_minus; lia|done]|done]).
  assert (Hcut : match cut (fun c => c =? 46) mant with Some p => p | None => (mant, []) end = (ip, fp)).
  { unfold mant. destruct point; [by rewrite cut_at by (done || by apply digits_no_point)|]. rewrite (Hp eq_refl), app_nil_r.
    by rewrite cut_none by (by apply digits_no_point). }
  destruct ip as [|i0 ip']; [done|]. inversion Hi as [|? ? Hi0 _]; subst.
  unfold Parse. rewrite TrimSpace_plain by done. rewrite cut_none.
  2:{ eapply Forall_impl; [exact Hpl|]. intros c Hc. cbn in Hc. apply orb_false_iff. split; apply Z.eqb_neq; lia. }
  assert (Hs : match (if neg then [ascii_minus] else []) ++ mant with
    | c :: m => if c =? ascii_minus then (true, m) else if c =? ascii_plus then (false, m) else (false, (if neg then [ascii_minus] else []) ++ mant)
    | [] => (false, []) end = (neg, mant)).
  { destruct neg; [done|]. unfold mant, ascii_minus, ascii_plus. cbn [app]. destruct (Z.eqb_spec i0 45); [lia|]. by destruct (Z.eqb_spec i0 43); [lia|]. }
  cbn [rbind]. rewrite Hs, Hcut.
  rewrite forallb_digits by done. cbn [negb]. rewrite Z.sub_0_l, i64_id, i32_id by (unfold in_i64, in_i32, maxExp in *; lia).
  destruct (Z.ltb_spec maxExp (- Z.of_nat (length fp))); [unfold maxExp in *; lia|].
  destruct (Z.ltb_spec (- Z.of_nat (length fp)) (- maxExp)); [unfold maxExp in *; lia|].
  by destruct neg.
Qed.

(** A decimal whose text [Parse] can take back: the fraction is short
    enough, the integer part has fewer than 2^31 bits. *)
Definition text_ok (d : Dec) : Prop :=
  canonical d /\ - maxExp <= dExp d < 2 ^ 31 /\ fits (coeffOf d * 10 ^ Z.max 0 (dExp d)) 0.

(** The text of a canonical decimal parses back to it. *)
Lemma Parse_String d : text_ok d -> Parse (Dec_String d) = Ok d.
Proof.
  intros (Hc & He & Hf). unfold Dec_String. destruct d as [[c|] e]; [|done]. pose proof (canon_id _ Hc) as Hid.
  unfold canonical, coeffOf in *. cbn [dCoeff dExp default id from_option] in *.
  destruct (Z.eqb_spec c 0) as [->|Hnz]; [by subst|]. destruct (Z.eqb_spec (Z.sgn c) 0) as [|_]; [lia|].
  destruct (big_digits_spec (Z.abs c) ltac:(lia)) as (x & ds & E & Hd & Hx & Hv & _). rewrite E. set (n := length (x :: ds)).
  replace (Z.sgn c <? 0) with (c <? 0) by (destruct (Z.ltb_spec c 0), (Z.ltb_spec (Z.sgn c) 0); done || lia).
  assert (Hval : forall v, v = Z.abs c -> (if c <? 0 then - v else v) = c) by (intros v ->; destruct (Z.ltb_spec c 0); lia).
  destruct (Z.leb_spec 0 e).
  - rewrite <- (app_nil_r (_ ++ repeat _ _)). rewrite (Parse_parts (c <? 0) _ [] false); rewrite ?app_nil_r; try done.
    2:{ apply Forall_app. split; [done|apply zeros_digits]. }
    rewrite digits_val_shift, Hv, Z2Nat.id by done. f_equal. rewrite Z.max_r in Hf by done.
    destruct (canon_spec (c * 10 ^ e) 0) as (c' & k & Hk & E' & Hr & E''); [pose proof (Z.pow_nonzero 10 e); nia|done|].
    destruct (canon_unique c c' e k) as [-> ->]; try done. rewrite Z.add_0_l in E''. rewrite <- E''. f_equal. destruct (Z.ltb_spec c' 0); [rewrite Z.abs_neq by lia; lia|by rewrite Z.abs_eq].
  - rewrite i32_id by (unfold in_i32, maxExp in *; lia). destruct (Z.ltb_spec (- e) (Z.of_nat n)) as [Hlt|Hge].
    + set (k := Z.to_nat (Z.of_nat n + e)).
      assert (Hdrop : Z.of_nat (length (drop k (x :: ds))) = - e) by (rewrite length_drop; fold n; unfold k; lia).
      rewrite (Parse_parts (c <? 0) _ (drop k (x :: ds)) true); [|by rewrite take_drop| |done|unfold maxExp in *; lia].
      2:{ destruct k eqn:Ek; [unfold k in Ek; lia|done]. }
      rewrite take_drop, Hdrop, Z.opp_involutive, Hv. f_equal. by rewrite (Hval _ eq_refl).
    + set (z := Z.to_nat (- e - Z.of_nat n)).
      assert (Hlen : Z.of_nat (length (repeat 48 z ++ x :: ds)) = - e) by (rewrite length_app, repeat_length; fold n; unfold z; lia).
      change ([48; 46] ++ repeat 48 z ++ x :: ds) with ([48] ++ 46 :: repeat 48 z ++ x :: ds).
      rewrite (Parse_parts (c <? 0) [48] (repeat 48 z ++ x :: ds) true); [|constructor; [lia|]; apply Forall_app; split; [apply zeros_digits|done]|done|done|unfold maxExp in *; lia].
      rewrite Hlen, Z.opp_involutive. change ([48] ++ repeat 48 z ++ x :: ds) with (repeat 48 (S z) ++ x :: ds). rewrite digits_val_zeros, Hv.
      f_equal. by rewrite (Hval _ eq_refl).
Qed.

(** ** Exact arithmetic *)

(** A million bits and a million in the exponent are far from any overflow
    of the exponent. *)
Definition small (d : Dec) : Prop := Z.abs (dExp d) <= 1000000 /\ Z.of_nat (bits_of (coeffOf d)) <= 1000000.

Lemma bits_le c n : Z.abs c < 2 ^ n -> 1 <= n -> Z.of_nat (bits_of c) <= n.
Proof.
  intros Hc Hn. unfold bits_of. rewrite Nat2Z.inj_succ, Z2Nat.id by apply Z.log2_nonneg.
  destruct (decide (c = 0)) as [->|Hz]; [change (Z.log2 (Z.abs 0)) with 0; lia|]. pose proof (proj1 (Z.log2_lt_pow2 (Z.abs c) n ltac:(lia)) Hc) as H.
  apply Zlt_le_succ in H. exact H.
Qed.

Lemma bits_pow c : Z.abs c < 2 ^ Z.of_nat (bits_of c).
Proof. destruct (decide (c = 0)) as [->|]; [done|by apply bits_bound]. Qed.

Lemma bits_shift c k : 0 <= k -> Z.of_nat (bits_of (c * 10 ^ k)) <= Z.of_nat (bits_of c) + 4 * k.
Proof.
  intros Hk. apply bits_le; [|unfold bits_of; lia]. rewrite Z.abs_mul, Z.pow_add_r by lia. pose proof (bits_pow c) as Hc.
  assert (Hp : 0 < Z.abs (10 ^ k) <= 2 ^ (4 * k)).
  { assert (0 < 10 ^ k) by (apply Z.pow_pos_nonneg; lia). rewrite Z.abs_eq by lia. split; [done|].
    rewrite Z.pow_mul_r by lia. apply Z.pow_le_mono_l; lia. }
  nia.
Qed.

Lemma bits_add x y n : Z.of_nat (bits_of x) <= n -> Z.of_nat (bits_of y) <= n -> Z.of_nat (bits_of (x + y)) <= n + 1.
Proof.
  intros Hx Hy. assert (0 < n) by (unfold bits_of in Hx; lia). apply bits_le; [|lia]. rewrite Z.pow_add_r, Z.pow_1_r by lia.
  pose proof (bits_pow x). pose proof (bits_pow y). pose proof (Z.pow_le_mono_r 2 _ n ltac:(lia) Hx). pose proof (Z.pow_le_mono_r 2 _ n ltac:(lia) Hy). lia.
Qed.

Lemma bits_opp x : bits_of (- x) = bits_of x.
Proof. unfold bits_of. by rewrite Z.abs_opp. Qed.

Lemma bits_mul x y : Z.of_nat (bits_of (x * y)) <= Z.of_nat (bits_of x) + Z.of_nat (bits_of y).
Proof.
  apply bits_le; [|unfold bits_of; lia]. rewrite Z.abs_mul, Z.pow_add_r by lia. pose proof (bits_pow x). pose proof (bits_pow y). nia.
Qed.

Lemma canon_exact m c e : Z.of_nat (bits_of c) <= 20000000 -> Z.abs e <= 2000000 -> m <= e -> m <= 0 ->
  scaled m (canon c e) = c * 10 ^ (e - m) /\ canonical (canon c e).
Proof.
  intros Hc He Hm H0. assert (Hf : fits c e) by (unfold fits; lia).
  split; [apply canon_scaled; auto|by apply canon_canonical].
Qed.

(** Addition, subtraction and multiplication are exact and canonical: in
    units of a power of ten below both exponents the results are the
    integer results; comparison is the integer comparison. *)
Theorem decimal_arith_exact m a b :
  small a -> small b -> m <= dExp a -> m <= dExp b -> m <= 0 ->
  (scaled m (Add a b) = scaled m a + scaled m b /\ canonical (Add a b)) /\
  (scaled m (Sub a b) = scaled m a - scaled m b /\ canonical (Sub a b)) /\
  (scaled (m + m) (Mul a b) = scaled m a * scaled m b /\ canonical (Mul a b)) /\
  Cmp a b = (scaled m a ?= scaled m b).
Proof.
  intros [Ea Ba] [Eb Bb] Hma Hmb Hm.
  destruct (align_scaled a b) as (ca & cb & e & Hal & He & Hca & Hcb). unfold Add, Sub. rewrite Hal.
  pose proof (bits_shift (coeffOf a) (dExp a - e) ltac:(lia)) as Sa. change (coeffOf a * 10 ^ (dExp a - e)) with (scaled e a) in Sa. rewrite <- Hca in Sa.
  pose proof (bits_shift (coeffOf b) (dExp b - e) ltac:(lia)) as Sb. change (coeffOf b * 10 ^ (dExp b - e)) with (scaled e b) in Sb. rewrite <- Hcb in Sb.
  rewrite (scaled_lower e m a), (scaled_lower e m b), <- Hca, <- Hcb by lia. split; [|split; [|split]].
  - pose proof (bits_add ca cb 9000000 ltac:(lia) ltac:(lia)). destruct (canon_exact m (ca + cb) e) as [-> ?]; [lia..|]. split; [lia|done].
  - pose proof (bits_add ca (- cb) 9000000 ltac:(lia) ltac:(rewrite bits_opp; lia)). rewrite Z.add_opp_r in *.
    destruct (canon_exact m (ca - cb) e) as [-> ?]; [lia..|]. split; [lia|done].
  - rewrite Hca, Hcb, <- !scaled_lower by lia. unfold Mul, scaled, coeffOf in *. destruct (dCoeff a) as [x|]; [|done].
    destruct (dCoeff b) as [y|]; [|cbn; split; [lia|done]]. cbn [default id from_option] in *. rewrite i32_id by (unfold in_i32; lia).
    pose proof (bits_mul x y). destruct (canon_exact (m + m) (x * y) (dExp a + dExp b)) as [E ?]; [lia..|]. split; [|done].
    unfold scaled, coeffOf in E. rewrite E. replace (dExp a + dExp b - (m + m)) with (dExp a - m + (dExp b - m)) by lia. rewrite Z.pow_add_r by lia. lia.
  - rewrite (Cmp_scaled m) by lia. by rewrite (scaled_lower e m a), (scaled_lower e m b), <- Hca, <- Hcb by lia.
Qed.

(** The rounding of [DivQuantize]: the nearest integer, the even one of two
    that are equally near. *)
Lemma round_half_even_nearest num den : 0 <= num -> 0 < den ->
  let q := round_half_even num den in
  2 * Z.abs (num - q * den) <= den /\ (2 * Z.abs (num - q * den) = den -> Z.even q = true).
Proof.
  intros Hn Hd. unfold round_half_even. pose proof (Z.quot_rem' num den). pose proof (Z.rem_bound_pos num den Hn Hd).
  destruct (Z.compare_spec (Z.rem num den * 2) den) as [E|E|E]; cbn zeta.
  - destruct (Z.odd (Z.quot num den)) eqn:Ho.
    + split; [lia|]. intros _. rewrite Z.add_1_r, Z.even_succ. done.
    + split; [lia|]. intros _. by rewrite <- Z.negb_odd, Ho.
  - split; lia.
  - split; lia.
Qed.

(** A decimal key is made of bytes. *)
Lemma flip_ok neg l : bytes_ok l -> bytes_ok (map (flip neg) l).
Proof.
  intros H. apply Forall_map. eapply Forall_impl; [exact H|]. intros c Hc. unfold flip. destruct neg; [|done].
  rewrite compl8 by done. unfold is_byte in *. lia.
Qed.
Lemma EncodeDecimal_ok d : key_ok d -> bytes_ok (EncodeDecimal [] d).
Proof.
  intros Hk. destruct (decide (coeffOf d = 0)) as [Hz|Hz]; [rewrite EncodeDecimal_zero by done; by repeat constructor|].
  destruct (Mantissa_normal d Hk Hz) as (ds & e & E & N). rewrite (EncodeDecimal_nonzero [] d ds e) by done. cbn [app].
  constructor; [by destruct (_ <? _)|]. apply flip_ok, key_body_ok, N.
Qed.
