(* ===== verification/Datum.v ===== *)
(** * SQL values and table descriptors (pkg/sql/types, pkg/sql/catalog)

    The values rows are made of and the part of a table descriptor that row
    encoding reads.  A float is its IEEE bit pattern.  Conversions between
    families read and print text, times and JSON; they are the functions of
    the class [Conversions], about which nothing is assumed. *)

From S2P Require Import Prelude Encoding Strconv Decimal.

#[local] Abbreviation length := Datatypes.length.
#[local] Open Scope list_scope.
Open Scope Z_scope.

(** ** Families *)

Abbreviation Family := Z (only parsing).
Definition Unknown : Family := 0.
Definition FInt : Family := 1.
Definition FFloat : Family := 2.
Definition FString : Family := 3.
Definition FBool : Family := 4.
Definition FTimestamp : Family := 5.
Definition FDate : Family := 6.
Definition FBytes : Family := 7.
Definition FUuid : Family := 8.
Definition FDecimal : Family := 9.
Definition FJsonb : Family := 10.
Definition FInterval : Family := 11.
Definition FTime : Family := 12.
Definition FArray : Family := 13.
Definition FEnum : Family := 14.

Definition ArrayOf (elem : Family) : Family := Z.lor FArray (i64 (Z.shiftl elem 8)).
Definition IsArray (f : Family) : bool := (Z.land f 255 =? FArray) && negb (Z.shiftr f 8 =? 0).
Definition Elem (f : Family) : Family := if negb (IsArray f) then Unknown else Z.shiftr f 8.

(** ** Datums *)

Inductive Datum := mkDatum {
  Null : bool;
  Fam : Family;
  dI : Z;           (* int64 *)
  dF : Z;           (* the bits of a float64 *)
  dS : bytes;
  dB : bool;
  Dscale : Z; NoTZ : bool; Pad : Z;   (* display only *)
  Mo : Z; Dy : Z;   (* int64 *)
  dA : list Datum }.

Definition datum0 : Datum := mkDatum false Unknown 0 0 [] false 0 false 0 0 0 [].
Definition DNull : Datum := mkDatum true Unknown 0 0 [] false 0 false 0 0 0 [].
Definition with_I (f : Family) (v : Z) : Datum := mkDatum false f v 0 [] false 0 false 0 0 0 [].
Definition with_S (f : Family) (s : bytes) : Datum := mkDatum false f 0 0 s false 0 false 0 0 0 [].
Definition NewInt (v : Z) : Datum := with_I FInt v.
Definition NewFloat (bits : Z) : Datum := mkDatum false FFloat 0 bits [] false 0 false 0 0 0 [].
Definition NewBool (b : bool) : Datum := mkDatum false FBool 0 0 [] b 0 false 0 0 0 [].
Definition NewDecimal (canonical : bytes) : Datum := with_S FDecimal canonical.
Definition NewEnum (ordinal : Z) (label : bytes) : Datum := mkDatum false FEnum ordinal 0 label false 0 false 0 0 0 [].
Definition NewArray (elem : Family) (elems : list Datum) : Datum := mkDatum false (ArrayOf elem) 0 0 [] false 0 false 0 0 0 elems.

Record Interval := mkInterval { Months : Z; Days : Z; Nanos : Z }.
Definition NanosPerDay : Z := 86400000000000.
Definition NewInterval (iv : Interval) : Datum := mkDatum false FInterval (Nanos iv) 0 [] false 0 false 0 (Months iv) (Days iv) [].
Definition IntervalVal (d : Datum) : Interval := mkInterval (Mo d) (Dy d) (dI d).
(** int64 arithmetic, which wraps. *)
Definition CmpValue (iv : Interval) : Z := i64 ((Months iv * 30 + Days iv) * NanosPerDay + Nanos iv).

Definition DecimalVal (d : Datum) : result decimal_err Dec := Parse (dS d).

(** ** Comparison *)

(** IEEE comparison of bit patterns: not-a-number compares with nothing,
    the two zeros are equal. *)
Definition f64_nan (bits : Z) : bool := 2047 * 2 ^ 52 <? bits mod 2 ^ 63.
Definition f64_zero (bits : Z) : bool := bits mod 2 ^ 63 =? 0.
Definition f64_lt (a b : Z) : bool :=
  negb (f64_nan a) && negb (f64_nan b) && negb (f64_zero a && f64_zero b) && (f64_order a <? f64_order b).
Definition cmpFloat (a b : Z) : comparison := if f64_lt a b then Lt else if f64_lt b a then Gt else Eq.
Definition cmpBool (a b : bool) : comparison :=
  match a, b with false, true => Lt | true, false => Gt | _, _ => Eq end.

(** The families stored as one int64. *)
Definition is_int_family (f : Family) : bool := (f =? FInt) || (f =? FTimestamp) || (f =? FDate) || (f =? FTime).
(** The families stored as a byte string in keys. *)
Definition is_text_family (f : Family) : bool := (f =? FString) || (f =? FBytes) || (f =? FUuid).

(** [Compare] of two datums of one scalar family; [None] is an error.  (Of
    different families, the code compares numbers with each other, enums
    with text, and arrays element by element.) *)
Definition Compare (d o : Datum) : option comparison :=
  if Null d || Null o then None
  else if negb (Fam d =? Fam o) then None
  else if Fam d =? FDecimal then
    match DecimalVal d, DecimalVal o with Ok a, Ok b => Some (Cmp a b) | _, _ => None end
  else if (Fam d =? FEnum) || is_int_family (Fam d) then Some (dI d ?= dI o)
  else if Fam d =? FInterval then Some (CmpValue (IntervalVal d) ?= CmpValue (IntervalVal o))
  else if Fam d =? FFloat then Some (cmpFloat (dF d) (dF o))
  else if is_text_family (Fam d) then Some (bcompare (dS d) (dS o))
  else if Fam d =? FBool then Some (cmpBool (dB d) (dB o))
  else if Fam d =? FJsonb then (if beqb (dS d) (dS o) then Some Eq else None)
  else None.

(** ** Table descriptors *)

Record Column := mkColumn {
  cID : Z;                        (* int32 *)
  cType : Family;
  cDefault : option Datum;
  FillDefault : bool;
  RetypeFrom : Z }.

Record IndexDescriptor := mkIndex { ixID : Z; ixUnique : bool; ixColumnIDs : list Z }.

Record TableDescriptor := mkTable {
  tID : Z;
  tColumns : list Column;
  tPrimaryKey : list Z;
  tShardBuckets : Z;
  tPrimaryIndex : Z }.

Definition LivePrimaryIndex (d : TableDescriptor) : Z := if negb (tPrimaryIndex d =? 0) then tPrimaryIndex d else 1.

Definition col_by_id (cols : list Column) (id : Z) : option Column := List.find (fun c => cID c =? id) cols.
Definition ColByID (d : TableDescriptor) (id : Z) : option Column := col_by_id (tColumns d) id.
Definition column0 : Column := mkColumn 0 Unknown None false 0.
Definition IsPKCol (d : TableDescriptor) (id : Z) : bool := existsb (Z.eqb id) (tPrimaryKey d).

(** ** Conversions *)

Class Conversions := {
  (** The conversions of [Coerce] between different families. *)
  convert : Datum -> Family -> option Datum;
  (** [ConvertTo] and [Conform] of a shadow column's value, as [EncodeValue]
      applies them during ALTER COLUMN TYPE. *)
  retype : Column -> Datum -> option Datum }.

Definition Coerce {CV : Conversions} (d : Datum) (target : Family) : option Datum :=
  if Null d then Some DNull else if Fam d =? target then Some d else convert d target.
