(* ===== verification/Rowenc.v ===== *)
(** * Row encoding (pkg/sql/rowenc/rowenc.go, shard.go; the scan bounds of
      pkg/sql/access.go)

    A row is a key of order-preserving encodings of its primary-key columns
    and a value of tagged columns; an index entry is a key of the indexed
    columns that leads back to the row.  A row is a map from column IDs. *)

From stdpp Require Import sorting.
From S2P Require Import Prelude Encoding Keys Strconv Decimal Datum.

#[local] Abbreviation length := Datatypes.length.
#[local] Open Scope list_scope.
Open Scope Z_scope.

Inductive row_err :=
| PKCount | NullPK | CannotConvert | Unencodable (f : Family)
| InDatum (e : dec_err) | InDecimalDatum (e : decimal_err)
| NotInIndex | CorruptRow | UnknownColumn (id : Z) | BadUUID | NullIndexKey | IndexColumns | NotSharded.

Abbreviation row := (gmap Z Datum) (only parsing).

Definition PrimaryIndexID : Z := 1.
Definition valueVersion : byte := 1.

Definition PrimaryKeyPrefix (tableID : Z) : bytes := TableIndexPrefix tableID PrimaryIndexID.
Definition PrimaryKeyPrefixFor (desc : TableDescriptor) : bytes := TableIndexPrefix (tID desc) (LivePrimaryIndex desc).
Definition PrimarySpan (tableID : Z) : bytes * bytes := TableIndexSpan tableID PrimaryIndexID.
Definition PrimarySpanFor (desc : TableDescriptor) : bytes * bytes := TableIndexSpan (tID desc) (LivePrimaryIndex desc).

Definition lift_dec {A} (m : result dec_err A) : result row_err A := rmap_err InDatum m.
Definition lift_decimal {A} (m : result decimal_err A) : result row_err A := rmap_err InDecimalDatum m.
Definition lift_conv {A} (m : option A) : result row_err A := match m with Some a => Ok a | None => Err CannotConvert end.

Section Rows.
Context {CV : Conversions}.

(** ** Keys *)

Definition appendDatum (k : bytes) (fam : Family) (d : Datum) : result row_err bytes :=
  let* d := lift_conv (Coerce d fam) in
  if is_int_family fam then Ok (EncodeInt64 k (dI d))
  else if fam =? FEnum then Ok (EncodeString (EncodeInt64 k (dI d)) (dS d))
  else if fam =? FInterval then
    let iv := IntervalVal d in
    Ok (EncodeInt64 (EncodeInt64 (EncodeInt64 k (CmpValue iv)) (Months iv)) (Days iv))
  else if fam =? FFloat then Ok (EncodeFloat64 k (dF d))
  else if is_text_family fam then Ok (EncodeString k (dS d))
  else if fam =? FBool then Ok (EncodeBool k (dB d))
  else if fam =? FDecimal then let* v := lift_decimal (DecimalVal d) in Ok (EncodeDecimal k v)
  else Err (Unencodable fam).

Definition AppendKeyDatum := appendDatum.

(** The encodings of some columns' values, one after the other. *)
Fixpoint append_cols (k : bytes) (fams : list Family) (vals : list Datum) : result row_err bytes :=
  match fams, vals with
  | f :: fams, d :: vals => if Null d then Err NullPK else let* k := appendDatum k f d in append_cols k fams vals
  | _, _ => Ok k
  end.

(** The type of a column of the descriptor; the zero column's for an ID it
    does not know, as the code reads it. *)
Definition col_type (desc : TableDescriptor) (id : Z) : Family := cType (default column0 (ColByID desc id)).

Definition EncodePKAt (desc : TableDescriptor) (indexID : Z) (pkVals : list Datum) : result row_err bytes :=
  if negb (length pkVals =? length (tPrimaryKey desc))%nat then Err PKCount
  else append_cols (TableIndexPrefix (tID desc) indexID) (map (col_type desc) (tPrimaryKey desc)) pkVals.
Definition EncodePK (desc : TableDescriptor) (pkVals : list Datum) : result row_err bytes :=
  EncodePKAt desc (LivePrimaryIndex desc) pkVals.

Definition decodeKeyDatum (rest : bytes) (fam : Family) : result row_err (bytes * Datum) :=
  if is_int_family fam then let* (rest, v) := lift_dec (DecodeInt64 rest) in Ok (rest, with_I fam v)
  else if fam =? FEnum then
    let* (rest, ord) := lift_dec (DecodeInt64 rest) in
    let* (rest, label) := lift_dec (DecodeString rest) in
    Ok (rest, NewEnum ord label)
  else if fam =? FInterval then
    let* (rest, cmp) := lift_dec (DecodeInt64 rest) in
    let* (rest, months) := lift_dec (DecodeInt64 rest) in
    let* (rest, days) := lift_dec (DecodeInt64 rest) in
    Ok (rest, NewInterval (mkInterval months days (i64 (cmp - (months * 30 + days) * NanosPerDay))))
  else if fam =? FFloat then let* (rest, v) := lift_dec (DecodeFloat64 rest) in Ok (rest, NewFloat v)
  else if is_text_family fam then let* (rest, v) := lift_dec (DecodeString rest) in Ok (rest, with_S fam v)
  else if fam =? FBool then let* (rest, v) := lift_dec (DecodeBool rest) in Ok (rest, NewBool v)
  else if fam =? FDecimal then let* (rest, v) := lift_decimal (DecodeDecimal rest) in Ok (rest, NewDecimal (Dec_String v))
  else Err (Unencodable fam).

Fixpoint decode_cols (rest : bytes) (fams : list Family) : result row_err (bytes * list Datum) :=
  match fams with
  | [] => Ok (rest, [])
  | f :: fams =>
      let* (rest, d) := decodeKeyDatum rest f in
      let* (rest, ds) := decode_cols rest fams in
      Ok (rest, d :: ds)
  end.

Definition DecodePK (desc : TableDescriptor) (key : bytes) : result row_err (list Datum) :=
  let prefix := PrimaryKeyPrefixFor desc in
  if negb (has_prefix key prefix) then Err NotInIndex
  else
    let* (_, out) := decode_cols (drop (length prefix) key) (map (col_type desc) (tPrimaryKey desc)) in
    Ok out.

Definition skipDatum (b : bytes) (fam : Family) : result row_err bytes :=
  if is_int_family fam then let* (b, _) := lift_dec (DecodeInt64 b) in Ok b
  else if fam =? FEnum then
    let* (b, _) := lift_dec (DecodeInt64 b) in let* (b, _) := lift_dec (DecodeString b) in Ok b
  else if fam =? FInterval then
    let* (b, _) := lift_dec (DecodeInt64 b) in
    let* (b, _) := lift_dec (DecodeInt64 b) in
    let* (b, _) := lift_dec (DecodeInt64 b) in Ok b
  else if fam =? FFloat then let* (b, _) := lift_dec (DecodeFloat64 b) in Ok b
  else if is_text_family fam then let* (b, _) := lift_dec (DecodeString b) in Ok b
  else if fam =? FBool then let* (b, _) := lift_dec (DecodeBool b) in Ok b
  else if fam =? FDecimal then let* (b, _) := lift_decimal (DecodeDecimal b) in Ok b
  else Err (Unencodable fam).

Fixpoint skip_cols (b : bytes) (fams : list Family) : result row_err bytes :=
  match fams with [] => Ok b | f :: fams => let* b := skipDatum b f in skip_cols b fams end.

(** The nanoseconds of a trailing timestamp column; [None] when the key does
    not have one. *)
Definition DecodeTrailingTimestamp (rest : bytes) (fams : list Family) : option Z :=
  match last fams with
  | Some f =>
      if negb (f =? FTimestamp) then None
      else
        match skip_cols rest (removelast fams) with
        | Err _ => None
        | Ok rest =>
            match DecodeInt64 rest with
            | Ok (tail, nanos) => if (length tail =? 0)%nat then Some nanos else None
            | Err _ => None
            end
        end
  | None => None
  end.

(** ** Index entries *)

Fixpoint index_cols (desc : TableDescriptor) (k : bytes) (ids : list Z) (vals : list Datum) : result row_err bytes :=
  match ids, vals with
  | id :: ids, d :: vals =>
      match ColByID desc id with
      | None => Err (UnknownColumn id)
      | Some col => if Null d then Err NullIndexKey else let* k := appendDatum k (cType col) d in index_cols desc k ids vals
      end
  | _, _ => Ok k
  end.

Definition EncodeIndexPrefix (desc : TableDescriptor) (idx : IndexDescriptor) (vals : list Datum) : result row_err bytes :=
  if (length (ixColumnIDs idx) <? length vals)%nat then Err IndexColumns
  else index_cols desc (TableIndexPrefix (tID desc) (ixID idx)) (ixColumnIDs idx) vals.

Definition nonUniqueIndexValue : bytes := [0].

(** The indexed values; [None] when one is missing or NULL. *)
Fixpoint index_vals (r : row) (ids : list Z) : option (list Datum) :=
  match ids with
  | [] => Some []
  | id :: ids =>
      match r !! id with
      | Some d => if Null d then None else match index_vals r ids with Some ds => Some (d :: ds) | None => None end
      | None => None
      end
  end.

(** The encoded primary key of a row, without any prefix; a column the row
    lacks reads as the zero datum. *)
Fixpoint pk_suffix (desc : TableDescriptor) (r : row) (k : bytes) (ids : list Z) : result row_err bytes :=
  match ids with
  | [] => Ok k
  | id :: ids => let* k := appendDatum k (col_type desc id) (default datum0 (r !! id)) in pk_suffix desc r k ids
  end.

(** [None] is a row that has no entry in the index. *)
Definition EncodeIndexEntryAt (desc : TableDescriptor) (idx : IndexDescriptor) (entryID : Z) (r : row)
    : result row_err (option (bytes * bytes)) :=
  match index_vals r (ixColumnIDs idx) with
  | None => Ok None
  | Some vals =>
      let* k := EncodeIndexPrefix desc (mkIndex entryID (ixUnique idx) (ixColumnIDs idx)) vals in
      let* pkEnc := pk_suffix desc r [] (tPrimaryKey desc) in
      if ixUnique idx then Ok (Some (k, pkEnc)) else Ok (Some (k ++ pkEnc, nonUniqueIndexValue))
  end.
Definition EncodeIndexEntry (desc : TableDescriptor) (idx : IndexDescriptor) (r : row) :=
  EncodeIndexEntryAt desc idx (ixID idx) r.

Fixpoint skip_index (desc : TableDescriptor) (b : bytes) (ids : list Z) : result row_err bytes :=
  match ids with
  | [] => Ok b
  | id :: ids =>
      match ColByID desc id with
      | None => Err (UnknownColumn id)
      | Some col => let* b := skipDatum b (cType col) in skip_index desc b ids
      end
  end.

Definition IndexEntryPrimaryKey (desc : TableDescriptor) (idx : IndexDescriptor) (key value : bytes) : result row_err bytes :=
  if ixUnique idx then Ok (PrimaryKeyPrefixFor desc ++ value)
  else
    let prefix := TableIndexPrefix (tID desc) (ixID idx) in
    if negb (has_prefix key prefix) then Err NotInIndex
    else
      let* rest := skip_index desc (drop (length prefix) key) (ixColumnIDs idx) in
      Ok (PrimaryKeyPrefixFor desc ++ rest).

(** ** Values *)

Definition tagInt : byte := 1.
Definition tagFloat : byte := 2.
Definition tagString : byte := 3.
Definition tagBool : byte := 4.
Definition tagTimestamp : byte := 5.
Definition tagDate : byte := 6.
Definition tagBytes : byte := 7.
Definition tagUUID : byte := 8.
Definition tagNull : byte := 9.
Definition tagDecimal : byte := 10.
Definition tagJsonb : byte := 11.
Definition tagInterval : byte := 12.
Definition tagTime : byte := 13.
Definition tagArray : byte := 14.
Definition tagEnum : byte := 15.

(** The shadow columns of an ALTER COLUMN TYPE take the converted value of
    their original, in the row the caller passed. *)
Fixpoint retype_cols (cols : list Column) (r : row) : result row_err row :=
  match cols with
  | [] => Ok r
  | col :: cols =>
      if RetypeFrom col =? 0 then retype_cols cols r
      else
        match r !! RetypeFrom col with
        | None => retype_cols cols r
        | Some src => let* d := lift_conv (retype col src) in retype_cols cols (<[cID col := d]> r)
        end
  end.

(** The columns that are stored: not in the key, and not NULL unless an
    absent column would read as its default. *)
Definition stored_col (desc : TableDescriptor) (id : Z) (d : Datum) : bool :=
  negb (IsPKCol desc id) &&
  (negb (Null d) || match ColByID desc id with Some col => FillDefault col | None => false end).

Definition stored_ids (desc : TableDescriptor) (r : row) : list Z :=
  merge_sort Z.le (map fst (List.filter (fun p => stored_col desc p.1 p.2) (map_to_list r))).

Fixpoint encode_elems (elem : Family) (es : list Datum) (out : bytes) : result row_err bytes :=
  match es with
  | [] => Ok out
  | e :: es =>
      if Null e then encode_elems elem es (out ++ [0])
      else let* k := appendDatum [] elem e in encode_elems elem es (out ++ [1] ++ k)
  end.

Definition int_tag (f : Family) : byte :=
  if f =? FTimestamp then tagTimestamp else if f =? FDate then tagDate else if f =? FTime then tagTime else tagInt.
Definition string_tag (f : Family) : byte :=
  if f =? FBytes then tagBytes else if f =? FDecimal then tagDecimal else if f =? FJsonb then tagJsonb else tagString.
(** The families whose value is a length and bytes. *)
Definition is_string_family (f : Family) : bool := (f =? FString) || (f =? FBytes) || (f =? FDecimal) || (f =? FJsonb).

(** The tag and payload of one coerced, non-NULL value. *)
Definition encode_col (fam : Family) (d : Datum) (out : bytes) : result row_err bytes :=
  if IsArray fam then
    let elem := Elem fam in
    encode_elems elem (dA d) (EncodeUvarint (EncodeUvarint (out ++ [tagArray]) (u64 elem)) (Z.of_nat (length (dA d))))
  else if is_int_family fam then Ok (EncodeUint64 (out ++ [int_tag fam]) (u64 (dI d)))
  else if fam =? FInterval then
    Ok (EncodeUint64 (EncodeUint64 (EncodeUint64 (out ++ [tagInterval]) (u64 (Mo d))) (u64 (Dy d))) (u64 (dI d)))
  else if fam =? FEnum then
    Ok (EncodeUvarint (EncodeUvarint (out ++ [tagEnum]) (u64 (dI d))) (Z.of_nat (length (dS d))) ++ dS d)
  else if fam =? FFloat then Ok (EncodeUint64 (out ++ [tagFloat]) (dF d))
  else if is_string_family fam then Ok (EncodeUvarint (out ++ [string_tag fam]) (Z.of_nat (length (dS d))) ++ dS d)
  else if fam =? FUuid then (if negb (length (dS d) =? 16)%nat then Err BadUUID else Ok (out ++ [tagUUID] ++ dS d))
  else if fam =? FBool then Ok (out ++ [tagBool; if dB d then 1 else 0])
  else Err (Unencodable fam).

Fixpoint encode_ids (desc : TableDescriptor) (r : row) (ids : list Z) (out : bytes) : result row_err bytes :=
  match ids with
  | [] => Ok out
  | id :: ids =>
      match ColByID desc id with
      | None => Err (UnknownColumn id)
      | Some col =>
          let d := default datum0 (r !! id) in
          if Null d then encode_ids desc r ids (EncodeUvarint out (u64 id) ++ [tagNull])
          else
            let* d := lift_conv (Coerce d (cType col)) in
            let* out := encode_col (cType col) d (EncodeUvarint out (u64 id)) in
            encode_ids desc r ids out
      end
  end.

(** The row value, with the row as the caller sees it afterwards. *)
Definition EncodeValue (desc : TableDescriptor) (r : row) : result row_err (row * bytes) :=
  let* r := retype_cols (tColumns desc) r in
  let* out := encode_ids desc r (stored_ids desc r) [valueVersion] in
  Ok (r, out).

(** The elements of an array, as many as the bytes claim. *)
Fixpoint decode_elems (n : nat) (elem : Family) (rest : bytes) (elems : list Datum) : result row_err (bytes * list Datum) :=
  match n with
  | O => Ok (rest, elems)
  | S n =>
      match rest with
      | [] => Err CorruptRow
      | flag :: rest =>
          if flag =? 0 then decode_elems n elem rest (elems ++ [DNull])
          else let* (rest, d) := rmap_err (fun _ => CorruptRow) (decodeKeyDatum rest elem) in decode_elems n elem rest (elems ++ [d])
      end
  end.

Definition corrupt {A} (m : result dec_err A) : result row_err A := rmap_err (fun _ => CorruptRow) m.

(** One tagged payload: the rest and, for the column type it is of, the
    datum.  An array whose count exceeds the bytes left runs out of them. *)
Definition decode_col (tag : byte) (rest : bytes) : result row_err (bytes * option (Family * Datum)) :=
  let int want :=
    if (length rest <? 8)%nat then Err CorruptRow
    else Ok (drop 8 rest, Some (want, with_I want (i64 (be_val (take 8 rest))))) in
  let text want :=
    let* (rest, n) := corrupt (DecodeUvarint rest) in
    if Z.of_nat (length rest) <? n then Err CorruptRow
    else Ok (drop (Z.to_nat n) rest, Some (want, with_S want (take (Z.to_nat n) rest))) in
  if tag =? tagNull then Ok (rest, None)
  else if tag =? tagInt then int FInt
  else if tag =? tagTimestamp then int FTimestamp
  else if tag =? tagDate then int FDate
  else if tag =? tagTime then int FTime
  else if tag =? tagArray then
    let* (rest, elemN) := corrupt (DecodeUvarint rest) in
    let* (rest, n) := corrupt (DecodeUvarint rest) in
    let elem := i64 elemN in
    if Z.of_nat (length rest) <? n then Err CorruptRow
    else
      let* (rest, elems) := decode_elems (Z.to_nat n) elem rest [] in
      Ok (rest, Some (ArrayOf elem, NewArray elem elems))
  else if tag =? tagEnum then
    let* (rest, ord) := corrupt (DecodeUvarint rest) in
    let* (rest, n) := corrupt (DecodeUvarint rest) in
    if Z.of_nat (length rest) <? n then Err CorruptRow
    else Ok (drop (Z.to_nat n) rest, Some (FEnum, NewEnum (i64 ord) (take (Z.to_nat n) rest)))
  else if tag =? tagInterval then
    if (length rest <? 24)%nat then Err CorruptRow
    else
      let at_ i := i64 (be_val (take 8 (drop i rest))) in
      Ok (drop 24 rest, Some (FInterval, NewInterval (mkInterval (at_ 0%nat) (at_ 8%nat) (at_ 16%nat))))
  else if tag =? tagFloat then
    if (length rest <? 8)%nat then Err CorruptRow else Ok (drop 8 rest, Some (FFloat, NewFloat (be_val (take 8 rest))))
  else if tag =? tagString then text FString
  else if tag =? tagBytes then text FBytes
  else if tag =? tagDecimal then text FDecimal
  else if tag =? tagJsonb then text FJsonb
  else if tag =? tagUUID then
    if (length rest <? 16)%nat then Err CorruptRow else Ok (drop 16 rest, Some (FUuid, with_S FUuid (take 16 rest)))
  else if tag =? tagBool then
    match rest with [] => Err CorruptRow | b :: rest => Ok (rest, Some (FBool, NewBool (negb (b =? 0)))) end
  else Err CorruptRow.

(** Every round consumes the column ID and the tag. *)
Fixpoint decode_row (fuel : nat) (desc : TableDescriptor) (rest : bytes) (out : row) : result row_err row :=
  match rest with
  | [] => Ok out
  | _ =>
      match fuel with
      | O => Err CorruptRow
      | S fuel =>
          let* (rest, id) := corrupt (DecodeUvarint rest) in
          match rest with
          | [] => Err CorruptRow
          | tag :: rest =>
              let colID := i32 id in
              let* (rest, v) := decode_col tag rest in
              let out :=
                match ColByID desc colID, v with
                | Some _, None => <[colID := DNull]> out
                | Some col, Some (want, d) => if cType col =? want then <[colID := d]> out else out
                | None, _ => out
                end in
              decode_row fuel desc rest out
          end
      end
  end.

(** A column that rows written before it lack reads as its default. *)
Fixpoint fill_defaults (cols : list Column) (out : row) : row :=
  match cols with
  | [] => out
  | col :: cols =>
      match cDefault col, out !! cID col with
      | Some d, None => fill_defaults cols (if FillDefault col then <[cID col := d]> out else out)
      | _, _ => fill_defaults cols out
      end
  end.

Definition DecodeValue (desc : TableDescriptor) (raw : bytes) : result row_err row :=
  match raw with
  | [] => Err CorruptRow
  | v :: rest =>
      if negb (v =? valueVersion) then Err CorruptRow
      else let* out := decode_row (length rest) desc rest ∅ in Ok (fill_defaults (tColumns desc) out)
  end.

(** ** Shard buckets *)

(** FNV-1a on 32 bits. *)
Definition fnv32a (h : Z) (b : bytes) : Z := fold_left (fun h c => u32 (Z.lxor h c * 16777619)) b h.

Fixpoint shard_hash (desc : TableDescriptor) (h : Z) (ids : list Z) (vals : list Datum) : result row_err Z :=
  match ids, vals with
  | id :: ids, d :: vals =>
      match ColByID desc id with
      | None => Err (UnknownColumn id)
      | Some col => let* enc := AppendKeyDatum [] (cType col) d in shard_hash desc (fnv32a h enc) ids vals
      end
  | _, _ => Ok h
  end.

Definition ShardBucketAt (desc : TableDescriptor) (logicalPK : list Datum) (buckets : Z) : result row_err Datum :=
  if (buckets <=? 0) || (length (tPrimaryKey desc) <? 2)%nat then Err NotSharded
  else
    let logical := drop 1 (tPrimaryKey desc) in
    if negb (length logicalPK =? length logical)%nat then Err PKCount
    else let* h := shard_hash desc 2166136261 logical logicalPK in Ok (NewInt (h mod buckets)).
Definition ShardBucket (desc : TableDescriptor) (logicalPK : list Datum) : result row_err Datum :=
  ShardBucketAt desc logicalPK (tShardBuckets desc).

(** ** Scan bounds *)

Record colBound := mkBound { bdVal : Datum; bdInclusive : bool }.

Definition tightenLo (cur : option colBound) (nb : colBound) : option colBound :=
  match cur with
  | None => Some nb
  | Some c =>
      match Compare (bdVal nb) (bdVal c) with
      | Some Gt => Some nb
      | Some Eq => if bdInclusive nb then cur else Some nb
      | _ => cur
      end
  end.
Definition tightenHi (cur : option colBound) (nb : colBound) : option colBound :=
  match cur with
  | None => Some nb
  | Some c =>
      match Compare (bdVal nb) (bdVal c) with
      | Some Lt => Some nb
      | Some Eq => if bdInclusive nb then cur else Some nb
      | _ => cur
      end
  end.

Definition spanBounds (lo hi : option colBound) (prefix : bytes) (fam : Family) : result row_err (bytes * bytes) :=
  let* start :=
    match lo with
    | None => Ok prefix
    | Some b => let* k := AppendKeyDatum prefix fam (bdVal b) in Ok (if bdInclusive b then k else PrefixEnd k)
    end in
  let* end_ :=
    match hi with
    | None => Ok (PrefixEnd prefix)
    | Some b => let* k := AppendKeyDatum prefix fam (bdVal b) in Ok (if bdInclusive b then PrefixEnd k else k)
    end in
  Ok (start, end_).
End Rows.
