(* ===== verification/RowencSpec.v ===== *)
(** * Rows round trip, and keys sort as SQL compares

    A key column's encoding is self-delimiting, decodes to the value and
    sorts by it; tuples inherit both.  A row value decodes under any later
    descriptor to the columns the two descriptors share.  An index entry
    leads back to its row. *)

From stdpp Require Import sorting.
From S2P Require Import Prelude Encoding Hlc Keys MvccKey Strconv Decimal DecimalSpec Datum Rowenc.

#[local] Abbreviation length := Datatypes.length.
#[local] Open Scope list_scope.
Open Scope Z_scope.

(** Case analysis on the family tests of the code, in their order. *)
Ltac fam_cases :=
  repeat match goal with
  | H : context [if ?b then _ else _] |- _ => destruct b eqn:?; try done
  | |- context [if ?b then _ else _] => destruct b eqn:?; try done
  end.

(** ** Key columns *)

(** A decimal that keys and text both hold. *)
Definition decimal_text (s : bytes) (v : Dec) : Prop := s = Dec_String v /\ text_ok v /\ key_ok v /\ exp_in_range v = true.

(** A non-NULL datum of a key-encodable family. *)
Definition key_wf (fam : Family) (d : Datum) : Prop :=
  Null d = false /\ Fam d = fam /\
  if is_int_family fam then in_i64 (dI d)
  else if fam =? FEnum then in_i64 (dI d) /\ bytes_ok (dS d)
  else if fam =? FInterval then in_i64 (dI d) /\ in_i64 (Mo d) /\ in_i64 (Dy d)
  else if fam =? FFloat then in_u64 (dF d)
  else if is_text_family fam then bytes_ok (dS d)
  else if fam =? FBool then True
  else if fam =? FDecimal then exists v, decimal_text (dS d) v
  else False.

(** What a key keeps of a datum: not its display hints. *)
Definition stored (fam : Family) (d : Datum) : Datum :=
  if is_int_family fam then with_I fam (dI d)
  else if fam =? FEnum then NewEnum (dI d) (dS d)
  else if fam =? FInterval then NewInterval (IntervalVal d)
  else if fam =? FFloat then NewFloat (dF d)
  else if is_text_family fam then with_S fam (dS d)
  else if fam =? FBool then NewBool (dB d)
  else NewDecimal (dS d).

Definition then_cmp (a b : comparison) : comparison := match a with Eq => b | Lt => Lt | Gt => Gt end.

(** The order of two values of a family in keys. *)
Definition datum_cmp (fam : Family) (a b : Datum) : comparison :=
  if is_int_family fam then dI a ?= dI b
  else if fam =? FEnum then then_cmp (dI a ?= dI b) (bcompare (dS a) (dS b))
  else if fam =? FInterval then
    then_cmp (CmpValue (IntervalVal a) ?= CmpValue (IntervalVal b)) (then_cmp (Mo a ?= Mo b) (Dy a ?= Dy b))
  else if fam =? FFloat then f64_order (dF a) ?= f64_order (dF b)
  else if is_text_family fam then bcompare (dS a) (dS b)
  else if fam =? FBool then cmpBool (dB a) (dB b)
  else match DecimalVal a, DecimalVal b with Ok x, Ok y => Cmp x y | _, _ => Eq end.

Lemma decimal_val s v d : decimal_text s v -> dS d = s -> DecimalVal d = Ok v.
Proof. intros (-> & Ht & _) Hs. unfold DecimalVal. rewrite Hs. by apply Parse_String. Qed.

Lemma i64_bound v : in_i64 (i64 v).
Proof. unfold in_i64, i64. pose proof (Z.mod_pos_bound (v + 2 ^ 63) (2 ^ 64) ltac:(lia)). lia. Qed.

(** Wrapping arithmetic recovers what a wrapped sum hides. *)
Lemma i64_sub a n : in_i64 n -> i64 (i64 (a + n) - a) = n.
Proof.
  intros Hn. unfold i64, in_i64 in *. set (m := 2 ^ 64). replace ((a + n + 2 ^ 63) mod m - 2 ^ 63 - a + 2 ^ 63) with ((a + n + 2 ^ 63) mod m - a) by lia.
  rewrite Zminus_mod_idemp_l. replace (a + n + 2 ^ 63 - a) with (n + 2 ^ 63) by lia. rewrite Z.mod_small; unfold m; lia.
Qed.

Lemma EncodeFloat64_compare_app b v w r s : in_u64 v -> in_u64 w ->
  bcompare (EncodeFloat64 b v ++ r) (EncodeFloat64 b w ++ s) = match f64_order v ?= f64_order w with Eq => bcompare r s | c => c end.
Proof.
  intros Hv Hw. unfold EncodeFloat64. rewrite !float_word, <- !app_assoc, bcompare_app by done.
  assert (Hr : forall x, in_u64 x -> 0 <= f64_order x + 2 ^ 63 < 256 ^ Z.of_nat 8).
  { intros x Hx. change (256 ^ Z.of_nat 8) with (2 ^ 64). unfold f64_order, in_u64 in *. destruct (Z.ltb_spec x (2 ^ 63)); lia. }
  rewrite be_compare_app by (by apply Hr). by rewrite !(Z.add_comm _ (2 ^ 63)), Zcompare_plus_compat.
Qed.

Lemma EncodeBool_compare_app b v w r s :
  bcompare (EncodeBool b v ++ r) (EncodeBool b w ++ s) = match cmpBool v w with Eq => bcompare r s | c => c end.
Proof. unfold EncodeBool. rewrite <- !app_assoc, bcompare_app. by destruct v, w. Qed.

Section Rows.
Context {CV : Conversions}.

(** The encoding of a value, and that it is appended as it is. *)
Definition enc (fam : Family) (d : Datum) : bytes := match appendDatum [] fam d with Ok b => b | Err _ => [] end.

Lemma appendDatum_app k fam d : appendDatum k fam d = match appendDatum [] fam d with Ok b => Ok (k ++ b) | Err e => Err e end.
Proof.
  unfold appendDatum. destruct (lift_conv _) as [x|]; [|done]. cbn [rbind].
  repeat match goal with |- context [if ?b then _ else _] => destruct b end;
    unfold EncodeString, EncodeBytes, EncodeInt64, EncodeFloat64, EncodeBool; rewrite ?app_nil_l, <- ?app_assoc; try done.
  destruct (lift_decimal _) as [v|]; [|done]. cbn [rbind]. unfold EncodeDecimal. destruct (Mantissa v) as [[neg [|c ds]] e]; done.
Qed.

Lemma coerce_wf fam d : key_wf fam d -> Coerce d fam = Some d.
Proof. intros (Hn & Hf & _). unfold Coerce. by rewrite Hn, Hf, Z.eqb_refl. Qed.

Lemma appendDatum_enc k fam d : key_wf fam d -> appendDatum k fam d = Ok (k ++ enc fam d).
Proof.
  intros Hw. rewrite appendDatum_app. unfold enc, appendDatum. rewrite (coerce_wf fam d Hw). cbn [lift_conv rbind].
  destruct Hw as (_ & _ & Hw). fam_cases. destruct Hw as [v Hv]. by rewrite (decimal_val _ _ _ Hv eq_refl).
Qed.

(** The bytes of a well-formed value. *)
Lemma enc_eq fam d : key_wf fam d -> enc fam d =
  if is_int_family fam then EncodeInt64 [] (dI d)
  else if fam =? FEnum then EncodeInt64 [] (dI d) ++ EncodeString [] (dS d)
  else if fam =? FInterval then EncodeInt64 [] (CmpValue (IntervalVal d)) ++ EncodeInt64 [] (Mo d) ++ EncodeInt64 [] (Dy d)
  else if fam =? FFloat then EncodeFloat64 [] (dF d)
  else if is_text_family fam then EncodeString [] (dS d)
  else if fam =? FBool then EncodeBool [] (dB d)
  else match DecimalVal d with Ok v => EncodeDecimal [] v | Err _ => [] end.
Proof.
  intros Hw. unfold enc, appendDatum. rewrite (coerce_wf fam d Hw). cbn [lift_conv rbind]. destruct Hw as (_ & _ & Hw).
  fam_cases; unfold EncodeString, EncodeBytes, EncodeInt64; rewrite <- ?app_assoc; try done.
  destruct Hw as [v Hv]. by rewrite (decimal_val _ _ _ Hv eq_refl).
Qed.

Lemma key_datum_roundtrip fam d r : key_wf fam d ->
  decodeKeyDatum (enc fam d ++ r) fam = Ok (r, stored fam d) /\ skipDatum (enc fam d ++ r) fam = Ok r.
Proof.
  intros Hw. rewrite (enc_eq fam d Hw). destruct Hw as (_ & _ & Hw). unfold decodeKeyDatum, skipDatum, stored. fam_cases.
  - by rewrite EncodeInt64_roundtrip_app.
  - destruct Hw as [Hi Hs]. rewrite <- app_assoc, EncodeInt64_roundtrip_app by done. cbn [lift_dec rmap_err rbind].
    unfold EncodeString, DecodeString. by rewrite EncodeBytes_roundtrip.
  - destruct Hw as (Hi & Hm & Hd). rewrite <- !app_assoc, EncodeInt64_roundtrip_app by apply i64_bound. cbn [lift_dec rmap_err rbind].
    rewrite EncodeInt64_roundtrip_app by done. cbn [lift_dec rmap_err rbind]. rewrite EncodeInt64_roundtrip_app by done. cbn [lift_dec rmap_err rbind].
    split; [|done]. do 2 f_equal. unfold CmpValue, IntervalVal. cbn [Months Days Nanos]. by rewrite i64_sub.
  - by rewrite EncodeFloat64_roundtrip.
  - unfold EncodeString, DecodeString. by rewrite EncodeBytes_roundtrip.
  - by rewrite EncodeBool_roundtrip.
  - destruct Hw as [v Hv]. rewrite (decimal_val _ _ _ Hv eq_refl). destruct Hv as (Hs & _ & Hk & Hr).
    rewrite DecodeDecimal_roundtrip, Hr by done. cbn [lift_decimal rmap_err rbind]. by rewrite Hs.
Qed.

Lemma key_datum_order fam a b r s : key_wf fam a -> key_wf fam b ->
  bcompare (enc fam a ++ r) (enc fam b ++ s) = then_cmp (datum_cmp fam a b) (bcompare r s).
Proof.
  intros Ha Hb. rewrite (enc_eq fam a Ha), (enc_eq fam b Hb). destruct Ha as (_ & _ & Ha), Hb as (_ & _ & Hb).
  unfold datum_cmp, then_cmp. fam_cases.
  - rewrite EncodeInt64_compare_app by done. by destruct (_ ?= _).
  - destruct Ha, Hb. rewrite <- !app_assoc, EncodeInt64_compare_app by done. destruct (dI a ?= dI b); try done.
    unfold EncodeString. rewrite EncodeBytes_compare_app by done. by destruct (bcompare (dS a) (dS b)).
  - destruct Ha as (? & ? & ?), Hb as (? & ? & ?). rewrite <- !app_assoc, EncodeInt64_compare_app by apply i64_bound.
    destruct (CmpValue (IntervalVal a) ?= CmpValue (IntervalVal b)); try done. rewrite EncodeInt64_compare_app by done.
    destruct (Mo a ?= Mo b); try done. rewrite EncodeInt64_compare_app by done. by destruct (Dy a ?= Dy b).
  - rewrite EncodeFloat64_compare_app by done. by destruct (_ ?= _).
  - unfold EncodeString. rewrite EncodeBytes_compare_app by done. by destruct (bcompare (dS a) (dS b)).
  - rewrite EncodeBool_compare_app. by destruct (cmpBool _ _).
  - destruct Ha as [x Hx], Hb as [y Hy]. rewrite (decimal_val _ _ _ Hx eq_refl), (decimal_val _ _ _ Hy eq_refl).
    rewrite EncodeDecimal_order by (apply Hx || apply Hy). by destruct (Cmp x y).
Qed.

(** ** Primary keys *)

Abbreviation tuple_wf fams vals := (Forall2 key_wf fams vals).
Definition tuple_enc (fams : list Family) (vals : list Datum) : bytes := concat (zip_with enc fams vals).
Fixpoint tuple_cmp (fams : list Family) (a b : list Datum) : comparison :=
  match fams, a, b with
  | f :: fams, x :: a, y :: b => then_cmp (datum_cmp f x y) (tuple_cmp fams a b)
  | _, _, _ => Eq
  end.

Lemma append_cols_enc fams vals : tuple_wf fams vals -> forall k, append_cols k fams vals = Ok (k ++ tuple_enc fams vals).
Proof.
  induction 1 as [|f d fams vals Hd _ IH]; intros k; cbn [append_cols]; [by rewrite app_nil_r|]. rewrite (proj1 Hd), appendDatum_enc by done.
  cbn [rbind]. rewrite IH, <- app_assoc. done.
Qed.

Lemma decode_cols_enc fams vals r : tuple_wf fams vals -> decode_cols (tuple_enc fams vals ++ r) fams = Ok (r, zip_with stored fams vals).
Proof.
  induction 1 as [|f d fams vals Hd _ IH]; [done|]. unfold tuple_enc. cbn [zip_with concat decode_cols]. rewrite <- app_assoc.
  rewrite (proj1 (key_datum_roundtrip f d _ Hd)). cbn [rbind]. unfold tuple_enc in IH. by rewrite IH.
Qed.

Lemma skip_cols_enc fams vals r : tuple_wf fams vals -> skip_cols (tuple_enc fams vals ++ r) fams = Ok r.
Proof.
  induction 1 as [|f d fams vals Hd _ IH]; [done|]. unfold tuple_enc. cbn [zip_with concat skip_cols]. rewrite <- app_assoc.
  rewrite (proj2 (key_datum_roundtrip f d _ Hd)). cbn [rbind]. apply IH.
Qed.

Lemma tuple_order fams a b r s : tuple_wf fams a -> tuple_wf fams b ->
  bcompare (tuple_enc fams a ++ r) (tuple_enc fams b ++ s) = then_cmp (tuple_cmp fams a b) (bcompare r s).
Proof.
  intros Ha. revert b. induction Ha as [|f x fams a Hx _ IH]; intros b Hb; inversion Hb as [|? y ? b' Hy Hb']; subst; [done|].
  unfold tuple_enc. cbn [zip_with concat tuple_cmp]. rewrite <- !app_assoc, key_datum_order by done.
  destruct (datum_cmp f x y); cbn [then_cmp]; [by apply IH|done|done].
Qed.

(** The columns of a table's primary key, and a tuple for it. *)
Definition pk_fams (desc : TableDescriptor) : list Family := map (col_type desc) (tPrimaryKey desc).

Lemma EncodePK_enc desc vals : tuple_wf (pk_fams desc) vals ->
  EncodePK desc vals = Ok (PrimaryKeyPrefixFor desc ++ tuple_enc (pk_fams desc) vals).
Proof.
  intros Hw. unfold EncodePK, EncodePKAt. pose proof (Forall2_length _ _ _ Hw) as Hl. unfold pk_fams in *. rewrite length_map in Hl.
  rewrite Hl, Nat.eqb_refl. cbn [negb]. by rewrite append_cols_enc.
Qed.

(** How [Compare] and the key order agree. *)
Lemma Compare_datum_cmp fam a b c : key_wf fam a -> key_wf fam b -> Compare a b = Some c -> c <> Eq -> datum_cmp fam a b = c.
Proof.
  intros (Na & Fa & Ha) (Nb & Fb & Hb). unfold Compare, datum_cmp. rewrite Na, Nb, Fa, Fb, Z.eqb_refl. cbn [orb negb].
  destruct (Z.eqb_spec fam FDecimal) as [->|Hd].
  { cbn. destruct (DecimalVal a), (DecimalVal b); try done. by intros [= <-]. }
  destruct (is_int_family fam) eqn:Ei; [rewrite orb_true_r; by intros [= <-]|]. rewrite orb_false_r.
  destruct (Z.eqb_spec fam FEnum) as [->|He]; [intros [= <-]; by destruct (dI a ?= dI b)|].
  destruct (Z.eqb_spec fam FInterval) as [->|Hi]; [intros [= <-]; by destruct (CmpValue _ ?= CmpValue _)|].
  destruct (Z.eqb_spec fam FFloat) as [->|Hf].
  { intros [= <-]. unfold cmpFloat, f64_lt. intros Hne.
    destruct (negb (f64_nan (dF a))), (negb (f64_nan (dF b))), (negb (f64_zero (dF a) && f64_zero (dF b))) eqn:Ez; cbn [andb] in *;
      rewrite ?(andb_comm (f64_zero (dF b))), ?Ez in *; cbn [andb] in *; try done.
    destruct (Z.ltb_spec (f64_order (dF a)) (f64_order (dF b))), (Z.ltb_spec (f64_order (dF b)) (f64_order (dF a))); try done;
      first [by apply Z.compare_lt_iff|by apply Z.compare_gt_iff|lia]. }
  destruct (is_text_family fam); [by intros [= <-]|]. destruct (fam =? FBool); [by intros [= <-]|].
  destruct (fam =? FJsonb); [|done]. destruct (beqb _ _); [|done]. by intros [= <-].
Qed.

(** The families two values of which are SQL-equal only when they are the
    same key: not INTERVAL, FLOAT and ENUM. *)
Definition exact_family (fam : Family) : bool := is_int_family fam || is_text_family fam || (fam =? FBool) || (fam =? FDecimal).

Lemma Compare_exact fam a b : exact_family fam = true -> key_wf fam a -> key_wf fam b -> Compare a b = Some (datum_cmp fam a b).
Proof.
  intros He (Na & Fa & Ha) (Nb & Fb & Hb). unfold Compare, datum_cmp. rewrite Na, Nb, Fa, Fb, Z.eqb_refl. cbn [orb negb].
  unfold exact_family in He. destruct (Z.eqb_spec fam FDecimal) as [->|Hd].
  { cbn in *. destruct Ha as [x Hx], Hb as [y Hy]. by rewrite (decimal_val _ _ _ Hx eq_refl), (decimal_val _ _ _ Hy eq_refl). }
  rewrite orb_false_r in He. destruct (is_int_family fam) eqn:Ei; [by rewrite orb_true_r|]. rewrite orb_false_r. cbn [orb] in He.
  destruct (Z.eqb_spec fam FEnum) as [->|]; [done|]. destruct (Z.eqb_spec fam FInterval) as [->|]; [done|].
  destruct (Z.eqb_spec fam FFloat) as [->|]; [done|]. destruct (is_text_family fam); [done|]. cbn [orb] in He. by rewrite He.
Qed.

(** A primary key decodes to the values it was built from. *)
Theorem row_key_roundtrip desc vals : tuple_wf (pk_fams desc) vals ->
  exists k, EncodePK desc vals = Ok k /\ DecodePK desc k = Ok (zip_with stored (pk_fams desc) vals).
Proof.
  intros Hw. exists (PrimaryKeyPrefixFor desc ++ tuple_enc (pk_fams desc) vals). split; [by apply EncodePK_enc|].
  unfold DecodePK. rewrite has_prefix_app, drop_app_length. cbn [negb]. rewrite <- (app_nil_r (tuple_enc _ _)).
  change (map (col_type desc) (tPrimaryKey desc)) with (pk_fams desc). by rewrite decode_cols_enc.
Qed.

Lemma tuple_cmp_refl fams a : tuple_wf fams a -> tuple_cmp fams a a = Eq.
Proof.
  intros Ha. pose proof (tuple_order fams a a [] [] Ha Ha) as H. rewrite bcompare_refl in H. by destruct (tuple_cmp fams a a).
Qed.

Lemma tuple_cmp_at fams a b i f x y c : tuple_wf fams a -> tuple_wf fams b -> take i a = take i b ->
  fams !! i = Some f -> a !! i = Some x -> b !! i = Some y -> datum_cmp f x y = c -> c <> Eq -> tuple_cmp fams a b = c.
Proof.
  intros Ha. revert b i. induction Ha as [|f0 x0 fams a Hx Ha IH]; intros b i Hb; inversion Hb as [|? y0 ? b' Hy Hb']; subst; [done|].
  destruct i as [|i]; cbn [take lookup list_lookup].
  - intros _ [= <-] [= <-] [= <-] <- Hne. cbn [tuple_cmp]. by destruct (datum_cmp f0 x0 y0).
  - intros [= -> Ht] Hf Hxi Hyi Hc Hne. cbn [tuple_cmp].
    pose proof (tuple_cmp_refl [f0] [y0] ltac:(by apply Forall2_cons; split)) as Hr. cbn in Hr. destruct (datum_cmp f0 y0 y0); try done.
    by apply (IH b' i).
Qed.

(** C16: Primary keys sort as SQL compares: two keys that agree up to a
    column are ordered as [Compare] orders the values of that column, and
    equal keys hold equal values. *)
Theorem row_key_order desc a b ka kb : tuple_wf (pk_fams desc) a -> tuple_wf (pk_fams desc) b ->
  EncodePK desc a = Ok ka -> EncodePK desc b = Ok kb ->
  (forall i x y c, take i a = take i b -> a !! i = Some x -> b !! i = Some y -> Compare x y = Some c -> c <> Eq -> bcompare ka kb = c) /\
  (ka = kb -> zip_with stored (pk_fams desc) a = zip_with stored (pk_fams desc) b).
Proof.
  intros Ha Hb. rewrite !EncodePK_enc by done. generalize (PrimaryKeyPrefixFor desc) as p. intros p [= <-] [= <-]. split.
  - intros i x y c Ht Hx Hy Hc Hne. rewrite bcompare_app. rewrite <- (app_nil_r (tuple_enc _ a)), <- (app_nil_r (tuple_enc _ b)), tuple_order by done.
    destruct (Forall2_lookup_r _ _ _ _ _ Ha Hx) as (f & Hf & Hwx). destruct (Forall2_lookup_r _ _ _ _ _ Hb Hy) as (f' & Hf' & Hwy).
    rewrite Hf in Hf'. injection Hf' as <-.
    rewrite (tuple_cmp_at _ a b i f x y c Ha Hb Ht Hf Hx Hy (Compare_datum_cmp f x y c Hwx Hwy Hc Hne) Hne). by destruct c.
  - intros E. apply app_inv_head in E. pose proof (decode_cols_enc _ a [] Ha) as Da. pose proof (decode_cols_enc _ b [] Hb) as Db.
    rewrite E, Db in Da. congruence.
Qed.

(** The trailing timestamp the retention sweep ages rows by. *)
Lemma DecodeTrailingTimestamp_spec fams vals d : tuple_wf fams vals -> key_wf FTimestamp d ->
  DecodeTrailingTimestamp (tuple_enc (fams ++ [FTimestamp]) (vals ++ [d])) (fams ++ [FTimestamp]) = Some (dI d).
Proof.
  intros Hw Hd. unfold DecodeTrailingTimestamp. rewrite last_snoc, removelast_last. cbn [negb].
  change (negb (FTimestamp =? FTimestamp)) with false. cbn [negb].
  unfold tuple_enc. rewrite zip_with_app by (by eapply Forall2_length). rewrite concat_app. cbn [zip_with concat].
  change (concat (zip_with enc fams vals)) with (tuple_enc fams vals). rewrite skip_cols_enc by done.
  rewrite (enc_eq FTimestamp d Hd). destruct Hd as (_ & _ & Hi). change (is_int_family FTimestamp) with true in *. cbv iota. by rewrite EncodeInt64_roundtrip_app.
Qed.

(** ** Index entries *)

(** The values of some columns of a row. *)
Definition col_vals (r : row) (ids : list Z) : list Datum := map (fun id => default datum0 (r !! id)) ids.

Lemma index_cols_enc desc ids vals k :
  Forall2 (fun id d => exists col, ColByID desc id = Some col /\ key_wf (cType col) d) ids vals ->
  index_cols desc k ids vals = Ok (k ++ tuple_enc (map (col_type desc) ids) vals) /\
  forall r, skip_index desc (tuple_enc (map (col_type desc) ids) vals ++ r) ids = Ok r.
Proof.
  intros H. revert k. induction H as [|id d ids vals (col & Hc & Hd) _ IH]; intros k; cbn [index_cols skip_index map].
  - split; [by rewrite app_nil_r|done].
  - rewrite Hc. rewrite (proj1 Hd), appendDatum_enc by done. cbn [rbind]. destruct (IH (k ++ enc (cType col) d)) as [-> Hs].
    assert (Ht : col_type desc id = cType col) by (unfold col_type; by rewrite Hc). rewrite Ht.
    unfold tuple_enc in *. cbn [zip_with concat]. split; [by rewrite <- app_assoc|]. intros r.
    rewrite <- app_assoc, (proj2 (key_datum_roundtrip _ d _ Hd)). cbn [rbind]. apply Hs.
Qed.

Lemma index_vals_cols r ids vals : index_vals r ids = Some vals -> vals = col_vals r ids /\ Forall (fun d => Null d = false) vals.
Proof.
  revert vals. induction ids as [|id ids IH]; intros vals; cbn [index_vals col_vals map]; [by intros [= <-]|].
  destruct (r !! id) as [d|] eqn:E; [|done]. destruct (Null d) eqn:En; [done|]. destruct (index_vals r ids) as [ds|]; [|done].
  intros [= <-]. destruct (IH ds eq_refl) as [-> Hn]. split; [done|by constructor].
Qed.

Lemma pk_suffix_enc desc r ids : Forall (fun id => key_wf (col_type desc id) (default datum0 (r !! id))) ids ->
  forall k, pk_suffix desc r k ids = Ok (k ++ tuple_enc (map (col_type desc) ids) (col_vals r ids)).
Proof.
  induction 1 as [|id ids Hd _ IH]; intros k; cbn [pk_suffix]; [by rewrite app_nil_r|]. rewrite appendDatum_enc by done. cbn [rbind].
  rewrite IH, <- app_assoc. done.
Qed.

Lemma cols_tuple_wf desc r ids : Forall (fun id => key_wf (col_type desc id) (default datum0 (r !! id))) ids ->
  tuple_wf (map (col_type desc) ids) (col_vals r ids).
Proof. induction 1; constructor; done. Qed.

(** C26: An index entry leads back to its row: the entry built for a row,
    unique or not, decodes to the key the row itself is stored at; a row
    without an entry has a NULL among the indexed columns. *)
Theorem index_entry_finds_row desc idx r :
  Forall (fun id => key_wf (col_type desc id) (default datum0 (r !! id))) (tPrimaryKey desc) ->
  Forall (fun id => exists col d, ColByID desc id = Some col /\ r !! id = Some d /\ (Null d = true \/ key_wf (cType col) d)) (ixColumnIDs idx) ->
  exists e, EncodeIndexEntry desc idx r = Ok e /\
    match e with
    | Some (k, v) => IndexEntryPrimaryKey desc idx k v = EncodePK desc (col_vals r (tPrimaryKey desc))
    | None => Exists (fun id => exists d, r !! id = Some d /\ Null d = true) (ixColumnIDs idx)
    end.
Proof.
  intros Hpk Hix. unfold EncodeIndexEntry, EncodeIndexEntryAt. destruct (index_vals r (ixColumnIDs idx)) as [vals|] eqn:Ev.
  - destruct (index_vals_cols _ _ _ Ev) as [-> Hn].
    assert (Hf : Forall2 (fun id d => exists col, ColByID desc id = Some col /\ key_wf (cType col) d) (ixColumnIDs idx) (col_vals r (ixColumnIDs idx))).
    { clear Ev. revert Hix Hn. generalize (ixColumnIDs idx). induction l as [|id l IH]; intros Hix Hn; [constructor|].
      inversion Hix as [|? ? (col & d & Hc & Hd & Hw) Hix']; subst. inversion Hn as [|? ? Hd0 Hn']; subst. cbn [col_vals map]. constructor; [|by apply IH].
      rewrite Hd in *. cbn in *. exists col. split; [done|]. destruct Hw; [congruence|done]. }
    destruct (index_cols_enc desc _ _ (TableIndexPrefix (tID desc) (ixID idx)) Hf) as [He Hs]. unfold EncodeIndexPrefix. cbn [ixColumnIDs ixID].
    unfold col_vals at 1. rewrite length_map, Nat.ltb_irrefl, He. cbn [rbind]. rewrite (pk_suffix_enc desc r _ Hpk). cbn [rbind app].
    unfold IndexEntryPrimaryKey. rewrite EncodePK_enc by (by apply cols_tuple_wf).
    destruct (ixUnique idx); (eexists; split; [reflexivity|]); cbv beta iota; [done|].
    rewrite <- app_assoc, has_prefix_app, drop_app_length. cbn [negb]. by rewrite Hs.
  - exists None. split; [done|]. revert Hix Ev. generalize (ixColumnIDs idx). induction l as [|id l IH]; intros Hix; cbn [index_vals]; [done|].
    inversion Hix as [|? ? (col & d & Hc & Hd & Hw) Hix']; subst. rewrite Hd. destruct (Null d) eqn:En; [intros _; left; eauto|].
    destruct (index_vals r l) eqn:El; [done|]. intros _. right. by apply IH.
Qed.

(** ** Scan bounds *)

Definition above_lo (lo : option colBound) (d : Datum) : Prop :=
  match lo with
  | None => True
  | Some b => match Compare d (bdVal b) with Some Gt => True | Some Eq => bdInclusive b = true | _ => False end
  end.
Definition below_hi (hi : option colBound) (d : Datum) : Prop :=
  match hi with
  | None => True
  | Some b => match Compare d (bdVal b) with Some Lt => True | Some Eq => bdInclusive b = true | _ => False end
  end.
Abbreviation bound_wf fam ob := (forall b, ob = Some b -> key_wf fam (bdVal b)).

Lemma exact_enc_ok fam d : exact_family fam = true -> key_wf fam d -> bytes_ok (enc fam d).
Proof.
  intros He Hw. rewrite (enc_eq fam d Hw). destruct Hw as (_ & _ & Hw). unfold exact_family in He.
  destruct (is_int_family fam); [unfold EncodeInt64; apply be_ok|]. cbn [orb] in He.
  destruct (Z.eqb_spec fam FEnum) as [->|]; [done|]. destruct (Z.eqb_spec fam FInterval) as [->|]; [done|].
  destruct (Z.eqb_spec fam FFloat) as [->|]; [done|]. destruct (is_text_family fam).
  { unfold EncodeString, EncodeBytes. rewrite app_nil_l. apply Forall_app. split; [by apply escape_bytes_ok|by repeat constructor]. }
  cbn [orb] in He. destruct (fam =? FBool); [destruct (dB d); by repeat constructor|]. cbn [orb] in He. rewrite He in Hw.
  destruct Hw as [v Hv]. rewrite (decimal_val _ _ _ Hv eq_refl). apply EncodeDecimal_ok, Hv.
Qed.

Lemma below_prefix_end p x : bytes_ok x -> bytes_ok p -> Exists (fun c => c <> 255) p ->
  x ≺ PrefixEnd p <-> x ≺ p \/ has_prefix x p = true.
Proof.
  intros Hx Hp He. pose proof (in_span_prefix p x Hx He) as Hs. unfold in_span, span_of in Hs. cbn [fst snd] in Hs.
  destruct (in_span_prefix p p Hp He) as [_ Hpp]. destruct (Hpp ltac:(rewrite <- (app_nil_r p) at 1; apply has_prefix_app)) as [_ Hlt]. cbn [snd span_of] in Hlt.
  split.
  - intros H. destruct (decide (x ≺ p)) as [Hl|Hl]; [by left|]. right. apply Hs. split; [by apply ble_not_lt|done].
  - intros [H|H]; [by eapply blt_trans|]. by apply Hs in H as [_ ?].
Qed.

(** A bound and a key that goes on after its column. *)
Lemma bound_compare fam p d b rest : key_wf fam d -> key_wf fam b ->
  (p ++ enc fam d ++ rest ≺ p ++ enc fam b <-> datum_cmp fam d b = Lt) /\
  (has_prefix (p ++ enc fam d ++ rest) (p ++ enc fam b) = true <-> datum_cmp fam d b = Eq).
Proof.
  intros Hd Hb. rewrite bcompare_app. pose proof (key_datum_order fam d b) as Ho.
  pose proof (Ho rest [] Hd Hb) as H1. rewrite app_nil_r in H1. split.
  - rewrite H1. destruct (datum_cmp fam d b); cbn; [|done|done]. by destruct rest.
  - split.
    + intros [r E]%has_prefix_spec. rewrite <- app_assoc in E. apply app_inv_head in E.
      pose proof (Ho rest r Hd Hb) as H2. rewrite E, bcompare_refl in H2. by destruct (datum_cmp fam d b).
    + intros E. pose proof (Ho [] [] Hd Hb) as H2. rewrite !app_nil_r, E in H2. apply bcompare_eq in H2. rewrite H2, app_assoc. apply has_prefix_app.
Qed.

(** C25: The scan bounds of a range predicate are exact on families whose
    equality is that of their keys (integers, times, text, UUIDs, booleans,
    decimals): a key under the prefix lies in the span exactly when its
    column satisfies the bounds under [Compare]. *)
Theorem span_bounds_exact lo hi p fam d rest :
  exact_family fam = true -> key_wf fam d -> bound_wf fam lo -> bound_wf fam hi ->
  bytes_ok p -> bytes_ok rest -> Exists (fun c => c <> 255) p ->
  exists k s e, AppendKeyDatum p fam d = Ok k /\ spanBounds lo hi p fam = Ok (s, e) /\
    (s ≼ k ++ rest /\ k ++ rest ≺ e <-> above_lo lo d /\ below_hi hi d).
Proof.
  intros Hex Hd Hlo Hhi Hp Hr Hne. assert (Hok : forall b, key_wf fam b -> bytes_ok (p ++ enc fam b)) by (intros b Hb; apply Forall_app; split; [done|by apply exact_enc_ok]).
  assert (Hx : bytes_ok (p ++ enc fam d ++ rest)) by (rewrite app_assoc; apply Forall_app; split; [by apply Hok|done]).
  assert (Hpe : forall b, Exists (fun c => c <> 255) (p ++ enc fam b)) by (intros b; apply Exists_app; by left).
  assert (Hlow : exists s, (match lo with None => Ok p | Some b => let* k := AppendKeyDatum p fam (bdVal b) in Ok (if bdInclusive b then k else PrefixEnd k) end) = Ok s /\
    (s ≼ p ++ enc fam d ++ rest <-> above_lo lo d)).
  { destruct lo as [b|]; [|exists p; split; [done|split; [done|intros _; apply bcompare_app_r]]]. pose proof (Hlo b eq_refl) as Hb.
    unfold AppendKeyDatum. rewrite appendDatum_enc by done. eexists. split; [reflexivity|]. cbn [above_lo].
    rewrite (Compare_exact fam d (bdVal b) Hex Hd Hb). destruct (bound_compare fam p d (bdVal b) rest Hd Hb) as [B1 B2].
    destruct (bdInclusive b); rewrite ble_not_lt; [rewrite B1|rewrite below_prefix_end, B1, B2 by auto]; destruct (datum_cmp _ _ _); naive_solver. }
  assert (Hhigh : exists e, (match hi with None => Ok (PrefixEnd p) | Some b => let* k := AppendKeyDatum p fam (bdVal b) in Ok (if bdInclusive b then PrefixEnd k else k) end) = Ok e /\
    (p ++ enc fam d ++ rest ≺ e <-> below_hi hi d)).
  { destruct hi as [b|].
    - pose proof (Hhi b eq_refl) as Hb. unfold AppendKeyDatum. rewrite appendDatum_enc by done. eexists. split; [reflexivity|]. cbn [below_hi].
      rewrite (Compare_exact fam d (bdVal b) Hex Hd Hb). destruct (bound_compare fam p d (bdVal b) rest Hd Hb) as [B1 B2].
      destruct (bdInclusive b); [rewrite below_prefix_end, B1, B2 by auto|rewrite B1]; destruct (datum_cmp _ _ _); naive_solver.
    - exists (PrefixEnd p). split; [done|]. split; [done|]. intros _. apply below_prefix_end; auto. right. apply has_prefix_app. }
  destruct Hlow as (s & Es & Hs), Hhigh as (e & Ee & He). exists (p ++ enc fam d), s, e. split; [by apply appendDatum_enc|].
  unfold spanBounds. rewrite Es. cbn [rbind]. rewrite Ee. cbn [rbind]. split; [done|]. rewrite <- app_assoc, Hs, He. done.
Qed.

End Rows.

(** ** Witnesses *)

#[export] Instance no_conversions : Conversions := {| convert _ _ := None; retype _ _ := None |}.

(** A table with a key of a text and a timestamp, an indexed integer and a
    decimal. *)
Definition ex_table : TableDescriptor :=
  mkTable 100 [mkColumn 1 FString None false 0; mkColumn 2 FTimestamp None false 0; mkColumn 3 FInt None false 0; mkColumn 4 FDecimal None false 0] [1; 2] 0 0.
Definition ex_pk (s : bytes) (t : Z) : list Datum := [with_S FString s; with_I FTimestamp t].

Lemma ex_pk_wf s t : bytes_ok s -> in_i64 t -> Forall2 key_wf (pk_fams ex_table) (ex_pk s t).
Proof. intros Hs Ht. constructor; [done|]. constructor; [done|]. constructor. Qed.

Lemma row_key_roundtrip_witness : exists k, EncodePK ex_table (ex_pk [97; 0] 7) = Ok k /\ DecodePK ex_table k = Ok (ex_pk [97; 0] 7).
Proof. apply (row_key_roundtrip ex_table (ex_pk [97; 0] 7)). apply ex_pk_wf; by_compute. Defined.

Definition ex_pk_key (s : bytes) (t : Z) : bytes := match EncodePK ex_table (ex_pk s t) with Ok k => k | Err _ => [] end.

Lemma row_key_order_witness : ex_pk_key [97] 7 ≺ ex_pk_key [97] 9 /\ ex_pk_key [97] 9 ≺ ex_pk_key [97; 0] 2.
Proof.
  split.
  - apply (proj1 (row_key_order ex_table (ex_pk [97] 7) (ex_pk [97] 9) (ex_pk_key [97] 7) (ex_pk_key [97] 9)
      ltac:(apply ex_pk_wf; by_compute) ltac:(apply ex_pk_wf; by_compute) ltac:(reflexivity) ltac:(reflexivity))
      1%nat (with_I FTimestamp 7) (with_I FTimestamp 9) Lt); reflexivity || discriminate.
  - apply (proj1 (row_key_order ex_table (ex_pk [97] 9) (ex_pk [97; 0] 2) (ex_pk_key [97] 9) (ex_pk_key [97; 0] 2)
      ltac:(apply ex_pk_wf; by_compute) ltac:(apply ex_pk_wf; by_compute) ltac:(reflexivity) ltac:(reflexivity))
      0%nat (with_S FString [97]) (with_S FString [97; 0]) Lt); reflexivity || discriminate.
Defined.

Definition ex_index : IndexDescriptor := mkIndex 2 false [3].
Definition ex_row : row := list_to_map [(1, with_S FString [97]); (2, with_I FTimestamp 7); (3, NewInt 5); (4, NewDecimal [49; 46; 53])].

Lemma index_entry_finds_row_witness :
  exists e, EncodeIndexEntry ex_table ex_index ex_row = Ok e /\
    match e with
    | Some (k, v) => IndexEntryPrimaryKey ex_table ex_index k v = EncodePK ex_table (ex_pk [97] 7)
    | None => Exists (fun id => exists d, ex_row !! id = Some d /\ Null d = true) [3]
    end.
Proof.
  apply (index_entry_finds_row ex_table ex_index ex_row).
  - repeat constructor; by_compute.
  - constructor; [|constructor]. exists (mkColumn 3 FInt None false 0), (NewInt 5). split; [reflexivity|]. split; [reflexivity|].
    right. repeat constructor; by_compute.
Defined.

Lemma span_bounds_exact_witness :
  exists k s e, AppendKeyDatum [4; 1] FInt (NewInt 5) = Ok k /\
    spanBounds (Some (mkBound (NewInt 3) false)) (Some (mkBound (NewInt 5) true)) [4; 1] FInt = Ok (s, e) /\
    (s ≼ k ++ [9] /\ k ++ [9] ≺ e <->
     above_lo (Some (mkBound (NewInt 3) false)) (NewInt 5) /\ below_hi (Some (mkBound (NewInt 5) true)) (NewInt 5)).
Proof.
  assert (Hw : forall v, in_i64 v -> key_wf FInt (NewInt v)) by (intros v Hv; split; [done|]; split; [done|exact Hv]).
  apply (span_bounds_exact (Some (mkBound (NewInt 3) false)) (Some (mkBound (NewInt 5) true)) [4; 1] FInt (NewInt 5) [9]).
  - reflexivity.
  - apply Hw; by_compute.
  - intros b [= <-]. apply Hw; by_compute.
  - intros b [= <-]. apply Hw; by_compute.
  - by_compute.
  - by_compute.
  - by_compute.
Defined.

(** ** A decimal key that cannot be read back *)

Definition wide_table : TableDescriptor := mkTable 100 [mkColumn 1 FDecimal None false 0] [1] 0 0.
(** The text 10e2000. *)
Definition wide_text : bytes := [49; 48; 101; 50; 48; 48; 48].

