(* ===== verification/RowValueSpec.v ===== *)
(** * Row values under changing descriptors

    A row value written under one descriptor and read under another holds
    every column both know with the same type; columns dropped since are
    skipped, columns added since read as NULL or as their default. *)

From stdpp Require Import sorting.
From S2P Require Import Prelude Encoding Hlc Keys MvccKey Strconv Decimal DecimalSpec Datum Rowenc RowencSpec.

#[local] Abbreviation length := Datatypes.length.
#[local] Open Scope list_scope.
Open Scope Z_scope.

(** A non-NULL datum of a column type. *)
Definition val_wf (fam : Family) (d : Datum) : Prop :=
  Null d = false /\ Fam d = fam /\
  if IsArray fam then
    fam = ArrayOf (Elem fam) /\ in_i64 (Elem fam) /\ Z.of_nat (length (dA d)) < 2 ^ 64 /\
    Forall (fun e => Null e = true \/ key_wf (Elem fam) e) (dA d)
  else if is_int_family fam then in_i64 (dI d)
  else if fam =? FInterval then in_i64 (dI d) /\ in_i64 (Mo d) /\ in_i64 (Dy d)
  else if fam =? FEnum then in_i64 (dI d) /\ Z.of_nat (length (dS d)) < 2 ^ 64
  else if fam =? FFloat then in_u64 (dF d)
  else if is_string_family fam then Z.of_nat (length (dS d)) < 2 ^ 64
  else if fam =? FUuid then length (dS d) = 16%nat
  else if fam =? FBool then True
  else False.

(** What a row value keeps of a datum. *)
Definition vstored (fam : Family) (d : Datum) : Datum :=
  if IsArray fam then NewArray (Elem fam) (map (fun e => if Null e then DNull else stored (Elem fam) e) (dA d))
  else if is_int_family fam then with_I fam (dI d)
  else if fam =? FInterval then NewInterval (IntervalVal d)
  else if fam =? FEnum then NewEnum (dI d) (dS d)
  else if fam =? FFloat then NewFloat (dF d)
  else if fam =? FBool then NewBool (dB d)
  else with_S fam (dS d).

Section Values.
Context {CV : Conversions}.

(** ** One column *)

Definition enc_elem (elem : Family) (e : Datum) : bytes := if Null e then [0] else 1 :: enc elem e.

Lemma encode_elems_enc elem es : Forall (fun e => Null e = true \/ key_wf elem e) es ->
  forall out, encode_elems elem es out = Ok (out ++ concat (map (enc_elem elem) es)).
Proof.
  induction 1 as [|e es He _ IH]; intros out; cbn [encode_elems map concat]; [by rewrite app_nil_r|]. unfold enc_elem at 1.
  destruct (Null e) eqn:En; [by rewrite IH, <- app_assoc|]. destruct He as [He|He]; [congruence|].
  rewrite appendDatum_enc by done. cbn [rbind app]. by rewrite IH, <- app_assoc.
Qed.

Lemma decode_elems_enc elem es r : Forall (fun e => Null e = true \/ key_wf elem e) es ->
  forall acc, decode_elems (length es) elem (concat (map (enc_elem elem) es) ++ r) acc =
    Ok (r, acc ++ map (fun e => if Null e then DNull else stored elem e) es).
Proof.
  induction 1 as [|e es He _ IH]; intros acc; cbn [length decode_elems map concat]; [by rewrite app_nil_r|].
  rewrite <- app_assoc. unfold enc_elem at 1. destruct (Null e) eqn:En.
  - cbn [app]. change (0 =? 0) with true. cbv iota. by rewrite IH, <- app_assoc.
  - destruct He as [He|He]; [congruence|]. cbn [app]. change (1 =? 0) with false. cbv iota.
    rewrite (proj1 (key_datum_roundtrip elem e _ He)). cbn [rmap_err rbind]. by rewrite IH, <- app_assoc.
Qed.

Lemma elems_length elem es : (length es <= length (concat (map (enc_elem elem) es)))%nat.
Proof.
  induction es as [|e es IH]; [done|]. cbn [map concat length]. rewrite length_app. unfold enc_elem at 1. destruct (Null e); cbn [length]; lia.
Qed.

Lemma take_be8 u r : in_u64 u -> be_val (take 8 (be 8 u ++ r)) = u /\ drop 8 (be 8 u ++ r) = r.
Proof.
  intros Hu. rewrite take_app_length', drop_app_length' by (by rewrite length_be). split; [|done]. rewrite be_val_be. apply Z.mod_small. exact Hu.
Qed.

Lemma uvarint_app v r : in_u64 v -> DecodeUvarint (EncodeUvarint [] v ++ r) = Ok (r, v).
Proof. apply EncodeUvarint_roundtrip. Qed.
Lemma uvarint_out b v : EncodeUvarint b v = b ++ EncodeUvarint [] v.
Proof. done. Qed.
Lemma uint64_out b v : EncodeUint64 b v = b ++ be 8 v.
Proof. done. Qed.

(** A length and bytes. *)
Lemma sized_text s r : Z.of_nat (length s) < 2 ^ 64 ->
  DecodeUvarint (EncodeUvarint [] (Z.of_nat (length s)) ++ s ++ r) = Ok (s ++ r, Z.of_nat (length s)) /\
  (Z.of_nat (length (s ++ r)) <? Z.of_nat (length s)) = false /\
  take (Z.to_nat (Z.of_nat (length s))) (s ++ r) = s /\ drop (Z.to_nat (Z.of_nat (length s))) (s ++ r) = r.
Proof.
  intros H. rewrite uvarint_app by (unfold in_u64; lia). rewrite Nat2Z.id, take_app_length, drop_app_length, length_app.
  split_and!; try done. apply Z.ltb_ge. lia.
Qed.

Lemma short_false (b r : bytes) n : length b = n -> (length (b ++ r) <? n)%nat = false.
Proof. intros H. apply Nat.ltb_ge. rewrite length_app. lia. Qed.

Lemma decode_int want tag u r : in_i64 u -> (tag, want) ∈ [(tagInt, FInt); (tagTimestamp, FTimestamp); (tagDate, FDate); (tagTime, FTime)] ->
  decode_col tag (be 8 (u64 u) ++ r) = Ok (r, Some (want, with_I want u)).
Proof.
  intros Hu Hin. destruct (take_be8 (u64 u) r (u64_bound u)) as [Ht Hd]. pose proof (short_false (be 8 (u64 u)) r 8 (length_be 8 _)) as Hs.
  assert (E : (if (length (be 8 (u64 u) ++ r) <? 8)%nat then Err CorruptRow
    else Ok (drop 8 (be 8 (u64 u) ++ r), Some (want, with_I want (i64 (be_val (take 8 (be 8 (u64 u) ++ r))))))) = Ok (r, Some (want, with_I want u)) :> result row_err _).
  { by rewrite Hs, Ht, Hd, i64_u64. }
  rewrite !elem_of_cons in Hin. destruct Hin as [[= -> ->]|[[= -> ->]|[[= -> ->]|[[= -> ->]|H]]]]; try exact E. by apply not_elem_of_nil in H.
Qed.

Lemma decode_text want tag s r : Z.of_nat (length s) < 2 ^ 64 ->
  (tag, want) ∈ [(tagString, FString); (tagBytes, FBytes); (tagDecimal, FDecimal); (tagJsonb, FJsonb)] ->
  decode_col tag (EncodeUvarint [] (Z.of_nat (length s)) ++ s ++ r) = Ok (r, Some (want, with_S want s)).
Proof.
  intros Hl Hin. destruct (sized_text s r Hl) as (Hu & Hlt & Ht & Hd).
  assert (E : (let* (rest, n) := corrupt (DecodeUvarint (EncodeUvarint [] (Z.of_nat (length s)) ++ s ++ r)) in
    if Z.of_nat (length rest) <? n then Err CorruptRow
    else Ok (drop (Z.to_nat n) rest, Some (want, with_S want (take (Z.to_nat n) rest)))) = Ok (r, Some (want, with_S want s)) :> result row_err _).
  { rewrite Hu. cbn [corrupt rmap_err rbind]. by rewrite Hlt, Ht, Hd. }
  rewrite !elem_of_cons in Hin. destruct Hin as [[= -> ->]|[[= -> ->]|[[= -> ->]|[[= -> ->]|H]]]]; try exact E. by apply not_elem_of_nil in H.
Qed.

Lemma decode_array elem es r : in_i64 elem -> Z.of_nat (length es) < 2 ^ 64 -> Forall (fun e => Null e = true \/ key_wf elem e) es ->
  decode_col tagArray (EncodeUvarint [] (u64 elem) ++ EncodeUvarint [] (Z.of_nat (length es)) ++ concat (map (enc_elem elem) es) ++ r) =
    Ok (r, Some (ArrayOf elem, NewArray elem (map (fun e => if Null e then DNull else stored elem e) es))).
Proof.
  intros He Hl Hes. pose proof (elems_length elem es). unfold decode_col.
  change (tagArray =? tagNull) with false. change (tagArray =? tagInt) with false. change (tagArray =? tagTimestamp) with false.
  change (tagArray =? tagDate) with false. change (tagArray =? tagTime) with false. change (tagArray =? tagArray) with true. cbv iota zeta.
  rewrite uvarint_app by apply u64_bound. cbn [corrupt rmap_err rbind]. rewrite uvarint_app by (unfold in_u64; lia). cbn [corrupt rmap_err rbind].
  rewrite i64_u64 by done. destruct (Z.ltb_spec (Z.of_nat (length (concat (map (enc_elem elem) es) ++ r))) (Z.of_nat (length es))) as [Hlt|_]; [rewrite length_app in Hlt; lia|].
  rewrite Nat2Z.id, decode_elems_enc by done. done.
Qed.

Lemma int_family_tag fam : is_int_family fam = true ->
  (int_tag fam, fam) ∈ [(tagInt, FInt); (tagTimestamp, FTimestamp); (tagDate, FDate); (tagTime, FTime)].
Proof.
  unfold is_int_family. rewrite !orb_true_iff, !Z.eqb_eq. rewrite !elem_of_cons. intros [[[-> | ->]| ->]| ->]; auto.
Qed.
Lemma string_family_tag fam : is_string_family fam = true ->
  (string_tag fam, fam) ∈ [(tagString, FString); (tagBytes, FBytes); (tagDecimal, FDecimal); (tagJsonb, FJsonb)].
Proof.
  unfold is_string_family. rewrite !orb_true_iff, !Z.eqb_eq. rewrite !elem_of_cons. intros [[[-> | ->]| ->]| ->]; auto.
Qed.

Lemma decode_interval mo dy n r : in_i64 mo -> in_i64 dy -> in_i64 n ->
  decode_col tagInterval (be 8 (u64 mo) ++ be 8 (u64 dy) ++ be 8 (u64 n) ++ r) = Ok (r, Some (FInterval, NewInterval (mkInterval mo dy n))).
Proof.
  intros Hm Hd Hn. set (b := be 8 (u64 mo) ++ be 8 (u64 dy) ++ be 8 (u64 n) ++ r).
  assert (E : decode_col tagInterval b = if (length b <? 24)%nat then Err CorruptRow else
    Ok (drop 24 b, Some (FInterval, NewInterval (mkInterval (i64 (be_val (take 8 (drop 0 b)))) (i64 (be_val (take 8 (drop 8 b)))) (i64 (be_val (take 8 (drop 16 b)))))))) by reflexivity.
  assert (H8 : drop 8 b = be 8 (u64 dy) ++ be 8 (u64 n) ++ r) by apply take_be8, u64_bound.
  assert (H16 : drop 16 b = be 8 (u64 n) ++ r) by (change 16%nat with (8 + 8)%nat; rewrite <- drop_drop, H8; apply take_be8, u64_bound).
  assert (H24 : drop 24 b = r) by (change 24%nat with (16 + 8)%nat; rewrite <- drop_drop, H16; apply take_be8, u64_bound).
  assert (Hlen : (length b <? 24)%nat = false) by (apply Nat.ltb_ge; unfold b; rewrite !length_app, !length_be; lia).
  rewrite E, Hlen, drop_0, H8, H16, H24. unfold b. rewrite !(proj1 (take_be8 _ _ (u64_bound _))), !i64_u64 by done. done.
Qed.

Lemma decode_enum ord s r : in_i64 ord -> Z.of_nat (length s) < 2 ^ 64 ->
  decode_col tagEnum (EncodeUvarint [] (u64 ord) ++ EncodeUvarint [] (Z.of_nat (length s)) ++ s ++ r) = Ok (r, Some (FEnum, NewEnum ord s)).
Proof.
  intros Ho Hl. destruct (sized_text s r Hl) as (Hu & Hlt & Ht & Hd).
  set (b := EncodeUvarint [] (u64 ord) ++ EncodeUvarint [] (Z.of_nat (length s)) ++ s ++ r).
  assert (E : decode_col tagEnum b = let* (rest, ord) := corrupt (DecodeUvarint b) in let* (rest, n) := corrupt (DecodeUvarint rest) in
    if Z.of_nat (length rest) <? n then Err CorruptRow
    else Ok (drop (Z.to_nat n) rest, Some (FEnum, NewEnum (i64 ord) (take (Z.to_nat n) rest)))) by reflexivity.
  rewrite E. unfold b. rewrite uvarint_app by apply u64_bound. cbn [corrupt rmap_err rbind]. rewrite Hu. cbn [corrupt rmap_err rbind].
  by rewrite Hlt, Ht, Hd, i64_u64.
Qed.

Lemma decode_float bits r : in_u64 bits -> decode_col tagFloat (be 8 bits ++ r) = Ok (r, Some (FFloat, NewFloat bits)).
Proof.
  intros Hb. set (b := be 8 bits ++ r).
  assert (E : decode_col tagFloat b = if (length b <? 8)%nat then Err CorruptRow else Ok (drop 8 b, Some (FFloat, NewFloat (be_val (take 8 b))))) by reflexivity.
  destruct (take_be8 bits r Hb) as [Ht Hd]. rewrite E. unfold b. by rewrite (short_false _ r 8 (length_be 8 _)), Ht, Hd.
Qed.

Lemma decode_uuid s r : length s = 16%nat -> decode_col tagUUID (s ++ r) = Ok (r, Some (FUuid, with_S FUuid s)).
Proof.
  intros Hl. set (b := s ++ r).
  assert (E : decode_col tagUUID b = if (length b <? 16)%nat then Err CorruptRow else Ok (drop 16 b, Some (FUuid, with_S FUuid (take 16 b)))) by reflexivity.
  rewrite E. unfold b. rewrite (short_false s r 16 Hl). by rewrite take_app_length', drop_app_length'.
Qed.

(** A value is its tag and a payload that decodes to it. *)
Lemma encode_col_enc fam d : val_wf fam d -> exists tag body,
  (forall out, encode_col fam d out = Ok (out ++ tag :: body)) /\
  forall r, decode_col tag (body ++ r) = Ok (r, Some (fam, vstored fam d)).
Proof.
  intros (_ & _ & Hw). unfold encode_col, vstored. destruct (IsArray fam).
  { destruct Hw as (Hf & He & Hl & Hes). exists tagArray, (EncodeUvarint [] (u64 (Elem fam)) ++ EncodeUvarint [] (Z.of_nat (length (dA d))) ++ concat (map (enc_elem (Elem fam)) (dA d))).
    split; [intros out; rewrite encode_elems_enc by done; unfold EncodeUvarint; rewrite app_nil_l, <- !app_assoc; done|].
    intros r. rewrite <- !app_assoc, decode_array by done. by rewrite <- Hf. }
  destruct (is_int_family fam) eqn:Ei.
  { exists (int_tag fam), (be 8 (u64 (dI d))). split; [intros out; unfold EncodeUint64; by rewrite <- app_assoc|].
    intros r. by apply decode_int, int_family_tag. }
  destruct (Z.eqb_spec fam FInterval) as [->|_].
  { destruct Hw as (Hi & Hm & Hd). exists tagInterval, (be 8 (u64 (Mo d)) ++ be 8 (u64 (Dy d)) ++ be 8 (u64 (dI d))).
    split; [intros out; unfold EncodeUint64; by rewrite <- !app_assoc|]. intros r. rewrite <- !app_assoc. by apply decode_interval. }
  destruct (Z.eqb_spec fam FEnum) as [->|_].
  { destruct Hw as (Hi & Hl). exists tagEnum, (EncodeUvarint [] (u64 (dI d)) ++ EncodeUvarint [] (Z.of_nat (length (dS d))) ++ dS d).
    split; [intros out; unfold EncodeUvarint; rewrite ?app_nil_l, <- !app_assoc; done|]. intros r. rewrite <- !app_assoc. by apply decode_enum. }
  destruct (Z.eqb_spec fam FFloat) as [->|_].
  { exists tagFloat, (be 8 (dF d)). split; [intros out; unfold EncodeUint64; by rewrite <- app_assoc|]. intros r. by apply decode_float. }
  destruct (is_string_family fam) eqn:Es.
  { destruct (Z.eqb_spec fam FBool) as [->|_]; [done|]. exists (string_tag fam), (EncodeUvarint [] (Z.of_nat (length (dS d))) ++ dS d).
    split; [intros out; unfold EncodeUvarint; rewrite ?app_nil_l, <- !app_assoc; done|]. intros r. rewrite <- app_assoc. by apply decode_text, string_family_tag. }
  destruct (Z.eqb_spec fam FUuid) as [->|_].
  { exists tagUUID, (dS d). split; [intros out; by rewrite Hw|]. intros r. by apply decode_uuid. }
  destruct (Z.eqb_spec fam FBool) as [->|_]; [|done].
  exists tagBool, [if dB d then 1 else 0]. split; [done|]. intros r. by destruct d as [? ? ? ? ? []].
Qed.

(** ** Rows *)

(** The columns a descriptor stores of a row are known and well formed. *)
Definition row_wf (desc : TableDescriptor) (r : row) : Prop :=
  forall id d, r !! id = Some d -> stored_col desc id d = true ->
    in_i32 id /\ exists col, ColByID desc id = Some col /\ (Null d = true \/ val_wf (cType col) d).

(** What reading a stored column adds to the row. *)
Definition read_col (desc1 desc2 : TableDescriptor) (id : Z) (d : Datum) (out : row) : row :=
  match ColByID desc2 id with
  | None => out
  | Some col => if Null d then <[id := DNull]> out
                else if cType col =? col_type desc1 id then <[id := vstored (col_type desc1 id) d]> out else out
  end.
Definition read_ids (desc1 desc2 : TableDescriptor) (r : row) (ids : list Z) (out : row) : row :=
  fold_left (fun out id => read_col desc1 desc2 id (default datum0 (r !! id)) out) ids out.

Lemma i32_u64 id : in_i32 id -> i32 (u64 id) = id.
Proof.
  unfold in_i32, i32, u64. intros H.
  assert (E : (id mod 2 ^ 64 + 2 ^ 31) mod 2 ^ 32 = (id + 2 ^ 31) mod 2 ^ 32).
  { change (2 ^ 64) with (2 ^ 32 * 2 ^ 32). rewrite Z.rem_mul_r by lia. rewrite <- Z.add_assoc, (Z.add_comm (2 ^ 32 * _)), Z.add_assoc.
    rewrite (Z.mul_comm (2 ^ 32)), Z.mod_add by lia. by rewrite Z.add_mod_idemp_l by lia. }
  rewrite E, Z.mod_small; lia.
Qed.

Lemma decode_row_nil fuel desc out : decode_row fuel desc [] out = Ok out.
Proof. by destruct fuel. Qed.

(** A column of the value, read back. *)
Lemma decode_row_col fuel desc1 desc2 id tag body r d out v :
  in_i32 id -> (length (EncodeUvarint [] (u64 id) ++ tag :: body ++ r) <= S fuel)%nat -> decode_col tag (body ++ r) = Ok (r, v) ->
  match v with None => Null d = true | Some (want, x) => Null d = false /\ want = col_type desc1 id /\ x = vstored want d end ->
  decode_row (S fuel) desc2 (EncodeUvarint [] (u64 id) ++ tag :: body ++ r) out = decode_row fuel desc2 r (read_col desc1 desc2 id d out).
Proof.
  intros Hid Hlen Hdec Hv. destruct (EncodeUvarint [] (u64 id) ++ tag :: body ++ r) as [|c l] eqn:E; [by apply app_eq_nil in E as [_ ?]|].
  cbn [decode_row]. rewrite <- E, uvarint_app by apply u64_bound. cbn [corrupt rmap_err rbind]. rewrite i32_u64, Hdec by done. cbn [rbind].
  unfold read_col. destruct v as [[want x]|].
  - destruct Hv as (-> & -> & ->). done.
  - by rewrite Hv.
Qed.

Lemma encode_ids_decode desc1 desc2 r ids :
  Forall (fun id => exists d, r !! id = Some d /\ in_i32 id /\ exists col, ColByID desc1 id = Some col /\ (Null d = true \/ val_wf (cType col) d)) ids ->
  exists raw, (forall out, encode_ids desc1 r ids out = Ok (out ++ raw)) /\
    forall fuel out, (length raw <= fuel)%nat -> decode_row fuel desc2 raw out = Ok (read_ids desc1 desc2 r ids out).
Proof.
  induction 1 as [|id ids (d & Hd & Hid & col & Hc & Hw) _ IH].
  { exists []. split; [intros out; by rewrite app_nil_r|]. intros fuel out _. apply decode_row_nil. }
  destruct IH as (raw & He & Hr).
  assert (Ht : col_type desc1 id = cType col) by (unfold col_type; by rewrite Hc).
  assert (Hcol : exists tag body v, (forall out, (if Null d then encode_ids desc1 r ids (EncodeUvarint out (u64 id) ++ [tagNull]) else
      let* x := lift_conv (Coerce d (cType col)) in let* o := encode_col (cType col) x (EncodeUvarint out (u64 id)) in encode_ids desc1 r ids o) =
      Ok (out ++ EncodeUvarint [] (u64 id) ++ tag :: body ++ raw)) /\ (forall rest, decode_col tag (body ++ rest) = Ok (rest, v)) /\
      match v with None => Null d = true | Some (want, x) => Null d = false /\ want = col_type desc1 id /\ x = vstored want d end).
  { destruct Hw as [Hn|Hw].
    - exists tagNull, [], None. rewrite Hn. split; [|done]. intros out. rewrite He. unfold EncodeUvarint. by rewrite app_nil_l, <- !app_assoc.
    - pose proof Hw as (Hn & Hf & _). destruct (encode_col_enc _ d Hw) as (tag & body & Hen & Hde).
      exists tag, body, (Some (cType col, vstored (cType col) d)). rewrite Hn. split; [|by rewrite Ht].
      intros out. unfold Coerce. rewrite Hn, Hf, Z.eqb_refl. cbn [lift_conv rbind]. rewrite Hen. cbn [rbind]. rewrite He. unfold EncodeUvarint.
      rewrite app_nil_l, <- !app_assoc. done. }
  destruct Hcol as (tag & body & v & Hen & Hde & Hv). exists (EncodeUvarint [] (u64 id) ++ tag :: body ++ raw). split.
  - intros out. cbn [encode_ids]. rewrite Hc, Hd. cbn [default from_option]. apply Hen.
  - intros [|fuel] out Hlen; [rewrite !length_app in Hlen; cbn in Hlen; rewrite ?length_app in Hlen; lia|].
    rewrite (decode_row_col fuel desc1 desc2 id tag body raw d out v Hid Hlen (Hde raw) Hv). rewrite Hr.
    + cbn [read_ids fold_left]. by rewrite Hd.
    + pose proof (append_uvarint_nonempty 10 (u64 id) ltac:(lia)). unfold EncodeUvarint in Hlen. rewrite !length_app in Hlen. cbn [length] in Hlen.
      rewrite ?length_app in Hlen. lia.
Qed.

(** What a stored column reads as under the reader's descriptor. *)
Definition seen (desc1 desc2 : TableDescriptor) (id : Z) (d : Datum) : option Datum :=
  match ColByID desc2 id with
  | None => None
  | Some col => if Null d then Some DNull else if cType col =? col_type desc1 id then Some (vstored (col_type desc1 id) d) else None
  end.

Lemma read_col_lookup desc1 desc2 id d out j :
  read_col desc1 desc2 id d out !! j = if decide (j = id) then match seen desc1 desc2 id d with Some v => Some v | None => out !! id end else out !! j.
Proof.
  unfold read_col, seen. destruct (ColByID desc2 id) as [col|]; [|by destruct (decide (j = id)) as [->|]].
  destruct (decide (j = id)) as [->|Hne].
  - destruct (Null d); [apply lookup_insert_eq|]. destruct (cType col =? _); [apply lookup_insert_eq|done].
  - destruct (Null d); [by apply lookup_insert_ne|]. destruct (cType col =? _); [by apply lookup_insert_ne|done].
Qed.

Lemma read_ids_lookup desc1 desc2 r ids : NoDup ids -> forall out j,
  read_ids desc1 desc2 r ids out !! j =
    if decide (j ∈ ids) then match seen desc1 desc2 j (default datum0 (r !! j)) with Some v => Some v | None => out !! j end else out !! j.
Proof.
  induction 1 as [|id ids Hni _ IH]; intros out j; cbn [read_ids fold_left].
  { destruct (decide (j ∈ [])) as [H|]; [by apply not_elem_of_nil in H|done]. }
  change (fold_left _ ids ?o) with (read_ids desc1 desc2 r ids o). rewrite IH, read_col_lookup.
  destruct (decide (j ∈ id :: ids)) as [Hc|Hc].
  - destruct (decide (j ∈ ids)) as [Hj|Hj]; [destruct (decide (j = id)) as [->|]; [done|done]|].
    apply elem_of_cons in Hc as [->|]; [|done]. by destruct (decide (id = id)).
  - destruct (decide (j ∈ ids)) as [Hj|Hj]; [exfalso; apply Hc; by apply elem_of_cons; right|].
    destruct (decide (j = id)) as [->|]; [exfalso; apply Hc; by apply elem_of_cons; left|done].
Qed.

Lemma fill_defaults_lookup cols : NoDup (map cID cols) -> forall out id,
  fill_defaults cols out !! id =
    match out !! id with
    | Some v => Some v
    | None => match col_by_id cols id with Some col => if FillDefault col then cDefault col else None | None => None end
    end.
Proof.
  induction cols as [|col cols IH]; intros Hnd out id; cbn [fill_defaults]; [by destruct (out !! id)|].
  inversion Hnd as [|? ? Hni Hnd']; subst. unfold col_by_id. cbn [List.find].
  assert (Hother : cID col = id -> col_by_id cols id = None).
  { intros <-. destruct (col_by_id cols (cID col)) as [c|] eqn:E; [|done]. exfalso. apply Hni. apply List.find_some in E as [Hin He]. zb.
    rewrite <- He. apply list_elem_of_In. by apply in_map. }
  destruct (cDefault col) as [dv|] eqn:Ed; [destruct (out !! cID col) as [v|] eqn:Eo|]; rewrite IH by done; fold (col_by_id cols id).
  - destruct (Z.eqb_spec (cID col) id) as [<-|]; [by rewrite Eo|done].
  - destruct (Z.eqb_spec (cID col) id) as [Hid|Hne].
    + rewrite (Hother Hid). subst id. destruct (FillDefault col); [by rewrite lookup_insert_eq, Eo|by rewrite Eo].
    + destruct (FillDefault col); [by rewrite lookup_insert_ne by done|done].
  - destruct (Z.eqb_spec (cID col) id) as [Hid|Hne]; [|done]. rewrite (Hother Hid), Ed. by destruct (out !! id), (FillDefault col).
Qed.

Lemma stored_ids_elem desc r id : id ∈ stored_ids desc r <-> exists d, r !! id = Some d /\ stored_col desc id d = true.
Proof.
  unfold stored_ids. rewrite merge_sort_Permutation. rewrite list_elem_of_In, in_map_iff. split.
  - intros ([j d] & <- & Hin). apply filter_In in Hin as [Hin Hs]. exists d. split; [|done]. apply elem_of_map_to_list. by apply list_elem_of_In.
  - intros (d & Hd & Hs). exists (id, d). split; [done|]. apply filter_In. split; [|done]. apply list_elem_of_In. by apply elem_of_map_to_list.
Qed.

Lemma stored_ids_nodup desc r : NoDup (stored_ids desc r).
Proof.
  unfold stored_ids. rewrite merge_sort_Permutation. pose proof (NoDup_fst_map_to_list r) as H. revert H.
  generalize (map_to_list r) as l. induction l as [|p l IH]; intros H; cbn [List.filter map]; [constructor|].
  inversion H as [|? ? Hni Hnd]; subst. destruct (stored_col desc p.1 p.2); [|by apply IH]. cbn [map]. constructor; [|by apply IH].
  intros Hin. apply Hni. apply list_elem_of_In in Hin. apply in_map_iff in Hin as (q & Hq & Hin). apply filter_In in Hin as [Hin _].
  rewrite <- Hq. apply list_elem_of_In. by apply in_map.
Qed.

(** The column a reader finds in the bytes, and what it reads without them. *)
Definition recovered (desc1 desc2 : TableDescriptor) (r : row) (id : Z) : option Datum :=
  match r !! id with Some d => if stored_col desc1 id d then seen desc1 desc2 id d else None | None => None end.
Definition default_of (desc : TableDescriptor) (id : Z) : option Datum :=
  match ColByID desc id with Some col => if FillDefault col then cDefault col else None | None => None end.

(** C17: A row value written under one descriptor reads under any other as
    the columns both know with one type, NULLs included where they were
    recorded; columns the reader does not know are skipped, and columns the
    bytes lack read as their fill default, or not at all. *)
Theorem row_value_roundtrip desc1 desc2 r r' :
  retype_cols (tColumns desc1) r = Ok r' -> row_wf desc1 r' -> NoDup (map cID (tColumns desc2)) ->
  exists raw out, EncodeValue desc1 r = Ok (r', raw) /\ DecodeValue desc2 raw = Ok out /\
    forall id, out !! id = match recovered desc1 desc2 r' id with Some v => Some v | None => default_of desc2 id end.
Proof.
  intros Hre Hwf Hnd. destruct (encode_ids_decode desc1 desc2 r' (stored_ids desc1 r')) as (raw & He & Hd).
  { apply Forall_forall. intros id Hid. apply stored_ids_elem in Hid as (d & Hd & Hs). destruct (Hwf id d Hd Hs) as (Hi & col & Hc). eauto 10. }
  exists ([valueVersion] ++ raw), (fill_defaults (tColumns desc2) (read_ids desc1 desc2 r' (stored_ids desc1 r') ∅)).
  unfold EncodeValue. rewrite Hre. cbn [rbind]. rewrite He. cbn [rbind]. split; [done|]. split.
  - unfold DecodeValue. cbn [app]. change (negb (valueVersion =? valueVersion)) with false. cbv iota. by rewrite Hd.
  - intros id. rewrite fill_defaults_lookup, read_ids_lookup by (done || apply stored_ids_nodup). rewrite lookup_empty. unfold recovered, default_of, ColByID.
    destruct (decide (id ∈ stored_ids desc1 r')) as [Hid|Hid].
    + apply stored_ids_elem in Hid as (d & Hr & Hs). rewrite Hr, Hs. change (default datum0 (Some d)) with d. by destruct (seen desc1 desc2 id d).
    + destruct (r' !! id) as [d|] eqn:Hr; [|done]. destruct (stored_col desc1 id d) eqn:Hs; [|done]. exfalso. apply Hid, stored_ids_elem. eauto.
Qed.
End Values.

(** ** Witness *)

(** The table of RowencSpec after column 4 was dropped and column 5 added
    with a default that fills old rows. *)
Definition ex_table2 : TableDescriptor :=
  mkTable 100 [mkColumn 1 FString None false 0; mkColumn 2 FTimestamp None false 0; mkColumn 3 FInt None false 0; mkColumn 5 FBool (Some (NewBool true)) true 0] [1; 2] 0 0.

Lemma row_value_roundtrip_witness :
  exists raw out, EncodeValue ex_table ex_row = Ok (ex_row, raw) /\ DecodeValue ex_table2 raw = Ok out /\
    out !! 3 = Some (NewInt 5) /\ out !! 4 = None /\ out !! 5 = Some (NewBool true).
Proof.
  destruct (row_value_roundtrip ex_table ex_table2 ex_row ex_row) as (raw & out & He & Hd & Hl).
  - reflexivity.
  - intros id d Hr Hs.
    assert (Hin : (id, d) ∈ map_to_list ex_row) by (by apply elem_of_map_to_list).
    assert (E : map_to_list ex_row = ltac:(let l := eval vm_compute in (map_to_list ex_row) in exact l)) by reflexivity. rewrite E in Hin.
    rewrite !elem_of_cons in Hin. destruct Hin as [[= -> ->]|[[= -> ->]|[[= -> ->]|[[= -> ->]|H]]]].
    all: try (by apply not_elem_of_nil in H); try discriminate; (split; [by_compute|]).
    all: eexists; (split; [reflexivity|]); right; split; [reflexivity|]; split; [reflexivity|]; by_compute.
  - by_compute.
  - exists raw, out. split; [exact He|]. split; [exact Hd|]. rewrite !Hl. split; [reflexivity|]. split; reflexivity.
Defined.
